(* ===== verification/_CoqProject ===== *)
-Q . S2P
Prelude.v
Redis.v
RedisRef.v
Client.v
DbFacts.v
Keys.v
Footprint.v
Rely.v
KvScripts.v
KvIndex.v
KvStore.v
KvSpec.v
KvOps.v
KvListing.v
KvScan.v
KvUpkeep.v
KvSweep.v
KvHistory.v
KvRef.v
KvProperties.v
Text.v
Lease.v
LeaseSpec.v
LeaseRun.v
LeaseNet.v
LeaseHandle.v
LeaseProperties.v
Envelope.v
PubSub.v
Broker.v
Subscription.v
PubSubProperties.v
Config.v
ConfigProperties.v
Peer.v
PeerRun.v
PeerNet.v
PeerProperties.v
Maintenance.v
Backend.v
Service.v
Watch.v
Departure.v
UpkeepRun.v
UpkeepQuiet.v
UpkeepTrust.v
UpkeepProperties.v
BackendProperties.v
SourceTests.v
