(* ===== verification/Prelude.v ===== *)
(** * dev.mcpg.cluster.redis: a verification of the Redis cluster coordinator

    The program is a plugin that coordinates replicas of a gateway over one
    Redis: a key/value store with listings, leases with fencing tokens,
    publish/subscribe, and a registry of peers.  Every replica runs the same
    code; they share nothing but the server.  This development models the
    code of [src/src/] and proves what each part guarantees, with the server,
    the network, the clocks and the other replicas left as general as their
    documentation leaves them.

    ** What is a parameter

    Redis is the class [RedisServer] (Redis.v) with its documented behaviour
    as the laws [RedisLaws]: each command against a database of values with
    deadlines, expiry as time passes, atomic Lua scripts, glob patterns,
    [SCAN] passes.  RedisRef.v is a member that computes; it shows that the
    laws hold together and is what the witnesses run on.  Other parameters,
    each a class or an argument: [serde_json] for the listing cursor
    ([CursorJson]) and for registrations ([PeerJson], [PeerJsonLaws]),
    [chrono]'s RFC 3339 text ([Chrono]), the parsed configuration object, the
    environment, the file system, the hash function behind a random node id,
    the stream helpers of the plugin SDK, and what the [redis] crate answers
    to an attempt to connect, subscribe or publish.  Redis's pub/sub is the
    class [Broker] (Broker.v): [PUBLISH] passes a message on, once, before it
    is answered; its laws [BrokerLaws] have a computing member too.

    Client.v is a replica at work: a state-and-error monad over a [world] -
    the server, its time, this replica's clock skew, and for each round trip
    to come its delay, what other clients run meanwhile, and whether the
    request or its reply is lost or the reply late.

    ** The parts

    - Key/value store, [state/kv.rs].  KvScripts.v has the eight Lua scripts
      (doubles where Lua computes with doubles), KvStore.v the operations of
      [RedisKv].  KvIndex.v is the database-level invariant of the two
      indexes, KvSpec.v the contract on a plain map, KvOps.v, KvListing.v,
      KvScan.v, KvUpkeep.v, KvSweep.v and KvHistory.v the theory of calls,
      pages, backfills, sweeps and histories; KvProperties.v the results.
    - Names, Keys.v: every key and channel under the configured prefix
      ([lease_keys] of [lib.rs], [peer.rs], [pubsub.rs], [state/topic.rs]).
    - Leases, [lease.rs].  Lease.v has the scripts and operations, LeaseSpec.v
      the abstract lease and the refinement, LeaseRun.v what the calls do over
      the network, LeaseNet.v sessions of calls over one that loses requests,
      LeaseHandle.v the reference counts of a handle as a step relation;
      LeaseProperties.v the results.
    - Messages: Envelope.v ([envelope.rs]); PubSub.v ([pubsub.rs] and
      [state/topic.rs]), the forwarding task a state machine over what it
      sees; Subscription.v the same task action by action between its
      connection and its bounded channel, a refinement of that machine;
      Broker.v what a deployment's publishers put through Redis and what
      arrives on a subscription's connection; PubSubProperties.v the results.
      Text.v is the part of [str] that the code uses.
    - Configuration: Config.v and ConfigProperties.v ([config.rs]).
    - Peers: Peer.v ([peer.rs]); PeerRun.v is the theory of its calls, PeerNet.v
      that of a refreshing replica among others; PeerProperties.v the results.
    - Upkeep: Maintenance.v ([maintenance.rs]); UpkeepRun.v and UpkeepQuiet.v
      are the theory of a turn, UpkeepTrust.v that of the task's whole run in
      a fleet that keeps its promises; UpkeepProperties.v the results.
    - The coordinator: Backend.v ([lib.rs]), with the task of [watch_peers];
      Service.v is the theory of the FFI's key/value calls, Watch.v that of the
      watch, Departure.v that of a node that left; BackendProperties.v the
      results.
    - SourceTests.v: the unit tests of the repository, run on the definitions.

    RedisKv reads and writes through Client.v; Maintenance.v composes
    RedisKv, the lease and the peer registry as [run] does; Backend.v composes
    them all as the entry points do.  Footprint.v (which keys a script
    writes) is how one component's theorems are used in the presence of the
    others, and Rely.v how what the replicas promise each other is: a relation
    that the others' scripts and the client's own keep.

    ** What the theorems show

    - The store answers as its contract, for any history of a fleet whose
      clocks differ and which runs the upkeep scripts on any keys in between
      ([kv_fleet_contract]), in the ranges
      [op_in_range]; outside them (counters past 2^53, TTLs the server
      refuses) it does what [incr_reports_double] and [refused_ttl_counts]
      say.  So do the FFI's calls, from when an attempt to connect succeeds
      ([coordinator_serves_store]).
    - Under any interleaving and any loss of requests and replies every data
      key stays in the key index and, unless a key was backfilled in its last
      millisecond, the expiry index covers every key that can expire.
    - Listings by either means end and are exact; a sweep drops exactly the
      stale entries; a completed backfill has every key, though others write
      meanwhile; completion, by the task or on demand, is sound - by the task
      only as backfill, listing, marker, in this order - and on a
      quiet network a turn of the lock's holder achieves it.  Among builds
      that write the index no run of the task raises a flag or leaves a marker
      over an incomplete one ([maintenance_keeps_trust]).
    - A lease is held by one holder at a time, its fencing tokens increase,
      a prompt network keeps it renewed, a released handle is inert; over a
      network that loses requests the calls of a replica are operations of the
      abstract lease, each at most once ([lossy_calls_linearize]), and its
      handles stay well formed.  A handle's renewal task is in this: it and
      the calls take turns under the connection's lock, a request each, so its
      renewals are calls of the session.  And what the stated expiry is worth
      ([stated_expiry]), and a stale handle, a lock called [x:fence] or an
      unreleased handle do.
    - Messages round-trip; whatever is published through [publish_async], the
      topic bus and Redis, a subscription and a bus stream get exactly what is
      for them, in order ([subscription_delivers], [topic_bus_delivers]); a
      subscription's channel keeps its bound in every interleaving
      ([subscription_refines]) and everything that arrived is delivered
      ([subscription_drains]).
    - The registry lists who is alive, a refreshing replica at all times; a
      watch tells exactly how the listings of its own run differ
      ([watch_replays]), reports nobody gone whose registration
      lives ([watch_keeps_the_living]) and whoever left by a shutdown
      ([departure_reported]).
    - A configuration is accepted, with the documented defaults, exactly when
      nothing is wrong with what it says, else refused with the first thing
      that is ([parse_accepts]); its [Debug] text hides the password unless
      the URL's is unescaped.

    ** Bounds and fuel

    Integers are [Z] with their widths written out ([clamp], [mod 2^64],
    [as_u64], [is_i64]); a Lua number that the code treats as an integer is
    the integer it holds, rounded by [dround].  Server times are assumed up to
    2^53 ms.  Loops of requests take fuel: the theorems on listings, sweeps,
    backfills, peer listings and the polling acquire prove that some fuel, or
    every fuel past a stated bound, returns; [OutOfFuel] is no error of the
    program.  The renewal task, the refresher and the maintenance loop do not
    end: they are run for a number of rounds.

    ** Not modelled

    - What [mcpg_plugin_sdk] does with the streams that the FFI's [subscribe],
      [watch_peers] and [cancel_stream] hand it; [declare_plugin!] is its
      macro, whose factory is [from_config_json].
    - Logging, the crypto provider and the Tokio runtime; the race of two
      first connections ([OnceCell] admits one).
    - The 2 s timeout of a departing replica's deregistration: the server is
      then left as by a lost request or reply, which the networks have, and
      the result is ignored in any case.
    - The channel of a watch ([Subscription.v] has a subscription's): its
      receiver takes every event, or goes after so many, and its sends wait.
    - The peer scan that a watch shares with other calls of its replica is its
      own in [watch_task].
    - A renewal task's requests between the requests of a maintenance turn
      come in as other clients' scripts of [w_net], not as a thread.
    - Replies that are not UTF-8 where a [String] is asked for; panics of
      [chrono] past year 262000.

    ** What could follow

    The fleet as one system of whole turns and calls, from which the promises
    of the others ([heeds], [spares], [gentle], [keeps_out]) follow for all
    components at once, where now each command of the others is shown to keep
    them. *)

From stdpp Require Export base option list gmap strings sorting.
From Stdlib Require Export ZArith Lia.

(** ** Rust's [Result], its [?] operator, and [Option] sequencing *)

Inductive result (A E : Type) : Type :=
| Ok (a : A)
| Err (e : E).
Arguments Ok {A E} a.
Arguments Err {A E} e.

Definition result_map {A B E} (f : A → B) (r : result A E) : result B E :=
  match r with Ok a => Ok (f a) | Err e => Err e end.

Definition map_err {A E F} (f : E → F) (r : result A E) : result A F :=
  match r with Ok a => Ok a | Err e => Err (f e) end.

Definition is_ok {A E} (r : result A E) : bool :=
  match r with Ok _ => true | Err _ => false end.

Declare Scope rust_scope.
Delimit Scope rust_scope with rust.
Open Scope rust_scope.

Notation "'let?' x ':=' r 'in' k" :=
  (match r with Ok x => k | Err e => Err e end)
  (at level 10, x pattern, r at level 100, k at level 200) : rust_scope.

(** ** Machine integers *)

Open Scope Z_scope.

Definition u16_max : Z := 2 ^ 16 - 1.
Definition u32_max : Z := 2 ^ 32 - 1.
Definition u64_max : Z := 2 ^ 64 - 1.
Definition i64_min : Z := - 2 ^ 63.
Definition i64_max : Z := 2 ^ 63 - 1.

Definition in_u64 (z : Z) : Prop := 0 ≤ z ≤ u64_max.
Definition in_i64 (z : Z) : Prop := i64_min ≤ z ≤ i64_max.
Definition is_i64 (z : Z) : bool := (i64_min <=? z) && (z <=? i64_max).

(** [clamp lo hi z] is Rust's [Ord::clamp]. *)
Definition clamp (lo hi z : Z) : Z := Z.max lo (Z.min hi z).

(** [u64::saturating_add]. *)
Definition sat_add_u64 (a b : Z) : Z := Z.min u64_max (a + b).

Lemma is_i64_spec z : is_i64 z = true ↔ in_i64 z.
Proof. unfold is_i64, in_i64. rewrite andb_true_iff, !Z.leb_le. done. Qed.

Lemma clamp_bounds lo hi z : lo ≤ hi → lo ≤ clamp lo hi z ≤ hi.
Proof. unfold clamp. lia. Qed.

Lemma clamp_id lo hi z : lo ≤ z ≤ hi → clamp lo hi z = z.
Proof. unfold clamp. lia. Qed.

(** ** Durations

    [std::time::Duration] as its nanoseconds. *)

Definition from_millis (ms : Z) : Z := ms * 1000000.
Definition as_millis (d : Z) : Z := d / 1000000.

Lemma as_from_millis ms : as_millis (from_millis ms) = ms.
Proof. unfold as_millis, from_millis. by apply Z.div_mul. Qed.

(** ** Doubles

    Lua 5.1 has one number type, the IEEE 754 double, and Redis scores are
    doubles too.  The scripts of this program only meet integer values, so a
    double is kept as the integer it holds and [dround] is the rounding to
    the nearest double (ties to even) that every conversion and every
    arithmetic step ends with. *)

(** [a] in units of [u], rounded to nearest, ties to even. *)
Definition round_quot (a u : Z) : Z :=
  let q := a / u in
  let r := a mod u in
  if (2 * r <? u) || ((2 * r =? u) && Z.even q) then q else q + 1.

Definition dround (z : Z) : Z :=
  let a := Z.abs z in
  if a <=? 2 ^ 53 then z
  else
    let u := 2 ^ (Z.log2 a - 52) in
    Z.sgn z * (round_quot a u * u).

Lemma round_quot_ge a u : a / u ≤ round_quot a u.
Proof. unfold round_quot. case_match; lia. Qed.

Lemma dround_exact z : Z.abs z ≤ 2 ^ 53 → dround z = z.
Proof. intros H. unfold dround. by rewrite (proj2 (Z.leb_le _ _) H). Qed.

Lemma log2_past_53 a : 2 ^ 53 < a → 53 ≤ Z.log2 a.
Proof.
  intros H. change 53 with (Z.log2 (2 ^ 53)). apply Z.log2_le_mono. lia.
Qed.

Lemma dround_unit a : 2 ^ 53 < a → 2 ≤ 2 ^ (Z.log2 a - 52).
Proof.
  intros H. pose proof (log2_past_53 a H).
  change 2 with (2 ^ 1) at 1. apply Z.pow_le_mono_r; lia.
Qed.

(** A value at or past 2^53 is never rounded below it, so a guard on the
    rounded value is a guard on the value. *)
Lemma dround_large z : 2 ^ 53 ≤ Z.abs z → 2 ^ 53 ≤ Z.abs (dround z).
Proof.
  intros H. unfold dround.
  destruct (Z.leb_spec (Z.abs z) (2 ^ 53)) as [|Hgt]; [done|].
  set (a := Z.abs z) in *. pose proof (dround_unit a Hgt) as Hu.
  pose proof (log2_past_53 a Hgt) as Hl.
  set (u := 2 ^ (Z.log2 a - 52)) in *.
  destruct (Z.log2_spec a ltac:(lia)) as [Hlo _].
  assert (2 ^ 52 ≤ a / u).
  { apply Z.div_le_lower_bound; [lia|].
    rewrite Z.mul_comm. unfold u. rewrite <- Z.pow_add_r by lia.
    replace (52 + (Z.log2 a - 52)) with (Z.log2 a) by lia. done. }
  pose proof (round_quot_ge a u). set (q := round_quot a u) in *.
  rewrite Z.abs_mul, (Z.abs_eq (q * u)) by nia.
  assert (Z.abs (Z.sgn z) = 1) as -> by lia.
  nia.
Qed.

Lemma dround_small_inv z : Z.abs (dround z) < 2 ^ 53 → dround z = z.
Proof.
  intros H. apply dround_exact.
  destruct (Z.le_gt_cases (2 ^ 53) (Z.abs z)) as [Hz|]; [|lia].
  pose proof (dround_large z Hz). lia.
Qed.

Lemma dround_nonneg z : 0 ≤ z → 0 ≤ dround z.
Proof.
  intros H. unfold dround.
  destruct (Z.leb_spec (Z.abs z) (2 ^ 53)) as [|Hgt]; [done|].
  pose proof (dround_unit _ Hgt) as Hu.
  set (u := 2 ^ (Z.log2 (Z.abs z) - 52)) in *.
  pose proof (round_quot_ge (Z.abs z) u).
  assert (0 ≤ Z.abs z / u) by (apply Z.div_pos; lia).
  apply Z.mul_nonneg_nonneg; [lia|]. apply Z.mul_nonneg_nonneg; lia.
Qed.

Lemma dround_pos z : 0 < z → 0 < dround z.
Proof.
  intros H. destruct (Z.le_gt_cases (Z.abs z) (2 ^ 53)) as [Hs|Hs].
  - by rewrite dround_exact.
  - pose proof (dround_nonneg z). pose proof (dround_large z). lia.
Qed.

(** ** Byte strings

    Every Rust string, key and payload is the sequence of its bytes; the
    type is [string], whose characters are bytes.  [format!] is [+:+]. *)

Definition byte_ff : Ascii.ascii := Ascii.Ascii true true true true true true true true.

Fixpoint strip_prefix (p s : string) : option string :=
  match p, s with
  | EmptyString, _ => Some s
  | String a p', String b s' => if decide (a = b) then strip_prefix p' s' else None
  | String _ _, EmptyString => None
  end.

Definition starts_with (p s : string) : bool :=
  match strip_prefix p s with Some _ => true | None => false end.

(** [str::contains]. *)
Fixpoint str_contains (needle hay : string) : bool :=
  starts_with needle hay ||
  match hay with EmptyString => false | String _ hay' => str_contains needle hay' end.

Fixpoint str_has (c : Ascii.ascii) (s : string) : bool :=
  match s with EmptyString => false | String a s' => bool_decide (a = c) || str_has c s' end.

Definition is_empty (s : string) : bool :=
  match s with EmptyString => true | String _ _ => false end.

Lemma append_cons a s t : String a s +:+ t = String a (s +:+ t).
Proof. done. Qed.

Lemma append_nil_l s : "" +:+ s = s.
Proof. done. Qed.

Lemma append_nil_r s : s +:+ "" = s.
Proof. induction s as [|a s IH]; [done|]. rewrite append_cons. by rewrite IH. Qed.

Lemma append_assoc s t u : (s +:+ t) +:+ u = s +:+ (t +:+ u).
Proof. induction s as [|a s IH]; [done|]. by rewrite !append_cons, IH. Qed.

Lemma append_length s t :
  String.length (s +:+ t) = (String.length s + String.length t)%nat.
Proof. induction s as [|a s IH]; [done|]. rewrite append_cons. simpl. lia. Qed.

Lemma append_inj_l p s t : p +:+ s = p +:+ t → s = t.
Proof. apply String.app_inj. Qed.

Lemma append_inj_r s t p : s +:+ p = t +:+ p → s = t.
Proof.
  revert t. induction s as [|a s IH]; intros [|b t]; rewrite ?append_cons, ?append_nil_l;
    intros H; [done| | |].
  1,2: apply (f_equal String.length) in H; simpl in H; rewrite append_length in H; lia.
  - injection H as -> H. f_equal. by apply IH.
Qed.

Lemma strip_prefix_Some p s r : strip_prefix p s = Some r ↔ s = p +:+ r.
Proof.
  revert s. induction p as [|a p IH]; intros s; simpl.
  - rewrite append_nil_l. naive_solver.
  - rewrite append_cons. destruct s as [|b s]; [done|].
    case_decide as E; [subst; rewrite IH; naive_solver|naive_solver].
Qed.

Lemma strip_prefix_append p r : strip_prefix p (p +:+ r) = Some r.
Proof. by apply strip_prefix_Some. Qed.

Lemma starts_with_spec p s : starts_with p s = true ↔ ∃ r, s = p +:+ r.
Proof.
  unfold starts_with. destruct (strip_prefix p s) as [r|] eqn:E.
  - apply strip_prefix_Some in E. naive_solver.
  - split; [done|]. intros [r ->]. by rewrite strip_prefix_append in E.
Qed.

Lemma starts_with_append p r : starts_with p (p +:+ r) = true.
Proof. apply starts_with_spec. eauto. Qed.

Lemma starts_with_trans p q s :
  starts_with p q = true → starts_with q s = true → starts_with p s = true.
Proof.
  rewrite !starts_with_spec. intros [r ->] [r' ->]. rewrite append_assoc. eauto.
Qed.

Lemma str_contains_starts p s : starts_with p s = true → str_contains p s = true.
Proof. destruct s; simpl; intros ->; done. Qed.

Lemma str_contains_app_r p s t : str_contains p t = true → str_contains p (s +:+ t) = true.
Proof.
  intros H. induction s as [|a s IH]; [done|]. rewrite append_cons. simpl. rewrite IH.
  apply orb_true_r.
Qed.

Lemma str_has_app c s t : str_has c (s +:+ t) = str_has c s || str_has c t.
Proof.
  induction s as [|a s IH]; [done|]. rewrite append_cons. simpl. rewrite IH.
  by rewrite orb_assoc.
Qed.

(** *** Byte order

    [String.compare] compares byte by byte; [String.le] is stdpp's partial
    order over it. *)

Definition str_lt (s t : string) : Prop := String.compare s t = Lt.

#[export] Instance str_lt_dec : RelDecision str_lt.
Proof. intros s t. unfold str_lt. apply _. Defined.

Lemma str_compare_refl s : String.compare s s = Eq.
Proof.
  induction s as [|a s IH]; [done|]. simpl. unfold Ascii.compare.
  by rewrite N.compare_refl.
Qed.

Lemma str_le_lteq s t : String.le s t ↔ str_lt s t ∨ s = t.
Proof.
  unfold String.le, String.leb, str_lt. rewrite Is_true_true.
  destruct (String.compare s t) eqn:E; [|naive_solver|].
  - apply String.compare_eq_iff in E. naive_solver.
  - split; [done|]. intros [| ->]; [done|]. by rewrite str_compare_refl in E.
Qed.

Lemma str_lt_le s t : str_lt s t → String.le s t.
Proof. rewrite str_le_lteq. auto. Qed.

Lemma str_lt_irrefl s : ¬ str_lt s s.
Proof. unfold str_lt. by rewrite str_compare_refl. Qed.

Lemma str_lt_not_le s t : str_lt s t ↔ ¬ String.le t s.
Proof.
  unfold String.le, String.leb, str_lt. rewrite Is_true_true.
  rewrite String.compare_antisym. destruct (String.compare t s); simpl; naive_solver.
Qed.

Lemma str_le_lt_trans s t u : String.le s t → str_lt t u → str_lt s u.
Proof.
  intros Hst Htu. apply str_lt_not_le. intros Hus. apply str_lt_not_le in Htu.
  apply Htu. by etrans.
Qed.

Lemma str_lt_le_trans s t u : str_lt s t → String.le t u → str_lt s u.
Proof.
  intros Hst Htu. apply str_lt_not_le. intros Hus. apply str_lt_not_le in Hst.
  apply Hst. by etrans.
Qed.

Lemma ascii_compare_refl a : Ascii.compare a a = Eq.
Proof. unfold Ascii.compare. apply N.compare_refl. Qed.

Lemma compare_app_same p s t :
  String.compare (p +:+ s) (p +:+ t) = String.compare s t.
Proof.
  induction p as [|a p IH]; [done|]. rewrite !append_cons. simpl.
  by rewrite ascii_compare_refl.
Qed.

Lemma str_le_app_r p s : String.le p (p +:+ s).
Proof.
  apply Is_true_true. unfold String.leb. rewrite <- (append_nil_r p) at 1.
  rewrite compare_app_same. by destruct s.
Qed.

Lemma ascii_lt_ff a : a ≠ byte_ff → Ascii.compare a byte_ff = Lt.
Proof. by destruct a as [[] [] [] [] [] [] [] []]. Qed.

Lemma ascii_compare_ff_eq a : Ascii.compare a byte_ff = Eq → a = byte_ff.
Proof. apply Ascii.compare_eq_iff. Qed.

(** The keys with prefix [p], as a range in byte order: a key without the
    byte 0xFF lies between [p] and [p] followed by 0xFF exactly when it
    starts with [p]. *)
Lemma prefix_range p k :
  str_has byte_ff k = false →
  (String.le p k ∧ str_lt k (p +:+ String byte_ff "")) ↔ starts_with p k = true.
Proof.
  intros Hff. rewrite starts_with_spec. split.
  - intros [Hlo Hhi]. revert k Hff Hlo Hhi.
    induction p as [|a p IH]; intros k Hff Hlo Hhi.
    { exists k. done. }
    destruct k as [|b k]; [done|]. simpl in Hff. apply orb_false_iff in Hff as [_ Hff].
    rewrite append_cons in Hhi. unfold str_lt in Hhi. simpl in Hhi.
    unfold String.le, String.leb in Hlo. simpl in Hlo.
    destruct (Ascii.compare b a) eqn:E; [|exfalso|done].
    + apply Ascii.compare_eq_iff in E as ->. rewrite ascii_compare_refl in Hlo.
      destruct (IH k) as [r ->]; [done|exact Hlo|exact Hhi|]. exists r. done.
    + rewrite Ascii.compare_antisym, E in Hlo. done.
  - intros [r ->]. split; [apply str_le_app_r|].
    unfold str_lt. rewrite compare_app_same.
    rewrite str_has_app in Hff. apply orb_false_iff in Hff as [_ Hff].
    destruct r as [|c r]; [done|]. simpl in Hff. apply orb_false_iff in Hff as [Hc _].
    apply bool_decide_eq_false in Hc. simpl. by rewrite (ascii_lt_ff c Hc).
Qed.

(** ** Lists *)

Lemma sublist_omap {A B} (f : A → option B) l1 l2 : l1 `sublist_of` l2 → omap f l1 `sublist_of` omap f l2.
Proof.
  induction 1 as [|x l1 l2 _ IH|x l1 l2 _ IH]; cbn; [done|..]; destruct (f x); by try constructor.
Qed.

Lemma elem_of_take_in {A} (x : A) n l : x ∈ take n l → x ∈ l.
Proof. intros H. rewrite <- (take_drop n l). apply elem_of_app. auto. Qed.

Lemma elem_of_drop_in {A} (x : A) n l : x ∈ drop n l → x ∈ l.
Proof. intros H. rewrite <- (take_drop n l). apply elem_of_app. auto. Qed.

Lemma sublist_Forall {A} (P : A → Prop) (l k : list A) : l `sublist_of` k → Forall P k → Forall P l.
Proof. induction 1; rewrite ?Forall_cons; naive_solver. Qed.

Lemma sublist_sorted {A} (R : relation A) (l k : list A) :
  l `sublist_of` k → StronglySorted R k → StronglySorted R l.
Proof.
  induction 1 as [|x l k Hs IH|x l k Hs IH]; [done| |];
    intros [Hk Hx]%StronglySorted_inv; [|auto].
  constructor; [auto|]. by eapply sublist_Forall.
Qed.
