(* ===== verification/Redis.v ===== *)
(** * The Redis server as the program sees it

    Redis is not part of this repository: it is a parameter.  This file holds
    the vocabulary of that parameter - values, commands, replies - and the
    class [RedisServer] of servers, whose laws [RedisLaws] state the
    documented behaviour of each command the program sends.  Every theorem
    about the program is proved for an arbitrary member of the class;
    [RedisRef.v] gives a concrete member, on which the witnesses compute.

    Times are milliseconds of the server's clock. *)

From S2P Require Import Prelude.

(** ** Values and the logical database *)

Inductive robj : Type :=
| RStr (v : string)
| RZset (z : gmap string Z).

(** A key's value and the server time at which it expires. *)
Record rval : Type := RVal { r_obj : robj; r_expiry : option Z }.

Abbreviation db := (gmap string rval).

(** ** Commands and replies *)

(** Bounds of a score range. *)
Inductive score_bound : Type := NegInf | PosInf | Incl (z : Z) | Excl (z : Z).

Inductive cmd : Type :=
| GET (k : string)
| SET (k v : string) (nx : bool) (px : option Z)
| DEL (k : string)
| EXISTS (k : string)
| PTTL (k : string)
| PEXPIRE (k : string) (ms : Z)
| PERSIST (k : string)
| INCRBY (k : string) (delta : Z)
| MGET (ks : list string)
| ZADD (k : string) (score : Z) (m : string)
| ZREM (k m : string)
| ZRANGEBYLEX (k lo hi : string) (limit : option Z)
| ZRANGEBYSCORE (k : string) (lo hi : score_bound) (limit : option Z)
| ZREMRANGEBYSCORE (k : string) (lo hi : score_bound).

Inductive reply : Type :=
| RNil
| RStatus
| RInt (z : Z)
| RBulk (v : string)
| RStrs (l : list string)
| ROpts (l : list (option string))
| RErr (e : string).

Definition wrongtype : string :=
  "WRONGTYPE Operation against a key holding the wrong kind of value".
Definition not_integer : string := "ERR value is not an integer or out of range".
Definition incr_overflow : string := "ERR increment or decrement would overflow".
Definition bad_expire : string := "ERR invalid expire time".
Definition bad_lex : string := "ERR min or max not valid string range item".

(** [INCR k] is [INCRBY k 1]. *)
Definition INCR (k : string) : cmd := INCRBY k 1.

(** ** Sorted sets

    Redis keeps a sorted set ordered by score, then by member in byte order;
    a set whose scores are all equal is in byte order. *)

Definition zle (a b : Z * string) : Prop :=
  a.1 < b.1 ∨ (a.1 = b.1 ∧ String.le a.2 b.2).

#[export] Instance zle_dec : RelDecision zle.
Proof. intros a b. unfold zle. apply _. Defined.

#[export] Instance zle_trans : Transitive zle.
Proof.
  intros a b c [H|[H1 H2]] [H'|[H1' H2']]; unfold zle; [lia..|].
  right. split; [congruence|by etrans].
Qed.

#[export] Instance zle_total : Total zle.
Proof.
  intros [x s] [y t]. unfold zle; simpl. destruct (Z.lt_trichotomy x y) as [?|[->|?]]; auto.
  destruct (total String.le s t); auto.
Qed.

(** The (score, member) pairs in the set's order. *)
Definition zitems (z : gmap string Z) : list (Z * string) :=
  merge_sort zle ((λ p : string * Z, (p.2, p.1)) <$> map_to_list z).

Definition above (b : score_bound) (x : Z) : bool :=
  match b with NegInf => true | PosInf => false | Incl z => z <=? x | Excl z => z <? x end.

Definition below (b : score_bound) (x : Z) : bool :=
  match b with NegInf => false | PosInf => true | Incl z => x <=? z | Excl z => x <? z end.

Definition in_scores (lo hi : score_bound) (x : Z) : bool := above lo x && below hi x.

(** The ends of a lexicographical range: ["[s"] includes [s], ["(s"] excludes it. *)
Inductive lex_bound : Type := LexIncl (s : string) | LexExcl (s : string).

Definition parse_lex (raw : string) : option lex_bound :=
  match strip_prefix "[" raw with
  | Some s => Some (LexIncl s)
  | None => LexExcl <$> strip_prefix "(" raw
  end.

Definition lex_above (b : lex_bound) (m : string) : bool :=
  match b with
  | LexIncl s => bool_decide (String.le s m)
  | LexExcl s => bool_decide (str_lt s m)
  end.

Definition lex_below (b : lex_bound) (m : string) : bool :=
  match b with
  | LexIncl s => bool_decide (String.le m s)
  | LexExcl s => bool_decide (str_lt m s)
  end.

(** [LIMIT 0 n]: the first [n], or all of them for a negative [n]. *)
Definition limited {A} (limit : option Z) (l : list A) : list A :=
  match limit with
  | None => l
  | Some n => if (n <? 0) || (Z.of_nat (length l) <=? n) then l else take (Z.to_nat n) l
  end.

(** The count of a [LIMIT] is a signed 64-bit integer. *)
Definition limit_ok (limit : option Z) : bool :=
  match limit with None => true | Some n => is_i64 n end.

(** ** What the documentation leaves to the server *)

(** What Lua's [tonumber] makes of a text: an integer-valued double, or some
    other number - a fraction, an infinity, not-a-number - of which only
    matters whether its magnitude reaches 2^53. *)
Inductive lua_num : Type := LInt (z : Z) | LOther (huge : bool).

(** Server behaviour the program relies on only in part. *)
Record policy : Type := Policy {
  (** is a key with expiry [d] gone at time [t]? *)
  past_due : Z → Z → bool;
  (** does the server accept a relative expiry of [ms] at time [t]? *)
  px_ok : Z → Z → bool;
  (** which stored texts [INCRBY] reads as an integer, and how it writes one *)
  as_int : string → option Z;
  of_int : Z → string;
  (** [tonumber] on a stored text, [None] when it is no number *)
  tonumber_text : string → option lua_num;
  (** is the error that [redis.call] raises a table, whose [err] field is the
      text (or a plain string, as before Redis 7)? *)
  err_table : bool;
}.

Section documented.
Context (P : policy).

Definition alive (t : Z) (v : rval) : bool :=
  match r_expiry v with None => true | Some d => negb (past_due P t d) end.

Definition d_set (t : Z) (k v : string) (nx : bool) (px : option Z) (d : db) : db * reply :=
  if match px with Some ms => negb ((0 <? ms) && px_ok P t ms) | None => false end
  then (d, RErr bad_expire)
  else if nx && bool_decide (is_Some (d !! k)) then (d, RNil)
  else (<[k := RVal (RStr v) ((λ ms, t + ms) <$> px)]> d, RStatus).

Definition d_incrby (k : string) (delta : Z) (d : db) : db * reply :=
  let store z dl :=
    let n := z + delta in
    if is_i64 n then (<[k := RVal (RStr (of_int P n)) dl]> d, RInt n)
    else (d, RErr incr_overflow) in
  match d !! k with
  | None => store 0 None
  | Some (RVal (RStr v) dl) =>
      match as_int P v with Some z => store z dl | None => (d, RErr not_integer) end
  | Some (RVal (RZset _) _) => (d, RErr wrongtype)
  end.

Definition d_zadd (k : string) (score : Z) (m : string) (d : db) : db * reply :=
  match d !! k with
  | None => (<[k := RVal (RZset {[m := dround score]}) None]> d, RInt 1)
  | Some (RVal (RZset z) dl) =>
      (<[k := RVal (RZset (<[m := dround score]> z)) dl]> d,
       RInt (if decide (is_Some (z !! m)) then 0 else 1))
  | Some (RVal (RStr _) _) => (d, RErr wrongtype)
  end.

(** A sorted set that becomes empty is removed with its key. *)
Definition put_zset (k : string) (z : gmap string Z) (dl : option Z) (d : db) : db :=
  if decide (z = ∅) then delete k d else <[k := RVal (RZset z) dl]> d.

Definition with_zset (k : string) (d : db) (absent : reply)
    (f : gmap string Z → option Z → db * reply) : db * reply :=
  match d !! k with
  | None => (d, absent)
  | Some (RVal (RZset z) dl) => f z dl
  | Some (RVal (RStr _) _) => (d, RErr wrongtype)
  end.

Definition pttl (t : Z) (v : option rval) : Z :=
  match v with
  | None => -2
  | Some v => match r_expiry v with None => -1 | Some dl => Z.max 0 (dl - t) end
  end.

(** The documented behaviour of each command on the keys that exist at
    time [t]: the keys after it and its reply. *)
Definition documented (t : Z) (c : cmd) (d : db) : db * reply :=
  match c with
  | GET k =>
      match d !! k with
      | None => (d, RNil)
      | Some (RVal (RStr v) _) => (d, RBulk v)
      | Some (RVal (RZset _) _) => (d, RErr wrongtype)
      end
  | SET k v nx px => d_set t k v nx px d
  | DEL k => (delete k d, RInt (if decide (is_Some (d !! k)) then 1 else 0))
  | EXISTS k => (d, RInt (if decide (is_Some (d !! k)) then 1 else 0))
  | PTTL k => (d, RInt (pttl t (d !! k)))
  | PEXPIRE k ms =>
      if ms <=? 0 then (delete k d, RInt (if decide (is_Some (d !! k)) then 1 else 0))
      else if negb (px_ok P t ms) then (d, RErr bad_expire)
      else match d !! k with
           | None => (d, RInt 0)
           | Some v => (<[k := RVal (r_obj v) (Some (t + ms))]> d, RInt 1)
           end
  | PERSIST k =>
      match d !! k with
      | Some (RVal o (Some _)) => (<[k := RVal o None]> d, RInt 1)
      | _ => (d, RInt 0)
      end
  | INCRBY k delta => d_incrby k delta d
  | MGET ks =>
      (d, ROpts ((λ k, match d !! k with Some (RVal (RStr v) _) => Some v | _ => None end)
                   <$> ks))
  | ZADD k score m => d_zadd k score m d
  | ZREM k m =>
      with_zset k d (RInt 0) (λ z dl,
        if decide (is_Some (z !! m)) then (put_zset k (delete m z) dl d, RInt 1) else (d, RInt 0))
  | ZRANGEBYLEX k lo hi limit =>
      if negb (limit_ok limit) then (d, RErr not_integer)
      else match parse_lex lo, parse_lex hi with
      | Some lo, Some hi =>
          with_zset k d (RStrs []) (λ z _,
            (d, RStrs (limited limit
                  (filter (λ m, lex_above lo m && lex_below hi m) (snd <$> zitems z)))))
      | _, _ => (d, RErr bad_lex)
      end
  | ZRANGEBYSCORE k lo hi limit =>
      if negb (limit_ok limit) then (d, RErr not_integer)
      else with_zset k d (RStrs []) (λ z _,
        (d, RStrs (limited limit (snd <$> filter (λ p, in_scores lo hi p.1) (zitems z)))))
  | ZREMRANGEBYSCORE k lo hi =>
      with_zset k d (RInt 0) (λ z dl,
        let kept := filter (λ p : string * Z, ¬ in_scores lo hi p.2) z in
        (put_zset k kept dl d, RInt (Z.of_nat (size z) - Z.of_nat (size kept))))
  end.
End documented.

(** ** Servers *)

(** A server: what keys it holds at a time, how it executes a command at a
    time, one [SCAN] step ([cursor], [MATCH] pattern, [COUNT]: the next cursor
    and a batch of keys), and its glob matching. *)
Class RedisServer (Srv : Type) : Type := {
  srv_policy : policy;
  view : Z → Srv → db;
  exec : Z → cmd → Srv → Srv * reply;
  glob : string → string → bool;
  scan : Z → Z → string → nat → Srv → Srv * (Z * list string);
}.

(** The characters that are special in a glob pattern. *)
Definition glob_special (c : Ascii.ascii) : bool := str_has c "*?[]\".

(** ** Lua scripts

    A script is a tree of [redis.pcall]s.  Redis runs it as one step, at one
    time, and does not undo the calls made before an error. *)

Inductive script (A : Type) : Type :=
| SRet (a : A)
| SRaise (e : string)
| SCall (c : cmd) (k : reply → script A).
Arguments SRet {A} a.
Arguments SRaise {A} e.
Arguments SCall {A} c k.

Fixpoint sbind {A B} (m : script A) (f : A → script B) : script B :=
  match m with
  | SRet a => f a
  | SRaise e => SRaise e
  | SCall c k => SCall c (λ r, sbind (k r) f)
  end.

(** [redis.pcall(c)] and [redis.call(c)]: the latter raises an error reply. *)
Definition pcall (c : cmd) : script reply := SCall c SRet.
Definition call (c : cmd) : script reply :=
  SCall c (λ r, match r with RErr e => SRaise e | _ => SRet r end).

Notation "'let*' x ':=' m 'in' k" := (sbind m (λ x, k))
  (at level 10, x pattern, m at level 100, k at level 200) : rust_scope.

(** An integer reply becomes a Lua number. *)
Definition lua_int (r : reply) : Z := match r with RInt z => dround z | _ => 0 end.

Fixpoint run `{RedisServer Srv} {A} (t : Z) (sc : script A) (s : Srv) : Srv * result A string :=
  match sc with
  | SRet a => (s, Ok a)
  | SRaise e => (s, Err e)
  | SCall c k => let '(s, r) := exec t c s in run t (k r) s
  end.

(** The same script on the documented database. *)
Fixpoint d_run {A} (P : policy) (t : Z) (sc : script A) (d : db) : db * result A string :=
  match sc with
  | SRet a => (d, Ok a)
  | SRaise e => (d, Err e)
  | SCall c k => let '(d, r) := documented P t c d in d_run P t (k r) d
  end.

Lemma d_run_bind {A B} P t (m : script A) (f : A → script B) d :
  d_run P t (sbind m f) d =
    match d_run P t m d with
    | (d, Ok a) => d_run P t (f a) d
    | (d, Err e) => (d, Err e)
    end.
Proof.
  revert d. induction m as [a|e|c k IH]; intros d; simpl; [done|done|].
  destruct (documented P t c d) as [d' r]. apply IH.
Qed.

(** ** [SCAN] passes

    Between two steps of a pass other things happen: time passes and scripts
    run. *)

Section passes.
Context {Srv : Type} `{RedisServer Srv}.

Inductive happens : Z * Srv → Z * Srv → Prop :=
| happens_time t t' s : t ≤ t' → happens (t, s) (t', s)
| happens_run {A} t (sc : script A) s : happens (t, s) (t, (run t sc s).1).

(** It leaves the keys within a property of the database. *)
Definition happens_in (Q : db → Prop) (st st' : Z * Srv) : Prop :=
  happens st st' ∧ Q (view st'.1 st'.2).

(** A pass from [cursor] to its end, in which [Q] holds at every step and
    between them, and the keys it returns. *)
Inductive scan_pass (pat : string) (n : nat) (Q : db → Prop) :
    Z → Z * Srv → list string → Prop :=
| pass_last c t s s' b :
    Q (view t s) → scan t c pat n s = (s', (0, b)) → scan_pass pat n Q c (t, s) b
| pass_step c t s s1 next b st2 ks :
    Q (view t s) → scan t c pat n s = (s1, (next, b)) → next ≠ 0 →
    rtc (happens_in Q) (t, s1) st2 → scan_pass pat n Q next st2 ks →
    scan_pass pat n Q c (t, s) (b ++ ks).

(** [m] steps from [cursor] on, none of which is the pass's last. *)
Inductive scan_unfinished (pat : string) (n : nat) (Q : db → Prop) :
    nat → Z → Z * Srv → Prop :=
| unfinished_nil c st : scan_unfinished pat n Q 0 c st
| unfinished_step m c t s s1 next b st2 :
    Q (view t s) → scan t c pat n s = (s1, (next, b)) → next ≠ 0 →
    rtc (happens_in Q) (t, s1) st2 → scan_unfinished pat n Q m next st2 →
    scan_unfinished pat n Q (S m) c (t, s).
End passes.

(** The documented behaviour. *)
Class RedisLaws (Srv : Type) `{RedisServer Srv} : Prop := {
  (** expiry: gone after the expiry time, there before it *)
  past_due_early t d : t < d → past_due srv_policy t d = false;
  past_due_late t d : d < t → past_due srv_policy t d = true;
  (** relative expiries of up to 2^53 ms are accepted *)
  px_ok_range t ms : 0 ≤ t ≤ 2 ^ 53 → 0 < ms ≤ 2 ^ 53 → px_ok srv_policy t ms = true;
  (** integers are 64-bit and stored as text that reads back *)
  as_int_of_int z : in_i64 z → as_int srv_policy (of_int srv_policy z) = Some z;
  as_int_i64 v z : as_int srv_policy v = Some z → in_i64 z;
  (** a text that is an integer to [INCRBY] is that number to Lua *)
  tonumber_integer v z :
    as_int srv_policy v = Some z → tonumber_text srv_policy v = Some (LInt (dround z));
  (** each command does what it is documented to do *)
  exec_documented t c s :
    (view t (exec t c s).1, (exec t c s).2) = documented srv_policy t c (view t s);
  (** as time passes, keys only leave, by expiry *)
  view_later t t' s :
    t ≤ t' → view t' s = filter (λ kv, alive srv_policy t' kv.2 = true) (view t s);
  (** glob patterns: ordinary and escaped characters, and a final star *)
  glob_nil s : glob "" s = is_empty s;
  glob_char c p s :
    glob_special c = false →
    glob (String c p) s =
      match s with String c' s' => bool_decide (c = c') && glob p s' | EmptyString => false end;
  glob_escaped c p s :
    glob ("\" +:+ String c p) s =
      match s with String c' s' => bool_decide (c = c') && glob p s' | EmptyString => false end;
  glob_star s : glob "*" s = true;
  (** [SCAN] changes nothing, returns existing keys that match; a pass
      returns every matching key that is there throughout; and a pass over a
      keyspace that stays within a finite set of keys ends *)
  scan_view t c pat n s : view t (scan t c pat n s).1 = view t s;
  scan_sound t c pat n s k :
    k ∈ (scan t c pat n s).2.2 → is_Some (view t s !! k) ∧ glob pat k = true;
  scan_complete pat n k st ks :
    (0 < n)%nat → glob pat k = true →
    scan_pass pat n (λ d, is_Some (d !! k)) 0 st ks → k ∈ ks;
  scan_terminates pat n (K : gset string) st :
    (0 < n)%nat →
    ∃ N, ∀ m st', rtc (happens_in (λ d, dom d ⊆ K)) st st' →
      scan_unfinished pat n (λ d, dom d ⊆ K) m 0 st' → (m ≤ N)%nat;
}.

Section servers.
Context `{RedisLaws Srv}.
Local Abbreviation P := (srv_policy (Srv := Srv)).

(** Every server refines the documented database: a script leaves the keys
    and returns the result that the documentation says. *)
Lemma run_view {A} t (sc : script A) (s : Srv) :
  view t (run t sc s).1 = (d_run P t sc (view t s)).1 ∧
  (run t sc s).2 = (d_run P t sc (view t s)).2.
Proof.
  revert s. induction sc as [a|e|c k IH]; intros s; simpl; [done|done|].
  pose proof (exec_documented t c s) as Hd.
  destruct (exec t c s) as [s' r]; simpl in Hd. rewrite <- Hd.
  apply IH.
Qed.

Lemma past_due_mono t t' d :
  t ≤ t' → past_due P t d = true → past_due P t' d = true.
Proof.
  intros Ht Hd. destruct (Z.lt_trichotomy t d) as [Hlt|[->|Hgt]].
  - by rewrite past_due_early in Hd.
  - destruct (decide (t' = d)) as [->|]; [done|]. apply past_due_late. lia.
  - apply past_due_late. lia.
Qed.

Lemma view_lookup t (s : Srv) k v :
  view t s !! k = Some v → alive P t v = true.
Proof.
  rewrite (view_later t t s) by done. intros [_ Hv]%map_lookup_filter_Some. done.
Qed.

Lemma view_later_lookup t t' (s : Srv) k :
  t ≤ t' →
  view t' s !! k =
    match view t s !! k with Some v => if alive P t' v then Some v else None | None => None end.
Proof.
  intros Ht. rewrite (view_later t t' s Ht), map_lookup_filter.
  destruct (view t s !! k) as [v|]; [|done]. simpl.
  destruct (alive P t' v) eqn:E; rewrite ?option_guard_True, ?option_guard_False by congruence;
    done.
Qed.

Lemma view_later_Some t t' (s : Srv) k v :
  t ≤ t' → view t' s !! k = Some v → view t s !! k = Some v.
Proof.
  intros Ht. rewrite (view_later_lookup t t') by done.
  destruct (view t s !! k) as [w|]; [|done]. destruct (alive P t' w); naive_solver.
Qed.

Lemma view_later_persistent t t' (s : Srv) k o :
  t ≤ t' → view t s !! k = Some (RVal o None) → view t' s !! k = Some (RVal o None).
Proof. intros Ht Hk. by rewrite (view_later_lookup t t'), Hk. Qed.

Lemma view_later_alive t t' (s : Srv) k o d :
  t ≤ t' → t' < d →
  view t s !! k = Some (RVal o (Some d)) → view t' s !! k = Some (RVal o (Some d)).
Proof.
  intros Ht Hd Hk. rewrite (view_later_lookup t t'), Hk by done.
  unfold alive; simpl. by rewrite past_due_early.
Qed.
End servers.
