(* ===== verification/RedisRef.v ===== *)
(** * A concrete Redis server

    A member of [RedisServer] that computes: the keys are a finite map, and
    each command does what is documented to the keys alive at its time.  It
    shows that the laws of [RedisLaws] can hold together, and it is the
    server on which the witnesses of the properties are evaluated. *)

From Stdlib Require Import Ascii DecimalString DecimalFacts DecimalZ.
From S2P Require Import Prelude Redis.

(** ** Integers as text *)

Definition ref_of_int (z : Z) : string := NilZero.string_of_int (Z.to_int z).

Definition ref_as_int (v : string) : option Z :=
  match NilZero.int_of_string v with
  | Some i =>
      let z := Z.of_int i in
      if is_i64 z && bool_decide (ref_of_int z = v) then Some z else None
  | None => None
  end.

Lemma ref_as_int_of_int z : in_i64 z → ref_as_int (ref_of_int z) = Some z.
Proof.
  intros Hz. unfold ref_as_int, ref_of_int at 1.
  rewrite NilZero.isi by (destruct z as [|p|p]; simpl; try done;
    intros [= E]; by apply DecimalPos.Unsigned.to_uint_nonnil in E).
  rewrite DecimalZ.of_to. rewrite (proj2 (is_i64_spec z) Hz).
  by rewrite bool_decide_eq_true_2.
Qed.

Lemma ref_as_int_i64 v z : ref_as_int v = Some z → in_i64 z.
Proof.
  unfold ref_as_int. destruct (NilZero.int_of_string v); [|done].
  destruct (is_i64 _) eqn:E; simpl; [|done]. case_bool_decide; [|done].
  intros [= <-]. by apply is_i64_spec.
Qed.

Definition ref_policy : policy := {|
  past_due t d := d <? t;
  px_ok t ms := t + ms <=? i64_max;
  as_int := ref_as_int;
  of_int := ref_of_int;
  tonumber_text v := LInt ∘ dround <$> ref_as_int v;
  err_table := true;
|}.

(** ** Glob matching: [*], [?], [\c] and literal characters *)

Fixpoint ref_glob (p : string) : string → bool :=
  match p with
  | EmptyString => is_empty
  | String c p' =>
      if Ascii.eqb c "*" then
        fix star s :=
          ref_glob p' s || match s with EmptyString => false | String _ s' => star s' end
      else if Ascii.eqb c "?" then
        λ s, match s with EmptyString => false | String _ s' => ref_glob p' s' end
      else if Ascii.eqb c "\" then
        match p' with
        | EmptyString => λ s, bool_decide (s = "\"%stdpp)
        | String c p'' =>
            λ s, match s with
                 | EmptyString => false
                 | String c' s' => bool_decide (c = c') && ref_glob p'' s'
                 end
        end
      else
        λ s, match s with
             | EmptyString => false
             | String c' s' => bool_decide (c = c') && ref_glob p' s'
             end
  end%char.

Lemma ref_glob_char c p s :
  glob_special c = false →
  ref_glob (String c p) s =
    match s with
    | String c' s' => bool_decide (c = c') && ref_glob p s'
    | EmptyString => false
    end.
Proof.
  intros Hc.
  assert (Ascii.eqb c "*" = false ∧ Ascii.eqb c "?" = false ∧ Ascii.eqb c "\" = false)%char
    as (H1 & H2 & H3).
  { rewrite !Ascii.eqb_neq. unfold glob_special in Hc. simpl in Hc.
    repeat (apply orb_false_iff in Hc as [?%bool_decide_eq_false Hc]). naive_solver. }
  simpl. by rewrite H1, H2, H3.
Qed.

Lemma ref_glob_star s : ref_glob "*" s = true.
Proof. induction s as [|c s IH]; [done|]. simpl. simpl in IH. by rewrite IH. Qed.

(** ** The server *)

Abbreviation ref_srv := db.

Definition ref_view (t : Z) (s : ref_srv) : db :=
  filter (λ kv, alive ref_policy t kv.2 = true) s.

(** [SCAN] goes through the keys in the order of a numbering of all strings;
    the cursor is the number of the last key looked at, so keys that come and
    go do not disturb a pass. *)
Definition code (k : string) : Z := Zpos (encode k).

Definition coded (d : db) : list (Z * string) :=
  merge_sort zle ((λ p : string * rval, (code p.1, p.1)) <$> map_to_list d).

Definition scan_rest (cursor : Z) (d : db) : list (Z * string) :=
  filter (λ p, cursor < p.1) (coded d).

Definition ref_scan (t cursor : Z) (pat : string) (count : nat) (s : ref_srv) :
    ref_srv * (Z * list string) :=
  let rest := scan_rest cursor (ref_view t s) in
  let batch := take count rest in
  let next :=
    if decide (length rest ≤ count)%nat then 0
    else match last batch with Some p => p.1 | None => 0 end in
  (s, (next, filter (λ k, ref_glob pat k = true) batch.*2)).

#[export] Instance ref_server : RedisServer ref_srv := {|
  srv_policy := ref_policy;
  view := ref_view;
  exec t c s := documented ref_policy t c (ref_view t s);
  glob := ref_glob;
  scan := ref_scan;
|}.

(** ** The laws hold *)

Lemma alive_ref_later t t' v : t ≤ t' → alive ref_policy t' v = true → alive ref_policy t v = true.
Proof.
  unfold alive. destruct (r_expiry v) as [d|]; [|done]. simpl.
  rewrite !negb_true_iff, !Z.ltb_ge. lia.
Qed.

Lemma alive_ref_new t o ms : 0 < ms → alive ref_policy t (RVal o (Some (t + ms))) = true.
Proof. intros H. unfold alive; simpl. rewrite negb_true_iff, Z.ltb_ge. lia. Qed.

Definition all_alive (t : Z) (d : db) : Prop := map_Forall (λ _ v, alive ref_policy t v = true) d.

Lemma all_alive_insert t k v d :
  alive ref_policy t v = true → all_alive t d → all_alive t (<[k := v]> d).
Proof. intros Hv Hd. by apply map_Forall_insert_2. Qed.

Lemma all_alive_delete t k d : all_alive t d → all_alive t (delete k d).
Proof. intros Hd. by apply map_Forall_delete. Qed.

Lemma all_alive_lookup t k o e d :
  all_alive t d → d !! k = Some (RVal o e) → ∀ o', alive ref_policy t (RVal o' e) = true.
Proof. intros Hd Hk o'. exact (Hd k _ Hk). Qed.

Lemma all_alive_put_zset t k z e d :
  (∀ o', alive ref_policy t (RVal o' e) = true) → all_alive t d → all_alive t (put_zset k z e d).
Proof.
  intros He Hd. unfold put_zset.
  case_decide; auto using all_alive_insert, all_alive_delete.
Qed.

Lemma documented_alive t c d : all_alive t d → all_alive t (documented ref_policy t c d).1.
Proof.
  intros Hd.
  assert (Hput : ∀ k o e z, d !! k = Some (RVal o e) → all_alive t (put_zset k z e d)).
  { intros. eapply all_alive_put_zset; [|done]. by eapply all_alive_lookup. }
  destruct c; simpl; try unfold d_set, d_incrby, d_zadd, with_zset;
    repeat case_match; simplify_eq/=;
    auto using all_alive_delete, all_alive_insert, alive_ref_new.
  all: try solve [apply all_alive_insert; [|done]; by eapply all_alive_lookup].
  all: try solve [by eapply Hput].
  - apply all_alive_insert; [|done]. apply alive_ref_new.
    rewrite negb_false_iff, andb_true_iff in *. lia.
  - apply all_alive_insert; [|done]. apply alive_ref_new. lia.
Qed.

Lemma ref_view_alive t s : all_alive t (ref_view t s).
Proof. intros k v [_ Hv]%map_lookup_filter_Some. done. Qed.

Lemma ref_view_id t d : all_alive t d → ref_view t d = d.
Proof. intros Hd. apply map_filter_id. intros k v Hk. exact (Hd k v Hk). Qed.

Lemma elem_of_coded d p : p ∈ coded d ↔ is_Some (d !! p.2) ∧ p.1 = code p.2.
Proof.
  unfold coded. rewrite merge_sort_Permutation, list_elem_of_fmap. split.
  - intros ([k v] & -> & Hk%elem_of_map_to_list). eauto.
  - destruct p as [x k]; simpl. intros [[v Hv] ->]. exists (k, v).
    by rewrite elem_of_map_to_list.
Qed.

Lemma elem_of_scan_rest c d p : p ∈ scan_rest c d ↔ c < p.1 ∧ is_Some (d !! p.2) ∧ p.1 = code p.2.
Proof. unfold scan_rest. by rewrite list_elem_of_filter, elem_of_coded. Qed.

Lemma NoDup_coded d : NoDup (coded d).
Proof.
  unfold coded. rewrite merge_sort_Permutation.
  apply (NoDup_fmap_1 snd). rewrite <- list_fmap_compose. apply NoDup_fst_map_to_list.
Qed.

Lemma StronglySorted_scan_rest c d : StronglySorted zle (scan_rest c d).
Proof.
  unfold scan_rest, coded. pose proof (StronglySorted_merge_sort zle
    ((λ p : string * rval, (code p.1, p.1)) <$> map_to_list d)) as Hs.
  induction Hs as [|p l _ IH Hp]; [constructor|]. rewrite filter_cons. case_decide; [|done].
  constructor; [done|]. apply Forall_forall. intros q [_ Hq]%list_elem_of_filter.
  by apply (proj1 (Forall_forall _ _) Hp).
Qed.

(** A step that is not the last goes on from the number of a key it looked
    at; the keys it leaves for later have greater numbers. *)
Lemma ref_scan_next t c pat n s s' next b :
  (0 < n)%nat → ref_scan t c pat n s = (s', (next, b)) → next ≠ 0 →
  ∃ k, is_Some (ref_view t s !! k) ∧ next = code k ∧ c < next ∧
       ∀ k', is_Some (ref_view t s !! k') → c < code k' → ref_glob pat k' = true →
         k' ∈ b ∨ next < code k'.
Proof.
  unfold ref_scan. intros Hn. case_decide as Hlen; intros [= <- <- <-]; [done|].
  set (rest := scan_rest c (ref_view t s)) in *. intros Hnext.
  assert (is_Some (last (take n rest))) as [p Hp].
  { apply last_is_Some. intros E. apply (f_equal length) in E. rewrite length_take in E.
    simpl in E. lia. }
  rewrite Hp in *. clear Hnext.
  pose proof (last_Some_elem_of _ _ Hp) as Hin.
  pose proof (elem_of_take_in _ _ _ Hin) as (Hc & Hk & Hcode)%elem_of_scan_rest.
  exists p.2. split; [done|]. split; [done|]. split; [done|].
  intros k' Hk' Hc' Hg.
  assert (Hr : (code k', k') ∈ rest) by (apply elem_of_scan_rest; done).
  pose proof (StronglySorted_scan_rest c (ref_view t s)) as Hsort. fold rest in Hsort.
  assert (Hnd : NoDup rest) by apply NoDup_filter, NoDup_coded.
  rewrite <- (take_drop n rest) in Hr, Hsort, Hnd.
  apply elem_of_app in Hr as [Hr|Hr].
  - left. apply list_elem_of_filter. split; [done|].
    apply list_elem_of_fmap. by exists (code k', k').
  - right. apply NoDup_app in Hnd as (_ & Hnd & _).
    apply StronglySorted_app in Hsort as (Hle & _ & _).
    specialize (Hle _ _ Hin Hr). destruct Hle as [|[E _]]; [done|].
    simpl in E. exfalso. apply (Hnd p Hin).
    assert (p.2 = k') as <-.
    { rewrite Hcode in E. unfold code in E. injection E as E. by apply encode_inj in E. }
    rewrite <- Hcode in Hr. by destruct p.
Qed.

Lemma ref_scan_last t c pat n s s' b k :
  (0 < n)%nat → ref_scan t c pat n s = (s', (0, b)) →
  is_Some (ref_view t s !! k) → c < code k → ref_glob pat k = true → k ∈ b.
Proof.
  unfold ref_scan. intros Hn. case_decide as Hlen.
  - intros [= <- <-] Hk Hc Hg. rewrite take_ge by done.
    apply list_elem_of_filter. split; [done|].
    apply list_elem_of_fmap. exists (code k, k). split; [done|]. by apply elem_of_scan_rest.
  - intros [= <- E <-]. destruct (last _) as [p|] eqn:Hp; [|].
    + apply last_Some_elem_of, elem_of_take_in, elem_of_scan_rest in Hp as (_ & _ & E').
      rewrite E in E'. done.
    + apply last_None in Hp. apply (f_equal length) in Hp. rewrite length_take in Hp.
      simpl in Hp. lia.
Qed.

#[export] Instance ref_laws : RedisLaws ref_srv.
Proof.
  split; simpl.
  - intros t d ?. apply Z.ltb_ge. lia.
  - intros t d ?. by apply Z.ltb_lt.
  - intros t ms ? ?. apply Z.leb_le. unfold i64_max. lia.
  - apply ref_as_int_of_int.
  - apply ref_as_int_i64.
  - intros v z ->. done.
  - intros t c s. rewrite ref_view_id by apply documented_alive, ref_view_alive.
    by destruct (documented _ _ _ _).
  - intros t t' s Ht. unfold ref_view. rewrite map_filter_filter.
    apply map_filter_ext. intros k v _. simpl.
    split; [|naive_solver]. eauto using alive_ref_later.
  - done.
  - apply ref_glob_char.
  - done.
  - apply ref_glob_star.
  - done.
  - unfold ref_scan; simpl. intros t c pat n s k [Hg Hk]%list_elem_of_filter. split; [|done].
    apply list_elem_of_fmap in Hk as (p & -> & Hp%elem_of_take_in).
    apply elem_of_scan_rest in Hp. naive_solver.
  - intros pat n k st ks Hn Hg Hpass.
    enough (∀ c, scan_pass pat n (λ d, is_Some (d !! k)) c st ks → c < code k → k ∈ ks)
      by (apply (H 0); [done|unfold code; lia]).
    clear Hpass. intros c Hpass.
    induction Hpass as [c t s s' b Hk Hs|c t s s1 next b st2 ks Hk Hs Hnext _ _ IH]; intros Hc.
    + by eapply ref_scan_last.
    + destruct (ref_scan_next t c pat n s s1 next b Hn Hs Hnext) as (_ & _ & _ & _ & Hin).
      apply elem_of_app. destruct (Hin k) as [|]; auto.
  - intros pat n K st Hn. exists (size K). intros m st' _ Hm.
    enough (∀ c, scan_unfinished pat n (λ d, dom d ⊆ K) m c st' →
                 (m ≤ size (filter (λ k, (c < code k)%Z) K))%nat).
    { specialize (H 0 Hm). etrans; [done|]. apply subseteq_size. set_solver. }
    clear Hm. intros c Hm.
    induction Hm as [c st1|m c t s s1 next b st2 Hdom Hs Hnext _ _ IH]; [lia|].
    destruct (ref_scan_next t c pat n s s1 next b Hn Hs Hnext) as (k & Hk & -> & Hc & _).
    apply Nat.le_succ_l. eapply Nat.le_lt_trans; [exact IH|].
    apply subset_size. split.
    + intros k'. rewrite !elem_of_filter. intros []. split; [lia|done].
    + intros Hsub. specialize (Hsub k). rewrite !elem_of_filter in Hsub.
      destruct Hsub as [? _]; [|lia]. split; [done|]. apply Hdom, elem_of_dom, Hk.
Qed.
