(* ===== verification/Client.v ===== *)
(** * One replica talking to the shared server

    A replica reaches the server over a network that can delay a request,
    lose it, or lose its reply after the server has executed it; other
    clients act on the server in between.  [world] makes all of that explicit
    and [client] is the state-and-error monad of the program's async
    functions over it. *)

From S2P Require Import Prelude Redis.

(** The errors of [mcpg_cluster_api::ClusterError] that the program builds.
    [OutOfFuel] is not one of them: it is what a loop of the model returns
    when its fuel is too small, and the theorems on loops show it is not
    returned. *)
Inductive cluster_error : Type :=
| BackendUnavailable (reason : string)
| Precondition (reason : string)
| Internal (reason : string)
| InvalidReference (message : string)
| LeaseExpired
| OutOfFuel.

(** What becomes of one request: a reply can take as long again (ms) to come
    back. *)
Inductive fate : Type := Delivered | Late (ms : N) | LostRequest | LostReply.

(** One round trip: how long it takes to reach the server (ms), the scripts
    that other clients run on the server meanwhile, and its fate. *)
Record net_event : Type := NetEvent {
  ev_wait : N;
  ev_others : list (script unit);
  ev_fate : fate;
}.

(** The server, its clock (Unix ms), how far this replica's clock is ahead of
    it, and the round trips to come.  Past the end of [w_net] the network is
    quiet: requests are delivered at once and nobody else acts. *)
Record world (Srv : Type) : Type := World {
  w_srv : Srv;
  w_time : Z;
  w_skew : Z;
  w_net : list net_event;
}.
Arguments World {Srv} _ _ _ _.
Arguments w_srv {Srv} _.
Arguments w_time {Srv} _.
Arguments w_skew {Srv} _.
Arguments w_net {Srv} _.

Definition client (Srv E A : Type) : Type := world Srv → world Srv * result A E.

Definition cret {Srv E A} (a : A) : client Srv E A := λ w, (w, Ok a).
Definition cfail {Srv E A} (e : E) : client Srv E A := λ w, (w, Err e).

Definition cbind {Srv E A B} (m : client Srv E A) (f : A → client Srv E B) : client Srv E B :=
  λ w, match m w with
       | (w, Ok a) => f a w
       | (w, Err e) => (w, Err e)
       end.

(** [m.await.map_err(f)?], and running [m] for its [Result]. *)
Definition cmap_err {Srv E F A} (f : E → F) (m : client Srv E A) : client Srv F A :=
  λ w, let '(w, r) := m w in (w, map_err f r).
Definition cresult {Srv E F A} (m : client Srv E A) : client Srv F (result A E) :=
  λ w, let '(w, r) := m w in (w, Ok r).

(** Another client's script, its result dropped. *)
Definition silent {A} (sc : script A) : script unit := sbind sc (λ _, SRet tt).

Lemma run_silent {Srv} `{RedisServer Srv} {A} t (sc : script A) (s : Srv) :
  (run t (silent sc) s).1 = (run t sc s).1.
Proof.
  unfold silent. revert s. induction sc as [a|e|c k IH]; intros s; simpl; [done|done|].
  destruct (exec t c s). apply IH.
Qed.

Notation "'let!' x ':=' m 'in' k" := (cbind m (λ x, k))
  (at level 10, x pattern, m at level 100, k at level 200) : rust_scope.

(** [SystemTime::now()] as Unix milliseconds: 0 before the epoch, capped at
    [u64::MAX]. *)
Definition clock_ms {Srv} (w : world Srv) : Z := clamp 0 u64_max (w_time w + w_skew w).

Definition now_ms {Srv E} : client Srv E Z := λ w, (w, Ok (clock_ms w)).

(** [SystemTime::now()] itself, in milliseconds of this replica's clock. *)
Definition system_now {Srv E} : client Srv E Z := λ w, (w, Ok (w_time w + w_skew w)).

(** [chrono] writes an instant (Unix ms) as RFC 3339 text; the format is the
    library's. *)
Class Chrono : Type := { rfc3339 : Z → string }.

(** [tokio::time::sleep]. *)
Definition sleep {Srv E} (ms : Z) : client Srv E unit :=
  λ w, (World (w_srv w) (w_time w + Z.max 0 ms) (w_skew w) (w_net w), Ok tt).

Definition connection_lost : string := "Connection reset by peer".

Section requests.
Context {Srv : Type} `{RedisServer Srv}.

Definition run_others (t : Z) (others : list (script unit)) (s : Srv) : Srv :=
  foldl (λ s sc, (run t sc s).1) s others.

(** A request: [act] is what the server does with it at its time. *)
Definition request {A} (act : Z → Srv → Srv * result A string) : client Srv string A :=
  λ w, match w_net w with
       | [] =>
           let '(s, r) := act (w_time w) (w_srv w) in
           (World s (w_time w) (w_skew w) [], r)
       | ev :: net =>
           let t := w_time w + Z.of_N (ev_wait ev) in
           let s := run_others t (ev_others ev) (w_srv w) in
           match ev_fate ev with
           | LostRequest => (World s t (w_skew w) net, Err connection_lost)
           | LostReply => (World (act t s).1 t (w_skew w) net, Err connection_lost)
           | Delivered => (World (act t s).1 t (w_skew w) net, (act t s).2)
           | Late ms => (World (act t s).1 (t + Z.of_N ms) (w_skew w) net, (act t s).2)
           end
       end.

(** [Script::invoke_async] and a single command's [query_async]: an error
    reply is the call's error. *)
Definition invoke {A} (sc : script A) : client Srv string A := request (λ t, run t sc).
Definition query (c : cmd) : client Srv string reply := invoke (call c).

(** A [SCAN] step. *)
Definition query_scan (cursor : Z) (pat : string) (count : nat) :
    client Srv string (Z * list string) :=
  request (λ t s, let '(s, r) := scan t cursor pat count s in (s, Ok r)).

(** [redis::pipe()]: the commands run in order, each on its own; every one
    runs, and the first error reply among them is the pipeline's error. *)
Fixpoint send_all (cs : list cmd) : client Srv string (list reply) :=
  match cs with
  | [] => cret []
  | c :: cs =>
      let! r := invoke (pcall c) in
      let! rs := send_all cs in
      cret (r :: rs)
  end.

Fixpoint first_error (rs : list reply) : option string :=
  match rs with
  | [] => None
  | RErr e :: _ => Some e
  | _ :: rs => first_error rs
  end.

Definition pipeline (cs : list cmd) : client Srv string (list reply) :=
  let! rs := send_all cs in
  match first_error rs with Some e => cfail e | None => cret rs end.
End requests.

(** ** Calls that return *)

Lemma cbind_ok {Srv E A B} (m : client Srv E A) (f : A → client Srv E B) w w' b :
  cbind m f w = (w', Ok b) → ∃ w1 a, m w = (w1, Ok a) ∧ f a w1 = (w', Ok b).
Proof. unfold cbind. destruct (m w) as [w1 [a|e]]; [|done]. eauto. Qed.

Lemma cmap_err_ok {Srv E F A} (f : E → F) (m : client Srv E A) w w' a :
  cmap_err f m w = (w', Ok a) → m w = (w', Ok a).
Proof. unfold cmap_err. destruct (m w) as [w1 [b|e]]; simpl; [|done]. by intros [= <- <-]. Qed.

(** ** When a request arrives *)

Section arrival.
Context {Srv : Type} `{RedisServer Srv}.

(** The server as the next request finds it. *)
Definition arrival (w : world Srv) : Z * Srv :=
  match w_net w with
  | [] => (w_time w, w_srv w)
  | ev :: _ =>
      let t := w_time w + Z.of_N (ev_wait ev) in (t, run_others t (ev_others ev) (w_srv w))
  end.

(** A request that returns has been executed, some time ago. *)
Lemma request_ok {A} (act : Z → Srv → Srv * result A string) w w' a :
  request act w = (w', Ok a) →
  ∃ s (late : N), act (arrival w).1 (arrival w).2 = (s, Ok a) ∧
       w' = World s ((arrival w).1 + Z.of_N late) (w_skew w) (tail (w_net w)).
Proof.
  unfold request, arrival. destruct (w_net w) as [|ev net]; simpl.
  - destruct (act (w_time w) (w_srv w)) as [s r]. intros [= <- ->]. exists s, 0%N. by rewrite Z.add_0_r.
  - destruct (act _ _) as [s r]. simpl.
    destruct (ev_fate ev) as [|late| |]; [|..|done|done]; intros [= <- ->]; [|eauto].
    exists s, 0%N. by rewrite Z.add_0_r.
Qed.
End arrival.

(** ** Quiet networks *)

Definition quiet {Srv} (w : world Srv) : Prop := w_net w = [].

Definition set_srv {Srv} (s : Srv) (w : world Srv) : world Srv :=
  World s (w_time w) (w_skew w) (w_net w).

Section quiet.
Context {Srv : Type} `{RedisServer Srv}.

Lemma request_quiet {A} (act : Z → Srv → Srv * result A string) w :
  quiet w →
  request act w = (set_srv (act (w_time w) (w_srv w)).1 w, (act (w_time w) (w_srv w)).2).
Proof.
  unfold quiet. intros Hq. unfold request, set_srv. rewrite Hq.
  by destruct (act (w_time w) (w_srv w)).
Qed.

Lemma invoke_quiet {A} (sc : script A) w :
  quiet w →
  invoke sc w =
    (set_srv (run (w_time w) sc (w_srv w)).1 w, (run (w_time w) sc (w_srv w)).2).
Proof. apply request_quiet. Qed.
End quiet.

Section quiet_view.
Context {Srv : Type} `{RedisLaws Srv}.
Local Abbreviation P := (srv_policy (Srv := Srv)).

(** On a quiet network a script does to this replica's view of the server
    what the documentation says. *)
Lemma invoke_quiet_view {A} (sc : script A) w d r :
  quiet w → d_run P (w_time w) sc (view (w_time w) (w_srv w)) = (d, r) →
  ∃ s, invoke sc w = (set_srv s w, r) ∧ view (w_time w) s = d.
Proof.
  intros Hq Hd. destruct (run_view (w_time w) sc (w_srv w)) as [H1 H2].
  rewrite Hd in H1, H2. exists (run (w_time w) sc (w_srv w)).1.
  rewrite invoke_quiet by done. by rewrite H2.
Qed.

(** A command that only reads. *)
Definition reads (c : cmd) : Prop := ∀ t d, (documented P t c d).1 = d.

Lemma send_all_reads cs w :
  quiet w → Forall reads cs →
  ∃ s, send_all cs w =
         (set_srv s w,
          Ok ((λ c, (documented P (w_time w) c (view (w_time w) (w_srv w))).2) <$> cs)) ∧
       view (w_time w) s = view (w_time w) (w_srv w).
Proof.
  intros Hq Hcs. revert w Hq. induction Hcs as [|c cs Hc _ IH]; intros w Hq; simpl.
  { exists (w_srv w). by destruct w. }
  unfold cbind at 1.
  destruct (documented P (w_time w) c (view (w_time w) (w_srv w))) as [d r] eqn:Hdoc.
  destruct (invoke_quiet_view (pcall c) w d (Ok r)) as (s & -> & Hv); [done|simpl; by rewrite Hdoc|].
  pose proof (Hc (w_time w) (view (w_time w) (w_srv w))) as Hsame. rewrite Hdoc in Hsame.
  simpl in Hsame. rewrite Hsame in Hv. clear Hsame.
  unfold cbind at 1. destruct (IH (set_srv s w)) as (s' & -> & Hv'); [done|].
  simpl in *. exists s'. rewrite Hv in *. split; [|done]. done.
Qed.

Lemma pipeline_reads cs w rs :
  quiet w → Forall reads cs →
  (λ c, (documented P (w_time w) c (view (w_time w) (w_srv w))).2) <$> cs = rs →
  first_error rs = None →
  ∃ s, pipeline cs w = (set_srv s w, Ok rs) ∧
       view (w_time w) s = view (w_time w) (w_srv w).
Proof.
  intros Hq Hcs Hrs He. destruct (send_all_reads cs w Hq Hcs) as (s & Hs & Hv).
  exists s. unfold pipeline, cbind. rewrite Hs, Hrs, He. done.
Qed.

Lemma quiet_set_srv (s : Srv) w : quiet w → quiet (set_srv s w).
Proof. done. Qed.
End quiet_view.

(** ** Time goes forwards *)

Section forwards.
Context {Srv : Type}.

Definition forwards {E A} (m : client Srv E A) : Prop := ∀ w, w_time w ≤ w_time (m w).1.

Lemma forwards_ret {E A} (a : A) : forwards (cret (E := E) a).
Proof. by intros w. Qed.
Lemma forwards_fail {E A} (e : E) : forwards (cfail (A := A) e).
Proof. by intros w. Qed.
Lemma forwards_now {E} : forwards (now_ms (E := E)).
Proof. by intros w. Qed.
Lemma forwards_system_now {E} : forwards (system_now (E := E)).
Proof. by intros w. Qed.
Lemma forwards_sleep {E} ms : forwards (sleep (E := E) ms).
Proof. intros w. simpl. lia. Qed.

Lemma forwards_bind {E A B} (m : client Srv E A) (f : A → client Srv E B) :
  forwards m → (∀ a, forwards (f a)) → forwards (cbind m f).
Proof.
  intros Hm Hf w. unfold cbind. specialize (Hm w). destruct (m w) as [w' [a|e]]; [|done].
  specialize (Hf a w'). simpl in *. lia.
Qed.

Lemma forwards_map_err {E F A} (f : E → F) (m : client Srv E A) :
  forwards m → forwards (cmap_err f m).
Proof. intros Hm w. specialize (Hm w). unfold cmap_err. by destruct (m w). Qed.

Lemma forwards_result {E F A} (m : client Srv E A) :
  forwards m → forwards (cresult (F := F) m).
Proof. intros Hm w. specialize (Hm w). unfold cresult. by destruct (m w). Qed.

Lemma forwards_request `{RedisServer Srv} {A} (act : Z → Srv → Srv * result A string) :
  forwards (request act).
Proof.
  intros [s t k [|ev net]]; unfold request; simpl; [by destruct (act t s)|].
  destruct (ev_fate ev); simpl; lia.
Qed.
End forwards.

Create HintDb forwards.

(** Solves [forwards m] for a program without recursion. *)
Ltac forwards_step :=
  first
    [ assumption
    | solve [eauto 2 with forwards nocore]
    | lazymatch goal with
      | |- forwards (cret _) => apply forwards_ret
      | |- forwards (cfail _) => apply forwards_fail
      | |- forwards now_ms => apply forwards_now
      | |- forwards system_now => apply forwards_system_now
      | |- forwards (sleep _) => apply forwards_sleep
      | |- forwards (cbind _ _) => apply forwards_bind; [|intros ?]
      | |- forwards (cmap_err _ _) => apply forwards_map_err
      | |- forwards (cresult _) => apply forwards_result
      | |- forwards (request _) => apply forwards_request
      | |- forwards (invoke _) => unfold invoke
      | |- forwards (query _) => unfold query
      | |- forwards (query_scan _ _ _) => unfold query_scan
      | |- forwards (pipeline _) => unfold pipeline
      | |- forwards (match _ with _ => _ end) => case_match
      | |- forwards (let _ := _ in _) => cbv zeta
      end ].
Ltac forwards := repeat forwards_step.

Lemma forwards_send_all {Srv} `{RedisServer Srv} cs : forwards (send_all (Srv := Srv) cs).
Proof. induction cs; simpl; forwards. Qed.
#[export] Hint Resolve forwards_send_all : forwards.

(** ** Round trips are used up in order *)

Section shrinks.
Context {Srv : Type}.

(** What is left of the network after a call is a suffix of it. *)
Definition shrinks {E A} (m : client Srv E A) : Prop := ∀ w, w_net (m w).1 `suffix_of` w_net w.

Lemma shrinks_same {E A} (m : client Srv E A) : (∀ w, w_net (m w).1 = w_net w) → shrinks m.
Proof. intros Hm w. by rewrite Hm. Qed.

Lemma shrinks_bind {E A B} (m : client Srv E A) (f : A → client Srv E B) :
  shrinks m → (∀ a, shrinks (f a)) → shrinks (cbind m f).
Proof.
  intros Hm Hf w. unfold cbind. specialize (Hm w). destruct (m w) as [w' [a|e]]; [|done].
  specialize (Hf a w'). simpl in *. by etrans.
Qed.

Lemma shrinks_map_err {E F A} (f : E → F) (m : client Srv E A) : shrinks m → shrinks (cmap_err f m).
Proof. intros Hm w. specialize (Hm w). unfold cmap_err. by destruct (m w). Qed.

Lemma shrinks_result {E F A} (m : client Srv E A) : shrinks m → shrinks (cresult (F := F) m).
Proof. intros Hm w. specialize (Hm w). unfold cresult. by destruct (m w). Qed.

Lemma shrinks_request `{RedisServer Srv} {A} (act : Z → Srv → Srv * result A string) :
  shrinks (request act).
Proof.
  intros [s t k [|ev net]]; unfold request; simpl; [by destruct (act t s)|].
  destruct (ev_fate ev); simpl; apply suffix_cons_r; done.
Qed.
End shrinks.

Ltac shrinks_step :=
  first
    [ assumption
    | solve [eauto 2]
    | lazymatch goal with
      | |- shrinks (cret _) => by apply shrinks_same
      | |- shrinks (cfail _) => by apply shrinks_same
      | |- shrinks now_ms => by apply shrinks_same
      | |- shrinks system_now => by apply shrinks_same
      | |- shrinks (sleep _) => by apply shrinks_same
      | |- shrinks (cbind _ _) => apply shrinks_bind; [|intros ?]
      | |- shrinks (cmap_err _ _) => apply shrinks_map_err
      | |- shrinks (cresult _) => apply shrinks_result
      | |- shrinks (request _) => apply shrinks_request
      | |- shrinks (invoke _) => unfold invoke
      | |- shrinks (query _) => unfold query
      | |- shrinks (query_scan _ _ _) => unfold query_scan
      | |- shrinks (pipeline _) => unfold pipeline
      | |- shrinks (match _ with _ => _ end) => case_match
      | |- shrinks (let _ := _ in _) => cbv zeta
      end ].
Ltac shrinks := repeat shrinks_step.

(** ** A replica's clock keeps its offset *)

Section steady.
Context {Srv : Type}.

Definition steady {E A} (m : client Srv E A) : Prop := ∀ w, w_skew (m w).1 = w_skew w.

Lemma steady_bind {E A B} (m : client Srv E A) (f : A → client Srv E B) :
  steady m → (∀ a, steady (f a)) → steady (cbind m f).
Proof.
  intros Hm Hf w. unfold cbind. specialize (Hm w). destruct (m w) as [w' [a|e]]; [|done].
  specialize (Hf a w'). simpl in *. congruence.
Qed.

Lemma steady_map_err {E F A} (f : E → F) (m : client Srv E A) : steady m → steady (cmap_err f m).
Proof. intros Hm w. specialize (Hm w). unfold cmap_err. by destruct (m w). Qed.

Lemma steady_result {E F A} (m : client Srv E A) : steady m → steady (cresult (F := F) m).
Proof. intros Hm w. specialize (Hm w). unfold cresult. by destruct (m w). Qed.

Lemma steady_request `{RedisServer Srv} {A} (act : Z → Srv → Srv * result A string) :
  steady (request act).
Proof.
  intros [s t k [|ev net]]; unfold request; simpl; [by destruct (act t s)|]. by destruct (ev_fate ev).
Qed.

Lemma steady_pipeline `{RedisServer Srv} cs : steady (pipeline (Srv := Srv) cs).
Proof.
  apply steady_bind; [|by intros rs; destruct (first_error rs)].
  induction cs as [|c cs IH]; [done|]. apply steady_bind; [apply steady_request|].
  intros r. by apply steady_bind.
Qed.
End steady.

(** ** Invariants across failures and interference

    A predicate on the server that survives the passing of time, and that
    every request of a client and every script of the others preserves up to
    a time [T], holds after a client's call that ends by then, however the
    network behaves.  [yields m Q] says so of the call [m], and that a value
    it returns satisfies [Q]. *)

Section preserve.
Context {Srv : Type} `{RedisServer Srv} (T : Z) (I : Z → Srv → Prop).

Definition stable : Prop := ∀ t t' s, t ≤ t' → I t s → I t' s.

Definition keeps {A} (sc : script A) : Prop :=
  ∀ t s, t ≤ T → I t s → I t (run t sc s).1.

Definition others_ok (net : list net_event) : Prop :=
  Forall (λ ev, Forall keeps (ev_others ev)) net.

Definition good (w : world Srv) : Prop := I (w_time w) (w_srv w) ∧ others_ok (w_net w).

Definition yields {E A} (m : client Srv E A) (Q : A → Prop) : Prop :=
  ∀ w, w_time (m w).1 ≤ T → good w → good (m w).1 ∧ ∀ a, (m w).2 = Ok a → Q a.

Definition preserves {E A} (m : client Srv E A) : Prop := yields m (λ _, True).

Lemma yields_ret {E A} (a : A) (Q : A → Prop) : Q a → yields (cret (E := E) a) Q.
Proof. intros Ha w _ Hw. split; [done|]. by intros ? [= <-]. Qed.

Lemma yields_fail {E A} (e : E) (Q : A → Prop) : yields (cfail e) Q.
Proof. by intros w. Qed.

Lemma yields_weaken {E A} (m : client Srv E A) (Q R : A → Prop) :
  yields m Q → (∀ a, Q a → R a) → yields m R.
Proof. intros Hm HQ w HT Hg. destruct (Hm w HT Hg). eauto. Qed.

Lemma yields_bind {E A B} (m : client Srv E A) (f : A → client Srv E B) (Q : A → Prop) R :
  yields m Q → (∀ a, forwards (f a)) → (∀ a, Q a → yields (f a) R) → yields (cbind m f) R.
Proof.
  intros Hm Hf HR w. unfold cbind. specialize (Hm w).
  destruct (m w) as [w' [a|e]]; simpl in *;
    [|intros HT Hg; by destruct (Hm HT Hg)].
  specialize (Hf a w'). intros HT Hg.
  destruct (Hm ltac:(lia) Hg) as [Hg' Ha]. by apply HR; auto.
Qed.

Lemma yields_map_err {E F A} (f : E → F) (m : client Srv E A) Q :
  yields m Q → yields (cmap_err f m) Q.
Proof.
  intros Hm w. specialize (Hm w). unfold cmap_err.
  destruct (m w) as [w' [a|e]]; simpl in *; intros HT Hg;
    destruct (Hm HT Hg) as [? Ha]; (split; [done|]); [|done]. intros ? [= <-]. by apply Ha.
Qed.

Lemma preserves_now {E} : preserves (now_ms (E := E)).
Proof. by intros w. Qed.

Lemma preserves_system_now {E} : preserves (system_now (E := E)).
Proof. by intros w. Qed.

Lemma preserves_weaken {E A} (m : client Srv E A) Q : yields m Q → preserves m.
Proof. intros Hm. by eapply yields_weaken. Qed.

Lemma preserves_bind {E A B} (m : client Srv E A) (f : A → client Srv E B) :
  preserves m → (∀ a, forwards (f a)) → (∀ a, preserves (f a)) → preserves (cbind m f).
Proof. intros Hm Hw Hf. eapply yields_bind; [done|done|]. intros a _. apply Hf. Qed.

(** A value that only the pure end of the call uses. *)
Lemma preserves_end {E A B} (m : client Srv E A) (f : A → B) :
  preserves m → preserves (let! a := m in cret (f a)).
Proof.
  intros Hm. apply preserves_bind; [done| |]; intros; [apply forwards_ret|by apply yields_ret].
Qed.

Lemma preserves_result {E F A} (m : client Srv E A) :
  preserves m → preserves (cresult (F := F) m).
Proof.
  intros Hm w. specialize (Hm w). unfold cresult. destruct (m w); simpl in *.
  intros HT Hg. by destruct (Hm HT Hg).
Qed.

Context (Hstable : stable).

Lemma run_others_keeps t others s :
  t ≤ T → Forall keeps others → I t s → I t (run_others t others s).
Proof.
  intros HT Ho. revert s. induction Ho as [|sc others Hsc _ IH]; intros s Hs; simpl; [done|].
  by apply IH, Hsc.
Qed.

Lemma yields_request {A} (act : Z → Srv → Srv * result A string) (Q : A → Prop) :
  (∀ t s, t ≤ T → I t s → I t (act t s).1 ∧ ∀ a, (act t s).2 = Ok a → Q a) →
  yields (request act) Q.
Proof.
  intros Hact [s t k net]. unfold request; simpl. destruct net as [|ev net]; simpl.
  - specialize (Hact t s). destruct (act t s); simpl in *.
    intros HT [Hs Hnet]. destruct (Hact HT Hs). by split.
  - set (t' := t + Z.of_N (ev_wait ev)).
    intros HT [Hs Hnet]. simpl in *.
    assert (t' ≤ T) as HT' by (destruct (ev_fate ev); cbn in HT; lia).
    apply Forall_cons in Hnet as [Hev Hnet].
    assert (I t' (run_others t' (ev_others ev) s)) as Ht
      by (apply run_others_keeps; [done|done|]; apply (Hstable t); [lia|done]).
    destruct (Hact _ _ HT' Ht) as [Hs' Ha].
    destruct (ev_fate ev); simpl; (split; [split; [|done]|]); try done; try (by apply Ha).
    eapply Hstable; [|exact Hs']. cbn. lia.
Qed.

Lemma yields_invoke {A} (sc : script A) (Q : A → Prop) :
  (∀ t s, t ≤ T → I t s → I t (run t sc s).1 ∧ ∀ a, (run t sc s).2 = Ok a → Q a) →
  yields (invoke sc) Q.
Proof. apply yields_request. Qed.

Lemma preserves_invoke {A} (sc : script A) : keeps sc → preserves (invoke sc).
Proof. intros Hsc. apply yields_request. auto. Qed.

Lemma preserves_pipeline cs : Forall (λ c, keeps (pcall c)) cs → preserves (pipeline cs).
Proof.
  intros Hcs. apply preserves_bind; [| |].
  - induction Hcs as [|c cs Hc _ IH]; simpl; [by apply yields_ret|].
    apply preserves_bind; [by apply preserves_invoke|intros; forwards|].
    intros r. by apply preserves_end.
  - intros. forwards.
  - intros rs. destruct (first_error rs); [apply yields_fail|by apply yields_ret].
Qed.

(** A pipeline whose first reply matters. *)
Lemma yields_pipeline c cs (Q : reply → Prop) :
  (∀ t s, t ≤ T → I t s → I t (run t (pcall c) s).1 ∧ ∀ r, (run t (pcall c) s).2 = Ok r → Q r) →
  Forall (λ c, keeps (pcall c)) cs →
  yields (pipeline (c :: cs)) (λ rs, ∃ r rs', rs = r :: rs' ∧ Q r).
Proof.
  intros Hc Hcs. eapply (yields_bind _ _ (λ rs, ∃ r rs', rs = r :: rs' ∧ Q r)).
  - cbn [send_all]. eapply yields_bind; [by apply yields_invoke|intros; forwards|]. intros r Hr.
    eapply (yields_bind _ _ (λ _, True)); [|intros; apply forwards_ret|intros rs' _; apply yields_ret; eauto].
    clear Hc Hr. induction Hcs as [|c' cs Hc _ IH]; cbn [send_all]; [by apply yields_ret|].
    apply preserves_bind; [by apply preserves_invoke|intros; forwards|]. intros r'. by apply preserves_end.
  - intros. forwards.
  - intros rs Hrs. destruct (first_error rs); [apply yields_fail|by apply yields_ret].
Qed.

Lemma preserves_sleep {E} ms : preserves (sleep (E := E) ms).
Proof.
  intros w HT [Hs Hnet]. split; [|done]. split; [|done].
  simpl. apply (Hstable (w_time w)); [lia|done].
Qed.
End preserve.
