(* ===== verification/DbFacts.v ===== *)
(** * Facts on the documented database

    Sorted sets that are keys without expiry, the effect of [ZADD] and
    [ZREM] on them as functions, and the equations that symbolic execution of
    a script rewrites with (database [kvdb]). *)

From S2P Require Import Prelude Redis.

(** The key is absent or a sorted set without expiry. *)
Definition zset_ok (d : db) (k : string) : Prop :=
  match d !! k with None | Some (RVal (RZset _) None) => True | _ => False end.

Definition zset_of (d : db) (k : string) : gmap string Z :=
  match d !! k with Some (RVal (RZset z) _) => z | _ => ∅ end.

Definition zadd_db (k : string) (score : Z) (m : string) (d : db) : db :=
  <[k := RVal (RZset (<[m := dround score]> (zset_of d k))) None]> d.

Definition zrem_db (k m : string) (d : db) : db :=
  if decide (is_Some (zset_of d k !! m)) then put_zset k (delete m (zset_of d k)) None d else d.

(** The pairs of a sorted set and its members. *)
Lemma elem_of_zitems z x m : (x, m) ∈ zitems z ↔ z !! m = Some x.
Proof.
  unfold zitems. rewrite merge_sort_Permutation, list_elem_of_fmap. split.
  - intros ([m' x'] & [= -> ->] & Hm%elem_of_map_to_list). done.
  - intros Hm. exists (m, x). by rewrite elem_of_map_to_list.
Qed.

Lemma elem_of_zmembers z m : m ∈ (zitems z).*2 ↔ is_Some (z !! m).
Proof.
  rewrite list_elem_of_fmap. split.
  - intros ([x m'] & -> & Hm%elem_of_zitems). eauto.
  - intros [x Hx]. exists (x, m). by rewrite elem_of_zitems.
Qed.

Lemma zitems_empty : zitems ∅ = [].
Proof. unfold zitems. by rewrite map_to_list_empty. Qed.

Lemma NoDup_zmembers z : NoDup (zitems z).*2.
Proof.
  unfold zitems. rewrite merge_sort_Permutation, <- list_fmap_compose.
  apply NoDup_fst_map_to_list.
Qed.

Lemma NoDup_fmap_filter {A B} (g : A → B) (f : A → Prop) `{∀ x, Decision (f x)} (l : list A) :
  NoDup (g <$> l) → NoDup (g <$> filter f l).
Proof.
  induction l as [|x l IH]; [done|]. rewrite fmap_cons, NoDup_cons, filter_cons.
  intros [Hx Hl]. case_decide; [|by apply IH]. rewrite fmap_cons. apply NoDup_cons. split; [|by apply IH].
  intros (y & Hy & [_ Hin]%list_elem_of_filter)%list_elem_of_fmap. apply Hx.
  apply list_elem_of_fmap. eauto.
Qed.

Lemma elem_of_limited {A} n (l : list A) x : x ∈ limited n l → x ∈ l.
Proof.
  unfold limited. destruct n as [n|]; [|done]. case_match; [done|]. apply elem_of_take_in.
Qed.

Lemma lookup_put_zset_ne k k' z e d : k' ≠ k → put_zset k z e d !! k' = d !! k'.
Proof.
  intros Hne. unfold put_zset.
  case_decide; [by apply lookup_delete_ne|by apply lookup_insert_ne].
Qed.

Lemma zset_of_put_zset k z e d : zset_of (put_zset k z e d) k = z.
Proof.
  unfold zset_of, put_zset. case_decide as Hz.
  - by rewrite lookup_delete_eq.
  - by rewrite lookup_insert_eq.
Qed.

Lemma zset_ok_put_zset k z d : zset_ok (put_zset k z None d) k.
Proof.
  unfold zset_ok, put_zset. case_decide; [by rewrite lookup_delete_eq|by rewrite lookup_insert_eq].
Qed.

Section zset.
Context (k : string).

Lemma lookup_zadd_ne s m d k' : k' ≠ k → zadd_db k s m d !! k' = d !! k'.
Proof. intros Hne. unfold zadd_db. by apply lookup_insert_ne. Qed.

Lemma lookup_zrem_ne m d k' : k' ≠ k → zrem_db k m d !! k' = d !! k'.
Proof. intros Hne. unfold zrem_db. case_decide; [by apply lookup_put_zset_ne|done]. Qed.

Lemma zset_ok_same d d' : d' !! k = d !! k → zset_ok d' k ↔ zset_ok d k.
Proof. unfold zset_ok. by intros ->. Qed.

Lemma zset_of_same d d' : d' !! k = d !! k → zset_of d' k = zset_of d k.
Proof. unfold zset_of. by intros ->. Qed.

Lemma zset_ok_insert_ne v d k' : k' ≠ k → zset_ok (<[k' := v]> d) k ↔ zset_ok d k.
Proof. intros. apply zset_ok_same. by rewrite lookup_insert_ne. Qed.

Lemma zset_ok_delete_ne d k' : k' ≠ k → zset_ok (delete k' d) k ↔ zset_ok d k.
Proof. intros. apply zset_ok_same. by rewrite lookup_delete_ne. Qed.

Lemma zset_of_insert_ne v d k' : k' ≠ k → zset_of (<[k' := v]> d) k = zset_of d k.
Proof. intros. apply zset_of_same. by rewrite lookup_insert_ne. Qed.

Lemma zset_of_delete_ne d k' : k' ≠ k → zset_of (delete k' d) k = zset_of d k.
Proof. intros. apply zset_of_same. by rewrite lookup_delete_ne. Qed.

Lemma zset_ok_zadd s m d : zset_ok (zadd_db k s m d) k.
Proof. unfold zset_ok, zadd_db. by rewrite lookup_insert_eq. Qed.

Lemma zset_ok_zrem m d : zset_ok d k → zset_ok (zrem_db k m d) k.
Proof. intros. unfold zrem_db. case_decide; [apply zset_ok_put_zset|done]. Qed.

Lemma zset_of_zadd s m d : zset_of (zadd_db k s m d) k = <[m := dround s]> (zset_of d k).
Proof. unfold zset_of at 1, zadd_db. by rewrite lookup_insert_eq. Qed.

Lemma zset_of_zrem m d : zset_of (zrem_db k m d) k = delete m (zset_of d k).
Proof.
  unfold zrem_db. case_decide as Hm; [apply zset_of_put_zset|].
  rewrite delete_id; [done|]. by destruct (_ !! m); [destruct Hm|].
Qed.
End zset.

Lemma zset_ok_zadd_ne k k' s m d : k ≠ k' → zset_ok (zadd_db k s m d) k' ↔ zset_ok d k'.
Proof. intros. apply zset_ok_same, lookup_zadd_ne. congruence. Qed.

Lemma zset_ok_zrem_ne k k' m d : k ≠ k' → zset_ok (zrem_db k m d) k' ↔ zset_ok d k'.
Proof. intros. apply zset_ok_same, lookup_zrem_ne. congruence. Qed.

Lemma zset_of_zadd_ne k k' s m d : k ≠ k' → zset_of (zadd_db k s m d) k' = zset_of d k'.
Proof. intros. apply zset_of_same, lookup_zadd_ne. congruence. Qed.

Lemma zset_of_zrem_ne k k' m d : k ≠ k' → zset_of (zrem_db k m d) k' = zset_of d k'.
Proof. intros. apply zset_of_same, lookup_zrem_ne. congruence. Qed.

(** ** Commands inside a script *)

Section steps.
Context (P : policy) (t : Z).

(** A range of a sorted set holds members of it. *)
Lemma bylex_members k lo hi n d l m :
  (documented P t (ZRANGEBYLEX k lo hi n) d).2 = RStrs l → m ∈ l → is_Some (zset_of d k !! m).
Proof.
  simpl. unfold with_zset, zset_of. repeat case_match; intros [= <-];
    [|by intros ?%elem_of_nil].
  intros [_ Hm%elem_of_zmembers]%elem_of_limited%list_elem_of_filter. done.
Qed.

Lemma byscore_members k lo hi n d l m :
  (documented P t (ZRANGEBYSCORE k lo hi n) d).2 = RStrs l → m ∈ l → is_Some (zset_of d k !! m).
Proof.
  simpl. unfold with_zset, zset_of. repeat case_match; intros [= <-];
    [|by intros ?%elem_of_nil].
  intros ([x m'] & -> & [_ Hm%elem_of_zitems]%list_elem_of_filter)%elem_of_limited%list_elem_of_fmap.
  simpl. eauto.
Qed.

Lemma documented_zadd k s m d :
  zset_ok d k →
  documented P t (ZADD k s m) d =
    (zadd_db k s m d, RInt (if decide (is_Some (zset_of d k !! m)) then 0 else 1)).
Proof.
  unfold zset_ok. simpl. unfold d_zadd, zadd_db, zset_of.
  destruct (d !! k) as [[[v|z] [e|]]|]; try done.
Qed.

Lemma documented_zrem k m d :
  zset_ok d k →
  documented P t (ZREM k m) d =
    (zrem_db k m d, RInt (if decide (is_Some (zset_of d k !! m)) then 1 else 0)).
Proof.
  unfold zset_ok. simpl. unfold with_zset, zrem_db, zset_of.
  destruct (d !! k) as [[[v|z] [e|]]|]; try done; intros _.
  by case_decide.
Qed.

Lemma d_run_call {A} c (f : reply → script A) d :
  d_run P t (sbind (call c) f) d =
    match documented P t c d with
    | (d, RErr e) => (d, Err e)
    | (d, r) => d_run P t (f r) d
    end.
Proof. simpl. destruct (documented P t c d) as [d' []]; done. Qed.

Lemma d_run_pcall {A} c (f : reply → script A) d :
  d_run P t (sbind (pcall c) f) d =
    let '(d, r) := documented P t c d in d_run P t (f r) d.
Proof. done. Qed.

Lemma d_run_call_end c d :
  d_run P t (call c) d =
    match documented P t c d with (d, RErr e) => (d, Err e) | (d, r) => (d, Ok r) end.
Proof. simpl. destruct (documented P t c d) as [d' []]; done. Qed.

Lemma d_run_call_zadd {A} k s m (f : reply → script A) d :
  zset_ok d k →
  d_run P t (sbind (call (ZADD k s m)) f) d =
    d_run P t (f (RInt (if decide (is_Some (zset_of d k !! m)) then 0 else 1)))
      (zadd_db k s m d).
Proof. intros Hk. by rewrite d_run_call, documented_zadd. Qed.

Lemma d_run_call_zrem {A} k m (f : reply → script A) d :
  zset_ok d k →
  d_run P t (sbind (call (ZREM k m)) f) d =
    d_run P t (f (RInt (if decide (is_Some (zset_of d k !! m)) then 1 else 0)))
      (zrem_db k m d).
Proof. intros Hk. by rewrite d_run_call, documented_zrem. Qed.
End steps.
