(* ===== verification/Keys.v ===== *)
(** * The names of the keys a deployment owns

    [RedisKv] ([src/src/state/kv.rs]) prefixes its data keys and names its
    indexes; leases ([lib.rs], [lease_keys]), peers ([peer.rs]) and topics
    ([pubsub.rs], [state/topic.rs]) have names of their own under the same
    configured prefix.  Here are those names, the glob escaping of a [SCAN]
    pattern, and when two names can be the same key. *)

From S2P Require Import Prelude Redis.

(** ** The key/value store's names *)

(** [RedisKvInner], less its connection and its [index_ready] flag, which is
    state of the replica. *)
Record redis_kv : Type := RedisKvInner {
  key_prefix : string;
  index_key : string;
  expiry_key : string;
  complete_key : string;
}.

Definition with_connection_manager (key_prefix : string) : redis_kv :=
  {| key_prefix := key_prefix;
     index_key := key_prefix +:+ "#kv-index";
     expiry_key := key_prefix +:+ "#kv-expiry";
     complete_key := key_prefix +:+ "#kv-index-complete" |}.

Definition full_key (kv : redis_kv) (key : string) : string :=
  if is_empty (key_prefix kv) then key else key_prefix kv +:+ ":" +:+ key.

Definition logical_key (kv : redis_kv) (full : string) : string :=
  if is_empty (key_prefix kv) then full
  else match strip_prefix (key_prefix kv +:+ ":") full with
       | Some key => key
       | None => full
       end.

(** [key] as a [SCAN MATCH] pattern that matches only itself. *)
Fixpoint glob_escape (key : string) : string :=
  match key with
  | EmptyString => ""
  | String c key =>
      if glob_special c then "\" +:+ String c (glob_escape key) else String c (glob_escape key)
  end.

(** ** Leases, peers, topics *)

Definition lease_keys (prefix kind name : string) : string * string :=
  let lease_key := prefix +:+ kind +:+ "/" +:+ name in
  let fence_key := prefix +:+ kind +:+ "/" +:+ name +:+ ":fence" in
  (lease_key, fence_key).

Definition peer_key (prefix node_id : string) : string := prefix +:+ "peers/" +:+ node_id.
Definition peers_pattern (prefix : string) : string := prefix +:+ "peers/*".
Definition peers_index_key (prefix : string) : string := prefix +:+ "#peers".
Definition channel_name (prefix topic : string) : string := prefix +:+ "topic:" +:+ topic.

(** [RedisTopicBus::full_topic]. *)
Definition full_topic (topic_prefix topic : string) : string :=
  if is_empty topic_prefix then topic else topic_prefix +:+ ":" +:+ topic.

(** The keys of one deployment, by what they are for. *)
Inductive redis_key : Type :=
| KData (key : string)
| KIndex | KExpiry | KComplete
| KPeer (node_id : string)
| KPeers
| KLock (name : string) | KLockFence (name : string)
| KLeader (role : string) | KLeaderFence (role : string).

Definition render (prefix : string) (k : redis_key) : string :=
  let kv := with_connection_manager prefix in
  match k with
  | KData key => full_key kv key
  | KIndex => index_key kv
  | KExpiry => expiry_key kv
  | KComplete => complete_key kv
  | KPeer node_id => peer_key prefix node_id
  | KPeers => peers_index_key prefix
  | KLock name => (lease_keys prefix "locks" name).1
  | KLockFence name => (lease_keys prefix "locks" name).2
  | KLeader role => (lease_keys prefix "leadership" role).1
  | KLeaderFence role => (lease_keys prefix "leadership" role).2
  end.

(** A key as a string under the prefix. *)
Definition suffix (k : redis_key) : string :=
  match k with
  | KData key => ":" +:+ key
  | KIndex => "#kv-index"
  | KExpiry => "#kv-expiry"
  | KComplete => "#kv-index-complete"
  | KPeer node_id => "peers/" +:+ node_id
  | KPeers => "#peers"
  | KLock name => "locks/" +:+ name
  | KLockFence name => "locks/" +:+ name +:+ ":fence"
  | KLeader role => "leadership/" +:+ role
  | KLeaderFence role => "leadership/" +:+ role +:+ ":fence"
  end.

Lemma render_suffix prefix k :
  is_empty prefix = false → render prefix k = prefix +:+ suffix k.
Proof. intros Hp. destruct k; simpl; unfold full_key; simpl; by rewrite ?Hp. Qed.

(** The pairs of distinct keys that share a name: the fence counter of a
    lease [x] is the lease key of a lease called [x:fence]. *)
Definition same_name (k1 k2 : redis_key) : Prop :=
  k1 = k2 ∨
  (∃ n, k1 = KLock (n +:+ ":fence") ∧ k2 = KLockFence n) ∨
  (∃ n, k2 = KLock (n +:+ ":fence") ∧ k1 = KLockFence n) ∨
  (∃ n, k1 = KLeader (n +:+ ":fence") ∧ k2 = KLeaderFence n) ∨
  (∃ n, k2 = KLeader (n +:+ ":fence") ∧ k1 = KLeaderFence n).

Ltac solve_same_name :=
  first [ left; congruence
        | right; left; eexists; split; reflexivity
        | right; right; left; eexists; split; reflexivity
        | right; right; right; left; eexists; split; reflexivity
        | right; right; right; right; eexists; split; reflexivity ].

Lemma suffix_same_name k1 k2 : suffix k1 = suffix k2 → same_name k1 k2.
Proof.
  intros Heq. unfold same_name.
  destruct k1, k2; simpl in Heq; rewrite ?append_cons, ?append_nil_l in Heq;
    try discriminate Heq; simplify_eq; try (left; reflexivity);
    try (apply append_inj_r in Heq; subst; left; reflexivity);
    try solve_same_name.

Qed.

Lemma same_name_suffix k1 k2 : same_name k1 k2 → suffix k1 = suffix k2.
Proof. intros [->|[(n&->&->)|[(n&->&->)|[(n&->&->)|(n&->&->)]]]]; done. Qed.

(** The two keys of a lease are distinct. *)
Lemma lease_key_ne_fence prefix kind name :
  prefix +:+ kind +:+ "/" +:+ name ≠ prefix +:+ kind +:+ "/" +:+ name +:+ ":fence".
Proof.
  intros E. apply (f_equal String.length) in E. rewrite !append_length in E. cbn in E. lia.
Qed.

(** ** Byte facts *)

Lemma glob_escape_app s t : glob_escape (s +:+ t) = glob_escape s +:+ glob_escape t.
Proof.
  induction s as [|c s IH]; [done|]. rewrite append_cons. simpl. rewrite IH.
  destruct (glob_special c); rewrite ?append_cons, ?append_assoc; done.
Qed.

Section glob.
Context `{RedisLaws Srv}.

Lemma glob_escape_app_match p q s :
  glob (glob_escape p +:+ q) s =
    match strip_prefix p s with Some r => glob q r | None => false end.
Proof.
  revert s. induction p as [|c p IH]; intros s; simpl.
  - done.
  - destruct (glob_special c) eqn:Ec.
    + rewrite append_assoc, (append_cons c), glob_escaped.
      destruct s as [|c' s]; [done|]. rewrite IH.
      case_bool_decide; destruct (decide (c = c')); done.
    + rewrite append_cons, glob_char by done.
      destruct s as [|c' s]; [done|]. rewrite IH.
      case_bool_decide; destruct (decide (c = c')); done.
Qed.

(** The pattern of an escaped prefix followed by a star matches exactly the
    keys that start with the prefix. *)
Lemma glob_escape_star p s : glob (glob_escape p +:+ "*") s = starts_with p s.
Proof.
  rewrite glob_escape_app_match. unfold starts_with.
  destruct (strip_prefix p s); [apply glob_star|done].
Qed.

Lemma glob_escape_self p s : glob (glob_escape p) s = bool_decide (s = p).
Proof.
  rewrite <- (append_nil_r (glob_escape p)), glob_escape_app_match.
  destruct (strip_prefix p s) as [r|] eqn:E.
  - apply strip_prefix_Some in E as ->. rewrite glob_nil. destruct r as [|c r].
    + rewrite append_nil_r. by rewrite bool_decide_eq_true_2.
    + rewrite bool_decide_eq_false_2; [done|].
      rewrite <- (append_nil_r p) at 2. by intros ?%append_inj_l.
  - symmetry. apply bool_decide_eq_false. intros ->.
    pose proof (strip_prefix_append p "") as Hs. rewrite append_nil_r in Hs. congruence.
Qed.
End glob.

(** ** The store's three keys and its data keys are distinct *)

Section store_keys.
Context (kv : redis_kv) (prefix : string).
Context (Hkv : kv = with_connection_manager prefix) (Hprefix : is_empty prefix = false).

Lemma full_key_suffix key : full_key kv key = prefix +:+ suffix (KData key).
Proof. subst kv. by apply (render_suffix prefix (KData key)). Qed.

Lemma index_key_suffix : index_key kv = prefix +:+ suffix KIndex.
Proof. by subst kv. Qed.

Lemma expiry_key_suffix : expiry_key kv = prefix +:+ suffix KExpiry.
Proof. by subst kv. Qed.

Lemma full_key_ne_index key : full_key kv key ≠ index_key kv.
Proof. rewrite full_key_suffix, index_key_suffix. by intros ?%append_inj_l. Qed.

Lemma full_key_ne_expiry key : full_key kv key ≠ expiry_key kv.
Proof. rewrite full_key_suffix, expiry_key_suffix. by intros ?%append_inj_l. Qed.

Lemma index_ne_expiry : index_key kv ≠ expiry_key kv.
Proof. rewrite index_key_suffix, expiry_key_suffix. by intros ?%append_inj_l. Qed.

Lemma full_key_inj key key' : full_key kv key = full_key kv key' → key = key'.
Proof. rewrite !full_key_suffix. intros H%append_inj_l. by apply append_inj_l in H. Qed.

Lemma logical_full_key key : logical_key kv (full_key kv key) = key.
Proof.
  unfold logical_key. rewrite full_key_suffix. subst kv. simpl. rewrite Hprefix.
  by rewrite <- append_assoc, strip_prefix_append.
Qed.

Lemma full_key_app key key' : full_key kv (key +:+ key') = full_key kv key +:+ key'.
Proof. rewrite !full_key_suffix. simpl. by rewrite !append_assoc. Qed.
End store_keys.
