(* ===== verification/Footprint.v ===== *)
(** * What a script can write

    [within K sc]: every command of the script [sc] writes only keys in [K].
    The components of a deployment share one keyspace under one prefix; that
    one leaves the keys of another alone is a fact about footprints and
    names. *)

From S2P Require Import Prelude Redis Client DbFacts.

Definition cmd_within (K : string → Prop) (c : cmd) : Prop :=
  match c with
  | GET _ | EXISTS _ | PTTL _ | MGET _ | ZRANGEBYLEX _ _ _ _ | ZRANGEBYSCORE _ _ _ _ => True
  | SET k _ _ _ | DEL k | PEXPIRE k _ | PERSIST k | INCRBY k _ | ZADD k _ _ | ZREM k _
  | ZREMRANGEBYSCORE k _ _ => K k
  end.

Fixpoint within {A} (K : string → Prop) (sc : script A) : Prop :=
  match sc with
  | SRet _ | SRaise _ => True
  | SCall c k => cmd_within K c ∧ ∀ r, within K (k r)
  end.

Section footprint.
Context (K : string → Prop).

Lemma within_bind {A B} (m : script A) (f : A → script B) :
  within K m → (∀ a, within K (f a)) → within K (sbind m f).
Proof.
  intros Hm Hf. induction m as [a|e|c k IH]; simpl; [by apply Hf|done|].
  destruct Hm as [Hc Hk]. split; [done|]. intros r. apply IH, Hk.
Qed.

Lemma within_call c : cmd_within K c → within K (call c).
Proof. intros Hc. split; [done|]. by intros []. Qed.

Lemma within_pcall c : cmd_within K c → within K (pcall c).
Proof. by intros Hc. Qed.

Lemma within_silent {A} (sc : script A) : within K sc → within K (silent sc).
Proof. intros. by apply within_bind. Qed.

Lemma documented_outside P t c d k :
  cmd_within K c → ¬ K k → (documented P t c d).1 !! k = d !! k.
Proof.
  intros Hc Hk.
  destruct c; simpl in *; unfold d_set, d_incrby, d_zadd, with_zset; repeat case_match; simpl;
    try done; try (rewrite lookup_insert_ne; [done|by intros ->]);
    try (rewrite lookup_delete_ne; [done|by intros ->]);
    (rewrite lookup_put_zset_ne; [done|by intros ->]).
Qed.

(** A script leaves the keys outside its footprint as they were. *)
Lemma run_outside {A} P t (sc : script A) d k :
  within K sc → ¬ K k → (d_run P t sc d).1 !! k = d !! k.
Proof.
  intros Hsc Hk. revert d. induction sc as [a|e|c f IH]; intros d; simpl; [done|done|].
  destruct Hsc as [Hc Hf]. pose proof (documented_outside P t c d k Hc Hk) as Hd.
  destruct (documented P t c d) as [d' r]. simpl in Hd. rewrite <- Hd. by apply IH.
Qed.

Lemma run_view_outside {Srv} `{RedisLaws Srv} {A} t (sc : script A) (s : Srv) k :
  within K sc → ¬ K k → view t (run t sc s).1 !! k = view t s !! k.
Proof. intros. destruct (run_view t sc s) as [-> _]. by apply run_outside. Qed.
End footprint.

(** Solves [within K sc] for a script without recursion, up to membership of
    its keys. *)
Ltac within_step :=
  first
    [ assumption
    | lazymatch goal with
      | |- within _ (SRet _) => exact I
      | |- within _ (SRaise _) => exact I
      | |- within _ (sbind _ _) => apply within_bind; [|intros ?]
      | |- within _ (call _) => apply within_call; simpl
      | |- within _ (pcall _) => apply within_pcall; simpl
      | |- within _ (silent _) => apply within_silent
      | |- within _ (match _ with _ => _ end) => case_match
      | |- within _ (let _ := _ in _) => cbv zeta
      | |- True => exact I
      end ].
Ltac within_script := repeat within_step.
