(* ===== verification/Rely.v ===== *)
(** * Rely and guarantee

    What the replicas of a fleet may count on from each other is a relation
    on the server's states.  [heeds] says of a network that the other
    clients' scripts, in the states they really meet, keep to it as long as
    this client does; [obeys] that a client's call keeps to it.  Along such a
    call the server takes steps of the relation, and time passes. *)

From S2P Require Import Prelude Redis Client DbFacts Footprint.

Section rely.
Context {Srv : Type} `{RedisServer Srv} (T : Z).
Context (I : Z → Srv → Prop) (G : Z → Srv → Srv → Prop).

Inductive move : Z * Srv → Z * Srv → Prop :=
| move_time t t' s : t ≤ t' → move (t, s) (t', s)
| move_step t s s' : t ≤ T → G t s s' → move (t, s) (t, s').

(** The others keep to [G] whenever they get to run, after any step of [G]
    by this client. *)
Fixpoint heeds (net : list net_event) (t : Z) (s : Srv) : Prop :=
  match net with
  | [] => True
  | ev :: net =>
      ∀ t0, t ≤ t0 →
        let t' := t0 + Z.of_N (ev_wait ev) in
        let s' := run_others t' (ev_others ev) s in
        t' ≤ T → G t' s s' ∧ ∀ s2, G t' s' s2 → heeds net t' s2
  end.

Definition honest (w : world Srv) : Prop :=
  I (w_time w) (w_srv w) ∧ heeds (w_net w) (w_time w) (w_srv w).

Definition moves (w w' : world Srv) : Prop :=
  rtc move (w_time w, w_srv w) (w_time w', w_srv w').

#[local] Instance moves_trans : Transitive moves.
Proof. intros w1 w2 w3. unfold moves. apply transitivity. Qed.

(** Every value of [m] satisfies [Q], and getting it the client keeps to
    [G]. *)
Definition obeys {E A} (m : client Srv E A) (Q : A → Prop) : Prop :=
  ∀ w, w_time (m w).1 ≤ T → honest w →
    honest (m w).1 ∧ moves w (m w).1 ∧ ∀ a, (m w).2 = Ok a → Q a.

Lemma obeys_same {E A} (m : client Srv E A) (Q : A → Prop) :
  (∀ w, (m w).1 = w) → (∀ w a, (m w).2 = Ok a → Q a) → obeys m Q.
Proof. intros Hm HQ w _ Hw. rewrite Hm. split; [done|]. split; [constructor|apply HQ]. Qed.

Lemma obeys_ret {E A} (a : A) (Q : A → Prop) : Q a → obeys (cret (E := E) a) Q.
Proof. intros Ha. apply obeys_same; [done|]. by intros w ? [= <-]. Qed.

Lemma obeys_fail {E A} (e : E) (Q : A → Prop) : obeys (cfail e) Q.
Proof. by apply obeys_same. Qed.

Lemma obeys_now {E} : obeys (now_ms (E := E)) (λ _, True).
Proof. by apply obeys_same. Qed.

Lemma obeys_system_now {E} : obeys (system_now (E := E)) (λ _, True).
Proof. by apply obeys_same. Qed.

Lemma obeys_bind {E A B} (m : client Srv E A) (f : A → client Srv E B) (Q : A → Prop) R :
  obeys m Q → (∀ a, forwards (f a)) → (∀ a, Q a → obeys (f a) R) → obeys (cbind m f) R.
Proof.
  intros Hm Hf HR w. unfold cbind. specialize (Hm w).
  destruct (m w) as [w' [a|e]]; simpl in *; intros HT Hw.
  - specialize (Hf a w'). destruct (Hm ltac:(lia) Hw) as (Hw' & Hmv & Ha).
    destruct (HR a (Ha a eq_refl) w') as (Hw2 & Hmv2 & Hb); [done|done|].
    split; [done|]. split; [|done]. by etrans.
  - destruct (Hm HT Hw) as (Hw' & Hmv & _). by split; [|split].
Qed.

Lemma obeys_map_err {E F A} (f : E → F) (m : client Srv E A) Q : obeys m Q → obeys (cmap_err f m) Q.
Proof.
  intros Hm w. specialize (Hm w). unfold cmap_err. destruct (m w) as [w' [a|e]]; simpl in *;
    intros HT Hw; destruct (Hm HT Hw) as (? & ? & Ha); (split; [done|]); (split; [done|]); [|done].
  intros ? [= <-]. by apply Ha.
Qed.

Lemma obeys_weaken {E A} (m : client Srv E A) (Q R : A → Prop) :
  obeys m Q → (∀ a, Q a → R a) → obeys m R.
Proof. intros Hm HR w HT Hw. destruct (Hm w HT Hw) as (? & ? & ?). eauto. Qed.

Lemma obeys_any {E A} (m : client Srv E A) Q : obeys m Q → obeys m (λ _, True).
Proof. intros Hm. by eapply obeys_weaken. Qed.

(** A call whose [Result] is looked at. *)
Lemma obeys_result {E F A} (m : client Srv E A) Q :
  obeys m Q → obeys (cresult (F := F) m) (λ r, match r with Ok a => Q a | Err _ => True end).
Proof.
  intros Hm w. specialize (Hm w). unfold cresult. destruct (m w) as [w' [a|e]]; simpl in *;
    intros HT Hw; destruct (Hm HT Hw) as (? & ? & Ha); (split; [done|]); (split; [done|]); intros ? [= <-];
    [by apply Ha|done].
Qed.

Lemma obeys_end {E A B} (m : client Srv E A) (f : A → B) :
  obeys m (λ _, True) → obeys (let! a := m in cret (f a)) (λ _, True).
Proof.
  intros Hm. eapply obeys_bind; [done|intros; apply forwards_ret|]. intros. by apply obeys_ret.
Qed.

(** What is kept. *)
Context (Hstable : stable I) (Hkeep : ∀ t s s', G t s s' → I t s → I t s') (Hrefl : ∀ t s, G t s s).

Lemma heeds_later net t t' s : t ≤ t' → heeds net t s → heeds net t' s.
Proof. intros Ht. destruct net as [|ev net]; [done|]. intros Hn t0 Ht0. apply Hn. lia. Qed.

Lemma honest_later (w : world Srv) t :
  honest w → w_time w ≤ t → honest (World (w_srv w) t (w_skew w) (w_net w)).
Proof.
  intros [Hi Hn] Ht. split; [by apply (Hstable (w_time w))|]. by apply (heeds_later _ (w_time w)).
Qed.

Lemma obeys_sleep {E} ms : obeys (sleep (E := E) ms) (λ _, True).
Proof.
  intros w _ Hw. unfold sleep. cbn [fst snd].
  split; [apply honest_later; [done|lia]|]. split; [|done]. apply rtc_once, move_time. cbn. lia.
Qed.

(** The server as a request finds it. *)
Lemma honest_arrival (w : world Srv) :
  (arrival w).1 ≤ T → honest w →
  let '(t, s) := arrival w in
  honest (World s t (w_skew w) (tail (w_net w))) ∧
  rtc move (w_time w, w_srv w) (t, s) ∧
  ∀ s2, G t s s2 → honest (World s2 t (w_skew w) (tail (w_net w))).
Proof.
  destruct w as [s t k [|ev net]]; unfold arrival, honest; cbn [w_net w_time w_srv w_skew fst tail].
  { intros HT [Hi _]. split; [done|]. split; [constructor|]. intros s2 Hs2. split; [by eapply Hkeep|done]. }
  intros HT [Hi Hn]. set (t' := t + Z.of_N (ev_wait ev)) in *.
  destruct (Hn t ltac:(lia) HT) as [Hg Hrest]. fold t' in Hg, Hrest.
  assert (Hi' : I t' s) by (apply (Hstable t); [lia|done]).
  set (s' := run_others t' (ev_others ev) s) in *.
  assert (Hi2 : I t' s') by (by eapply Hkeep).
  split; [split; [done|by apply Hrest]|]. split.
  - eapply rtc_l; [apply (move_time t t'); lia|]. by apply rtc_once, move_step.
  - intros s2 Hs2. split; [by eapply Hkeep|by apply Hrest].
Qed.

Lemma request_arrival {A} (act : Z → Srv → Srv * result A string) (w : world Srv) :
  ∃ s' (late : N) r,
    request act w = (World s' ((arrival w).1 + Z.of_N late) (w_skew w) (tail (w_net w)), r) ∧
    (s' = (arrival w).2 ∨ s' = (act (arrival w).1 (arrival w).2).1) ∧
    (∀ a, r = Ok a → (act (arrival w).1 (arrival w).2).2 = Ok a).
Proof.
  unfold request, arrival. destruct (w_net w) as [|ev net]; cbn [fst snd tail].
  - destruct (act (w_time w) (w_srv w)) as [s r]. eexists _, 0%N, _. rewrite Z.add_0_r. split; [done|]. auto.
  - destruct (ev_fate ev) as [|late| |]; [eexists _, 0%N, _|eexists _, late, _|eexists _, 0%N, _..];
      rewrite ?Z.add_0_r; (split; [done|]; split; [auto|]); naive_solver.
Qed.

(** One request, which keeps to [G] where it is executed. *)
Lemma request_obeys {A} (act : Z → Srv → Srv * result A string) (Q : A → Prop) (w : world Srv) :
  w_time (request act w).1 ≤ T → honest w →
  (let '(t, s) := arrival w in
   I t s → G t s (act t s).1 ∧ ∀ a, (act t s).2 = Ok a → Q a) →
  honest (request act w).1 ∧ moves w (request act w).1 ∧ ∀ a, (request act w).2 = Ok a → Q a.
Proof.
  destruct (request_arrival act w) as (s' & late & r & -> & Hs' & Hr). cbn [fst snd w_time].
  intros HT Hw Hact. pose proof (honest_arrival w ltac:(lia) Hw) as Harr.
  unfold moves. cbn [w_time w_srv]. destruct (arrival w) as [t s]. cbn [fst snd] in *.
  destruct Harr as (Hhere & Hmv & Hnext). destruct (Hact (proj1 Hhere)) as [Hg HQ].
  assert (Hg' : G t s s') by (destruct Hs' as [->| ->]; [apply Hrefl|done]).
  split; [apply (honest_later (World s' t (w_skew w) (tail (w_net w)))); [by apply Hnext|cbn; lia]|]. split; [|by intros a Ha; apply HQ, Hr].
  transitivity (t, s); [exact Hmv|]. eapply rtc_l; [apply move_step; [lia|exact Hg']|].
  apply rtc_once, move_time. lia.
Qed.

Lemma obeys_request {A} (act : Z → Srv → Srv * result A string) (Q : A → Prop) :
  (∀ t s, t ≤ T → I t s → G t s (act t s).1 ∧ ∀ a, (act t s).2 = Ok a → Q a) →
  obeys (request act) Q.
Proof.
  intros Hact w HT Hw. apply request_obeys; [done|done|].
  destruct (request_arrival act w) as (s' & late & r & Hrun & _). rewrite Hrun in HT. cbn in HT.
  destruct (arrival w) as [t s]. cbn in HT. apply Hact. lia.
Qed.

Lemma obeys_invoke {A} (sc : script A) :
  (∀ t s, t ≤ T → I t s → G t s (run t sc s).1) → obeys (invoke sc) (λ _, True).
Proof. intros Hsc. apply obeys_request. auto. Qed.

Lemma obeys_pipeline cs :
  Forall (λ c, ∀ t s, t ≤ T → I t s → G t s (run t (pcall c) s).1) cs → obeys (pipeline cs) (λ _, True).
Proof.
  intros Hcs. eapply (obeys_bind _ _ (λ _, True)); [|intros; forwards|].
  - induction Hcs as [|c cs Hc _ IH]; simpl; [by apply obeys_ret|].
    eapply obeys_bind; [by apply obeys_invoke|intros; forwards|]. intros r _. by apply obeys_end.
  - intros rs _. cbv beta. destruct (first_error rs); [apply obeys_fail|by apply obeys_ret].
Qed.

(** Anything that time and [G] keep is kept. *)
Lemma moves_keep (J : Z → Srv → Prop) w w' :
  stable J → (∀ t s s', t ≤ T → G t s s' → I t s → J t s → J t s') →
  moves w w' → I (w_time w) (w_srv w) → J (w_time w) (w_srv w) → J (w_time w') (w_srv w').
Proof.
  intros Hst HJ Hm.
  enough (Hall : ∀ x y, rtc move x y → I x.1 x.2 → J x.1 x.2 → J y.1 y.2)
    by exact (Hall _ _ Hm).
  induction 1 as [x|x y z Hxy _ IH]; [done|]. intros Hi Hj.
  destruct Hxy as [t t' s Ht|t s s' Ht Hg]; cbn [fst snd] in *; apply IH; eauto.
Qed.
End rely.
