(* ===== verification/KvScripts.v ===== *)
(** * The Lua scripts of the key/value store ([src/src/state/kv.rs])

    Every write is one script over the data key ([KEYS[1]]), the key index
    ([KEYS[2]]) and the expiry index ([KEYS[3]]); the upkeep scripts take the
    two indexes.  Integer arguments arrive as text, so the script first makes
    a double of each.  Below the scripts is what each does to the documented
    database. *)

From S2P Require Import Prelude Redis DbFacts.

(** [tonumber(ARGV[i])] of an integer argument, and Lua's [+] and [-]. *)
Definition tonumber (z : Z) : Z := dround z.
Definition ladd (a b : Z) : Z := dround (a + b).
Definition lsub (a b : Z) : Z := dround (a - b).

Definition incr_sentinel : string := "MCPG_KV_INCR_PRECONDITION".

(** ** The scripts *)

Definition SET_LUA (k1 k2 k3 value : string) (ttl_ms now : Z) (nx : bool) : script Z :=
  let ttl := tonumber ttl_ms in
  let* stored :=
    (if nx then
       let* ok :=
         (if 0 <? ttl then call (SET k1 value true (Some ttl)) else call (SET k1 value true None)) in
       SRet (match ok with RNil => false | _ => true end)
     else if 0 <? ttl then let* _ := call (SET k1 value false (Some ttl)) in SRet true
     else let* _ := call (SET k1 value false None) in SRet true) in
  if negb stored then SRet 0
  else
    let* _ :=
      (if 0 <? ttl then call (ZADD k3 (ladd (tonumber now) ttl) k1) else call (ZREM k3 k1)) in
    let* _ := call (ZADD k2 0 k1) in
    SRet 1.

Definition DEL_LUA (k1 k2 k3 : string) : script Z :=
  let* n := call (DEL k1) in
  let* _ := call (ZREM k2 k1) in
  let* _ := call (ZREM k3 k1) in
  SRet (lua_int n).

Definition EXPIRE_LUA (k1 k2 k3 : string) (ttl_ms now : Z) : script Z :=
  let* there := call (EXISTS k1) in
  if lua_int there =? 0 then SRet 0
  else
    let ttl := tonumber ttl_ms in
    let* _ :=
      (if 0 <? ttl then
         let* _ := call (PEXPIRE k1 ttl) in
         call (ZADD k3 (ladd (tonumber now) ttl) k1)
       else
         let* _ := call (PERSIST k1) in
         call (ZREM k3 k1)) in
    let* _ := call (ZADD k2 0 k1) in
    SRet 1.

(** The end that [INCR_LUA] and [INCR_FLOOR_LUA] share: the [INCRBY] under
    [pcall], its error as the sentinel reply, the TTL and index steps. *)
Definition incr_steps (table : bool) (k1 k2 k3 : string) (amount ttl_ms now : Z) : script Z :=
  let* ret := pcall (INCRBY k1 amount) in
  match ret with
  | RErr e => SRaise (incr_sentinel +:+ (if table then ": " +:+ e else ""))
  | _ =>
      let ttl := tonumber ttl_ms in
      let* _ :=
        (if 0 <? ttl then
           let* _ := call (PEXPIRE k1 ttl) in
           call (ZADD k3 (ladd (tonumber now) ttl) k1)
         else SRet RNil) in
      let* _ := call (ZADD k2 0 k1) in
      SRet (lua_int ret)
  end.

Definition INCR_LUA (table : bool) (k1 k2 k3 : string) (delta ttl_ms now : Z) : script Z :=
  incr_steps table k1 k2 k3 delta ttl_ms now.

Definition exact : Z := 9007199254740992.

(** [math.abs(x) >= exact] *)
Definition lua_past (x : lua_num) : bool :=
  match x with LInt z => exact <=? Z.abs z | LOther huge => huge end.

(** What [INCR_FLOOR_LUA] computes from [GET]'s reply before its [INCRBY]: the
    amount to add, or the error it replies with. *)
Definition floor_amount (text : string → option lua_num) (raw : reply) (delta_arg floor_arg : Z) :
    result Z string :=
  let current := match raw with RBulk v => text v | _ => Some (LInt 0) end in
  let delta := tonumber delta_arg in
  let floor := tonumber floor_arg in
  match current with
  | None => Err (incr_sentinel +:+ ": incr target holds a non-integer value")
  | Some current =>
      if lua_past current || (exact <=? Z.abs floor) || (exact <=? Z.abs delta) then
        Err (incr_sentinel +:+ ": incr_floor operand beyond 2^53")
      else
        match current with
        | LInt current =>
            let base := if current <? floor then floor else current in
            Ok (ladd (lsub base current) delta)
        | LOther _ => Ok 0  (* whatever the amount's text, [INCRBY] refuses the stored value *)
        end
  end.

Definition INCR_FLOOR_LUA (text : string → option lua_num) (table : bool) (k1 k2 k3 : string)
    (delta ttl_ms now floor : Z) : script Z :=
  let* raw := call (GET k1) in
  match floor_amount text raw delta floor with
  | Err e => SRaise e
  | Ok amount => incr_steps table k1 k2 k3 amount ttl_ms now
  end.

(** One turn of each upkeep loop, then the loops. *)
Fixpoint PRUNE_LUA (k1 k2 : string) (args : list string) (n : Z) : script Z :=
  match args with
  | [] => SRet n
  | k :: args =>
      let* there := call (EXISTS k) in
      if lua_int there =? 0 then
        let* _ := call (ZREM k1 k) in
        let* _ := call (ZREM k2 k) in
        PRUNE_LUA k1 k2 args (n + 1)
      else PRUNE_LUA k1 k2 args n
  end.

Fixpoint SWEEP_LUA (k1 k2 : string) (now : Z) (args : list string) (gone : Z) : script Z :=
  match args with
  | [] => SRet gone
  | k :: args =>
      let* pttl := call (PTTL k) in
      let pttl := lua_int pttl in
      if pttl =? -2 then
        let* _ := call (ZREM k1 k) in
        let* _ := call (ZREM k2 k) in
        SWEEP_LUA k1 k2 now args (gone + 1)
      else if pttl =? -1 then
        let* _ := call (ZREM k2 k) in
        SWEEP_LUA k1 k2 now args gone
      else
        let* _ := call (ZADD k2 (ladd (tonumber now) pttl) k) in
        SWEEP_LUA k1 k2 now args gone
  end.

Fixpoint BACKFILL_LUA (k1 k2 : string) (now : Z) (args : list string) (n : Z) : script Z :=
  match args with
  | [] => SRet n
  | k :: args =>
      let* pttl := call (PTTL k) in
      let pttl := lua_int pttl in
      if negb (pttl =? -2) then
        let* _ := call (ZADD k1 0 k) in
        let* _ := (if 0 <? pttl then call (ZADD k2 (ladd (tonumber now) pttl) k) else SRet RNil) in
        BACKFILL_LUA k1 k2 now args (n + 1)
      else BACKFILL_LUA k1 k2 now args n
  end.

(** ** What the scripts do to the documented database *)

Lemma tonumber_pos z : 0 ≤ z → (0 <? tonumber z) = (0 <? z).
Proof.
  intros Hz. unfold tonumber. destruct (Z.ltb_spec 0 z) as [Hp|Hn].
  - apply Z.ltb_lt, dround_pos. lia.
  - assert (z = 0) as -> by lia. done.
Qed.

Section effects.
Context (P : policy) (t : Z) (k1 k2 k3 : string).
Context (H12 : k1 ≠ k2) (H13 : k1 ≠ k3) (H23 : k2 ≠ k3).

(** The relative expiry of a write: [None] for a TTL of 0. *)
Definition script_px (ttl : Z) : option Z := if 0 <? tonumber ttl then Some (tonumber ttl) else None.

Definition px_refused (ttl : Z) : bool :=
  match script_px ttl with Some ms => negb (px_ok P t ms) | None => false end.

(** The index steps of a write with a TTL argument. *)
Definition set_index (ttl now : Z) (d : db) : db :=
  zadd_db k2 0 k1
    (match script_px ttl with
     | Some ms => zadd_db k3 (ladd (tonumber now) ms) k1 d
     | None => zrem_db k3 k1 d
     end).

(** Those of a counter, whose TTL argument 0 means "keep". *)
Definition incr_index (ttl now : Z) (d : db) : db :=
  zadd_db k2 0 k1
    (match script_px ttl with
     | Some ms => zadd_db k3 (ladd (tonumber now) ms) k1 d
     | None => d
     end).

Definition expiry_at (ttl : Z) : option Z := (λ ms, t + ms) <$> script_px ttl.

Definition indexes_ok (d : db) : Prop := zset_ok d k2 ∧ zset_ok d k3.

Lemma indexes_ok_insert v d : indexes_ok d → indexes_ok (<[k1 := v]> d).
Proof. unfold indexes_ok. by rewrite !zset_ok_insert_ne. Qed.

Lemma indexes_ok_delete d : indexes_ok d → indexes_ok (delete k1 d).
Proof. unfold indexes_ok. by rewrite !zset_ok_delete_ne. Qed.

Lemma d_run_set_index {A} ttl now (a : A) d :
  indexes_ok d →
  d_run P t
    (let* _ :=
       (if 0 <? tonumber ttl then call (ZADD k3 (ladd (tonumber now) (tonumber ttl)) k1)
        else call (ZREM k3 k1)) in
     let* _ := call (ZADD k2 0 k1) in SRet a) d = (set_index ttl now d, Ok a).
Proof.
  intros [Hi He]. unfold set_index, script_px.
  destruct (0 <? tonumber ttl).
  - rewrite d_run_call_zadd by done.
    rewrite d_run_call_zadd by (by apply zset_ok_zadd_ne). done.
  - rewrite d_run_call_zrem by done.
    rewrite d_run_call_zadd by (by apply zset_ok_zrem_ne). done.
Qed.

Lemma run_set v ttl now nx d :
  indexes_ok d →
  d_run P t (SET_LUA k1 k2 k3 v ttl now nx) d =
    if px_refused ttl then (d, Err bad_expire)
    else if nx && bool_decide (is_Some (d !! k1)) then (d, Ok 0)
    else (set_index ttl now (<[k1 := RVal (RStr v) (expiry_at ttl)]> d), Ok 1).
Proof.
  intros Hd. pose proof (d_run_set_index ttl now 1) as Hset.
  assert (Hins : ∀ e, indexes_ok (<[k1 := RVal (RStr v) e]> d))
    by (intros; by apply indexes_ok_insert).
  unfold SET_LUA, px_refused, expiry_at, script_px in *.
  rewrite d_run_bind.
  destruct (0 <? tonumber ttl) eqn:Ht; destruct nx;
    rewrite ?d_run_bind, ?d_run_call; simpl; unfold d_set; simpl; rewrite ?Ht; simpl;
    try destruct (px_ok P t (tonumber ttl)); simpl; try done;
    try case_bool_decide; simpl; try done;
    exact (Hset _ (Hins _)).
Qed.

Lemma run_del d :
  indexes_ok d →
  d_run P t (DEL_LUA k1 k2 k3) d =
    (zrem_db k3 k1 (zrem_db k2 k1 (delete k1 d)),
     Ok (if decide (is_Some (d !! k1)) then 1 else 0)).
Proof.
  intros Hd. unfold DEL_LUA. rewrite d_run_call. simpl documented. cbv iota beta.
  destruct (indexes_ok_delete d Hd) as [Hi He].
  rewrite d_run_call_zrem by done.
  rewrite d_run_call_zrem by (by apply zset_ok_zrem_ne). simpl.
  by case_decide.
Qed.

Lemma run_expire ttl now d :
  indexes_ok d →
  d_run P t (EXPIRE_LUA k1 k2 k3 ttl now) d =
    match d !! k1 with
    | None => (d, Ok 0)
    | Some v =>
        if px_refused ttl then (d, Err bad_expire)
        else (set_index ttl now (<[k1 := RVal (r_obj v) (expiry_at ttl)]> d), Ok 1)
    end.
Proof.
  intros Hd. pose proof (d_run_set_index ttl now 1) as Hset.
  unfold EXPIRE_LUA. rewrite d_run_call. simpl documented. cbv iota beta.
  destruct (d !! k1) as [[o e]|] eqn:Hk; simpl; [|done].
  unfold px_refused, expiry_at, script_px in *.
  destruct (0 <? tonumber ttl) eqn:Ht; simpl.
  - assert ((tonumber ttl <=? 0) = false) as -> by (apply Z.leb_gt, Z.ltb_lt, Ht).
    destruct (px_ok P t (tonumber ttl)); simpl; [|done]. rewrite Hk. simpl.
    rewrite <- (Hset (<[k1 := _]> d)) by (by apply indexes_ok_insert). done.
  - rewrite Hk. destruct e as [e|]; simpl.
    + rewrite <- (Hset (<[k1 := _]> d)) by (by apply indexes_ok_insert). done.
    + rewrite insert_id by done. rewrite <- (Hset d) by done. done.
Qed.

(** [INCRBY]'s reply is an integer or an error, and an error changes nothing. *)
Lemma d_incrby_cases amount d :
  (∃ e, d_incrby P k1 amount d = (d, RErr e)) ∨
  (∃ z e, d_incrby P k1 amount d = (<[k1 := RVal (RStr (of_int P (z + amount))) e]> d, RInt (z + amount)) ∧
          in_i64 (z + amount) ∧
          match d !! k1 with
          | None => z = 0 ∧ e = None
          | Some v => ∃ s, v = RVal (RStr s) e ∧ as_int P s = Some z
          end).
Proof.
  unfold d_incrby. destruct (d !! k1) as [[[s|z] e]|] eqn:Hk; [|eauto|].
  - destruct (as_int P s) as [z|] eqn:Hz; [|eauto].
    destruct (is_i64 (z + amount)) eqn:Hi; [|eauto].
    right. exists z, e. split; [done|]. split; [by apply is_i64_spec|]. eauto.
  - destruct (is_i64 (0 + amount)) eqn:Hi; [|eauto].
    right. exists 0, None. split; [done|]. split; [by apply is_i64_spec|]. done.
Qed.

Lemma d_run_incr_index {A} ttl now (a : A) v d :
  indexes_ok d → d !! k1 = Some v →
  d_run P t
    (let* _ :=
       (if 0 <? tonumber ttl then
          let* _ := call (PEXPIRE k1 (tonumber ttl)) in
          call (ZADD k3 (ladd (tonumber now) (tonumber ttl)) k1)
        else SRet RNil) in
     let* _ := call (ZADD k2 0 k1) in SRet a) d =
    if px_refused ttl then (d, Err bad_expire)
    else (incr_index ttl now
            (match script_px ttl with
             | Some ms => <[k1 := RVal (r_obj v) (Some (t + ms))]> d
             | None => d
             end), Ok a).
Proof.
  intros Hd Hk. unfold px_refused, incr_index, script_px.
  destruct (0 <? tonumber ttl) eqn:Ht.
  - rewrite d_run_bind, d_run_call. simpl documented.
    assert ((tonumber ttl <=? 0) = false) as -> by (apply Z.leb_gt, Z.ltb_lt, Ht).
    destruct (px_ok P t (tonumber ttl)); simpl negb; cbv iota; [|done]. rewrite Hk. cbv iota.
    destruct (indexes_ok_insert (RVal (r_obj v) (Some (t + tonumber ttl))) d Hd) as [Hi He].
    rewrite d_run_call_end, documented_zadd by done. cbv iota beta.
    rewrite d_run_call_zadd by (by apply zset_ok_zadd_ne). done.
  - rewrite d_run_bind. simpl (d_run P t (SRet RNil) d). cbv iota beta.
    destruct Hd. rewrite d_run_call_zadd by done. done.
Qed.

Lemma run_incr_steps table amount ttl now d :
  indexes_ok d →
  d_run P t (incr_steps table k1 k2 k3 amount ttl now) d =
    match d_incrby P k1 amount d with
    | (d1, RInt n) =>
        if px_refused ttl then (d1, Err bad_expire)
        else (incr_index ttl now
                (match script_px ttl with
                 | Some ms =>
                     <[k1 := RVal (RStr (of_int P n)) (Some (t + ms))]> d1
                 | None => d1
                 end), Ok (dround n))
    | (d1, RErr e) => (d1, Err (incr_sentinel +:+ (if table then ": " +:+ e else "")))
    | (d1, _) => (d1, Ok 0)
    end.
Proof.
  intros Hd. unfold incr_steps. rewrite d_run_pcall. simpl documented.
  destruct (d_incrby_cases amount d) as [[e ->]|(z & e & -> & _ & _)]; [done|].
  cbv iota beta. erewrite d_run_incr_index;
    [|by apply indexes_ok_insert|by apply lookup_insert_eq].
  done.
Qed.

Definition raw_reply (d : db) : reply :=
  match d !! k1 with
  | None => RNil
  | Some (RVal (RStr v) _) => RBulk v
  | Some (RVal (RZset _) _) => RErr wrongtype
  end.

Lemma run_incr_floor text table delta ttl now floor d :
  d_run P t (INCR_FLOOR_LUA text table k1 k2 k3 delta ttl now floor) d =
    match raw_reply d with
    | RErr e => (d, Err e)
    | raw =>
        match floor_amount text raw delta floor with
        | Err e => (d, Err e)
        | Ok amount => d_run P t (incr_steps table k1 k2 k3 amount ttl now) d
        end
    end.
Proof.
  unfold INCR_FLOOR_LUA, raw_reply. rewrite d_run_call. simpl documented.
  destruct (d !! k1) as [[[v|z] e]|]; [|done|]; by destruct (floor_amount _ _ _ _).
Qed.
End effects.

(** ** The upkeep scripts, key by key *)

Section upkeep.
Context (P : policy) (t : Z) (ki ke : string) (Hne : ki ≠ ke).

Definition drop_entries (k : string) (d : db) : db := zrem_db ke k (zrem_db ki k d).

Definition prune_one (d : db) (k : string) : db :=
  match d !! k with None => drop_entries k d | Some _ => d end.

Definition sweep_one (now : Z) (d : db) (k : string) : db :=
  match d !! k with
  | None => drop_entries k d
  | Some v =>
      match r_expiry v with
      | None => zrem_db ke k d
      | Some dl => zadd_db ke (ladd (tonumber now) (dround (Z.max 0 (dl - t)))) k d
      end
  end.

Definition backfill_one (now : Z) (d : db) (k : string) : db :=
  match d !! k with
  | None => d
  | Some v =>
      let d := zadd_db ki 0 k d in
      match r_expiry v with
      | Some dl =>
          if 0 <? dl - t then zadd_db ke (ladd (tonumber now) (dround (Z.max 0 (dl - t)))) k d
          else d
      | None => d
      end
  end.

(** How many of [args] are gone, and how many are there. *)
Definition count_gone (d : db) (args : list string) : Z :=
  Z.of_nat (length (filter (λ k, d !! k = None) args)).
Definition count_live (d : db) (args : list string) : Z :=
  Z.of_nat (length (filter (λ k, is_Some (d !! k)) args)).

Definition upkeep_ok (d : db) : Prop := zset_ok d ki ∧ zset_ok d ke.

(** The keys outside the two indexes are as they were. *)
Definition framed (d d' : db) : Prop := ∀ k, k ≠ ki → k ≠ ke → d' !! k = d !! k.

Definition data_args (args : list string) : Prop := Forall (λ k, k ≠ ki ∧ k ≠ ke) args.

#[export] Instance framed_refl : Reflexive framed.
Proof. by intros d k. Qed.

#[export] Instance framed_trans : Transitive framed.
Proof. intros d1 d2 d3 H1 H2 k ??. by rewrite H2, H1. Qed.

Lemma framed_zadd_i s m d : framed d (zadd_db ki s m d).
Proof. intros k ??. by apply lookup_zadd_ne. Qed.
Lemma framed_zadd_e s m d : framed d (zadd_db ke s m d).
Proof. intros k ??. by apply lookup_zadd_ne. Qed.
Lemma framed_zrem_i m d : framed d (zrem_db ki m d).
Proof. intros k ??. by apply lookup_zrem_ne. Qed.
Lemma framed_zrem_e m d : framed d (zrem_db ke m d).
Proof. intros k ??. by apply lookup_zrem_ne. Qed.
Lemma framed_drop k d : framed d (drop_entries k d).
Proof. etrans; [apply framed_zrem_i|apply framed_zrem_e]. Qed.

Lemma upkeep_ok_zadd_i s m d : upkeep_ok d → upkeep_ok (zadd_db ki s m d).
Proof. intros [Hi He]. split; [apply zset_ok_zadd|by apply zset_ok_zadd_ne]. Qed.
Lemma upkeep_ok_zadd_e s m d : upkeep_ok d → upkeep_ok (zadd_db ke s m d).
Proof. intros [Hi He]. split; [apply zset_ok_zadd_ne; congruence|apply zset_ok_zadd]. Qed.
Lemma upkeep_ok_zrem_i m d : upkeep_ok d → upkeep_ok (zrem_db ki m d).
Proof. intros [Hi He]. split; [by apply zset_ok_zrem|by apply zset_ok_zrem_ne]. Qed.
Lemma upkeep_ok_zrem_e m d : upkeep_ok d → upkeep_ok (zrem_db ke m d).
Proof. intros [Hi He]. split; [apply zset_ok_zrem_ne; congruence|by apply zset_ok_zrem]. Qed.
Lemma upkeep_ok_drop k d : upkeep_ok d → upkeep_ok (drop_entries k d).
Proof. intros. by apply upkeep_ok_zrem_e, upkeep_ok_zrem_i. Qed.

Lemma framed_prune d k : framed d (prune_one d k).
Proof. unfold prune_one. case_match; [done|apply framed_drop]. Qed.
Lemma framed_sweep now d k : framed d (sweep_one now d k).
Proof.
  unfold sweep_one. repeat case_match; auto using framed_drop, framed_zrem_e, framed_zadd_e.
Qed.
Lemma framed_backfill now d k : framed d (backfill_one now d k).
Proof.
  unfold backfill_one. repeat case_match; try done; try apply framed_zadd_i.
  etrans; [apply framed_zadd_i|apply framed_zadd_e].
Qed.

Lemma upkeep_ok_prune d k : upkeep_ok d → upkeep_ok (prune_one d k).
Proof. intros. unfold prune_one. case_match; auto using upkeep_ok_drop. Qed.
Lemma upkeep_ok_sweep now d k : upkeep_ok d → upkeep_ok (sweep_one now d k).
Proof.
  intros. unfold sweep_one.
  repeat case_match; auto using upkeep_ok_drop, upkeep_ok_zrem_e, upkeep_ok_zadd_e.
Qed.
Lemma upkeep_ok_backfill now d k : upkeep_ok d → upkeep_ok (backfill_one now d k).
Proof.
  intros. unfold backfill_one.
  repeat case_match; auto using upkeep_ok_zadd_i, upkeep_ok_zadd_e.
Qed.

(** The counts depend on the data keys alone. *)
Lemma count_gone_framed d d' args :
  data_args args → framed d d' → count_gone d' args = count_gone d args.
Proof.
  intros Hargs Hf. unfold count_gone. f_equal. induction Hargs as [|k args [Hi He] _ IH]; [done|].
  rewrite !filter_cons, Hf by done. case_decide; simpl; lia.
Qed.
Lemma count_live_framed d d' args :
  data_args args → framed d d' → count_live d' args = count_live d args.
Proof.
  intros Hargs Hf. unfold count_live. f_equal. induction Hargs as [|k args [Hi He] _ IH]; [done|].
  rewrite !filter_cons, Hf by done. case_decide; simpl; lia.
Qed.

Lemma run_drop {A} k d (f : script A) :
  upkeep_ok d →
  d_run P t (let* _ := call (ZREM ki k) in let* _ := call (ZREM ke k) in f) d =
    d_run P t f (drop_entries k d).
Proof.
  intros [Hi He]. rewrite d_run_call_zrem by done.
  by rewrite d_run_call_zrem by (by apply zset_ok_zrem_ne).
Qed.

Lemma run_exists {A} k (absent there : script A) d :
  d_run P t (let* r := call (EXISTS k) in if lua_int r =? 0 then absent else there) d =
    match d !! k with None => d_run P t absent d | Some _ => d_run P t there d end.
Proof. rewrite d_run_call. simpl. by destruct (d !! k). Qed.

(** The three answers of [PTTL]: gone, no expiry, milliseconds left. *)
Lemma run_pttl {A} k (f : Z → script A) d :
  d_run P t (let* r := call (PTTL k) in f (lua_int r)) d =
    match d !! k with
    | None => d_run P t (f (-2)) d
    | Some v =>
        match r_expiry v with
        | None => d_run P t (f (-1)) d
        | Some dl => d_run P t (f (dround (Z.max 0 (dl - t)))) d
        end
    end.
Proof. rewrite d_run_call. simpl. by destruct (d !! k) as [[o [dl|]]|]. Qed.

Lemma left_not_sentinel z : 0 ≤ z → (dround z =? -2) = false ∧ (dround z =? -1) = false.
Proof. intros Hz. pose proof (dround_nonneg z Hz). rewrite !Z.eqb_neq. lia. Qed.

Lemma run_prune args n d :
  data_args args → upkeep_ok d →
  d_run P t (PRUNE_LUA ki ke args n) d = (foldl prune_one d args, Ok (n + count_gone d args)).
Proof.
  revert n d. induction args as [|k args IH]; intros n d Hargs Hd.
  { unfold count_gone. simpl. by rewrite Z.add_0_r. }
  pose proof (framed_prune d k) as Hf. pose proof (upkeep_ok_prune d k Hd) as Hok.
  apply Forall_cons in Hargs as [_ Hargs].
  pose proof (count_gone_framed _ _ _ Hargs Hf) as Hc.
  cbn [PRUNE_LUA foldl]. rewrite run_exists.
  unfold count_gone in *. rewrite filter_cons. unfold prune_one in *.
  destruct (d !! k) as [v|].
  - by rewrite IH.
  - rewrite run_drop, IH by done. rewrite decide_True by done. cbn [length]. do 2 f_equal. lia.
Qed.

Lemma run_sweep now args n d :
  data_args args → upkeep_ok d →
  d_run P t (SWEEP_LUA ki ke now args n) d =
    (foldl (sweep_one now) d args, Ok (n + count_gone d args)).
Proof.
  revert n d. induction args as [|k args IH]; intros n d Hargs Hd.
  { unfold count_gone. simpl. by rewrite Z.add_0_r. }
  pose proof (framed_sweep now d k) as Hf. pose proof (upkeep_ok_sweep now d k Hd) as Hok.
  apply Forall_cons in Hargs as [_ Hargs].
  pose proof (count_gone_framed _ _ _ Hargs Hf) as Hc.
  etrans; [apply (run_pttl k (λ pttl,
    if pttl =? -2 then
      let* _ := call (ZREM ki k) in let* _ := call (ZREM ke k) in
      SWEEP_LUA ki ke now args (n + 1)
    else if pttl =? -1 then let* _ := call (ZREM ke k) in SWEEP_LUA ki ke now args n
    else let* _ := call (ZADD ke (ladd (tonumber now) pttl) k) in
         SWEEP_LUA ki ke now args n))|].
  cbn [foldl].
  unfold count_gone in *. rewrite filter_cons. unfold sweep_one in *.
  destruct (d !! k) as [[o [dl|]]|]; cbn [r_expiry] in *; destruct (Hd) as [Hi He].
  - destruct (left_not_sentinel (Z.max 0 (dl - t)) ltac:(lia)) as [-> ->].
    rewrite d_run_call_zadd, IH by done. by rewrite (decide_False (P := _ = None)), Hc by done.
  - change (-1 =? -2) with false. change (-1 =? -1) with true. cbv iota.
    rewrite d_run_call_zrem, IH by done. by rewrite (decide_False (P := _ = None)), Hc by done.
  - change (-2 =? -2) with true. cbv iota.
    rewrite run_drop, IH by done. rewrite decide_True by done. cbn [length]. do 2 f_equal. lia.
Qed.

Lemma run_backfill now args n d :
  data_args args → upkeep_ok d →
  d_run P t (BACKFILL_LUA ki ke now args n) d =
    (foldl (backfill_one now) d args, Ok (n + count_live d args)).
Proof.
  revert n d. induction args as [|k args IH]; intros n d Hargs Hd.
  { unfold count_live. simpl. by rewrite Z.add_0_r. }
  pose proof (framed_backfill now d k) as Hf. pose proof (upkeep_ok_backfill now d k Hd) as Hok.
  apply Forall_cons in Hargs as [_ Hargs].
  pose proof (count_live_framed _ _ _ Hargs Hf) as Hc.
  etrans; [apply (run_pttl k (λ pttl,
    if negb (pttl =? -2) then
      let* _ := call (ZADD ki 0 k) in
      let* _ := (if 0 <? pttl then call (ZADD ke (ladd (tonumber now) pttl) k) else SRet RNil) in
      BACKFILL_LUA ki ke now args (n + 1)
    else BACKFILL_LUA ki ke now args n))|].
  cbn [foldl].
  unfold count_live in *. rewrite filter_cons. unfold backfill_one in *.
  destruct (d !! k) as [[o [dl|]]|]; cbn [r_expiry] in *; destruct (Hd) as [Hi He].
  - destruct (left_not_sentinel (Z.max 0 (dl - t)) ltac:(lia)) as [-> _].
    rewrite decide_True by done. cbn [length negb].
    rewrite d_run_call_zadd by done.
    assert ((0 <? dround (Z.max 0 (dl - t))) = (0 <? dl - t)) as ->.
    { change dround with tonumber. rewrite tonumber_pos by lia.
      destruct (Z.ltb_spec 0 (dl - t)), (Z.ltb_spec 0 (Z.max 0 (dl - t))); lia. }
    destruct (0 <? dl - t).
    + rewrite d_run_call_zadd by (by apply zset_ok_zadd_ne).
      rewrite IH by done. do 2 f_equal. lia.
    + rewrite d_run_bind. simpl (d_run P t (SRet RNil) _). cbv iota beta.
      rewrite IH by done. do 2 f_equal. lia.
  - change (-1 =? -2) with false. cbn [negb].
    rewrite decide_True by done. cbn [length]. rewrite d_run_call_zadd by done.
    change (0 <? -1) with false. cbv iota.
    rewrite d_run_bind. simpl (d_run P t (SRet RNil) _). cbv iota beta.
    rewrite IH by done. do 2 f_equal. lia.
  - change (-2 =? -2) with true. cbn [negb]. rewrite IH by done.
    by case_decide as Hn; [destruct Hn|].
Qed.
End upkeep.
