(* ===== verification/KvIndex.v ===== *)
(** * The key index and the expiry index stay in step with the data

    The database-level invariants of the store, and their preservation by
    every script, by the passing of time, and so by any interleaving of the
    replicas' operations. *)

From S2P Require Import Prelude Redis DbFacts Keys KvScripts.

Section invariants.
Context (kv : redis_kv).

Definition index_of (d : db) : gmap string Z := zset_of d (index_key kv).
Definition expiry_of (d : db) : gmap string Z := zset_of d (expiry_key kv).

(** What kind of value each of the store's keys holds. *)
Record layout (d : db) : Prop := {
  layout_index : zset_ok d (index_key kv);
  layout_expiry : zset_ok d (expiry_key kv);
  layout_data key v : d !! full_key kv key = Some v → ∃ s, r_obj v = RStr s;
  layout_index_member m x : index_of d !! m = Some x → x = 0 ∧ ∃ key, m = full_key kv key;
  layout_expiry_member m x : expiry_of d !! m = Some x → ∃ key, m = full_key kv key;
}.

(** A key is in the key index when it is there, and every key is. *)
Definition holds (key : string) (d : db) : Prop :=
  is_Some (d !! full_key kv key) → is_Some (index_of d !! full_key kv key).

Definition index_holds_all (d : db) : Prop := ∀ key, holds key d.

(** Every indexed key either is there for good or is in the expiry index,
    where a sweep will find it. *)
Definition expiry_covers (d : db) : Prop :=
  ∀ m, is_Some (index_of d !! m) →
    (∃ o, d !! m = Some (RVal o None)) ∨ is_Some (expiry_of d !! m).

Definition indexed (d : db) : Prop := layout d ∧ index_holds_all d.

(** ** Operations on one key *)

(** [d'] differs from [d] at most at [k] and at [k]'s index entries. *)
Record touches (k : string) (d d' : db) : Prop := {
  touch_index : zset_ok d' (index_key kv);
  touch_expiry : zset_ok d' (expiry_key kv);
  touch_other k' : k' ≠ k → k' ≠ index_key kv → k' ≠ expiry_key kv → d' !! k' = d !! k';
  touch_index_of m : m ≠ k → index_of d' !! m = index_of d !! m;
  touch_expiry_of m : m ≠ k → expiry_of d' !! m = expiry_of d !! m;
}.

Context (prefix : string) (Hkv : kv = with_connection_manager prefix)
  (Hprefix : is_empty prefix = false).

Let ne_index key : full_key kv key ≠ index_key kv := full_key_ne_index kv prefix Hkv Hprefix key.
Let ne_expiry key : full_key kv key ≠ expiry_key kv := full_key_ne_expiry kv prefix Hkv Hprefix key.
Let ne_indexes : index_key kv ≠ expiry_key kv := index_ne_expiry kv prefix Hkv.
Let key_inj key key' : full_key kv key = full_key kv key' → key = key' :=
  full_key_inj kv prefix Hkv Hprefix key key'.

Lemma layout_touch key d d' :
  touches (full_key kv key) d d' →
  (∀ v, d' !! full_key kv key = Some v → ∃ s, r_obj v = RStr s) →
  (∀ x, index_of d' !! full_key kv key = Some x → x = 0) →
  layout d → layout d'.
Proof.
  intros [Hi He Ho Hio Heo] Hstr Hzero [_ _ Hd Him Hem]. split; [done|done| | |].
  - intros key' v Hv. destruct (decide (key' = key)) as [->|Hne]; [by eapply Hstr|].
    rewrite Ho in Hv by auto. by eapply Hd.
  - intros m x Hm. destruct (decide (m = full_key kv key)) as [->|Hne]; [eauto|].
    rewrite Hio in Hm by done. by eapply Him.
  - intros m x Hm. destruct (decide (m = full_key kv key)) as [->|Hne]; [eauto|].
    rewrite Heo in Hm by done. by eapply Hem.
Qed.

Lemma holds_touch key d d' :
  touches (full_key kv key) d d' → (holds key d → holds key d') →
  ∀ key', holds key' d → holds key' d'.
Proof.
  intros [Hi He Ho Hio Heo] Hk key' Hd.
  destruct (decide (key' = key)) as [->|Hne]; [by apply Hk|]. intros Hs.
  rewrite Ho in Hs by auto. rewrite Hio by auto. by apply Hd.
Qed.

Lemma covers_touch key d d' :
  touches (full_key kv key) d d' →
  (is_Some (index_of d' !! full_key kv key) →
   (∃ o, d' !! full_key kv key = Some (RVal o None)) ∨
   is_Some (expiry_of d' !! full_key kv key)) →
  layout d' → expiry_covers d → expiry_covers d'.
Proof.
  intros [Hi He Ho Hio Heo] Hk Hl Hd m Hm.
  destruct (decide (m = full_key kv key)) as [->|Hne]; [by apply Hk|].
  pose proof Hm as [x Hx]. apply (layout_index_member _ Hl) in Hx as [_ [key' ->]].
  rewrite Hio in Hm by done. rewrite Heo, Ho by auto. by apply Hd.
Qed.

(** Time passing. *)
Lemma zset_ok_filter (f : string * rval → Prop) `{!∀ x, Decision (f x)} d k :
  (∀ o, f (k, RVal o None)) → zset_ok d k → zset_ok (filter f d) k ∧ zset_of (filter f d) k = zset_of d k.
Proof.
  intros Hf. unfold zset_ok, zset_of. rewrite map_lookup_filter.
  destruct (d !! k) as [[[v|z] [e|]]|]; simpl; try done.
  intros _. by rewrite option_guard_True.
Qed.

(** ** How the primitive effects touch a key *)

Lemma touches_refl k d : zset_ok d (index_key kv) → zset_ok d (expiry_key kv) → touches k d d.
Proof. intros. by split. Qed.

Lemma touches_trans k d1 d2 d3 : touches k d1 d2 → touches k d2 d3 → touches k d1 d3.
Proof.
  intros [?? H0 H1 H2] [?? H0' H1' H2']. split; [done|done| | |].
  - intros. by rewrite H0', H0.
  - intros. by rewrite H1', H1.
  - intros. by rewrite H2', H2.
Qed.

Section touch_effects.
Context (key : string) (d : db).
Context (Hi : zset_ok d (index_key kv)) (He : zset_ok d (expiry_key kv)).
Local Abbreviation k := (full_key kv key).

Lemma touches_insert v : touches k d (<[k := v]> d).
Proof.
  split; unfold index_of, expiry_of.
  - by apply zset_ok_insert_ne.
  - by apply zset_ok_insert_ne.
  - intros. by apply lookup_insert_ne.
  - intros. by rewrite zset_of_insert_ne.
  - intros. by rewrite zset_of_insert_ne.
Qed.

Lemma touches_delete : touches k d (delete k d).
Proof.
  split; unfold index_of, expiry_of.
  - by apply zset_ok_delete_ne.
  - by apply zset_ok_delete_ne.
  - intros. by apply lookup_delete_ne.
  - intros. by rewrite zset_of_delete_ne.
  - intros. by rewrite zset_of_delete_ne.
Qed.

Lemma touches_zadd_index s : touches k d (zadd_db (index_key kv) s k d).
Proof.
  split; unfold index_of, expiry_of.
  - apply zset_ok_zadd.
  - by apply zset_ok_zadd_ne.
  - intros. by apply lookup_zadd_ne.
  - intros. by rewrite zset_of_zadd, lookup_insert_ne.
  - intros. by rewrite zset_of_zadd_ne.
Qed.

Lemma touches_zadd_expiry s : touches k d (zadd_db (expiry_key kv) s k d).
Proof.
  split; unfold index_of, expiry_of.
  - by apply zset_ok_zadd_ne.
  - apply zset_ok_zadd.
  - intros. by apply lookup_zadd_ne.
  - intros. by rewrite zset_of_zadd_ne.
  - intros. by rewrite zset_of_zadd, lookup_insert_ne.
Qed.

Lemma touches_zrem_index : touches k d (zrem_db (index_key kv) k d).
Proof.
  split; unfold index_of, expiry_of.
  - by apply zset_ok_zrem.
  - by apply zset_ok_zrem_ne.
  - intros. by apply lookup_zrem_ne.
  - intros. by rewrite zset_of_zrem, lookup_delete_ne.
  - intros. by rewrite zset_of_zrem_ne.
Qed.

Lemma touches_zrem_expiry : touches k d (zrem_db (expiry_key kv) k d).
Proof.
  split; unfold index_of, expiry_of.
  - by apply zset_ok_zrem_ne.
  - by apply zset_ok_zrem.
  - intros. by apply lookup_zrem_ne.
  - intros. by rewrite zset_of_zrem_ne.
  - intros. by rewrite zset_of_zrem, lookup_delete_ne.
Qed.
End touch_effects.

(** The sorted sets stay sorted sets through the effects. *)
Ltac zsets :=
  solve [repeat first
    [ assumption | apply zset_ok_zadd | apply zset_ok_zrem
    | apply zset_ok_zadd_ne; [solve [auto]|] | apply zset_ok_zrem_ne; [solve [auto]|] ]].

(** The index steps of a write: what they leave at its key. *)
Section index_steps.
Context (key : string) (ttl now : Z) (d : db).
Context (Hi : zset_ok d (index_key kv)) (He : zset_ok d (expiry_key kv)).
Local Abbreviation k := (full_key kv key).
Local Abbreviation set_index := (set_index k (index_key kv) (expiry_key kv)).
Local Abbreviation incr_index := (incr_index k (index_key kv) (expiry_key kv)).

Lemma touches_set_index : touches k d (set_index ttl now d).
Proof.
  unfold KvScripts.set_index. destruct (script_px ttl) as [ms|].
  - eapply touches_trans; [by apply touches_zadd_expiry|].
    apply touches_zadd_index; zsets.
  - eapply touches_trans; [by apply touches_zrem_expiry|].
    apply touches_zadd_index; zsets.
Qed.

Lemma touches_incr_index : touches k d (incr_index ttl now d).
Proof.
  unfold KvScripts.incr_index. destruct (script_px ttl) as [ms|].
  - eapply touches_trans; [by apply touches_zadd_expiry|].
    apply touches_zadd_index; zsets.
  - by apply touches_zadd_index.
Qed.

Lemma set_index_data : set_index ttl now d !! k = d !! k.
Proof.
  unfold KvScripts.set_index. rewrite lookup_zadd_ne by done.
  destruct (script_px ttl); [by apply lookup_zadd_ne|by apply lookup_zrem_ne].
Qed.

Lemma set_index_index : index_of (set_index ttl now d) !! k = Some 0.
Proof.
  unfold index_of, KvScripts.set_index. by rewrite zset_of_zadd, lookup_insert_eq.
Qed.

Lemma set_index_expiry :
  expiry_of (set_index ttl now d) !! k =
    (λ ms, dround (ladd (tonumber now) ms)) <$> script_px ttl.
Proof.
  unfold expiry_of, KvScripts.set_index. rewrite zset_of_zadd_ne by done.
  destruct (script_px ttl).
  - by rewrite zset_of_zadd, lookup_insert_eq.
  - by rewrite zset_of_zrem, lookup_delete_eq.
Qed.

Lemma incr_index_data : incr_index ttl now d !! k = d !! k.
Proof.
  unfold KvScripts.incr_index. rewrite lookup_zadd_ne by done.
  destruct (script_px ttl); [by apply lookup_zadd_ne|done].
Qed.

Lemma incr_index_index : index_of (incr_index ttl now d) !! k = Some 0.
Proof.
  unfold index_of, KvScripts.incr_index. by rewrite zset_of_zadd, lookup_insert_eq.
Qed.

Lemma incr_index_expiry :
  expiry_of (incr_index ttl now d) !! k =
    match script_px ttl with
    | Some ms => Some (dround (ladd (tonumber now) ms))
    | None => expiry_of d !! k
    end.
Proof.
  unfold expiry_of, KvScripts.incr_index. rewrite zset_of_zadd_ne by done.
  destruct (script_px ttl); [|done].
  by rewrite zset_of_zadd, lookup_insert_eq.
Qed.
End index_steps.

(** ** Each script preserves the invariants *)

(** What an operation on one key must leave there. *)
Record leaves_ok (key : string) (d d' : db) : Prop := {
  leaves_str v : d' !! full_key kv key = Some v → ∃ s, r_obj v = RStr s;
  leaves_zero x : index_of d' !! full_key kv key = Some x → x = 0;
  leaves_indexed : holds key d → holds key d';
}.

Definition leaves_covered (key : string) (d' : db) : Prop :=
  is_Some (index_of d' !! full_key kv key) →
  (∃ o, d' !! full_key kv key = Some (RVal o None)) ∨ is_Some (expiry_of d' !! full_key kv key).

Lemma kept_touch key d d' :
  touches (full_key kv key) d d' → leaves_ok key d d' → layout d →
  layout d' ∧ ∀ key', holds key' d → holds key' d'.
Proof. intros Ht [H1 H2 H3] Hl. split; [by eapply layout_touch|by eapply holds_touch]. Qed.

Lemma covers_touch' key d d' :
  touches (full_key kv key) d d' → leaves_ok key d d' → leaves_covered key d' →
  layout d → expiry_covers d → expiry_covers d'.
Proof.
  intros Ht Hk Hc Hd. eapply covers_touch; [done..|].
  by apply (kept_touch key d d').
Qed.

Section single_key.
Context (P : policy) (t : Z) (key : string) (d : db).
Context (Hd : layout d).
Local Abbreviation k := (full_key kv key).
Local Abbreviation set_index := (set_index k (index_key kv) (expiry_key kv)).
Local Abbreviation incr_index := (incr_index k (index_key kv) (expiry_key kv)).

Let Hi : zset_ok d (index_key kv) := layout_index d Hd.
Let He : zset_ok d (expiry_key kv) := layout_expiry d Hd.

Lemma Hi_insert v : zset_ok (<[k := v]> d) (index_key kv).
Proof. by apply zset_ok_insert_ne. Qed.
Lemma He_insert v : zset_ok (<[k := v]> d) (expiry_key kv).
Proof. by apply zset_ok_insert_ne. Qed.

(** A write that stores a string with the expiry of its TTL argument. *)
Lemma set_value_touches ttl now v :
  touches k d (set_index ttl now (<[k := v]> d)).
Proof.
  eapply touches_trans; [by apply touches_insert|].
  apply touches_set_index; [apply Hi_insert|apply He_insert].
Qed.

Lemma set_value_ok ttl now s e :
  leaves_ok key d (set_index ttl now (<[k := RVal (RStr s) e]> d)).
Proof.
  split.
  - rewrite set_index_data, lookup_insert_eq. intros v [= <-]. eauto.
  - rewrite set_index_index. by intros x [= <-].
  - intros _ _. rewrite set_index_index. eauto.
Qed.

Lemma set_value_covered ttl now o :
  leaves_covered key (set_index ttl now (<[k := RVal o (expiry_at t ttl)]> d)).
Proof.
  intros _. rewrite set_index_data, set_index_expiry, lookup_insert_eq.
  unfold expiry_at. destruct (script_px ttl); simpl; eauto.
Qed.

(** A counter. *)
Lemma incr_value_touches ttl now v : touches k d (incr_index ttl now (<[k := v]> d)).
Proof.
  eapply touches_trans; [by apply touches_insert|].
  apply touches_incr_index; [apply Hi_insert|apply He_insert].
Qed.

Lemma incr_value_ok ttl now s e :
  leaves_ok key d (incr_index ttl now (<[k := RVal (RStr s) e]> d)).
Proof.
  split.
  - rewrite incr_index_data, lookup_insert_eq. intros v [= <-]. eauto.
  - rewrite incr_index_index. by intros x [= <-].
  - intros _ _. rewrite incr_index_index. eauto.
Qed.

Lemma incr_value_covered ttl now o e :
  holds key d → expiry_covers d →
  (script_px ttl = None → e = None ∨ ∃ o', d !! k = Some (RVal o' e)) →
  leaves_covered key (incr_index ttl now (<[k := RVal o e]> d)).
Proof.
  intros Hh Hc Hkeep _. rewrite incr_index_data, incr_index_expiry, lookup_insert_eq.
  destruct (script_px ttl) as [ms|]; [eauto|].
  destruct (Hkeep eq_refl) as [->|[o' Hk]]; [eauto|].
  unfold expiry_of. rewrite zset_of_insert_ne by done.
  destruct (Hc k) as [[o'' Hk']|Hx]; [| |by right].
  - apply Hh. by rewrite Hk.
  - rewrite Hk in Hk'. simplify_eq. eauto.
Qed.

(** Removing the entries of a key that is not there. *)
Lemma drop_touches d1 :
  touches k d d1 → touches k d (drop_entries (index_key kv) (expiry_key kv) k d1).
Proof.
  intros H1. eapply touches_trans; [done|]. destruct H1.
  eapply touches_trans; [by apply touches_zrem_index|].
  apply touches_zrem_expiry; zsets.
Qed.

Lemma drop_index d1 :
  index_of (drop_entries (index_key kv) (expiry_key kv) k d1) !! k = None.
Proof.
  unfold index_of, drop_entries. rewrite zset_of_zrem_ne by done.
  by rewrite zset_of_zrem, lookup_delete_eq.
Qed.

Lemma drop_data d1 :
  drop_entries (index_key kv) (expiry_key kv) k d1 !! k = d1 !! k.
Proof. unfold drop_entries. by rewrite !lookup_zrem_ne by done. Qed.

Lemma drop_ok d1 :
  d1 !! k = None → leaves_ok key d (drop_entries (index_key kv) (expiry_key kv) k d1).
Proof.
  intros Hk. split; unfold holds; rewrite ?drop_data, ?drop_index, ?Hk; [done|done|].
  by intros _ [].
Qed.

Lemma drop_covered d1 :
  leaves_covered key (drop_entries (index_key kv) (expiry_key kv) k d1).
Proof. unfold leaves_covered. rewrite drop_index. by intros []. Qed.
End single_key.

(** [d'] is as good as [d]: each key that was indexed still is. *)
Definition kept (d d' : db) : Prop := layout d' ∧ ∀ key, holds key d → holds key d'.

Definition safe (d d' : db) : Prop :=
  (layout d → kept d d') ∧ (indexed d → expiry_covers d → expiry_covers d').

Lemma safe_indexed d d' : safe d d' → indexed d → indexed d'.
Proof.
  intros [Hk _] [Hl Hh]. destruct (Hk Hl) as [Hl' Hk']. split; [done|]. intros key. apply Hk', Hh.
Qed.

#[local] Instance safe_refl : Reflexive safe.
Proof. intros d. split; [|done]. intros Hl. by split. Qed.
#[local] Instance safe_trans : Transitive safe.
Proof.
  intros d1 d2 d3 Hs [H1' H2']. split.
  - intros Hl. destruct Hs as [H1 _], (H1 Hl) as [Hl2 Hk], (H1' Hl2) as [Hl3 Hk']. split; auto.
  - intros Hd Hc. apply H2'; [by eapply safe_indexed|]. by apply Hs.
Qed.

Lemma safe_touch key d d' :
  (layout d → touches (full_key kv key) d d' ∧ leaves_ok key d d') →
  (indexed d → expiry_covers d → leaves_covered key d') →
  safe d d'.
Proof.
  intros H1 H2. split.
  - intros Hd. destruct (H1 Hd). by eapply kept_touch.
  - intros Hd Hc. destruct (H1 (proj1 Hd)). eapply covers_touch'; eauto. apply Hd.
Qed.

Section scripts.
Context (P : policy) (t : Z) (key : string).
Local Abbreviation k := (full_key kv key).
Local Abbreviation ki := (index_key kv).
Local Abbreviation ke := (expiry_key kv).

Lemma layout_ok d : layout d → indexes_ok ki ke d.
Proof. intros []. by split. Qed.

Lemma safe_set d v ttl now nx :
  layout d → safe d (d_run P t (SET_LUA k ki ke v ttl now nx) d).1.
Proof.
  intros Hd. rewrite run_set by auto using layout_ok.
  destruct (px_refused P t ttl); [done|]. destruct (nx && _); [done|]. simpl.
  apply (safe_touch key); intros; [|apply set_value_covered].
  split; [by apply set_value_touches|apply set_value_ok].
Qed.

Lemma safe_del d : layout d → safe d (d_run P t (DEL_LUA k ki ke) d).1.
Proof.
  intros Hd. rewrite run_del by auto using layout_ok. simpl.
  change (zrem_db ke k (zrem_db ki k (delete k d))) with (drop_entries ki ke k (delete k d)).
  apply (safe_touch key); intros; [|apply drop_covered].
  split.
  - apply drop_touches. destruct Hd. by apply touches_delete.
  - apply drop_ok. apply lookup_delete_eq.
Qed.

Lemma safe_expire d ttl now :
  layout d → safe d (d_run P t (EXPIRE_LUA k ki ke ttl now) d).1.
Proof.
  intros Hd. rewrite run_expire by auto using layout_ok.
  destruct (d !! k) as [v|] eqn:Hk; [|done].
  destruct (px_refused P t ttl); [done|]. simpl.
  destruct (layout_data d Hd key v Hk) as [s ->].
  apply (safe_touch key); intros; [|apply set_value_covered].
  split; [by apply set_value_touches|apply set_value_ok].
Qed.

(** A counter write is safe unless its TTL is one that Redis refuses. *)
Lemma safe_incr d table amount ttl now :
  px_refused P t ttl = false →
  layout d → safe d (d_run P t (incr_steps table k ki ke amount ttl now) d).1.
Proof.
  intros Hpx Hd. rewrite run_incr_steps by auto using layout_ok.
  destruct (d_incrby_cases P k amount d) as [[e ->]|(z & e & -> & _ & Hk)]; [done|].
  cbv iota beta. rewrite Hpx. simpl.
  apply (safe_touch key); [intros _|intros [_ Hh] Hc].
  - destruct (script_px ttl); rewrite ?insert_insert_eq;
      (split; [by apply incr_value_touches|apply incr_value_ok]).
  - destruct (script_px ttl) eqn:Hs; rewrite ?insert_insert_eq;
      (apply incr_value_covered; [apply Hh|done|]); rewrite Hs; [done|].
    intros _. destruct (d !! k) as [v|]; [|by left; destruct Hk].
    destruct Hk as (s & -> & _). eauto.
Qed.

Lemma safe_incr_floor d text table delta ttl now floor :
  px_refused P t ttl = false →
  layout d → safe d (d_run P t (INCR_FLOOR_LUA text table k ki ke delta ttl now floor) d).1.
Proof.
  intros Hpx Hd. rewrite run_incr_floor.
  destruct (raw_reply k d); try destruct (floor_amount _ _ _ _); auto using safe_incr; done.
Qed.
End scripts.

Section upkeep_scripts.
Context (P : policy) (t : Z).
Local Abbreviation ki := (index_key kv).
Local Abbreviation ke := (expiry_key kv).

(** The arguments of an upkeep script: full keys of data. *)
Definition data_keys (args : list string) : Prop := Forall (λ m, ∃ key, m = full_key kv key) args.

Lemma data_keys_args args : data_keys args → data_args ki ke args.
Proof. intros H. eapply Forall_impl; [exact H|]. intros m [key ->]. auto. Qed.

Lemma safe_foldl (f : db → string → db) args d :
  (∀ key d, layout d → safe d (f d (full_key kv key))) →
  data_keys args → layout d → safe d (foldl f d args).
Proof.
  intros Hf Hargs. revert d.
  induction Hargs as [|m args [key ->] _ IH]; intros d Hd; simpl; [done|].
  etrans; [by apply Hf|]. apply IH. by apply (Hf key d Hd).
Qed.

Lemma safe_prune_one key d : layout d → safe d (prune_one ki ke d (full_key kv key)).
Proof.
  intros Hd. unfold prune_one. destruct (d !! full_key kv key) eqn:Hk; [done|].
  apply (safe_touch key); intros; [|apply drop_covered].
  split; [|by apply drop_ok]. apply drop_touches. destruct Hd. by apply touches_refl.
Qed.

Lemma safe_sweep_one now key d :
  layout d → safe d (sweep_one t ki ke now d (full_key kv key)).
Proof.
  intros Hd. pose proof Hd as [Hi He Hs Hx _]. unfold sweep_one.
  destruct (d !! full_key kv key) as [[o e]|] eqn:Hk; simpl.
  - destruct (Hs key _ Hk) as [s Ho]. simpl in Ho. subst o.
    assert (Hl : ∀ d', d' !! full_key kv key = d !! full_key kv key → index_of d' = index_of d →
                       leaves_ok key d d').
    { intros d' Ed Ei. split; unfold holds; rewrite ?Ed, ?Ei, ?Hk; [|by intros ? [??]%Hx|done].
      intros v [= <-]. eauto. }
    destruct e as [dl|]; apply (safe_touch key).
    + intros _. split; [by apply touches_zadd_expiry|].
      apply Hl; [by rewrite lookup_zadd_ne by auto|]. unfold index_of. by rewrite zset_of_zadd_ne by auto.
    + intros _ _ _. right. unfold expiry_of. rewrite zset_of_zadd, lookup_insert_eq. eauto.
    + intros _. split; [by apply touches_zrem_expiry|].
      apply Hl; [by rewrite lookup_zrem_ne by auto|]. unfold index_of. by rewrite zset_of_zrem_ne by auto.
    + intros _ _ _. left. rewrite lookup_zrem_ne by auto. eauto.
  - apply (safe_touch key); intros; [|apply drop_covered].
    split; [|by apply drop_ok]. apply drop_touches. by apply touches_refl.
Qed.

(** No key of [args] is in its last millisecond. *)
Definition time_left (d : db) (m : string) : Prop :=
  ∀ o dl, d !! m = Some (RVal o (Some dl)) → t < dl.

Lemma kept_backfill_one now key d :
  layout d → kept d (backfill_one t ki ke now d (full_key kv key)).
Proof.
  intros Hd. pose proof Hd as [Hi He Hs Hx _]. unfold backfill_one.
  destruct (d !! full_key kv key) as [[o e]|] eqn:Hk; [|by split].
  destruct (Hs key _ Hk) as [s Ho]. simpl in Ho. subst o. cbn [r_expiry].
  assert (Hl : ∀ d', d' !! full_key kv key = d !! full_key kv key →
                     index_of d' !! full_key kv key = Some 0 → leaves_ok key d d').
  { intros d' Hd' Hi'. split; unfold holds; rewrite ?Hd', ?Hi', ?Hk; eauto; naive_solver. }
  assert (Hi' : index_of (zadd_db ki 0 (full_key kv key) d) !! full_key kv key = Some 0)
    by (unfold index_of; by rewrite zset_of_zadd, lookup_insert_eq).
  repeat case_match; apply (kept_touch key d); try done.
  - eapply touches_trans; [by apply touches_zadd_index|].
    apply touches_zadd_expiry; zsets.
  - apply Hl; [by rewrite !lookup_zadd_ne by auto|].
    unfold index_of in *. by rewrite zset_of_zadd_ne by auto.
  - by apply touches_zadd_index.
  - apply Hl; [by rewrite !lookup_zadd_ne by auto|done].
  - by apply touches_zadd_index.
  - apply Hl; [by rewrite !lookup_zadd_ne by auto|done].
Qed.

Lemma covers_backfill_one now key d :
  layout d → time_left d (full_key kv key) →
  expiry_covers d → expiry_covers (backfill_one t ki ke now d (full_key kv key)).
Proof.
  intros Hd Hleft Hc m.
  pose proof (kept_backfill_one now key d Hd) as [Hl' _]. revert Hl'.
  pose proof Hd as [Hi He Hs Hx _]. unfold backfill_one.
  destruct (d !! full_key kv key) as [[o [dl|]]|] eqn:Hk; cbn [r_expiry]; [| |by intros ?; apply Hc].
  - specialize (Hleft _ _ Hk). assert ((0 <? dl - t) = true) as -> by (apply Z.ltb_lt; lia).
    intros Hl' Hm. destruct (decide (m = full_key kv key)) as [->|Hne].
    { right. unfold expiry_of. rewrite zset_of_zadd, lookup_insert_eq. eauto. }
    pose proof Hm as [x Hx']. apply (layout_index_member _ Hl') in Hx' as [_ [key' ->]].
    unfold index_of, expiry_of in *.
    rewrite zset_of_zadd_ne, zset_of_zadd, lookup_insert_ne in Hm by auto.
    rewrite zset_of_zadd, lookup_insert_ne, zset_of_zadd_ne by auto.
    rewrite !lookup_zadd_ne by auto. by apply Hc.
  - intros Hl' Hm. destruct (decide (m = full_key kv key)) as [->|Hne].
    { left. rewrite lookup_zadd_ne by auto. eauto. }
    pose proof Hm as [x Hx']. apply (layout_index_member _ Hl') in Hx' as [_ [key' ->]].
    unfold index_of, expiry_of in *.
    rewrite zset_of_zadd, lookup_insert_ne in Hm by auto.
    rewrite zset_of_zadd_ne, lookup_zadd_ne by auto. by apply Hc.
Qed.

Lemma kept_backfill now args d :
  data_keys args → layout d → kept d (foldl (backfill_one t ki ke now) d args).
Proof.
  intros Hargs. revert d. induction Hargs as [|m args [key ->] _ IH]; intros d Hd; simpl; [by split|].
  destruct (kept_backfill_one now key d Hd) as [Hl Hk].
  destruct (IH _ Hl) as [Hl' Hk']. split; auto.
Qed.

Lemma covers_backfill now args d :
  data_keys args → Forall (time_left d) args → layout d → expiry_covers d →
  expiry_covers (foldl (backfill_one t ki ke now) d args).
Proof.
  intros Hargs. revert d. induction Hargs as [|m args [key ->] Hargs IH]; intros d; simpl; [done|].
  intros [Hm Hleft]%Forall_cons Hd Hc. apply IH.
  - pose proof (framed_backfill t ki ke now d (full_key kv key)) as Hf.
    apply data_keys_args in Hargs.
    apply Forall_forall. intros m' Hm'.
    pose proof (proj1 (Forall_forall _ _) Hleft m' Hm') as H.
    pose proof (proj1 (Forall_forall _ _) Hargs m' Hm') as [H1 H2].
    intros o dl. rewrite Hf by done. apply H.
  - by apply kept_backfill_one.
  - by apply covers_backfill_one.
Qed.

(** Backfilling a list of keys puts each live one of them in the index,
    and takes none out. *)
Lemma index_of_backfill_one now d m m' :
  is_Some (index_of d !! m') ∨ (m = m' ∧ is_Some (d !! m)) →
  is_Some (index_of (backfill_one t ki ke now d m) !! m').
Proof.
  unfold backfill_one. destruct (d !! m) as [v|] eqn:Hk; [|intros [H|[-> []]]; done].
  intros Hm.
  assert (is_Some (index_of (zadd_db ki 0 m d) !! m')).
  { unfold index_of. rewrite zset_of_zadd, lookup_insert. case_decide; [eauto|naive_solver]. }
  repeat case_match; try done. unfold index_of in *. by rewrite zset_of_zadd_ne by auto.
Qed.

Lemma index_of_backfill now args d m :
  data_keys args →
  is_Some (index_of d !! m) ∨ (m ∈ args ∧ is_Some (d !! m)) →
  is_Some (index_of (foldl (backfill_one t ki ke now) d args) !! m).
Proof.
  intros Hargs. revert d. induction Hargs as [|m' args [key ->] Hargs IH]; intros d; simpl.
  { intros [H|[H _]]; [done|]. by apply elem_of_nil in H. }
  intros H. apply IH. destruct H as [H|[Hm H]].
  - left. apply index_of_backfill_one. auto.
  - apply elem_of_cons in Hm as [->|Hm]; [left; apply index_of_backfill_one; auto|].
    pose proof (proj1 (Forall_forall _ _) (data_keys_args _ Hargs) m Hm) as [H1 H2].
    right. split; [done|]. by rewrite (framed_backfill t ki ke now d).
Qed.
End upkeep_scripts.
End invariants.

(** ** The fleet *)

Section fleet.
Context {Srv : Type} `{RedisLaws Srv} (prefix : string).
Local Abbreviation P := (srv_policy (Srv := Srv)).
Local Abbreviation kv := (with_connection_manager prefix).
Local Abbreviation ki := (index_key kv).
Local Abbreviation ke := (expiry_key kv).

(** The keys of the store: its two indexes and its data. *)
Definition store_key (m : string) : Prop := m = ki ∨ m = ke ∨ ∃ key, m = full_key kv key.

(** One step of the shared server, by any replica that writes the index:
    time passes, a script of the store runs with any arguments, or
    something happens outside the store.  A counter's TTL is one Redis
    accepts; with [settled], no backfilled key is in its last
    millisecond. *)
Inductive kv_step (settled : bool) : Z * Srv → Z * Srv → Prop :=
| step_time t t' s : t ≤ t' → kv_step settled (t, s) (t', s)
| step_set t s key v ttl now nx :
    kv_step settled (t, s) (t, (run t (SET_LUA (full_key kv key) ki ke v ttl now nx) s).1)
| step_del t s key : kv_step settled (t, s) (t, (run t (DEL_LUA (full_key kv key) ki ke) s).1)
| step_expire t s key ttl now :
    kv_step settled (t, s) (t, (run t (EXPIRE_LUA (full_key kv key) ki ke ttl now) s).1)
| step_incr t s table key delta ttl now :
    px_refused P t ttl = false →
    kv_step settled (t, s)
      (t, (run t (INCR_LUA table (full_key kv key) ki ke delta ttl now) s).1)
| step_incr_floor t s text table key delta ttl now floor :
    px_refused P t ttl = false →
    kv_step settled (t, s)
      (t, (run t (INCR_FLOOR_LUA text table (full_key kv key) ki ke delta ttl now floor) s).1)
| step_prune t s args :
    data_keys kv args → kv_step settled (t, s) (t, (run t (PRUNE_LUA ki ke args 0) s).1)
| step_sweep t s now args :
    data_keys kv args → kv_step settled (t, s) (t, (run t (SWEEP_LUA ki ke now args 0) s).1)
| step_backfill t s now args :
    data_keys kv args →
    (settled = true → Forall (time_left t (view t s)) args) →
    kv_step settled (t, s) (t, (run t (BACKFILL_LUA ki ke now args 0) s).1)
| step_other t s s' :
    (∀ m, store_key m → view t s' !! m = view t s !! m) → kv_step settled (t, s) (t, s').

Context (Hprefix : is_empty prefix = false).

(** Time passing keeps the invariants: the indexes do not expire. *)
Lemma later_zset t t' (s : Srv) m :
  t ≤ t' → zset_ok (view t s) m →
  zset_ok (view t' s) m ∧ zset_of (view t' s) m = zset_of (view t s) m.
Proof.
  intros Ht Hm. rewrite (view_later t t' s Ht). apply zset_ok_filter; [|done].
  done.
Qed.

Lemma later_kept t t' (s : Srv) :
  t ≤ t' → layout kv (view t s) →
  kept kv (view t s) (view t' s) ∧ index_of kv (view t' s) = index_of kv (view t s).
Proof.
  intros Ht [Hi He Hs Hx Hy].
  destruct (later_zset t t' s ki Ht Hi) as [Hi' Ei].
  destruct (later_zset t t' s ke Ht He) as [He' Ee].
  split; [|exact Ei].
  split; [split; unfold index_of, expiry_of in *; rewrite ?Ei, ?Ee; eauto|].
  - intros key v Hv. eapply Hs. by eapply view_later_Some.
  - intros key Hh [v Hv]. unfold index_of in *. rewrite Ei. apply Hh. exists v.
    by eapply view_later_Some.
Qed.

Lemma indexed_later t t' (s : Srv) :
  t ≤ t' → indexed kv (view t s) → indexed kv (view t' s).
Proof.
  intros Ht [Hl Hh]. destruct (later_kept t t' s Ht Hl) as [[Hl' Hk] _].
  split; [done|]. intros key. apply Hk, Hh.
Qed.

Lemma covers_later t t' (s : Srv) :
  t ≤ t' → layout kv (view t s) → expiry_covers kv (view t s) → expiry_covers kv (view t' s).
Proof.
  intros Ht [Hi He _ _ _] Hc m. unfold index_of, expiry_of in *.
  destruct (later_zset t t' s ki Ht Hi) as [_ ->].
  destruct (later_zset t t' s ke Ht He) as [_ Ee]. unfold expiry_of. rewrite Ee.
  intros [[o Ho]|Hm]%Hc; [left|by right].
  exists o. by eapply view_later_persistent.
Qed.

(** A change outside the store keeps them. *)
Lemma kept_same d d' :
  (∀ m, store_key m → d' !! m = d !! m) → layout kv d → kept kv d d'.
Proof.
  intros Hm [Hi He Hs Hx Hy].
  assert (Ei : d' !! ki = d !! ki) by (apply Hm; by left).
  assert (Ee : d' !! ke = d !! ke) by (apply Hm; right; by left).
  assert (Hd : ∀ key, d' !! full_key kv key = d !! full_key kv key)
    by (intros; apply Hm; right; right; eauto).
  split; [split|]; unfold holds, index_of, expiry_of in *.
  - by eapply zset_ok_same.
  - by eapply zset_ok_same.
  - intros key v. rewrite Hd. apply Hs.
  - intros m x. rewrite (zset_of_same _ _ _ Ei). apply Hx.
  - intros m x. rewrite (zset_of_same _ _ _ Ee). apply Hy.
  - intros key. by rewrite Hd, (zset_of_same _ _ _ Ei).
Qed.

Lemma covers_same d d' :
  (∀ m, store_key m → d' !! m = d !! m) → layout kv d → expiry_covers kv d → expiry_covers kv d'.
Proof.
  intros Hm [_ _ _ Hx _] Hc m. unfold index_of, expiry_of.
  rewrite (zset_of_same ki d d') by (apply Hm; by left).
  rewrite (zset_of_same ke d d') by (apply Hm; right; by left).
  intros Hi. pose proof Hi as [x Hx']. apply Hx in Hx' as [_ [key ->]].
  rewrite Hm by (right; right; eauto). by apply Hc.
Qed.

Lemma safe_run {A} t (sc : script A) (s : Srv) :
  (layout kv (view t s) → safe kv (view t s) (d_run P t sc (view t s)).1) →
  layout kv (view t s) → safe kv (view t s) (view t (run t sc s).1).
Proof. intros Hsc Hd. destruct (run_view t sc s) as [-> _]. by apply Hsc. Qed.

(** One step keeps the layout, each indexed key, and the cover. *)
Lemma kv_step_kept settled st st' :
  kv_step settled st st' → layout kv (view st.1 st.2) →
  kept kv (view st.1 st.2) (view st'.1 st'.2) ∧
  (settled = true → indexed kv (view st.1 st.2) →
   expiry_covers kv (view st.1 st.2) → expiry_covers kv (view st'.1 st'.2)).
Proof.
  intros Hstep.
  destruct Hstep as [t t' s Ht|t s key v ttl now nx|t s key|t s key ttl now
    |t s table key delta ttl now Hpx|t s text table key delta ttl now floor Hpx
    |t s args Hargs|t s now args Hargs|t s now args Hargs Hleft|t s s' Hm];
    cbn [fst snd]; intros Hd;
    assert (Hsafe : ∀ d', safe kv (view t s) d' →
            kept kv (view t s) d' ∧
            (settled = true → indexed kv (view t s) → expiry_covers kv (view t s) → expiry_covers kv d'))
      by (intros d' [H1 H2]; auto).
  - split; [by eapply later_kept|]. intros _ _. by eapply covers_later.
  - apply Hsafe, safe_run; [|done]. by eapply safe_set.
  - apply Hsafe, safe_run; [|done]. by eapply safe_del.
  - apply Hsafe, safe_run; [|done]. by eapply safe_expire.
  - apply Hsafe, safe_run; [|done]. by eapply safe_incr.
  - apply Hsafe, safe_run; [|done]. by eapply safe_incr_floor.
  - apply Hsafe, safe_run; [intros|done]. rewrite run_prune;
      [|by eapply index_ne_expiry|by eapply data_keys_args|by apply layout_ok].
    eapply safe_foldl; [|done|done]. intros. by eapply safe_prune_one.
  - apply Hsafe, safe_run; [intros|done]. rewrite run_sweep;
      [|by eapply index_ne_expiry|by eapply data_keys_args|by apply layout_ok].
    eapply safe_foldl; [|done|done]. intros. by eapply safe_sweep_one.
  - destruct (run_view t (BACKFILL_LUA ki ke now args 0) s) as [-> _].
    rewrite run_backfill;
      [|by eapply index_ne_expiry|by eapply data_keys_args|by apply layout_ok].
    cbn [fst]. split; [by eapply kept_backfill|].
    intros Hs _ Hc. eapply covers_backfill; eauto.
  - split; [by eapply kept_same|]. intros _ _. by apply covers_same.
Qed.

Lemma kv_step_safe settled st st' :
  kv_step settled st st' → indexed kv (view st.1 st.2) →
  indexed kv (view st'.1 st'.2) ∧
  (settled = true → expiry_covers kv (view st.1 st.2) → expiry_covers kv (view st'.1 st'.2)).
Proof.
  intros Hstep [Hl Hh]. destruct (kv_step_kept settled st st' Hstep Hl) as [[Hl' Hk] Hc].
  split; [split; [done|]|].
  - intros key. apply Hk, Hh.
  - intros Hs. by apply Hc.
Qed.

(** Any number of steps, by any replicas in any order. *)
Lemma kv_steps_safe settled st st' :
  rtc (kv_step settled) st st' → indexed kv (view st.1 st.2) →
  indexed kv (view st'.1 st'.2) ∧
  (settled = true → expiry_covers kv (view st.1 st.2) → expiry_covers kv (view st'.1 st'.2)).
Proof.
  induction 1 as [st|st1 st2 st3 Hs _ IH]; [auto|]. intros Hd.
  destruct (kv_step_safe settled st1 st2 Hs Hd) as [Hd2 Hc2].
  destruct (IH Hd2) as [Hd3 Hc3]. auto.
Qed.
End fleet.
