(* ===== verification/KvStore.v ===== *)
(** * The key/value store: the Rust side ([src/src/state/kv.rs])

    [RedisKv]'s operations as programs of one replica over the network: each
    write invokes its script; listings, sweeps and backfills are loops of
    requests. *)

From S2P Require Import Prelude Redis Client Keys KvScripts.

(** [mcpg_cluster_api::Entry] and [KvPage]. *)
Record entry : Type := Entry { bytes : string; expires_at : option Z }.
Record kv_page : Type := KvPage { entries : list (string * entry); next : option string }.

(** Where a [SCAN] pass stands. *)
Record scan_cursor : Type := ScanCursor { scan_at : Z; pending : list string; done_ : bool }.

Definition scan_cursor_default : scan_cursor := ScanCursor 0 [] false.

#[export] Instance scan_cursor_eq_dec : EqDecision scan_cursor.
Proof. solve_decision. Defined.

(** [serde_json] for [ScanCursor] is library code: an encoder, a decoder, and
    that decoding undoes encoding. *)
Class CursorJson : Type := {
  cursor_to_string : scan_cursor → result string string;
  cursor_from_str : string → option scan_cursor;
}.

Class CursorJsonLaws `{CursorJson} : Prop := {
  cursor_encodes c : is_ok (cursor_to_string c) = true;
  cursor_roundtrip c s : cursor_to_string c = Ok s → cursor_from_str s = Some c;
}.

Definition SCAN_COUNT : nat := 1000.
Definition SWEEP_BATCH : Z := 1000.

Definition redis_err (e : string) : cluster_error := BackendUnavailable ("redis: " +:+ e).

(** A counter script's error: its precondition sentinel is a
    [Precondition], anything else the backend's.  The model keeps a reply's
    text as the error's displayed text. *)
Definition incr_err (op key e : string) : cluster_error :=
  if str_contains incr_sentinel e
  then Precondition ("redis " +:+ op +:+ " `" +:+ key +:+ "`: " +:+ e)
  else redis_err e.

(** No TTL is 0; a TTL is at least 1 ms and at most [u64::MAX]. *)
Definition ttl_ms (ttl : option Z) : Z :=
  match ttl with Some d => clamp 1 u64_max (as_millis d) | None => 0 end.

Module RedisKv.
Section store.
Context {Srv : Type} `{RedisServer Srv} `{CursorJson}.
Context (kv : redis_kv).
Local Abbreviation ki := (index_key kv).
Local Abbreviation ke := (expiry_key kv).
Local Abbreviation io A := (client Srv cluster_error A).

Definition await {A} (m : client Srv string A) : io A := cmap_err redis_err m.

(** ** [fetch_entries] *)

(** One key's [GET] and [PTTL] replies, read at local time [now]. *)
Definition read_pair (now : Z) (value pttl : reply) : option entry :=
  let bytes := match value with RBulk v => Some v | _ => None end in
  let expires_at :=
    match pttl with
    | RInt ms => if ms =? -1 then Some None else if 0 <=? ms then Some (Some (now + ms)) else None
    | _ => None
    end in
  match bytes, expires_at with
  | Some bytes, Some expires_at => Some (Entry bytes expires_at)
  | _, _ => None
  end.

(** [keys.into_iter().zip(replies.chunks(2))]: the live entries, and the
    keys that are gone. *)
Fixpoint split_replies (now : Z) (keys : list string) (replies : list reply) :
    list (string * entry) * list string :=
  match keys, replies with
  | key :: keys, value :: pttl :: replies =>
      let '(out, gone) := split_replies now keys replies in
      match read_pair now value pttl with
      | Some e => ((logical_key kv key, e) :: out, gone)
      | None => (out, key :: gone)
      end
  | _, _ => ([], [])
  end.

Definition get_cmds (keys : list string) : list cmd :=
  flat_map (λ k, [GET k; PTTL k]) keys.

Definition fetch_entries (keys : list string) (prune : bool) : io (list (string * entry)) :=
  match keys with
  | [] => cret []
  | _ =>
      let! replies := await (pipeline (get_cmds keys)) in
      let! now := system_now in
      let '(out, gone) := split_replies now keys replies in
      let! _ :=
        (if prune && negb (bool_decide (gone = [])) then
           let! _ := cresult (invoke (PRUNE_LUA ki ke gone 0)) in cret tt
         else cret tt) in
      cret out
  end.

(** ** Pages *)

(** [usize] arithmetic wraps in a release build. *)
Definition usize_succ (n : Z) : Z := (n + 1) mod 2 ^ 64.

Definition lex_min (prefix : string) (after : option string) : string :=
  match after with
  | Some full => "(" +:+ full
  | None => "[" +:+ full_key kv prefix
  end.

(** Every key with the prefix sorts below the prefix followed by 0xFF. *)
Definition lex_max (prefix : string) : string :=
  "(" +:+ full_key kv prefix +:+ String byte_ff "".

(** [usize] counts against list lengths. *)
Definition longer_than {A} (l : list A) (limit : Z) : bool := limit <? Z.of_nat (length l).
Definition truncate {A} (limit : Z) (l : list A) : list A :=
  if longer_than l limit then take (Z.to_nat limit) l else l.
Definition split_off {A} (limit : Z) (l : list A) : list A * list A :=
  if longer_than l limit then (take (Z.to_nat limit) l, drop (Z.to_nat limit) l) else (l, []).

Definition index_page (prefix : string) (after : option string) (limit : Z) : io kv_page :=
  let! r := await (query (ZRANGEBYLEX ki (lex_min prefix after) (lex_max prefix)
                            (Some (usize_succ limit)))) in
  let keys := match r with RStrs l => l | _ => [] end in
  let more := longer_than keys limit in
  let keys := truncate limit keys in
  let next := if more then (λ k, "i" +:+ k) <$> last keys else None in
  let! entries := fetch_entries keys true in
  cret (KvPage entries next).

(** The [while keys.len() < limit && !done] loop of [scan_page]. *)
Fixpoint scan_fill (fuel : nat) (pattern : string) (limit : Z)
    (keys : list string) (scan : Z) (done : bool) : io (list string * Z * bool) :=
  if (Z.of_nat (length keys) <? limit) && negb done then
    match fuel with
    | O => cfail OutOfFuel
    | S fuel =>
        let! (next, batch) := await (query_scan scan pattern SCAN_COUNT) in
        scan_fill fuel pattern limit (keys ++ batch) next (next =? 0)
    end
  else cret (keys, scan, done).

Definition scan_page (fuel : nat) (prefix : string) (state : scan_cursor) (limit : Z) :
    io kv_page :=
  let pattern := glob_escape (full_key kv prefix) +:+ "*" in
  let! (keys, scan, done) :=
    scan_fill fuel pattern limit (pending state) (scan_at state) (done_ state) in
  let '(keys, pending) := split_off limit keys in
  let! next :=
    (if done && bool_decide (pending = []) then cret None
     else match cursor_to_string (ScanCursor scan pending done) with
          | Ok state => cret (Some ("s" +:+ state))
          | Err e => cfail (Internal ("redis kv list cursor: " +:+ e))
          end) in
  let! entries := fetch_entries keys false in
  cret (KvPage entries next).

Definition not_a_cursor : cluster_error := Precondition "redis kv list: not a cursor of this store".

Definition scan_state (state : string) : io scan_cursor :=
  match cursor_from_str state with Some c => cret c | None => cfail not_a_cursor end.

(** [index_ready] is the replica's flag: listings read the key index. *)
Definition list_page (index_ready : bool) (fuel : nat) (prefix : string)
    (cursor : option string) (limit : Z) : io kv_page :=
  let limit := Z.max 1 limit in
  match cursor with
  | None =>
      if index_ready then index_page prefix None limit
      else scan_page fuel prefix scan_cursor_default limit
  | Some c =>
      match strip_prefix "i" c with
      | Some full => index_page prefix (Some full) limit
      | None =>
          match strip_prefix "s" c with
          | Some state => let! st := scan_state state in scan_page fuel prefix st limit
          | None => let! st := scan_state c in scan_page fuel prefix st limit
          end
      end
  end.

(** ** Reads and writes *)

Definition get (key : string) : io (option entry) :=
  let full := full_key kv key in
  let! rs := await (pipeline [GET full; PTTL full]) in
  let! now := system_now in
  match rs with
  | [RBulk bytes; RInt pttl] =>
      if pttl =? -2 then cret None
      else cret (Some (Entry bytes (if 0 <=? pttl then Some (now + pttl) else None)))
  | _ => cret None
  end.

Definition put (key value : string) (ttl : option Z) : io unit :=
  let! now := now_ms in
  let! _ := await (invoke (SET_LUA (full_key kv key) ki ke value (ttl_ms ttl) now false)) in
  cret tt.

Definition put_if_absent (key value : string) (ttl : option Z) : io bool :=
  let! now := now_ms in
  let! stored := await (invoke (SET_LUA (full_key kv key) ki ke value (ttl_ms ttl) now true)) in
  cret (stored =? 1).

Definition delete (key : string) : io bool :=
  let! n := await (invoke (DEL_LUA (full_key kv key) ki ke)) in
  cret (0 <? n).

Definition expire (key : string) (ttl : option Z) : io bool :=
  let! now := now_ms in
  let! updated := await (invoke (EXPIRE_LUA (full_key kv key) ki ke (ttl_ms ttl) now)) in
  cret (updated =? 1).

Definition incr (key : string) (delta : Z) (ttl : option Z) : io Z :=
  let! now := now_ms in
  cmap_err (incr_err "incr" key)
    (invoke (INCR_LUA (err_table srv_policy) (full_key kv key) ki ke delta (ttl_ms ttl) now)).

Definition incr_floor (key : string) (delta floor : Z) (ttl : option Z) : io Z :=
  let! now := now_ms in
  cmap_err (incr_err "incr_floor" key)
    (invoke (INCR_FLOOR_LUA (tonumber_text srv_policy) (err_table srv_policy)
               (full_key kv key) ki ke delta (ttl_ms ttl) now floor)).

(** ** Upkeep *)

(** The sweep's loop, with the keys gone so far. *)
Fixpoint sweep_loop (fuel : nat) (gone : Z) : io Z :=
  match fuel with
  | O => cfail OutOfFuel
  | S fuel =>
      let! now := now_ms in
      let! r := await (query (ZRANGEBYSCORE ke NegInf (Incl now) (Some SWEEP_BATCH))) in
      let due := match r with RStrs l => l | _ => [] end in
      if bool_decide (due = []) then cret gone
      else
        let! removed := await (invoke (SWEEP_LUA ki ke now due 0)) in
        let gone := gone + Z.max 0 removed in
        if Z.of_nat (length due) <? SWEEP_BATCH then cret gone
        else sweep_loop fuel gone
  end.

Definition sweep (fuel : nat) : io Z := sweep_loop fuel 0.

Definition data_pattern : string :=
  if is_empty (key_prefix kv) then "*" else glob_escape (key_prefix kv) +:+ ":*".

Definition is_data (k : string) : bool :=
  negb (bool_decide (k = ki)) && negb (bool_decide (k = ke)) &&
  negb (bool_decide (k = complete_key kv)).

Fixpoint backfill_loop (fuel : nat) (scan indexed : Z) : io Z :=
  match fuel with
  | O => cfail OutOfFuel
  | S fuel =>
      let! (next, batch) := await (query_scan scan data_pattern SCAN_COUNT) in
      let batch := filter (λ k, is_data k = true) batch in
      let! indexed :=
        (if bool_decide (batch = []) then cret indexed
         else
           let! now := now_ms in
           let! n := await (invoke (BACKFILL_LUA ki ke now batch 0)) in
           cret (indexed + Z.max 0 n)) in
      if next =? 0 then cret indexed else backfill_loop fuel next indexed
  end.

Definition backfill_index (fuel : nat) : io Z := backfill_loop fuel 0 0.

Definition mark_index_complete (started_at_ms : Z) : io unit :=
  let! _ := await (query (SET (complete_key kv) (of_int srv_policy started_at_ms) false None)) in
  cret tt.

Definition index_complete : io bool :=
  let! r := await (query (EXISTS (complete_key kv))) in
  cret (match r with RInt n => 0 <? n | _ => false end).

(** [invalidate_index]: the flag it leaves, whatever the server answers. *)
Definition invalidate_index : io unit :=
  let! _ := await (query (DEL (complete_key kv))) in cret tt.
End store.
End RedisKv.

(** [await] takes no time of its own. *)
#[export] Hint Extern 1 (forwards (RedisKv.await _)) =>
  unfold RedisKv.await; apply forwards_map_err; forwards : forwards.
