(* ===== verification/KvSpec.v ===== *)
(** * The key/value contract

    What [KeyValueStore] promises, as operations on a plain map from keys to
    values with deadlines - no indexes, no scripts, no doubles - and the
    theorem that the store implements it. *)

From S2P Require Import Prelude Redis Client DbFacts Keys KvScripts KvIndex KvStore.

(** ** The abstract store *)

(** A key's value and the server time at which it expires. *)
Abbreviation model := (gmap string (string * option Z)).

Inductive kv_op : Type :=
| OpGet (key : string)
| OpPut (key value : string) (ttl : option Z)
| OpPutIfAbsent (key value : string) (ttl : option Z)
| OpDelete (key : string)
| OpExpire (key : string) (ttl : option Z)
| OpIncr (key : string) (delta : Z) (ttl : option Z)
| OpIncrFloor (key : string) (delta floor : Z) (ttl : option Z).

Inductive kv_res : Type :=
| ResEntry (e : option entry)
| ResUnit
| ResBool (b : bool)
| ResInt (z : Z).

(** A TTL in whole milliseconds, at least one. *)
Definition spec_ms (ttl : option Z) : option Z := (λ d, Z.max 1 (as_millis d)) <$> ttl.

Section spec.
Context (P : policy).

Definition spec_deadline (t : Z) (ttl : option Z) : option Z := (λ ms, t + ms) <$> spec_ms ttl.

(** The integer a counter holds: 0 when the key is absent, none when its
    value is no integer. *)
Definition counter (m : model) (key : string) : option Z :=
  match m !! key with None => Some 0 | Some (v, _) => as_int P v end.

(** Replace a counter's value; a TTL replaces its deadline, no TTL keeps it. *)
Definition store_counter (t : Z) (key : string) (n : Z) (ttl : option Z) (m : model) : model :=
  let deadline :=
    match ttl with
    | Some _ => spec_deadline t ttl
    | None => match m !! key with Some (_, e) => e | None => None end
    end in
  <[key := (of_int P n, deadline)]> m.

(** An operation at server time [t] and local time [now]: the store after
    it and its result, [None] for a failed precondition. *)
Definition spec_op (t now : Z) (op : kv_op) (m : model) : model * option kv_res :=
  match op with
  | OpGet key =>
      (m, Some (ResEntry ((λ '(v, e),
         Entry v ((λ dl, now + Z.max 0 (dl - t)) <$> e)) <$> m !! key)))
  | OpPut key value ttl => (<[key := (value, spec_deadline t ttl)]> m, Some ResUnit)
  | OpPutIfAbsent key value ttl =>
      match m !! key with
      | Some _ => (m, Some (ResBool false))
      | None => (<[key := (value, spec_deadline t ttl)]> m, Some (ResBool true))
      end
  | OpDelete key => (delete key m, Some (ResBool (bool_decide (is_Some (m !! key)))))
  | OpExpire key ttl =>
      match m !! key with
      | None => (m, Some (ResBool false))
      | Some (v, _) => (<[key := (v, spec_deadline t ttl)]> m, Some (ResBool true))
      end
  | OpIncr key delta ttl =>
      match counter m key with
      | None => (m, None)
      | Some z =>
          if is_i64 (z + delta)
          then (store_counter t key (z + delta) ttl m, Some (ResInt (z + delta)))
          else (m, None)
      end
  | OpIncrFloor key delta floor ttl =>
      match counter m key with
      | None => (m, None)
      | Some z =>
          let n := Z.max z floor + delta in
          (store_counter t key n ttl m, Some (ResInt n))
      end
  end.

(** Time passing: the keys past their deadline leave. *)
Definition spec_later (t : Z) (m : model) : model :=
  filter (λ p, alive P t (RVal (RStr p.2.1) p.2.2) = true) m.

(** The ranges in which the store keeps the contract: TTLs and deltas of
    the parameter types, TTLs up to 2^53 ms, counters within 2^53, and for
    [incr_floor] a step within 2^53. *)
Definition ttl_in_range (ttl : option Z) : Prop :=
  match ttl with Some d => 0 ≤ d ∧ as_millis d ≤ 2 ^ 53 | None => True end.

Definition op_in_range (op : kv_op) (m : model) : Prop :=
  match op with
  | OpGet _ | OpDelete _ => True
  | OpPut _ _ ttl | OpPutIfAbsent _ _ ttl | OpExpire _ ttl => ttl_in_range ttl
  | OpIncr key delta ttl =>
      ttl_in_range ttl ∧
      match counter m key with
      | Some z => in_i64 (z + delta) → Z.abs (z + delta) ≤ 2 ^ 53
      | None => True
      end
  | OpIncrFloor key delta floor ttl =>
      ttl_in_range ttl ∧ Z.abs floor < 2 ^ 53 ∧ Z.abs delta < 2 ^ 53 ∧
      match counter m key with
      | Some z =>
          Z.abs z < 2 ^ 53 ∧ Z.abs (Z.max z floor - z) ≤ 2 ^ 53 ∧
          Z.abs (Z.max z floor - z + delta) ≤ 2 ^ 53 ∧ Z.abs (Z.max z floor + delta) ≤ 2 ^ 53
      | None => True
      end
  end.
End spec.

(** ** The store as an implementation of it *)

Section refinement.
Context {Srv : Type} `{RedisLaws Srv} `{CursorJson} (prefix : string).
Context (Hprefix : is_empty prefix = false).
Local Abbreviation P := (srv_policy (Srv := Srv)).
Local Abbreviation kv := (with_connection_manager prefix).
Local Abbreviation ki := (index_key kv).
Local Abbreviation ke := (expiry_key kv).

(** The data keys of [d] are the entries of [m]. *)
Definition stores (d : db) (m : model) : Prop :=
  ∀ key, d !! full_key kv key = (λ p, RVal (RStr p.1) p.2) <$> m !! key.

Definition run_op (op : kv_op) : client Srv cluster_error kv_res :=
  match op with
  | OpGet key => let! e := RedisKv.get kv key in cret (ResEntry e)
  | OpPut key value ttl => let! _ := RedisKv.put kv key value ttl in cret ResUnit
  | OpPutIfAbsent key value ttl =>
      let! b := RedisKv.put_if_absent kv key value ttl in cret (ResBool b)
  | OpDelete key => let! b := RedisKv.delete kv key in cret (ResBool b)
  | OpExpire key ttl => let! b := RedisKv.expire kv key ttl in cret (ResBool b)
  | OpIncr key delta ttl => let! z := RedisKv.incr kv key delta ttl in cret (ResInt z)
  | OpIncrFloor key delta floor ttl =>
      let! z := RedisKv.incr_floor kv key delta floor ttl in cret (ResInt z)
  end.

(** The program's result is the contract's. *)
Definition result_matches (r : result kv_res cluster_error) (spec : option kv_res) : Prop :=
  match spec with
  | Some x => r = Ok x
  | None => ∃ reason, r = Err (Precondition reason)
  end.

Lemma spec_px ttl :
  ttl_in_range ttl → script_px (ttl_ms ttl) = spec_ms ttl.
Proof.
  unfold script_px, ttl_ms, ttl_in_range, spec_ms. destruct ttl as [d|]; simpl; [|done].
  intros [Hd Hms].
  assert (0 ≤ as_millis d) by (apply Z.div_pos; lia).
  assert (clamp 1 u64_max (as_millis d) = Z.max 1 (as_millis d)) as ->
    by (unfold clamp, u64_max; lia).
  unfold tonumber. rewrite dround_exact by lia.
  by assert ((0 <? Z.max 1 (as_millis d)) = true) as -> by (apply Z.ltb_lt; lia).
Qed.

Lemma spec_px_accepted t ttl :
  0 ≤ t ≤ 2 ^ 53 → ttl_in_range ttl → px_refused P t (ttl_ms ttl) = false.
Proof.
  intros Ht Httl. unfold px_refused. rewrite spec_px by done.
  unfold spec_ms, ttl_in_range in *. destruct ttl as [d|]; [|done]. simpl.
  rewrite px_ok_range; [done|done|lia].
Qed.

Lemma spec_expiry_at t ttl :
  ttl_in_range ttl → expiry_at t (ttl_ms ttl) = spec_deadline t ttl.
Proof. intros. unfold expiry_at, spec_deadline. by rewrite spec_px. Qed.

Lemma stores_touch key d d' m o :
  touches kv (full_key kv key) d d' → stores d m →
  d' !! full_key kv key = (λ p, RVal (RStr p.1) p.2) <$> o →
  stores d' (partial_alter (λ _, o) key m).
Proof.
  intros Ht Hs Hk key'. destruct (decide (key' = key)) as [->|Hne].
  - by rewrite lookup_partial_alter_eq.
  - rewrite lookup_partial_alter_ne by done. rewrite <- Hs. apply (touch_other _ _ _ _ Ht).
    + intros E. by eapply full_key_inj in E.
    + by eapply full_key_ne_index.
    + by eapply full_key_ne_expiry.
Qed.

(** Scripts that set a value, and what a replica's call to one returns. *)
Lemma stores_set_value key v e ttl now d m :
  indexed kv d → stores d m →
  stores (set_index (full_key kv key) ki ke ttl now (<[full_key kv key := RVal (RStr v) e]> d))
    (<[key := (v, e)]> m).
Proof.
  intros Hd Hs. eapply (stores_touch key d _ m (Some (v, e))); [|done|].
  - destruct Hd. by eapply set_value_touches.
  - erewrite set_index_data by done. by rewrite lookup_insert_eq.
Qed.

Lemma stores_incr_value key v e ttl now d m :
  indexed kv d → stores d m →
  stores (incr_index (full_key kv key) ki ke ttl now (<[full_key kv key := RVal (RStr v) e]> d))
    (<[key := (v, e)]> m).
Proof.
  intros Hd Hs. eapply (stores_touch key d _ m (Some (v, e))); [|done|].
  - destruct Hd. by eapply incr_value_touches.
  - erewrite incr_index_data by done. by rewrite lookup_insert_eq.
Qed.

Lemma stores_is_Some d m key :
  stores d m → bool_decide (is_Some (d !! full_key kv key)) = bool_decide (is_Some (m !! key)).
Proof. intros Hs. rewrite Hs. apply bool_decide_ext. apply fmap_is_Some. Qed.

(** One replica's operation refines the contract's: on a quiet network it
    returns the contract's result and leaves the contract's store. *)
Definition refines_at (w : world Srv) (op : kv_op) (m : model) : Prop :=
  let '(m', x) := spec_op P (w_time w) (w_time w + w_skew w) op m in
  ∃ s r, run_op op w = (set_srv s w, r) ∧ result_matches r x ∧ stores (view (w_time w) s) m'.

Section one.
Context (w : world Srv) (m : model).
Context (Hq : quiet w) (Ht : 0 ≤ w_time w ≤ 2 ^ 53).
Context (Hd : indexed kv (view (w_time w) (w_srv w))) (Hs : stores (view (w_time w) (w_srv w)) m).
Local Abbreviation d := (view (w_time w) (w_srv w)).
Local Abbreviation t := (w_time w).

Lemma Hok : indexes_ok ki ke d.
Proof. destruct Hd as [[] _]. by split. Qed.

Lemma put_refines key v ttl : ttl_in_range ttl → refines_at w (OpPut key v ttl) m.
Proof.
  intros Httl. unfold refines_at; simpl. unfold RedisKv.put, RedisKv.await, cbind, now_ms, cmap_err.
  edestruct (invoke_quiet_view
    (SET_LUA (full_key kv key) ki ke v (ttl_ms ttl) (clock_ms w) false) w)
    as (s & -> & Hv); [done| |].
  { rewrite run_set; [|by eapply full_key_ne_index|by eapply full_key_ne_expiry
      |by eapply index_ne_expiry|apply Hok].
    rewrite spec_px_accepted by done. done. }
  do 2 eexists; split; [done|]. split; [done|].
  rewrite Hv, spec_expiry_at by done. by apply stores_set_value.
Qed.

Lemma put_if_absent_refines key v ttl :
  ttl_in_range ttl → refines_at w (OpPutIfAbsent key v ttl) m.
Proof.
  intros Httl. unfold refines_at; simpl.
  unfold RedisKv.put_if_absent, RedisKv.await, cbind, now_ms, cmap_err.
  edestruct (invoke_quiet_view
    (SET_LUA (full_key kv key) ki ke v (ttl_ms ttl) (clock_ms w) true) w)
    as (s & -> & Hv); [done| |].
  { rewrite run_set; [|by eapply full_key_ne_index|by eapply full_key_ne_expiry
      |by eapply index_ne_expiry|apply Hok].
    rewrite spec_px_accepted by done. cbn [andb]. rewrite (stores_is_Some _ m) by done.
    instantiate (1 := if bool_decide (is_Some (m !! key)) then Ok 0 else Ok 1).
    instantiate (1 := if bool_decide (is_Some (m !! key)) then d else _).
    by case_bool_decide. }
  destruct (m !! key) as [p|] eqn:Hk; simpl in *.
  - do 2 eexists; split; [done|]. split; [done|]. by rewrite Hv.
  - do 2 eexists; split; [done|]. split; [done|].
    rewrite Hv, spec_expiry_at by done. by apply stores_set_value.
Qed.

Lemma delete_refines key : refines_at w (OpDelete key) m.
Proof.
  unfold refines_at; simpl. unfold RedisKv.delete, RedisKv.await, cbind, cmap_err.
  edestruct (invoke_quiet_view (DEL_LUA (full_key kv key) ki ke) w) as (s & -> & Hv); [done| |].
  { rewrite run_del; [done|by eapply full_key_ne_index|by eapply full_key_ne_expiry
      |by eapply index_ne_expiry|apply Hok]. }
  do 2 eexists; split; [done|]. split.
  - simpl. do 2 f_equal. rewrite <- (stores_is_Some d m) by done.
    by case_decide; case_bool_decide.
  - rewrite Hv. destruct Hd as [[Hi He _ _ _] _].
    eapply (stores_touch key d _ m None); [|done|].
    + change (zrem_db ke (full_key kv key) (zrem_db ki (full_key kv key)
        (delete (full_key kv key) d)))
        with (drop_entries ki ke (full_key kv key) (delete (full_key kv key) d)).
      eapply drop_touches; [done|]. by eapply touches_delete.
    + rewrite !lookup_zrem_ne; [apply lookup_delete_eq| |];
        [by eapply full_key_ne_index|by eapply full_key_ne_expiry].
Qed.

Lemma expire_refines key ttl : ttl_in_range ttl → refines_at w (OpExpire key ttl) m.
Proof.
  intros Httl. unfold refines_at.
  assert (Hrun : d_run P t (EXPIRE_LUA (full_key kv key) ki ke (ttl_ms ttl) (clock_ms w)) d =
    match m !! key with
    | None => (d, Ok 0)
    | Some (v, _) =>
        (set_index (full_key kv key) ki ke (ttl_ms ttl) (clock_ms w)
           (<[full_key kv key := RVal (RStr v) (spec_deadline t ttl)]> d), Ok 1)
    end).
  { rewrite run_expire; [|by eapply full_key_ne_index|by eapply full_key_ne_expiry
      |by eapply index_ne_expiry|apply Hok].
    rewrite spec_px_accepted, spec_expiry_at, Hs by done. by destruct (m !! key) as [[]|]. }
  simpl. unfold RedisKv.expire, RedisKv.await, cbind, now_ms, cmap_err.
  destruct (m !! key) as [[v e]|] eqn:Hk;
    (edestruct (invoke_quiet_view
      (EXPIRE_LUA (full_key kv key) ki ke (ttl_ms ttl) (clock_ms w)) w)
      as (s & -> & Hv); [done|exact Hrun|]);
    do 2 eexists; (split; [done|]); (split; [done|]); rewrite Hv; [|done].
  by apply stores_set_value.
Qed.

Lemma get_refines key : refines_at w (OpGet key) m.
Proof.
  unfold refines_at; simpl. unfold RedisKv.get, RedisKv.await, cbind, cmap_err.
  edestruct (pipeline_reads [GET (full_key kv key); PTTL (full_key kv key)] w)
    as (s & -> & Hv); [done| |reflexivity| |].
  { repeat constructor; intros ??; simpl; repeat case_match; done. }
  { simpl. rewrite Hs. by destruct (m !! key). }
  simpl. rewrite Hs. destruct (m !! key) as [[v [dl|]]|]; simpl;
    do 2 eexists; (split; [|by split; [|rewrite Hv]]); try done.
  unfold cret. simpl.
  assert ((Z.max 0 (dl - t) =? -2) = false) as -> by (apply Z.eqb_neq; lia).
  by assert ((0 <=? Z.max 0 (dl - t)) = true) as -> by (apply Z.leb_le; lia).
Qed.

(** The counter scripts' shared end. *)
Lemma incrby_counter key amount :
  d_incrby P (full_key kv key) amount d =
    match counter P m key with
    | None => (d, RErr not_integer)
    | Some z =>
        if is_i64 (z + amount) then
          (<[full_key kv key := RVal (RStr (of_int P (z + amount)))
               (match m !! key with Some (_, e) => e | None => None end)]> d, RInt (z + amount))
        else (d, RErr incr_overflow)
    end.
Proof.
  unfold d_incrby, counter. rewrite Hs. destruct (m !! key) as [[v e]|]; simpl; [|done].
  by destruct (as_int P v).
Qed.

Lemma incr_steps_refines key amount ttl now table z :
  ttl_in_range ttl → counter P m key = Some z → is_i64 (z + amount) = true →
  ∃ d', d_run P t (incr_steps table (full_key kv key) ki ke amount (ttl_ms ttl) now) d =
          (d', Ok (dround (z + amount))) ∧
        stores d' (store_counter P t key (z + amount) ttl m).
Proof.
  intros Httl Hc Hi. eexists. split.
  - rewrite run_incr_steps; [|by eapply full_key_ne_index|by eapply full_key_ne_expiry
      |by eapply index_ne_expiry|apply Hok].
    rewrite incrby_counter, Hc, Hi, spec_px_accepted by done. done.
  - unfold store_counter, spec_deadline. rewrite spec_px by done.
    destruct ttl; simpl; rewrite ?insert_insert_eq; by apply stores_incr_value.
Qed.

Lemma incr_steps_fails key amount ttl now table :
  match counter P m key with Some z => is_i64 (z + amount) = false | None => True end →
  ∃ e, d_run P t (incr_steps table (full_key kv key) ki ke amount (ttl_ms ttl) now) d =
         (d, Err (incr_sentinel +:+ e)).
Proof.
  intros Hc.
  rewrite run_incr_steps; [|by eapply full_key_ne_index|by eapply full_key_ne_expiry
    |by eapply index_ne_expiry|apply Hok].
  rewrite incrby_counter. destruct (counter P m key) as [z|]; [rewrite Hc|]; eauto.
Qed.

Lemma incr_err_sentinel op key e :
  incr_err op key (incr_sentinel +:+ e) =
    Precondition ("redis " +:+ op +:+ " `" +:+ key +:+ "`: " +:+ incr_sentinel +:+ e).
Proof.
  unfold incr_err. by rewrite str_contains_starts by apply starts_with_append.
Qed.

Lemma incr_refines key delta ttl :
  op_in_range P (OpIncr key delta ttl) m → refines_at w (OpIncr key delta ttl) m.
Proof.
  intros [Httl Hb]. unfold refines_at; simpl.
  unfold RedisKv.incr, INCR_LUA, cbind, now_ms, cmap_err.
  set (sc := incr_steps _ _ _ _ _ _ _).
  destruct (counter P m key) as [z|] eqn:Hc; [destruct (is_i64 (z + delta)) eqn:Hi|].
  - destruct (incr_steps_refines key delta ttl (clock_ms w) (err_table P) z)
      as (d' & Hrun & Hst); auto. rewrite dround_exact in Hrun by (apply Hb; by apply is_i64_spec).
    destruct (invoke_quiet_view sc w d' _ Hq Hrun) as (s & -> & Hv).
    do 2 eexists; (split; [done|]); (split; [done|]). by rewrite Hv.
  - destruct (incr_steps_fails key delta ttl (clock_ms w) (err_table P)) as [e Hrun];
      [by rewrite Hc|].
    destruct (invoke_quiet_view sc w d _ Hq Hrun) as (s & -> & Hv).
    do 2 eexists; (split; [done|]); (split; [|by rewrite Hv]).
    simpl. rewrite incr_err_sentinel. eauto.
  - destruct (incr_steps_fails key delta ttl (clock_ms w) (err_table P)) as [e Hrun];
      [by rewrite Hc|].
    destruct (invoke_quiet_view sc w d _ Hq Hrun) as (s & -> & Hv).
    do 2 eexists; (split; [done|]); (split; [|by rewrite Hv]).
    simpl. rewrite incr_err_sentinel. eauto.
Qed.

(** What [incr_floor] adds. *)
Lemma floor_amount_in_range key delta floor z :
  counter P m key = Some z →
  Z.abs floor < 2 ^ 53 → Z.abs delta < 2 ^ 53 → Z.abs z < 2 ^ 53 →
  Z.abs (Z.max z floor - z) ≤ 2 ^ 53 → Z.abs (Z.max z floor - z + delta) ≤ 2 ^ 53 →
  floor_amount (tonumber_text P) (raw_reply (full_key kv key) d) delta floor =
    Ok (Z.max z floor - z + delta).
Proof.
  intros Hc Hf Hdl Hz Hb1 Hb2. unfold floor_amount, raw_reply, counter in *. rewrite Hs.
  assert (Htext : match match m !! key with Some (v, _) => RBulk v | None => RNil end with
                  | RBulk v => tonumber_text P v | _ => Some (LInt 0) end = Some (LInt z)).
  { destruct (m !! key) as [[v e]|]; [|by injection Hc as <-].
    rewrite (tonumber_integer v z Hc). by rewrite dround_exact by lia. }
  destruct (m !! key) as [[v e]|]; simpl in *; [rewrite Htext|injection Htext as <-];
    unfold tonumber, lsub, ladd; rewrite ?(dround_exact delta), ?(dround_exact floor) by lia;
    unfold lua_past, exact.
  - assert ((9007199254740992 <=? Z.abs z) = false) as -> by (apply Z.leb_gt; lia).
    assert ((9007199254740992 <=? Z.abs floor) = false) as -> by (apply Z.leb_gt; lia).
    assert ((9007199254740992 <=? Z.abs delta) = false) as -> by (apply Z.leb_gt; lia).
    simpl. f_equal. destruct (Z.ltb_spec z floor).
    + rewrite (dround_exact (floor - z)) by lia. rewrite dround_exact; lia.
    + rewrite (dround_exact (z - z)) by lia. rewrite dround_exact; lia.
  - assert ((9007199254740992 <=? Z.abs floor) = false) as -> by (apply Z.leb_gt; lia).
    assert ((9007199254740992 <=? Z.abs delta) = false) as -> by (apply Z.leb_gt; lia).
    simpl. f_equal. destruct (Z.ltb_spec 0 floor).
    + rewrite (dround_exact (floor - 0)) by lia. rewrite dround_exact; lia.
    + rewrite (dround_exact (0 - 0)) by lia. rewrite dround_exact; lia.
Qed.

(** Every error of [incr_floor]'s checks carries the sentinel. *)
Lemma floor_amount_fails text raw delta floor e :
  floor_amount text raw delta floor = Err e → ∃ e', e = incr_sentinel +:+ e'.
Proof.
  unfold floor_amount. repeat case_match; intros [= <-]; eauto.
Qed.

Lemma raw_reply_string key :
  raw_reply (full_key kv key) d =
    match m !! key with None => RNil | Some (v, _) => RBulk v end.
Proof. unfold raw_reply. rewrite Hs. by destruct (m !! key) as [[]|]. Qed.

Lemma incr_floor_fails key delta floor ttl now text table :
  counter P m key = None →
  ∃ e, d_run P t (INCR_FLOOR_LUA text table (full_key kv key) ki ke delta (ttl_ms ttl) now floor) d =
         (d, Err (incr_sentinel +:+ e)).
Proof.
  intros Hc. rewrite run_incr_floor, raw_reply_string.
  pose proof (incr_steps_fails key) as Hsteps. rewrite Hc in Hsteps.
  unfold counter in Hc. destruct (m !! key) as [[v e]|]; [|done].
  destruct (floor_amount text (RBulk v) delta floor) as [amount|e'] eqn:Hf; [by apply Hsteps|].
  apply floor_amount_fails in Hf as [e'' ->]. eauto.
Qed.

Lemma incr_floor_refines key delta floor ttl :
  op_in_range P (OpIncrFloor key delta floor ttl) m → refines_at w (OpIncrFloor key delta floor ttl) m.
Proof.
  intros (Httl & Hf & Hdl & Hb). unfold refines_at; simpl.
  unfold RedisKv.incr_floor, cbind, now_ms, cmap_err.
  set (sc := INCR_FLOOR_LUA _ _ _ _ _ _ _ _ _).
  destruct (counter P m key) as [z|] eqn:Hc.
  - destruct Hb as (Hz & Hb1 & Hb2 & Hb3).
    destruct (incr_steps_refines key (Z.max z floor - z + delta) ttl (clock_ms w) (err_table P) z)
      as (d' & Hrun & Hst); [done|done| |].
    { apply is_i64_spec. unfold in_i64, i64_min, i64_max. lia. }
    replace (z + (Z.max z floor - z + delta)) with (Z.max z floor + delta) in Hrun, Hst by lia.
    rewrite dround_exact in Hrun by lia.
    assert (d_run P t sc d = (d', Ok (Z.max z floor + delta))) as Hrun'.
    { unfold sc. pose proof (floor_amount_in_range key delta floor z Hc Hf Hdl Hz Hb1 Hb2) as Ha.
      rewrite run_incr_floor. rewrite raw_reply_string in *.
      destruct (m !! key) as [[]|]; by rewrite Ha. }
    destruct (invoke_quiet_view sc w d' _ Hq Hrun') as (s & -> & Hv).
    do 2 eexists; (split; [done|]); (split; [done|]). by rewrite Hv.
  - destruct (incr_floor_fails key delta floor ttl (clock_ms w) (tonumber_text P) (err_table P))
      as [e Hrun]; [done|].
    destruct (invoke_quiet_view sc w d _ Hq Hrun) as (s & -> & Hv).
    do 2 eexists; (split; [done|]); (split; [|by rewrite Hv]).
    simpl. rewrite incr_err_sentinel. eauto.
Qed.

(** Every operation in range. *)
Lemma op_refines op : op_in_range P op m → refines_at w op m.
Proof.
  destruct op; intros Hop; simpl in Hop;
    auto using get_refines, put_refines, put_if_absent_refines, delete_refines, expire_refines,
      incr_refines, incr_floor_refines.
Qed.
End one.

(** Time passing does to the model what it does to the server. *)
Lemma stores_later t t' (s : Srv) m :
  t ≤ t' → stores (view t s) m → stores (view t' s) (spec_later P t' m).
Proof.
  intros Ht Hs key. rewrite (view_later_lookup t t') by done. rewrite Hs.
  unfold spec_later. rewrite map_lookup_filter.
  destruct (m !! key) as [[v e]|]; [|done]. simpl. unfold alive; simpl.
  destruct e as [e|]; simpl; [destruct (past_due P t' e)|]; simpl;
    rewrite ?option_guard_True, ?option_guard_False by (simpl; congruence); done.
Qed.
End refinement.
