(* ===== verification/KvOps.v ===== *)
(** * The store's operations keep the indexes in step, whatever the network does

    [kv_call] is every call of [RedisKv] ([src/src/state/kv.rs]); a call may
    be delayed, lost, or lose its reply, and other clients' scripts run
    between its requests. *)

From S2P Require Import Prelude Redis Client DbFacts Keys KvScripts KvIndex KvStore KvSpec.

Inductive kv_call : Type :=
| CallOp (op : kv_op)
| CallListPage (index_ready : bool) (prefix : string) (cursor : option string) (limit : Z)
| CallSweep
| CallBackfill
| CallMarkComplete (started_at_ms : Z)
| CallIndexComplete
| CallInvalidate.

Section calls.
Context {Srv : Type} `{RedisLaws Srv} `{CursorJson} (prefix : string).
Context (Hprefix : is_empty prefix = false).
Local Abbreviation P := (srv_policy (Srv := Srv)).
Local Abbreviation kv := (with_connection_manager prefix).
Local Abbreviation ki := (index_key kv).
Local Abbreviation ke := (expiry_key kv).

Definition run_call (fuel : nat) (c : kv_call) : client Srv cluster_error unit :=
  match c with
  | CallOp op => let! _ := run_op prefix op in cret tt
  | CallListPage ready p cursor limit =>
      let! _ := RedisKv.list_page kv ready fuel p cursor limit in cret tt
  | CallSweep => let! _ := RedisKv.sweep kv fuel in cret tt
  | CallBackfill => let! _ := RedisKv.backfill_index kv fuel in cret tt
  | CallMarkComplete started => RedisKv.mark_index_complete kv started
  | CallIndexComplete => let! _ := RedisKv.index_complete kv in cret tt
  | CallInvalidate => RedisKv.invalidate_index kv
  end.

Definition call_in_range (c : kv_call) : Prop :=
  match c with
  | CallOp (OpIncr _ _ ttl) | CallOp (OpIncrFloor _ _ _ ttl) => ttl_in_range ttl
  | _ => True
  end.

Lemma forwards_op op : forwards (Srv := Srv) (run_op prefix op).
Proof.
  unfold run_op, RedisKv.get, RedisKv.put, RedisKv.put_if_absent, RedisKv.delete, RedisKv.expire,
    RedisKv.incr, RedisKv.incr_floor, RedisKv.await.
  destruct op; forwards.
Qed.

(** ** What survives *)

(** Every data key is in the key index, at a time of the Unix epoch. *)
Definition index_inv (t : Z) (s : Srv) : Prop := 0 ≤ t ∧ indexed kv (view t s).

(** The same with the expiry index covering every key that can expire. *)
Definition covered_inv (t : Z) (s : Srv) : Prop :=
  index_inv t s ∧ expiry_covers kv (view t s).

Lemma index_inv_stable : stable index_inv.
Proof. intros t t' s Ht [Ht0 Hs]. split; [lia|]. by eapply indexed_later. Qed.

Lemma covered_inv_stable : stable covered_inv.
Proof.
  intros t t' s Ht [Hi Hc]. split; [by eapply index_inv_stable|].
  destruct Hi as [_ [Hl _]]. by eapply covers_later.
Qed.

(** What both invariants have in common, for the calls that keep both. *)
Context (settled : bool) (T : Z) (HT : T ≤ 2 ^ 53) (I : Z → Srv → Prop) (Hstable : stable I).
Context (Hindexed : ∀ t s, I t s → index_inv t s).
Context (Hstep : ∀ t s s', t ≤ T → I t s → kv_step prefix settled (t, s) (t, s') → I t s').

Lemma keeps_step {A} (sc : script A) :
  (∀ t s, t ≤ T → I t s → kv_step prefix settled (t, s) (t, (run t sc s).1)) → keeps T I sc.
Proof. intros Hsc t s Ht Hs. by eapply Hstep, Hsc. Qed.

(** A script that leaves the store's keys alone. *)
Lemma keeps_frame {A} (sc : script A) :
  (∀ t d m, store_key prefix m → (d_run P t sc d).1 !! m = d !! m) → keeps T I sc.
Proof.
  intros Hsc. apply keeps_step. intros t s _ _. apply step_other. intros m Hm.
  destruct (run_view t sc s) as [-> _]. by apply Hsc.
Qed.

Lemma d_run_call_fst c t d : (d_run P t (call c) d).1 = (documented P t c d).1.
Proof. rewrite d_run_call_end. by destruct (documented P t c d) as [? []]. Qed.

Lemma keeps_reads c : reads (Srv := Srv) c → keeps T I (pcall c) ∧ keeps T I (call c).
Proof.
  intros Hc. split; apply keeps_frame; intros t d m _; rewrite ?d_run_call_fst.
  - simpl. specialize (Hc t d). destruct (documented P t c d). simpl in *. by rewrite Hc.
  - by rewrite Hc.
Qed.

(** What a read returns, when it returns. *)
Lemma query_returns c t s r :
  (run t (call c) s).2 = Ok r → r = (documented P t c (view t s)).2.
Proof.
  intros Hr. destruct (run_view t (call c) s) as [_ Hv]. rewrite Hr, d_run_call_end in Hv.
  destruct (documented P t c (view t s)) as [? []]; simpl in *; congruence.
Qed.

Definition answers (r : reply) : Prop :=
  match r with RStrs l => data_keys kv l | _ => True end.

(** A read of one of the indexes returns data keys. *)
Lemma yields_query c :
  reads (Srv := Srv) c →
  (∀ t d, indexed kv d → answers (documented P t c d).2) →
  yields (E := string) T I (query c) answers.
Proof.
  intros Hc Ha. apply yields_invoke; [done|]. intros t s Ht Hs. split.
  - by apply (proj2 (keeps_reads c Hc)).
  - intros r ->%query_returns. apply Ha. by apply Hindexed in Hs as [_ Hs].
Qed.

Lemma index_members d l :
  indexed kv d → (∀ m, m ∈ l → is_Some (index_of kv d !! m)) → data_keys kv l.
Proof.
  intros [Hl _] Hm. apply Forall_forall. intros m [x Hx]%Hm.
  by apply (layout_index_member _ _ Hl) in Hx as [_ ?].
Qed.

Lemma expiry_members d l :
  layout kv d → (∀ m, m ∈ l → is_Some (expiry_of kv d !! m)) → data_keys kv l.
Proof.
  intros Hl Hm. apply Forall_forall. intros m [x Hx]%Hm.
  by apply (layout_expiry_member _ _ Hl) in Hx.
Qed.

(** ** Listings *)

Lemma keeps_prune args : data_keys kv args → keeps T I (PRUNE_LUA ki ke args 0).
Proof. intros Hargs. apply keeps_step. intros. by apply step_prune. Qed.

Lemma split_replies_gone now keys rs k :
  k ∈ (RedisKv.split_replies kv now keys rs).2 → k ∈ keys.
Proof.
  revert rs. induction keys as [|key keys IH]; intros [|v [|pt rs]]; simpl;
    try by intros ?%elem_of_nil.
  specialize (IH rs). destruct (RedisKv.split_replies kv now keys rs) as [out gone]; simpl in *.
  destruct (RedisKv.read_pair now v pt); simpl; rewrite ?elem_of_cons; tauto.
Qed.

Lemma reads_get k : reads (Srv := Srv) (GET k).
Proof. intros t d. simpl. by repeat case_match. Qed.
Lemma reads_pttl k : reads (Srv := Srv) (PTTL k).
Proof. done. Qed.
Lemma reads_bylex k lo hi n : reads (Srv := Srv) (ZRANGEBYLEX k lo hi n).
Proof. intros t d. simpl. unfold with_zset. by repeat case_match. Qed.
Lemma reads_byscore k lo hi n : reads (Srv := Srv) (ZRANGEBYSCORE k lo hi n).
Proof. intros t d. simpl. unfold with_zset. by repeat case_match. Qed.

Lemma preserves_fetch keys prune :
  (prune = true → data_keys kv keys) →
  preserves T I (RedisKv.fetch_entries kv keys prune).
Proof.
  intros Hkeys. unfold RedisKv.fetch_entries. destruct keys as [|k0 keys']; [by apply yields_ret|].
  set (keys := k0 :: keys') in *.
  apply preserves_bind; [|intros; forwards|].
  { apply yields_map_err, preserves_pipeline; [done|].
    clear Hkeys. clearbody keys. induction keys as [|k keys IH]; simpl; [constructor|].
    repeat constructor; [| |done]; apply keeps_reads; [apply reads_get|apply reads_pttl]. }
  intros rs. apply preserves_bind; [apply preserves_system_now|intros; forwards|]. intros now.
  pose proof (split_replies_gone now keys rs) as Hgone.
  destruct (RedisKv.split_replies kv now keys rs) as [out gone]; simpl in *.
  apply preserves_end.
  destruct prune; simpl; [|by apply yields_ret]. case_bool_decide; simpl; [by apply yields_ret|].
  apply preserves_end, preserves_result, preserves_invoke; [done|]. apply keeps_prune.
  specialize (Hkeys eq_refl). apply Forall_forall. intros m Hm.
  by apply (proj1 (Forall_forall _ _) Hkeys), Hgone.
Qed.

Lemma answers_bylex lo hi n t d :
  indexed kv d → answers (documented P t (ZRANGEBYLEX ki lo hi n) d).2.
Proof.
  intros Hd. destruct (documented P t (ZRANGEBYLEX ki lo hi n) d).2 as [] eqn:Hr; try done.
  eapply index_members; [done|]. intros m Hm. by eapply bylex_members.
Qed.

Lemma answers_byscore lo hi n t d :
  layout kv d → answers (documented P t (ZRANGEBYSCORE ke lo hi n) d).2.
Proof.
  intros Hd. destruct (documented P t (ZRANGEBYSCORE ke lo hi n) d).2 as [] eqn:Hr; try done.
  eapply expiry_members; [done|]. intros m Hm. by eapply byscore_members.
Qed.

Lemma answers_keys r : answers r → data_keys kv (match r with RStrs l => l | _ => [] end).
Proof. destruct r; simpl; try done; intros _; by constructor. Qed.

Lemma data_keys_truncate limit l : data_keys kv l → data_keys kv (RedisKv.truncate limit l).
Proof.
  unfold RedisKv.truncate. case_match; [|done]. intros Hl. by apply Forall_take.
Qed.

Lemma preserves_query c : reads (Srv := Srv) c → preserves T I (query c).
Proof. intros Hc. apply preserves_invoke; [done|]. by apply keeps_reads. Qed.

Lemma preserves_scan cur pat n : preserves T I (query_scan cur pat n).
Proof.
  apply yields_request; [done|]. intros t s Ht Hs. split; [|done].
  pose proof (scan_view t cur pat n s) as Hv.
  destruct (scan t cur pat n s) as [s' r]; simpl in *.
  apply (Hstep t s); [done|done|]. apply step_other. intros. by rewrite Hv.
Qed.

Lemma forwards_fetch keys prune : forwards (Srv := Srv) (RedisKv.fetch_entries kv keys prune).
Proof. unfold RedisKv.fetch_entries, RedisKv.await. forwards. Qed.
Hint Resolve forwards_fetch : forwards.

Lemma preserves_index_page p after limit :
  preserves T I (RedisKv.index_page kv p after limit).
Proof.
  eapply yields_bind.
  - apply yields_map_err, yields_query; [apply reads_bylex|]. intros. by apply answers_bylex.
  - intros. forwards.
  - intros r Hr%answers_keys.
    apply preserves_end, preserves_fetch. intros _. by apply data_keys_truncate.
Qed.

Lemma forwards_scan_fill fuel pat limit keys cur done :
  forwards (Srv := Srv) (RedisKv.scan_fill fuel pat limit keys cur done).
Proof.
  revert keys cur done. unfold RedisKv.scan_fill, RedisKv.await.
  induction fuel as [|fuel IH]; intros; forwards.
Qed.
Hint Resolve forwards_scan_fill : forwards.

Lemma preserves_scan_fill fuel pat limit keys cur done :
  preserves T I (RedisKv.scan_fill fuel pat limit keys cur done).
Proof.
  revert keys cur done.
  induction fuel as [|fuel IH]; intros; simpl; case_match; try (by apply yields_ret);
    [apply yields_fail|].
  apply preserves_bind; [apply yields_map_err, preserves_scan| |]; intros [next batch];
    [forwards|done].
Qed.

Lemma preserves_scan_page fuel p st limit :
  preserves T I (RedisKv.scan_page kv fuel p st limit).
Proof.
  apply preserves_bind; [apply preserves_scan_fill|intros [[]]; forwards|].
  intros [[keys cur] over]. destruct (RedisKv.split_off limit keys) as [page pending].
  apply preserves_bind; [|intros; forwards|intros; by apply preserves_end, preserves_fetch].
  case_match; [by apply yields_ret|]. case_match; [by apply yields_ret|apply yields_fail].
Qed.

Lemma preserves_list_page ready fuel p cursor limit :
  preserves T I (RedisKv.list_page kv ready fuel p cursor limit).
Proof.
  assert (Hstate : ∀ state, preserves (E := cluster_error) T I
    (let! st := RedisKv.scan_state state in RedisKv.scan_page kv fuel p st (Z.max 1 limit))).
  { intros state. apply preserves_bind; [| |intros; apply preserves_scan_page].
    - unfold RedisKv.scan_state. case_match; [by apply yields_ret|apply yields_fail].
    - intros. unfold RedisKv.scan_page. forwards. }
  unfold RedisKv.list_page. destruct cursor as [c|].
  - destruct (strip_prefix "i" c); [apply preserves_index_page|].
    destruct (strip_prefix "s" c); apply Hstate.
  - destruct ready; [apply preserves_index_page|apply preserves_scan_page].
Qed.

(** ** Upkeep *)

Lemma preserves_sweep_loop fuel gone : preserves T I (RedisKv.sweep_loop kv fuel gone).
Proof.
  revert gone. induction fuel as [|fuel IH]; intros gone; simpl; [apply yields_fail|].
  assert (Hf : ∀ gone, forwards (Srv := Srv) (RedisKv.sweep_loop kv fuel gone)).
  { clear IH. induction fuel as [|fuel IH]; intros; simpl; unfold RedisKv.await; forwards. }
  apply preserves_bind; [apply preserves_now|intros; unfold RedisKv.await; forwards|].
  intros now. eapply yields_bind.
  - apply yields_map_err, yields_query; [apply reads_byscore|]. intros t d [Hl _]. by apply answers_byscore.
  - intros; unfold RedisKv.await; forwards.
  - intros r Hr%answers_keys. case_bool_decide; [by apply yields_ret|].
    apply preserves_bind; [|intros; forwards|intros; destruct (_ <? _); [by apply yields_ret|done]].
    apply yields_map_err, preserves_invoke; [done|]. apply keeps_step.
    intros. by apply step_sweep.
Qed.

Lemma data_pattern_key k :
  glob (RedisKv.data_pattern kv) k = true → ∃ key, k = full_key kv key.
Proof.
  unfold RedisKv.data_pattern, full_key. simpl. rewrite Hprefix.
  change ":*" with (glob_escape ":" +:+ "*").
  rewrite <- append_assoc, <- glob_escape_app, glob_escape_star, starts_with_spec.
  intros [r ->]. exists r. by rewrite append_assoc.
Qed.

Lemma yields_scan cur n :
  yields T I (query_scan cur (RedisKv.data_pattern kv) n) (λ r, data_keys kv r.2).
Proof.
  apply yields_request; [done|]. intros t s Ht Hs.
  pose proof (scan_view t cur (RedisKv.data_pattern kv) n s) as Hv.
  pose proof (scan_sound t cur (RedisKv.data_pattern kv) n s) as Hk.
  destruct (scan t cur _ n s) as [s' [next batch]]; simpl in *. split.
  - apply (Hstep t s); [done|done|]. apply step_other. intros. by rewrite Hv.
  - intros ? [= <-]. apply Forall_forall. intros m [_ Hm]%Hk. by apply data_pattern_key.
Qed.

Lemma preserves_backfill_loop fuel cur n :
  settled = false → preserves T I (RedisKv.backfill_loop kv fuel cur n).
Proof.
  intros Hsettled. revert cur n.
  assert (Hf : ∀ fuel cur n, forwards (Srv := Srv) (RedisKv.backfill_loop kv fuel cur n)).
  { clear fuel. induction fuel as [|fuel IH]; intros; simpl; unfold RedisKv.await; forwards. }
  induction fuel as [|fuel IH]; intros cur n; simpl; [apply yields_fail|].
  eapply yields_bind; [apply yields_map_err, yields_scan|intros []; unfold RedisKv.await; forwards|].
  intros [next batch] Hbatch. simpl in Hbatch.
  apply preserves_bind; [|intros; forwards|intros; destruct (next =? 0); [by apply yields_ret|done]].
  case_bool_decide; [by apply yields_ret|].
  apply preserves_bind; [apply preserves_now|intros; unfold RedisKv.await; forwards|].
  intros now. apply preserves_end, yields_map_err, preserves_invoke; [done|].
  apply keeps_step. intros. apply step_backfill; [|by rewrite Hsettled].
  apply Forall_forall. intros m [_ Hm]%list_elem_of_filter.
  by apply (proj1 (Forall_forall _ _) Hbatch).
Qed.

(** ** Every call *)

Lemma keeps_outside c k :
  (∀ m, store_key prefix m → m ≠ k) →
  (∀ t d m, m ≠ k → (documented P t c d).1 !! m = d !! m) → keeps T I (call c).
Proof.
  intros Hk Hc. apply keeps_frame. intros t d m Hm. rewrite d_run_call_fst. auto.
Qed.

Lemma complete_key_outside m : store_key prefix m → m ≠ complete_key kv.
Proof.
  intros [->|[->|[key ->]]] E; [by apply append_inj_l in E|by apply append_inj_l in E|].
  rewrite (full_key_suffix kv prefix eq_refl Hprefix) in E. by apply append_inj_l in E.
Qed.

Lemma accepted t s ttl : t ≤ T → I t s → ttl_in_range ttl → px_refused P t (ttl_ms ttl) = false.
Proof. intros Ht [Ht0 _]%Hindexed Httl. apply spec_px_accepted; [lia|done]. Qed.

Lemma preserves_op op : call_in_range (CallOp op) → preserves T I (run_op prefix op).
Proof.
  intros Hr. unfold run_op, RedisKv.get, RedisKv.put, RedisKv.put_if_absent, RedisKv.delete,
    RedisKv.expire, RedisKv.incr, RedisKv.incr_floor.
  destruct op; simpl in Hr; apply preserves_end.
  - apply preserves_bind; [|intros; forwards|].
    + apply yields_map_err, preserves_pipeline; [done|].
      repeat constructor; apply keeps_reads; [apply reads_get|apply reads_pttl].
    + intros. apply preserves_bind; [apply preserves_system_now|intros; forwards|].
      intros. repeat case_match; by apply yields_ret.
  - apply preserves_bind; [apply preserves_now|intros; unfold RedisKv.await; forwards|].
    intros. apply preserves_end, yields_map_err, preserves_invoke; [done|].
    apply keeps_step. intros. by apply step_set.
  - apply preserves_bind; [apply preserves_now|intros; unfold RedisKv.await; forwards|].
    intros. apply preserves_end, yields_map_err, preserves_invoke; [done|].
    apply keeps_step. intros. by apply step_set.
  - apply preserves_end, yields_map_err, preserves_invoke; [done|].
    apply keeps_step. intros. by apply step_del.
  - apply preserves_bind; [apply preserves_now|intros; unfold RedisKv.await; forwards|].
    intros. apply preserves_end, yields_map_err, preserves_invoke; [done|].
    apply keeps_step. intros. by apply step_expire.
  - apply preserves_bind; [apply preserves_now|intros; forwards|].
    intros. apply yields_map_err, preserves_invoke; [done|].
    apply keeps_step. intros. apply step_incr. by eapply accepted.
  - apply preserves_bind; [apply preserves_now|intros; forwards|].
    intros. apply yields_map_err, preserves_invoke; [done|].
    apply keeps_step. intros. apply step_incr_floor. by eapply accepted.
Qed.

Lemma preserves_call fuel c :
  call_in_range c → (c = CallBackfill → settled = false) → preserves T I (run_call fuel c).
Proof.
  intros Hr Hb. destruct c; simpl.
  - by apply preserves_end, preserves_op.
  - apply preserves_end, preserves_list_page.
  - apply preserves_end, preserves_sweep_loop.
  - apply preserves_end, preserves_backfill_loop. auto.
  - apply preserves_end, yields_map_err, preserves_invoke; [done|].
    apply (keeps_outside _ (complete_key kv)); [apply complete_key_outside|].
    intros t d m Hm. simpl. unfold d_set. repeat case_match; simpl; try done.
    by rewrite lookup_insert_ne.
  - apply preserves_end, preserves_end, yields_map_err, preserves_query. done.
  - apply preserves_end, yields_map_err, preserves_invoke; [done|].
    apply (keeps_outside _ (complete_key kv)); [apply complete_key_outside|].
    intros t d m Hm. simpl. by rewrite lookup_delete_ne.
Qed.
End calls.
