(* ===== verification/KvListing.v ===== *)
(** * Listings of the key/value store

    What the pages of [list_page] ([src/src/state/kv.rs]) add up to when a
    caller follows their cursors: [list_all] is that caller. *)

From S2P Require Import Prelude Redis Client DbFacts Keys KvScripts KvIndex KvStore.

(** ** Sorted lists of keys *)

Definition str_sorted (l : list string) : Prop := StronglySorted str_lt l.

Lemma zmembers_sorted z :
  (∀ m x, z !! m = Some x → x = 0) → StronglySorted String.le (zitems z).*2.
Proof.
  intros Hz. pose proof (StronglySorted_merge_sort zle ((λ p : string * Z, (p.2, p.1)) <$> map_to_list z))
    as Hs.
  fold (zitems z) in Hs.
  assert (Hin : ∀ p, p ∈ zitems z → p.1 = 0)
    by (intros [x m] Hm%elem_of_zitems; by eapply Hz).
  induction Hs as [|p l _ IH Hp]; simpl; [constructor|]. constructor.
  - apply IH. intros q Hq. apply Hin. by right.
  - apply Forall_forall. intros m ([x m'] & -> & Hm)%list_elem_of_fmap.
    pose proof (proj1 (Forall_forall _ _) Hp _ Hm) as Hle.
    pose proof (Hin p ltac:(by left)). pose proof (Hin (x, m') ltac:(by right)).
    unfold zle in Hle. simpl in *. destruct Hle as [|[]]; [lia|done].
Qed.

Lemma sorted_strict l : NoDup l → StronglySorted String.le l → str_sorted l.
Proof.
  intros Hnd Hs. induction Hs as [|x l _ IH Hx]; [constructor|].
  apply NoDup_cons in Hnd as [Hn Hnd]. constructor; [by apply IH|].
  apply Forall_forall. intros y Hy. pose proof (proj1 (Forall_forall _ _) Hx y Hy) as Hle.
  apply str_le_lteq in Hle as [| ->]; done.
Qed.

#[export] Instance str_lt_trans : Transitive str_lt.
Proof. intros x y z Hxy Hyz. eapply str_lt_le_trans; [done|]. by apply str_lt_le. Qed.

Lemma sorted_filter {A} (R : relation A) (f : A → Prop) `{∀ x, Decision (f x)} l :
  StronglySorted R l → StronglySorted R (filter f l).
Proof.
  induction 1 as [|x l _ IH Hx]; [constructor|]. rewrite filter_cons. case_decide; [|done].
  constructor; [done|]. apply Forall_forall. intros y [_ Hy]%list_elem_of_filter.
  by apply (proj1 (Forall_forall _ _) Hx).
Qed.

(** A strictly sorted list is its elements. *)
Lemma sorted_same l1 l2 :
  str_sorted l1 → str_sorted l2 → (∀ m, m ∈ l1 ↔ m ∈ l2) → l1 = l2.
Proof.
  intros H1 H2 Hin.
  assert (Hle : ∀ l, str_sorted l → StronglySorted String.le l ∧ NoDup l).
  { induction 1 as [|x l _ [IH1 IH2] Hx]; [by repeat constructor|]. split; constructor; auto.
    - eapply Forall_impl; [done|]. intros. by apply str_lt_le.
    - intros Hm. pose proof (proj1 (Forall_forall _ _) Hx x Hm). by eapply str_lt_irrefl. }
  destruct (Hle l1 H1) as [? ?], (Hle l2 H2) as [? ?].
  apply (StronglySorted_unique String.le); [done|done|]. by apply NoDup_Permutation.
Qed.

Lemma filter_all {A} (f : A → Prop) `{∀ x, Decision (f x)} (l : list A) :
  (∀ x, x ∈ l → f x) → filter f l = l.
Proof.
  induction l as [|x l IH]; intros Hl; [done|]. rewrite filter_cons, decide_True by (apply Hl; by left).
  f_equal. apply IH. intros. apply Hl. by right.
Qed.

Lemma filter_none {A} (f : A → Prop) `{∀ x, Decision (f x)} (l : list A) :
  (∀ x, x ∈ l → ¬ f x) → filter f l = [].
Proof.
  induction l as [|x l IH]; intros Hl; [done|]. rewrite filter_cons, decide_False by (apply Hl; by left).
  apply IH. intros. apply Hl. by right.
Qed.

(** What is past the last element of a sorted list's first [n]. *)
Lemma sorted_drop n l x :
  str_sorted l → last (take n l) = Some x → filter (str_lt x) l = drop n l.
Proof.
  intros Hs Hx. assert (Hsplit := take_drop n l). rewrite <- Hsplit in Hs.
  apply StronglySorted_app in Hs as (Hlt & Hs1 & Hs2).
  rewrite <- Hsplit at 1. rewrite filter_app.
  assert (filter (str_lt x) (take n l) = []) as ->.
  { apply last_Some in Hx as [l' Hl']. rewrite Hl' in *.
    apply StronglySorted_app in Hs1 as (Hlt' & _ & _).
    rewrite filter_app, filter_cons, decide_False by apply str_lt_irrefl.
    rewrite app_nil_r. apply filter_none. intros y Hy Hxy.
    eapply str_lt_irrefl. etrans; [exact Hxy|]. apply Hlt'; [done|]. by apply list_elem_of_singleton. }
  rewrite app_nil_l. apply filter_all. intros y Hy.
  apply Hlt; [|done]. by apply last_Some_elem_of.
Qed.

(** ** Pages on a quiet network *)

Section pages.
Context {Srv : Type} `{RedisLaws Srv} `{CursorJson} (prefix : string).
Context (Hprefix : is_empty prefix = false).
Local Abbreviation P := (srv_policy (Srv := Srv)).
Local Abbreviation kv := (with_connection_manager prefix).
Local Abbreviation ki := (index_key kv).
Local Abbreviation ke := (expiry_key kv).

(** The entry of a full key, as a replica whose clock says [now] reads it
    at server time [t]. *)
Definition entry_at (t now : Z) (d : db) (full : string) : option entry :=
  match d !! full with
  | Some (RVal (RStr v) e) => Some (Entry v ((λ dl, now + Z.max 0 (dl - t)) <$> e))
  | _ => None
  end.

Definition found (t now : Z) (d : db) (keys : list string) : list (string * entry) :=
  omap (λ k, (λ e, (logical_key kv k, e)) <$> entry_at t now d k) keys.

Definition gone (d : db) (keys : list string) : list string := filter (λ k, d !! k = None) keys.

Definition strings (d : db) (keys : list string) : Prop :=
  ∀ k v, k ∈ keys → d !! k = Some v → ∃ s, r_obj v = RStr s.

Lemma read_pair_quiet t now d k :
  (∀ v, d !! k = Some v → ∃ s, r_obj v = RStr s) →
  RedisKv.read_pair now (documented P t (GET k) d).2 (documented P t (PTTL k) d).2 =
    entry_at t now d k.
Proof.
  intros Hs. cbn [documented pttl snd]. unfold entry_at, pttl.
  destruct (d !! k) as [[o e]|] eqn:Hk; [|done].
  destruct (Hs _ eq_refl) as [s Ho]. simpl in Ho. subst o. unfold RedisKv.read_pair.
  destruct e as [dl|]; cbn [r_expiry snd]; [|done].
  assert ((Z.max 0 (dl - t) =? -1) = false) as -> by (apply Z.eqb_neq; lia).
  by assert ((0 <=? Z.max 0 (dl - t)) = true) as -> by (apply Z.leb_le; lia).
Qed.

Lemma entry_at_None t now d k :
  (∀ v, d !! k = Some v → ∃ s, r_obj v = RStr s) → entry_at t now d k = None ↔ d !! k = None.
Proof.
  intros Hs. unfold entry_at. destruct (d !! k) as [[o e]|]; [|done].
  destruct (Hs _ eq_refl) as [s Ho]. simpl in Ho. by subst o.
Qed.

Lemma split_replies_quiet t now d keys :
  strings d keys →
  RedisKv.split_replies kv now keys
    ((λ c, (documented P t c d).2) <$> RedisKv.get_cmds keys) = (found t now d keys, gone d keys).
Proof.
  induction keys as [|k keys IH]; intros Hs; [done|].
  assert (strings d keys) as Hs' by (intros k' v Hk'; apply Hs; by right).
  specialize (Hs k). change (RedisKv.get_cmds (k :: keys))
    with (GET k :: PTTL k :: RedisKv.get_cmds keys).
  rewrite !fmap_cons. cbn [RedisKv.split_replies]. rewrite IH by done.
  rewrite read_pair_quiet by (intros; apply Hs; [by left|done]).
  pose proof (entry_at_None t now d k ltac:(intros; apply Hs; [by left|done])) as Hn.
  unfold found, gone. cbn [omap list_omap]. rewrite filter_cons.
  destruct (entry_at t now d k); simpl; case_decide; naive_solver.
Qed.

Lemma get_cmds_ok t d keys :
  strings d keys →
  first_error ((λ c, (documented P t c d).2) <$> RedisKv.get_cmds keys) = None.
Proof.
  induction keys as [|k keys IH]; intros Hs; [done|].
  assert (strings d keys) as Hs' by (intros k' v Hk'; apply Hs; by right).
  specialize (Hs k). simpl. specialize (IH Hs').
  destruct (d !! k) as [[o e]|]; [|done].
  destruct (Hs _ ltac:(by left) eq_refl) as [s Ho]. simpl in Ho. by subst o.
Qed.

Lemma fetch_quiet keys prune w :
  quiet w →
  let d := view (w_time w) (w_srv w) in
  strings d keys → (prune = true → data_args ki ke keys ∧ upkeep_ok ki ke d) →
  ∃ s, RedisKv.fetch_entries kv keys prune w =
         (set_srv s w, Ok (found (w_time w) (w_time w + w_skew w) d keys)) ∧
       view (w_time w) s = if prune then foldl (prune_one ki ke) d (gone d keys) else d.
Proof.
  intros Hq d Hs Hprune.
  destruct keys as [|k0 keys'] eqn:Ekeys.
  { exists (w_srv w). split; [by destruct w|]. by destruct prune. }
  rewrite <- Ekeys in *. unfold RedisKv.fetch_entries. rewrite Ekeys. rewrite <- Ekeys.
  clear Ekeys k0 keys'.
  destruct (pipeline_reads (RedisKv.get_cmds keys) w
    ((λ c, (documented P (w_time w) c d).2) <$> RedisKv.get_cmds keys)) as (s & Hp & Hv);
    [done| |done|by apply get_cmds_ok|].
  { clear. induction keys as [|k keys IH]; simpl; [constructor|].
    constructor; [intros ??; simpl; by repeat case_match|]. constructor; [done|done]. }
  unfold cbind at 1, RedisKv.await, cmap_err. rewrite Hp. cbn [map_err].
  unfold cbind at 1, system_now. cbn [w_time w_skew set_srv]. cbv iota beta.
  rewrite split_replies_quiet by done.
  destruct prune; cbn [andb]; [|by exists s].
  case_bool_decide as Hg; cbn [negb].
  { exists s. split; [done|]. rewrite Hg. done. }
  destruct (Hprune eq_refl) as [Hargs Hok].
  destruct (invoke_quiet_view (PRUNE_LUA ki ke (gone d keys) 0) (set_srv s w)
    (foldl (prune_one ki ke) d (gone d keys)) (Ok (0 + count_gone d (gone d keys))))
    as (s' & Hi & Hv'); [done| |].
  { cbn [w_time w_srv set_srv]. rewrite Hv. apply run_prune; [by eapply index_ne_expiry| |done].
    apply Forall_forall. intros m [_ Hm]%list_elem_of_filter.
    by apply (proj1 (Forall_forall _ _) Hargs). }
  exists s'. split; [|done]. unfold cbind, cresult. rewrite Hi. done.
Qed.

(** ** The key index as a list *)

(** The indexed keys, those under a prefix, and those past a cursor. *)
Definition members (d : db) : list string := (zitems (index_of kv d)).*2.
Definition under (d : db) (p : string) : list string :=
  filter (λ k, starts_with (full_key kv p) k = true) (members d).
Definition past (after : option string) (l : list string) : list string :=
  match after with None => l | Some x => filter (str_lt x) l end.

(** The keys are text: the byte 0xFF is not in them. *)
Definition text_keys (d : db) : Prop :=
  ∀ m, is_Some (index_of kv d !! m) → str_has byte_ff m = false.

Definition after_ok (p : string) (after : option string) : Prop :=
  match after with None => True | Some x => starts_with (full_key kv p) x = true end.

Lemma members_sorted d : indexed kv d → str_sorted (members d).
Proof.
  intros [Hl _]. apply sorted_strict; [apply NoDup_zmembers|]. apply zmembers_sorted.
  intros m x Hm. by apply (layout_index_member _ _ Hl) in Hm as [-> _].
Qed.

Lemma under_sorted d p : indexed kv d → str_sorted (under d p).
Proof. intros. by apply sorted_filter, members_sorted. Qed.

Lemma past_sorted after l : str_sorted l → str_sorted (past after l).
Proof. destruct after; [apply sorted_filter|done]. Qed.

Lemma elem_of_under d p m :
  m ∈ under d p ↔ starts_with (full_key kv p) m = true ∧ is_Some (index_of kv d !! m).
Proof. unfold under, members. by rewrite list_elem_of_filter, elem_of_zmembers. Qed.

Lemma elem_of_past after l m :
  m ∈ past after l ↔ m ∈ l ∧ (∀ x, after = Some x → str_lt x m).
Proof. destruct after; simpl; rewrite ?list_elem_of_filter; naive_solver. Qed.

Lemma parse_lex_incl x : parse_lex ("[" +:+ x) = Some (LexIncl x).
Proof. unfold parse_lex. by rewrite strip_prefix_append. Qed.

Lemma parse_lex_excl x : parse_lex ("(" +:+ x) = Some (LexExcl x).
Proof. unfold parse_lex. rewrite append_cons. simpl. by rewrite append_nil_l. Qed.

(** The range that [index_page] asks for holds the prefix's keys past the
    cursor. *)
Lemma range_in_under d p after :
  indexed kv d → text_keys d → after_ok p after →
  ∃ lo hi,
    parse_lex (RedisKv.lex_min kv p after) = Some lo ∧
    parse_lex (RedisKv.lex_max kv p) = Some hi ∧
    filter (λ m, lex_above lo m && lex_below hi m) (members d) = past after (under d p).
Proof.
  intros Hd Htext Ha.
  set (hi := full_key kv p +:+ String byte_ff "").
  set (lo := match after with Some x => LexExcl x | None => LexIncl (full_key kv p) end).
  exists lo, (LexExcl hi). split; [|split].
  - unfold lo, RedisKv.lex_min. destruct after; [apply parse_lex_excl|apply parse_lex_incl].
  - apply parse_lex_excl.
  - apply sorted_same.
    + by apply sorted_filter, members_sorted.
    + by apply past_sorted, under_sorted.
    + intros m. rewrite elem_of_past, elem_of_under, list_elem_of_filter.
      unfold members. rewrite elem_of_zmembers, Is_true_true, andb_true_iff.
      split.
      * intros [[Hlo Hhi] Hm]. specialize (Htext m Hm).
        apply bool_decide_eq_true in Hhi.
        assert (starts_with (full_key kv p) m = true) as Hsw.
        { apply (prefix_range _ _ Htext). split; [|done].
          unfold lo in Hlo. destruct after as [x|]; apply bool_decide_eq_true in Hlo; [|done].
          apply starts_with_spec in Ha as [r ->].
          etrans; [apply str_le_app_r|]. by apply str_lt_le. }
        split; [done|]. intros x ->. by apply bool_decide_eq_true in Hlo.
      * intros [[Hsw Hm] Hx]. specialize (Htext m Hm).
        apply (prefix_range _ _ Htext) in Hsw as [Hle Hlt].
        split; [|done]. split; [|by apply bool_decide_eq_true].
        unfold lo. destruct after as [x|]; apply bool_decide_eq_true; [|done].
        by apply Hx.
Qed.

Lemma range_reply t d p after n :
  indexed kv d → text_keys d → after_ok p after → is_i64 n = true →
  documented P t (ZRANGEBYLEX ki (RedisKv.lex_min kv p after) (RedisKv.lex_max kv p) (Some n)) d =
    (d, RStrs (limited (Some n) (past after (under d p)))).
Proof.
  intros Hd Htext Ha Hn. destruct (range_in_under d p after Hd Htext Ha) as (lo & hi & Hlo & Hhi & Hr).
  cbn [documented]. unfold limit_ok. rewrite Hn. cbn [negb]. rewrite Hlo, Hhi, <- Hr.
  unfold members, index_of, zset_of, with_zset. destruct Hd as [[Hi _ _ _ _] _].
  unfold zset_ok in Hi. destruct (d !! ki) as [[[v|z] e]|]; [done|done|].
  rewrite zitems_empty. unfold limited. cbn [fmap list_fmap]. rewrite filter_nil.
  destruct (_ || _); [done|by rewrite take_nil].
Qed.

(** ** One page *)

Lemma limited_page {A} (limit : Z) (l : list A) :
  1 ≤ limit < 2 ^ 63 - 1 →
  let l' := limited (Some (RedisKv.usize_succ limit)) l in
  RedisKv.truncate limit l' = take (Z.to_nat limit) l ∧
  RedisKv.longer_than l' limit = (limit <? Z.of_nat (length l)).
Proof.
  intros Hl. unfold RedisKv.usize_succ. rewrite Z.mod_small by lia.
  unfold limited, RedisKv.truncate, RedisKv.longer_than.
  assert ((limit + 1 <? 0) = false) as -> by (apply Z.ltb_ge; lia). cbn [orb].
  destruct (Z.leb_spec (Z.of_nat (length l)) (limit + 1)).
  - split; [|done]. destruct (Z.ltb_spec limit (Z.of_nat (length l))); [done|].
    rewrite take_ge by lia. done.
  - rewrite length_take. split.
    + destruct (Z.ltb_spec limit (Z.of_nat (Z.to_nat (limit + 1) `min` length l))); [|lia].
      rewrite take_take. f_equal. lia.
    + destruct (Z.ltb_spec limit (Z.of_nat (Z.to_nat (limit + 1) `min` length l)));
        destruct (Z.ltb_spec limit (Z.of_nat (length l))); try done; lia.
Qed.

Lemma strings_under d l :
  indexed kv d → (∀ m, m ∈ l → is_Some (index_of kv d !! m)) → strings d l.
Proof.
  intros [Hl _] Hm k v Hk Hv. destruct (Hm k Hk) as [x Hx].
  apply (layout_index_member _ _ Hl) in Hx as [_ [key ->]]. by eapply layout_data.
Qed.

Lemma data_args_under d l :
  indexed kv d → (∀ m, m ∈ l → is_Some (index_of kv d !! m)) → data_args ki ke l.
Proof.
  intros [Hl _] Hm. apply Forall_forall. intros m [x Hx]%Hm.
  apply (layout_index_member _ _ Hl) in Hx as [_ [key ->]].
  split; [by eapply full_key_ne_index|by eapply full_key_ne_expiry].
Qed.

Lemma index_page_quiet p after limit w :
  quiet w → let d := view (w_time w) (w_srv w) in
  indexed kv d → text_keys d → after_ok p after → 1 ≤ limit < 2 ^ 63 - 1 →
  let keys := past after (under d p) in
  let page := take (Z.to_nat limit) keys in
  ∃ s, RedisKv.index_page kv p after limit w =
         (set_srv s w,
          Ok (KvPage (found (w_time w) (w_time w + w_skew w) d page)
                (if limit <? Z.of_nat (length keys) then (λ k, "i" +:+ k) <$> last page else None))) ∧
       view (w_time w) s = foldl (prune_one ki ke) d (gone d page).
Proof.
  intros Hq d Hd Htext Ha Hlimit keys page. unfold RedisKv.index_page.
  set (n := RedisKv.usize_succ limit).
  assert (Hn : is_i64 n = true).
  { apply is_i64_spec. unfold n, RedisKv.usize_succ. rewrite Z.mod_small by lia.
    unfold in_i64, i64_min, i64_max. lia. }
  destruct (invoke_quiet_view
    (call (ZRANGEBYLEX ki (RedisKv.lex_min kv p after) (RedisKv.lex_max kv p) (Some n))) w d
    (Ok (RStrs (limited (Some n) keys)))) as (s & Hi & Hv); [done| |].
  { fold d. rewrite d_run_call_end, range_reply by done. done. }
  unfold cbind at 1, RedisKv.await, cmap_err, query. rewrite Hi. cbn [map_err].
  subst n. cbv iota beta.
  destruct (limited_page limit keys Hlimit) as [-> ->]. fold page.
  assert (Hpage : ∀ m, m ∈ page → is_Some (index_of kv d !! m)).
  { intros m Hm%elem_of_take_in. apply elem_of_past in Hm as [Hm _].
    by apply elem_of_under in Hm as [_ ?]. }
  destruct (fetch_quiet page true (set_srv s w)) as (s' & Hf & Hv'); [done| | |].
  { cbn [w_time w_srv set_srv]. rewrite Hv. by apply strings_under. }
  { intros _. cbn [w_time w_srv set_srv]. rewrite Hv. split; [by eapply data_args_under|].
    destruct Hd as [[] _]. by split. }
  cbn [w_time w_srv w_skew set_srv] in Hf, Hv'. rewrite Hv in Hf, Hv'.
  unfold cbind. rewrite Hf. exists s'. split; [done|]. exact Hv'.
Qed.

(** ** A pass *)

(** A caller that follows the cursors to the end. *)
Fixpoint list_all (ready : bool) (fuel page_fuel : nat) (p : string) (cursor : option string)
    (limit : Z) : client Srv cluster_error (list (string * entry)) :=
  match fuel with
  | O => cfail OutOfFuel
  | S fuel =>
      let! page := RedisKv.list_page kv ready page_fuel p cursor limit in
      match next page with
      | None => cret (entries page)
      | Some c =>
          let! rest := list_all ready fuel page_fuel p (Some c) limit in
          cret (entries page ++ rest)
      end
  end.

Lemma prune_one_index d k m :
  index_of kv (prune_one ki ke d k) !! m =
    if decide (m = k ∧ d !! k = None) then None else index_of kv d !! m.
Proof.
  unfold prune_one. destruct (d !! k) eqn:Hk.
  - rewrite decide_False; [done|]. naive_solver.
  - unfold index_of, drop_entries. rewrite zset_of_zrem_ne, zset_of_zrem
      by (apply not_eq_sym; by eapply index_ne_expiry).
    destruct (decide (m = k)) as [->|Hne].
    + rewrite lookup_delete_eq. by rewrite decide_True.
    + rewrite lookup_delete_ne by done. rewrite decide_False; [done|naive_solver].
Qed.

Lemma prune_index d keys m :
  (m ∉ keys → index_of kv (foldl (prune_one ki ke) d keys) !! m = index_of kv d !! m) ∧
  (is_Some (index_of kv (foldl (prune_one ki ke) d keys) !! m) → is_Some (index_of kv d !! m)).
Proof.
  revert d. induction keys as [|k keys IH]; intros d; simpl; [done|].
  destruct (IH (prune_one ki ke d k)) as [IH1 IH2]. split.
  - rewrite not_elem_of_cons. intros [Hk Hm]. etrans; [by apply IH1|].
    rewrite prune_one_index. rewrite decide_False; [done|naive_solver].
  - intros Hm%IH2. rewrite prune_one_index in Hm. case_decide; [by destruct Hm|done].
Qed.

Lemma prune_framed d keys : framed ki ke d (foldl (prune_one ki ke) d keys).
Proof.
  revert d. induction keys as [|k keys IH]; intros d; simpl; [done|].
  etrans; [apply framed_prune|apply IH].
Qed.

Lemma prune_indexed d keys :
  indexed kv d → data_keys kv keys → indexed kv (foldl (prune_one ki ke) d keys).
Proof.
  intros Hd Hk. eapply (safe_indexed kv); [|exact Hd].
  apply safe_foldl; [|done|apply Hd]. intros. by eapply safe_prune_one.
Qed.

Lemma found_framed t now d d' keys :
  framed ki ke d d' → data_args ki ke keys → found t now d' keys = found t now d keys.
Proof.
  intros Hf Hk. unfold found, entry_at. induction Hk as [|k keys [Hki Hke] _ IH]; [done|].
  cbn [omap list_omap]. rewrite Hf by done.
  destruct (d !! k) as [[[v|z] e]|]; cbn [fmap option_fmap option_map]; [f_equal| |]; exact IH.
Qed.

(** After a page, what is past the cursor is the rest of what was. *)
Lemma page_rest d p after n x :
  indexed kv d →
  let keys := past after (under d p) in
  last (take n keys) = Some x →
  let d' := foldl (prune_one ki ke) d (gone d (take n keys)) in
  past (Some x) (under d' p) = drop n keys.
Proof.
  intros Hd keys Hx d'.
  assert (Hkeys : str_sorted keys) by by apply past_sorted, under_sorted.
  assert (Hgone : data_keys kv (gone d (take n keys))).
  { apply Forall_forall. intros m [_ Hm%elem_of_take_in]%list_elem_of_filter.
    apply elem_of_past in Hm as [Hm _]. apply elem_of_under in Hm as [_ [y Hy]].
    destruct Hd as [Hl _]. by apply (layout_index_member _ _ Hl) in Hy as [_ ?]. }
  rewrite <- (sorted_drop n keys x) by done. apply sorted_same.
  - by apply past_sorted, under_sorted, prune_indexed.
  - by apply sorted_filter.
  - intros m. change (filter (str_lt x) keys) with (past (Some x) keys).
    rewrite elem_of_past, elem_of_under, (elem_of_past (Some x)). unfold keys at 1.
    rewrite elem_of_past, elem_of_under.
    pose proof (last_Some_elem_of _ _ Hx) as Hxin%elem_of_take_in.
    apply elem_of_past in Hxin as [_ Hxa].
    destruct (prune_index d (gone d (take n keys)) m) as [Hsame Hsome]. fold d' in Hsame, Hsome.
    split.
    + intros [[Hsw Hm] Hlt]. specialize (Hlt x eq_refl).
      split; [|by intros ? [= <-]]. split; [by auto|]. intros a Ha. etrans; [by apply Hxa|done].
    + intros [[[Hsw Hm] _] Hlt]. split; [|done]. split; [done|]. rewrite Hsame; [done|].
      intros [_ Hin]%list_elem_of_filter. specialize (Hlt x eq_refl).
      (* nothing on the page is past its last key *)
      apply last_Some in Hx as [l Hl].
      rewrite <- (take_drop n keys) in Hkeys. apply StronglySorted_app in Hkeys as (_ & Hs & _).
      rewrite Hl in Hs, Hin. apply StronglySorted_app in Hs as (Hs & _ & _).
      apply elem_of_app in Hin as [Hin|Hin%list_elem_of_singleton].
      * eapply str_lt_irrefl. etrans; [exact Hlt|]. apply Hs; [done|]. by apply list_elem_of_singleton.
      * subst m. by eapply str_lt_irrefl.
Qed.

Lemma page_next {A} n (l : list A) :
  (0 < n)%nat → (n < length l)%nat → is_Some (last (take n l)).
Proof.
  intros Hn Hl. apply last_is_Some. intros E. apply (f_equal length) in E.
  rewrite length_take in E. simpl in E. lia.
Qed.

Lemma list_all_quiet fuel pf p after limit w :
  quiet w → let d := view (w_time w) (w_srv w) in
  indexed kv d → text_keys d → after_ok p after → 1 ≤ limit < 2 ^ 63 - 1 →
  let keys := past after (under d p) in
  (length keys < fuel)%nat →
  ∃ s, list_all true fuel pf p ((λ x, "i" +:+ x) <$> after) limit w =
         (set_srv s w, Ok (found (w_time w) (w_time w + w_skew w) d keys)) ∧
       framed ki ke d (view (w_time w) s).
Proof.
  revert after w. induction fuel as [|fuel IH]; intros after w Hq d Hd Htext Ha Hlimit keys Hfuel;
    [lia|]. simpl.
  assert (Hlist : RedisKv.list_page kv true pf p ((λ x, "i" +:+ x) <$> after) limit =
                  RedisKv.index_page kv p after limit).
  { unfold RedisKv.list_page. destruct after as [x|]; cbn [fmap option_fmap option_map].
    - rewrite strip_prefix_append. by rewrite Z.max_r by lia.
    - by rewrite Z.max_r by lia. }
  rewrite Hlist. clear Hlist.
  destruct (index_page_quiet p after limit w) as (s & Hp & Hv); [done..|].
  fold d keys in Hp, Hv. unfold cbind at 1. rewrite Hp. cbn [next entries].
  set (n := Z.to_nat limit) in *. set (page := take n keys) in *.
  assert (Hf : framed ki ke d (view (w_time w) s)) by (rewrite Hv; apply prune_framed).
  destruct (Z.ltb_spec limit (Z.of_nat (length keys))) as [Hmore|Hlast].
  - destruct (page_next n keys) as [x Hx]; [lia|lia|]. fold page in Hx. rewrite Hx.
    cbn [fmap option_fmap option_map].
    assert (Hrest : past (Some x) (under (view (w_time w) s) p) = drop n keys)
      by (rewrite Hv; by apply page_rest).
    pose proof (last_Some_elem_of _ _ Hx) as Hxin%elem_of_take_in.
    destruct (IH (Some x) (set_srv s w)) as (s' & Hall & Hf'); try done.
    + cbn [w_time w_srv set_srv]. rewrite Hv. apply prune_indexed; [done|].
      apply Forall_forall. intros m [_ Hm%elem_of_take_in]%list_elem_of_filter.
      apply elem_of_past in Hm as [Hm _]. apply elem_of_under in Hm as [_ [y Hy]].
      destruct Hd as [Hl _]. by apply (layout_index_member _ _ Hl) in Hy as [_ ?].
    + cbn [w_time w_srv set_srv]. rewrite Hv. intros m Hm. apply Htext.
      by eapply prune_index.
    + apply elem_of_past in Hxin as [Hxin _]. by apply elem_of_under in Hxin as [? _].
    + cbn [w_time w_srv set_srv]. rewrite Hrest, length_drop. lia.
    + cbn [w_time w_srv w_skew set_srv] in Hall, Hf'. rewrite Hrest in Hall.
      exists s'. split; [|by etrans].
      cbn [fmap option_fmap option_map] in Hall.
      unfold cbind. rewrite Hall. unfold cret. f_equal. f_equal.
      rewrite (found_framed _ _ d (view (w_time w) s)) by (done || (eapply data_args_under; [exact Hd|];
        intros m Hm%elem_of_drop_in; apply elem_of_past in Hm as [Hm _];
        by apply elem_of_under in Hm as [_ ?])).
      unfold found, page. rewrite <- omap_app. by rewrite take_drop.
  - exists s. split; [|done]. cbn [next]. unfold cret, page. rewrite take_ge by lia. done.
Qed.
(** ** What a listing says of the keys *)

Lemma elem_of_found t now d keys key e :
  data_keys kv keys →
  (key, e) ∈ found t now d keys ↔
  full_key kv key ∈ keys ∧ entry_at t now d (full_key kv key) = Some e.
Proof.
  intros Hk. unfold found. rewrite list_elem_of_omap. split.
  - intros (k & Hin & He). destruct (entry_at t now d k) as [e'|] eqn:Hent; [|done].
    injection He as <- <-. destruct (proj1 (Forall_forall _ _) Hk k Hin) as [key' ->].
    by rewrite (logical_full_key kv prefix eq_refl Hprefix).
  - intros [Hin He]. exists (full_key kv key). split; [done|].
    by rewrite He, (logical_full_key kv prefix eq_refl Hprefix).
Qed.

Lemma full_key_lt a b : str_lt (full_key kv a) (full_key kv b) ↔ str_lt a b.
Proof.
  unfold str_lt. rewrite !(full_key_suffix kv prefix eq_refl Hprefix). simpl.
  by rewrite !compare_app_same.
Qed.

Lemma full_key_prefix p key :
  starts_with (full_key kv p) (full_key kv key) = starts_with p key.
Proof.
  apply eq_true_iff_eq. rewrite !starts_with_spec. split.
  - intros [r Hr]. exists r. rewrite <- (full_key_app kv prefix eq_refl Hprefix) in Hr.
    by eapply full_key_inj in Hr.
  - intros [r ->]. exists r. by apply (full_key_app kv prefix).
Qed.

Lemma found_sorted t now d keys :
  str_sorted keys → data_keys kv keys → str_sorted (found t now d keys).*1.
Proof.
  induction 1 as [|k keys Hs IH Hk]; intros Hdata; [constructor|].
  apply Forall_cons in Hdata as [[key ->] Hdata]. specialize (IH Hdata).
  unfold found in *. cbn [omap list_omap].
  destruct (entry_at t now d (full_key kv key)) as [e|]; [|done]. cbn [fmap option_fmap option_map].
  rewrite fmap_cons. constructor; [done|]. apply Forall_forall. simpl.
  rewrite (logical_full_key kv prefix eq_refl Hprefix).
  intros key' ([key'' e'] & -> & Hin)%list_elem_of_fmap.
  apply (elem_of_found t now d keys key'' e' Hdata) in Hin as [Hin _].
  apply full_key_lt. by apply (proj1 (Forall_forall _ _) Hk).
Qed.

Lemma under_data d p : indexed kv d → data_keys kv (under d p).
Proof.
  intros [Hl _]. apply Forall_forall. intros m [_ [x Hx]]%elem_of_under.
  by apply (layout_index_member _ _ Hl) in Hx as [_ ?].
Qed.

Lemma under_size d p : (length (under d p) ≤ size (index_of kv d))%nat.
Proof.
  unfold under, members. etrans; [apply length_filter|]. rewrite length_fmap.
  unfold zitems. rewrite merge_sort_Permutation, length_fmap. by rewrite length_map_to_list.
Qed.

Lemma entry_at_Some t now d k e : entry_at t now d k = Some e → is_Some (d !! k).
Proof. unfold entry_at. destruct (d !! k); [eauto|done]. Qed.
End pages.
