(* ===== verification/KvScan.v ===== *)
(** * Listings by [SCAN]

    Before the key index is complete, [list_page] ([src/src/state/kv.rs])
    pages through a [SCAN] pass; matches that do not fit ride in the cursor.
    Following the cursors to the end is one pass, and nothing is lost between
    its pages. *)

From S2P Require Import Prelude Redis Client DbFacts Keys KvScripts KvIndex KvStore KvListing.

Section passes.
Context {Srv : Type} `{RedisLaws Srv}.
Local Abbreviation P := (srv_policy (Srv := Srv)).

Lemma happens_mono (Q Q' : db → Prop) (st st' : Z * Srv) :
  (∀ d, Q d → Q' d) → rtc (happens_in Q) st st' → rtc (happens_in Q') st st'.
Proof. intros HQ. apply rtc_subrel. intros ?? []. split; auto. Qed.

Lemma scan_pass_mono pat n (Q Q' : db → Prop) c (st : Z * Srv) ks :
  (∀ d, Q d → Q' d) → scan_pass pat n Q c st ks → scan_pass pat n Q' c st ks.
Proof.
  intros HQ. induction 1; [by eapply pass_last; auto|].
  eapply pass_step; eauto. by eapply happens_mono.
Qed.

Lemma scan_unfinished_mono pat n (Q Q' : db → Prop) m c (st : Z * Srv) :
  (∀ d, Q d → Q' d) → scan_unfinished pat n Q m c st → scan_unfinished pat n Q' m c st.
Proof.
  intros HQ. induction 1; [constructor|]. econstructor; eauto. by eapply happens_mono.
Qed.

(** A pass that starts later. *)
Definition pass_from (pat : string) (n : nat) (Q : db → Prop) (c : Z) (st : Z * Srv)
    (ks : list string) : Prop :=
  ∃ st', rtc (happens_in Q) st st' ∧ scan_pass pat n Q c st' ks.

Lemma pass_from_later pat n Q c (st st' : Z * Srv) ks :
  rtc (happens_in Q) st st' → pass_from pat n Q c st' ks → pass_from pat n Q c st ks.
Proof. intros Hst (st2 & Hst2 & Hp). exists st2. split; [by etrans|done]. Qed.

Lemma pass_from_step pat n Q c t (s s1 : Srv) next b ks :
  Q (view t s) → scan t c pat n s = (s1, (next, b)) → next ≠ 0 →
  pass_from pat n Q next (t, s1) ks → pass_from pat n Q c (t, s) (b ++ ks).
Proof.
  intros HQ Hs Hn (st' & Hst & Hp). exists (t, s). split; [done|]. by eapply pass_step.
Qed.

(** The steps that a pass from here can still take are at most [N]. *)
Definition steps_left (pat : string) (n : nat) (Q : db → Prop) (c : Z) (st : Z * Srv) (N : nat) : Prop :=
  ∀ m st', rtc (happens_in Q) st st' → scan_unfinished pat n Q m c st' → (m ≤ N)%nat.

Lemma steps_left_step pat n Q c t (s s1 : Srv) next b N :
  Q (view t s) → scan t c pat n s = (s1, (next, b)) → next ≠ 0 →
  steps_left pat n Q c (t, s) N → ∃ N', N = S N' ∧ steps_left pat n Q next (t, s1) N'.
Proof.
  intros HQ Hs Hn HN.
  assert (∀ m st', rtc (happens_in Q) (t, s1) st' → scan_unfinished pat n Q m next st' → (S m ≤ N)%nat)
    as Hm.
  { intros m st' Hst Hm. apply (HN _ (t, s)); [done|]. by econstructor. }
  destruct N as [|N']; [specialize (Hm 0%nat _ (rtc_refl _ _) (unfinished_nil _ _ _ _ _)); lia|].
  exists N'. split; [done|]. intros m st' Hst Hu. specialize (Hm m st' Hst Hu). lia.
Qed.

Lemma steps_left_later pat n Q c (st st' : Z * Srv) N :
  rtc (happens_in Q) st st' → steps_left pat n Q c st N → steps_left pat n Q c st' N.
Proof. intros Hst HN m st2 Hst2. apply HN. by etrans. Qed.

(** A keyspace that does not change lets a pass take finitely many steps. *)
Lemma steps_bounded pat n (d : db) (st : Z * Srv) :
  (0 < n)%nat → ∃ N, steps_left pat n (λ d', d' = d) 0 st N.
Proof.
  intros Hn. destruct (scan_terminates pat n (dom d) st Hn) as [N HN].
  exists N. intros m st' Hst Hm. apply (HN m st').
  - eapply happens_mono; [|exact Hst]. by intros ? ->.
  - eapply scan_unfinished_mono; [|exact Hm]. by intros ? ->.
Qed.

(** Reads are steps between two [SCAN]s. *)
Lemma send_all_happens cs (w : world Srv) d :
  quiet w → Forall reads cs → view (w_time w) (w_srv w) = d →
  rtc (happens_in (λ d', d' = d)) (w_time w, w_srv w) (w_time w, w_srv (send_all cs w).1).
Proof.
  intros Hq Hcs. revert w Hq. induction Hcs as [|c cs Hc _ IH]; intros w Hq Hv; simpl; [done|].
  unfold cbind at 1.
  pose proof (invoke_quiet (pcall c) w Hq) as Hi. rewrite Hi.
  set (s := (run (w_time w) (pcall c) (w_srv w)).1) in *.
  assert (view (w_time w) s = d) as Hs.
  { unfold s. destruct (run_view (w_time w) (pcall c) (w_srv w)) as [-> _]. rewrite Hv. simpl.
    specialize (Hc (w_time w) d). by destruct (documented P (w_time w) c d). }
  eapply rtc_l; [split; [exact (happens_run (w_time w) (pcall c) (w_srv w))|exact Hs]|].
  destruct (run (w_time w) (pcall c) (w_srv w)).2 as [r|e]; [|done].
  specialize (IH (set_srv s w) Hq Hs). unfold cbind at 1.
  cbn [w_time w_srv set_srv] in IH. destruct (send_all cs (set_srv s w)) as [w' [rs|e]]; exact IH.
Qed.

Lemma pipeline_happens cs (w : world Srv) d :
  quiet w → Forall reads cs → view (w_time w) (w_srv w) = d →
  rtc (happens_in (λ d', d' = d)) (w_time w, w_srv w) (w_time w, w_srv (pipeline cs w).1).
Proof.
  intros Hq Hcs Hv. pose proof (send_all_happens cs w d Hq Hcs Hv) as Hs.
  unfold pipeline, cbind. destruct (send_all cs w) as [w' [rs|e]]; [|done].
  by destruct (first_error rs).
Qed.
End passes.

Section scan_pages.
Context {Srv : Type} `{RedisLaws Srv} `{CursorJsonLaws} (prefix : string).
Context (Hprefix : is_empty prefix = false).
Local Abbreviation P := (srv_policy (Srv := Srv)).
Local Abbreviation kv := (with_connection_manager prefix).

(** A pass of the listing of [p] over the database [d], which nobody
    changes. *)
Context (p : string) (limit : Z) (Hlimit : 1 ≤ limit) (d : db) (Hd : layout kv d).
Local Abbreviation pattern := (glob_escape (full_key kv p) +:+ "*").
Local Abbreviation same := (λ d' : db, d' = d).
Local Abbreviation pass := (pass_from (Srv := Srv) pattern SCAN_COUNT same).
Local Abbreviation left := (steps_left (Srv := Srv) pattern SCAN_COUNT same).

(** The keys that a pass may return. *)
Definition listed (k : string) : Prop :=
  is_Some (d !! k) ∧ starts_with (full_key kv p) k = true.

Lemma listed_data k : listed k → ∃ key, k = full_key kv key.
Proof.
  intros [_ [r ->]%starts_with_spec]. exists (p +:+ r). symmetry. by apply (full_key_app kv prefix).
Qed.

Lemma strings_listed keys : Forall listed keys → strings d keys.
Proof.
  intros Hk k v Hin. apply (proj1 (Forall_forall _ _) Hk) in Hin.
  destruct (listed_data k Hin) as [key ->]. by apply (layout_data _ _ Hd).
Qed.

Lemma batch_listed t c (s s' : Srv) next b :
  view t s = d → scan t c pattern SCAN_COUNT s = (s', (next, b)) → Forall listed b ∧ view t s' = d.
Proof.
  intros Hv Hs. pose proof (scan_view t c pattern SCAN_COUNT s) as Hv'.
  pose proof (scan_sound t c pattern SCAN_COUNT s) as Hk. rewrite Hs in Hv', Hk. simpl in *.
  split; [|congruence]. apply Forall_forall. intros k [Hin Hg]%Hk. rewrite Hv in Hin.
  split; [done|]. by rewrite glob_escape_star in Hg.
Qed.

(** What [scan_fill] adds to the keys it has. *)
Record filled (keys : list string) (c : Z) (over : bool) (N : nat) (st : Z * Srv)
    (b : list string) (c' : Z) (over' : bool) (N' : nat) (st' : Z * Srv) : Prop := {
  filled_enough : over' = false → limit ≤ Z.of_nat (length (keys ++ b));
  filled_listed : Forall listed b;
  filled_over : over = true → b = [] ∧ over' = true;
  filled_last : over = false → over' = true → pass c st b;
  filled_more : over = false → over' = false →
    left c' st' N' ∧ (∀ ks, pass c' st' ks → pass c st (b ++ ks)) ∧
    ((N' < N)%nat ∨ (N' = N ∧ b = []));
  filled_same : view st'.1 st'.2 = d;
}.

Lemma query_scan_quiet c w next b s' :
  quiet w → scan (w_time w) c pattern SCAN_COUNT (w_srv w) = (s', (next, b)) →
  query_scan c pattern SCAN_COUNT w = (set_srv s' w, Ok (next, b)).
Proof. intros Hq Hs. unfold query_scan. rewrite request_quiet by done. by rewrite Hs. Qed.

Lemma scan_fill_over fuel keys c :
  RedisKv.scan_fill fuel pattern limit keys c true = cret (Srv := Srv) (keys, c, true).
Proof. destruct fuel; simpl; by rewrite andb_false_r. Qed.

Lemma scan_fill_quiet fuel keys c over w N :
  quiet w → view (w_time w) (w_srv w) = d →
  (over = false → left c (w_time w, w_srv w) N) → (N < fuel)%nat →
  ∃ s b c' over' N',
    RedisKv.scan_fill fuel pattern limit keys c over w =
      (set_srv s w, Ok (keys ++ b, c', over')) ∧
    filled keys c over N (w_time w, w_srv w) b c' over' N' (w_time w, s).
Proof.
  intros Hq Hv. revert keys c over w N Hq Hv.
  induction fuel as [|fuel IH]; intros keys c over w N Hq Hv HN Hfuel; [lia|]. simpl.
  destruct over; rewrite ?andb_false_r, ?andb_true_r; cbn [negb].
  { exists (w_srv w), [], c, true, N. rewrite app_nil_r. split; [by destruct w|]. by split. }
  specialize (HN eq_refl).
  destruct (Z.ltb_spec (Z.of_nat (length keys)) limit) as [Hless|Henough]; cbn [andb negb].
  2:{ exists (w_srv w), [], c, false, N. split; [rewrite app_nil_r; by destruct w|].
      split; rewrite ?app_nil_r; try done. intros _ _. split; [done|]. auto. }
  destruct (scan (w_time w) c pattern SCAN_COUNT (w_srv w)) as [s1 [next b]] eqn:Hs.
  destruct (batch_listed _ _ _ _ _ _ Hv Hs) as [Hb Hv1].
  unfold cbind at 1, RedisKv.await, cmap_err. rewrite (query_scan_quiet _ _ next b s1) by done.
  cbn [map_err].
  destruct (Z.eqb_spec next 0) as [->|Hnext].
  - exists s1, b, 0, true, N. rewrite scan_fill_over. split; [done|].
    split; try done. intros _ _. exists (w_time w, w_srv w). split; [done|]. by eapply pass_last.
  - destruct (steps_left_step _ _ _ _ _ _ _ _ _ N Hv Hs Hnext HN) as (N1 & -> & HN1).
    destruct (IH (keys ++ b) next false (set_srv s1 w) N1) as (s & b' & c' & over' & N' & Hf & Hfill);
      [done|done|done|lia|].
    rewrite <- app_assoc in Hf.
    exists s, (b ++ b'), c', over', N'. split; [exact Hf|].
    destruct Hfill as [He Hl Ho Hlast Hmore Hsame].
    split; try done.
    + intros Ho'. specialize (He Ho'). by rewrite <- app_assoc in He.
    + by apply Forall_app.
    + intros _ Ho'. eapply pass_from_step; [exact Hv|exact Hs|done|]. by apply Hlast.
    + intros _ Ho'. destruct (Hmore eq_refl Ho') as (HN' & Hks & Hlt).
      split; [done|]. split; [|lia]. intros ks Hp. rewrite <- app_assoc.
      eapply pass_from_step; [exact Hv|exact Hs|done|]. by apply Hks.
Qed.

Lemma fetch_happens keys w :
  quiet w → view (w_time w) (w_srv w) = d →
  rtc (happens_in same) (w_time w, w_srv w)
    (w_time w, w_srv (RedisKv.fetch_entries kv keys false w).1).
Proof.
  intros Hq Hv. unfold RedisKv.fetch_entries. destruct keys as [|k keys]; [done|].
  unfold cbind at 1, RedisKv.await, cmap_err.
  pose proof (pipeline_happens (RedisKv.get_cmds (k :: keys)) w d Hq) as Hp.
  destruct (pipeline (RedisKv.get_cmds (k :: keys)) w) as [w' [rs|e]].
  - unfold cbind at 1, system_now. cbn [map_err].
    destruct (RedisKv.split_replies kv (w_time w' + w_skew w') (k :: keys) rs). apply Hp; [|done].
    clear. induction (k :: keys) as [|k' keys' IH]; simpl; [constructor|].
    constructor; [intros ??; simpl; by repeat case_match|]. by constructor.
  - apply Hp; [|done].
    clear. induction (k :: keys) as [|k' keys' IH]; simpl; [constructor|].
    constructor; [intros ??; simpl; by repeat case_match|]. by constructor.
Qed.

Lemma split_off_spec {A} (l : list A) :
  RedisKv.split_off limit l = (take (Z.to_nat limit) l, drop (Z.to_nat limit) l).
Proof.
  unfold RedisKv.split_off, RedisKv.longer_than.
  destruct (Z.ltb_spec limit (Z.of_nat (length l))); [done|].
  rewrite take_ge, drop_ge by lia. done.
Qed.

(** One page from a cursor state. *)
Lemma scan_page_quiet pf st w N :
  quiet w → view (w_time w) (w_srv w) = d → Forall listed (pending st) →
  (done_ st = false → left (scan_at st) (w_time w, w_srv w) N) → (N < pf)%nat →
  ∃ s b c' over' N' next,
    RedisKv.scan_page kv pf p st limit w =
      (set_srv s w,
       Ok (KvPage (found prefix (w_time w) (w_time w + w_skew w) d
                     (take (Z.to_nat limit) (pending st ++ b))) next)) ∧
    (let rest := drop (Z.to_nat limit) (pending st ++ b) in
     if over' && bool_decide (rest = []) then next = None
     else ∃ j, next = Some ("s" +:+ j) ∧ cursor_from_str j = Some (ScanCursor c' rest over')) ∧
    filled (pending st) (scan_at st) (done_ st) N (w_time w, w_srv w) b c' over' N' (w_time w, s).
Proof.
  intros Hq Hv Hpend HN Hpf. unfold RedisKv.scan_page.
  destruct (scan_fill_quiet pf (pending st) (scan_at st) (done_ st) w N) as
    (s & b & c' & over' & N' & Hf & Hfill); [done..|].
  unfold cbind at 1. rewrite Hf. rewrite split_off_spec.
  set (page := take (Z.to_nat limit) (pending st ++ b)).
  set (rest := drop (Z.to_nat limit) (pending st ++ b)).
  set (nextm := if over' && bool_decide (rest = []) then _ else _).
  assert (∃ next, nextm (set_srv s w) = (set_srv s w, Ok next) ∧
            if over' && bool_decide (rest = []) then next = None
            else ∃ j, next = Some ("s" +:+ j) ∧ cursor_from_str j = Some (ScanCursor c' rest over'))
    as (next & Hnext & Hcur).
  { unfold nextm. destruct (over' && bool_decide (rest = [])); [by eexists|].
    pose proof (cursor_encodes (ScanCursor c' rest over')) as He.
    destruct (cursor_to_string (ScanCursor c' rest over')) as [j|e] eqn:Hj; [|done].
    apply cursor_roundtrip in Hj. eexists; split; [done|]. eauto. }
  assert (Hlp : Forall listed page).
  { apply Forall_take, Forall_app. split; [done|].
    exact (filled_listed _ _ _ _ _ _ _ _ _ _ Hfill). }
  assert (Hvs : view (w_time w) s = d) by exact (filled_same _ _ _ _ _ _ _ _ _ _ Hfill).
  destruct (fetch_quiet prefix page false (set_srv s w)) as (s' & Hg & Hv'); [done| |done|].
  { cbn [w_time w_srv set_srv]. rewrite Hvs. by apply strings_listed. }
  pose proof (fetch_happens page (set_srv s w) Hq Hvs) as Hhap.
  cbn [w_time w_srv w_skew set_srv] in Hg, Hv', Hhap. rewrite Hvs in Hg, Hv'.
  rewrite Hg in Hhap. cbn [fst w_srv set_srv] in Hhap.
  exists s', b, c', over', N', next. unfold cbind. rewrite Hnext, Hg. split; [done|]. split; [done|].
  destruct Hfill as [He Hl Ho Hlast Hmore Hsame]. split; try done.
  intros Ho1 Ho2. destruct (Hmore Ho1 Ho2) as (HN' & Hks & Hlt).
  split; [by eapply steps_left_later|]. split; [|done].
  intros ks Hp. apply Hks. by eapply pass_from_later.
Qed.

Local Abbreviation all fuel pf cursor :=
  (list_all (Srv := Srv) prefix false fuel pf p cursor limit).

(** The rest of the pass from a cursor state. *)
Definition rest_of (fuel pf : nat) (st : scan_cursor) :
    client Srv cluster_error (list (string * entry)) :=
  let! page := RedisKv.scan_page kv pf p st limit in
  match next page with
  | None => cret (entries page)
  | Some c => let! rest := all fuel pf (Some c) in cret (entries page ++ rest)
  end.

Lemma list_all_state fuel pf j st :
  cursor_from_str j = Some st → all (S fuel) pf (Some ("s" +:+ j)) = rest_of fuel pf st.
Proof.
  intros Hj. cbn [list_all]. unfold RedisKv.list_page.
  assert (strip_prefix "i" ("s" +:+ j) = None) as -> by done.
  rewrite strip_prefix_append. unfold RedisKv.scan_state. rewrite Hj.
  rewrite Z.max_r by lia. done.
Qed.

Lemma list_all_start fuel pf : all (S fuel) pf None = rest_of fuel pf scan_cursor_default.
Proof. cbn [list_all]. unfold RedisKv.list_page. rewrite Z.max_r by lia. done. Qed.

Lemma found_app t now l1 l2 :
  found prefix t now d (l1 ++ l2) = found prefix t now d l1 ++ found prefix t now d l2.
Proof. apply omap_app. Qed.

(** From the state, the listing ends, and lists what is pending and what
    the rest of the server's pass returns. *)
Definition completes (pf : nat) (st : scan_cursor) (w : world Srv) : Prop :=
  ∃ fuel s ks,
    rest_of fuel pf st w =
      (set_srv s w, Ok (found prefix (w_time w) (w_time w + w_skew w) d (pending st ++ ks))) ∧
    Forall listed ks ∧ (done_ st = false → pass (scan_at st) (w_time w, w_srv w) ks) ∧
    (done_ st = true → ks = []).

(** What the next page's state is closer to the end by. *)
Definition closer (st : scan_cursor) (N : nat) (st' : scan_cursor) (N' : nat) : Prop :=
  let shorter := (length (pending st') < length (pending st))%nat in
  if done_ st' then done_ st = true → shorter
  else done_ st = false ∧ ((N' < N)%nat ∨ N' = N ∧ shorter).

Lemma page_closer st N b c' over' N' stt stt' :
  let rest := drop (Z.to_nat limit) (pending st ++ b) in
  over' && bool_decide (rest = []) = false →
  filled (pending st) (scan_at st) (done_ st) N stt b c' over' N' stt' →
  closer st N (ScanCursor c' rest over') N'.
Proof.
  intros rest Hend [Henough _ Ho _ Hmore _]. unfold closer. cbn [done_ pending].
  destruct over'; cbn [andb] in Hend.
  - apply bool_decide_eq_false in Hend. intros Hst. destruct (Ho Hst) as [-> _].
    unfold rest in *. rewrite app_nil_r in *. rewrite length_drop.
    destruct (pending st); simpl; [by rewrite drop_nil in Hend|lia].
  - destruct (done_ st); [by destruct (Ho eq_refl)|]. split; [done|].
    destruct (Hmore eq_refl eq_refl) as (_ & _ & [?|[-> ->]]); [by left|right]. split; [done|].
    specialize (Henough eq_refl). unfold rest. rewrite app_nil_r in *. rewrite length_drop. lia.
Qed.

Lemma rest_of_step pf N st w :
  quiet w → view (w_time w) (w_srv w) = d → Forall listed (pending st) →
  (done_ st = false → left (scan_at st) (w_time w, w_srv w) N) → (N < pf)%nat →
  (∀ st' s N',
     view (w_time w) s = d → Forall listed (pending st') →
     (done_ st' = false → left (scan_at st') (w_time w, s) N') →
     closer st N st' N' → completes pf st' (set_srv s w)) →
  completes pf st w.
Proof.
  intros Hq Hv Hpend HN Hpf Hnext.
  destruct (scan_page_quiet pf st w N) as (s & b & c' & over' & N' & nxt & Hp & Hcur & Hfill); [done..|].
  cbv zeta in Hcur.
  pose proof (page_closer st N b c' over' N' (w_time w, w_srv w) (w_time w, s)) as Hcloser. cbv zeta in Hcloser.
  set (rest := drop (Z.to_nat limit) (pending st ++ b)) in *.
  pose proof (take_drop (Z.to_nat limit) (pending st ++ b)) as Hsplit. fold rest in Hsplit.
  destruct (over' && bool_decide (rest = [])) eqn:Hend.
  - destruct Hfill as [_ Hl Ho Hlast _ _].
    apply andb_true_iff in Hend as [-> Hrest%bool_decide_eq_true]. rewrite Hrest in Hsplit.
    subst nxt. exists 0%nat, s, b.
    split; [|split; [done|split; [auto|intros Hst; by destruct (Ho Hst)]]].
    unfold rest_of, cbind. rewrite Hp. cbn [next entries]. unfold cret.
    rewrite app_nil_r in Hsplit. by rewrite Hsplit.
  - specialize (Hcloser eq_refl Hfill).
    destruct Hfill as [_ Hl Ho Hlast Hmore Hsame]. simpl in Hsame.
    destruct Hcur as (j & -> & Hj).
    destruct (Hnext (ScanCursor c' rest over') s N') as (fuel & s' & ks & Hr & Hks & Hpass & Hover);
      [done|by apply Forall_drop, Forall_app| |done|].
    { cbn [done_ scan_at]. intros ->. destruct (done_ st); [by destruct (Ho eq_refl)|].
      by destruct (Hmore eq_refl eq_refl). }
    cbn [done_ scan_at pending w_time w_srv w_skew set_srv] in Hr, Hpass, Hover.
    exists (S fuel), s', (b ++ ks). split; [|split; [|split]].
    + unfold rest_of at 1, cbind at 1. rewrite Hp. cbn [next entries].
      rewrite (list_all_state fuel pf j _ Hj). unfold cbind. rewrite Hr. unfold cret.
      do 2 f_equal. rewrite <- found_app, !app_assoc, Hsplit. done.
    + by apply Forall_app.
    + intros Hst. destruct over'.
      * rewrite Hover by done. rewrite app_nil_r. auto.
      * destruct (Hmore Hst eq_refl) as (_ & Hks' & _). auto.
    + intros Hst. destruct (Ho Hst) as [-> ->]. by apply Hover.
Qed.

Lemma rest_of_over pf : ∀ len st w,
  (length (pending st) < len)%nat → done_ st = true → quiet w → view (w_time w) (w_srv w) = d →
  Forall listed (pending st) → (0 < pf)%nat → completes pf st w.
Proof.
  induction len as [|len IH]; intros st w Hlen Hst Hq Hv Hpend Hpf; [lia|].
  apply (rest_of_step pf 0); [done|done|done|by rewrite Hst|done|].
  intros st' s N' Hv' Hpend' _ Hcloser. unfold closer in Hcloser.
  destruct (done_ st') eqn:Hst'; [|by rewrite Hst in Hcloser; destruct Hcloser].
  apply IH; try done. specialize (Hcloser Hst). lia.
Qed.

Lemma rest_of_quiet pf N : ∀ len st w,
  (length (pending st) < len)%nat → quiet w → view (w_time w) (w_srv w) = d →
  Forall listed (pending st) → (done_ st = false → left (scan_at st) (w_time w, w_srv w) N) →
  (N < pf)%nat → completes pf st w.
Proof.
  induction N as [N IHN] using lt_wf_ind.
  induction len as [|len IHlen]; intros st w Hlen Hq Hv Hpend HN Hpf; [lia|].
  apply (rest_of_step pf N); try done.
  intros st' s N' Hv' Hpend' HN' Hcloser. unfold closer in Hcloser.
  destruct (done_ st') eqn:Hst'.
  - apply (rest_of_over pf (S (length (pending st')))); try done; lia.
  - destruct Hcloser as [_ [Hlt|[-> Hlt]]].
    + apply (IHN N' Hlt (S (length (pending st')))); try done; [lia|by rewrite Hst'|lia].
    + apply IHlen; try done; [lia|by rewrite Hst'].
Qed.

(** The whole listing: every listed key's entry, and nothing else. *)
Lemma list_all_scan w :
  quiet w → view (w_time w) (w_srv w) = d →
  ∃ fuel pf s keys,
    all fuel pf None w =
      (set_srv s w, Ok (found prefix (w_time w) (w_time w + w_skew w) d keys)) ∧
    ∀ k, k ∈ keys ↔ listed k.
Proof.
  intros Hq Hv.
  destruct (steps_bounded (Srv := Srv) pattern SCAN_COUNT d (w_time w, w_srv w)) as [N HN];
    [unfold SCAN_COUNT; lia|].
  destruct (rest_of_quiet (S N) N 1 scan_cursor_default w) as (fuel & s & ks & Hr & Hks & Hpass & _);
    [simpl; lia|done|done|by constructor|done|lia|].
  exists (S fuel), (S N), s, ks. rewrite list_all_start. split; [exact Hr|].
  intros k. split; [by apply Forall_forall|]. intros [Hk Hsw].
  destruct (Hpass eq_refl) as (st' & _ & Hp).
  eapply (scan_complete pattern SCAN_COUNT); [unfold SCAN_COUNT; lia|by rewrite glob_escape_star|].
  eapply scan_pass_mono; [|exact Hp]. by intros ? ->.
Qed.
End scan_pages.
