(* ===== verification/KvUpkeep.v ===== *)
(** * The backfill ([src/src/state/kv.rs])

    [backfill_index] makes the key index complete while other replicas keep
    writing. *)

From S2P Require Import Prelude Redis Client DbFacts Keys KvScripts KvIndex KvStore KvOps KvScan.

(** ** The backfill *)

Section backfill.
Context {Srv : Type} `{RedisLaws Srv} (prefix : string).
Context (Hprefix : is_empty prefix = false).
Local Abbreviation P := (srv_policy (Srv := Srv)).
Local Abbreviation kv := (with_connection_manager prefix).
Local Abbreviation ki := (index_key kv).
Local Abbreviation ke := (expiry_key kv).

Definition layout_inv (t : Z) (s : Srv) : Prop := layout kv (view t s).

(** One key is indexed when it is there. *)
Definition key_inv (key : string) (t : Z) (s : Srv) : Prop :=
  layout_inv t s ∧ holds kv key (view t s).

Lemma layout_stable : stable layout_inv.
Proof. intros t t' s Ht Hl. destruct (later_kept prefix t t' s Ht Hl) as [[Hl' _] _]. exact Hl'. Qed.

Lemma key_inv_stable key : stable (key_inv key).
Proof.
  intros t t' s Ht [Hl Hk]. destruct (later_kept prefix t t' s Ht Hl) as [[Hl' Hk'] _].
  split; [done|]. by apply Hk'.
Qed.

(** Every script of an index-keeping replica keeps both. *)
Lemma step_keeps_layout T {A} (sc : script A) :
  (∀ t s, kv_step prefix false (t, s) (t, (run t sc s).1)) → keeps T layout_inv sc.
Proof.
  intros Hsc t s _ Hl. by destruct (kv_step_kept prefix Hprefix false _ _ (Hsc t s) Hl) as [[Hl' _] _].
Qed.

Lemma step_keeps_key T key {A} (sc : script A) :
  (∀ t s, kv_step prefix false (t, s) (t, (run t sc s).1)) → keeps T (key_inv key) sc.
Proof.
  intros Hsc t s _ [Hl Hk].
  destruct (kv_step_kept prefix Hprefix false _ _ (Hsc t s) Hl) as [[Hl' Hk'] _].
  split; [exact Hl'|]. by apply Hk'.
Qed.

(** *** The script *)

Lemma framed_foldl_backfill t now args d :
  framed ki ke d (foldl (backfill_one t ki ke now) d args).
Proof.
  revert d. induction args as [|k args IH]; intros d; simpl; [done|].
  etrans; [apply framed_backfill|apply IH].
Qed.

Lemma upkeep_layout d : layout kv d → upkeep_ok ki ke d.
Proof. intros []. by split. Qed.

Lemma run_backfill_view t now args (s : Srv) :
  data_keys kv args → layout_inv t s →
  view t (run t (BACKFILL_LUA ki ke now args 0) s).1 =
    foldl (backfill_one t ki ke now) (view t s) args.
Proof.
  intros Hargs Hl. destruct (run_view t (BACKFILL_LUA ki ke now args 0) s) as [-> _].
  rewrite run_backfill; [done|by eapply index_ne_expiry|by eapply data_keys_args|by apply upkeep_layout].
Qed.

(** It keeps every key's invariant, and establishes that of its arguments. *)
Lemma backfill_script_key t now args (s : Srv) key :
  data_keys kv args → layout_inv t s →
  key_inv key t s ∨ full_key kv key ∈ args →
  key_inv key t (run t (BACKFILL_LUA ki ke now args 0) s).1.
Proof.
  intros Hargs Hl Hk. unfold key_inv, layout_inv. rewrite run_backfill_view by done.
  split; [by eapply kept_backfill|]. unfold holds.
  rewrite (framed_foldl_backfill t now args) by
    (by eapply full_key_ne_index || by eapply full_key_ne_expiry).
  intros Hv. eapply index_of_backfill; [done|done|done|].
  destruct Hk as [[_ Hk]|Hk]; [by left; apply Hk|by right].
Qed.

(** *** The loop, among other writers *)

Context (T : Z).
Local Abbreviation pat := (RedisKv.data_pattern kv).

Lemma yields_data_scan I cur n :
  stable I → (∀ t s s', view t s' = view t s → I t s → I t s') →
  yields (Srv := Srv) T I (query_scan cur pat n) (λ r, data_keys kv r.2).
Proof.
  intros Hst Hsame. apply yields_request; [done|]. intros t s Ht Hs.
  pose proof (scan_view t cur pat n s) as Hv. pose proof (scan_sound t cur pat n s) as Hk.
  destruct (scan t cur _ n s) as [s' [next batch]]; simpl in *. split; [by eapply Hsame|].
  intros ? [= <-]. apply Forall_forall. intros m [_ Hm]%Hk. by apply (data_pattern_key prefix).
Qed.

Lemma forwards_backfill fuel cur n : forwards (Srv := Srv) (RedisKv.backfill_loop kv fuel cur n).
Proof.
  revert cur n. induction fuel as [|fuel IH]; intros; simpl; unfold RedisKv.await; forwards.
Qed.

Definition kept_by_backfill (I : Z → Srv → Prop) : Prop :=
  stable I ∧ (∀ t s s', view t s' = view t s → I t s → I t s') ∧
  (∀ t s now args, data_keys kv args → I t s → I t (run t (BACKFILL_LUA ki ke now args 0) s).1).

Lemma layout_kept : kept_by_backfill layout_inv.
Proof.
  split; [apply layout_stable|split].
  - intros t s s' Hv Hs. unfold layout_inv. by rewrite Hv.
  - intros t s now args Hargs Hs. unfold layout_inv. rewrite run_backfill_view by done.
    by eapply kept_backfill.
Qed.

Lemma key_inv_kept key : kept_by_backfill (key_inv key).
Proof.
  split; [apply key_inv_stable|split].
  - intros t s s' Hv Hs. unfold key_inv, layout_inv. by rewrite Hv.
  - intros t s now args Hargs Hs. apply backfill_script_key; [done|apply Hs|by left].
Qed.

Lemma shrinks_backfill fuel cur n : shrinks (Srv := Srv) (RedisKv.backfill_loop kv fuel cur n).
Proof.
  revert cur n. induction fuel as [|fuel IH]; intros; simpl; unfold RedisKv.await; shrinks.
Qed.

(** One turn of the loop: the batch is indexed. *)
Definition index_batch (batch : list string) (n : Z) : client Srv cluster_error Z :=
  if bool_decide (batch = []) then cret n
  else
    let! now := now_ms in
    let! k := RedisKv.await (invoke (BACKFILL_LUA ki ke now batch 0)) in
    cret (n + Z.max 0 k).

Lemma preserves_index_batch I batch n :
  kept_by_backfill I → data_keys kv batch → preserves T I (index_batch batch n).
Proof.
  intros (Hst & _ & Hb) Hargs. unfold index_batch. case_bool_decide; [by apply yields_ret|].
  apply preserves_bind; [apply preserves_now|intros; unfold RedisKv.await; forwards|].
  intros now. apply preserves_end, yields_map_err, preserves_invoke; [done|]. intros t s _. by apply Hb.
Qed.

Lemma data_filter batch :
  data_keys kv batch → data_keys kv (filter (λ k, RedisKv.is_data kv k = true) batch).
Proof.
  intros Hb. apply Forall_forall. intros m [_ Hm]%list_elem_of_filter.
  by apply (proj1 (Forall_forall _ _) Hb).
Qed.

Lemma preserves_backfill I fuel cur n :
  kept_by_backfill I → preserves T I (RedisKv.backfill_loop kv fuel cur n).
Proof.
  intros Hk. pose proof Hk as (Hst & Hsame & _). revert cur n.
  induction fuel as [|fuel IH]; intros cur n; simpl; [apply yields_fail|].
  eapply yields_bind; [by apply yields_map_err, yields_data_scan| |].
  { intros []. pose proof forwards_backfill. unfold RedisKv.await. forwards. }
  intros [next batch] Hbatch%data_filter. simpl in Hbatch.
  apply preserves_bind; [by apply preserves_index_batch| |].
  { intros. pose proof forwards_backfill. forwards. }
  intros. destruct (next =? 0); [by apply yields_ret|done].
Qed.

Lemma is_data_key key : RedisKv.is_data kv (full_key kv key) = true.
Proof.
  unfold RedisKv.is_data. rewrite !andb_true_iff, !negb_true_iff, !bool_decide_eq_false.
  split; [split|].
  - by eapply full_key_ne_index.
  - by eapply full_key_ne_expiry.
  - intros E. apply (complete_key_outside prefix Hprefix (full_key kv key)); [|done].
    right; right; eauto.
Qed.

Section one_key.
Context (key : string).
Local Abbreviation fk := (full_key kv key).
Local Abbreviation there := (λ d : db, is_Some (d !! fk)).
Local Abbreviation pass := (pass_from (Srv := Srv) pat SCAN_COUNT there).

(** The others' scripts keep the layout and the key's invariant. *)
Definition good_for_key (w : world Srv) : Prop :=
  good T layout_inv w ∧ others_ok T (key_inv key) (w_net w).

Lemma inv_or_there t (s : Srv) : layout_inv t s → key_inv key t s ∨ there (view t s).
Proof.
  intros Hl. destruct (decide (is_Some (view t s !! fk))) as [Hk|Hk]; [by right|].
  left. split; [done|]. by intros ?.
Qed.

Lemma good_key_of w : good_for_key w → key_inv key (w_time w) (w_srv w) → good T (key_inv key) w.
Proof. intros [_ Ho] Hk. by split. Qed.

(** Until a request arrives, either the key's invariant comes to hold or
    the key is there all along. *)
Lemma arrival_there w :
  good_for_key w → (arrival w).1 ≤ T →
  layout_inv (arrival w).1 (arrival w).2 ∧
  (key_inv key (arrival w).1 (arrival w).2 ∨
   rtc (happens_in there) (w_time w, w_srv w) (arrival w) ∧ there (view (arrival w).1 (arrival w).2)).
Proof.
  intros [[Hl Hol] Hok]. unfold arrival. destruct w as [s t sk net]; simpl in *.
  destruct net as [|ev net]; simpl.
  { intros HT. split; [done|]. destruct (inv_or_there t s Hl); [by left|by right]. }
  apply Forall_cons in Hol as [Hol _]. apply Forall_cons in Hok as [Hok _].
  set (t' := t + Z.of_N (ev_wait ev)). intros HT.
  assert (Hl' : layout_inv t' s) by (apply (layout_stable t); [lia|done]).
  assert (Hstart : key_inv key t' s ∨ rtc (happens_in there) (t, s) (t', s) ∧ there (view t' s)).
  { destruct (inv_or_there t' s Hl') as [|Hth]; [by left|right]. split; [|done].
    apply rtc_once. split; [constructor; lia|done]. }
  clear Hl. revert Hstart. generalize (t, s) as st0. intros st0. revert s Hl'. unfold run_others.
  induction (ev_others ev) as [|sc l IH]; intros s Hl Hstart; simpl; [by split|].
  apply Forall_cons in Hol as [Hsc Hol]. apply Forall_cons in Hok as [Hsck Hok].
  assert (Hl1 : layout_inv t' (run t' sc s).1) by by apply Hsc.
  apply IH; [done|done|done|].
  destruct Hstart as [Hk|[Hr Hth]]; [left; by apply Hsck|].
  destruct (inv_or_there _ _ Hl1) as [|Hth1]; [by left|right]. split; [|done].
  eapply rtc_r; [exact Hr|]. split; [constructor|done].
Qed.

Lemma good_tail w s t :
  good_for_key w → layout_inv t s → good_for_key (World s t (w_skew w) (tail (w_net w))).
Proof.
  intros [[_ Ho] Hk] Hl. unfold others_ok in *.
  split; [split|]; simpl; [done| |]; by destruct (w_net w); [|eapply Forall_inv_tail].
Qed.

(** And while its reply comes back. *)
Lemma later_there (C : Prop) st0 t t' (s : Srv) :
  t ≤ t' → layout_inv t s → key_inv key t s ∨ C ∧ rtc (happens_in there) st0 (t, s) →
  layout_inv t' s ∧ (key_inv key t' s ∨ C ∧ rtc (happens_in there) st0 (t', s)).
Proof.
  intros Ht Hl Hk. assert (Hl' : layout_inv t' s) by (by apply (layout_stable t)). split; [done|].
  destruct Hk as [Hk|[Hc Hr]]; [left; by apply (key_inv_stable key t)|].
  destruct (inv_or_there t' s Hl') as [|Hth]; [by left|right]. split; [done|].
  eapply rtc_r; [exact Hr|]. split; [by constructor|done].
Qed.

Lemma index_batch_there batch n w w' r :
  good_for_key w → data_keys kv batch → index_batch batch n w = (w', Ok r) → w_time w' ≤ T →
  good_for_key w' ∧
  (key_inv key (w_time w') (w_srv w') ∨
   fk ∉ batch ∧ rtc (happens_in there) (w_time w, w_srv w) (w_time w', w_srv w')).
Proof.
  intros Hw Hargs. unfold index_batch. case_bool_decide as Hb.
  { intros [= <- <-] _. split; [done|]. right. subst batch. split; [apply not_elem_of_nil|done]. }
  intros (w1 & now & [= <- <-] & (w2 & k & Hi & [= <- <-])%cbind_ok)%cbind_ok HT.
  apply cmap_err_ok, request_ok in Hi as (s & late & Hrun & ->). cbn [w_time w_srv] in *.
  destruct (arrival_there w Hw ltac:(lia)) as [Hl Ha].
  set (t1 := (arrival w).1) in *. set (s1 := (arrival w).2) in *.
  assert (Es : s = (run t1 (BACKFILL_LUA ki ke (clock_ms w) batch 0) s1).1) by by rewrite Hrun.
  assert (Hl' : layout_inv t1 s).
  { rewrite Es. destruct layout_kept as (_ & _ & Hk). by apply Hk. }
  enough (Hnow : key_inv key t1 s ∨ fk ∉ batch ∧ rtc (happens_in there) (w_time w, w_srv w) (t1, s)).
  { destruct (later_there _ _ t1 (t1 + Z.of_N late) s ltac:(lia) Hl' Hnow) as [Hl2 Hk2].
    split; [by apply good_tail|exact Hk2]. }
  assert (HT1 : t1 ≤ T) by lia.
  destruct Ha as [Hk|[Hr Hth]].
  { left. rewrite Es. by apply backfill_script_key; [|apply Hk|left]. }
  destruct (decide (fk ∈ batch)) as [Hin|Hin].
  { left. rewrite Es. by apply backfill_script_key; [| |right]. }
  right. split; [done|]. eapply rtc_r; [exact Hr|].
  rewrite Es, (surjective_pairing (arrival w)). split; [constructor|].
  cbn [fst snd]. fold t1 s1. rewrite run_backfill_view by done.
  rewrite (framed_foldl_backfill t1) by
    (by eapply full_key_ne_index || by eapply full_key_ne_expiry). done.
Qed.

Lemma backfill_there fuel cur n w w' r :
  good_for_key w → RedisKv.backfill_loop kv fuel cur n w = (w', Ok r) → w_time w' ≤ T →
  key_inv key (w_time w') (w_srv w') ∨
  ∃ ks, pass cur (w_time w, w_srv w) ks ∧ fk ∉ ks.
Proof.
  revert cur n w. induction fuel as [|fuel IH]; intros cur n w Hw; [done|]. cbn [RedisKv.backfill_loop].
  intros (w1 & [next batch] & Hs & Hrest)%cbind_ok HT.
  apply cmap_err_ok, request_ok in Hs as (s & late & Hscan & ->).
  set (t1 := (arrival w).1) in *. set (s1 := (arrival w).2) in *. set (t2 := t1 + Z.of_N late) in *.
  set (w1 := World s t2 (w_skew w) (tail (w_net w))) in *.
  fold (index_batch (filter (λ k, RedisKv.is_data kv k = true) batch) n) in Hrest.
  set (fb := filter (λ k, RedisKv.is_data kv k = true) batch) in *.
  apply cbind_ok in Hrest as (w2 & n2 & Hbatch & Hrest).
  assert (HT2 : w_time w2 ≤ T).
  { destruct (next =? 0); [by injection Hrest as <- <-|].
    pose proof (forwards_backfill fuel next n2 w2) as Hf. rewrite Hrest in Hf. simpl in Hf. lia. }
  assert (Hle : t1 ≤ t2) by lia. assert (HT1 : t2 ≤ T).
  { assert (Hf : forwards (Srv := Srv) (index_batch fb n))
      by (unfold index_batch, RedisKv.await; forwards).
    specialize (Hf w1). rewrite Hbatch in Hf. simpl in Hf. lia. }
  pose proof (scan_view t1 cur pat SCAN_COUNT s1) as Hv.
  pose proof (scan_sound t1 cur pat SCAN_COUNT s1) as Hsound.
  destruct (scan t1 cur pat SCAN_COUNT s1) as [s' [next' batch']] eqn:Escan.
  cbn [fst snd] in Hv, Hsound, Hscan. injection Hscan as -> -> ->.
  assert (Hdata : data_keys kv fb).
  { apply data_filter, Forall_forall. intros m [_ Hm]%Hsound. by apply (data_pattern_key prefix). }
  destruct (arrival_there w Hw ltac:(lia)) as [Hl Ha]. fold t1 s1 in Hl, Ha.
  assert (Hl2 : layout_inv t2 s) by (apply (layout_stable t1); [done|]; unfold layout_inv; by rewrite Hv).
  assert (Hw1 : good_for_key w1) by (by apply good_tail).
  destruct (index_batch_there fb n w1 w2 n2 Hw1 Hdata Hbatch HT2) as [Hw2 Hafter].
  assert (Hfinish : key_inv key (w_time w2) (w_srv w2) → key_inv key (w_time w') (w_srv w')).
  { intros Hk. destruct (next =? 0); [by injection Hrest as <- <-|].
    pose proof (preserves_backfill (key_inv key) fuel next n2 (key_inv_kept key) w2) as Hp.
    rewrite Hrest in Hp. apply Hp; [done|]. by apply good_key_of. }
  assert (Hbk : key_inv key t2 s → key_inv key (w_time w2) (w_srv w2)).
  { intros Hk. pose proof (preserves_index_batch (key_inv key) fb n (key_inv_kept key) Hdata w1) as Hp.
    rewrite Hbatch in Hp. apply Hp; [done|]. by apply good_key_of. }
  destruct Ha as [Hk|[Hr Hth]].
  { left. apply Hfinish, Hbk, (key_inv_stable key t1); [done|].
    destruct (key_inv_kept key) as (_ & Hsame & _). by apply (Hsame t1 s1). }
  destruct (inv_or_there t2 s Hl2) as [|Hth2]; [left; auto|].
  assert (Hwait : happens_in there (t1, s) (t2, s)) by (split; [by constructor|done]).
  destruct Hafter as [Hk|[Hin Hr2]]; [left; auto|].
  assert (Hnot : fk ∉ batch).
  { intros Hm. apply Hin, list_elem_of_filter. split; [apply is_data_key|done]. }
  assert (Harr : arrival w = (t1, s1)) by apply surjective_pairing. rewrite Harr in Hr.
  destruct (Z.eqb_spec next 0) as [->|Hnext].
  - right. exists batch. split; [|done]. exists (t1, s1). split; [done|]. by eapply pass_last.
  - destruct (IH next n2 w2 Hw2 Hrest HT) as [Hk|(ks & (st' & Hr3 & Hp) & Hks)]; [by left|].
    right. exists (batch ++ ks). split; [|rewrite not_elem_of_app; done].
    exists (t1, s1). split; [done|]. eapply pass_step; [done|exact Escan|done| |exact Hp].
    eapply rtc_l; [exact Hwait|]. by etrans.
Qed.

(** A backfill that returns leaves the key indexed if it is there. *)
Lemma backfill_key fuel w w' r :
  good_for_key w → RedisKv.backfill_index kv fuel w = (w', Ok r) → w_time w' ≤ T →
  key_inv key (w_time w') (w_srv w').
Proof.
  intros Hw Hrun HT. destruct (backfill_there fuel 0 0 w w' r Hw Hrun HT) as [|(ks & (st & _ & Hp) & Hk)];
    [done|].
  exfalso. apply Hk. eapply (scan_complete pat SCAN_COUNT); [unfold SCAN_COUNT; lia| |exact Hp].
  unfold RedisKv.data_pattern, full_key. simpl. rewrite Hprefix.
  change ":*" with (glob_escape ":" +:+ "*").
  rewrite <- append_assoc, <- glob_escape_app, glob_escape_star.
  rewrite <- append_assoc. apply starts_with_append.
Qed.
End one_key.

(** *** Alone on the network, it returns *)

Section returns.
Context (K : gset string) (HK : {[ki; ke]} ⊆ K).
Local Abbreviation within := (λ d : db, dom d ⊆ K).

Lemma framed_within d d' : framed ki ke d d' → within d → within d'.
Proof.
  intros Hf Hd m [v Hm]%elem_of_dom.
  destruct (decide (m = ki)) as [->|]; [set_solver|].
  destruct (decide (m = ke)) as [->|]; [set_solver|].
  apply Hd, elem_of_dom. rewrite <- Hf by done. eauto.
Qed.

Lemma index_batch_quiet batch n w :
  quiet w → data_keys kv batch → layout_inv (w_time w) (w_srv w) →
  within (view (w_time w) (w_srv w)) →
  ∃ s r, index_batch batch n w = (set_srv s w, Ok r) ∧ layout_inv (w_time w) s ∧
         within (view (w_time w) s) ∧ rtc (happens_in within) (w_time w, w_srv w) (w_time w, s) ∧
         framed ki ke (view (w_time w) (w_srv w)) (view (w_time w) s).
Proof.
  intros Hq Hb Hl Hd. unfold index_batch. case_bool_decide.
  { exists (w_srv w), n. destruct w. by split; [|split; [|split; [|split]]]. }
  unfold cbind at 1, now_ms.
  pose proof (invoke_quiet (BACKFILL_LUA ki ke (clock_ms w) batch 0) w Hq) as Hi.
  destruct (run_view (w_time w) (BACKFILL_LUA ki ke (clock_ms w) batch 0) (w_srv w)) as [_ Hr].
  rewrite run_backfill in Hr;
    [|by eapply index_ne_expiry|by eapply data_keys_args|by apply upkeep_layout].
  pose proof (run_backfill_view (w_time w) (clock_ms w) batch (w_srv w) Hb Hl) as Hv.
  set (s := (run (w_time w) (BACKFILL_LUA ki ke (clock_ms w) batch 0) (w_srv w)).1) in *.
  rewrite Hr in Hi. unfold cbind, RedisKv.await, cmap_err. rewrite Hi. cbn [snd map_err].
  do 2 eexists. split; [done|].
  assert (Hw : within (view (w_time w) s))
    by (rewrite Hv; eapply framed_within; [apply framed_foldl_backfill|done]).
  split; [unfold layout_inv; rewrite Hv; by eapply kept_backfill|]. split; [done|].
  split; [apply rtc_once; split; [constructor|exact Hw]|]. rewrite Hv. apply framed_foldl_backfill.
Qed.

Lemma backfill_loop_returns fuel cur n w N :
  quiet w → layout_inv (w_time w) (w_srv w) → within (view (w_time w) (w_srv w)) →
  steps_left pat SCAN_COUNT within cur (w_time w, w_srv w) N → (N < fuel)%nat →
  ∃ s r, RedisKv.backfill_loop kv fuel cur n w = (set_srv s w, Ok r) ∧ layout_inv (w_time w) s ∧
         framed ki ke (view (w_time w) (w_srv w)) (view (w_time w) s).
Proof.
  revert cur n w N. induction fuel as [|fuel IH]; intros cur n w N Hq Hl Hd HN Hfuel; [lia|].
  cbn [RedisKv.backfill_loop].
  pose proof (scan_view (w_time w) cur pat SCAN_COUNT (w_srv w)) as Hv.
  pose proof (scan_sound (w_time w) cur pat SCAN_COUNT (w_srv w)) as Hs.
  destruct (scan (w_time w) cur pat SCAN_COUNT (w_srv w)) as [s1 [next batch]] eqn:Escan.
  cbn [fst snd] in Hv, Hs.
  unfold cbind at 1, RedisKv.await at 1, cmap_err at 1, query_scan.
  rewrite request_quiet by done. rewrite Escan. cbn [fst snd map_err].
  fold (index_batch (filter (λ k, RedisKv.is_data kv k = true) batch) n).
  assert (Hb : data_keys kv (filter (λ k, RedisKv.is_data kv k = true) batch)).
  { apply data_filter, Forall_forall. intros m [_ Hm]%Hs. by apply (data_pattern_key prefix). }
  destruct (index_batch_quiet (filter (λ k, RedisKv.is_data kv k = true) batch) n (set_srv s1 w))
    as (s2 & r & Hib & Hl2 & Hd2 & Hrtc & Hf2); [done|done| | |].
  { unfold layout_inv. cbn [w_time w_srv set_srv]. by rewrite Hv. }
  { cbn [w_time w_srv set_srv]. by rewrite Hv. }
  cbn [w_time w_srv set_srv] in Hl2, Hd2, Hrtc, Hf2. rewrite Hv in Hf2.
  unfold cbind at 1. rewrite Hib. change (set_srv s2 (set_srv s1 w)) with (set_srv s2 w).
  destruct (Z.eqb_spec next 0) as [->|Hnext]; [by exists s2, r|].
  destruct (steps_left_step pat SCAN_COUNT within cur (w_time w) (w_srv w) s1 next batch N)
    as (N1 & -> & HN1); [done..|].
  destruct (IH next r (set_srv s2 w) N1) as (s3 & r' & Hloop & Hl3 & Hf3); [done|done|done| |lia|].
  { by eapply steps_left_later. }
  rewrite Hloop. exists s3, r'. split; [done|]. split; [exact Hl3|]. by etrans.
Qed.
End returns.

Lemma backfill_returns w :
  quiet w → layout_inv (w_time w) (w_srv w) →
  ∃ fuel s n, RedisKv.backfill_index kv fuel w = (set_srv s w, Ok n) ∧ layout_inv (w_time w) s ∧
              framed ki ke (view (w_time w) (w_srv w)) (view (w_time w) s).
Proof.
  intros Hq Hl. set (K := dom (view (w_time w) (w_srv w)) ∪ {[ki; ke]}).
  destruct (scan_terminates (Srv := Srv) pat SCAN_COUNT K (w_time w, w_srv w)) as [N HN];
    [unfold SCAN_COUNT; lia|].
  destruct (backfill_loop_returns K ltac:(set_solver) (S N) 0 0 w N) as (s & r & Hr);
    [done|done|set_solver|exact HN|lia|].
  exists (S N), s, r. exact Hr.
Qed.
End backfill.
