(* ===== verification/KvSweep.v ===== *)
(** * The sweep ([src/src/state/kv.rs])

    [sweep] settles the expiry index in batches of [SWEEP_BATCH] until nothing
    in it is due. *)

From S2P Require Import Prelude Redis Client DbFacts Keys KvScripts KvIndex KvStore KvOps.

Section sweep.
Context {Srv : Type} `{RedisLaws Srv} (prefix : string).
Context (Hprefix : is_empty prefix = false).
Local Abbreviation P := (srv_policy (Srv := Srv)).
Local Abbreviation kv := (with_connection_manager prefix).
Local Abbreviation ki := (index_key kv).
Local Abbreviation ke := (expiry_key kv).

(** The keys whose score in the expiry index is at most [now]. *)
Definition due (now : Z) (d : db) : gset string :=
  dom (filter (λ p, p.2 ≤ now) (expiry_of kv d)).

Definition due_gone (now : Z) (d : db) : gset string :=
  filter (λ m, d !! m = None) (due now d).

Lemma elem_of_due now d m : m ∈ due now d ↔ ∃ x, expiry_of kv d !! m = Some x ∧ x ≤ now.
Proof.
  unfold due. rewrite elem_of_dom. split.
  - intros [x [Hx Hle]%map_lookup_filter_Some]. eauto.
  - intros (x & Hx & Hle). exists x. by apply map_lookup_filter_Some.
Qed.

(** ** What a batch leaves *)

Section batch.
Context (t now : Z).

(** The score that settling a key leaves it in the expiry index. *)
Definition settled (d : db) (m : string) : option Z :=
  match d !! m with
  | Some v =>
      (λ dl, dround (ladd (tonumber now) (dround (Z.max 0 (dl - t))))) <$> r_expiry v
  | None => None
  end.

Lemma expiry_of_sweep_one d m m' :
  expiry_of kv (sweep_one t ki ke now d m) !! m' =
    if decide (m' = m) then settled d m else expiry_of kv d !! m'.
Proof.
  assert (Hne : ki ≠ ke) by by eapply index_ne_expiry.
  unfold sweep_one, settled, expiry_of, drop_entries.
  destruct (d !! m) as [[o [dl|]]|]; cbn [r_expiry fmap option_fmap option_map].
  - rewrite zset_of_zadd. case_decide as E; [subst; by rewrite lookup_insert_eq|].
    by rewrite lookup_insert_ne.
  - rewrite zset_of_zrem. case_decide as E; [subst; by rewrite lookup_delete_eq|].
    by rewrite lookup_delete_ne.
  - rewrite zset_of_zrem, zset_of_zrem_ne by done.
    case_decide as E; [subst; by rewrite lookup_delete_eq|]. by rewrite lookup_delete_ne.
Qed.

Lemma index_of_sweep_one d m m' :
  index_of kv (sweep_one t ki ke now d m) !! m' =
    if decide (m' = m ∧ d !! m = None) then None else index_of kv d !! m'.
Proof.
  assert (Hne : ke ≠ ki) by (apply not_eq_sym; by eapply index_ne_expiry).
  unfold sweep_one, index_of, drop_entries. destruct (d !! m) as [[o [dl|]]|]; cbn [r_expiry].
  - rewrite decide_False by naive_solver. by rewrite zset_of_zadd_ne.
  - rewrite decide_False by naive_solver. by rewrite zset_of_zrem_ne.
  - rewrite zset_of_zrem_ne, zset_of_zrem by done.
    destruct (decide (m' = m ∧ None = None)) as [[-> _]|Hm]; [apply lookup_delete_eq|].
    rewrite lookup_delete_ne; [done|]. naive_solver.
Qed.

Lemma framed_sweeps d l : framed ki ke d (foldl (sweep_one t ki ke now) d l).
Proof.
  revert d. induction l as [|m l IH]; intros d; simpl; [done|].
  etrans; [apply framed_sweep|apply IH].
Qed.

Lemma settled_framed d d' m :
  framed ki ke d d' → m ≠ ki → m ≠ ke → settled d' m = settled d m.
Proof. intros Hf H1 H2. unfold settled. by rewrite Hf. Qed.

Lemma expiry_of_sweeps d l m :
  data_args ki ke l → NoDup l →
  expiry_of kv (foldl (sweep_one t ki ke now) d l) !! m =
    if decide (m ∈ l) then settled d m else expiry_of kv d !! m.
Proof.
  intros Hl. revert d. induction Hl as [|k l [H1 H2] Hl IH]; intros d Hnd; cbn [foldl].
  { rewrite decide_False; [done|]. apply not_elem_of_nil. }
  apply NoDup_cons in Hnd as [Hk Hnd]. rewrite IH by done.
  pose proof (framed_sweep t ki ke now d k) as Hf.
  destruct (decide (m ∈ l)) as [Hm|Hm].
  - rewrite (decide_True (P := m ∈ k :: l)) by by right.
    pose proof (proj1 (Forall_forall _ _) Hl m Hm) as [? ?]. by apply settled_framed.
  - rewrite expiry_of_sweep_one. destruct (decide (m = k)) as [->|Hne].
    + by rewrite decide_True by by left.
    + rewrite decide_False; [done|]. rewrite not_elem_of_cons. done.
Qed.

Lemma index_of_sweeps d l m :
  data_args ki ke l →
  index_of kv (foldl (sweep_one t ki ke now) d l) !! m =
    if decide (m ∈ l ∧ d !! m = None) then None else index_of kv d !! m.
Proof.
  intros Hl. revert d. induction Hl as [|k l [H1 H2] Hl IH]; intros d; cbn [foldl].
  { rewrite decide_False; [done|]. intros [Hm _]. by apply not_elem_of_nil in Hm. }
  rewrite IH. pose proof (framed_sweep t ki ke now d k) as Hf.
  rewrite index_of_sweep_one.
  destruct (decide (m = k)) as [->|Hne].
  - rewrite (Hf k) by done. destruct (decide (d !! k = None)) as [Hn|Hn].
    + rewrite (decide_True (P := k = k ∧ _)) by done.
      rewrite (decide_True (P := k ∈ k :: l ∧ _)) by (split; [by left|done]). by destruct (decide (k ∈ l ∧ _)).
    + rewrite !decide_False by naive_solver. done.
  - rewrite (decide_False (P := m = k ∧ _)) by naive_solver.
    destruct (decide (m ∈ l)) as [Hm|Hm].
    + pose proof (proj1 (Forall_forall _ _) Hl m Hm) as [? ?]. rewrite (Hf m) by done.
      apply decide_ext. rewrite elem_of_cons. naive_solver.
    + rewrite !decide_False; [done| |]; rewrite ?elem_of_cons; naive_solver.
Qed.

(** A settled key is no longer due, unless it is in its last millisecond. *)
Lemma settled_later d m x :
  0 ≤ now < 2 ^ 53 → (∀ o dl, d !! m = Some (RVal o (Some dl)) → t < dl) →
  settled d m = Some x → now < x.
Proof.
  intros Hnow Hleft. unfold settled. destruct (d !! m) as [[o [dl|]]|]; simpl; try done.
  specialize (Hleft o dl eq_refl). intros [= <-]. unfold ladd, tonumber.
  rewrite (dround_exact now) by lia.
  assert (1 ≤ dround (Z.max 0 (dl - t))) by (pose proof (dround_pos (Z.max 0 (dl - t))); lia).
  set (a := dround (Z.max 0 (dl - t))) in *.
  assert (Hlater : ∀ y, now < y → now < dround y).
  { intros y Hy. destruct (Z.le_gt_cases (2 ^ 53) y) as [Hbig|Hsmall].
    - pose proof (dround_large y ltac:(lia)). pose proof (dround_nonneg y ltac:(lia)). lia.
    - rewrite dround_exact; lia. }
  apply Hlater, Hlater. lia.
Qed.
End batch.

(** ** The loop on a quiet network *)

Definition due_list (now : Z) (d : db) : list string :=
  (filter (λ p, in_scores NegInf (Incl now) p.1) (zitems (expiry_of kv d))).*2.

Lemma elem_of_due_list now d m : m ∈ due_list now d ↔ m ∈ due now d.
Proof.
  unfold due_list. rewrite list_elem_of_fmap, elem_of_due. split.
  - intros ([x m'] & -> & [Hx Hm%elem_of_zitems]%list_elem_of_filter). exists x. split; [done|].
    unfold in_scores in Hx. simpl in Hx. rewrite Is_true_true in Hx. by apply Z.leb_le.
  - intros (x & Hm & Hle). exists (x, m). split; [done|]. apply list_elem_of_filter.
    split; [|by apply elem_of_zitems]. unfold in_scores. simpl. rewrite Is_true_true.
    by apply Z.leb_le.
Qed.

Lemma due_gone_none now d : due now d = ∅ → due_gone now d = ∅.
Proof. unfold due_gone. intros ->. set_solver. Qed.

Lemma NoDup_due_list now d : NoDup (due_list now d).
Proof.
  apply NoDup_fmap_filter, NoDup_zmembers.
Qed.

Lemma due_list_size now d : length (due_list now d) = size (due now d).
Proof.
  rewrite <- (size_list_to_set (C := gset string)) by apply NoDup_due_list.
  f_equal. apply set_eq. intros m. by rewrite elem_of_list_to_set, elem_of_due_list.
Qed.

Lemma query_due now d t :
  zset_ok d ke →
  documented P t (ZRANGEBYSCORE ke NegInf (Incl now) (Some SWEEP_BATCH)) d =
    (d, RStrs (take (Z.to_nat SWEEP_BATCH) (due_list now d))).
Proof.
  assert (Hlim : ∀ l : list string, limited (Some SWEEP_BATCH) l = take (Z.to_nat SWEEP_BATCH) l).
  { intros l. unfold limited. change (SWEEP_BATCH <? 0) with false. cbn [orb].
    destruct (Z.leb_spec (Z.of_nat (length l)) SWEEP_BATCH); [|done].
    rewrite take_ge by (unfold SWEEP_BATCH in *; lia). done. }
  unfold zset_ok. cbn [documented limit_ok is_i64]. change (negb (is_i64 SWEEP_BATCH)) with false.
  unfold due_list, expiry_of, zset_of, with_zset.
  destruct (d !! ke) as [[[v|z] [e|]]|]; try done; intros _.
  by rewrite Hlim.
Qed.

Lemma due_data now d : layout kv d → ∀ m, m ∈ due now d → m ≠ ki ∧ m ≠ ke.
Proof.
  intros Hl m (x & Hx & _)%elem_of_due.
  apply (layout_expiry_member _ _ Hl) in Hx as [key ->].
  split; [by eapply full_key_ne_index|by eapply full_key_ne_expiry].
Qed.

Section quiet.
Context (t now : Z) (Hnow : 0 ≤ now < 2 ^ 53).

(** No due key is in its last millisecond. *)
Definition none_last (d : db) : Prop := ∀ m, m ∈ due now d → time_left t d m.

(** One batch of due keys settled. *)
Lemma after_batch d l :
  layout kv d → none_last d → NoDup l → (∀ m, m ∈ l → m ∈ due now d) →
  let d' := foldl (sweep_one t ki ke now) d l in
  due now d' = due now d ∖ list_to_set l ∧
  due_gone now d' = due_gone now d ∖ list_to_set l ∧
  count_gone d l = Z.of_nat (size (due_gone now d ∩ list_to_set l)).
Proof.
  intros Hd Hleft Hnd Hl d'.
  assert (Hargs : data_args ki ke l)
    by (apply Forall_forall; intros m Hm; by apply (due_data now d Hd), Hl).
  pose proof (framed_sweeps t now d l) as Hf. fold d' in Hf.
  assert (Hdue : ∀ m, m ∈ due now d' ↔ m ∈ due now d ∧ m ∉ l).
  { intros m. rewrite !elem_of_due. unfold d'. rewrite expiry_of_sweeps by done.
    destruct (decide (m ∈ l)) as [Hm|Hm]; [|naive_solver]. split; [|naive_solver].
    intros (x & Hx & Hle). exfalso.
    pose proof (settled_later t now d m x Hnow (Hleft m (Hl m Hm)) Hx). lia. }
  split; [|split].
  - apply set_eq. intros m. rewrite Hdue. set_solver.
  - apply set_eq. intros m. unfold due_gone.
    rewrite elem_of_difference, !elem_of_filter, elem_of_list_to_set, Hdue.
    split; [intros (Hn & Hin & Hm)|intros [[Hn Hin] Hm]];
      destruct (due_data now d Hd m Hin) as [? ?]; rewrite Hf in * by done; done.
  - unfold count_gone. f_equal.
    rewrite <- (size_list_to_set (C := gset string)) by by apply NoDup_filter.
    f_equal. apply set_eq. intros m. unfold due_gone.
    rewrite elem_of_intersection, elem_of_filter, !elem_of_list_to_set, list_elem_of_filter.
    naive_solver.
Qed.

(** What a sweep leaves and returns. *)
Record swept (d d' : db) : Prop := {
  swept_framed : framed ki ke d d';
  swept_index m :
    index_of kv d' !! m = if decide (m ∈ due_gone now d) then None else index_of kv d !! m;
  swept_due : due now d' = ∅;
  swept_layout : layout kv d';
}.

Lemma swept_nothing d : layout kv d → due now d = ∅ → swept d d.
Proof.
  intros Hl Hd. split; [done| |done|done]. intros m. rewrite decide_False; [done|].
  unfold due_gone. rewrite Hd. set_solver.
Qed.

Lemma swept_batch d l d'' :
  layout kv d → none_last d → NoDup l → (∀ m, m ∈ l → m ∈ due now d) →
  swept (foldl (sweep_one t ki ke now) d l) d'' → swept d d''.
Proof.
  intros Hd Hleft Hnd Hl [Hf Hi Hdue Hlay].
  destruct (after_batch d l Hd Hleft Hnd Hl) as (_ & Hg & _).
  split; [by etrans; [apply framed_sweeps|]| |done|done].
  assert (Hargs : data_args ki ke l)
    by (apply Forall_forall; intros m Hm; by apply (due_data now d Hd), Hl).
  intros m. rewrite Hi, Hg, index_of_sweeps by done.
  unfold due_gone. destruct (decide (m ∈ l)) as [Hm|Hm].
  - rewrite (decide_False (P := m ∈ _ ∖ _)) by set_solver.
    apply decide_ext. rewrite elem_of_filter. specialize (Hl m Hm). naive_solver.
  - rewrite (decide_False (P := m ∈ l ∧ _)) by naive_solver. apply decide_ext. set_solver.
Qed.

Lemma layout_sweeps d l :
  layout kv d → (∀ m, m ∈ l → m ∈ due now d) → layout kv (foldl (sweep_one t ki ke now) d l).
Proof.
  intros Hd Hl. apply (safe_foldl kv (sweep_one t ki ke now) l d); [|  |done|done].
  - intros. by eapply safe_sweep_one.
  - apply Forall_forall. intros m (x & Hx & _)%Hl%elem_of_due.
    by apply (layout_expiry_member _ _ Hd) in Hx.
Qed.

Lemma none_last_sweeps d l :
  layout kv d → none_last d → NoDup l → (∀ m, m ∈ l → m ∈ due now d) →
  none_last (foldl (sweep_one t ki ke now) d l).
Proof.
  intros Hd Hleft Hnd Hl m Hm. destruct (after_batch d l Hd Hleft Hnd Hl) as (Hdue & _ & _).
  rewrite Hdue in Hm. apply elem_of_difference in Hm as [Hm _].
  destruct (due_data now d Hd m Hm) as [? ?]. unfold time_left.
  rewrite (framed_sweeps t now d l m) by done. by apply Hleft.
Qed.
End quiet.

Lemma sweep_loop_quiet fuel gone w :
  quiet w → let d := view (w_time w) (w_srv w) in let now := clock_ms w in
  now < 2 ^ 53 → layout kv d → none_last (w_time w) now d →
  Z.of_nat (size (due now d)) < SWEEP_BATCH * Z.of_nat fuel →
  ∃ s, RedisKv.sweep_loop kv fuel gone w =
         (set_srv s w, Ok (gone + Z.of_nat (size (due_gone now d)))) ∧
       swept now d (view (w_time w) s).
Proof.
  revert gone w. induction fuel as [|fuel IH]; intros gone w Hq d now Hnow Hd Hleft Hfuel; [lia|].
  assert (Hnow' : 0 ≤ now < 2 ^ 53).
  { split; [|done]. unfold now, clock_ms. apply clamp_bounds. unfold u64_max. lia. }
  cbn [RedisKv.sweep_loop]. unfold cbind at 1, now_ms.
  set (n := Z.to_nat SWEEP_BATCH). set (l := take n (due_list now d)).
  destruct (invoke_quiet_view (call (ZRANGEBYSCORE ke NegInf (Incl now) (Some SWEEP_BATCH))) w d
    (Ok (RStrs l))) as (s & Hi & Hv); [done| |].
  { fold d. rewrite d_run_call_end, query_due; [done|]. destruct Hd. done. }
  unfold cbind at 1, RedisKv.await at 1, cmap_err at 1, query. fold now. rewrite Hi.
  cbn [map_err]. cbv iota beta.
  assert (Hsize := due_list_size now d).
  assert (Hdl : ∀ m, m ∈ l → m ∈ due now d)
    by (intros m Hm%elem_of_take_in; by apply elem_of_due_list).
  assert (Hnd : NoDup l).
  { eapply sublist_NoDup; [apply NoDup_due_list|apply sublist_take]. }
  case_bool_decide as Hl.
  - assert (due now d = ∅) as Hnone.
    { apply leibniz_equiv, size_empty_inv. rewrite <- Hsize. apply (f_equal length) in Hl.
      unfold l in Hl. rewrite length_take in Hl. cbn [length] in Hl.
      assert (0 < n)%nat by (unfold n, SWEEP_BATCH; lia). lia. }
    exists s. rewrite Hv. split; [|by apply swept_nothing].
    unfold cret. rewrite (due_gone_none now d Hnone), size_empty. by rewrite Z.add_0_r.
  - destruct (after_batch (w_time w) now Hnow' d l Hd Hleft Hnd Hdl) as (Hdue & Hgone & Hcount).
    set (d' := foldl (sweep_one (w_time w) ki ke now) d l) in *.
    destruct (invoke_quiet_view (SWEEP_LUA ki ke now l 0) (set_srv s w) d'
      (Ok (0 + count_gone d l))) as (s' & Hi' & Hv'); [done| |].
    { cbn [w_time w_srv set_srv]. rewrite Hv. apply run_sweep; [by eapply index_ne_expiry| |].
      - apply Forall_forall. intros m Hm. by apply (due_data now d Hd), Hdl.
      - destruct Hd. by split. }
    cbn [w_time w_srv set_srv] in Hv'.
    unfold cbind at 1, RedisKv.await at 1, cmap_err at 1. rewrite Hi'. cbn [map_err].
    change (set_srv s' (set_srv s w)) with (set_srv s' w).
    set (g := gone + Z.max 0 (0 + count_gone d l)).
    assert (Hg : g + Z.of_nat (size (due_gone now d')) = gone + Z.of_nat (size (due_gone now d))).
    { unfold g. pose proof (size_difference_alt (due_gone now d) (list_to_set l)) as E.
      rewrite Hcount, Hgone, E.
      pose proof (subseteq_size (due_gone now d ∩ list_to_set l) (due_gone now d)
        ltac:(set_solver)). lia. }
    assert (Hlen : length l = Nat.min n (size (due now d)))
      by (unfold l; by rewrite length_take, Hsize).
    destruct (Z.ltb_spec (Z.of_nat (length l)) SWEEP_BATCH) as [Hlast|Hfull].
    + exists s'. rewrite Hv'.
      assert (list_to_set l = due now d) as Hall.
      { apply set_eq. intros m. rewrite elem_of_list_to_set, <- elem_of_due_list.
        unfold l. rewrite take_ge; [done|]. rewrite Hsize. unfold n, SWEEP_BATCH in *. lia. }
      split.
      * unfold cret. rewrite <- Hg, Hgone, Hall. unfold due_gone.
        assert (filter (λ m, d !! m = None) (due now d) ∖ due now d = ∅) as -> by set_solver.
        rewrite size_empty. by rewrite Z.add_0_r.
      * eapply swept_batch; [done|done|done|done|done|]. apply swept_nothing; [exact Hnow'|by apply layout_sweeps|].
        fold d'. rewrite Hdue, Hall. set_solver.
    + destruct (IH g (set_srv s' w)) as (s'' & Hloop & Hswept); [done|done| | | |].
      { cbn [w_time w_srv set_srv]. rewrite Hv'. by eapply layout_sweeps. }
      { cbn [w_time w_srv set_srv]. rewrite Hv'. by apply none_last_sweeps. }
      { cbn [w_time w_srv set_srv]. rewrite Hv'. change (clock_ms (set_srv s' w)) with now.
        pose proof (size_difference (due now d) (list_to_set l)) as E.
        pose proof (size_list_to_set (C := gset string) l Hnd) as El.
        rewrite Hdue, E, El by (intros m; rewrite elem_of_list_to_set; apply Hdl). lia. }
      cbn [w_time w_srv set_srv] in Hloop, Hswept. rewrite Hv' in Hloop, Hswept.
      change (clock_ms (set_srv s' w)) with now in Hloop, Hswept.
      exists s''. rewrite Hloop, Hg. split; [done|].
      by eapply swept_batch.
Qed.
End sweep.
