(* ===== verification/KvHistory.v ===== *)
(** * Histories of the key/value store

    Any sequence of operations, with any pauses between them, does to the
    store what the contract of [KvSpec] says - the store's answers included:
    first the operations of one replica, then those of a fleet, whose clocks
    differ and whose upkeep runs in between. *)

From S2P Require Import Prelude Redis Client DbFacts Keys Footprint KvScripts KvIndex KvStore KvSpec KvOps.

(** Operations, each after a pause in milliseconds. *)
Abbreviation history := (list (N * kv_op)).

Section history.
Context (P : policy).

(** The contract's run of a history: the store it leaves and its answers. *)
Fixpoint spec_history (t skew : Z) (h : history) (m : model) : model * list (option kv_res) :=
  match h with
  | [] => (m, [])
  | (pause, op) :: h =>
      let t := t + Z.of_N pause in
      let '(m, x) := spec_op P t (t + skew) op (spec_later P t m) in
      let '(m, xs) := spec_history t skew h m in
      (m, x :: xs)
  end.

Fixpoint history_time (t : Z) (h : history) : Z :=
  match h with [] => t | (pause, _) :: h => history_time (t + Z.of_N pause) h end.

(** Every operation of the history is in range when its turn comes. *)
Fixpoint history_in_range (t skew : Z) (h : history) (m : model) : Prop :=
  match h with
  | [] => True
  | (pause, op) :: h =>
      let t := t + Z.of_N pause in
      let m := spec_later P t m in
      t ≤ 2 ^ 53 ∧ op_in_range P op m ∧
      history_in_range t skew h (spec_op P t (t + skew) op m).1
  end.
End history.

Section refinement.
Context {Srv : Type} `{RedisLaws Srv} `{CursorJson} (prefix : string).
Context (Hprefix : is_empty prefix = false).
Local Abbreviation P := (srv_policy (Srv := Srv)).
Local Abbreviation kv := (with_connection_manager prefix).

(** The program's run of a history. *)
Fixpoint run_history (h : history) :
    client Srv cluster_error (list (result kv_res cluster_error)) :=
  match h with
  | [] => cret []
  | (pause, op) :: h =>
      let! _ := sleep (Z.of_N pause) in
      let! r := cresult (run_op prefix op) in
      let! rs := run_history h in
      cret (r :: rs)
  end.

Lemma forwards_history h : forwards (run_history h).
Proof.
  induction h as [|[pause op] h IH]; simpl; [forwards|].
  pose proof (forwards_op (Srv := Srv) prefix op). forwards.
Qed.

Lemma op_in_call op m : op_in_range P op m → call_in_range (CallOp op).
Proof. destruct op; simpl; try done; by intros []. Qed.

(** An operation alone on the network keeps the index. *)
Lemma op_keeps_index op m w :
  quiet w → op_in_range P op m → 0 ≤ w_time w ≤ 2 ^ 53 → indexed kv (view (w_time w) (w_srv w)) →
  ∀ s r, run_op prefix op w = (set_srv s w, r) → indexed kv (view (w_time w) s).
Proof.
  intros Hq Hop Ht Hd s r Hrun.
  assert (Hp : preserves (2 ^ 53) (index_inv prefix) (run_op prefix op)).
  { apply (preserves_op prefix false); [done|apply index_inv_stable|auto| |by eapply op_in_call].
    intros t s1 s2 _ [Ht1 Hs1] Hstep. split; [done|].
    destruct (kv_step_safe prefix Hprefix false _ _ Hstep Hs1) as [Hs2 _]. exact Hs2. }
  specialize (Hp w). rewrite Hrun in Hp. destruct Hp as [[[_ Hi] _] _]; [simpl; lia| |exact Hi].
  split; [split; [lia|done]|]. unfold others_ok. rewrite Hq. constructor.
Qed.

Lemma history_refines h t skew s m :
  0 ≤ t → indexed kv (view t s) → stores prefix (view t s) m →
  history_in_range P t skew h m →
  ∃ s' rs,
    run_history h (World s t skew []) = (World s' (history_time t h) skew [], Ok rs) ∧
    Forall2 (λ r x, result_matches r x) rs (spec_history P t skew h m).2 ∧
    stores prefix (view (history_time t h) s') (spec_history P t skew h m).1.
Proof.
  revert t s m. induction h as [|[pause op] h IH]; intros t s m Ht Hd Hs Hr; simpl.
  { exists s, []. by split; [|split]. }
  simpl in Hr. set (t' := t + Z.of_N pause) in *. destruct Hr as (Ht' & Hop & Hr).
  assert (Hle : t ≤ t') by lia.
  set (w := World s t' skew []).
  pose proof (op_refines prefix Hprefix w (spec_later P t' m) eq_refl) as Href.
  cbn [w_time w_srv w] in Href.
  specialize (Href ltac:(lia) (indexed_later prefix t t' s Hle Hd) (stores_later prefix t t' s m Hle Hs)
    op Hop).
  unfold refines_at in Href. cbn [w_time w_skew w] in Href.
  destruct (spec_op P t' (t' + skew) op (spec_later P t' m)) as [m1 x] eqn:Espec.
  destruct Href as (s1 & r & Hrun & Hmatch & Hs1).
  assert (Hd1 : indexed kv (view t' s1)).
  { eapply (op_keeps_index op _ w); [done|done|simpl; lia| |exact Hrun].
    by eapply indexed_later. }
  destruct (IH t' s1 m1) as (s2 & rs & Hrs & Hmatches & Hs2); [lia|done|done|done|].
  destruct (spec_history P t' skew h m1) as [m2 xs]; simpl in *.
  exists s2, (r :: rs). split; [|by split; [constructor|]].
  unfold cbind at 1, sleep. cbn [w_srv w_time w_skew w_net].
  rewrite Z.max_r by lia. fold t'. unfold cbind at 1, cresult. fold w. rewrite Hrun.
  cbn [set_srv w]. unfold cbind. unfold set_srv, w; cbn [w_srv w_time w_skew w_net].
  by rewrite Hrs.
Qed.
End refinement.

(** ** A fleet *)

Section fleet.
Context {Srv : Type} `{RedisLaws Srv} `{CursorJson} (prefix : string).
Context (Hprefix : is_empty prefix = false).
Local Abbreviation P := (srv_policy (Srv := Srv)).
Local Abbreviation kv := (with_connection_manager prefix).

(** What the fleet does, one event at a time: an operation of a replica whose
    clock is [skew] ahead; an upkeep script of any replica, on data keys it
    has found (sweep and backfill with the clock reading they are passed); a
    script of another component. *)
Inductive fleet_event : Type :=
| FleetOp (skew : Z) (op : kv_op)
| FleetSweep (now : Z) (keys : list string)
| FleetPrune (keys : list string)
| FleetBackfill (now : Z) (keys : list string)
| FleetOther (sc : script unit).

(** The script an event other than an operation runs. *)
Definition event_script (ev : fleet_event) : script unit :=
  let ki := index_key kv in
  let ke := expiry_key kv in
  match ev with
  | FleetOp _ _ => SRet tt
  | FleetSweep now keys => silent (SWEEP_LUA ki ke now (full_key kv <$> keys) 0)
  | FleetPrune keys => silent (PRUNE_LUA ki ke (full_key kv <$> keys) 0)
  | FleetBackfill now keys => silent (BACKFILL_LUA ki ke now (full_key kv <$> keys) 0)
  | FleetOther sc => sc
  end.

Fixpoint run_fleet (evs : list (N * fleet_event)) (t : Z) (s : Srv) :
    Z * Srv * list (result kv_res cluster_error) :=
  match evs with
  | [] => (t, s, [])
  | (pause, ev) :: evs =>
      let t := t + Z.of_N pause in
      match ev with
      | FleetOp skew op =>
          let '(w, r) := run_op prefix op (World s t skew []) in
          let '(st, rs) := run_fleet evs (w_time w) (w_srv w) in
          (st, r :: rs)
      | ev => run_fleet evs t (run t (event_script ev) s).1
      end
  end.

Fixpoint spec_fleet (evs : list (N * fleet_event)) (t : Z) (m : model) :
    Z * model * list (option kv_res) :=
  match evs with
  | [] => (t, m, [])
  | (pause, ev) :: evs =>
      let t := t + Z.of_N pause in
      let m := spec_later P t m in
      match ev with
      | FleetOp skew op =>
          let '(m, x) := spec_op P t (t + skew) op m in
          let '(st, xs) := spec_fleet evs t m in
          (st, x :: xs)
      | _ => spec_fleet evs t m
      end
  end.

Fixpoint fleet_in_range (evs : list (N * fleet_event)) (t : Z) (m : model) : Prop :=
  match evs with
  | [] => True
  | (pause, ev) :: evs =>
      let t := t + Z.of_N pause in
      let m := spec_later P t m in
      t ≤ 2 ^ 53 ∧
      match ev with
      | FleetOp skew op => op_in_range P op m ∧ fleet_in_range evs t (spec_op P t (t + skew) op m).1
      | FleetOther sc => within (λ k, ¬ store_key prefix k) sc ∧ fleet_in_range evs t m
      | _ => fleet_in_range evs t m
      end
  end.

(** Scripts that change no data key and keep the index: upkeep and the other
    components. *)
Definition background (sc : script unit) : Prop :=
  ∀ t d, indexed kv d →
    indexed kv (d_run P t sc d).1 ∧
    ∀ key, (d_run P t sc d).1 !! full_key kv key = d !! full_key kv key.

Lemma background_upkeep {A} (sc : script A) (f : Z → db → string → db) args :
  data_keys kv args →
  (∀ t d, upkeep_ok (index_key kv) (expiry_key kv) d → ∃ a, d_run P t sc d = (foldl (f t) d args, Ok a)) →
  (∀ t d k, framed (index_key kv) (expiry_key kv) d (f t d k)) →
  (∀ t key d, layout kv d → kept kv d (f t d (full_key kv key))) →
  background (silent sc).
Proof.
  intros Hargs Hrun Hframed Hkept t d [Hl Hh].
  assert (Hok : upkeep_ok (index_key kv) (expiry_key kv) d) by (destruct Hl; by split).
  destruct (Hrun t d Hok) as [a Ha]. unfold silent. rewrite d_run_bind, Ha. cbn. clear Hrun Ha Hok.
  split; [|intros key].
  - revert d Hl Hh. induction Hargs as [|m args [key ->] _ IH]; intros d Hl Hh; cbn [foldl]; [by split|].
    destruct (Hkept t key d Hl) as [Hl' Hk']. apply IH; [done|]. intros k. apply Hk', Hh.
  - clear Hl Hh Hargs. revert d. induction args as [|m args IH]; intros d; cbn [foldl]; [done|].
    rewrite IH. apply Hframed; [by eapply full_key_ne_index|by eapply full_key_ne_expiry].
Qed.

Lemma safe_kept d d' : layout kv d → safe kv d d' → kept kv d d'.
Proof. intros Hl [Hs _]. by apply Hs. Qed.

Lemma background_sweep now args :
  data_keys kv args → background (silent (SWEEP_LUA (index_key kv) (expiry_key kv) now args 0)).
Proof.
  intros Hargs. apply (background_upkeep _ (λ t, sweep_one t (index_key kv) (expiry_key kv) now) args Hargs).
  - intros t d Hok. eexists. apply run_sweep; [by eapply index_ne_expiry|by eapply data_keys_args|done].
  - intros. apply framed_sweep.
  - intros t key d Hl. apply safe_kept; [done|]. by eapply safe_sweep_one.
Qed.

Lemma background_prune args :
  data_keys kv args → background (silent (PRUNE_LUA (index_key kv) (expiry_key kv) args 0)).
Proof.
  intros Hargs. apply (background_upkeep _ (λ _, prune_one (index_key kv) (expiry_key kv)) args Hargs).
  - intros t d Hok. eexists. apply run_prune; [by eapply index_ne_expiry|by eapply data_keys_args|done].
  - intros. apply framed_prune.
  - intros t key d Hl. apply safe_kept; [done|]. by eapply safe_prune_one.
Qed.

Lemma background_backfill now args :
  data_keys kv args → background (silent (BACKFILL_LUA (index_key kv) (expiry_key kv) now args 0)).
Proof.
  intros Hargs.
  apply (background_upkeep _ (λ t, backfill_one t (index_key kv) (expiry_key kv) now) args Hargs).
  - intros t d Hok. eexists. apply run_backfill; [by eapply index_ne_expiry|by eapply data_keys_args|done].
  - intros. apply framed_backfill.
  - intros t key d Hl. by eapply kept_backfill_one.
Qed.

Lemma background_elsewhere (sc : script unit) :
  within (λ k, ¬ store_key prefix k) sc → background sc.
Proof.
  intros Hsc t d [Hl Hh].
  assert (Hsame : ∀ m, store_key prefix m → (d_run P t sc d).1 !! m = d !! m)
    by (intros m Hm; eapply run_outside; [exact Hsc|tauto]).
  split; [|intros key; apply Hsame; right; right; eauto].
  destruct (kept_same prefix _ _ Hsame Hl) as [Hl' Hk]. split; [done|]. intros key. apply Hk, Hh.
Qed.

Lemma data_keys_full (keys : list string) : data_keys kv (full_key kv <$> keys).
Proof. apply Forall_fmap, Forall_true. intros key. by exists key. Qed.

(** Every event but an operation is background, in range. *)
Lemma background_event ev :
  match ev with FleetOther sc => within (λ k, ¬ store_key prefix k) sc | _ => True end →
  background (event_script ev).
Proof.
  destruct ev as [skew op|now keys|keys|now keys|sc]; intros Hev; cbn [event_script].
  - intros t d Hd. by split.
  - apply background_sweep, data_keys_full.
  - apply background_prune, data_keys_full.
  - apply background_backfill, data_keys_full.
  - by apply background_elsewhere.
Qed.

Lemma fleet_refines evs t s m :
  0 ≤ t → indexed kv (view t s) → stores prefix (view t s) m → fleet_in_range evs t m →
  let '(t', s', rs) := run_fleet evs t s in
  let '(t'', m', xs) := spec_fleet evs t m in
  t' = t'' ∧ Forall2 (λ r x, result_matches r x) rs xs ∧
  stores prefix (view t' s') m' ∧ indexed kv (view t' s').
Proof.
  revert t s m. induction evs as [|[pause ev] evs IH]; intros t s m Ht Hd Hs Hr;
    cbn [run_fleet spec_fleet].
  { split; [done|]. split; [constructor|done]. }
  cbn [fleet_in_range] in Hr. set (t1 := t + Z.of_N pause) in *. destruct Hr as [Ht1 Hr].
  assert (Hle : t ≤ t1) by lia.
  pose proof (indexed_later prefix t t1 s Hle Hd) as Hd1.
  pose proof (stores_later prefix t t1 s m Hle Hs) as Hs1.
  assert (Hscript : ∀ Hev : match ev with FleetOther sc => within (λ k, ¬ store_key prefix k) sc | _ => True end,
      indexed kv (view t1 (run t1 (event_script ev) s).1) ∧
      stores prefix (view t1 (run t1 (event_script ev) s).1) (spec_later P t1 m)).
  { intros Hev. destruct (run_view t1 (event_script ev) s) as [-> _].
    destruct (background_event ev Hev t1 (view t1 s) Hd1) as [Hd2 Hsame].
    split; [done|]. intros key. rewrite Hsame. apply Hs1. }
  destruct ev as [skew op|now keys|keys|now keys|sc].
  2-4: destruct (Hscript I) as [Hd2 Hs2]; by apply IH; [lia|..].
  - destruct Hr as [Hop Hr]. set (w := World s t1 skew []).
    pose proof (op_refines prefix Hprefix w (spec_later P t1 m) eq_refl) as Href.
    cbn [w_time w_srv w] in Href. specialize (Href ltac:(lia) Hd1 Hs1 op Hop).
    unfold refines_at in Href. cbn [w_time w_skew w] in Href.
    destruct (spec_op P t1 (t1 + skew) op (spec_later P t1 m)) as [m1 x] eqn:Espec.
    destruct Href as (s1 & r & Hrun & Hmatch & Hs2).
    assert (Hd2 : indexed kv (view t1 s1))
      by (eapply (op_keeps_index prefix Hprefix op _ w); [done|done|simpl; lia|exact Hd1|exact Hrun]).
    fold w. rewrite Hrun. cbn [set_srv w w_time w_srv].
    specialize (IH t1 s1 m1 ltac:(lia) Hd2 Hs2 Hr).
    destruct (run_fleet evs t1 s1) as [[t' s'] rs], (spec_fleet evs t1 m1) as [[t'' m'] xs].
    destruct IH as (-> & Hrs & Hst & Hix). split; [done|]. split; [by constructor|done].
  - destruct Hr as [Hsc Hr], (Hscript Hsc) as [Hd2 Hs2]. by apply IH; [lia|..].
Qed.
End fleet.
