(* ===== verification/KvRef.v ===== *)
(** * Concrete data for the key/value store's properties

    A cursor encoding, and small databases of the concrete server of
    [RedisRef.v], on which the properties are instantiated. *)

From Stdlib Require Import Ascii.
From S2P Require Import Prelude Redis RedisRef Client DbFacts Keys KvScripts KvIndex KvStore KvSpec KvOps KvHistory.

(** ** A cursor encoding *)

#[export] Instance scan_cursor_countable : Countable scan_cursor.
Proof.
  refine (inj_countable' (λ c, (scan_at c, pending c, done_ c))
            (λ '(a, p, d), ScanCursor a p d) _).
  by intros [].
Defined.

Fixpoint bits (p : positive) : string :=
  match p with
  | xH => ""
  | xO p => String "0"%char (bits p)
  | xI p => String "1"%char (bits p)
  end.

Fixpoint of_bits (s : string) : positive :=
  match s with
  | EmptyString => xH
  | String c s => if decide (c = "0"%char) then xO (of_bits s) else xI (of_bits s)
  end.

Lemma of_bits_bits p : of_bits (bits p) = p.
Proof. induction p as [p IH|p IH|]; simpl; by rewrite ?IH. Qed.

#[export] Instance ref_cursor_json : CursorJson := {|
  cursor_to_string c := Ok (bits (encode c));
  cursor_from_str s := decode (of_bits s);
|}.

#[export] Instance ref_cursor_laws : CursorJsonLaws.
Proof.
  split; [done|]. intros c s [= <-]. simpl. by rewrite of_bits_bits, decode_encode.
Qed.

(** ** Databases *)

Lemma indexed_empty prefix : indexed (with_connection_manager prefix) ∅.
Proof.
  split; [split|]; unfold zset_ok, index_of, expiry_of, zset_of; simpl;
    rewrite ?lookup_empty; try done.
  intros key [v Hv]. by rewrite lookup_empty in Hv.
Qed.

Lemma view_empty t : view t (∅ : ref_srv) = ∅.
Proof. apply map_filter_empty. Qed.

Lemma stores_empty prefix t : stores prefix (view t (∅ : ref_srv)) ∅.
Proof. intros key. by rewrite view_empty, !lookup_empty. Qed.

(** A replica alone at server time 1000. *)
Definition alone (d : ref_srv) : world ref_srv := World d 1000 0 [].

(** The server after a history under the prefix [app]. *)
Definition app_kv : redis_kv := with_connection_manager "app".

Definition after (h : history) : world ref_srv := (run_history "app" h (alone ∅)).1.

Lemma history_keeps_index h (w : world ref_srv) :
  quiet w → 0 ≤ w_time w → Forall (λ p, call_in_range (CallOp p.2)) h →
  w_time (run_history "app" h w).1 ≤ 2 ^ 53 →
  indexed app_kv (view (w_time w) (w_srv w)) →
  index_inv "app" (w_time (run_history "app" h w).1) (w_srv (run_history "app" h w).1).
Proof.
  intros Hq Ht Hh Hend Hd.
  assert (Hp : preserves (2 ^ 53) (index_inv "app") (run_history (Srv := ref_srv) "app" h)).
  { clear -Hh. induction Hh as [|[pause op] h Hop _ IH]; simpl; [by apply yields_ret|].
    pose proof (forwards_op (Srv := ref_srv) "app" op).
    pose proof (forwards_history (Srv := ref_srv) "app" h).
    apply preserves_bind; [apply preserves_sleep, index_inv_stable|intros; forwards|]. intros _.
    apply preserves_bind; [|intros; forwards|intros; by apply preserves_end].
    apply preserves_result, (preserves_op "app" false); [done|apply index_inv_stable|auto| |done].
    intros t s1 s2 _ [Ht1 Hs1] Hstep. split; [done|].
    destruct (kv_step_safe "app" eq_refl false _ _ Hstep Hs1) as [Hs2 _]. exact Hs2. }
  apply (Hp w Hend). split; [by split|]. unfold others_ok. rewrite Hq. constructor.
Qed.

(** A history's database is indexed: the side conditions compute. *)
Lemma after_indexed h :
  Forall (λ p, call_in_range (CallOp p.2)) h → w_time (after h) ≤ 2 ^ 53 →
  indexed app_kv (view (w_time (after h)) (w_srv (after h))).
Proof.
  intros Hh Hend. apply history_keeps_index; [done|done|done|done|].
  cbn [alone w_time w_srv]. rewrite view_empty. apply indexed_empty.
Qed.

(** It holds what the contract says. *)
Lemma after_stores h :
  history_in_range (srv_policy (Srv := ref_srv)) 1000 0 h ∅ →
  stores "app" (view (w_time (after h)) (w_srv (after h)))
    (spec_history (srv_policy (Srv := ref_srv)) 1000 0 h ∅).1.
Proof.
  intros Hr. destruct (history_refines "app" eq_refl h 1000 0 (∅ : ref_srv) ∅) as (s & rs & Hrun & _ & Hs);
    [lia|rewrite view_empty; apply indexed_empty|apply stores_empty|done|].
  unfold after, alone. rewrite Hrun. exact Hs.
Qed.

(** Three keys, one of them short-lived. *)
Definition three : history :=
  [(0%N, OpPut "b" "2" None); (0%N, OpPut "a" "1" (Some (from_millis 5000)));
   (0%N, OpIncr "n" 7 None)].

Lemma three_indexed : indexed app_kv (view (w_time (after three)) (w_srv (after three))).
Proof.
  apply after_indexed; [|vm_compute; congruence].
  repeat constructor; simpl; unfold ttl_in_range; vm_compute; congruence.
Qed.

(** Another replica's write. *)
Definition other_put (key value : string) : script unit :=
  silent (SET_LUA (full_key app_kv key) (index_key app_kv) (expiry_key app_kv) value 0 1000 false).

Lemma other_put_keeps T key value : keeps (Srv := ref_srv) T (index_inv "app") (other_put key value).
Proof.
  intros t s _ [Ht Hs]. split; [done|]. unfold other_put. rewrite run_silent.
  destruct (kv_step_safe "app" eq_refl false (t, s) _ (step_set "app" false t s key value 0 1000 false) Hs)
    as [Hs' _].
  exact Hs'.
Qed.

Lemma other_put_keeps_cover T key value :
  keeps (Srv := ref_srv) T (covered_inv "app") (other_put key value).
Proof.
  intros t s HT [Hi Hc]. split; [by apply (other_put_keeps T)|]. unfold other_put. rewrite run_silent.
  destruct Hi as [_ Hs].
  destruct (kv_step_safe "app" eq_refl true (t, s) _ (step_set "app" true t s key value 0 1000 false) Hs)
    as [_ Hc'].
  by apply Hc'.
Qed.

(** A network on which another replica writes, and then a reply is lost. *)
Definition busy : list net_event :=
  [NetEvent 5 [other_put "c" "3"] Delivered; NetEvent 0 [] LostReply; NetEvent 7 [] Delivered].

Definition busy_at (t : Z) (s : ref_srv) : world ref_srv := World s t 0 busy.

Definition busy_after (h : history) : world ref_srv := busy_at (w_time (after h)) (w_srv (after h)).

Lemma busy_good I T t s :
  I t s → keeps T I (other_put "c" "3") → good (Srv := ref_srv) T I (busy_at t s).
Proof.
  intros HI Hk. split; [exact HI|]. apply Forall_cons. split; [by apply Forall_singleton|].
  repeat constructor.
Qed.

Lemma covered_empty prefix t : expiry_covers (with_connection_manager prefix) (view t (∅ : ref_srv)).
Proof.
  intros m. rewrite view_empty. unfold index_of, zset_of. rewrite lookup_empty.
  intros [x Hx]. by rewrite lookup_empty in Hx.
Qed.

Lemma covered_inv_empty prefix t : 0 ≤ t → covered_inv prefix t (∅ : ref_srv).
Proof.
  intros Ht. split; [split; [done|]|apply covered_empty]. rewrite view_empty. apply indexed_empty.
Qed.
