(* ===== verification/KvProperties.v ===== *)
(** * Properties of the key/value store

    What the store ([src/src/state/kv.rs]) guarantees, for any Redis server
    that behaves as documented; each property with hypotheses is followed by
    an instance of it on the concrete server. *)

From S2P Require Import Prelude Redis RedisRef Client DbFacts Keys Footprint KvScripts KvIndex KvStore KvSpec KvOps KvHistory KvListing KvScan KvUpkeep KvSweep KvRef.

(** ** The contract *)

(** C1. The store implements its contract: along any history of operations
    with pauses between them, alone on the network, every answer - values,
    deadlines, winners, counters, failed preconditions - is that of the plain
    map of [spec_op], and the data keys stay that map, expiry included. *)
Theorem kv_refines_contract {Srv : Type} `{RedisLaws Srv} `{CursorJson}
    (prefix : string) (h : history) (t skew : Z) (s : Srv) (m : model) :
  is_empty prefix = false →
  0 ≤ t →
  indexed (with_connection_manager prefix) (view t s) →
  stores prefix (view t s) m →
  history_in_range (srv_policy (Srv := Srv)) t skew h m →
  ∃ s' rs,
    run_history prefix h (World s t skew []) = (World s' (history_time t h) skew [], Ok rs) ∧
    Forall2 (λ r x, result_matches r x) rs
      (spec_history (srv_policy (Srv := Srv)) t skew h m).2 ∧
    stores prefix (view (history_time t h) s')
      (spec_history (srv_policy (Srv := Srv)) t skew h m).1.
Proof. intros. by apply history_refines. Qed.

(** A history with every operation in it: a key that expires in a pause, a
    counter, a claim that loses. *)
Definition tour : history :=
  [(0%N, OpPut "a" "1" (Some (from_millis 50))); (10%N, OpGet "a");
   (0%N, OpPutIfAbsent "a" "2" None); (60%N, OpPutIfAbsent "a" "3" None);
   (0%N, OpIncr "n" 7 None); (0%N, OpIncrFloor "n" 1 100 (Some (from_millis 90)));
   (0%N, OpExpire "a" (Some (from_millis 30))); (5%N, OpDelete "n"); (40%N, OpGet "a")].

Lemma kv_refines_contract_witness :
  ∃ s' rs,
    run_history "app" tour (World (∅ : ref_srv) 1000 3 []) =
      (World s' (history_time 1000 tour) 3 [], Ok rs) ∧
    Forall2 (λ r x, result_matches r x) rs (spec_history (srv_policy (Srv := ref_srv)) 1000 3 tour ∅).2 ∧
    stores "app" (view (history_time 1000 tour) s') (spec_history (srv_policy (Srv := ref_srv)) 1000 3 tour ∅).1.
Proof.
  apply (kv_refines_contract "app" tour 1000 3 (∅ : ref_srv) ∅).
  - reflexivity.
  - lia.
  - rewrite view_empty. apply indexed_empty.
  - apply stores_empty.
  - vm_compute. repeat split; try discriminate; intros z [= <-]; repeat split; discriminate.
Defined.

(** C2. So does a fleet of it: replicas whose clocks differ take turns in any
    order, with pauses, while any of them runs the sweep, prune and backfill
    scripts on whatever data keys it likes, live ones included, with whatever
    clock, and scripts of other components write outside the store; every
    answer is still the contract's, the data keys are still its map, and the
    index stays whole. *)
Theorem kv_fleet_contract {Srv : Type} `{RedisLaws Srv} `{CursorJson}
    (prefix : string) (evs : list (N * fleet_event)) (t : Z) (s : Srv) (m : model) :
  is_empty prefix = false → 0 ≤ t →
  indexed (with_connection_manager prefix) (view t s) → stores prefix (view t s) m →
  fleet_in_range (Srv := Srv) prefix evs t m →
  let '(t', s', rs) := run_fleet prefix evs t s in
  let '(t'', m', xs) := spec_fleet (Srv := Srv) evs t m in
  t' = t'' ∧ Forall2 (λ r x, result_matches r x) rs xs ∧
  stores prefix (view t' s') m' ∧ indexed (with_connection_manager prefix) (view t' s').
Proof. intros. by apply fleet_refines. Qed.

(** One replica writes, another reads with a clock 7 ms behind, a third runs
    the upkeep scripts on a live key and a missing one, a fence is counted;
    then the key is gone, and swept. *)
Definition crew : list (N * fleet_event) :=
  [(0%N, FleetOp 0 (OpPut "a" "1" (Some (from_millis 50)))); (10%N, FleetOp (-7) (OpGet "a"));
   (0%N, FleetPrune ["a"; "b"]); (0%N, FleetSweep 1010 ["a"; "b"]); (0%N, FleetBackfill 1017 ["a"; "b"]);
   (0%N, FleetOther (silent (call (INCRBY "applocks/jobs:fence" 1)))); (5%N, FleetOp 0 (OpGet "a"));
   (45%N, FleetSweep 1053 ["a"]); (0%N, FleetBackfill 1060 ["a"]);
   (0%N, FleetOp 3 (OpPutIfAbsent "a" "2" None)); (5%N, FleetOp (-7) (OpIncr "a" 40 None))].

Lemma fence_elsewhere :
  within (λ k, ¬ store_key "app" k) (silent (call (INCRBY "applocks/jobs:fence" 1))).
Proof. apply within_silent, within_call. intros [Hk|[Hk|[key Hk]]]; discriminate Hk. Qed.

Lemma crew_in_range : fleet_in_range (Srv := ref_srv) "app" crew 1000 ∅.
Proof.
  cbn [crew fleet_in_range]. cbv zeta.
  repeat match goal with |- _ ∧ _ => split end;
    try exact fence_elsewhere; try exact I; vm_compute; repeat split; try discriminate; intros; repeat split; try discriminate.
Qed.

Lemma kv_fleet_contract_witness :
  let '(t', s', rs) := run_fleet "app" crew 1000 (∅ : ref_srv) in
  let '(t'', m', xs) := spec_fleet (Srv := ref_srv) crew 1000 ∅ in
  t' = t'' ∧ Forall2 (λ r x, result_matches r x) rs xs ∧
  stores "app" (view t' s') m' ∧ indexed app_kv (view t' s').
Proof.
  apply (kv_fleet_contract "app" crew 1000 (∅ : ref_srv) ∅).
  - reflexivity.
  - lia.
  - rewrite view_empty. apply indexed_empty.
  - apply stores_empty.
  - exact crew_in_range.
Defined.

(** ** The indexes *)

(** C4. The key index holds every data key, however the fleet's calls and
    scripts interleave: any call of the store, whatever its arguments and
    however the network treats it - requests and replies lost, other clients'
    index-keeping scripts in between - leaves it so. *)
Theorem kv_call_keeps_index {Srv : Type} `{RedisLaws Srv} `{CursorJson}
    (prefix : string) (T : Z) (fuel : nat) (c : kv_call) (w : world Srv) :
  is_empty prefix = false →
  T ≤ 2 ^ 53 →
  call_in_range c →
  good T (index_inv prefix) w →
  w_time (run_call prefix fuel c w).1 ≤ T →
  indexed (with_connection_manager prefix)
    (view (w_time (run_call prefix fuel c w).1) (w_srv (run_call prefix fuel c w).1)).
Proof.
  intros Hprefix HT Hc Hw Hend.
  destruct (preserves_call prefix Hprefix false T HT (index_inv prefix)) with (fuel := fuel) (c := c) (w := w)
    as [[[_ Hi] _] _]; try done; [apply index_inv_stable|].
  intros t s s' _ [Ht Hs] Hstep. split; [done|].
  destruct (kv_step_safe prefix Hprefix false _ _ Hstep Hs) as [Hs' _]. exact Hs'.
Qed.

(** A counter's write loses its reply. *)
Lemma kv_call_keeps_index_witness :
  let w := busy_after three in
  let w' := (run_call "app" 5 (CallListPage true "" None 2) w).1 in
  indexed app_kv (view (w_time w') (w_srv w')).
Proof.
  apply (kv_call_keeps_index "app" (2 ^ 53) 5 (CallListPage true "" None 2) (busy_after three)).
  - reflexivity.
  - lia.
  - exact I.
  - apply busy_good; [split; [vm_compute; discriminate|exact three_indexed]|apply other_put_keeps].
  - vm_compute. discriminate.
Defined.

(** The expiry index covers every indexed key that can expire, so a sweep
    will find it: every call of the store but the backfill keeps it so, under
    the same network. *)
Theorem kv_call_keeps_cover {Srv : Type} `{RedisLaws Srv} `{CursorJson}
    (prefix : string) (T : Z) (fuel : nat) (c : kv_call) (w : world Srv) :
  is_empty prefix = false →
  T ≤ 2 ^ 53 →
  call_in_range c → c ≠ CallBackfill →
  good T (covered_inv prefix) w →
  w_time (run_call prefix fuel c w).1 ≤ T →
  expiry_covers (with_connection_manager prefix)
    (view (w_time (run_call prefix fuel c w).1) (w_srv (run_call prefix fuel c w).1)).
Proof.
  intros Hprefix HT Hc Hb Hw Hend.
  destruct (preserves_call prefix Hprefix true T HT (covered_inv prefix)) with (fuel := fuel) (c := c) (w := w)
    as [[[_ Hi] _] _]; try done; [by apply covered_inv_stable|by intros ?? []|].
  intros t s s' _ [[Ht Hs] Hcov] Hstep.
  destruct (kv_step_safe prefix Hprefix true _ _ Hstep Hs) as [Hs' Hcov']. by split; [|apply Hcov'].
Qed.

Lemma kv_call_keeps_cover_witness :
  let w := busy_at 1000 ∅ in
  let w' := (run_call "app" 5 (CallOp (OpPut "k" "v" (Some (from_millis 9)))) w).1 in
  expiry_covers app_kv (view (w_time w') (w_srv w')).
Proof.
  apply (kv_call_keeps_cover "app" (2 ^ 53) 5 (CallOp (OpPut "k" "v" (Some (from_millis 9))))
    (busy_at 1000 ∅)).
  - reflexivity.
  - lia.
  - exact I.
  - discriminate.
  - apply busy_good; [apply covered_inv_empty; lia|apply other_put_keeps_cover].
  - vm_compute. discriminate.
Defined.

(** ** Listings *)

(** C11. Following the cursors of an index listing to its end, with any page
    size, returns exactly the live keys with the prefix, each once, in byte
    order, with its value and deadline: nothing is lost or repeated between
    pages, though pages drop stale index entries as they go. *)
Theorem index_listing_complete {Srv : Type} `{RedisLaws Srv} `{CursorJson}
    (prefix p : string) (fuel page_fuel : nat) (limit : Z) (w : world Srv) :
  let kv := with_connection_manager prefix in
  let d := view (w_time w) (w_srv w) in
  is_empty prefix = false →
  quiet w →
  indexed kv d → text_keys prefix d →
  1 ≤ limit < 2 ^ 63 - 1 →
  (size (index_of kv d) < fuel)%nat →
  ∃ s es,
    list_all prefix true fuel page_fuel p None limit w = (set_srv s w, Ok es) ∧
    str_sorted es.*1 ∧
    ∀ key e, (key, e) ∈ es ↔
      starts_with p key = true ∧
      entry_at (w_time w) (w_time w + w_skew w) d (full_key kv key) = Some e.
Proof.
  intros kv d Hprefix Hq Hd Htext Hlimit Hfuel.
  destruct (list_all_quiet prefix Hprefix fuel page_fuel p None limit w) as (s & Hall & _); try done.
  { cbn [past]. eapply Nat.le_lt_trans; [apply under_size|exact Hfuel]. }
  do 2 eexists. split; [exact Hall|]. cbn [past]. split.
  - apply found_sorted; [done|by apply under_sorted|by apply under_data].
  - intros key e. rewrite elem_of_found by (done || by apply under_data). fold d kv.
    rewrite elem_of_under, full_key_prefix by done. split; [tauto|].
    intros [Hp He]. split; [|done]. split; [done|].
    apply Hd. by eapply entry_at_Some.
Qed.

Lemma three_text : text_keys "app" (view (w_time (after three)) (w_srv (after three))).
Proof.
  intros m Hm. apply elem_of_zmembers in Hm. revert m Hm. apply Forall_forall.
  vm_compute. repeat constructor.
Qed.

Lemma index_listing_complete_witness :
  let w := World (w_srv (after three)) (w_time (after three)) 7 [] in
  ∃ s es,
    list_all "app" true 5 0 "" None 2 w = (set_srv s w, Ok es) ∧ str_sorted es.*1 ∧
    ∀ key e, (key, e) ∈ es ↔
      starts_with "" key = true ∧
      entry_at (w_time w) (w_time w + 7) (view (w_time w) (w_srv w)) (full_key app_kv key) = Some e.
Proof.
  apply (index_listing_complete "app" "" 5 0 2 (World (w_srv (after three)) (w_time (after three)) 7 [])).
  - reflexivity.
  - reflexivity.
  - exact three_indexed.
  - exact three_text.
  - lia.
  - vm_compute. lia.
Defined.

(** C14. Before the index is complete, following the cursors of a [SCAN]
    listing ends after finitely many pages and returns exactly the live keys
    with the prefix, with their values and deadlines, whatever the page size:
    the matches that do not fit on a page survive in its cursor. *)
Theorem scan_listing_complete {Srv : Type} `{RedisLaws Srv} `{CursorJsonLaws}
    (prefix p : string) (limit : Z) (w : world Srv) :
  let kv := with_connection_manager prefix in
  let d := view (w_time w) (w_srv w) in
  is_empty prefix = false →
  quiet w →
  layout kv d →
  1 ≤ limit →
  ∃ fuel page_fuel s es,
    list_all prefix false fuel page_fuel p None limit w = (set_srv s w, Ok es) ∧
    ∀ key e, (key, e) ∈ es ↔
      starts_with p key = true ∧
      entry_at (w_time w) (w_time w + w_skew w) d (full_key kv key) = Some e.
Proof.
  intros kv d Hprefix Hq Hd Hlimit.
  destruct (list_all_scan prefix Hprefix p limit Hlimit d Hd w Hq eq_refl) as (fuel & pf & s & keys & Hall & Hk).
  exists fuel, pf, s. eexists. split; [exact Hall|]. intros key e.
  rewrite elem_of_found; [|done|].
  - rewrite Hk. unfold listed. rewrite full_key_prefix by done.
    split; [tauto|]. intros [Hp He]. split; [|done]. split; [|done]. by eapply entry_at_Some.
  - apply Forall_forall. intros k Hin%Hk. by eapply listed_data.
Qed.

Lemma scan_listing_complete_witness :
  let w := World (w_srv (after three)) (w_time (after three)) 7 [] in
  ∃ fuel page_fuel s es,
    list_all "app" false fuel page_fuel "" None 1 w = (set_srv s w, Ok es) ∧
    ∀ key e, (key, e) ∈ es ↔
      starts_with "" key = true ∧
      entry_at (w_time w) (w_time w + 7) (view (w_time w) (w_srv w)) (full_key app_kv key) = Some e.
Proof.
  apply (scan_listing_complete "app" "" 1 (World (w_srv (after three)) (w_time (after three)) 7 [])).
  - reflexivity.
  - reflexivity.
  - exact (proj1 three_indexed).
  - lia.
Defined.

(** A cursor the store did not issue is refused as a failed precondition
    before anything is sent: the server and the network are untouched. *)
Theorem foreign_cursor_refused {Srv : Type} `{RedisServer Srv} `{CursorJson}
    (kv : redis_kv) (ready : bool) (fuel : nat) (p c state : string) (limit : Z) (w : world Srv) :
  strip_prefix "i" c = None →
  state = match strip_prefix "s" c with Some s => s | None => c end →
  cursor_from_str state = None →
  RedisKv.list_page kv ready fuel p (Some c) limit w =
    (w, Err (Precondition "redis kv list: not a cursor of this store")).
Proof.
  intros Hi Hs Hc. unfold RedisKv.list_page. rewrite Hi. subst state.
  destruct (strip_prefix "s" c); unfold RedisKv.scan_state, cbind; by rewrite Hc.
Qed.

(** The cursor of a store that writes nothing but stars. *)
Definition strict_json : CursorJson := {|
  cursor_to_string _ := Ok "*";
  cursor_from_str s := if decide (s = "*") then Some scan_cursor_default else None;
|}.

Lemma foreign_cursor_refused_witness :
  RedisKv.list_page (H0 := strict_json) app_kv true 3 "" (Some "{}") 5 (alone ∅) =
    (alone ∅, Err (Precondition "redis kv list: not a cursor of this store")).
Proof.
  apply (foreign_cursor_refused (H0 := strict_json) app_kv true 3 "" "{}" "{}" 5 (alone ∅));
    reflexivity.
Defined.

(** ** Upkeep *)

(** A backfill that returns has made the key index complete, although
    other replicas read, write, delete and expire keys between its steps and
    requests are delayed: it relies only on their keeping the layout and
    indexing what they write. *)
Theorem backfill_completes_index {Srv : Type} `{RedisLaws Srv}
    (prefix : string) (T : Z) (fuel : nat) (w w' : world Srv) (n : Z) :
  is_empty prefix = false →
  good T (layout_inv prefix) w →
  (∀ key, others_ok T (key_inv prefix key) (w_net w)) →
  RedisKv.backfill_index (with_connection_manager prefix) fuel w = (w', Ok n) →
  w_time w' ≤ T →
  indexed (with_connection_manager prefix) (view (w_time w') (w_srv w')).
Proof.
  intros Hprefix Hw Ho Hrun HT.
  assert (Hk : ∀ key, key_inv prefix key (w_time w') (w_srv w')).
  { intros key. eapply backfill_key; [done| |exact Hrun|done]. by split. }
  split; [apply (Hk "")|]. intros key. apply Hk.
Qed.

(** Two keys written before there was an index. *)
Definition unindexed : ref_srv :=
  {[ "app:x" := RVal (RStr "1") None; "app:y" := RVal (RStr "2") (Some 5000) ]}.

Lemma other_put_step settled t (s : ref_srv) key value :
  kv_step "app" settled (t, s) (t, (run t (other_put key value) s).1).
Proof. unfold other_put. rewrite run_silent. apply step_set. Qed.

Lemma layout_unindexed : layout app_kv (view 1000 unindexed).
Proof.
  assert (Hkeys : map_Forall (λ k v, (k = "app:x" ∨ k = "app:y") ∧ ∃ s, r_obj v = RStr s)
                    (view 1000 unindexed)).
  { intros k v [Hk _]%map_lookup_filter_Some. unfold unindexed in Hk.
    apply lookup_insert_Some in Hk as [[<- <-]|[_ Hk]]; [by eauto|].
    apply lookup_singleton_Some in Hk as [<- <-]. by eauto. }
  assert (Hi : view 1000 unindexed !! index_key app_kv = None) by (vm_compute; reflexivity).
  assert (He : view 1000 unindexed !! expiry_key app_kv = None) by (vm_compute; reflexivity).
  revert Hkeys Hi He. generalize (view 1000 unindexed) as d. intros d Hkeys Hi He.
  split; unfold zset_ok, index_of, expiry_of, zset_of; rewrite ?Hi, ?He; [done|done| | |].
  - intros key v Hv. apply (Hkeys _ _ Hv).
  - intros m x Hm. by rewrite lookup_empty in Hm.
  - intros m x Hm. by rewrite lookup_empty in Hm.
Qed.

Lemma backfill_completes_index_witness :
  let r := RedisKv.backfill_index app_kv 5
             (World unindexed 1000 0
                [NetEvent 5 [other_put "c" "3"] Delivered; NetEvent 9 [other_put "x" "4"] Delivered]) in
  r.2 = Ok 3 ∧ indexed app_kv (view (w_time r.1) (w_srv r.1)).
Proof.
  set (w := World unindexed 1000 0
    [NetEvent 5 [other_put "c" "3"] Delivered; NetEvent 9 [other_put "x" "4"] Delivered]).
  split; [vm_compute; reflexivity|].
  apply (backfill_completes_index "app" (2 ^ 53) 5 w _ 3).
  - reflexivity.
  - split; [exact layout_unindexed|].
    repeat (apply Forall_cons; split; [apply Forall_singleton, step_keeps_layout;
      [reflexivity|intros; apply other_put_step]|]); constructor.
  - intros key. repeat (apply Forall_cons; split; [apply Forall_singleton, step_keeps_key;
      [reflexivity|intros; apply other_put_step]|]); constructor.
  - vm_compute. reflexivity.
  - vm_compute. discriminate.
Defined.

(** Alone on the network a backfill ends: the server's pass is finite and
    no step of it fails. *)
Theorem backfill_ends {Srv : Type} `{RedisLaws Srv} (prefix : string) (w : world Srv) :
  is_empty prefix = false → quiet w →
  layout (with_connection_manager prefix) (view (w_time w) (w_srv w)) →
  ∃ fuel s n,
    RedisKv.backfill_index (with_connection_manager prefix) fuel w = (set_srv s w, Ok n).
Proof.
  intros Hprefix Hq Hl. destruct (backfill_returns prefix Hprefix w Hq Hl) as (fuel & s & n & Hrun & _).
  by exists fuel, s, n.
Qed.

Lemma backfill_ends_witness :
  ∃ fuel s n, RedisKv.backfill_index app_kv fuel (alone unindexed) = (set_srv s (alone unindexed), Ok n).
Proof.
  apply (backfill_ends "app" (alone unindexed)); [reflexivity|reflexivity|exact layout_unindexed].
Defined.

(** C15. A sweep returns after at most one round per [SWEEP_BATCH] due keys,
    counts exactly the due keys that are gone, takes exactly those out of the
    key index, leaves nothing due in the expiry index, and touches no data -
    provided no due key is in its last millisecond. *)
Theorem sweep_exact {Srv : Type} `{RedisLaws Srv} (prefix : string) (fuel : nat) (w : world Srv) :
  let kv := with_connection_manager prefix in
  let d := view (w_time w) (w_srv w) in
  let now := clock_ms w in
  is_empty prefix = false → quiet w →
  now < 2 ^ 53 →
  layout kv d →
  none_last prefix (w_time w) now d →
  Z.of_nat (size (due prefix now d)) < SWEEP_BATCH * Z.of_nat fuel →
  ∃ s,
    RedisKv.sweep kv fuel w = (set_srv s w, Ok (Z.of_nat (size (due_gone prefix now d)))) ∧
    (∀ k, k ≠ index_key kv → k ≠ expiry_key kv → view (w_time w) s !! k = d !! k) ∧
    (∀ m, index_of kv (view (w_time w) s) !! m =
          if decide (m ∈ due_gone prefix now d) then None else index_of kv d !! m) ∧
    due prefix now (view (w_time w) s) = ∅.
Proof.
  intros kv d now Hprefix Hq Hnow Hd Hleft Hfuel.
  destruct (sweep_loop_quiet prefix Hprefix fuel 0 w) as (s & Hrun & [Hf Hi Hdue _]); try done.
  exists s. by split.
Qed.

(** A key with a 50 ms TTL, swept 60 ms later. *)
Definition stale : history :=
  [(0%N, OpPut "b" "2" None); (0%N, OpPut "a" "1" (Some (from_millis 50))); (60%N, OpGet "b")].

Lemma sweep_exact_witness :
  let w := after stale in
  let d := view (w_time w) (w_srv w) in
  due_gone "app" (clock_ms w) d = {[ "app:a" ]} ∧
  ∃ s,
    RedisKv.sweep app_kv 1 w = (set_srv s w, Ok (Z.of_nat (size (due_gone "app" (clock_ms w) d)))) ∧
    (∀ k, k ≠ index_key app_kv → k ≠ expiry_key app_kv → view (w_time w) s !! k = d !! k) ∧
    (∀ m, index_of app_kv (view (w_time w) s) !! m =
          if decide (m ∈ due_gone "app" (clock_ms w) d) then None else index_of app_kv d !! m) ∧
    due "app" (clock_ms w) (view (w_time w) s) = ∅.
Proof.
  split; [apply (bool_decide_unpack _); vm_compute; reflexivity|].
  apply (sweep_exact "app" 1 (after stale)).
  - reflexivity.
  - vm_compute. reflexivity.
  - vm_compute. reflexivity.
  - apply (after_indexed stale); [repeat constructor|vm_compute; discriminate].
  - assert (Hdue : due "app" (clock_ms (after stale)) (view (w_time (after stale)) (w_srv (after stale))) =
      {[ "app:a" ]}) by (apply (bool_decide_unpack _); vm_compute; reflexivity).
    intros m Hm. rewrite Hdue in Hm. apply elem_of_singleton in Hm as ->.
    intros o dl. vm_compute. discriminate.
  - vm_compute. reflexivity.
Defined.

(** Whatever the replicas that write the index do, in any order and at any
    times, every data key stays in the key index, and, when no backfilled key
    is in its last millisecond, the expiry index stays a cover of the keys
    that can expire. *)
Theorem fleet_keeps_indexes {Srv : Type} `{RedisLaws Srv} (prefix : string) (settled : bool)
    (st st' : Z * Srv) :
  is_empty prefix = false →
  rtc (kv_step prefix settled) st st' →
  indexed (with_connection_manager prefix) (view st.1 st.2) →
  indexed (with_connection_manager prefix) (view st'.1 st'.2) ∧
  (settled = true →
   expiry_covers (with_connection_manager prefix) (view st.1 st.2) →
   expiry_covers (with_connection_manager prefix) (view st'.1 st'.2)).
Proof. intros. by apply (kv_steps_safe prefix). Qed.

Lemma fleet_keeps_indexes_witness :
  let s1 : ref_srv := (run 1000 (other_put "k" "v") (∅ : ref_srv)).1 in
  let s2 := (run 1040 (DEL_LUA "app:k" (index_key app_kv) (expiry_key app_kv)) s1).1 in
  indexed app_kv (view 1040 s2) ∧ (true = true →
    expiry_covers app_kv (view 1000 (∅ : ref_srv)) → expiry_covers app_kv (view 1040 s2)).
Proof.
  intros s1 s2. apply (fleet_keeps_indexes "app" true (1000, (∅ : ref_srv)) (1040, s2)).
  - reflexivity.
  - apply (rtc_l _ _ (1000, s1)); [apply other_put_step|].
    apply (rtc_l _ _ (1040, s1)); [apply step_time; lia|].
    apply rtc_once. exact (step_del "app" true 1040 s1 "k").
  - cbn [fst snd]. rewrite view_empty. apply indexed_empty.
Defined.

(** ** Counters *)


(** A counter at 2^53. *)
Definition at_edge : history := [(0%N, OpPut "n" "9007199254740992" None)].

Definition edge_model : model := {[ "n" := ("9007199254740992", None) ]}.

Lemma edge_stores : stores "app" (view 1000 (w_srv (after at_edge))) edge_model.
Proof.
  assert (Hm : (spec_history (srv_policy (Srv := ref_srv)) 1000 0 at_edge ∅).1 = edge_model)
    by (apply (bool_decide_unpack _); vm_compute; reflexivity).
  rewrite <- Hm. apply (after_stores at_edge). vm_compute. repeat split; discriminate.
Qed.

Lemma edge_indexed : indexed app_kv (view 1000 (w_srv (after at_edge))).
Proof. apply (after_indexed at_edge); [repeat constructor|vm_compute; discriminate]. Qed.


(** C38. A TTL the server refuses does not undo the increment: the call fails,
    but the counter has its new value and old expiry, and the key is not in
    the index unless it was. *)
Theorem refused_ttl_counts {Srv : Type} `{RedisLaws Srv} `{CursorJson}
    (prefix key : string) (delta z : Z) (ttl : option Z) (w : world Srv) (m : model) :
  let kv := with_connection_manager prefix in
  let P := srv_policy (Srv := Srv) in
  is_empty prefix = false → quiet w → 0 ≤ w_time w ≤ 2 ^ 53 →
  indexed kv (view (w_time w) (w_srv w)) → stores prefix (view (w_time w) (w_srv w)) m →
  counter P m key = Some z → is_i64 (z + delta) = true →
  px_refused P (w_time w) (ttl_ms ttl) = true →
  ∃ s e,
    RedisKv.incr kv key delta ttl w = (set_srv s w, Err (BackendUnavailable e)) ∧
    view (w_time w) s =
      <[full_key kv key := RVal (RStr (of_int P (z + delta))) (m !! key ≫= snd)]> (view (w_time w) (w_srv w)).
Proof.
  intros kv P Hp Hq Ht Hd Hs Hc Hi Href. subst kv P.
  set (sc := incr_steps (err_table srv_policy) (full_key (with_connection_manager prefix) key)
    (index_key (with_connection_manager prefix)) (expiry_key (with_connection_manager prefix)) delta
    (ttl_ms ttl) (clock_ms w)).
  set (d' := <[full_key (with_connection_manager prefix) key :=
                 RVal (RStr (of_int srv_policy (z + delta))) (m !! key ≫= snd)]>
               (view (w_time w) (w_srv w))).
  assert (Hrun : d_run srv_policy (w_time w) sc (view (w_time w) (w_srv w)) = (d', Err bad_expire)).
  { unfold sc. rewrite run_incr_steps; [|by eapply full_key_ne_index|by eapply full_key_ne_expiry
      |by eapply index_ne_expiry|by destruct Hd as [[? ? _ _ _] _]].
    rewrite (incrby_counter prefix w m Hs), Hc, Hi, Href. unfold d'. by destruct (m !! key) as [[]|]. }
  destruct (invoke_quiet_view sc w d' _ Hq Hrun) as (s & Hinv & Hv).
  exists s. eexists. split; [|exact Hv].
  subst sc. unfold RedisKv.incr, INCR_LUA, cbind, now_ms, cmap_err. rewrite Hinv. reflexivity.
Qed.

Lemma refused_ttl_counts_witness :
  ∃ s e,
    RedisKv.incr app_kv "n" 1 (Some (from_millis u64_max)) (after at_edge) =
      (set_srv s (after at_edge), Err (BackendUnavailable e)) ∧
    view 1000 s =
      <[full_key app_kv "n" :=
          RVal (RStr (of_int (srv_policy (Srv := ref_srv)) (2 ^ 53 + 1))) (edge_model !! "n" ≫= snd)]>
        (view 1000 (w_srv (after at_edge))).
Proof.
  refine (refused_ttl_counts "app" "n" 1 (2 ^ 53) (Some (from_millis u64_max)) (after at_edge) edge_model
    _ _ _ edge_indexed edge_stores _ _ _).
  - reflexivity.
  - vm_compute. reflexivity.
  - vm_compute. split; discriminate.
  - vm_compute. reflexivity.
  - vm_compute. reflexivity.
  - vm_compute. reflexivity.
Defined.

(** ** Reads under concurrency *)

(** A read is two commands: when another replica replaces a permanent value
    by one that lives 50 ms in between, the read returns the old value with
    the new one's deadline - which the key never had. *)
Example get_tears :
  let before := after [(0%N, OpPut "a" "old" None)] in
  let others := [silent (SET_LUA (full_key app_kv "a") (index_key app_kv) (expiry_key app_kv) "new" 50 1010 false)] in
  let w := World (w_srv before) 1000 0 [NetEvent 5 [] Delivered; NetEvent 5 others Delivered] in
  (RedisKv.get (Srv := ref_srv) app_kv "a" w).2 = Ok (Some (Entry "old" (Some 1060))).
Proof. by vm_compute. Qed.

(** ** Names *)

(** C36. Under one prefix the names of data keys, indexes, peers, leases and
    fences never collide, with one exception: the fence counter of a lease
    [x] is the key of a lease of the same kind called [x:fence]. *)
Theorem keys_distinct (prefix : string) (k1 k2 : redis_key) :
  is_empty prefix = false → render prefix k1 = render prefix k2 ↔ same_name k1 k2.
Proof.
  intros Hp. rewrite !render_suffix by done. split.
  - intros E%append_inj_l. by apply suffix_same_name.
  - intros E%same_name_suffix. by rewrite E.
Qed.

Lemma keys_distinct_witness :
  render "app" (KLock "x:fence") = render "app" (KLockFence "x") ∧
  (render "app" (KData "peers") = render "app" KPeers ↔ same_name (KData "peers") KPeers).
Proof. split; [reflexivity|]. apply (keys_distinct "app"). reflexivity. Defined.
