(* ===== verification/Text.v ===== *)
(** * Text

    Rust strings are UTF-8; the development keeps their bytes.  This file has
    the parts of [str] that the program uses beyond bytes: validity
    ([std::str::from_utf8]), Unicode white space ([str::trim] and
    [str::trim_start]), and [find] and [rfind] of characters. *)

From Stdlib Require Import Ascii.
From S2P Require Import Prelude.

Definition byte (a : ascii) : Z := Z.of_N (N_of_ascii a).

Definition in_range (lo hi : Z) (a : ascii) : bool := (lo <=? byte a) && (byte a <=? hi).

(** A continuation byte. *)
Definition cont (a : ascii) : bool := in_range 128 191 a.

(** ** Validity

    The well-formed byte sequences of the Unicode standard: no overlong
    form, no surrogate, nothing past U+10FFFF. *)

Fixpoint utf8 (s : string) : bool :=
  match s with
  | EmptyString => true
  | String a s =>
      if in_range 0 127 a then utf8 s
      else
        match s with
        | String b s =>
            if in_range 194 223 a then cont b && utf8 s
            else
              match s with
              | String c s =>
                  let second3 :=
                    if byte a =? 224 then in_range 160 191 b
                    else if byte a =? 237 then in_range 128 159 b
                    else cont b in
                  if in_range 224 239 a then second3 && cont c && utf8 s
                  else
                    match s with
                    | String d s =>
                        let second4 :=
                          if byte a =? 240 then in_range 144 191 b
                          else if byte a =? 244 then in_range 128 143 b
                          else cont b in
                        in_range 240 244 a && second4 && cont c && cont d && utf8 s
                    | EmptyString => false
                    end
              | EmptyString => false
              end
        | EmptyString => false
        end
  end.

(** ** White space *)

(** How many bytes of white space [s] starts with: 0 when its first character
    is not [White_Space]. *)
Definition space_len (s : string) : nat :=
  match s with
  | EmptyString => 0
  | String a s =>
      if in_range 9 13 a || (byte a =? 32) then 1
      else
        match s with
        | EmptyString => 0
        | String b s =>
            if (byte a =? 194) && ((byte b =? 133) || (byte b =? 160)) then 2
            else
              match s with
              | EmptyString => 0
              | String c _ =>
                  if (byte a =? 225) && (byte b =? 154) && (byte c =? 128) then 3
                  else if (byte a =? 226) && (byte b =? 128) &&
                    (in_range 128 138 c || in_range 168 169 c || (byte c =? 175)) then 3
                  else if (byte a =? 226) && (byte b =? 129) && (byte c =? 159) then 3
                  else if (byte a =? 227) && (byte b =? 128) && (byte c =? 128) then 3
                  else 0
              end
        end
  end.

Fixpoint str_drop (n : nat) (s : string) : string :=
  match n, s with
  | S n, String _ s => str_drop n s
  | _, _ => s
  end.

(** [s.trim_start()]; [fuel] is at least the length of [s]. *)
Fixpoint trim_start_fuel (fuel : nat) (s : string) : string :=
  match fuel, space_len s with
  | S fuel, S n => trim_start_fuel fuel (str_drop (S n) s)
  | _, _ => s
  end.

Definition trim_start (s : string) : string := trim_start_fuel (String.length s) s.

(** [s.trim().is_empty()]: trimming the end of what starts with no white
    space leaves its first character. *)
Definition is_blank (s : string) : bool := is_empty (trim_start s).

(** ** Searching *)

(** [s.find(p)] of one-byte characters: what comes before the first
    character with [p], and what starts with it. *)
Fixpoint break_at (p : ascii → bool) (s : string) : string * string :=
  match s with
  | EmptyString => ("", "")
  | String a s' => if p a then ("", s) else let '(x, y) := break_at p s' in (String a x, y)
  end.

(** [s.find(needle)]: what precedes the first occurrence, and what follows
    it. *)
Fixpoint split_once (needle s : string) : option (string * string) :=
  match strip_prefix needle s with
  | Some rest => Some ("", rest)
  | None =>
      match s with
      | EmptyString => None
      | String a s => match split_once needle s with
                      | Some (x, y) => Some (String a x, y)
                      | None => None
                      end
      end
  end.

(** [s.rfind(c)]: what follows the last [c]. *)
Fixpoint after_last (c : ascii) (s : string) : option string :=
  match s with
  | EmptyString => None
  | String a s =>
      match after_last c s with
      | Some rest => Some rest
      | None => if decide (a = c) then Some s else None
      end
  end.

(** ** Facts *)

Lemma break_at_app p s : (break_at p s).1 +:+ (break_at p s).2 = s.
Proof.
  induction s as [|a s IH]; simpl; [done|]. destruct (p a); [done|].
  destruct (break_at p s) as [x y]. simpl in *. rewrite append_cons. by rewrite IH.
Qed.

Lemma split_once_Some needle s x y : split_once needle s = Some (x, y) → s = x +:+ needle +:+ y.
Proof.
  revert x y. induction s as [|a s IH]; intros x y; simpl.
  - destruct (strip_prefix needle "") as [r|] eqn:E; [|done].
    intros [= <- <-]. by apply strip_prefix_Some in E.
  - destruct (strip_prefix needle (String a s)) as [r|] eqn:E.
    + intros [= <- <-]. by apply strip_prefix_Some in E.
    + destruct (split_once needle s) as [[x' y']|]; [|done]. intros [= <- <-].
      rewrite append_cons. f_equal. by apply IH.
Qed.

Lemma after_last_Some c s r : after_last c s = Some r → ∃ x, s = x +:+ String c r ∧ str_has c r = false.
Proof.
  revert r. induction s as [|a s IH]; intros r; simpl; [done|].
  destruct (after_last c s) as [r'|] eqn:E.
  - intros [= <-]. destruct (IH r' eq_refl) as (x & -> & Hr). by exists (String a x).
  - case_decide as Ha; [|done]. intros [= <-]. subst a. exists "". split; [done|].
    clear IH. induction s as [|b s IH]; simpl in *; [done|].
    destruct (after_last c s); [done|]. case_decide; [done|]. by rewrite bool_decide_eq_false_2, IH.
Qed.

Lemma after_last_None c s : after_last c s = None → str_has c s = false.
Proof.
  induction s as [|a s IH]; simpl; [done|]. destruct (after_last c s); [done|].
  case_decide; [done|]. intros _. by rewrite bool_decide_eq_false_2, IH.
Qed.

(** A name with an ordinary first character is not blank. *)
Lemma is_blank_ascii a s : in_range 33 126 a = true → is_blank (String a s) = false.
Proof.
  intros Ha. unfold is_blank, trim_start.
  assert (Hs : space_len (String a s) = 0%nat).
  { unfold in_range in Ha. apply andb_true_iff in Ha as [Hlo%Z.leb_le Hhi%Z.leb_le].
    assert (∀ z, 126 < z → (byte a =? z) = false) as Hne by (intros; apply Z.eqb_neq; lia).
    unfold space_len, in_range.
    assert ((byte a <=? 13) = false) as -> by (apply Z.leb_gt; lia).
    assert ((byte a =? 32) = false) as -> by (apply Z.eqb_neq; lia).
    rewrite !Hne by lia. rewrite andb_false_r. simpl. by destruct s as [|b [|c s]]. }
  simpl String.length. cbn [trim_start_fuel]. by rewrite Hs.
Qed.
