(* ===== verification/Lease.v ===== *)
(** * Leases ([src/src/lease.rs])

    A lease is a key that holds its holder's node id and expires, and a fence
    counter next to it.  Acquiring, renewing and releasing are one Lua script
    each; a held lease is renewed by a background task.  Here are the scripts
    and the operations of one replica; LeaseSpec.v has the abstract lease they
    implement, LeaseHandle.v the handle's reference counts. *)

From S2P Require Import Prelude Redis Client Keys Text.

(** ** The scripts

    [ARGV[2]] is passed on to the server as it arrived, so a TTL is not made
    a double here; a fence is, as the script's integer result. *)

Definition acquire_script (k1 k2 holder : string) (ttl_ms : Z) : script (option Z) :=
  let* held := call (GET k1) in
  match held with
  | RNil =>
      let* _ := call (SET k1 holder false (Some ttl_ms)) in
      let* fence := call (INCR k2) in
      SRet (Some (lua_int fence))
  | _ => SRet None
  end.

(** [redis.call('GET', k) == holder] in Lua. *)
Definition is_holder (r : reply) (holder : string) : bool :=
  match r with RBulk v => bool_decide (v = holder) | _ => false end.

Definition renew_script (k1 holder : string) (ttl_ms : Z) : script Z :=
  let* held := call (GET k1) in
  if is_holder held holder then let* n := call (PEXPIRE k1 ttl_ms) in SRet (lua_int n)
  else SRet 0.

Definition release_script (k1 holder : string) : script Z :=
  let* held := call (GET k1) in
  if is_holder held holder then let* n := call (DEL k1) in SRet (lua_int n)
  else SRet 0.

(** ** The state of a lease handle *)

(** [LeaseState], less its connection; [renewal_abort] is the period of the
    renewal task it can abort, in nanoseconds. *)
Record lease_state : Type := LeaseState {
  lease_key : string;
  holder : string;
  fence_token : Z;
  ttl_ms : Z;
  expires_at : string;
  released : bool;
  renewal_abort : option Z;
}.

Definition set_released (st : lease_state) : lease_state :=
  LeaseState (lease_key st) (holder st) (fence_token st) (ttl_ms st) (expires_at st) true
    (renewal_abort st).

Definition set_expires_at (e : string) (st : lease_state) : lease_state :=
  LeaseState (lease_key st) (holder st) (fence_token st) (ttl_ms st) e (released st)
    (renewal_abort st).

(** [renewal_abort.take()] *)
Definition take_abort (st : lease_state) : lease_state :=
  LeaseState (lease_key st) (holder st) (fence_token st) (ttl_ms st) (expires_at st) (released st)
    None.

(** [i64 as u64]. *)
Definition as_u64 (z : Z) : Z := z mod 2 ^ 64.

Definition duration_max : Z := 2 ^ 64 * 1000000000 - 1.

(** The renewal task's period: [ttl × (100 - pct) / 100], in nanoseconds,
    and 100 ms should that be zero. *)
Definition renewal_period (ttl_ms pct : Z) : Z :=
  let pct := clamp 1 99 pct in
  let sleep_for := Z.min duration_max (from_millis ttl_ms * Z.max 0 (100 - pct)) / 100 in
  if sleep_for =? 0 then from_millis 100 else sleep_for.

(** Tokio's timer counts milliseconds and never fires early. *)
Definition timer_ms (d : Z) : Z := (d + 999999) / 1000000.

(** [chrono::Duration::from_std] fails past [i64::MAX] ms. *)
Definition rfc3339_after `{Chrono} (now ttl_ms : Z) : string :=
  rfc3339 (now + if ttl_ms <=? i64_max then ttl_ms else 0).

(** ** Operations *)

Section lease.
Context {Srv : Type} `{RedisServer Srv} `{Chrono}.
Local Abbreviation io A := (client Srv cluster_error A).

Definition try_acquire_async (name lease_key fence_key holder : string) (ttl pct : Z) :
    io (option lease_state) :=
  if is_blank name then cfail (InvalidReference "lease name must not be empty")
  else
    let ttl_ms := clamp 1 u64_max (as_millis ttl) in
    let! fence :=
      cmap_err (λ e, BackendUnavailable ("lease acquire `" +:+ name +:+ "`: " +:+ e))
        (invoke (acquire_script lease_key fence_key holder ttl_ms)) in
    match fence with
    | None => cret None
    | Some fence_token =>
        let! now := system_now in
        cret (Some
          {| lease_key := lease_key; holder := holder; fence_token := as_u64 fence_token;
             ttl_ms := ttl_ms; expires_at := rfc3339_after now ttl_ms; released := false;
             renewal_abort := Some (renewal_period ttl_ms pct) |})
    end.

(** [acquire_async]'s loop, with the delay of its next sleep. *)
Fixpoint acquire_loop (fuel : nat) (name lease_key fence_key holder : string) (ttl pct delay : Z) :
    io lease_state :=
  match fuel with
  | O => cfail OutOfFuel
  | S fuel =>
      let! r := try_acquire_async name lease_key fence_key holder ttl pct in
      match r with
      | Some state => cret state
      | None =>
          let! _ := sleep delay in
          acquire_loop fuel name lease_key fence_key holder ttl pct (Z.min (delay * 2) 800)
      end
  end.

Definition acquire_async (fuel : nat) (name lease_key fence_key holder : string) (ttl pct : Z) :
    io lease_state :=
  acquire_loop fuel name lease_key fence_key holder ttl pct 200.

(** A call on a handle: the handle's state after it, and its result. *)
Definition renew_state {E} (st : lease_state) :
    client Srv E (lease_state * result unit cluster_error) :=
  if released st then cret (st, Err LeaseExpired)
  else
    let! r := cresult (invoke (renew_script (lease_key st) (holder st) (ttl_ms st))) in
    match r with
    | Err e =>
        cret (st, Err (BackendUnavailable ("lease renew `" +:+ lease_key st +:+ "`: " +:+ e)))
    | Ok updated =>
        if updated =? 0 then cret (set_released st, Err LeaseExpired)
        else
          let! now := system_now in
          cret (set_expires_at (rfc3339_after now (ttl_ms st)) st, Ok tt)
    end.

Definition release_state {E} (st : lease_state) :
    client Srv E (lease_state * result unit cluster_error) :=
  if released st then cret (st, Ok tt)
  else
    let st := take_abort (set_released st) in
    let! _ := cresult (invoke (release_script (lease_key st) (holder st))) in
    cret (st, Ok tt).

(** The renewal task, for at most [fuel] rounds of [sleep_for]: the handle's
    state, and whether the task is still running. *)
Fixpoint renewal_task {E} (fuel : nat) (sleep_for : Z) (st : lease_state) :
    client Srv E (lease_state * bool) :=
  match fuel with
  | O => cret (st, true)
  | S fuel =>
      let! _ := sleep (timer_ms sleep_for) in
      if released st then cret (st, false)
      else
        let! (st, r) := renew_state st in
        match r with
        | Ok _ => renewal_task fuel sleep_for st
        | Err _ => cret (st, false)
        end
  end.

(** The FFI takes whole milliseconds and gives the handle's state, its token
    and its deadline. *)
Definition wrap_state (st : lease_state) : lease_state * Z * string :=
  (st, fence_token st, expires_at st).

Definition acquire_sync (fuel : nat) (name lease_key fence_key holder : string) (ttl_ms pct : Z) :
    io (lease_state * Z * string) :=
  let! st := acquire_async fuel name lease_key fence_key holder (from_millis (Z.max 1 ttl_ms)) pct in
  cret (wrap_state st).

Definition try_acquire_sync (name lease_key fence_key holder : string) (ttl_ms pct : Z) :
    io (option (lease_state * Z * string)) :=
  let! st := try_acquire_async name lease_key fence_key holder (from_millis (Z.max 1 ttl_ms)) pct in
  cret (wrap_state <$> st).

(** The FFI's calls on a handle; a null pointer is no handle. *)
Definition renew_sync (handle : option lease_state) :
    io (option lease_state * result string cluster_error) :=
  match handle with
  | None => cret (None, Err LeaseExpired)
  | Some st =>
      let! (st, r) := renew_state st in
      cret (Some st, result_map (λ _, expires_at st) r)
  end.

Definition release_sync (handle : option lease_state) :
    io (option lease_state * result unit cluster_error) :=
  match handle with
  | None => cret (None, Ok tt)
  | Some st =>
      let! (st, r) := release_state st in
      cret (Some st, r)
  end.
End lease.

(** [ActiveLease] of a handle. *)
Definition fencing_token (st : lease_state) : Z := fence_token st.
Definition lease_deadline (st : lease_state) : string := expires_at st.

Definition renew {Srv E} `{RedisServer Srv} `{Chrono} (st : lease_state) :
    client Srv E (lease_state * result unit cluster_error) := renew_state st.
Definition release {Srv E} `{RedisServer Srv} (st : lease_state) :
    client Srv E (lease_state * result unit cluster_error) := release_state st.
