(* ===== verification/LeaseSpec.v ===== *)
(** * The lease contract

    One lease as the fleet sees it: who holds it until when, and the last
    fencing token.  [lease_op] is one script of a replica, [spec_lease] what
    it means for the abstract lease, and a fleet's run is a sequence of
    scripts - of any holder, and scripts that write other keys - with time
    passing in between.  The theorem of this file is that the server's lease
    and fence keys implement it; the rest are consequences for the abstract
    lease. *)

From S2P Require Import Prelude Redis Client DbFacts Keys Footprint Lease.

(** ** The abstract lease *)

Record lease : Type := Lease_ { held_by : option (string * Z); fence : Z }.

Definition unheld : lease := Lease_ None 0.

Inductive lease_op : Type :=
| LAcquire (holder : string) (ttl_ms : Z)
| LRenew (holder : string) (ttl_ms : Z)
| LRelease (holder : string)
| LOther (sc : script unit).

(** A script's result: the fencing token of an acquire, and whether a renew
    or a release found the holder. *)
Inductive lease_res : Type :=
| Token (token : option Z)
| Found (b : bool)
| Nothing.

Definition holds_now (l : lease) (h : string) : bool :=
  match held_by l with Some (h', _) => bool_decide (h' = h) | None => false end.

Definition spec_lease (t : Z) (op : lease_op) (l : lease) : lease * lease_res :=
  match op with
  | LAcquire h ttl =>
      match held_by l with
      | Some _ => (l, Token None)
      | None => (Lease_ (Some (h, t + ttl)) (fence l + 1), Token (Some (fence l + 1)))
      end
  | LRenew h ttl =>
      if holds_now l h then (Lease_ (Some (h, t + ttl)) (fence l), Found true) else (l, Found false)
  | LRelease h =>
      if holds_now l h then (Lease_ None (fence l), Found true) else (l, Found false)
  | LOther _ => (l, Nothing)
  end.

(** Time passing: an expired lease is held by nobody. *)
Definition lease_later (P : policy) (t : Z) (l : lease) : lease :=
  match held_by l with
  | Some (_, deadline) => if past_due P t deadline then Lease_ None (fence l) else l
  | None => l
  end.

(** The operations of the fleet in the order they reach the server, each
    after a pause; the lease after them, and their results. *)
Fixpoint spec_leases (P : policy) (t : Z) (ops : list (N * lease_op)) (l : lease) :
    lease * list lease_res :=
  match ops with
  | [] => (l, [])
  | (pause, op) :: ops =>
      let t := t + Z.of_N pause in
      let '(l, r) := spec_lease t op (lease_later P t l) in
      let '(l, rs) := spec_leases P t ops l in
      (l, r :: rs)
  end.

Definition end_time (t : Z) (ops : list (N * lease_op)) : Z :=
  foldl (λ t p, t + Z.of_N p.1) t ops.

Lemma spec_fence_step t op l :
  fence l ≤ fence (spec_lease t op l).1 ≤ fence l + 1.
Proof. destruct op; simpl; repeat case_match; simpl; lia. Qed.

Lemma fence_later P t l : fence (lease_later P t l) = fence l.
Proof. unfold lease_later. by repeat case_match. Qed.

Lemma end_time_ge t ops : t ≤ end_time t ops.
Proof.
  revert t. induction ops as [|[n op] ops IH]; intros t; [done|]. cbn.
  specialize (IH (t + Z.of_N n)). unfold end_time in *. cbn in *. lia.
Qed.

(** ** The server's lease *)

Section server.
Context {Srv : Type} `{RedisLaws Srv}.
Local Abbreviation P := (srv_policy (Srv := Srv)).
Context (lk fk : string) (Hne : lk ≠ fk).

(** The scripts the replicas send. *)
Definition lease_script (op : lease_op) : script lease_res :=
  match op with
  | LAcquire h ttl => let* r := acquire_script lk fk h ttl in SRet (Token r)
  | LRenew h ttl => let* n := renew_script lk h ttl in SRet (Found (negb (n =? 0)))
  | LRelease h => let* n := release_script lk h in SRet (Found (negb (n =? 0)))
  | LOther sc => let* _ := sc in SRet Nothing
  end.

(** The database holds the lease [l]. *)
Definition represents (d : db) (l : lease) : Prop :=
  d !! lk = (λ p, RVal (RStr p.1) (Some p.2)) <$> held_by l ∧
  match d !! fk with
  | None => fence l = 0
  | Some (RVal (RStr v) None) => as_int P v = Some (fence l)
  | _ => False
  end.

(** TTLs a lease has, and scripts of the other components. *)
Definition lease_op_ok (op : lease_op) : Prop :=
  match op with
  | LAcquire _ ttl | LRenew _ ttl => 0 < ttl ≤ 2 ^ 53
  | LRelease _ => True
  | LOther sc => within (λ k, k ≠ lk ∧ k ≠ fk) sc
  end.

Lemma represents_lease d l :
  represents d l → d !! lk = (λ p, RVal (RStr p.1) (Some p.2)) <$> held_by l.
Proof. by intros []. Qed.

Lemma represents_held d l h dl :
  represents d l → represents (<[lk := RVal (RStr h) (Some dl)]> d) (Lease_ (Some (h, dl)) (fence l)).
Proof.
  intros [_ Hf]. split; [by rewrite lookup_insert_eq|]. by rewrite lookup_insert_ne.
Qed.

Lemma represents_freed d l : represents d l → represents (delete lk d) (Lease_ None (fence l)).
Proof.
  intros [_ Hf]. split; [by rewrite lookup_delete_eq|]. by rewrite lookup_delete_ne.
Qed.

Lemma represents_fence d l n :
  in_i64 n → represents d l →
  represents (<[fk := RVal (RStr (of_int P n)) None]> d) (Lease_ (held_by l) n).
Proof.
  intros Hn [Hl _]. split; [by rewrite lookup_insert_ne|].
  rewrite lookup_insert_eq. by apply as_int_of_int.
Qed.

(** [INCR] of the fence key. *)
Lemma incr_fence t d l :
  represents d l → in_i64 (fence l + 1) →
  ∃ d', documented P t (INCR fk) d = (d', RInt (fence l + 1)) ∧
        represents d' (Lease_ (held_by l) (fence l + 1)).
Proof.
  intros Hl Hn. pose proof (represents_fence d l _ Hn Hl) as Hr. destruct Hl as [_ Hf].
  unfold INCR. cbn [documented]. unfold d_incrby.
  pose proof (proj2 (is_i64_spec _) Hn) as Hi.
  destruct (d !! fk) as [[[v|z] [dl|]]|]; [done| |done|done|].
  - rewrite Hf, Hi. eauto.
  - rewrite Hf in *. rewrite Hi. eauto.
Qed.

Lemma get_lease {A} t d l (f : reply → script A) :
  represents d l →
  d_run P t (sbind (call (GET lk)) f) d =
    d_run P t (f (match held_by l with Some (h, _) => RBulk h | None => RNil end)) d.
Proof.
  intros [Hl _]. rewrite d_run_call. cbn [documented]. rewrite Hl.
  by destruct (held_by l) as [[]|].
Qed.

(** A script's result is the contract's; another component's script has no
    result of interest. *)
Definition op_result_ok (op : lease_op) (r : result lease_res string) (x : lease_res) : Prop :=
  match op with LOther _ => x = Nothing ∧ (r = Ok Nothing ∨ is_ok r = false) | _ => r = Ok x end.

(** Each script does to the server's lease what the contract says. *)
Lemma lease_script_refines t op d l :
  0 ≤ t ≤ 2 ^ 53 → lease_op_ok op → 0 ≤ fence l < 2 ^ 53 → represents d l →
  represents (d_run P t (lease_script op) d).1 (spec_lease t op l).1 ∧
  op_result_ok op (d_run P t (lease_script op) d).2 (spec_lease t op l).2.
Proof.
  intros Ht Hop Hfence Hd.
  assert (Hi : in_i64 (fence l + 1)) by (unfold in_i64, i64_min, i64_max; lia).
  destruct op as [h ttl|h ttl|h|sc]; cbn [lease_script spec_lease lease_op_ok] in *; rewrite d_run_bind.
  - unfold acquire_script. rewrite (get_lease t d l) by done.
    destruct (held_by l) as [[h' dl]|] eqn:Hh; [by cbn|].
    rewrite d_run_call. cbn [documented]. unfold d_set.
    assert ((0 <? ttl) = true) as -> by (apply Z.ltb_lt; lia).
    rewrite px_ok_range by (done || lia). cbn [andb negb fmap option_fmap option_map].
    pose proof (represents_held d l h (t + ttl) Hd) as Hd'. rewrite d_run_call.
    destruct (incr_fence t _ _ Hd' Hi) as (d' & -> & Hd''). cbn [fence held_by] in *.
    split; [exact Hd''|]. cbn. by rewrite dround_exact by lia.
  - unfold renew_script. rewrite (get_lease t d l) by done. unfold holds_now.
    pose proof (represents_lease d l Hd) as Hlk.
    destruct (held_by l) as [[h' dl]|] eqn:Hh; [|by cbn]. cbn [is_holder].
    case_bool_decide; [subst h'|by cbn]. rewrite d_run_call. cbn [documented].
    assert ((ttl <=? 0) = false) as -> by (apply Z.leb_gt; lia).
    rewrite px_ok_range by (done || lia). cbn [negb]. rewrite Hlk. cbn.
    split; [|done]. by apply represents_held.
  - unfold release_script. rewrite (get_lease t d l) by done. unfold holds_now.
    pose proof (represents_lease d l Hd) as Hlk.
    destruct (held_by l) as [[h' dl]|] eqn:Hh; [|by cbn]. cbn [is_holder].
    case_bool_decide; [subst h'|by cbn]. rewrite d_run_call. cbn [documented]. rewrite Hlk. cbn.
    split; [|done]. by apply represents_freed.
  - assert (Hk : ∀ k, ¬ (k ≠ lk ∧ k ≠ fk) →
      (d_run P t sc d).1 !! k = d !! k) by (intros; by eapply run_outside).
    assert (Hsame : represents (d_run P t sc d).1 l).
    { unfold represents in *. rewrite !Hk by tauto. done. }
    destruct (d_run P t sc d) as [d' [a|e]]; cbn; auto.
Qed.

(** Time passing does to the contract's lease what it does to the server's. *)
Lemma represents_later t t' (s : Srv) l :
  t ≤ t' → represents (view t s) l → represents (view t' s) (lease_later P t' l).
Proof.
  intros Ht [Hl Hf]. unfold represents, lease_later.
  rewrite !(view_later_lookup t t') by done. rewrite Hl. unfold alive.
  assert (Hfence : match
      match view t s !! fk with
      | Some v => if match r_expiry v with Some d => negb (past_due P t' d) | None => true end
                  then Some v else None
      | None => None end with
    | Some (RVal (RStr v) None) => as_int P v = Some (fence l)
    | None => fence l = 0
    | _ => False end).
  { destruct (view t s !! fk) as [[[v|z] [dl|]]|]; done. }
  destruct (held_by l) as [[h dl]|] eqn:Hh; simpl; [destruct (past_due P t' dl) eqn:Hp|];
    simpl; rewrite ?Hh; done.
Qed.

(** The fleet's scripts on the server, and their results. *)
Fixpoint run_leases (t : Z) (ops : list (N * lease_op)) (s : Srv) :
    Srv * list (result lease_res string) :=
  match ops with
  | [] => (s, [])
  | (pause, op) :: ops =>
      let t := t + Z.of_N pause in
      let '(s, r) := run t (lease_script op) s in
      let '(s, rs) := run_leases t ops s in
      (s, r :: rs)
  end.

Lemma leases_refine t ops s l :
  0 ≤ t → end_time t ops ≤ 2 ^ 53 → Forall (λ p, lease_op_ok p.2) ops →
  0 ≤ fence l → fence l + Z.of_nat (length ops) ≤ 2 ^ 53 →
  represents (view t s) l →
  represents (view (end_time t ops) (run_leases t ops s).1) (spec_leases P t ops l).1 ∧
  Forall2 (λ p rx, op_result_ok p.2 rx.1 rx.2) ops
    (zip (run_leases t ops s).2 (spec_leases P t ops l).2) ∧
  length (run_leases t ops s).2 = length ops ∧
  length (spec_leases P t ops l).2 = length ops.
Proof.
  revert t s l. induction ops as [|[n op] ops IH]; intros t s l Ht Hend Hops Hpos Hfence Hl;
    cbn [run_leases spec_leases]; [done|].
  apply Forall_cons in Hops as [Hop Hops]. cbn [length] in Hfence.
  change (end_time t ((n, op) :: ops)) with (end_time (t + Z.of_N n) ops) in *.
  set (t' := t + Z.of_N n) in *. pose proof (end_time_ge t' ops) as Hge.
  assert (Hl' : represents (view t' s) (lease_later P t' l))
    by (apply (represents_later t); [lia|done]).
  pose proof (fence_later P t' l) as Hfl.
  destruct (lease_script_refines t' op (view t' s) (lease_later P t' l)) as [Hr Hx];
    [lia|done|lia|done|].
  destruct (run_view t' (lease_script op) s) as [Hv Hres]. rewrite <- Hv in Hr. rewrite <- Hres in Hx.
  pose proof (spec_fence_step t' op (lease_later P t' l)) as Hstep.
  destruct (run t' (lease_script op) s) as [s' r]. destruct (spec_lease t' op _) as [l' x].
  cbn [fst snd] in *.
  destruct (IH t' s' l') as (Hend' & Hrs & Hl1 & Hl2); [lia|done|done|lia|lia|done|].
  destruct (run_leases t' ops s') as [s'' rs]. destruct (spec_leases P t' ops l') as [l'' xs].
  cbn [fst snd] in *. split; [done|]. split; [|split; cbn; lia].
  by constructor.
Qed.
End server.

(** ** What the contract gives *)

Definition token_of (r : result lease_res string) : option Z :=
  match r with Ok (Token n) => n | _ => None end.

(** The fencing tokens a run hands out, in the order of the scripts. *)
Definition tokens (rs : list (result lease_res string)) : list Z := omap token_of rs.

Lemma tokens_same ops rs xs :
  length rs = length ops → length xs = length ops →
  Forall2 (λ p rx, op_result_ok p.2 rx.1 rx.2) (ops : list (N * lease_op)) (zip rs xs) →
  tokens rs = tokens (Ok <$> xs).
Proof.
  revert rs xs. induction ops as [|[n op] ops IH]; intros [|r rs] [|x xs] Hr Hx; try done.
  intros [Hop Hrest]%Forall2_cons. cbn in Hop. unfold tokens in *. cbn.
  rewrite (IH rs xs) by (done || (cbn in *; lia)).
  destruct op; cbn in Hop; try (by subst r). destruct Hop as [-> [->|He]]; [done|by destruct r].
Qed.

Section contract.
Context (P : policy).

Lemma spec_tokens t ops l :
  StronglySorted Z.lt (fence l :: tokens (Ok <$> (spec_leases P t ops l).2)).
Proof.
  revert t l. induction ops as [|[n op] ops IH]; intros t l; [repeat constructor|].
  cbn [spec_leases]. set (t' := t + Z.of_N n).
  pose proof (fence_later P t' l) as Hf. set (l1 := lease_later P t' l) in *.
  destruct (spec_lease t' op l1) as [l2 x] eqn:Hop.
  specialize (IH t' l2). destruct (spec_leases P t' ops l2) as [l3 xs]. cbn [snd] in *.
  assert (Hx : token_of (Ok x) = Some (fence l2) ∧ fence l2 = fence l + 1 ∨
               token_of (Ok x) = None ∧ fence l2 = fence l).
  { rewrite <- Hf. destruct op; cbn in Hop; repeat case_match; simplify_eq; cbn; auto. }
  unfold tokens in *. cbn [fmap list_fmap omap list_omap].
  destruct Hx as [[-> Hl2]|[-> Hl2]]; [|by rewrite <- Hl2].
  constructor; [done|]. apply StronglySorted_inv in IH as [_ Hall].
  constructor; [lia|]. eapply Forall_impl; [exact Hall|]. cbn. lia.
Qed.

(** What the fleet does while [h]'s lease has until [dl]: nobody releases in
    [h]'s name, and renewals in [h]'s name do not shorten it. *)
Definition respects (t : Z) (h : string) (dl : Z) (op : lease_op) : Prop :=
  match op with
  | LRelease h' => h' ≠ h
  | LRenew h' ttl => h' = h → dl ≤ t + ttl
  | _ => True
  end.

Lemma respects_later t t' h dl op : t ≤ t' → respects t h dl op → respects t' h dl op.
Proof. intros Ht. destruct op; simpl; [done| |done|done]. intros Hr Hh. specialize (Hr Hh). lia. Qed.

(** Until then nobody else gets it. *)
Lemma spec_exclusive t ops l h d dl :
  (∀ t d, t < d → past_due P t d = false) →
  held_by l = Some (h, d) → dl ≤ d → end_time t ops < dl →
  Forall (λ p, respects t h dl p.2) ops →
  (∃ d', dl ≤ d' ∧ (spec_leases P t ops l).1 = Lease_ (Some (h, d')) (fence l)) ∧
  tokens (Ok <$> (spec_leases P t ops l).2) = [].
Proof.
  intros Hearly. revert t l d. induction ops as [|[n op] ops IH]; intros t l d Hh Hd Hend Hops.
  { cbn. split; [|done]. exists d. destruct l; simpl in *. by subst. }
  apply Forall_cons in Hops as [Hop Hops]. cbn [spec_leases].
  change (end_time t ((n, op) :: ops)) with (end_time (t + Z.of_N n) ops) in Hend.
  set (t' := t + Z.of_N n) in *. pose proof (end_time_ge t' ops) as Hge.
  assert (Hlater : lease_later P t' l = l) by (unfold lease_later; rewrite Hh, Hearly by lia; done).
  rewrite Hlater.
  assert (Hops' : Forall (λ p, respects t' h dl p.2) ops).
  { eapply Forall_impl; [exact Hops|]. intros p. apply respects_later. lia. }
  apply (respects_later t t') in Hop; [|lia].
  assert (Hstep : ∃ d1 x, spec_lease t' op l = (Lease_ (Some (h, d1)) (fence l), x) ∧ dl ≤ d1 ∧
                          token_of (Ok x) = None).
  { destruct l as [hb f]. cbn in Hh. subst hb. cbn [fence].
    destruct op as [h' ttl|h' ttl|h'|sc]; cbn; unfold holds_now; cbn; eauto; case_bool_decide; eauto.
    - subst h'. specialize (Hop eq_refl). eauto.
    - by subst h'. }
  destruct Hstep as (d1 & x & -> & Hd1 & Hx).
  specialize (IH t' (Lease_ (Some (h, d1)) (fence l)) d1 eq_refl Hd1 Hend Hops').
  destruct (spec_leases P t' ops _) as [l2 xs]. cbn [fst snd fence] in *.
  destruct IH as [IH1 IH2]. split; [done|]. unfold tokens in *.
  cbn [fmap list_fmap omap list_omap]. by rewrite Hx.
Qed.
End contract.
