(* ===== verification/LeaseRun.v ===== *)
(** * Leases over the network

    What one replica's calls of [Lease.v] do when they reach the server: an
    acquire that returns a handle, the blocking acquire's loop, the renewal
    task, and calls on a released handle. *)

From S2P Require Import Prelude Redis Client DbFacts Keys Footprint Text Lease LeaseSpec.

Section lease.
Context {Srv : Type} `{RedisLaws Srv} `{Chrono}.
Local Abbreviation P := (srv_policy (Srv := Srv)).
Context (lk fk : string) (Hne : lk ≠ fk).
Local Abbreviation represents := (represents (Srv := Srv) lk fk).

(** ** Acquiring *)

Lemma run_acquire t h ttl (s : Srv) l :
  0 ≤ t ≤ 2 ^ 53 → 0 < ttl ≤ 2 ^ 53 → 0 ≤ fence l < 2 ^ 53 → represents (view t s) l →
  let '(s', r) := run t (acquire_script lk fk h ttl) s in
  match held_by l with
  | Some _ => r = Ok None ∧ represents (view t s') l
  | None => r = Ok (Some (fence l + 1)) ∧ represents (view t s') (Lease_ (Some (h, t + ttl)) (fence l + 1))
  end.
Proof.
  intros Ht Httl Hf Hl.
  destruct (lease_script_refines lk fk Hne t (LAcquire h ttl) (view t s) l) as [Hr Hx]; [done..|].
  destruct (run_view t (acquire_script lk fk h ttl) s) as [Hv Hres].
  destruct (run t (acquire_script lk fk h ttl) s) as [s' r]. cbn [fst snd] in *.
  cbn [lease_script] in Hr, Hx. rewrite d_run_bind in Hr, Hx.
  destruct (d_run P t (acquire_script lk fk h ttl) (view t s)) as [d' [a|e]]; cbn in *; [|done].
  subst. destruct (held_by l); cbn in *; injection Hx as ->; auto.
Qed.

Definition lease_ms (ttl : Z) : Z := clamp 1 u64_max (as_millis ttl).

Lemma lease_ms_range ttl : as_millis ttl ≤ 2 ^ 53 → 0 < lease_ms ttl ≤ 2 ^ 53.
Proof. unfold lease_ms, clamp, u64_max. lia. Qed.

(** The handle of an acquired lease. *)
Definition fresh_handle (t_local : Z) (h : string) (token ttl pct : Z) : lease_state :=
  LeaseState lk h token (lease_ms ttl) (rfc3339_after t_local (lease_ms ttl)) false
    (Some (renewal_period (lease_ms ttl) pct)).

Lemma try_acquire_quiet name h ttl pct (w : world Srv) l :
  quiet w → is_blank name = false → 0 ≤ w_time w ≤ 2 ^ 53 → as_millis ttl ≤ 2 ^ 53 →
  0 ≤ fence l < 2 ^ 53 → represents (view (w_time w) (w_srv w)) l →
  ∃ s,
    match held_by l with
    | Some _ =>
        try_acquire_async name lk fk h ttl pct w = (set_srv s w, Ok None) ∧
        represents (view (w_time w) s) l
    | None =>
        try_acquire_async name lk fk h ttl pct w =
          (set_srv s w,
           Ok (Some (fresh_handle (w_time w + w_skew w) h (fence l + 1) ttl pct))) ∧
        represents (view (w_time w) s) (Lease_ (Some (h, w_time w + lease_ms ttl)) (fence l + 1))
    end.
Proof.
  intros Hq Hname Ht Httl Hf Hl. unfold try_acquire_async. rewrite Hname. fold (lease_ms ttl).
  pose proof (run_acquire (w_time w) h (lease_ms ttl) (w_srv w) l Ht (lease_ms_range ttl Httl) Hf Hl)
    as Hrun.
  unfold cbind, cmap_err. rewrite (invoke_quiet _ w Hq).
  destruct (run (w_time w) (acquire_script lk fk h (lease_ms ttl)) (w_srv w)) as [s r]. cbn [fst snd].
  assert (Htok : as_u64 (fence l + 1) = fence l + 1) by (apply Z.mod_small; lia).
  exists s. destruct (held_by l); destruct Hrun as [-> Hs]; (split; [|done]); [done|].
  unfold cret, system_now, fresh_handle. cbn [map_err]. cbv beta iota. by rewrite Htok.
Qed.

(** The blocking acquire polls until the lease is free: the time it takes is
    bounded by the present holder's deadline and one delay. *)
Lemma acquire_loop_quiet fuel name h ttl pct delay (w : world Srv) l :
  quiet w → is_blank name = false → 200 ≤ delay ≤ 800 →
  0 ≤ w_time w ≤ 2 ^ 53 → as_millis ttl ≤ 2 ^ 53 →
  0 ≤ fence l < 2 ^ 53 → represents (view (w_time w) (w_srv w)) l →
  match held_by l with
  | None => (0 < fuel)%nat
  | Some (_, dl) => dl - w_time w < 200 * (Z.of_nat fuel - 1) ∧ dl + 800 ≤ 2 ^ 53
  end →
  ∃ s t,
    acquire_loop fuel name lk fk h ttl pct delay w =
      (World s t (w_skew w) [], Ok (fresh_handle (t + w_skew w) h (fence l + 1) ttl pct)) ∧
    represents (view t s) (Lease_ (Some (h, t + lease_ms ttl)) (fence l + 1)) ∧
    w_time w ≤ t ∧
    match held_by l with None => t = w_time w | Some (_, dl) => t ≤ dl + 800 end.
Proof.
  revert delay w l. induction fuel as [|fuel IH]; intros delay w l Hq Hname Hdelay Ht Httl Hf Hl Hfuel.
  { destruct (held_by l) as [[h' dl]|] eqn:Hh; [|lia].
    destruct Hl as [Hl _]. rewrite Hh in Hl. apply view_lookup in Hl. unfold alive in Hl. cbn in Hl.
    rewrite past_due_late in Hl by lia. done. }
  cbn [acquire_loop].
  destruct (try_acquire_quiet name h ttl pct w l) as (s & Hs); [done..|].
  unfold cbind at 1. destruct (held_by l) as [[h' dl]|] eqn:Hh; destruct Hs as [-> Hr].
  - set (w1 := (sleep (E := cluster_error) delay (set_srv s w)).1).
    assert (Hw1 : w1 = World s (w_time w + delay) (w_skew w) []).
    { unfold w1, sleep. cbn. rewrite Hq. f_equal. lia. }
    unfold cbind, sleep. cbn [fst snd] in *. fold w1.
    change (World (w_srv (set_srv s w)) _ _ _) with w1. rewrite Hw1. clear w1 Hw1.
    set (w1 := World s (w_time w + delay) (w_skew w) []).
    assert (Hr1 : represents (view (w_time w1) (w_srv w1)) (lease_later P (w_time w + delay) l)).
    { apply (represents_later lk fk (w_time w)); [lia|done]. }
    set (l1 := lease_later P (w_time w + delay) l) in *.
    assert (Hf1 : fence l1 = fence l) by apply fence_later.
    assert (Hh1 : held_by l1 = None ∧ dl ≤ w_time w + delay ∨ held_by l1 = Some (h', dl)).
    { unfold l1, lease_later. rewrite Hh. destruct (past_due P (w_time w + delay) dl) eqn:Hp; auto.
      left. split; [done|]. destruct (Z.le_gt_cases dl (w_time w + delay)) as [|Hgt]; [done|].
      rewrite past_due_early in Hp by lia. done. }
    assert (Hdl : w_time w ≤ dl).
    { destruct Hl as [Hl _]. rewrite Hh in Hl. apply view_lookup in Hl. unfold alive in Hl. cbn in Hl.
      destruct (Z.le_gt_cases (w_time w) dl) as [|Hgt]; [done|]. by rewrite past_due_late in Hl by lia. }
    destruct (IH (Z.min (delay * 2) 800) w1 l1) as (s' & t' & Hrun & Hrep & Hle & Hend); try done.
    + lia.
    + cbn. lia.
    + by rewrite Hf1.
    + destruct Hh1 as [[-> ?]| ->]; [lia|]. cbn. lia.
    + exists s', t'. rewrite Hf1 in *. split; [exact Hrun|]. split; [done|].
      cbn [w_time] in Hle. split; [cbn in Hle; lia|]. destruct Hh1 as [[Hn ?]|Hn]; rewrite Hn in Hend;
        [subst t'; cbn; lia|done].
  - exists s, (w_time w). split; [|done]. unfold cret, set_srv. by rewrite Hq.
Qed.

(** ** Renewing *)

Lemma run_renew t h ttl (s : Srv) l :
  0 ≤ t ≤ 2 ^ 53 → 0 < ttl ≤ 2 ^ 53 → 0 ≤ fence l < 2 ^ 53 → represents (view t s) l →
  let '(s', r) := run t (renew_script lk h ttl) s in
  (∃ n, r = Ok n ∧ negb (n =? 0) = holds_now l h) ∧
  represents (view t s') (spec_lease t (LRenew h ttl) l).1.
Proof.
  intros Ht Httl Hf Hl.
  destruct (lease_script_refines lk fk Hne t (LRenew h ttl) (view t s) l) as [Hr Hx]; [done..|].
  destruct (run_view t (renew_script lk h ttl) s) as [Hv Hres].
  destruct (run t (renew_script lk h ttl) s) as [s' r]. cbn [fst snd] in *.
  cbn [lease_script] in Hr, Hx. rewrite d_run_bind in Hr, Hx.
  destruct (d_run P t (renew_script lk h ttl) (view t s)) as [d' [a|e]]; cbn in *; [|done].
  subst. split; [|by destruct (holds_now l h)]. exists a. split; [done|].
  destruct (holds_now l h); cbn in Hx; congruence.
Qed.

(** A script of another client that leaves [h]'s lease alone. *)
Definition spares (h : string) (sc : script unit) : Prop :=
  ∀ t d l dl, held_by l = Some (h, dl) → represents d l → represents (d_run P t sc d).1 l.

(** Every lease script in another's name does, and every script of the other
    components. *)
Lemma spares_lease h op :
  match op with
  | LAcquire _ _ => True
  | LRenew h' _ | LRelease h' => h' ≠ h
  | LOther sc => within (λ k, k ≠ lk ∧ k ≠ fk) sc
  end →
  spares h (silent (lease_script lk fk op)).
Proof.
  intros Hop t d l dl Hh Hl. unfold silent. rewrite d_run_bind.
  assert (Hend : represents (d_run P t (lease_script lk fk op) d).1 l).
  2: { by destruct (d_run P t (lease_script lk fk op) d) as [d' [a|e]]. }
  destruct op as [h' ttl|h' ttl|h'|sc]; cbn [lease_script]; rewrite d_run_bind.
  - unfold acquire_script. rewrite (get_lease lk fk t d l), Hh by done. done.
  - unfold renew_script. rewrite (get_lease lk fk t d l), Hh by done. cbn.
    by rewrite bool_decide_eq_false_2 by congruence.
  - unfold release_script. rewrite (get_lease lk fk t d l), Hh by done. cbn.
    by rewrite bool_decide_eq_false_2 by congruence.
  - assert (Hk : ∀ k, ¬ (k ≠ lk ∧ k ≠ fk) → (d_run P t sc d).1 !! k = d !! k)
      by (intros; by eapply run_outside).
    assert (represents (d_run P t sc d).1 l).
    { unfold LeaseSpec.represents in *. rewrite !Hk by tauto. done. }
    by destruct (d_run P t sc d) as [d' [a|e]].
Qed.

Lemma spares_run_others h t others (s : Srv) l dl :
  Forall (spares h) others → held_by l = Some (h, dl) → represents (view t s) l →
  represents (view t (run_others t others s)) l.
Proof.
  intros Ho Hh. revert s. induction Ho as [|sc others Hsc _ IH]; intros s Hs; cbn; [done|].
  apply IH. destruct (run_view t sc s) as [-> _]. by eapply Hsc.
Qed.

(** A network that delivers every request within [W] ms. *)
Definition prompt (W : Z) (h : string) (net : list net_event) : Prop :=
  Forall (λ ev, ev_fate ev = Delivered ∧ Z.of_N (ev_wait ev) ≤ W ∧ Forall (spares h) (ev_others ev)) net.

Lemma renew_prompt W (w : world Srv) st l dl :
  prompt W (holder st) (w_net w) → released st = false → lease_key st = lk →
  0 < ttl_ms st ≤ 2 ^ 53 → 0 ≤ W → 0 ≤ w_time w → w_time w + W ≤ 2 ^ 53 → 0 ≤ fence l < 2 ^ 53 →
  held_by l = Some (holder st, dl) → w_time w + W < dl →
  represents (view (w_time w) (w_srv w)) l →
  ∃ s t st',
    renew_state (E := cluster_error) st w = (World s t (w_skew w) (tail (w_net w)), Ok (st', Ok tt)) ∧
    st' = set_expires_at (rfc3339_after (t + w_skew w) (ttl_ms st)) st ∧
    w_time w ≤ t ≤ w_time w + W ∧
    represents (view t s) (Lease_ (Some (holder st, t + ttl_ms st)) (fence l)).
Proof.
  intros Hnet Hrel Hkey Httl HW Ht Hend Hf Hh Hdl Hl.
  set (t := (arrival w).1). set (s := (arrival w).2).
  assert (Harr : w_time w ≤ t ≤ w_time w + W ∧ represents (view t s) l).
  { unfold t, s, arrival. destruct (w_net w) as [|ev net]; cbn; [split; [lia|done]|].
    apply Forall_cons in Hnet as [(_ & Hw & Ho) _].
    split; [lia|]. apply (spares_run_others (holder st) _ _ _ _ dl); [done|done|].
    assert (lease_later P (w_time w + Z.of_N (ev_wait ev)) l = l) as <-
      by (unfold lease_later; rewrite Hh, past_due_early by lia; done).
    apply (represents_later lk fk (w_time w)); [lia|done]. }
  destruct Harr as [Hat Hs].
  pose proof (run_renew t (holder st) (ttl_ms st) s l ltac:(lia) Httl Hf Hs) as Hrun.
  assert (Hinv : invoke (renew_script lk (holder st) (ttl_ms st)) w =
    (World (run t (renew_script lk (holder st) (ttl_ms st)) s).1 t (w_skew w) (tail (w_net w)),
     (run t (renew_script lk (holder st) (ttl_ms st)) s).2)).
  { unfold invoke, request, t, s, arrival. destruct (w_net w) as [|ev net]; cbn [fst snd tail].
    - by destruct (run (w_time w) (renew_script lk (holder st) (ttl_ms st)) (w_srv w)).
    - apply Forall_cons in Hnet as [(-> & _) _]. done. }
  unfold renew_state. rewrite Hrel, Hkey. unfold cbind at 1, cresult. rewrite Hinv.
  destruct (run t (renew_script lk (holder st) (ttl_ms st)) s) as [s' r]. cbn [fst snd].
  destruct Hrun as [(n & -> & Hn) Hs']. cbn [spec_lease] in Hs'.
  assert (Hnow : holds_now l (holder st) = true)
    by (unfold holds_now; rewrite Hh; by apply bool_decide_eq_true_2).
  rewrite Hnow in Hn, Hs'. apply negb_true_iff in Hn. rewrite Hn.
  exists s', t. eexists. split; [done|]. split; [done|]. split; [done|]. done.
Qed.

(** The renewal task keeps a lease for as long as it runs on a network that
    is prompt enough for its period: after any number of rounds the task is
    still running, the lease is still held in its holder's name, its deadline
    not before the next renewal can arrive, and nobody else had it. *)
Lemma renewal_task_prompt W period rounds (w : world Srv) st l dl :
  prompt W (holder st) (w_net w) → released st = false → lease_key st = lk →
  0 < ttl_ms st ≤ 2 ^ 53 → 0 ≤ W → 0 ≤ timer_ms period → timer_ms period + W < ttl_ms st →
  0 ≤ w_time w → w_time w + Z.of_nat rounds * (timer_ms period + W) ≤ 2 ^ 53 →
  0 ≤ fence l < 2 ^ 53 →
  held_by l = Some (holder st, dl) → w_time w + timer_ms period + W < dl →
  represents (view (w_time w) (w_srv w)) l →
  ∃ w' st' dl',
    renewal_task (E := cluster_error) rounds period st w = (w', Ok (st', true)) ∧
    released st' = false ∧
    w_time w' + timer_ms period + W < dl' ∧
    represents (view (w_time w') (w_srv w')) (Lease_ (Some (holder st, dl')) (fence l)).
Proof.
  revert w st l dl. induction rounds as [|rounds IH];
    intros w st l dl Hnet Hrel Hkey Httl HW Hp Hslack Ht Hend Hf Hh Hdl Hl.
  { exists w, st, dl. split; [done|]. split; [done|]. split; [done|].
    destruct l. cbn in *. by subst. }
  cbn [renewal_task]. unfold cbind at 1, sleep. cbv zeta. rewrite Hrel.
  set (w1 := World (w_srv w) (w_time w + Z.max 0 (timer_ms period)) (w_skew w) (w_net w)).
  assert (Hl1 : represents (view (w_time w1) (w_srv w1)) l).
  { assert (lease_later P (w_time w1) l = l) as <-
      by (unfold lease_later; rewrite Hh, past_due_early by (cbn; lia); done).
    apply (represents_later lk fk (w_time w)); [cbn; lia|done]. }
  destruct (renew_prompt W w1 st l dl) as (s & t & st1 & Hrun & Hst1 & Hbt & Hs);
    [done|done|done|done|done|cbn; lia|cbn; nia|done|done|cbn; lia|done|].
  unfold cbind at 1. rewrite Hrun.
  set (w2 := World s t (w_skew w1) (tail (w_net w1))).
  assert (Hsame : holder st1 = holder st ∧ released st1 = false ∧ lease_key st1 = lk ∧ ttl_ms st1 = ttl_ms st)
    by (subst st1; done).
  destruct Hsame as (Hho & Hre & Hke & Htt).
  cbn [w_time w_net w1] in *.
  destruct (IH w2 st1 (Lease_ (Some (holder st, t + ttl_ms st)) (fence l)) (t + ttl_ms st))
    as (w' & st' & dl' & Hrun' & Hrel' & Hdl' & Hl'); rewrite ?Hho, ?Htt; try done.
  - cbn. destruct (w_net w); cbn; [constructor|]. by apply Forall_cons in Hnet as [_ ?].
  - cbn. lia.
  - cbn. nia.
  - cbn. lia.
  - exists w', st', dl'. rewrite Hho in Hl'. split; [exact Hrun'|]. split; [done|]. split; [done|]. done.
Qed.

(** ** The stated expiry *)

(** An acquire script that returns a token has set the lease key, and a
    renew script that found its holder has moved its deadline. *)
Lemma acquire_sets t h ttl d d' n :
  0 < ttl → d_run P t (acquire_script lk fk h ttl) d = (d', Ok (Some n)) →
  d' !! lk = Some (RVal (RStr h) (Some (t + ttl))).
Proof.
  intros Httl. unfold acquire_script. rewrite d_run_call. cbn [documented].
  destruct (d !! lk) as [[[v|z] dl]|] eqn:Hlk; [done|done|].
  rewrite d_run_call. cbn [documented]. unfold d_set. rewrite Hlk.
  assert ((0 <? ttl) = true) as -> by (apply Z.ltb_lt; lia). cbn [andb negb].
  destruct (px_ok P t ttl); [|done]. cbn [negb fmap option_fmap option_map].
  rewrite d_run_call. unfold INCR. cbn [documented]. unfold d_incrby.
  rewrite lookup_insert_ne by done.
  assert (Hkept : ∀ o, (<[fk := o]> (<[lk := RVal (RStr h) (Some (t + ttl))]> d)) !! lk =
                       Some (RVal (RStr h) (Some (t + ttl))))
    by (intros o; by rewrite lookup_insert_ne, lookup_insert_eq).
  destruct (d !! fk) as [[[v|z] dl]|]; [destruct (as_int P v); [|done]|done|];
    destruct (is_i64 _); try done; cbn; intros [= <- _]; apply Hkept.
Qed.

Lemma renew_moves t h ttl d d' n :
  0 < ttl → d_run P t (renew_script lk h ttl) d = (d', Ok n) → n ≠ 0 →
  d' !! lk = Some (RVal (RStr h) (Some (t + ttl))).
Proof.
  intros Httl. unfold renew_script. rewrite d_run_call. cbn [documented].
  destruct (d !! lk) as [[[v|z] dl]|] eqn:Hlk; [|done|by intros [= <- <-]].
  cbn [is_holder]. case_bool_decide; [subst v|by intros [= <- <-]].
  rewrite d_run_call. cbn [documented].
  assert ((ttl <=? 0) = false) as -> by (apply Z.leb_gt; lia).
  destruct (px_ok P t ttl); [|done]. cbn [negb]. rewrite Hlk. cbn. intros [= <- _] _.
  by rewrite lookup_insert_eq.
Qed.

(** What the server holds when a script's reply is back: what the script left
    there some time ago. *)
Lemma invoke_ok {A} (sc : script A) (w w' : world Srv) a :
  invoke sc w = (w', Ok a) →
  ∃ t (late : N) d, d_run P t sc d = (view t (w_srv w'), Ok a) ∧
    w_time w ≤ t ∧ w_time w' = t + Z.of_N late ∧ w_skew w' = w_skew w.
Proof.
  intros Hrun. destruct (request_ok _ _ _ _ Hrun) as (s & late & Hs & ->).
  exists (arrival w).1, late, (view (arrival w).1 (arrival w).2). cbn.
  destruct (run_view (arrival w).1 sc (arrival w).2) as [Hv Hr]. rewrite Hs in Hv, Hr. cbn in Hv, Hr.
  rewrite Hv, Hr. split; [by destruct (d_run _ _ _ _)|]. split; [|done].
  unfold arrival. destruct (w_net w); cbn; lia.
Qed.

(** A handle states the deadline of [h]'s lease, by its replica's clock and
    as late as the reply was. *)
Definition states_deadline (h : string) (st : lease_state) (w w' : world Srv) : Prop :=
  ∃ t (late : N),
    w_time w ≤ t ∧ w_time w' = t + Z.of_N late ∧
    view t (w_srv w') !! lk = Some (RVal (RStr h) (Some (t + ttl_ms st))) ∧
    expires_at st = rfc3339 (t + ttl_ms st + w_skew w' + Z.of_N late).

Lemma rfc3339_after_ms now ttl : ttl ≤ i64_max → rfc3339_after now ttl = rfc3339 (now + ttl).
Proof. intros Httl. unfold rfc3339_after. by assert ((ttl <=? i64_max) = true) as -> by (apply Z.leb_le; lia). Qed.

Lemma acquire_states_deadline name h ttl pct (w w' : world Srv) st :
  as_millis ttl ≤ i64_max →
  try_acquire_async name lk fk h ttl pct w = (w', Ok (Some st)) → states_deadline h st w w'.
Proof.
  intros Httl. unfold try_acquire_async. destruct (is_blank name); [done|]. fold (lease_ms ttl).
  intros (w1 & fence & Hrun%cmap_err_ok & Hst)%cbind_ok.
  destruct (invoke_ok _ _ _ _ Hrun) as (t & late & d & Hd & Ht & Hl & Hk).
  destruct fence as [n|]; [|done]. injection Hst as <- <-.
  assert (Hms : 0 < lease_ms ttl ≤ i64_max)
    by (unfold lease_ms, clamp, i64_max, u64_max in *; lia).
  exists t, late. cbn [ttl_ms expires_at]. split; [done|]. split; [done|].
  split; [apply (acquire_sets _ _ _ d _ n); [lia|done]|].
  rewrite rfc3339_after_ms, Hl by lia. f_equal. lia.
Qed.

Lemma renew_states_deadline h (w w' : world Srv) st0 st :
  lease_key st0 = lk → holder st0 = h → 0 < ttl_ms st0 ≤ i64_max →
  renew_state (E := cluster_error) st0 w = (w', Ok (st, Ok tt)) → states_deadline h st w w'.
Proof.
  intros Hkey Hh Httl. unfold renew_state. rewrite Hkey, Hh. destruct (released st0); [done|].
  unfold cbind, cresult.
  destruct (invoke _ w) as [w1 [n|e]] eqn:Hrun; [|done].
  destruct (n =? 0) eqn:Hn; [done|]. intros [= <- <-].
  destruct (invoke_ok _ _ _ _ Hrun) as (t & late & d & Hd & Ht & Hl & Hk).
  exists t, late. cbn [ttl_ms expires_at set_expires_at]. split; [done|]. split; [done|].
  apply Z.eqb_neq in Hn. split; [apply (renew_moves _ _ _ d _ n); [lia|done..]|].
  rewrite rfc3339_after_ms, Hl by lia. f_equal. lia.
Qed.

(** ** A released handle *)

Inductive handle_call : Type := Renew | Release.

(** The calls of a handle's owner in order, and what each returns. *)
Fixpoint handle_calls (cs : list handle_call) (st : lease_state) :
    client Srv cluster_error (lease_state * list (result unit cluster_error)) :=
  match cs with
  | [] => cret (st, [])
  | c :: cs =>
      let! (st, r) := match c with Renew => renew_state st | Release => release_state st end in
      let! (st, rs) := handle_calls cs st in
      cret (st, r :: rs)
  end.

Definition released_result (c : handle_call) : result unit cluster_error :=
  match c with Renew => Err LeaseExpired | Release => Ok tt end.

Lemma released_calls cs st w :
  released st = true → handle_calls cs st w = (w, Ok (st, released_result <$> cs)).
Proof.
  intros Hr. induction cs as [|[] cs IH]; cbn [handle_calls]; [done| |];
    unfold cbind at 1, renew_state, release_state; rewrite Hr; cbn; unfold cbind; by rewrite IH.
Qed.

Lemma release_marks {E} st (w : world Srv) :
  ∃ st', (release_state (E := E) st w).2 = Ok (st', Ok tt) ∧ released st' = true.
Proof.
  unfold release_state. destruct (released st) eqn:Hr; [by exists st|].
  unfold cbind, cresult. destruct (invoke _ w) as [w' r]. eexists. split; [done|]. done.
Qed.

Lemma renew_marks {E} st (w : world Srv) st' :
  (renew_state (E := E) st w).2 = Ok (st', Err LeaseExpired) → released st' = true.
Proof.
  unfold renew_state. destruct (released st) eqn:Hr; [by intros [= <-]|].
  unfold cbind, cresult. destruct (invoke _ w) as [w' [n|e]]; cbn; [|by intros [= <-]].
  destruct (n =? 0); [|done]. by intros [= <-].
Qed.
End lease.

(** ** The renewal period *)

Lemma renewal_period_bounds ttl pct :
  1 ≤ ttl ≤ u64_max →
  0 < renewal_period ttl pct < from_millis ttl ∧
  100 * renewal_period ttl pct ≤ from_millis ttl * (100 - clamp 1 99 pct).
Proof.
  intros Httl. unfold renewal_period. set (p := clamp 1 99 pct).
  assert (Hp : 1 ≤ p ≤ 99) by (unfold p, clamp; lia). clearbody p.
  unfold from_millis, duration_max, u64_max in *.
  rewrite (Z.max_r 0 (100 - p)) by lia.
  rewrite Z.min_r by nia.
  set (q := ttl * 1000000 * (100 - p) / 100).
  assert (Hq : 10000 ≤ q).
  { apply Z.div_le_lower_bound; nia. }
  assert (Hq2 : 100 * q ≤ ttl * 1000000 * (100 - p)) by (apply Z.mul_div_le; lia).
  assert ((q =? 0) = false) as -> by (apply Z.eqb_neq; lia).
  split; [|done]. nia.
Qed.
