(* ===== verification/LeaseNet.v ===== *)
(** * Leases over a network that loses requests

    One replica's lease calls - acquires, renewals and releases of the
    handles it was given - over a network where requests are delayed or lost,
    replies are lost, and other clients' lease scripts arrive in between.
    However that goes, the server sees one sequence of lease scripts, in
    which each call of the replica is there at most once, with the answer the
    call returned if it returned one: calls are atomic, and a failed one
    happened once or not at all. *)

From S2P Require Import Prelude Redis Client DbFacts Keys Footprint Text Lease LeaseSpec LeaseRun.

(** ** Sessions *)

Inductive lease_call : Type :=
| TryAcquire (ttl pct : Z)
| RenewHandle (i : nat)
| ReleaseHandle (i : nat).

Inductive call_result : Type :=
| Acquired (r : result (option lease_state) cluster_error)
| Returned (r : result unit cluster_error).

(** What a log of the server has: time passing, another client's lease
    operation, one of this replica's. *)
Inductive entry : Type :=
| Passes (n : N)
| Theirs (op : lease_op)
| Mine (op : lease_op).

Definition entry_op (e : entry) : N * lease_op :=
  match e with
  | Passes n => (n, LOther (SRet tt))
  | Theirs op | Mine op => (0%N, op)
  end.

Definition theirs (log : list entry) : list lease_op :=
  omap (λ e, match e with Theirs op => Some op | _ => None end) log.

Definition is_mine (e : entry) : bool := match e with Mine _ => true | _ => false end.

(** The other clients' lease operations on the way of each round trip. *)
Abbreviation lossy_net := (list (N * list lease_op * fate)).

Section session.
Context {Srv : Type} `{RedisServer Srv} `{Chrono}.
Context (lk fk full h : string).
Local Abbreviation lease_script := (lease_script lk fk).

Definition lossy_event (ev : N * list lease_op * fate) : net_event :=
  NetEvent ev.1.1 (silent ∘ lease_script <$> ev.1.2) ev.2.

Definition others_of (net : lossy_net) : list lease_op := concat ((λ ev, ev.1.2) <$> net).

(** A call and the replica's handles after it; a handle that is not there is
    the null pointer of [renew_sync] and [release_sync]. *)
Definition run_call (c : lease_call) (hs : list lease_state) :
    client Srv cluster_error (list lease_state * call_result) :=
  match c with
  | TryAcquire ttl pct =>
      let! r := cresult (try_acquire_async full lk fk h ttl pct) in
      cret (hs ++ match r with Ok (Some st) => [st] | _ => [] end, Acquired r)
  | RenewHandle i =>
      match hs !! i with
      | None => cret (hs, Returned (Err LeaseExpired))
      | Some st => let! (st, r) := renew st in cret (<[i := st]> hs, Returned r)
      end
  | ReleaseHandle i =>
      match hs !! i with
      | None => cret (hs, Returned (Ok tt))
      | Some st => let! (st, r) := release st in cret (<[i := st]> hs, Returned r)
      end
  end.

Fixpoint run_session (cs : list (N * lease_call)) (hs : list lease_state) :
    client Srv cluster_error (list lease_state * list call_result) :=
  match cs with
  | [] => cret (hs, [])
  | (pause, c) :: cs =>
      let! _ := sleep (Z.of_N pause) in
      let! (hs, r) := run_call c hs in
      let! (hs, rs) := run_session cs hs in
      cret (hs, r :: rs)
  end.

(** ** What a log says of a session's results *)

(** The operation a call may have done. *)
Definition op_of (c : lease_call) (op : lease_op) : Prop :=
  match c with
  | TryAcquire ttl _ => op = LAcquire h (lease_ms ttl)
  | RenewHandle _ => ∃ ttl, op = LRenew h ttl
  | ReleaseHandle _ => op = LRelease h
  end.

(** What a call returns when its script answers [x] and the reply arrives. *)
Definition answer (c : lease_call) (x : result lease_res string) (r : call_result) : Prop :=
  match c, x with
  | TryAcquire _ _, Ok (Token None) => r = Acquired (Ok None)
  | TryAcquire ttl pct, Ok (Token (Some n)) =>
      ∃ e, r = Acquired (Ok (Some (LeaseState lk h (as_u64 n) (lease_ms ttl) e false
                                     (Some (renewal_period (lease_ms ttl) pct)))))
  | RenewHandle _, Ok (Found true) => r = Returned (Ok tt)
  | RenewHandle _, Ok (Found false) => r = Returned (Err LeaseExpired)
  | ReleaseHandle _, _ => r = Returned (Ok tt)
  | TryAcquire _ _, _ => ∃ e, r = Acquired (Err (BackendUnavailable e))
  | RenewHandle _, _ => ∃ e, r = Returned (Err (BackendUnavailable e))
  end.

(** What it returns when the request or the reply is lost - a release never
    says so - and when it asks the server nothing. *)
Definition lost (c : lease_call) (r : call_result) : Prop :=
  match c with
  | TryAcquire _ _ => ∃ e, r = Acquired (Err (BackendUnavailable e))
  | RenewHandle _ => ∃ e, r = Returned (Err (BackendUnavailable e))
  | ReleaseHandle _ => r = Returned (Ok tt)
  end.

Definition not_asked (c : lease_call) (r : call_result) : Prop :=
  match c with
  | TryAcquire _ _ => ∃ e, r = Acquired (Err (InvalidReference e))
  | RenewHandle _ => r = Returned (Err LeaseExpired)
  | ReleaseHandle _ => r = Returned (Ok tt)
  end.

(** The calls' results, given the server's log and each entry's result. *)
Inductive accounts : list lease_call → list call_result → list (entry * result lease_res string) → Prop :=
| accounts_nil : accounts [] [] []
| accounts_other cs rs e x log :
    is_mine e = false → accounts cs rs log → accounts cs rs ((e, x) :: log)
| accounts_not_done c cs r rs log :
    lost c r ∨ not_asked c r → accounts cs rs log → accounts (c :: cs) (r :: rs) log
| accounts_done c cs r rs op x log :
    op_of c op → answer c x r ∨ lost c r →
    accounts cs rs log → accounts (c :: cs) (r :: rs) ((Mine op, x) :: log).

(** ** Well-formed handles *)

(** The handle of a lease of at least a millisecond, whose numbers fit their
    types and whose renewal task - there until a release takes it - has a
    period within the TTL. *)
Record handle_wf (st : lease_state) : Prop := {
  wf_key : lease_key st = lk;
  wf_holder : holder st = h;
  wf_ttl : 1 ≤ ttl_ms st ≤ u64_max;
  wf_token : in_u64 (fence_token st);
  wf_abort : match renewal_abort st with
             | Some p => 0 < p < from_millis (ttl_ms st)
             | None => released st = true
             end;
}.

(** What a call leaves of a handle: the same lease, and released for good. *)
Definition becomes (st st' : lease_state) : Prop :=
  lease_key st' = lease_key st ∧ holder st' = holder st ∧ fence_token st' = fence_token st ∧
  ttl_ms st' = ttl_ms st ∧ (released st = true → released st' = true).

Lemma becomes_refl st : becomes st st.
Proof. done. Qed.

Lemma becomes_trans st1 st2 st3 : becomes st1 st2 → becomes st2 st3 → becomes st1 st3.
Proof. intros (? & ? & ? & ? & ?) (? & ? & ? & ? & ?). unfold becomes. repeat split; congruence || auto. Qed.

Definition kept_handles (hs hs' : list lease_state) : Prop :=
  Forall2 becomes hs (take (length hs) hs') ∧ (Forall handle_wf hs → Forall handle_wf hs').

Lemma kept_handles_refl hs : kept_handles hs hs.
Proof. split; [|done]. rewrite take_ge by done. apply Forall_Forall2_diag, Forall_true. by intros. Qed.

Lemma kept_handles_trans hs1 hs2 hs3 : kept_handles hs1 hs2 → kept_handles hs2 hs3 → kept_handles hs1 hs3.
Proof.
  intros [H1 W1] [H2 W2]. split; [|auto].
  pose proof (Forall2_length _ _ _ H1) as Hlen. rewrite length_take in Hlen.
  apply (Forall2_take _ _ _ (length hs1)) in H2. rewrite take_take, Nat.min_l in H2 by lia.
  apply Forall2_same_length_lookup. apply Forall2_same_length_lookup in H1 as [Hl1 H1], H2 as [Hl2 H2].
  split; [lia|]. intros i x z Hx Hz.
  destruct (lookup_lt_is_Some_2 (take (length hs1) hs2) i) as [y Hy].
  { rewrite <- Hl1. by eapply lookup_lt_Some. }
  eapply becomes_trans; [by eapply H1|by eapply H2].
Qed.

Lemma kept_handles_app hs st : handle_wf st → kept_handles hs (hs ++ [st]).
Proof.
  intros Hst. destruct (kept_handles_refl hs) as [Hhs _]. split.
  - rewrite take_app_length. by rewrite take_ge in Hhs.
  - intros Hwf. apply Forall_app. split; [done|by apply Forall_singleton].
Qed.

Lemma kept_handles_insert hs i st st' :
  hs !! i = Some st → becomes st st' → (handle_wf st → handle_wf st') → kept_handles hs (<[i := st']> hs).
Proof.
  intros Hi Hb Hw. split.
  - rewrite take_ge by (by rewrite length_insert).
    apply Forall2_same_length_lookup. split; [by rewrite length_insert|]. intros j x y Hx Hy.
    destruct (decide (j = i)) as [->|Hne].
    + rewrite list_lookup_insert_eq in Hy by (by eapply lookup_lt_Some). by simplify_eq.
    + rewrite list_lookup_insert_ne in Hy by done. by simplify_eq.
  - intros Hwf. apply Forall_insert; [done|]. apply Hw. by eapply Forall_lookup_1 in Hi.
Qed.

Lemma renew_keeps {E} st (w : world Srv) :
  ∃ w' st' r, renew_state (E := E) st w = (w', Ok (st', r)) ∧ becomes st st' ∧ (handle_wf st → handle_wf st').
Proof.
  unfold renew_state. destruct (released st) eqn:Hrel; [by do 3 eexists|].
  unfold cbind, cresult. destruct (invoke _ w) as [w' [n|e]]; [|by do 3 eexists].
  destruct (n =? 0); (do 3 eexists; split; [reflexivity|]; split; [done|]); intros []; split; try done; cbn.
  by destruct (renewal_abort st).
Qed.

Lemma release_keeps {E} st (w : world Srv) :
  ∃ w' st' r, release_state (E := E) st w = (w', Ok (st', r)) ∧ becomes st st' ∧ (handle_wf st → handle_wf st').
Proof.
  unfold release_state. destruct (released st) eqn:Hrel; [by do 3 eexists|].
  unfold cbind, cresult. destruct (invoke _ w) as [w' r].
  do 3 eexists. split; [reflexivity|]. split; [done|]. by intros [].
Qed.

Lemma acquire_makes ttl pct (w : world Srv) w' st :
  try_acquire_async full lk fk h ttl pct w = (w', Ok (Some st)) → handle_wf st.
Proof.
  unfold try_acquire_async. destruct (is_blank full); [done|]. unfold cbind, cmap_err.
  destruct (invoke _ w) as [w1 [[n|]|e]]; [|done|done]. intros [= _ <-].
  assert (Hms : 1 ≤ clamp 1 u64_max (as_millis ttl) ≤ u64_max) by (apply clamp_bounds; done).
  split; cbn; [done|done|done| |by apply renewal_period_bounds].
  unfold in_u64, as_u64, u64_max. pose proof (Z.mod_pos_bound n (2 ^ 64)). lia.
Qed.

Lemma run_call_keeps c hs (w : world Srv) :
  ∃ w' hs' r, run_call c hs w = (w', Ok (hs', r)) ∧ kept_handles hs hs'.
Proof.
  destruct c as [ttl pct|i|i]; cbn [run_call].
  - unfold cbind, cresult. destruct (try_acquire_async full lk fk h ttl pct w) as [w' r] eqn:Hrun.
    do 3 eexists. split; [reflexivity|]. destruct r as [[st|]|e].
    + apply kept_handles_app. by eapply acquire_makes.
    + rewrite app_nil_r. apply kept_handles_refl.
    + rewrite app_nil_r. apply kept_handles_refl.
  - destruct (hs !! i) as [st|] eqn:Hi; [|do 3 eexists; split; [reflexivity|apply kept_handles_refl]].
    destruct (renew_keeps (E := cluster_error) st w) as (w' & st' & r & Hrun & Hb & Hw).
    unfold renew, release, cbind. rewrite Hrun. do 3 eexists. split; [reflexivity|]. by eapply kept_handles_insert.
  - destruct (hs !! i) as [st|] eqn:Hi; [|do 3 eexists; split; [reflexivity|apply kept_handles_refl]].
    destruct (release_keeps (E := cluster_error) st w) as (w' & st' & r & Hrun & Hb & Hw).
    unfold renew, release, cbind. rewrite Hrun. do 3 eexists. split; [reflexivity|]. by eapply kept_handles_insert.
Qed.

Lemma session_keeps cs hs (w : world Srv) :
  ∃ w' hs' rs, run_session cs hs w = (w', Ok (hs', rs)) ∧ length rs = length cs ∧ kept_handles hs hs'.
Proof.
  revert hs w. induction cs as [|[pause c] cs IH]; intros hs w; cbn [run_session].
  { do 3 eexists. split; [reflexivity|]. split; [done|]. apply kept_handles_refl. }
  unfold cbind at 1, sleep. set (w1 := World _ _ _ _).
  destruct (run_call_keeps c hs w1) as (w2 & hs2 & r & Hrun & Hk2).
  destruct (IH hs2 w2) as (w3 & hs3 & rs & Hrun3 & Hlen & Hk3).
  unfold cbind at 1. rewrite Hrun. unfold cbind. rewrite Hrun3.
  do 3 eexists. split; [reflexivity|]. split; [cbn; lia|]. by eapply kept_handles_trans.
Qed.

(** ** The log of a session *)

Local Abbreviation run_log t log := (run_leases lk fk t (entry_op <$> log)).

Lemma run_leases_app t ops1 ops2 (s : Srv) :
  run_leases lk fk t (ops1 ++ ops2) s =
    let '(s1, rs1) := run_leases lk fk t ops1 s in
    let '(s2, rs2) := run_leases lk fk (end_time t ops1) ops2 s1 in
    (s2, rs1 ++ rs2).
Proof.
  revert t s. induction ops1 as [|[n op] ops1 IH]; intros t s; cbn [app run_leases].
  { change (end_time t []) with t. by destruct (run_leases lk fk t ops2 s). }
  destruct (run (t + Z.of_N n) (lease_script op) s) as [s1 r]. rewrite IH.
  change (end_time t ((n, op) :: ops1)) with (end_time (t + Z.of_N n) ops1).
  destruct (run_leases lk fk (t + Z.of_N n) ops1 s1) as [s2 rs1].
  by destruct (run_leases lk fk (end_time (t + Z.of_N n) ops1) ops2 s2).
Qed.

Lemma end_time_app t ops1 ops2 : end_time t (ops1 ++ ops2) = end_time (end_time t ops1) ops2.
Proof. apply foldl_app. Qed.

Lemma run_leases_length t ops (s : Srv) : length (run_leases lk fk t ops s).2 = length ops.
Proof.
  revert t s. induction ops as [|[n op] ops IH]; intros t s; cbn [run_leases]; [done|].
  destruct (run (t + Z.of_N n) (lease_script op) s) as [s1 r].
  specialize (IH (t + Z.of_N n) s1). destruct (run_leases lk fk (t + Z.of_N n) ops s1). cbn in *. lia.
Qed.

Lemma theirs_log ops : theirs (Theirs <$> ops) = ops.
Proof. induction ops as [|op ops IH]; [done|]. cbn. by f_equal. Qed.

(** The other clients' part of a round trip. *)
Lemma run_theirs t ops (s : Srv) :
  (run_log t (Theirs <$> ops) s).1 = run_others t (silent ∘ lease_script <$> ops) s ∧
  end_time t (entry_op <$> (Theirs <$> ops)) = t.
Proof.
  revert s. induction ops as [|op ops IH]; intros s; [done|]. cbn [fmap list_fmap entry_op run_leases].
  change (end_time t (_ :: ?l)) with (end_time (t + 0) l). rewrite !Z.add_0_r.
  destruct (IH (run t (lease_script op) s).1) as [IH1 IH2]. split; [|exact IH2].
  cbn [run_others foldl compose]. rewrite run_silent.
  destruct (run t (lease_script op) s) as [s1 r]. cbn [fst] in *.
  change (foldl _ _ _) with (run_others t (silent ∘ lease_script <$> ops) s1). rewrite <- IH1.
  by destruct (run_leases lk fk t (entry_op <$> (Theirs <$> ops)) s1).
Qed.

Lemma run_bind_ret {A B} t (sc : script A) (f : A → B) (s : Srv) :
  run t (sbind sc (λ a, SRet (f a))) s = ((run t sc s).1, result_map f (run t sc s).2).
Proof.
  revert s. induction sc as [a|e|c k IH]; intros s; [done|done|]. cbn.
  destruct (exec t c s). apply IH.
Qed.

(** A step of the replica from [w] to [w'] that [log] explains: it has used
    up a part of the network, the others' operations of which are the log's,
    and the server is where the log's operations have brought it. *)
Definition logged (w : world Srv) (net : lossy_net) (log : list entry) (w' : world Srv)
    (net' : lossy_net) : Prop :=
  w_net w = lossy_event <$> net ∧ w_net w' = lossy_event <$> net' ∧
  (∃ taken, net = taken ++ net' ∧ theirs log = others_of taken) ∧
  w_srv w' = (run_log (w_time w) log (w_srv w)).1 ∧
  w_time w' = end_time (w_time w) (entry_op <$> log).

Lemma logged_refl w net : w_net w = lossy_event <$> net → logged w net [] w net.
Proof. intros Hn. split; [done|]. split; [done|]. split; [by exists []|done]. Qed.

Lemma logged_app w net log1 w1 net1 log2 w2 net2 :
  logged w net log1 w1 net1 → logged w1 net1 log2 w2 net2 → logged w net (log1 ++ log2) w2 net2.
Proof.
  intros (Hn & _ & (p1 & -> & Hp1) & Hs1 & Ht1) (_ & Hn2 & (p2 & -> & Hp2) & Hs2 & Ht2).
  split; [done|]. split; [done|]. split; [|split].
  - exists (p1 ++ p2). rewrite <- app_assoc. split; [done|]. unfold theirs in *.
    rewrite omap_app, Hp1, Hp2. unfold others_of. by rewrite fmap_app, concat_app.
  - rewrite fmap_app, run_leases_app, Hs2, Ht1, Hs1.
    destruct (run_leases lk fk (w_time w) (entry_op <$> log1) (w_srv w)) as [s1 rs1]. cbn [fst].
    by destruct (run_leases lk fk _ (entry_op <$> log2) s1).
  - by rewrite fmap_app, end_time_app, Ht2, Ht1.
Qed.

(** The entries of a log with their results, over the run of the server. *)
Definition results (w : world Srv) (log : list entry) : list (entry * result lease_res string) :=
  zip log (run_log (w_time w) log (w_srv w)).2.

Lemma results_app w net log1 w1 net1 log2 :
  logged w net log1 w1 net1 → results w (log1 ++ log2) = results w log1 ++ results w1 log2.
Proof.
  intros (_ & _ & _ & Hs1 & Ht1). unfold results. rewrite fmap_app, run_leases_app, Hs1, Ht1.
  pose proof (run_leases_length (w_time w) (entry_op <$> log1) (w_srv w)) as Hlen.
  destruct (run_leases lk fk (w_time w) (entry_op <$> log1) (w_srv w)) as [s1 rs1]. cbn [fst snd] in *.
  destruct (run_leases lk fk _ (entry_op <$> log2) s1) as [s2 rs2]. cbn [snd].
  rewrite length_fmap in Hlen. by rewrite zip_with_app by done.
Qed.

(** Nothing but a wait and other clients' operations. *)
Definition quiet_log (log : list entry) : Prop :=
  Forall (λ e, is_mine e = false) log ∧ (length log ≤ 1 + length (theirs log))%nat.

Lemma quiet_waits n ops : quiet_log (Passes n :: (Theirs <$> ops)).
Proof.
  split; [constructor; [done|by apply Forall_fmap, Forall_true]|].
  cbn. change (omap _ _) with (theirs (Theirs <$> ops)). rewrite theirs_log, length_fmap. lia.
Qed.

Lemma accounts_others cs rs w log z :
  quiet_log log → accounts cs rs z → accounts cs rs (results w log ++ z).
Proof.
  unfold results. generalize (run_log (w_time w) log (w_srv w)).2. intros xs [Hlog _] Hz. revert xs.
  induction Hlog as [|e log He _ IH]; intros [|x xs]; cbn; try done. by constructor.
Qed.

(** The way to the server. *)
Lemma logged_arrival (w : world Srv) n ops f net :
  w_net w = lossy_event <$> (n, ops, f) :: net →
  logged w ((n, ops, f) :: net) (Passes n :: (Theirs <$> ops))
    (World (arrival w).2 (arrival w).1 (w_skew w) (lossy_event <$> net)) net.
Proof.
  intros Hn. unfold logged, arrival. rewrite Hn. cbn [fmap list_fmap lossy_event ev_wait ev_others fst snd].
  split; [done|]. split; [done|]. split; [|cbn [w_srv w_time]].
  - exists [(n, ops, f)]. split; [done|]. cbn. rewrite app_nil_r. apply theirs_log.
  - cbn [fmap list_fmap entry_op run_leases].
    destruct (run_theirs (w_time w + Z.of_N n) ops (w_srv w)) as [Hs Ht]. cbn [lease_script sbind run].
    change (end_time (w_time w) (_ :: ?l)) with (end_time (w_time w + Z.of_N n) l).
    rewrite Ht, <- Hs. split; [|done].
    by destruct (run_leases lk fk (w_time w + Z.of_N n) (entry_op <$> (Theirs <$> ops)) (w_srv w)).
Qed.

(** The script at the server. *)
Lemma logged_mine {A} op (sc : script A) (g : A → lease_res) (w : world Srv) net :
  lease_script op = sbind sc (λ a, SRet (g a)) → w_net w = lossy_event <$> net →
  logged w net [Mine op] (set_srv (run (w_time w) sc (w_srv w)).1 w) net ∧
  results w [Mine op] = [(Mine op, result_map g (run (w_time w) sc (w_srv w)).2)].
Proof.
  intros Hsc Hn.
  assert (Hrun : run_log (w_time w) [Mine op] (w_srv w) =
    ((run (w_time w) sc (w_srv w)).1, [result_map g (run (w_time w) sc (w_srv w)).2])).
  { cbn [fmap list_fmap entry_op run_leases]. by rewrite Z.add_0_r, Hsc, run_bind_ret. }
  unfold results. rewrite Hrun. split; [|done].
  split; [done|]. split; [done|]. split; [by exists []|]. rewrite Hrun. split; [done|].
  unfold end_time. cbn. lia.
Qed.

(** The way back. *)
Lemma logged_pause (w : world Srv) net (n : N) :
  w_net w = lossy_event <$> net →
  logged w net [Passes n] (World (w_srv w) (w_time w + Z.of_N n) (w_skew w) (w_net w)) net.
Proof. intros Hn. split; [done|]. split; [done|]. by split; [exists []|]. Qed.

(** A request of a lease script: it is the log's last entry but for time that
    passes, or it was lost. *)
Lemma logged_invoke {A} op (sc : script A) (g : A → lease_res) w net :
  lease_script op = sbind sc (λ a, SRet (g a)) → w_net w = lossy_event <$> net →
  ∃ w' r log net',
    invoke sc w = (w', r) ∧ quiet_log log ∧
    ((r = Err connection_lost ∧ logged w net log w' net') ∨
     ∃ a back w1, logged w net (log ++ Mine op :: back) w' net' ∧ (r = a ∨ r = Err connection_lost) ∧
          (back = [] ∨ ∃ n, back = [Passes n]) ∧
          results w (log ++ Mine op :: back) = results w log ++ (Mine op, result_map g a) :: results w1 back).
Proof.
  intros Hsc Hn. destruct net as [|[[n ops] f] net].
  - destruct (logged_mine op sc g w [] Hsc Hn) as [Hl Hr].
    rewrite (invoke_quiet sc w Hn). do 2 eexists. exists [], []. split; [done|]. split; [by split; [constructor|cbn; lia]|].
    right. exists (run (w_time w) sc (w_srv w)).2, [], w. split; [exact Hl|].
    split; [by left|]. split; [by left|exact Hr].
  - pose proof (logged_arrival w n ops f net Hn) as Harr. set (w1 := World _ _ _ _) in Harr.
    destruct (logged_mine op sc g w1 net Hsc eq_refl) as [Hl Hr].
    pose proof (quiet_waits n ops) as Hq. set (w2 := set_srv (run (w_time w1) sc (w_srv w1)).1 w1) in *.
    set (x := (run (w_time w1) sc (w_srv w1)).2) in *.
    assert (Hback : ∀ back w3, logged w2 net back w3 net →
      logged w ((n, ops, f) :: net) ((Passes n :: (Theirs <$> ops)) ++ Mine op :: back) w3 net ∧
      results w ((Passes n :: (Theirs <$> ops)) ++ Mine op :: back) =
        results w (Passes n :: (Theirs <$> ops)) ++ (Mine op, result_map g x) :: results w2 back).
    { intros back w3 Hb. pose proof (logged_app _ _ _ _ _ _ _ _ Hl Hb) as Hlb.
      split; [exact (logged_app _ _ _ _ _ _ _ _ Harr Hlb)|].
      rewrite (results_app _ _ _ _ _ _ Harr). change (Mine op :: back) with ([Mine op] ++ back).
      by rewrite (results_app _ _ _ _ _ _ Hl), Hr. }
    destruct (Hback [] w2 (logged_refl w2 net eq_refl)) as [Hl0 Hr0].
    assert (Hinv : invoke sc w = match f with
      | LostRequest => (w1, Err connection_lost)
      | LostReply => (w2, Err connection_lost)
      | Delivered => (w2, x)
      | Late ms => (World (w_srv w2) (w_time w2 + Z.of_N ms) (w_skew w2) (w_net w2), x)
      end).
    { unfold invoke, request, w2, x, w1, arrival, set_srv. rewrite Hn. cbn. by destruct f. }
    rewrite Hinv. destruct f as [|ms| |]; (do 2 eexists; exists (Passes n :: (Theirs <$> ops)), net;
      split; [done|]; split; [exact Hq|]).
    + right. exists x, [], w2. split; [exact Hl0|]. split; [by left|]. split; [by left|exact Hr0].
    + right. destruct (Hback _ _ (logged_pause w2 net ms eq_refl)) as [Hl1 Hr1]. exists x, [Passes ms], w2.
      split; [exact Hl1|]. split; [by left|]. split; [right; by exists ms|exact Hr1].
    + left. by split.
    + right. exists x, [], w2. split; [exact Hl0|]. split; [by right|]. split; [by left|exact Hr0].
Qed.

(** ** Each call *)

(** What a session needs of its handles and its calls, for the contract to
    apply to the operations they make. *)
Definition handle_ok (st : lease_state) : Prop :=
  lease_key st = lk ∧ holder st = h ∧ 0 < ttl_ms st ≤ 2 ^ 53.

Definition call_ok (c : lease_call) : Prop :=
  match c with TryAcquire ttl _ => as_millis ttl ≤ 2 ^ 53 | _ => True end.

Definition entry_ok (e : entry) : Prop :=
  match e with Mine op => lease_op_ok lk fk op ∧ ¬ (∃ sc, op = LOther sc) | _ => True end.

(** A call is logged, and accounts for its result. *)
Definition call_logged (c : lease_call) (w : world Srv) (net : lossy_net)
    (out : world Srv * result (list lease_state * call_result) cluster_error) : Prop :=
  ∃ w' hs' r log net',
    out = (w', Ok (hs', r)) ∧ logged w net log w' net' ∧ Forall handle_ok hs' ∧ Forall entry_ok log ∧
    (length log ≤ 3 + length (theirs log))%nat ∧
    ∀ cs rs z, accounts cs rs z → accounts (c :: cs) (r :: rs) (results w log ++ z).

Lemma call_not_asked c w net hs r :
  w_net w = lossy_event <$> net → Forall handle_ok hs → not_asked c r →
  call_logged c w net (w, Ok (hs, r)).
Proof.
  intros Hn Hhs Hr. exists w, hs, r, [], net. split; [done|]. split; [by apply logged_refl|].
  split; [done|]. split; [constructor|]. split; [cbn; lia|]. intros cs rs z Hz. by constructor; [right|].
Qed.

(** A call made of one request. *)
Lemma call_asked {A} c op (sc : script A) (g : A → lease_res) w net
    (k : Z → result A string → list lease_state * call_result) :
  lease_script op = sbind sc (λ a, SRet (g a)) → w_net w = lossy_event <$> net →
  op_of c op → entry_ok (Mine op) →
  (∀ now r, Forall handle_ok (k now r).1) →
  (∀ now a, answer c (result_map g a) (k now a).2) → (∀ now, lost c (k now (Err connection_lost)).2) →
  call_logged c w net
    (let '(w', r) := invoke sc w in (w', Ok (k (w_time w' + w_skew w') r))).
Proof.
  intros Hsc Hn Hop Hok Hhs Hans Hlost.
  destruct (logged_invoke op sc g w net Hsc Hn) as (w' & r & log & net' & -> & Hq & Hcase).
  assert (Hlog : Forall entry_ok log) by (eapply Forall_impl; [apply Hq|]; by intros []).
  set (now := w_time w' + w_skew w'). exists w', (k now r).1, (k now r).2.
  destruct Hcase as [[-> Hl]|(a & back & w1 & Hl & Hr & Hback & Hres)].
  - exists log, net'. split; [by destruct (k now _)|]. split; [done|]. split; [done|]. split; [done|].
    split; [destruct Hq; lia|]. intros cs rs z Hz. apply accounts_others; [done|]. by constructor; [left|].
  - assert (Hbq : quiet_log back ∧ Forall entry_ok back ∧ theirs back = [] ∧ (length back ≤ 1)%nat).
    { destruct Hback as [->|[n ->]]; (split; [by split; [repeat constructor|cbn; lia]|]);
        (split; [repeat constructor|]); by split; [|cbn; lia]. }
    destruct Hbq as (Hbq & Hbok & Hbt & Hbl).
    exists (log ++ Mine op :: back), net'. split; [by destruct (k now r)|]. split; [done|]. split; [done|].
    split; [apply Forall_app; split; [done|by constructor]|].
    split; [destruct Hq as [_ Hq]; unfold theirs in *; rewrite omap_app, !length_app; cbn; lia|].
    intros cs rs z Hz. rewrite Hres, <- app_assoc. apply accounts_others; [done|]. cbn [app].
    constructor; [done| |by apply accounts_others]. by destruct Hr as [->| ->]; auto.
Qed.

(** The replica's calls are such calls. *)
Lemma run_call_logged c hs (w : world Srv) net :
  w_net w = lossy_event <$> net → Forall handle_ok hs → call_ok c →
  call_logged c w net (run_call c hs w).
Proof.
  intros Hn Hhs Hc. destruct c as [ttl pct|i|i]; cbn [run_call].
  - unfold try_acquire_async. fold (lease_ms ttl). destruct (is_blank full).
    { apply call_not_asked; cbn; [done|by rewrite app_nil_r|eauto]. }
    set (k := λ now r, match r with
      | Ok (Some n) =>
          let st := LeaseState lk h (as_u64 n) (lease_ms ttl) (rfc3339_after now (lease_ms ttl)) false
                      (Some (renewal_period (lease_ms ttl) pct)) in
          (hs ++ [st], Acquired (Ok (Some st)))
      | Ok None => (hs ++ [], Acquired (Ok None))
      | Err e => (hs ++ [], Acquired (Err (BackendUnavailable ("lease acquire `" +:+ full +:+ "`: " +:+ e))))
      end).
    assert (Hout : ∀ o, o = (let '(w', r) := invoke (acquire_script lk fk h (lease_ms ttl)) w in
                             (w', Ok (k (w_time w' + w_skew w') r))) →
      call_logged (TryAcquire ttl pct) w net o).
    { intros o ->. apply (call_asked _ (LAcquire h (lease_ms ttl)) _ Token); try done.
      - split; [by apply lease_ms_range|by intros [sc ?]].
      - intros now [[n|]|e]; cbn; rewrite ?app_nil_r; [|done|done].
        apply Forall_app. split; [done|]. apply Forall_singleton. split; [done|]. split; [done|].
        by apply lease_ms_range.
      - intros now [[n|]|e]; cbn; eauto.
      - intros now. cbn. eauto. }
    apply Hout. unfold cbind, cresult, cmap_err. destruct (invoke _ w) as [w' [[n|]|e]]; reflexivity.
  - destruct (hs !! i) as [st|] eqn:Hi; [|by apply call_not_asked].
    assert (Hst : handle_ok st) by (by eapply Forall_lookup_1 in Hi).
    destruct Hst as (Hk & Hh & Httl). unfold renew, renew_state. destruct (released st) eqn:Hrel.
    { apply call_not_asked; [done| |done]. apply Forall_insert; [done|]. by split. }
    rewrite Hk, Hh.
    set (k := λ now r, match r with
      | Ok n => if n =? 0 then (<[i := set_released st]> hs, Returned (Err LeaseExpired))
                else (<[i := set_expires_at (rfc3339_after now (ttl_ms st)) st]> hs, Returned (Ok tt))
      | Err e => (<[i := st]> hs, Returned (Err (BackendUnavailable ("lease renew `" +:+ lk +:+ "`: " +:+ e))))
      end).
    assert (Hout : ∀ o, o = (let '(w', r) := invoke (renew_script lk h (ttl_ms st)) w in
                             (w', Ok (k (w_time w' + w_skew w') r))) →
      call_logged (RenewHandle i) w net o).
    { intros o ->. apply (call_asked _ (LRenew h (ttl_ms st)) _ (λ n, Found (negb (n =? 0)))); try done.
      - by exists (ttl_ms st).
      - split; [done|by intros [sc ?]].
      - intros now [n|e]; cbn; [destruct (n =? 0)|]; apply Forall_insert; done.
      - intros now [n|e]; cbn; [destruct (n =? 0)|]; cbn; eauto.
      - intros now. cbn. eauto. }
    apply Hout. unfold cbind, cresult. destruct (invoke _ w) as [w' [n|e]]; [|reflexivity].
    unfold k, cret, system_now. by destruct (n =? 0).
  - destruct (hs !! i) as [st|] eqn:Hi; [|by apply call_not_asked].
    assert (Hst : handle_ok st) by (by eapply Forall_lookup_1 in Hi).
    destruct Hst as (Hk & Hh & Httl). unfold release, release_state. destruct (released st) eqn:Hrel.
    { apply call_not_asked; [done| |done]. apply Forall_insert; [done|]. by split. }
    cbn [take_abort set_released lease_key holder]. rewrite Hk, Hh.
    set (k := λ (now : Z) (r : result Z string), (<[i := take_abort (set_released st)]> hs, Returned (Ok tt))).
    assert (Hout : ∀ o, o = (let '(w', r) := invoke (release_script lk h) w in
                             (w', Ok (k (w_time w' + w_skew w') r))) →
      call_logged (ReleaseHandle i) w net o).
    { intros o ->. apply (call_asked _ (LRelease h) _ (λ n, Found (negb (n =? 0)))); try done.
      - split; [done|by intros [sc ?]].
      - intros now r. apply Forall_insert; done. }
    apply Hout. unfold cbind, cresult. by destruct (invoke _ w) as [w' [n|e]].
Qed.

(** ** The session *)

Lemma session_logged cs hs (w : world Srv) net :
  w_net w = lossy_event <$> net → Forall handle_ok hs → Forall (λ c, call_ok c.2) cs →
  ∃ w' hs' rs log net',
    run_session cs hs w = (w', Ok (hs', rs)) ∧ logged w net log w' net' ∧ Forall entry_ok log ∧
    (length log ≤ 4 * length cs + length (theirs log))%nat ∧ accounts cs.*2 rs (results w log).
Proof.
  intros Hn Hhs Hcs. revert hs w net Hn Hhs.
  induction Hcs as [|[pause c] cs Hc _ IH]; intros hs w net Hn Hhs; cbn [run_session].
  { exists w, hs, [], [], net. split; [done|]. split; [by apply logged_refl|].
    split; [constructor|]. split; [cbn; lia|constructor]. }
  unfold cbind at 1, sleep. set (w1 := World _ _ _ _).
  assert (Hl1 : logged w net [Passes pause] w1 net).
  { split; [done|]. split; [done|]. split; [by exists []|]. cbn. split; [done|]. unfold end_time. cbn. lia. }
  destruct (run_call_logged c hs w1 net Hn Hhs Hc) as (w2 & hs2 & r & log2 & net2 & Hrun & Hl2 & Hhs2 & Ho2 & Hlen2 & Hacc).
  unfold cbind at 1. rewrite Hrun.
  destruct (IH hs2 w2 net2 (proj1 (proj2 Hl2)) Hhs2) as (w3 & hs3 & rs & log3 & net3 & Hrun3 & Hl3 & Ho3 & Hlen3 & Hacc3).
  unfold cbind. rewrite Hrun3. exists w3, hs3, (r :: rs), ([Passes pause] ++ log2 ++ log3), net3.
  pose proof (logged_app _ _ _ _ _ _ _ _ Hl2 Hl3) as Hl23.
  split; [done|]. split; [by eapply logged_app|]. split; [|split].
  - apply Forall_app. split; [by apply Forall_singleton|by apply Forall_app].
  - unfold theirs in *. rewrite !omap_app, !length_app. cbn in *. lia.
  - erewrite results_app by exact Hl1. erewrite results_app by exact Hl2. cbn [fmap list_fmap].
    apply accounts_others; [by split; [repeat constructor|cbn; lia]|]. by apply Hacc.
Qed.

(** ** The tokens of a session *)

Definition acquired_token (r : call_result) : option Z :=
  match r with Acquired (Ok (Some st)) => Some (fence_token st) | _ => None end.

Lemma no_token c r : lost c r ∨ not_asked c r → acquired_token r = None.
Proof. destruct c; cbn; naive_solver. Qed.

(** They are, in order, among the tokens the server handed out. *)
Lemma accounts_tokens cs rs z :
  accounts cs rs z → omap acquired_token rs `sublist_of` (as_u64 <$> tokens z.*2).
Proof.
  unfold tokens. induction 1 as [|cs rs e x log He _ IH|c cs r rs log Hr _ IH|c cs r rs op x log Hop Hr _ IH];
    cbn [fmap list_fmap omap list_omap snd].
  - constructor.
  - destruct (token_of x); [by apply sublist_cons|done].
  - by rewrite (no_token c r Hr).
  - destruct Hr as [Hr|Hr].
    + assert (Htok : acquired_token r = None ∨ acquired_token r = as_u64 <$> token_of x)
        by (destruct c, x as [[[n|]|[]|]|e]; cbn in *; naive_solver).
      destruct (token_of x), Htok as [->| ->]; cbn; first [done|by apply sublist_skip|by apply sublist_cons].
    + rewrite (no_token c r (or_introl Hr)). destruct (token_of x); [by apply sublist_cons|done].
Qed.

(** Results that agree where they are this replica's. *)
Lemma accounts_same cs rs z z' :
  Forall2 (λ a b, a.1 = b.1 ∧ (is_mine a.1 = true → a.2 = b.2)) z z' →
  accounts cs rs z → accounts cs rs z'.
Proof.
  intros Hz Ha. revert z' Hz.
  induction Ha as [|cs rs e x log He _ IH|c cs r rs log Hr _ IH|c cs r rs op x log Hop Hr _ IH]; intros z' Hz.
  - apply Forall2_nil_inv_l in Hz as ->. constructor.
  - apply Forall2_cons_inv_l in Hz as ([e' x'] & z2 & [He' _] & Hz & ->). cbn in He'. subst e'.
    constructor; [done|auto].
  - constructor; [done|auto].
  - apply Forall2_cons_inv_l in Hz as ([e' x'] & z2 & [He' Hx] & Hz & ->). cbn in He', Hx. subst e'.
    rewrite <- Hx by done. eapply accounts_done; [done|done|auto].
Qed.
End session.

(** ** The contract *)

Section contract.
Context {Srv : Type} `{RedisLaws Srv} `{Chrono}.
Local Abbreviation P := (srv_policy (Srv := Srv)).
Context (lk fk full h : string) (Hne : lk ≠ fk).
Local Abbreviation represents := (represents (Srv := Srv) lk fk).

Lemma log_ops_ok log :
  Forall (lease_op_ok lk fk) (theirs log) → Forall (entry_ok lk fk) log →
  Forall (λ p, lease_op_ok lk fk p.2) (entry_op <$> log).
Proof.
  intros Ho Hlog. unfold theirs in Ho. induction Hlog as [|e log He _ IH]; [constructor|].
  destruct e as [n|op|op]; cbn in *.
  - constructor; [|auto]. constructor.
  - apply Forall_cons in Ho as [Hop Ho]. constructor; auto.
  - destruct He. constructor; auto.
Qed.

(** The server's results of this replica's operations are the contract's. *)
Lemma log_results_same log rs xs :
  Forall (entry_ok lk fk) log → length rs = length log → length xs = length log →
  Forall2 (λ p rx, op_result_ok p.2 rx.1 rx.2) (entry_op <$> log) (zip rs xs) →
  Forall2 (λ a b, a.1 = b.1 ∧ (is_mine a.1 = true → a.2 = b.2)) (zip log rs) (zip log (Ok <$> xs)).
Proof.
  revert rs xs. induction log as [|e log IH]; intros [|r rs] [|x xs] Hlog Hr Hx Hall; try done; cbn in *.
  apply Forall_cons in Hlog as [He Hlog]. apply Forall2_cons in Hall as [Hrx Hall].
  constructor; [|apply IH; auto]. split; [done|]. destruct e as [n|op|op]; [done|done|]. intros _.
  destruct He as [_ Hop]. destruct op as [? ?|? ?|?|sc]; cbn in Hrx; [done..|]. exfalso. eauto.
Qed.

Lemma spec_tokens_bound t ops l n :
  n ∈ tokens (Ok <$> (spec_leases P t ops l).2) → n ≤ fence l + Z.of_nat (length ops).
Proof.
  revert t l. induction ops as [|[m op] ops IH]; intros t l; cbn [spec_leases].
  { by intros ?%elem_of_nil. }
  set (t' := t + Z.of_N m). pose proof (fence_later P t' l) as Hf.
  pose proof (spec_fence_step t' op (lease_later P t' l)) as Hs.
  assert (Hx : ∀ k, token_of (Ok (spec_lease t' op (lease_later P t' l)).2) = Some k → k ≤ fence l + 1).
  { rewrite <- Hf. destruct op; cbn; repeat case_match; cbn; naive_solver lia. }
  destruct (spec_lease t' op (lease_later P t' l)) as [l2 x].
  specialize (IH t' l2). destruct (spec_leases P t' ops l2) as [l3 xs]. cbn [fst snd] in *.
  unfold tokens in *. cbn [fmap list_fmap omap list_omap length].
  destruct (token_of (Ok x)) as [k|] eqn:Hk; [|intros Hn; specialize (IH Hn); lia].
  intros [->|Hn]%elem_of_cons; [specialize (Hx _ eq_refl); lia|]. specialize (IH Hn). lia.
Qed.

Lemma session_linearizes cs hs (w : world Srv) net l :
  let out := run_session lk fk full h cs hs w in
  w_net w = lossy_event lk fk <$> net → Forall (lease_op_ok lk fk) (others_of net) →
  Forall (handle_ok lk h) hs → Forall (λ c, call_ok c.2) cs →
  0 ≤ w_time w → w_time out.1 ≤ 2 ^ 53 →
  0 ≤ fence l → fence l + 4 * Z.of_nat (length cs) + 2 * Z.of_nat (length (others_of net)) ≤ 2 ^ 53 →
  represents (view (w_time w) (w_srv w)) l →
  ∃ hs' rs log taken net',
    out.2 = Ok (hs', rs) ∧ net = taken ++ net' ∧ theirs log = others_of taken ∧
    let '(l', xs) := spec_leases P (w_time w) (entry_op <$> log) l in
    represents (view (w_time out.1) (w_srv out.1)) l' ∧
    accounts lk h cs.*2 rs (zip log (Ok <$> xs)) ∧
    StronglySorted Z.lt (fence l :: omap acquired_token rs).
Proof.
  intros out Hn Ho Hhs Hcs Ht HT Hf Hb Hl. unfold out in *. clear out.
  destruct (session_logged lk fk full h cs hs w net Hn Hhs Hcs)
    as (w' & hs' & rs & log & net' & Hrun & (_ & _ & (taken & -> & Hth) & Hs & Ht') & Hok & Hlen & Hacc).
  rewrite Hrun in *. cbn [fst snd] in *. exists hs', rs, log, taken, net'.
  split; [done|]. split; [done|]. split; [done|].
  unfold others_of in *. rewrite fmap_app, concat_app in Ho, Hb. apply Forall_app in Ho as [Ho _].
  rewrite length_app in Hb. rewrite <- Hth in Ho, Hb.
  destruct (leases_refine lk fk Hne (w_time w) (entry_op <$> log) (w_srv w) l)
    as (Hrep & Hres & Hl1 & Hl2); [done|by rewrite <- Ht'|by apply log_ops_ok|done| |done|].
  { rewrite length_fmap. lia. }
  rewrite <- Hs, <- Ht' in Hrep. rewrite length_fmap in Hl1, Hl2.
  pose proof (spec_tokens P (w_time w) (entry_op <$> log) l) as Hsort.
  pose proof (spec_tokens_bound (w_time w) (entry_op <$> log) l) as Hbound. rewrite length_fmap in Hbound.
  destruct (spec_leases P (w_time w) (entry_op <$> log) l) as [l' xs]. cbn [fst snd] in *.
  assert (Hacc' : accounts lk h cs.*2 rs (zip log (Ok <$> xs))).
  { eapply accounts_same; [|exact Hacc]. by apply log_results_same. }
  split; [done|]. split; [done|].
  pose proof (accounts_tokens lk h cs.*2 rs _ Hacc') as Hsub.
  rewrite snd_zip in Hsub by (rewrite length_fmap; lia).
  assert (Hid : as_u64 <$> tokens (Ok <$> xs) = tokens (Ok <$> xs)).
  { rewrite <- (list_fmap_id (tokens _)) at 2. apply list_fmap_ext. intros i n Hin%list_elem_of_lookup_2.
    unfold as_u64. cbn. apply Z.mod_small. split.
    - apply StronglySorted_inv in Hsort as [_ Hall]. rewrite Forall_forall in Hall. specialize (Hall n Hin). lia.
    - specialize (Hbound n Hin). lia. }
  rewrite Hid in Hsub. apply StronglySorted_inv in Hsort as [Hsort Hall].
  constructor; [by eapply sublist_sorted|by eapply sublist_Forall].
Qed.
End contract.
