(* ===== verification/LeaseHandle.v ===== *)
(** * Who keeps a lease handle alive ([src/src/lease.rs])

    A handle's [LeaseState] is shared through an [Arc]: by the owner - an
    [ActiveLease] or the raw pointer the FFI hands out - by each call that
    borrows it, and by the renewal task.  This file counts the references:
    each step is one thing that one of these does, in any interleaving. *)

From S2P Require Import Prelude.

(** One [Arc<LeaseState>] and what holds it.  [renewal_failed] remembers that
    a renewal of the task returned an error. *)
Record shared : Type := Shared {
  strong : nat;             (** the strong count *)
  owned : bool;             (** the owner's reference *)
  borrows : nat;            (** calls in progress *)
  task : bool;              (** the renewal task runs, with its clone *)
  released : bool;          (** the [AtomicBool] *)
  abort_handle : bool;      (** [renewal_abort] is [Some] *)
  abort_requested : bool;   (** [abort] was called *)
  dropped : bool;           (** [LeaseState] was dropped *)
  renewal_failed : bool;
}.

(** What [try_acquire_async] returns: the owner's reference and the task's. *)
Definition acquired : shared := Shared 2 true 0 true false true false false false.

(** [renewal_abort.take()] and [abort] of what it held. *)
Definition abort_taken (s : shared) : shared :=
  Shared (strong s) (owned s) (borrows s) (task s) (released s) false
    (abort_requested s || abort_handle s) (dropped s) (renewal_failed s).

(** Dropping one reference; the last one drops the [LeaseState]. *)
Definition drop_ref (s : shared) : shared :=
  match strong s with
  | S (S n) =>
      Shared (S n) (owned s) (borrows s) (task s) (released s) (abort_handle s) (abort_requested s)
        (dropped s) (renewal_failed s)
  | _ =>
      let s := abort_taken s in
      Shared 0 (owned s) (borrows s) (task s) (released s) (abort_handle s) (abort_requested s) true
        (renewal_failed s)
  end.

(** [borrow_state]: [increment_strong_count] and [from_raw]. *)
Definition borrow_state (s : shared) : shared :=
  Shared (S (strong s)) (owned s) (S (borrows s)) (task s) (released s) (abort_handle s)
    (abort_requested s) (dropped s) (renewal_failed s).

(** The end of a call that borrowed the state. *)
Definition return_state (s : shared) : shared :=
  drop_ref (Shared (strong s) (owned s) (pred (borrows s)) (task s) (released s) (abort_handle s)
    (abort_requested s) (dropped s) (renewal_failed s)).

(** [drop_state], or dropping the [RedisLeaseHandle]. *)
Definition drop_state (s : shared) : shared :=
  drop_ref (Shared (strong s) false (borrows s) (task s) (released s) (abort_handle s)
    (abort_requested s) (dropped s) (renewal_failed s)).

(** The task's end, which drops its clone. *)
Definition end_task (failed : bool) (s : shared) : shared :=
  drop_ref (Shared (strong s) (owned s) (borrows s) false (released s) (abort_handle s)
    (abort_requested s) (dropped s) (renewal_failed s || failed)).

Definition set_released (s : shared) : shared :=
  Shared (strong s) (owned s) (borrows s) (task s) true (abort_handle s) (abort_requested s)
    (dropped s) (renewal_failed s).

Inductive handle_step : shared → shared → Prop :=
(** the owner's call borrows the state, and returns it *)
| step_borrow s : owned s = true → handle_step s (borrow_state s)
| step_return s : (0 < borrows s)%nat → handle_step s (return_state s)
(** a call's [release_state]: the flag, then the abort *)
| step_release s : (0 < borrows s)%nat → handle_step s (set_released s)
| step_release_abort s :
    (0 < borrows s)%nat → released s = true → handle_step s (abort_taken s)
(** a call's renewal finds the lease gone *)
| step_expired s : (0 < borrows s)%nat → handle_step s (set_released s)
(** the owner drops the handle *)
| step_drop s : owned s = true → handle_step s (drop_state s)
(** the task: sees the flag, fails to renew - lease gone or server
    unreachable - or is aborted *)
| step_task_released s : task s = true → released s = true → handle_step s (end_task false s)
| step_task_expired s : task s = true → handle_step s (end_task true (set_released s))
| step_task_unreachable s : task s = true → handle_step s (end_task true s)
| step_task_aborted s : task s = true → abort_requested s = true → handle_step s (end_task false s).

Definition count (s : shared) : nat :=
  ((if owned s then 1 else 0) + borrows s + (if task s then 1 else 0))%nat.

(** Every reference is counted, the state lives as long as one of them, and
    an abort is asked for only by a release or by the drop of the state. *)
Record counted (s : shared) : Prop := Counted {
  counted_strong : strong s = count s;
  counted_dropped : dropped s = true ↔ strong s = 0%nat;
  counted_abort : abort_requested s = true → released s = true ∨ dropped s = true;
  counted_task : task s = false → released s = true ∨ renewal_failed s = true;
}.

Lemma counted_acquired : counted acquired.
Proof. by constructor. Qed.

Lemma drop_ref_counted s :
  strong s = S (count s) → dropped s = false →
  (abort_requested s = true → released s = true ∨ dropped s = true) →
  (task s = false → released s = true ∨ renewal_failed s = true) →
  counted (drop_ref s).
Proof.
  intros Hc Hd Ha Ht. destruct s as [n o b t r ah ar d f]. unfold drop_ref, count in *. cbn in *.
  destruct n as [|[|n]]; [lia| |].
  - constructor; cbn; [unfold count; cbn; lia|done|auto|done].
  - constructor; cbn; [unfold count; cbn; lia| |by intros [?|?]%Ha; auto|done].
    split; [congruence|done].
Qed.

Lemma counted_live s : counted s → (0 < count s)%nat → dropped s = false.
Proof.
  intros [Hs Hd _ _] Hc. destruct (dropped s); [|done]. destruct Hd as [Hd _]. specialize (Hd eq_refl). lia.
Qed.

Lemma handle_step_counted s s' : counted s → handle_step s s' → counted s'.
Proof.
  intros Hc Hstep.
  assert (Hlive : dropped s = false).
  { apply counted_live; [done|]. unfold count.
    destruct Hstep; repeat match goal with H : _ = true |- _ => rewrite H end; lia. }
  destruct Hc as [Hs Hd Ha Ht].
  assert (Hpos : strong s ≠ 0%nat) by (intros E; apply Hd in E; congruence).
  destruct Hstep; destruct s as [n o b t r ah ar d f]; unfold count in *; cbn in *; subst.
  1, 3, 4, 5: constructor; unfold count; cbn; first [lia | done | tauto | idtac];
    try (split; [done|lia]); try (intros; tauto).
  all: apply drop_ref_counted; unfold count; cbn; try lia; try done; try tauto.
Qed.

Lemma reachable_counted s : rtc handle_step acquired s → counted s.
Proof.
  intros Hr. assert (∀ s0, counted s0 → rtc handle_step s0 s → counted s) as Hall.
  { intros s0 H0 Hr0. induction Hr0; [done|]. eauto using handle_step_counted. }
  by eapply Hall, Hr; apply counted_acquired.
Qed.
