(* ===== verification/LeaseProperties.v ===== *)
(** * Properties of leases

    What leases ([src/src/lease.rs]) guarantee, for any server that behaves
    as documented. *)

From S2P Require Import Prelude Redis RedisRef Client DbFacts Keys Footprint Text Lease LeaseSpec LeaseRun LeaseNet LeaseHandle.

(** A format of instants for the instances. *)
#[export] Instance ref_chrono : Chrono := {| rfc3339 t := if t <? 2000 then "early" else "late" |}.

(** ** The fleet's leases *)

(** C5. The lease scripts implement the lease contract: whatever scripts the
    fleet sends in whatever order and at whatever times, every acquire, renew
    and release answers as [spec_lease] says and the lease and fence keys
    stay the contract's lease. *)
Theorem fleet_leases_refine {Srv : Type} `{RedisLaws Srv} (prefix kind name : string)
    (t : Z) (ops : list (N * lease_op)) (s : Srv) (l : lease) :
  let (lk, fk) := lease_keys prefix kind name in
  0 ≤ t → end_time t ops ≤ 2 ^ 53 →
  Forall (λ p, lease_op_ok lk fk p.2) ops →
  0 ≤ fence l → fence l + Z.of_nat (length ops) ≤ 2 ^ 53 →
  represents (Srv := Srv) lk fk (view t s) l →
  let rs := (run_leases lk fk t ops s).2 in
  let xs := (spec_leases (srv_policy (Srv := Srv)) t ops l).2 in
  length rs = length ops ∧ length xs = length ops ∧
  Forall2 (λ p rx, op_result_ok p.2 rx.1 rx.2) ops (zip rs xs) ∧
  represents (Srv := Srv) lk fk (view (end_time t ops) (run_leases lk fk t ops s).1)
    (spec_leases (srv_policy (Srv := Srv)) t ops l).1.
Proof.
  cbn. intros Ht Hend Hops Hf Hb Hl.
  destruct (leases_refine _ _ (lease_key_ne_fence prefix kind name) t ops s l Ht Hend Hops Hf Hb Hl)
    as (Hrep & Hrs & Hl1 & Hl2).
  auto.
Qed.

(** Two nodes contend for a lock while a key is written. *)
Definition lock_x : string * string := lease_keys "app" "locks" "x".

Definition contention : list (N * lease_op) :=
  [(0%N, LAcquire "n1" 100); (10%N, LAcquire "n2" 100); (50%N, LRenew "n1" 100);
   (60%N, LOther (silent (call (SET "app:k" "v" false None)))); (200%N, LAcquire "n2" 50);
   (0%N, LRelease "n1"); (1%N, LRelease "n2")].

Lemma unheld_represented lk fk t : represents (Srv := ref_srv) lk fk (view t (∅ : ref_srv)) unheld.
Proof.
  assert (Hv : view t (∅ : ref_srv) = ∅) by apply map_filter_empty.
  rewrite Hv. split; [by rewrite lookup_empty|by rewrite lookup_empty].
Qed.

Lemma contention_ok : Forall (λ p, lease_op_ok lock_x.1 lock_x.2 p.2) contention.
Proof. repeat constructor; try lia; try (vm_compute; congruence). intros []; exact I. Qed.

Lemma fleet_leases_refine_witness :
  let rs := (run_leases lock_x.1 lock_x.2 1000 contention (∅ : ref_srv)).2 in
  let xs := (spec_leases (srv_policy (Srv := ref_srv)) 1000 contention unheld).2 in
  xs = [Token (Some 1); Token None; Found true; Nothing; Token (Some 2); Found false; Found true] ∧
  length rs = length contention ∧ length xs = length contention ∧
  Forall2 (λ p rx, op_result_ok p.2 rx.1 rx.2) contention (zip rs xs) ∧
  represents (Srv := ref_srv) lock_x.1 lock_x.2
    (view (end_time 1000 contention) (run_leases lock_x.1 lock_x.2 1000 contention (∅ : ref_srv)).1)
    (spec_leases (srv_policy (Srv := ref_srv)) 1000 contention unheld).1.
Proof.
  split; [vm_compute; reflexivity|].
  apply (fleet_leases_refine (Srv := ref_srv) "app" "locks" "x" 1000 contention ∅ unheld).
  - lia.
  - vm_compute. discriminate.
  - exact contention_ok.
  - vm_compute. discriminate.
  - vm_compute. discriminate.
  - apply unheld_represented.
Defined.

(** C6. Fencing tokens strictly increase: of all the acquires of a lease, by
    any nodes and with any failures, renewals, releases and expiries between
    them, a later one returns a larger token. *)
Theorem fencing_tokens_increase {Srv : Type} `{RedisLaws Srv} (prefix kind name : string)
    (t : Z) (ops : list (N * lease_op)) (s : Srv) (l : lease) :
  let (lk, fk) := lease_keys prefix kind name in
  0 ≤ t → end_time t ops ≤ 2 ^ 53 →
  Forall (λ p, lease_op_ok lk fk p.2) ops →
  0 ≤ fence l → fence l + Z.of_nat (length ops) ≤ 2 ^ 53 →
  represents (Srv := Srv) lk fk (view t s) l →
  StronglySorted Z.lt (fence l :: tokens (run_leases lk fk t ops s).2).
Proof.
  cbn. intros Ht Hend Hops Hf Hb Hl.
  destruct (leases_refine _ _ (lease_key_ne_fence prefix kind name) t ops s l Ht Hend Hops Hf Hb Hl)
    as (_ & Hrs & Hl1 & Hl2).
  erewrite tokens_same by done. apply spec_tokens.
Qed.

Lemma fencing_tokens_increase_witness :
  tokens (run_leases lock_x.1 lock_x.2 1000 contention (∅ : ref_srv)).2 = [1; 2] ∧
  StronglySorted Z.lt (0 :: tokens (run_leases lock_x.1 lock_x.2 1000 contention (∅ : ref_srv)).2).
Proof.
  split; [vm_compute; reflexivity|].
  apply (fencing_tokens_increase (Srv := ref_srv) "app" "locks" "x" 1000 contention ∅ unheld).
  - lia.
  - vm_compute. discriminate.
  - exact contention_ok.
  - vm_compute. discriminate.
  - vm_compute. discriminate.
  - apply unheld_represented.
Defined.

(** C12. A lease excludes: until its deadline, whatever the fleet does - short
    of releasing it in the holder's name or renewing it for less - nobody
    acquires it, and it stays the holder's. *)
Theorem lease_excludes {Srv : Type} `{RedisLaws Srv} (prefix kind name h : string)
    (t dl : Z) (ops : list (N * lease_op)) (s : Srv) (l : lease) :
  let (lk, fk) := lease_keys prefix kind name in
  0 ≤ t → end_time t ops ≤ 2 ^ 53 →
  Forall (λ p, lease_op_ok lk fk p.2) ops →
  0 ≤ fence l → fence l + Z.of_nat (length ops) ≤ 2 ^ 53 →
  represents (Srv := Srv) lk fk (view t s) l →
  held_by l = Some (h, dl) → end_time t ops < dl →
  Forall (λ p, respects t h dl p.2) ops →
  tokens (run_leases lk fk t ops s).2 = [] ∧
  ∃ dl', dl ≤ dl' ∧
    represents (Srv := Srv) lk fk (view (end_time t ops) (run_leases lk fk t ops s).1)
      (Lease_ (Some (h, dl')) (fence l)).
Proof.
  cbn. intros Ht Hend Hops Hf Hb Hl Hh Hdl Hr.
  destruct (leases_refine _ _ (lease_key_ne_fence prefix kind name) t ops s l Ht Hend Hops Hf Hb Hl)
    as (Hrep & Hrs & Hl1 & Hl2).
  destruct (spec_exclusive (srv_policy (Srv := Srv)) t ops l h dl dl) as [(d' & Hd' & Hlast) Htok];
    [apply past_due_early|done|done|done|done|].
  split; [by erewrite tokens_same|]. exists d'. split; [done|]. by rewrite <- Hlast.
Qed.

(** [n1] acquired at time 1000 for 100 ms. *)
Definition taken : ref_srv := (run 1000 (acquire_script lock_x.1 lock_x.2 "n1" 100) (∅ : ref_srv)).1.

Lemma taken_represented :
  represents (Srv := ref_srv) lock_x.1 lock_x.2 (view 1000 taken) (Lease_ (Some ("n1", 1100)) 1).
Proof. split; vm_compute; reflexivity. Qed.

Lemma lease_excludes_witness :
  let ops := [(20%N, LAcquire "n2" 100); (30%N, LRenew "n1" 100); (40%N, LRelease "n2")] in
  tokens (run_leases lock_x.1 lock_x.2 1000 ops taken).2 = [] ∧
  ∃ dl', 1100 ≤ dl' ∧
    represents (Srv := ref_srv) lock_x.1 lock_x.2
      (view (end_time 1000 ops) (run_leases lock_x.1 lock_x.2 1000 ops taken).1)
      (Lease_ (Some ("n1", dl')) 1).
Proof.
  intros ops. apply (lease_excludes (Srv := ref_srv) "app" "locks" "x" "n1" 1000 1100 ops taken
    (Lease_ (Some ("n1", 1100)) 1)).
  - lia.
  - vm_compute. discriminate.
  - repeat constructor; lia.
  - vm_compute. discriminate.
  - vm_compute. discriminate.
  - exact taken_represented.
  - reflexivity.
  - vm_compute. reflexivity.
  - repeat constructor; cbn; (discriminate || lia).
Defined.

(** ** One replica's calls *)

(** C26. The blocking acquire returns: when the present holder stops renewing,
    a waiting replica has the lease at most 800 ms after its deadline, with
    the next token and a deadline one TTL away. *)
Theorem acquire_returns {Srv : Type} `{RedisLaws Srv} `{Chrono} (prefix kind name full_name h : string)
    (ttl pct : Z) (fuel : nat) (w : world Srv) (l : lease) :
  let (lk, fk) := lease_keys prefix kind name in
  quiet w → is_blank full_name = false → 0 ≤ w_time w ≤ 2 ^ 53 → as_millis ttl ≤ 2 ^ 53 →
  0 ≤ fence l < 2 ^ 53 →
  represents (Srv := Srv) lk fk (view (w_time w) (w_srv w)) l →
  match held_by l with
  | None => (0 < fuel)%nat
  | Some (_, dl) => dl - w_time w < 200 * (Z.of_nat fuel - 1) ∧ dl + 800 ≤ 2 ^ 53
  end →
  ∃ s t st,
    acquire_async fuel full_name lk fk h ttl pct w = (World s t (w_skew w) [], Ok st) ∧
    fence_token st = fence l + 1 ∧ holder st = h ∧ Lease.released st = false ∧
    represents (Srv := Srv) lk fk (view t s)
      (Lease_ (Some (h, t + ttl_ms st)) (fence l + 1)) ∧
    w_time w ≤ t ∧
    match held_by l with None => t = w_time w | Some (_, dl) => t ≤ dl + 800 end.
Proof.
  cbn. intros Hq Hname Ht Httl Hf Hl Hfuel.
  destruct (acquire_loop_quiet _ _ (lease_key_ne_fence prefix kind name) fuel full_name h ttl pct 200 w l)
    as (s & t & Hrun & Hrep & Hle & Hlast); try done; try lia.
  exists s, t. eexists. split; [exact Hrun|]. done.
Qed.

Lemma acquire_returns_witness :
  let w := World taken 1000 7 [] in
  ∃ s t st,
    acquire_async 3 "mcpg-lock-x" lock_x.1 lock_x.2 "n2" (from_millis 500) 80 w =
      (World s t 7 [], Ok st) ∧
    fence_token st = 2 ∧ holder st = "n2" ∧ Lease.released st = false ∧
    represents (Srv := ref_srv) lock_x.1 lock_x.2 (view t s) (Lease_ (Some ("n2", t + ttl_ms st)) 2) ∧
    1000 ≤ t ∧ t ≤ 1100 + 800.
Proof.
  apply (acquire_returns (Srv := ref_srv) "app" "locks" "x" "mcpg-lock-x" "n2" (from_millis 500) 80 3
    (World taken 1000 7 []) (Lease_ (Some ("n1", 1100)) 1)).
  - reflexivity.
  - reflexivity.
  - cbn. lia.
  - vm_compute. discriminate.
  - cbn. lia.
  - exact taken_represented.
  - cbn. lia.
Defined.

(** C25. The renewal task keeps its lease: on a network that delivers each
    renewal in time, however many rounds pass, the task is still running, the
    lease is still its holder's with a deadline the next renewal meets, and
    nobody else had it meanwhile - the fence has not moved. *)
Theorem renewal_task_holds {Srv : Type} `{RedisLaws Srv} `{Chrono} (prefix kind name : string)
    (W period : Z) (rounds : nat) (w : world Srv) (st : lease_state) (l : lease) (dl : Z) :
  let (lk, fk) := lease_keys prefix kind name in
  prompt (Srv := Srv) lk fk W (holder st) (w_net w) →
  Lease.released st = false → Lease.lease_key st = lk →
  0 < ttl_ms st ≤ 2 ^ 53 → 0 ≤ W → 0 ≤ timer_ms period → timer_ms period + W < ttl_ms st →
  0 ≤ w_time w → w_time w + Z.of_nat rounds * (timer_ms period + W) ≤ 2 ^ 53 →
  0 ≤ fence l < 2 ^ 53 →
  held_by l = Some (holder st, dl) → w_time w + timer_ms period + W < dl →
  represents (Srv := Srv) lk fk (view (w_time w) (w_srv w)) l →
  ∃ w' st' dl',
    renewal_task (E := cluster_error) rounds period st w = (w', Ok (st', true)) ∧
    Lease.released st' = false ∧
    w_time w' + timer_ms period + W < dl' ∧
    represents (Srv := Srv) lk fk (view (w_time w') (w_srv w'))
      (Lease_ (Some (holder st, dl')) (fence l)).
Proof.
  cbn. intros. eapply renewal_task_prompt; try done. by apply lease_key_ne_fence.
Qed.

Definition taken_handle : lease_state :=
  LeaseState lock_x.1 "n1" 1 100 "early" false (Some (renewal_period 100 80)).

(** Another node tries twice while [n1] renews every 20 ms. *)
Definition taken_world : world ref_srv :=
  World taken 1000 0
    [NetEvent 5 [silent (lease_script lock_x.1 lock_x.2 (LAcquire "n2" 1000))] Delivered;
     NetEvent 30 [silent (lease_script lock_x.1 lock_x.2 (LRelease "n2"))] Delivered].

Lemma renewal_task_holds_witness :
  ∃ w' st' dl',
    renewal_task (E := cluster_error) 20 (renewal_period 100 80) taken_handle taken_world =
      (w', Ok (st', true)) ∧
    Lease.released st' = false ∧
    w_time w' + timer_ms (renewal_period 100 80) + 30 < dl' ∧
    represents (Srv := ref_srv) lock_x.1 lock_x.2 (view (w_time w') (w_srv w'))
      (Lease_ (Some ("n1", dl')) 1).
Proof.
  apply (renewal_task_holds (Srv := ref_srv) "app" "locks" "x" 30 (renewal_period 100 80) 20
    taken_world taken_handle (Lease_ (Some ("n1", 1100)) 1) 1100).
  - assert (Hs : ∀ op, match op with LAcquire _ _ => True
                       | LRenew h' _ | LRelease h' => h' ≠ "n1" | LOther _ => False end →
      Forall (spares (Srv := ref_srv) lock_x.1 lock_x.2 "n1")
        [silent (lease_script lock_x.1 lock_x.2 op)]).
    { intros op Hop. apply Forall_singleton, spares_lease. by destruct op. }
    repeat (apply Forall_cons; split; [split; [reflexivity|split; [cbn; lia|apply Hs; try done; exact I]]|]).
    constructor.
  - reflexivity.
  - reflexivity.
  - cbn. lia.
  - lia.
  - vm_compute. discriminate.
  - vm_compute. reflexivity.
  - vm_compute. discriminate.
  - vm_compute. discriminate.
  - cbn. lia.
  - reflexivity.
  - vm_compute. reflexivity.
  - exact taken_represented.
Defined.

(** The renewal period of a lease of at least 1 ms is positive and short
    of the TTL by the configured margin, so the fallback of 100 ms is never
    taken. *)
Theorem renewal_period_in_ttl (ttl pct : Z) :
  1 ≤ ttl ≤ u64_max →
  0 < renewal_period ttl pct < from_millis ttl ∧
  100 * renewal_period ttl pct ≤ from_millis ttl * (100 - clamp 1 99 pct).
Proof. apply renewal_period_bounds. Qed.

Lemma renewal_period_in_ttl_witness :
  1 ≤ 30000 ≤ u64_max ∧ 0 < renewal_period 30000 80 < from_millis 30000.
Proof.
  split; [vm_compute; split; discriminate|]. apply (renewal_period_in_ttl 30000 80).
  vm_compute. split; discriminate.
Defined.

(** ** Over a network that loses requests *)

(** C7. A replica's lease calls are atomic over a lossy network.  Whatever
    requests and replies are lost or late, and whatever lease scripts others send in
    between, the server has run one sequence of lease operations: the
    others', in their order, and at most one for each call of the replica, in
    its order.  The lease is what the contract makes of that sequence; a call
    that returned an answer is in it with that answer, and one that failed is
    in it once or not at all.  The tokens of the handles the replica got
    increase. *)
Theorem lossy_calls_linearize {Srv : Type} `{RedisLaws Srv} `{Chrono} (prefix kind name full h : string)
    (cs : list (N * lease_call)) (hs : list lease_state) (w : world Srv) (net : lossy_net) (l : lease) :
  let (lk, fk) := lease_keys prefix kind name in
  let out := run_session lk fk full h cs hs w in
  w_net w = lossy_event lk fk <$> net → Forall (lease_op_ok lk fk) (others_of net) →
  Forall (handle_ok lk h) hs → Forall (λ c, call_ok c.2) cs →
  0 ≤ w_time w → w_time out.1 ≤ 2 ^ 53 →
  0 ≤ fence l → fence l + 4 * Z.of_nat (length cs) + 2 * Z.of_nat (length (others_of net)) ≤ 2 ^ 53 →
  represents (Srv := Srv) lk fk (view (w_time w) (w_srv w)) l →
  ∃ hs' rs log taken net',
    out.2 = Ok (hs', rs) ∧ net = taken ++ net' ∧ theirs log = others_of taken ∧
    let '(l', xs) := spec_leases (srv_policy (Srv := Srv)) (w_time w) (entry_op <$> log) l in
    represents (Srv := Srv) lk fk (view (w_time out.1) (w_srv out.1)) l' ∧
    accounts lk h cs.*2 rs (zip log (Ok <$> xs)) ∧
    StronglySorted Z.lt (fence l :: omap acquired_token rs).
Proof.
  cbn. intros Hn Ho Hhs Hcs Ht HT Hf Hb Hl.
  pose proof (lease_key_ne_fence prefix kind name) as Hne.
  by eapply session_linearizes.
Qed.

(** [n1]'s first acquire loses its reply, [n2] asks in between and is
    refused, the second answer comes late, and [n1]'s release loses its
    request. *)
Definition lossy : lossy_net :=
  [(10%N, [], LostReply); (5%N, [LAcquire "n2" 50], Late 7); (3%N, [], Delivered);
   (4%N, [LRenew "n2" 50], Delivered); (1%N, [], LostRequest)].

Definition lossy_session : list (N * lease_call) :=
  [(0%N, TryAcquire (from_millis 100) 80); (20%N, TryAcquire (from_millis 100) 80);
   (200%N, TryAcquire (from_millis 100) 80); (10%N, RenewHandle 0); (0%N, ReleaseHandle 0);
   (0%N, RenewHandle 0)].

Definition lossy_world : world ref_srv :=
  World ∅ 1000 0 (lossy_event lock_x.1 lock_x.2 <$> lossy).

Lemma lossy_calls_linearize_witness :
  let out := run_session lock_x.1 lock_x.2 "mcpg-lock-x" "n1" lossy_session [] lossy_world in
  ∃ hs' rs log taken net',
    out.2 = Ok (hs', rs) ∧ lossy = taken ++ net' ∧ theirs log = others_of taken ∧
    let '(l', xs) := spec_leases (srv_policy (Srv := ref_srv)) 1000 (entry_op <$> log) unheld in
    represents (Srv := ref_srv) lock_x.1 lock_x.2 (view (w_time out.1) (w_srv out.1)) l' ∧
    accounts lock_x.1 "n1" lossy_session.*2 rs (zip log (Ok <$> xs)) ∧
    StronglySorted Z.lt (0 :: omap acquired_token rs).
Proof.
  apply (lossy_calls_linearize (Srv := ref_srv) "app" "locks" "x" "mcpg-lock-x" "n1" lossy_session []
    lossy_world lossy unheld).
  - reflexivity.
  - repeat constructor; try lia; vm_compute; congruence.
  - constructor.
  - repeat constructor; vm_compute; discriminate.
  - cbn. lia.
  - vm_compute. discriminate.
  - cbn. lia.
  - vm_compute. discriminate.
  - apply unheld_represented.
Defined.

(** C28. Every handle is well formed, whatever the server answers: over any
    session on any network each call returns, a handle's lease - its key,
    holder, token and TTL - never changes and once released it stays so; its
    TTL is at least a millisecond, its numbers fit 64 bits, and until a
    release takes it its renewal task has a period within the TTL. *)
Theorem session_handles_wf {Srv : Type} `{RedisServer Srv} `{Chrono} (lk fk full h : string)
    (cs : list (N * lease_call)) (hs : list lease_state) (w : world Srv) :
  Forall (handle_wf lk h) hs →
  ∃ hs' rs,
    (run_session lk fk full h cs hs w).2 = Ok (hs', rs) ∧ length rs = length cs ∧
    Forall (handle_wf lk h) hs' ∧ Forall2 becomes hs (take (length hs) hs').
Proof.
  intros Hhs. destruct (session_keeps lk fk full h cs hs w) as (w' & hs' & rs & Hrun & Hlen & Hb & Hwf).
  exists hs', rs. rewrite Hrun. auto.
Qed.

Lemma session_handles_wf_witness :
  ∃ hs' rs,
    (run_session lock_x.1 lock_x.2 "mcpg-lock-x" "n1" lossy_session [taken_handle] lossy_world).2 =
      Ok (hs', rs) ∧ length rs = 6%nat ∧
    Forall (handle_wf lock_x.1 "n1") hs' ∧ Forall2 becomes [taken_handle] (take 1 hs').
Proof.
  apply (session_handles_wf lock_x.1 lock_x.2 "mcpg-lock-x" "n1" lossy_session [taken_handle] lossy_world).
  apply Forall_singleton. split; try reflexivity; vm_compute; split; try discriminate; reflexivity.
Defined.

(** A released handle is inert: after a release - or a renewal that found
    the lease gone - no sequence of calls on it sends anything; releases
    succeed and renewals report the lease expired. *)
Theorem released_handle_inert {Srv : Type} `{RedisServer Srv} `{Chrono}
    (st st' : lease_state) (w w' : world Srv) (cs : list handle_call) :
  release_state (E := cluster_error) st w = (w', Ok (st', Ok tt)) ∨
  renew_state (E := cluster_error) st w = (w', Ok (st', Err LeaseExpired)) →
  handle_calls cs st' w' = (w', Ok (st', released_result <$> cs)).
Proof.
  intros Hcall. apply released_calls. destruct Hcall as [Hrun|Hrun].
  - destruct (release_marks (E := cluster_error) st w) as (st2 & Hst2 & Hr).
    rewrite Hrun in Hst2. by injection Hst2 as <-.
  - eapply (renew_marks (E := cluster_error) st w). by rewrite Hrun.
Qed.

Lemma released_handle_inert_witness :
  let r := release_state (E := cluster_error) taken_handle taken_world in
  let st' := take_abort (Lease.set_released taken_handle) in
  handle_calls [Renew; Release; Renew] st' r.1 =
    (r.1, Ok (st', [Err LeaseExpired; Ok tt; Err LeaseExpired])).
Proof.
  intros r st'. apply (released_handle_inert taken_handle st' taken_world r.1 [Renew; Release; Renew]).
  left. apply surjective_pairing.
Defined.

(** An acquire whose reply is lost fails as an unavailable backend,
    although the lease is now held in the caller's name, with a token nobody
    knows: no handle renews or releases it, so it stays until its TTL is
    over. *)
Theorem lost_acquire_holds {Srv : Type} `{RedisLaws Srv} `{Chrono}
    (prefix kind name full_name h : string) (ttl pct : Z) (w : world Srv) (wait : N)
    (net : list net_event) (l : lease) :
  let (lk, fk) := lease_keys prefix kind name in
  let t := w_time w + Z.of_N wait in
  w_net w = NetEvent wait [] LostReply :: net → is_blank full_name = false →
  0 ≤ t ≤ 2 ^ 53 → as_millis ttl ≤ 2 ^ 53 → 0 ≤ fence l < 2 ^ 53 →
  represents (Srv := Srv) lk fk (view t (w_srv w)) l → held_by l = None →
  ∃ s,
    try_acquire_async full_name lk fk h ttl pct w =
      (World s t (w_skew w) net,
       Err (BackendUnavailable ("lease acquire `" +:+ full_name +:+ "`: " +:+ connection_lost))) ∧
    represents (Srv := Srv) lk fk (view t s) (Lease_ (Some (h, t + lease_ms ttl)) (fence l + 1)).
Proof.
  cbn. intros Hnet Hname Ht Httl Hf Hl Hh.
  pose proof (run_acquire _ _ (lease_key_ne_fence prefix kind name) _ h (lease_ms ttl) _ l
    Ht (lease_ms_range ttl Httl) Hf Hl) as Hrun. rewrite Hh in Hrun.
  unfold try_acquire_async. rewrite Hname. fold (lease_ms ttl).
  unfold cbind, cmap_err, invoke, request. rewrite Hnet. cbn [ev_fate ev_wait ev_others run_others foldl].
  destruct (run _ (acquire_script _ _ h (lease_ms ttl)) (w_srv w)) as [s r]. destruct Hrun as [-> Hs].
  exists s. by split.
Qed.

Lemma lost_acquire_holds_witness :
  let w := World (∅ : ref_srv) 1000 0 [NetEvent 10 [] LostReply] in
  ∃ s,
    try_acquire_async "mcpg-lock-x" lock_x.1 lock_x.2 "n1" (from_millis 500) 80 w =
      (World s 1010 0 [],
       Err (BackendUnavailable "lease acquire `mcpg-lock-x`: Connection reset by peer")) ∧
    represents (Srv := ref_srv) lock_x.1 lock_x.2 (view 1010 s) (Lease_ (Some ("n1", 1510)) 1).
Proof.
  apply (lost_acquire_holds (Srv := ref_srv) "app" "locks" "x" "mcpg-lock-x" "n1" (from_millis 500) 80
    (World (∅ : ref_srv) 1000 0 [NetEvent 10 [] LostReply]) 10 [] unheld).
  - reflexivity.
  - reflexivity.
  - cbn. lia.
  - vm_compute. discriminate.
  - cbn. lia.
  - apply unheld_represented.
  - reflexivity.
Defined.

(** C39. The fence counter of a lease [x] is the key of a lease called
    [x:fence].  While a node with a non-numeric id holds the latter, an
    acquire of [x] fails as an unavailable backend - after it has set the
    lease key, which stays for the TTL. *)
Theorem fence_name_clash {Srv : Type} `{RedisLaws Srv} `{Chrono}
    (prefix kind name full_name h h' : string) (ttl pct dl : Z) (w : world Srv) (l' : lease) :
  let (lk, fk) := lease_keys prefix kind name in
  let (lk', fk') := lease_keys prefix kind (name +:+ ":fence") in
  quiet w → is_blank full_name = false → 0 ≤ w_time w ≤ 2 ^ 53 → as_millis ttl ≤ 2 ^ 53 →
  represents (Srv := Srv) lk' fk' (view (w_time w) (w_srv w)) l' →
  held_by l' = Some (h', dl) → as_int (srv_policy (Srv := Srv)) h' = None →
  view (w_time w) (w_srv w) !! lk = None →
  ∃ s,
    try_acquire_async full_name lk fk h ttl pct w =
      (set_srv s w,
       Err (BackendUnavailable ("lease acquire `" +:+ full_name +:+ "`: " +:+ not_integer))) ∧
    view (w_time w) s !! lk = Some (RVal (RStr h) (Some (w_time w + lease_ms ttl))).
Proof.
  cbn. intros Hq Hname Ht Httl [Hl' _] Hh' Hint Hfree. rewrite Hh' in Hl'.
  set (lk := prefix +:+ kind +:+ "/" +:+ name) in *.
  set (fk := prefix +:+ kind +:+ "/" +:+ name +:+ ":fence") in *.
  pose proof (lease_key_ne_fence prefix kind name) as Hne. fold lk fk in Hne.
  pose proof (lease_ms_range ttl Httl) as Hms.
  set (d := view (w_time w) (w_srv w)) in *.
  destruct (invoke_quiet_view (acquire_script lk fk h (lease_ms ttl)) w
    (<[lk := RVal (RStr h) (Some (w_time w + lease_ms ttl))]> d) (Err not_integer)) as (s & Hrun & Hs);
    [done| |].
  { fold d. unfold acquire_script. rewrite d_run_call. cbn [documented]. rewrite Hfree.
    rewrite d_run_call. cbn [documented]. unfold d_set.
    assert ((0 <? lease_ms ttl) = true) as -> by (apply Z.ltb_lt; lia).
    rewrite px_ok_range by (done || lia). cbn [andb negb fmap option_fmap option_map].
    rewrite d_run_call. unfold INCR. cbn [documented]. unfold d_incrby.
    rewrite lookup_insert_ne, Hl' by done. cbn. by rewrite Hint. }
  exists s. split; [|by rewrite Hs, lookup_insert_eq].
  unfold try_acquire_async. rewrite Hname. fold (lease_ms ttl).
  unfold cbind, cmap_err. by rewrite Hrun.
Qed.

(** [n2] holds a lock called [x:fence]. *)
Definition clash : ref_srv :=
  let (lk', fk') := lease_keys "app" "locks" "x:fence" in
  (run 1000 (acquire_script lk' fk' "n2" 5000) (∅ : ref_srv)).1.

Lemma fence_name_clash_witness :
  ∃ s,
    try_acquire_async "mcpg-lock-x" lock_x.1 lock_x.2 "n1" (from_millis 500) 80 (World clash 1000 0 []) =
      (set_srv s (World clash 1000 0 []),
       Err (BackendUnavailable ("lease acquire `mcpg-lock-x`: " +:+ not_integer))) ∧
    view 1000 s !! "applocks/x" = Some (RVal (RStr "n1") (Some 1500)).
Proof.
  apply (fence_name_clash (Srv := ref_srv) "app" "locks" "x" "mcpg-lock-x" "n1" "n2" (from_millis 500) 80
    6000 (World clash 1000 0 []) (Lease_ (Some ("n2", 6000)) 1)).
  - reflexivity.
  - reflexivity.
  - cbn. lia.
  - vm_compute. discriminate.
  - split; vm_compute; reflexivity.
  - reflexivity.
  - vm_compute. reflexivity.
  - vm_compute. reflexivity.
Defined.

(** C40. The holder the scripts compare is the node's id, not the handle: an
    unreleased handle of an older lease of the same node releases the node's
    present one, whatever its token. *)
Theorem stale_handle_releases {Srv : Type} `{RedisLaws Srv} `{Chrono} (prefix kind name : string)
    (w : world Srv) (st : lease_state) (l : lease) (dl : Z) :
  let (lk, fk) := lease_keys prefix kind name in
  quiet w → 0 ≤ w_time w ≤ 2 ^ 53 → 0 ≤ fence l < 2 ^ 53 →
  Lease.released st = false → Lease.lease_key st = lk →
  represents (Srv := Srv) lk fk (view (w_time w) (w_srv w)) l →
  held_by l = Some (holder st, dl) → fence_token st < fence l →
  ∃ s,
    release_state (E := cluster_error) st w =
      (set_srv s w, Ok (take_abort (Lease.set_released st), Ok tt)) ∧
    represents (Srv := Srv) lk fk (view (w_time w) s) (Lease_ None (fence l)).
Proof.
  cbn. intros Hq Ht Hf Hrel Hkey Hl Hh _.
  set (lk := prefix +:+ kind +:+ "/" +:+ name) in *.
  set (fk := prefix +:+ kind +:+ "/" +:+ name +:+ ":fence") in *.
  pose proof (lease_key_ne_fence prefix kind name) as Hne. fold lk fk in Hne.
  destruct (lease_script_refines lk fk Hne (w_time w) (LRelease (holder st)) _ l Ht I Hf Hl) as [Hr _].
  cbn [spec_lease lease_script] in Hr. unfold holds_now in Hr. rewrite Hh in Hr.
  rewrite bool_decide_eq_true_2 in Hr by done. rewrite d_run_bind in Hr.
  exists (run (w_time w) (release_script lk (holder st)) (w_srv w)).1. split.
  - unfold release_state. rewrite Hrel. unfold cbind, cresult. cbn [Lease.lease_key take_abort Lease.set_released holder].
    rewrite Hkey. by rewrite (invoke_quiet _ w Hq).
  - destruct (run_view (w_time w) (release_script lk (holder st)) (w_srv w)) as [-> _].
    by destruct (d_run _ _ (release_script lk (holder st)) _) as [d' [a|e]].
Qed.

(** A second lease of [n1], after the first expired. *)
Definition taken_again : ref_srv :=
  (run 1200 (acquire_script lock_x.1 lock_x.2 "n1" 100) taken).1.

Lemma stale_handle_releases_witness :
  ∃ s,
    release_state (E := cluster_error) taken_handle (World taken_again 1210 0 []) =
      (set_srv s (World taken_again 1210 0 []),
       Ok (take_abort (Lease.set_released taken_handle), Ok tt)) ∧
    represents (Srv := ref_srv) lock_x.1 lock_x.2 (view 1210 s) (Lease_ None 2).
Proof.
  apply (stale_handle_releases (Srv := ref_srv) "app" "locks" "x" (World taken_again 1210 0 [])
    taken_handle (Lease_ (Some ("n1", 1300)) 2) 1300).
  - reflexivity.
  - cbn. lia.
  - cbn. lia.
  - reflexivity.
  - reflexivity.
  - split; vm_compute; reflexivity.
  - reflexivity.
  - vm_compute. reflexivity.
Defined.

(** C13. The expiry a handle states is not the server's: whatever the network,
    when an acquire or a renewal succeeds the server holds the lease in the
    handle's name with a deadline one TTL after the script ran, and the
    expiry the handle states is that deadline by the replica's clock plus the
    time the reply took.  So no clock difference hides it: a slow reply alone
    makes the handle claim the lease past its deadline. *)
Theorem stated_expiry {Srv : Type} `{RedisLaws Srv} `{Chrono} (prefix kind name full h : string)
    (ttl pct : Z) (w w' : world Srv) (st : lease_state) :
  let (lk, fk) := lease_keys prefix kind name in
  as_millis ttl ≤ i64_max →
  try_acquire_async full lk fk h ttl pct w = (w', Ok (Some st)) ∨
  (∃ st0, Lease.lease_key st0 = lk ∧ holder st0 = h ∧ 0 < ttl_ms st0 ≤ i64_max ∧
     renew_state (E := cluster_error) st0 w = (w', Ok (st, Ok tt))) →
  ∃ t (late : N),
    w_time w ≤ t ∧ w_time w' = t + Z.of_N late ∧
    view t (w_srv w') !! lk = Some (RVal (RStr h) (Some (t + ttl_ms st))) ∧
    expires_at st = rfc3339 (t + ttl_ms st + w_skew w' + Z.of_N late).
Proof.
  cbn. intros Httl [Hrun|(st0 & Hkey & Hh & Hms & Hrun)].
  - eapply acquire_states_deadline; [apply lease_key_ne_fence|done..].
  - by eapply renew_states_deadline.
Qed.

(** [n1]'s acquire runs at time 1000; its reply takes 60 ms. *)
Definition slow_acquire `{Chrono} : world ref_srv * result (option lease_state) cluster_error :=
  try_acquire_async "mcpg-lock-x" lock_x.1 lock_x.2 "n1" (from_millis 100) 80
    (World (∅ : ref_srv) 1000 0 [NetEvent 0 [] (Late 60)]).

Definition slow_handle `{Chrono} : lease_state :=
  fresh_handle lock_x.1 1060 "n1" 1 (from_millis 100) 80.

Lemma stated_expiry_witness :
  slow_acquire.2 = Ok (Some slow_handle) ∧
  ∃ t (late : N),
    1000 ≤ t ∧ w_time slow_acquire.1 = t + Z.of_N late ∧
    view t (w_srv slow_acquire.1) !! lock_x.1 = Some (RVal (RStr "n1") (Some (t + 100))) ∧
    expires_at slow_handle = rfc3339 (t + 100 + 0 + Z.of_N late).
Proof.
  split; [vm_compute; reflexivity|].
  apply (stated_expiry (Srv := ref_srv) "app" "locks" "x" "mcpg-lock-x" "n1" (from_millis 100) 80
    (World (∅ : ref_srv) 1000 0 [NetEvent 0 [] (Late 60)]) slow_acquire.1 slow_handle).
  - vm_compute. discriminate.
  - left. vm_compute. reflexivity.
Defined.

(** What follows: [n2] has the lease at 1101, and [n1]'s handle states that
    it is [n1]'s until 1160. *)
Example two_stated_holders `{Chrono} :
  expires_at slow_handle = rfc3339 1160 ∧
  (try_acquire_async "mcpg-lock-x" lock_x.1 lock_x.2 "n2" (from_millis 100) 80
    (World (w_srv slow_acquire.1) 1101 0 [])).2 =
  Ok (Some (fresh_handle lock_x.1 1101 "n2" 2 (from_millis 100) 80)).
Proof. split; vm_compute; reflexivity. Qed.

(** ** Handles *)

(** C27. The reference counts of a lease handle are right: in every reachable
    state the [LeaseState] is there for whoever still holds it - an owner, a
    call, the task - and is dropped when nobody does; and the renewal task
    runs until the handle is released or a renewal fails.  In particular
    dropping an unreleased handle never stops its renewal task: the task's
    own clone keeps the state alive, so the abort in [Drop] comes only once
    the task is over. *)
Theorem handle_references (s : shared) :
  rtc handle_step acquired s →
  (LeaseHandle.dropped s = true ↔ owned s = false ∧ borrows s = 0%nat ∧ task s = false) ∧
  (LeaseHandle.released s = false → renewal_failed s = false →
   task s = true ∧ abort_requested s = false).
Proof.
  intros Hr%reachable_counted. destruct Hr as [Hs Hd Ha Ht]. rewrite Hs in Hd. unfold count in Hd.
  split.
  - rewrite Hd. destruct (owned s), (task s); intuition (discriminate || lia).
  - intros Hrel Hfail. assert (Htask : task s = true).
    { destruct (task s); [done|]. destruct (Ht eq_refl); congruence. }
    split; [done|]. destruct (abort_requested s); [|done].
    destruct (Ha eq_refl) as [?|Hdr]; [congruence|]. apply Hd in Hdr. rewrite Htask in Hdr. lia.
Qed.

Lemma handle_references_witness :
  let s := LeaseHandle.drop_state acquired in
  owned s = false ∧ LeaseHandle.released s = false ∧ renewal_failed s = false ∧
  ((LeaseHandle.dropped s = true ↔ owned s = false ∧ borrows s = 0%nat ∧ task s = false) ∧
   (LeaseHandle.released s = false → renewal_failed s = false →
    task s = true ∧ abort_requested s = false)).
Proof.
  intros s. split; [reflexivity|]. split; [reflexivity|]. split; [reflexivity|].
  apply (handle_references s). apply rtc_once. by apply step_drop.
Defined.
