(* ===== verification/Envelope.v ===== *)
(** * The wire envelope ([src/src/envelope.rs])

    A published payload travels with its routing key in one byte string.
    Bytes are characters: a payload and a wire message are [string]s. *)

From Stdlib Require Import Ascii.
From S2P Require Import Prelude Text.

Definition VERSION : Z := 1.
Definition FLAG_NONE : Z := 0.
Definition FLAG_RK : Z := 1.
Definition MAX_RK_LEN : Z := u16_max.

Inductive envelope_error : Type :=
| TooLong (n : Z)
| Truncated (n : Z)
| UnsupportedVersion (v : Z)
| UnknownFlag (f : Z)
| LengthTruncated
| BodyTruncated (expected actual : Z)
| InvalidUtf8.

(** A byte of the wire from its value. *)
Definition to_byte (z : Z) : ascii := ascii_of_N (Z.to_N z).

(** [len()] of a byte string. *)
Definition len (s : string) : Z := Z.of_nat (String.length s).

(** [(n as u16).to_be_bytes()] *)
Definition be_bytes (n : Z) : string :=
  let n := n mod 2 ^ 16 in
  String (to_byte (Z.shiftr n 8)) (String (to_byte (Z.land n 255)) "").

(** [u16::from_be_bytes([hi, lo])] *)
Definition from_be_bytes (hi lo : ascii) : Z := Z.lor (Z.shiftl (byte hi) 8) (byte lo).

Definition encode (routing_key : option string) (payload : string) : result string envelope_error :=
  match routing_key with
  | None => Ok (String (to_byte VERSION) (String (to_byte FLAG_NONE) payload))
  | Some rk =>
      if MAX_RK_LEN <? len rk then Err (TooLong (len rk))
      else
        Ok (String (to_byte VERSION) (String (to_byte FLAG_RK) (be_bytes (len rk) +:+ rk +:+ payload)))
  end.

(** [&s[..n]], of at most the length. *)
Fixpoint str_take (n : nat) (s : string) : string :=
  match n, s with
  | S n, String a s => String a (str_take n s)
  | _, _ => ""
  end.

Definition decode (bytes : string) : result (option string * string) envelope_error :=
  match bytes with
  | String version (String flag rest) =>
      if negb (byte version =? VERSION) then Err (UnsupportedVersion (byte version))
      else if byte flag =? FLAG_NONE then Ok (None, rest)
      else if byte flag =? FLAG_RK then
        match rest with
        | String hi (String lo body) =>
            let rk_len := from_be_bytes hi lo in
            if len body <? rk_len then Err (BodyTruncated rk_len (len body))
            else
              let rk := str_take (Z.to_nat rk_len) body in
              if utf8 rk then Ok (Some rk, str_drop (Z.to_nat rk_len) body) else Err InvalidUtf8
        | _ => Err LengthTruncated
        end
      else Err (UnknownFlag (byte flag))
  | _ => Err (Truncated (len bytes))
  end.

(** ** Facts *)

Lemma byte_range a : 0 ≤ byte a ≤ 255.
Proof. unfold byte. pose proof (N_ascii_bounded a). lia. Qed.

Lemma byte_to_byte z : 0 ≤ z ≤ 255 → byte (to_byte z) = z.
Proof. intros Hz. unfold byte, to_byte. rewrite N_ascii_embedding by lia. lia. Qed.

Lemma to_byte_byte a : to_byte (byte a) = a.
Proof. unfold byte, to_byte. rewrite N2Z.id. apply ascii_N_embedding. Qed.

Lemma from_be_bytes_value hi lo : from_be_bytes hi lo = byte hi * 256 + byte lo.
Proof.
  unfold from_be_bytes. pose proof (byte_range hi). pose proof (byte_range lo).
  pose proof (Z.add_lor_land (Z.shiftl (byte hi) 8) (byte lo)) as Hadd.
  assert (Z.land (Z.shiftl (byte hi) 8) (byte lo) = 0) as Hland.
  { apply Z.bits_inj'. intros i Hi. rewrite Z.land_spec, Z.bits_0.
    destruct (Z.lt_ge_cases i 8) as [Hlt|Hge].
    - by rewrite Z.shiftl_spec_low by lia.
    - assert (Z.testbit (byte lo) i = false) as ->; [|by rewrite andb_false_r].
      assert (byte lo mod 2 ^ 8 = byte lo) as <- by (apply Z.mod_small; lia).
      apply Z.mod_pow2_bits_high. lia. }
  rewrite Z.shiftl_mul_pow2 in * by lia. lia.
Qed.

Lemma be_bytes_value n :
  0 ≤ n ≤ MAX_RK_LEN → be_bytes n = String (to_byte (n / 256)) (String (to_byte (n mod 256)) "").
Proof.
  intros Hn. unfold MAX_RK_LEN, u16_max in Hn. unfold be_bytes. rewrite Z.mod_small by lia.
  rewrite Z.shiftr_div_pow2 by lia. change 255 with (Z.ones 8). by rewrite Z.land_ones by lia.
Qed.

Lemma be_bytes_roundtrip n :
  0 ≤ n ≤ MAX_RK_LEN →
  ∃ hi lo, be_bytes n = String hi (String lo "") ∧ from_be_bytes hi lo = n.
Proof.
  intros Hn. rewrite be_bytes_value by done. do 2 eexists. split; [reflexivity|].
  unfold MAX_RK_LEN, u16_max in Hn. rewrite from_be_bytes_value.
  assert (0 ≤ n / 256 ≤ 255) by (split; [apply Z.div_pos; lia|apply Z.lt_succ_r, Z.div_lt_upper_bound; lia]).
  assert (0 ≤ n mod 256 < 256) by (apply Z.mod_pos_bound; lia).
  rewrite !byte_to_byte by lia. pose proof (Z.div_mod n 256). lia.
Qed.

Lemma from_be_bytes_roundtrip hi lo :
  0 ≤ from_be_bytes hi lo ≤ MAX_RK_LEN ∧ be_bytes (from_be_bytes hi lo) = String hi (String lo "").
Proof.
  rewrite from_be_bytes_value. pose proof (byte_range hi). pose proof (byte_range lo).
  assert (0 ≤ byte hi * 256 + byte lo ≤ MAX_RK_LEN) as Hn by (unfold MAX_RK_LEN, u16_max; lia).
  split; [done|]. rewrite be_bytes_value by done.
  rewrite Z.add_comm, Z.div_add, Z.mod_add, Z.div_small, Z.mod_small by lia.
  rewrite Z.add_0_l. by rewrite !to_byte_byte.
Qed.

Lemma str_take_app s t : str_take (String.length s) (s +:+ t) = s.
Proof. induction s as [|a s IH]; [by destruct t|]. rewrite append_cons. cbn. by rewrite IH. Qed.

Lemma str_drop_app s t : str_drop (String.length s) (s +:+ t) = t.
Proof. induction s as [|a s IH]; [by destruct t|]. rewrite append_cons. cbn. by rewrite IH. Qed.

Lemma str_take_drop n s : str_take n s +:+ str_drop n s = s.
Proof. revert s. induction n as [|n IH]; intros [|a s]; cbn; try done. by rewrite append_cons, IH. Qed.

Lemma str_take_length n s : (n ≤ String.length s)%nat → String.length (str_take n s) = n.
Proof.
  revert s. induction n as [|n IH]; intros [|a s]; cbn; intros Hn; try done; [lia|].
  by rewrite IH by lia.
Qed.

Lemma len_app s t : len (s +:+ t) = len s + len t.
Proof. unfold len. rewrite append_length. lia. Qed.

Lemma encode_decode rk payload wire :
  match rk with Some rk => utf8 rk = true | None => True end →
  encode rk payload = Ok wire → decode wire = Ok (rk, payload).
Proof.
  intros Hutf. destruct rk as [rk|]; unfold encode; [|by intros [= <-]].
  destruct (Z.ltb_spec MAX_RK_LEN (len rk)) as [|Hle]; [done|]. intros [= <-].
  destruct (be_bytes_roundtrip (len rk)) as (hi & lo & -> & Hlen); [unfold len in *; lia|].
  rewrite !append_cons, append_nil_l. unfold decode.
  change (negb (byte (to_byte VERSION) =? VERSION)) with false.
  change (byte (to_byte FLAG_RK) =? FLAG_NONE) with false.
  change (byte (to_byte FLAG_RK) =? FLAG_RK) with true. cbv iota. rewrite Hlen, len_app.
  assert ((len rk + len payload <? len rk) = false) as -> by (apply Z.ltb_ge; unfold len; lia).
  unfold len. rewrite Nat2Z.id, str_take_app, str_drop_app. by rewrite Hutf.
Qed.

(** What decodes was encoded: the wire format has one form for each message. *)
Lemma decode_encode wire rk payload :
  decode wire = Ok (rk, payload) →
  encode rk payload = Ok wire ∧ match rk with Some rk => utf8 rk = true | None => True end.
Proof.
  unfold decode. destruct wire as [|v [|f rest]]; [done|done|].
  destruct (Z.eqb_spec (byte v) VERSION) as [Hv|]; [|done]. cbn [negb].
  assert (v = to_byte VERSION) as -> by (by rewrite <- Hv, to_byte_byte).
  destruct (Z.eqb_spec (byte f) FLAG_NONE) as [Hf|].
  { intros [= <- <-]. assert (f = to_byte FLAG_NONE) as -> by (by rewrite <- Hf, to_byte_byte). done. }
  destruct (Z.eqb_spec (byte f) FLAG_RK) as [Hf|]; [|done].
  assert (f = to_byte FLAG_RK) as -> by (by rewrite <- Hf, to_byte_byte).
  destruct rest as [|hi [|lo body]]; [done|done|].
  destruct (from_be_bytes_roundtrip hi lo) as [Hr Hb].
  destruct (Z.ltb_spec (len body) (from_be_bytes hi lo)) as [|Hle]; [done|].
  destruct (utf8 _) eqn:Hu; [|done]. intros [= <- <-]. split; [|done].
  set (k := from_be_bytes hi lo) in *. unfold encode.
  assert (Hlen : len (str_take (Z.to_nat k) body) = k).
  { unfold len in *. rewrite str_take_length by lia. lia. }
  rewrite Hlen. assert ((MAX_RK_LEN <? k) = false) as -> by (apply Z.ltb_ge; lia).
  rewrite Hb, str_take_drop. done.
Qed.
