(* ===== verification/PubSub.v ===== *)
(** * Publish and subscribe ([src/src/pubsub.rs], [src/src/state/topic.rs])

    Redis's pub/sub delivers to a connection the messages published on the
    channels it subscribed to while it is connected.  Here are the two
    publishers, the forwarding task of a cluster subscription - a state
    machine over what it sees of its connection - and the topic bus's
    stream. *)

From stdpp Require Import pretty.
From Stdlib Require Import Ascii.
From S2P Require Import Prelude Redis Client Keys Text Envelope.

(** ** Errors as text *)

Definition hex_digit (z : Z) : string :=
  match String.get (Z.to_nat z) "0123456789abcdef" with
  | Some c => String c ""
  | None => ""
  end.

(** [{:#04x}] of a byte. *)
Definition hex_byte (z : Z) : string := "0x" +:+ hex_digit (z / 16) +:+ hex_digit (z mod 16).

(** [EnvelopeError]'s text. *)
Definition envelope_text (e : envelope_error) : string :=
  match e with
  | TooLong n => "envelope: routing key " +:+ pretty n +:+ " bytes exceeds max " +:+ pretty MAX_RK_LEN
  | Truncated n => "envelope: header truncated (need >= 2 bytes, got " +:+ pretty n +:+ ")"
  | UnsupportedVersion v => "envelope: unsupported version " +:+ hex_byte v
  | UnknownFlag f => "envelope: unknown flag " +:+ hex_byte f
  | LengthTruncated => "envelope: routing-key length truncated"
  | BodyTruncated expected actual =>
      "envelope: routing-key body truncated (header says " +:+ pretty expected +:+ ", have "
        +:+ pretty actual +:+ ")"
  | InvalidUtf8 => "envelope: routing key not valid UTF-8"
  end.

(** ** Publishing

    [send channel payload] is [PUBLISH] on the replica's connection, which
    changes what lies behind it: the number of receivers, or an error. *)

Definition publish_async {St} (send : string → string → St → St * result Z string) (prefix topic : string)
    (routing_key : option string) (payload : string) (st : St) : St * result unit cluster_error :=
  let channel := channel_name prefix topic in
  match map_err (λ e, Internal ("publish envelope: " +:+ envelope_text e)) (encode routing_key payload) with
  | Err e => (st, Err e)
  | Ok wire =>
      let '(st, sent) := send channel wire st in
      (st, let? _ := map_err (λ e, BackendUnavailable ("PUBLISH `" +:+ channel +:+ "`: " +:+ e)) sent in
           Ok tt)
  end.

(** ** A subscription's forwarding task *)

Record published_message : Type := PublishedMessage {
  topic : string;
  routing_key : option string;
  payload : string;
  from_node : string;
}.

(** One message of the channel: what is sent on, if it decodes and has the
    routing key asked for. *)
Definition handle_message (topic : string) (routing_key_filter : option string) (node_id raw : string) :
    option published_message :=
  match decode raw with
  | Err _ => None
  | Ok (msg_rk, payload) =>
      match routing_key_filter with
      | Some want =>
          if bool_decide (msg_rk = Some want) then Some (PublishedMessage topic msg_rk payload node_id)
          else None
      | None => Some (PublishedMessage topic msg_rk payload node_id)
      end
  end.

(** What the task sees, in order: a message on its connection; its connection
    lost; the pause before a reconnect over, and whether it succeeded; its
    receiver gone. *)
Inductive task_event : Type :=
| Incoming (raw : string)
| StreamEnded
| Reconnect (ok : bool)
| ReceiverDropped.

Inductive task_state : Type :=
| Connected
| Disconnected
| Ended.

Record subscriber : Type := Subscriber { at_ : task_state; closed : bool }.

Section task.
Context (want_topic : string) (routing_key_filter : option string) (node_id : string).

(** A step, and the message it sends.  A message that arrives after the
    receiver is gone ends the task: its send fails, or the next look at the
    channel finds it closed. *)
Definition task_step (st : subscriber) (ev : task_event) : subscriber * option published_message :=
  match at_ st, ev with
  | Ended, _ => (st, None)
  | _, ReceiverDropped => (Subscriber (at_ st) true, None)
  | Connected, Incoming raw =>
      if closed st then (Subscriber Ended true, None)
      else (st, handle_message want_topic routing_key_filter node_id raw)
  | Connected, StreamEnded => (Subscriber Disconnected (closed st), None)
  | Disconnected, Reconnect ok =>
      if closed st then (Subscriber Ended true, None)
      else if ok then (Subscriber Connected false, None)
      else (st, None)
  | _, _ => (st, None)
  end.

Fixpoint run_task (st : subscriber) (evs : list task_event) : subscriber * list published_message :=
  match evs with
  | [] => (st, [])
  | ev :: evs =>
      let '(st, out) := task_step st ev in
      let '(st, outs) := run_task st evs in
      (st, match out with Some m => m :: outs | None => outs end)
  end.

(** A task starts connected. *)
Definition subscribed : subscriber := Subscriber Connected false.
End task.

(** [get_async_pubsub] and [SUBSCRIBE] on the connection it gives, with the
    words of the errors. *)
Definition open_channel {C} (connect : result C string) (subscribe : string → C → result C string)
    (connecting subscribing channel : string) : result C cluster_error :=
  let? conn := map_err (λ e, BackendUnavailable ("redis pubsub " +:+ connecting +:+ ": " +:+ e)) connect in
  map_err (λ e, BackendUnavailable ("redis " +:+ subscribing +:+ " `" +:+ channel +:+ "`: " +:+ e))
    (subscribe channel conn).

(** [subscribe_async] connects before it spawns the task: the connection and
    the task. *)
Definition subscribe_async {C} (connect : result C string) (subscribe : string → C → result C string)
    (prefix topic : string) : result (C * subscriber) cluster_error :=
  let? conn := open_channel connect subscribe "connect" "SUBSCRIBE" (channel_name prefix topic) in
  Ok (conn, subscribed).

(** What the task sees of a reconnect. *)
Definition reconnect {C} (connect : result C string) (subscribe : string → C → result C string)
    (channel : string) : task_event :=
  Reconnect (is_ok (open_channel connect subscribe "reconnect" "re-SUBSCRIBE" channel)).

(** ** The topic bus ([RedisTopicBus])

    Less its connection and its client, a bus is the prefix of its
    channels. *)

Record topic_bus : Type := RedisTopicBus { bus_prefix : string }.

Definition with_client_and_connection (topic_prefix : string) : topic_bus := RedisTopicBus topic_prefix.

Record message : Type := Message { msg_topic : string; msg_payload : string }.

Definition bus_publish {St} (send : string → string → St → St * result Z string)
    (topic_prefix topic payload : string) (st : St) : St * result unit cluster_error :=
  let full := full_topic topic_prefix topic in
  let '(st, sent) := send full payload st in
  (st, let? _ := map_err (λ e, BackendUnavailable ("redis publish `" +:+ full +:+ "`: " +:+ e)) sent in Ok tt).

Definition prefix_strip (topic_prefix : string) : string :=
  if is_empty topic_prefix then "" else topic_prefix +:+ ":".

(** What a subscription's stream makes of a message on [channel]. *)
Definition bus_message (topic_prefix channel raw : string) : message :=
  let strip := prefix_strip topic_prefix in
  let logical :=
    if negb (is_empty strip) then
      match strip_prefix strip channel with Some s => s | None => channel end
    else channel in
  Message logical raw.

(** [into_on_message().map(...)]: the stream, of the messages - channel and
    payload - that arrive on its connection. *)
Definition bus_stream (topic_prefix : string) (arrived : list (string * string)) : list message :=
  (λ m, bus_message topic_prefix m.1 m.2) <$> arrived.

(** [RedisTopicBus::subscribe]: the connection, subscribed to the full
    pattern, and the stream over it; the queue group is ignored. *)
Definition bus_subscribe {C} (connect : result C string) (psubscribe : string → C → result C string)
    (topic_prefix pattern : string) (queue_group : option string) :
    result (C * (list (string * string) → list message)) cluster_error :=
  let full_pattern := full_topic topic_prefix pattern in
  let? conn := open_channel connect psubscribe "connect" "psubscribe" full_pattern in
  Ok (conn, bus_stream topic_prefix).

(** ** Facts *)

Definition incoming (ev : task_event) : option string :=
  match ev with Incoming raw => Some raw | _ => None end.

Section facts.
Context (want_topic : string) (routing_key_filter : option string) (node_id : string).
Local Abbreviation handle := (handle_message want_topic routing_key_filter node_id).
Local Abbreviation run := (run_task want_topic routing_key_filter node_id).

Lemma run_task_app st evs1 evs2 :
  run st (evs1 ++ evs2) =
    ((run (run st evs1).1 evs2).1, (run st evs1).2 ++ (run (run st evs1).1 evs2).2).
Proof.
  revert st. induction evs1 as [|ev evs1 IH]; intros st; cbn.
  { by destruct (run st evs2). }
  destruct (task_step _ _ _ st ev) as [st' out]. specialize (IH st').
  rewrite IH. destruct (run st' evs1) as [st1 outs1]. cbn.
  destruct (run st1 evs2). cbn. by destruct out.
Qed.

(** A connected subscription forwards what decodes and matches, in order. *)
Lemma run_incoming raws :
  run subscribed (Incoming <$> raws) = (subscribed, omap handle raws).
Proof.
  induction raws as [|raw raws IH]; [done|]. cbn [fmap list_fmap run_task].
  cbn [task_step subscribed at_ closed].
  fold subscribed. change (Incoming <$> raws) with (Incoming <$> raws) in IH.
  unfold fmap in *. rewrite IH. cbn. by destruct (handle raw).
Qed.

(** Nothing is sent once the receiver is gone. *)
Lemma run_closed st evs : closed st = true → (run st evs).2 = [].
Proof.
  revert st. induction evs as [|ev evs IH]; intros st Hc; cbn; [done|].
  destruct st as [a c]. cbn in Hc. subst c.
  assert (∃ st', task_step want_topic routing_key_filter node_id (Subscriber a true) ev = (st', None)
                 ∧ closed st' = true) as (st' & -> & Hc').
  { destruct a, ev; cbn; eauto. }
  specialize (IH st' Hc'). destruct (run st' evs). by cbn in *; subst.
Qed.

(** The messages sent are, in order, some of those that came in. *)
Lemma run_sublist st evs : (run st evs).2 `sublist_of` omap handle (omap incoming evs).
Proof.
  revert st. induction evs as [|ev evs IH]; intros st; cbn; [done|].
  destruct (task_step _ _ _ st ev) as [st' out] eqn:Hs. specialize (IH st').
  destruct (run st' evs) as [st2 outs]. cbn in *.
  assert (out = None ∨ ∃ raw, ev = Incoming raw ∧ out = handle raw) as [->|(raw & -> & ->)].
  { destruct st as [[] []], ev as [raw| |[]|]; cbn in Hs; simplify_eq; eauto. }
  - destruct (incoming ev) as [raw|]; [|done]. cbn. destruct (handle raw); [by constructor|done].
  - cbn. destruct (handle raw); [by constructor|done].
Qed.
End facts.
