(* ===== verification/Broker.v ===== *)
(** * Redis's publish/subscribe, and the traffic of a deployment

    What [pubsub.rs] and [state/topic.rs] use of Redis's pub/sub, as an
    interface with the laws its documentation gives, and what a deployment's
    publishers put through it: the cluster's publishes, the topic bus's, and
    messages of other programs.  A subscription is stated of what arrives on
    its own connection. *)

From S2P Require Import Prelude Redis RedisRef Client Keys Text Envelope PubSub.

(** [B] is the server's side, [C] a connection for subscriptions.  [passed]
    is what the server has passed on so far, channel and payload, in its
    order; [hears] is what a connection is subscribed to. *)
Class Broker (B C : Type) : Type := {
  redis_publish : string → string → B → B * result Z string;
  redis_subscribe : string → C → result C string;
  redis_psubscribe : string → C → result C string;
  passed : B → list (string * string);
  hears : C → string → bool;
}.

(** A [PUBLISH] passes its message on, at once and once, before it is
    answered; one that fails may have been lost before or after that.  A
    subscription adds its channel, or the channels its pattern matches. *)
Class BrokerLaws (Srv B C : Type) `{RedisServer Srv, Broker B C} : Prop := {
  publish_passes channel payload b b' r :
    redis_publish channel payload b = (b', r) →
    passed b' = passed b ++ [(channel, payload)] ∨ passed b' = passed b ∧ is_ok r = false;
  subscribe_hears channel c c' :
    redis_subscribe channel c = Ok c' → ∀ ch, hears c' ch = hears c ch || bool_decide (ch = channel);
  psubscribe_hears pattern c c' :
    redis_psubscribe pattern c = Ok c' → ∀ ch, hears c' ch = hears c ch || glob pattern ch;
}.

(** A new connection is subscribed to nothing. *)
Definition fresh {B C} `{Broker B C} (connect : result C string) : Prop :=
  ∀ c, connect = Ok c → ∀ ch, hears c ch = false.

(** What arrives on a connection while the server goes from [b] to [b']. *)
Definition arrivals {B C} `{Broker B C} (c : C) (b b' : B) : list (string * string) :=
  filter (λ m, hears c m.1 = true) (drop (length (passed b)) (passed b')).

(** One publication: a replica's [publish], its topic bus's, or a message of
    another program. *)
Inductive traffic : Type :=
| Publishes (topic : string) (routing_key : option string) (payload : string)
| BusPublishes (topic payload : string)
| Foreign (channel raw : string).

Section traffic.
Context {B C : Type} `{Broker B C} (prefix : string).

Definition publish_one (ev : traffic) (b : B) : B * result unit cluster_error :=
  match ev with
  | Publishes topic rk payload => publish_async redis_publish prefix topic rk payload b
  | BusPublishes topic payload => bus_publish redis_publish prefix topic payload b
  | Foreign channel raw =>
      let '(b, r) := redis_publish channel raw b in
      (b, let? _ := map_err BackendUnavailable r in Ok tt)
  end.

Fixpoint run_traffic (evs : list traffic) (b : B) : B * list (result unit cluster_error) :=
  match evs with
  | [] => (b, [])
  | ev :: evs =>
      let '(b, r) := publish_one ev b in
      let '(b, rs) := run_traffic evs b in
      (b, r :: rs)
  end.
End traffic.

(** The error of a routing key that does not fit its length field. *)
Definition rk_refused (rk : string) : cluster_error :=
  Internal ("publish envelope: " +:+ envelope_text (TooLong (len rk))).

Definition fits (ev : traffic) : Prop :=
  match ev with Publishes _ (Some rk) _ => len rk ≤ 65535 | _ => True end.

(** [reaches evs rs got]: with the answers [rs], of the publications [evs]
    exactly [got] were passed on.  An answered one was; one whose request or
    answer was lost may have been; a routing key too long is refused. *)
Inductive reaches : list traffic → list (result unit cluster_error) → list traffic → Prop :=
| reaches_nil : reaches [] [] []
| reaches_answered ev evs rs got :
    fits ev → reaches evs rs got → reaches (ev :: evs) (Ok tt :: rs) (ev :: got)
| reaches_unanswered ev evs e rs got :
    fits ev → reaches evs rs got → reaches (ev :: evs) (Err (BackendUnavailable e) :: rs) (ev :: got)
| reaches_lost ev evs e rs got :
    fits ev → reaches evs rs got → reaches (ev :: evs) (Err (BackendUnavailable e) :: rs) got
| reaches_refused topic rk payload evs rs got :
    65535 < len rk → reaches evs rs got →
    reaches (Publishes topic (Some rk) payload :: evs) (Err (rk_refused rk) :: rs) got.

(** If every publication was answered, all were passed on. *)
Lemma reaches_all evs rs got :
  reaches evs rs got → Forall (λ r, is_ok r = true) rs → got = evs.
Proof. induction 1; inversion 1; subst; try done. f_equal; auto. Qed.

(** ** What passes *)

(** The message a publication puts on a channel. *)
Definition wire_of (prefix : string) (ev : traffic) : option (string * string) :=
  match ev with
  | Publishes topic rk payload =>
      match encode rk payload with Ok wire => Some (channel_name prefix topic, wire) | Err _ => None end
  | BusPublishes topic payload => Some (full_topic prefix topic, payload)
  | Foreign channel raw => Some (channel, raw)
  end.

Lemma encode_fits rk payload :
  match encode rk payload with
  | Ok _ => match rk with Some k => len k ≤ 65535 | None => True end
  | Err e => ∃ k, rk = Some k ∧ 65535 < len k ∧ e = TooLong (len k)
  end.
Proof.
  destruct rk as [k|]; cbn; [|done]. change MAX_RK_LEN with 65535.
  destruct (Z.ltb_spec 65535 (len k)); eauto.
Qed.

Section passes.
Context {Srv B C : Type} `{BrokerLaws Srv B C} (prefix : string).

(** One publication: refused, or its message passed on, or lost with an
    error. *)
Lemma publish_one_passes ev b b' r :
  publish_one prefix ev b = (b', r) →
  (∃ topic rk payload, ev = Publishes topic (Some rk) payload ∧ 65535 < len rk ∧
     r = Err (rk_refused rk) ∧ b' = b) ∨
  fits ev ∧ (r = Ok tt ∨ ∃ e, r = Err (BackendUnavailable e)) ∧
  ∃ m, wire_of prefix ev = Some m ∧ (passed b' = passed b ++ [m] ∨ passed b' = passed b ∧ r ≠ Ok tt).
Proof.
  assert (Hsend : ∀ channel payload sent (f : string → string),
    redis_publish channel payload b = (b', sent) →
    let x := (let? _ := map_err (λ e, BackendUnavailable (f e)) sent in Ok tt) in
    (x = Ok tt ∨ ∃ e, x = Err (BackendUnavailable e)) ∧
    (passed b' = passed b ++ [(channel, payload)] ∨ passed b' = passed b ∧ x ≠ Ok tt)).
  { intros channel payload sent f Hp. pose proof (publish_passes _ _ _ _ _ Hp) as Hlaw.
    destruct sent as [n|e]; cbn in *; (split; [eauto|]); destruct Hlaw as [?|[? ?]]; auto. }
  destruct ev as [topic rk payload|topic payload|channel raw]; cbn [publish_one wire_of fits].
  - unfold publish_async. pose proof (encode_fits rk payload) as Hfit.
    destruct (encode rk payload) as [wire|e]; cbn [map_err].
    + destruct (redis_publish _ wire b) as [b1 sent] eqn:Hp. intros [= -> <-]. right.
      split; [by destruct rk|]. destruct (Hsend _ _ _ (λ e, "PUBLISH `" +:+ channel_name prefix topic +:+ "`: " +:+ e) Hp) as [Hr Hpass]. split; [exact Hr|]. by eexists.
    + intros [= <- <-]. left. destruct Hfit as (k & -> & Hk & ->). by eexists _, k, _.
  - unfold bus_publish. destruct (redis_publish _ payload b) as [b1 sent] eqn:Hp. intros [= -> <-]. right.
    split; [done|]. destruct (Hsend _ _ _ (λ e, "redis publish `" +:+ full_topic prefix topic +:+ "`: " +:+ e) Hp) as [Hr Hpass]. split; [exact Hr|]. by eexists.
  - destruct (redis_publish _ raw b) as [b1 sent] eqn:Hp. intros [= -> <-]. right.
    split; [done|]. destruct (Hsend _ _ _ (λ e, e) Hp) as [Hr Hpass]. split; [exact Hr|]. by eexists.
Qed.

Lemma traffic_reaches evs b b' rs :
  run_traffic prefix evs b = (b', rs) →
  ∃ got, reaches evs rs got ∧ passed b' = passed b ++ omap (wire_of prefix) got.
Proof.
  revert b rs. induction evs as [|ev evs IH]; intros b rs; cbn [run_traffic].
  { intros [= <- <-]. exists []. split; [constructor|]. by rewrite app_nil_r. }
  destruct (publish_one prefix ev b) as [b1 r] eqn:Hone.
  destruct (run_traffic prefix evs b1) as [b2 rs1] eqn:Hrun. intros [= -> <-].
  destruct (IH b1 rs1 Hrun) as (got & Hgot & Hpass).
  destruct (publish_one_passes ev b b1 r Hone)
    as [(topic & rk & payload & -> & Hk & -> & ->)|(Hfit & Hr & m & Hm & Hp)].
  { exists got. split; [by constructor|done]. }
  destruct Hp as [Hp|[Hp Hne]].
  - exists (ev :: got). split; [destruct Hr as [->|[e ->]]; by constructor|].
    rewrite Hpass, Hp, <- app_assoc. f_equal. cbn. by rewrite Hm.
  - destruct Hr as [->|[e ->]]; [done|]. exists got. split; [by constructor|]. by rewrite Hpass, Hp.
Qed.

(** What arrives is what passed on the channels heard. *)
Lemma traffic_arrivals evs (c : C) b b' rs :
  run_traffic prefix evs b = (b', rs) →
  ∃ got, reaches evs rs got ∧
    arrivals c b b' = omap (λ ev, m ← wire_of prefix ev; if hears c m.1 then Some m else None) got.
Proof.
  intros Hrun. destruct (traffic_reaches evs b b' rs Hrun) as (got & Hgot & Hpass).
  exists got. split; [done|]. unfold arrivals. rewrite Hpass, drop_app_length. clear.
  induction got as [|ev got IH]; [done|]. csimpl. destruct (wire_of prefix ev) as [m|]; csimpl; [|done].
  rewrite filter_cons. destruct (hears c m.1); [by rewrite decide_True by done; f_equal|].
  by rewrite decide_False by done.
Qed.

(** A connection opened on a channel or a pattern hears that alone. *)
Lemma open_subscribed (connect : result C string) w1 w2 channel c :
  fresh connect → open_channel connect redis_subscribe w1 w2 channel = Ok c →
  ∀ ch, hears c ch = bool_decide (ch = channel).
Proof.
  intros Hf. unfold open_channel. destruct connect as [c0|e]; cbn; [|done].
  destruct (redis_subscribe channel c0) as [c1|e] eqn:Hs; cbn; [|done]. intros [= <-] ch.
  by rewrite (subscribe_hears _ _ _ Hs), (Hf c0 eq_refl).
Qed.

Lemma open_psubscribed (connect : result C string) w1 w2 pattern c :
  fresh connect → open_channel connect redis_psubscribe w1 w2 pattern = Ok c →
  ∀ ch, hears c ch = glob pattern ch.
Proof.
  intros Hf. unfold open_channel. destruct connect as [c0|e]; cbn; [|done].
  destruct (redis_psubscribe pattern c0) as [c1|e] eqn:Hs; cbn; [|done]. intros [= <-] ch.
  by rewrite (psubscribe_hears _ _ _ Hs), (Hf c0 eq_refl).
Qed.
End passes.

(** What holds of every publication holds of those passed on, which fit. *)
Lemma reaches_own (P : traffic → Prop) evs rs got :
  reaches evs rs got → Forall P evs → Forall (λ ev, P ev ∧ fits ev) got.
Proof. induction 1; inversion 1; subst; auto. Qed.

(** ** Channels and patterns

    The two publishers' channels, under one prefix, are never the same. *)

Lemma full_topic_eq prefix t :
  is_empty prefix = false → full_topic prefix t = (prefix +:+ ":") +:+ t.
Proof. intros Hp. unfold full_topic. by rewrite Hp, append_assoc. Qed.

Lemma topic_channel_off prefix topic : starts_with (prefix +:+ ":") (channel_name prefix topic) = false.
Proof.
  apply not_true_iff_false. rewrite starts_with_spec. intros [r Hr].
  unfold channel_name in Hr. rewrite append_assoc in Hr. by apply append_inj_l in Hr.
Qed.

Lemma channels_apart prefix topic t :
  is_empty prefix = false → full_topic prefix t ≠ channel_name prefix topic.
Proof.
  intros Hp E. pose proof (topic_channel_off prefix topic) as Hoff.
  by rewrite <- E, full_topic_eq, starts_with_append in Hoff.
Qed.

Lemma bool_decide_channel prefix t topic :
  bool_decide (channel_name prefix t = channel_name prefix topic) = bool_decide (t = topic).
Proof. apply bool_decide_ext. split; [by intros E%append_inj_l%append_inj_l|by intros ->]. Qed.

Lemma bus_message_topic prefix t payload :
  is_empty prefix = false → bus_message prefix (full_topic prefix t) payload = Message t payload.
Proof.
  intros Hp. rewrite full_topic_eq by done. unfold bus_message, prefix_strip. rewrite Hp.
  assert (is_empty (prefix +:+ ":") = false) as -> by (by destruct prefix).
  cbn [negb]. by rewrite strip_prefix_append.
Qed.

(** Text without special characters is a pattern for itself. *)
Definition literal (s : string) : Prop := glob_escape s = s.

Lemma bus_glob {Srv} `{RedisLaws Srv} prefix pattern ch :
  is_empty prefix = false → literal prefix →
  glob (full_topic prefix pattern) ch =
    match strip_prefix (prefix +:+ ":") ch with Some t => glob pattern t | None => false end.
Proof.
  intros Hp Hlit. rewrite full_topic_eq, <- glob_escape_app_match by done.
  by rewrite glob_escape_app, Hlit.
Qed.

(** ** A broker

    The laws hold of something: a broker that keeps what it passed on, with
    what the network is to do to the next requests. *)

Inductive delivery : Type :=
| Answered (receivers : Z)
| AnswerLost (e : string)
| RequestLost (e : string).

Record ref_broker : Type := RefBroker { messages : list (string * string); network : list delivery }.

Definition ref_publish (channel payload : string) (b : ref_broker) : ref_broker * result Z string :=
  let pass net := RefBroker (messages b ++ [(channel, payload)]) net in
  match network b with
  | [] => (pass [], Ok 1)
  | Answered n :: net => (pass net, Ok n)
  | AnswerLost e :: net => (pass net, Err e)
  | RequestLost e :: net => (RefBroker (messages b) net, Err e)
  end.

#[export] Instance ref_broker_ops : Broker ref_broker (string → bool) := {
  redis_publish := ref_publish;
  redis_subscribe channel c := Ok (λ ch, c ch || bool_decide (ch = channel));
  redis_psubscribe pattern c := Ok (λ ch, c ch || glob (Srv := ref_srv) pattern ch);
  passed := messages;
  hears c := c;
}.

#[export] Instance ref_broker_laws : BrokerLaws ref_srv ref_broker (string → bool).
Proof.
  split; [|by intros ??? [= <-]..].
  intros channel payload b b' r. cbn. unfold ref_publish.
  destruct (network b) as [|[] net]; intros [= <- <-]; cbn; auto.
Qed.

(** It makes new connections. *)
Definition ref_connect : result (string → bool) string := Ok (λ _, false).

Lemma ref_connect_fresh : fresh (B := ref_broker) ref_connect.
Proof. by intros c [= <-]. Qed.
