(* ===== verification/Subscription.v ===== *)
(** * A subscription with its channel ([src/src/pubsub.rs])

    The forwarding task of [subscribe_async] between its connection and a
    bounded channel, action by action: what arrives on the connection waits
    there until the task reads it, a send waits until the channel has room,
    and the receiver takes messages, or goes, when it likes.  [PubSub.v]'s
    machine - what the task sees, and what it sends - is its specification. *)

From S2P Require Import Prelude Redis Client Keys Text Envelope PubSub.

(** Where the task is in its two loops. *)
Inductive phase : Type :=
| Top                                  (** the outer loop's first line *)
| Reconnecting                         (** in [reconnect] *)
| Looking                              (** the inner loop's first line *)
| Waiting                              (** in [stream.next()] *)
| Sending (out : published_message)    (** in [tx.send(out)] *)
| Pausing                              (** in [sleep] *)
| Finished.

(** The task, whether [current] still has the first connection; the
    connection, and what it has received and the task has not; the channel;
    what the receiver has taken, and whether it is gone. *)
Record subscription : Type := Sub {
  at_phase : phase;
  current : bool;
  up : bool;
  inbox : list string;
  chan : list published_message;
  received : list published_message;
  dropped : bool;
}.

Definition set_phase (p : phase) (s : subscription) : subscription :=
  Sub p (current s) (up s) (inbox s) (chan s) (received s) (dropped s).

Definition set_inbox (q : list string) (s : subscription) : subscription :=
  Sub (at_phase s) (current s) (up s) q (chan s) (received s) (dropped s).

(** [subscribe_async] spawns the task with its first connection. *)
Definition spawned : subscription := Sub Top true true [] [] [] false.

Section subscription.
Context (want_topic : string) (routing_key_filter : option string) (node_id : string) (buffer : nat).
Local Abbreviation handle := (handle_message want_topic routing_key_filter node_id).

(** The task's next action; [None] while it waits. *)
Definition task_turn (s : subscription) : option subscription :=
  match at_phase s with
  | Top =>
      Some (if dropped s then set_phase Finished s
            else if current s then Sub Looking false (up s) (inbox s) (chan s) (received s) (dropped s)
            else set_phase Reconnecting s)
  | Looking => Some (set_phase (if dropped s then Finished else Waiting) s)
  | Waiting =>
      match inbox s with
      | raw :: rest =>
          Some (set_phase (match handle raw with Some out => Sending out | None => Looking end)
                  (set_inbox rest s))
      | [] => if up s then None else Some (set_phase Pausing s)
      end
  | Sending out =>
      if dropped s then Some (set_phase Finished s)
      else if (length (chan s) <? buffer)%nat then
        Some (Sub Looking (current s) (up s) (inbox s) (chan s ++ [out]) (received s) (dropped s))
      else None
  | Pausing => Some (set_phase Top s)
  | Reconnecting | Finished => None
  end.

(** What can happen next: an action of the task; the end of its reconnect; a
    message arriving; the connection lost with what of its messages can still
    be read; the receiver taking a message, or going. *)
Inductive move : Type :=
| TaskTurn
| Reconnected (ok : bool)
| Arrives (raw : string)
| Lost (readable : nat)
| Receives
| Drops.

Definition step (m : move) (s : subscription) : option subscription :=
  match m with
  | TaskTurn => task_turn s
  | Reconnected ok =>
      match at_phase s with
      | Reconnecting =>
          Some (if ok then Sub Looking (current s) true [] (chan s) (received s) (dropped s)
                else set_phase Pausing s)
      | _ => None
      end
  | Arrives raw => if up s then Some (set_inbox (inbox s ++ [raw]) s) else None
  | Lost readable =>
      if up s then
        Some (Sub (at_phase s) (current s) false (take readable (inbox s)) (chan s) (received s) (dropped s))
      else None
  | Receives =>
      match chan s, dropped s with
      | m :: rest, false =>
          Some (Sub (at_phase s) (current s) (up s) (inbox s) rest (received s ++ [m]) (dropped s))
      | _, _ => None
      end
  | Drops =>
      if dropped s then None
      else Some (Sub (at_phase s) (current s) (up s) (inbox s) [] (received s) true)
  end.

Fixpoint run_moves (ms : list move) (s : subscription) : option subscription :=
  match ms with
  | [] => Some s
  | m :: ms => match step m s with Some s => run_moves ms s | None => None end
  end.

(** ** What the task sees *)

Definition sees (m : move) (s : subscription) : option task_event :=
  match m, at_phase s with
  | TaskTurn, Waiting =>
      match inbox s with raw :: _ => Some (Incoming raw) | [] => Some StreamEnded end
  | Reconnected ok, _ => Some (Reconnect ok)
  | Drops, _ => Some ReceiverDropped
  | _, _ => None
  end.

Fixpoint seen (ms : list move) (s : subscription) : list task_event :=
  match ms with
  | [] => []
  | m :: ms =>
      match step m s with
      | Some s' => (match sees m s with Some ev => [ev] | None => [] end) ++ seen ms s'
      | None => []
      end
  end.

Definition arrived (ms : list move) : list string :=
  omap (λ m, match m with Arrives raw => Some raw | _ => None end) ms.

(** ** It is the specification's machine *)

Local Abbreviation run := (run_task want_topic routing_key_filter node_id).

Definition on_air (s : subscription) : task_state :=
  match at_phase s with
  | Top => if current s then Connected else Disconnected
  | Looking | Waiting | Sending _ => Connected
  | Reconnecting | Pausing => Disconnected
  | Finished => Ended
  end.

Definition pending (s : subscription) : list published_message :=
  match at_phase s with Sending out => [out] | _ => [] end.

(** The first connection is there to take only at the start. *)
Definition current_used (s : subscription) : Prop :=
  match at_phase s with Top | Finished => True | _ => current s = false end.

(** The specification's state and what it has sent. *)
Record simulates (s : subscription) (st : subscriber) (outs : list published_message) : Prop := {
  sim_closed : closed st = dropped s;
  sim_room : (length (chan s) ≤ buffer)%nat;
  sim_current : current_used s;
  sim_open : dropped s = false →
    at_ st = on_air s ∧ at_phase s ≠ Finished ∧ outs = received s ++ chan s ++ pending s;
  sim_gone : dropped s = true → chan s = [] ∧ received s `prefix_of` outs;
}.

Lemma simulates_spawned : simulates spawned subscribed [].
Proof. constructor; cbn; auto; try lia; done. Qed.

(** What the specification makes of an event. *)
Definition spec_see (ev : option task_event) (st : subscriber) (outs : list published_message) :
    subscriber * list published_message :=
  match ev with
  | Some ev =>
      let '(st, out) := task_step want_topic routing_key_filter node_id st ev in
      (st, outs ++ match out with Some m => [m] | None => [] end)
  | None => (st, outs)
  end.

(** Once the receiver is gone nothing is sent. *)
Lemma spec_see_closed ev st outs :
  closed st = true → ∃ st', spec_see ev st outs = (st', outs) ∧ closed st' = true.
Proof.
  destruct st as [a c]. cbn. intros ->. destruct ev as [ev|]; [|by eexists].
  destruct a, ev; cbn; rewrite ?app_nil_r; by eexists.
Qed.

Lemma step_dropped m s s' :
  step m s = Some s' → dropped s = true → chan s = [] → current_used s →
  dropped s' = true ∧ chan s' = [] ∧ received s' = received s ∧ current_used s'.
Proof.
  destruct s as [p c u q ch r d]. unfold current_used. cbn. intros Hs -> -> Hcur.
  destruct m; cbn in Hs; try done.
  - unfold task_turn in Hs. cbn in Hs. destruct p; repeat case_match; by simplify_eq.
  - destruct p; try done. by destruct ok; simplify_eq.
  - by destruct u; simplify_eq.
  - by destruct u; simplify_eq.
Qed.

Ltac sim := constructor; cbn; rewrite ?app_nil_r; auto; try done.

(** Each move of the subscription is one of the specification, or none. *)
Lemma simulates_step m s s' st outs :
  simulates s st outs → step m s = Some s' →
  let '(st', outs') := spec_see (sees m s) st outs in simulates s' st' outs'.
Proof.
  intros [Hcl Hroom Hcur Hopen Hgone] Hs. destruct (dropped s) eqn:Hd.
  { destruct (Hgone eq_refl) as [Hc Hp].
    destruct (step_dropped m s s' Hs Hd Hc Hcur) as (Hd' & Hc' & Hr' & Hcur').
    destruct (spec_see_closed (sees m s) st outs Hcl) as (st' & -> & Hcl').
    constructor; rewrite ?Hd', ?Hc', ?Hr'; cbn; auto; try lia; done. }
  destruct (Hopen eq_refl) as (Hat & Hfin & Houts). clear Hopen Hgone.
  destruct s as [p c u q ch r d], st as [a cl]. unfold current_used in Hcur. cbn -[Nat.ltb] in *. subst d cl a outs.
  destruct m as [|ok|raw|n| |]; cbn -[Nat.ltb] in Hs.
  - destruct p; try done; cbn -[Nat.ltb] in *.
    + destruct c; simplify_eq; sim.
    + injection Hs as <-. sim.
    + subst c. destruct q as [|raw q]; [destruct u; [done|]|]; injection Hs as <-; cbn; [sim|].
      constructor; cbn; auto; [by destruct (handle raw)|intros _|done].
      destruct (handle raw) as [out|]; cbn; rewrite ?app_nil_r, <- ?app_assoc; done.
    + destruct (Nat.ltb_spec (length ch) buffer) as [Hlt|]; [|done]. injection Hs as <-. sim.
      rewrite length_app. cbn. lia.
    + subst c. injection Hs as <-. sim.
  - destruct p; try done. cbn in *. subst c. destruct ok; injection Hs as <-; sim.
  - destruct u; [|done]. injection Hs as <-. sim.
  - destruct u; [|done]. injection Hs as <-. sim.
  - destruct ch as [|m ch]; [done|]. injection Hs as <-. cbn in Hroom. sim; [lia|intros _].
    by rewrite <- app_assoc.
  - injection Hs as <-. destruct p; cbn; try destruct c; sim;
      solve [lia|intros _; split; [done|by apply prefix_app_r]].
Qed.

Lemma simulates_moves ms s s' st outs :
  simulates s st outs → run_moves ms s = Some s' →
  simulates s' (run st (seen ms s)).1 (outs ++ (run st (seen ms s)).2).
Proof.
  revert s st outs. induction ms as [|m ms IH]; intros s st outs Hsim Hrun; cbn in Hrun |- *.
  { injection Hrun as <-. by rewrite app_nil_r. }
  destruct (step m s) as [s1|] eqn:Hs; [|done]. pose proof (simulates_step m s s1 st outs Hsim Hs) as Hsim1.
  rewrite run_task_app. cbn [fst snd]. destruct (sees m s) as [ev|]; cbn in Hsim1 |- *; [|by apply IH].
  destruct (task_step want_topic routing_key_filter node_id st ev) as [st1 out]. cbn.
  rewrite app_assoc. destruct out; by apply IH.
Qed.

(** What the task reads is, in order, some of what arrived. *)
Lemma seen_arrived ms s s' :
  run_moves ms s = Some s' →
  omap incoming (seen ms s) ++ inbox s' `sublist_of` inbox s ++ arrived ms.
Proof.
  revert s. induction ms as [|m ms IH]; intros s Hrun; cbn in Hrun |- *.
  { injection Hrun as <-. by rewrite app_nil_r. }
  destruct (step m s) as [s1|] eqn:Hs; [|done]. specialize (IH s1 Hrun).
  rewrite omap_app, <- app_assoc. destruct s as [p c u q ch r d].
  assert (Hone : omap incoming (match sees m (Sub p c u q ch r d) with Some ev => [ev] | None => [] end) ++ inbox s1
    `sublist_of` q ++ match m with Arrives raw => [raw] | _ => [] end).
  { destruct m as [|ok|raw|n| |]; cbn in Hs |- *; rewrite ?app_nil_r.
    - unfold task_turn in Hs. cbn in Hs. destruct p; repeat case_match; by simplify_eq.
    - destruct p; try done. destruct ok; simplify_eq; cbn; [apply sublist_nil_l|done].
    - destruct u; by simplify_eq.
    - destruct u; simplify_eq. apply sublist_take.
    - destruct ch, d; by simplify_eq.
    - destruct d; by simplify_eq. }
  etrans; [apply sublist_app; [done|exact IH]|]. rewrite app_assoc.
  etrans; [apply sublist_app; [exact Hone|done]|]. rewrite <- app_assoc. by destruct m.
Qed.

(** ** It delivers *)

(** The task at work and the receiver taking messages. *)
Definition works (s s' : subscription) : Prop :=
  step TaskTurn s = Some s' ∨ step Receives s = Some s'.

(** Connected, with its receiver there. *)
Record flowing (s : subscription) : Prop := {
  flowing_up : up s = true;
  flowing_open : dropped s = false;
  flowing_air : on_air s = Connected;
  flowing_current : current_used s;
}.

(** What is still to be delivered of what arrived. *)
Definition undelivered (s : subscription) : list published_message :=
  chan s ++ pending s ++ omap handle (inbox s).

Definition work_left (s : subscription) : nat :=
  5 * length (inbox s) + length (chan s) +
  match at_phase s with Top => 3 | Looking => 2 | Waiting => 1 | Sending _ => 4 | _ => 0 end.

Lemma works_flowing s s' :
  flowing s → works s s' →
  flowing s' ∧ (work_left s' < work_left s)%nat ∧
  received s' ++ undelivered s' = received s ++ undelivered s.
Proof.
  destruct s as [p c u q ch r d]. intros [Hu Hd Ha Hc] Hs. unfold on_air, current_used in *. cbn in Hu, Hd, Ha, Hc.
  subst u d. unfold work_left, undelivered, pending. destruct Hs as [Hs|Hs]; cbn -[Nat.ltb] in Hs.
  - unfold task_turn in Hs. cbn -[Nat.ltb] in Hs. destruct p; try done.
    + subst c || destruct c; try done. injection Hs as <-. cbn. split; [done|]. split; [lia|done].
    + injection Hs as <-. cbn. split; [done|]. split; [lia|done].
    + destruct q as [|raw q]; [done|]. injection Hs as <-. destruct (handle raw) as [out|] eqn:Hh; cbn; rewrite Hh;
        (split; [done|]); (split; [lia|done]).
    + destruct (length ch <? buffer)%nat; [|done]. injection Hs as <-. cbn. split; [done|].
      rewrite length_app. cbn. split; [lia|]. by rewrite <- !app_assoc.
  - destruct ch as [|m ch]; [done|]. injection Hs as <-. cbn. split; [done|]. split; [lia|]. by rewrite <- app_assoc.
Qed.

Lemma flowing_works s :
  (0 < buffer)%nat → flowing s → (∃ s', works s s') ∨ at_phase s = Waiting ∧ undelivered s = [].
Proof.
  destruct s as [p c u q ch r d]. intros Hb [Hu Hd Ha Hc]. unfold on_air, current_used in *. cbn in Hu, Hd, Ha, Hc.
  subst u d. destruct ch as [|m ch].
  - destruct p; try done; try (left; eexists; left; reflexivity).
    + destruct q as [|raw q]; [by right|]. left. eexists. left. reflexivity.
    + left. eexists. left. cbn -[Nat.ltb]. by rewrite (proj2 (Nat.ltb_lt _ _) Hb).
  - left. eexists. right. reflexivity.
Qed.

Lemma flowing_drains s :
  (0 < buffer)%nat → flowing s →
  sn works s ∧
  ∀ s', rtc works s s' → flowing s' ∧
    (nf works s' → at_phase s' = Waiting ∧ undelivered s' = [] ∧ received s' = received s ++ undelivered s).
Proof.
  intros Hb Hf. split.
  - remember (work_left s) as n eqn:Hn. revert s Hf Hn.
    induction (lt_wf n) as [n _ IH]. intros s Hf ->. constructor. intros s' Hs.
    destruct (works_flowing s s' Hf Hs) as (Hf' & Hlt & _). by apply (IH (work_left s')).
  - intros s' Hrtc.
    assert (flowing s' ∧ received s' ++ undelivered s' = received s ++ undelivered s) as [Hf' Hsame].
    { induction Hrtc as [|s1 s2 s3 H12 _ IH]; [done|].
      destruct (works_flowing s1 s2 Hf H12) as (Hf2 & _ & Hsame). destruct (IH Hf2) as [? Hs3].
      split; [done|]. by rewrite Hs3. }
    split; [done|]. intros Hnf. destruct (flowing_works s' Hb Hf') as [Hred|[Hw Hu]]; [by destruct Hnf|].
    split; [done|]. split; [done|]. by rewrite <- Hsame, Hu, app_nil_r.
Qed.
End subscription.
