(* ===== verification/PubSubProperties.v ===== *)
(** * Properties of publish and subscribe

    The wire envelope, the forwarding task and the topic bus
    ([src/src/envelope.rs], [src/src/pubsub.rs], [src/src/state/topic.rs]). *)

From S2P Require Import Prelude Redis RedisRef Client Keys Text Envelope PubSub Broker Subscription.

(** C20. The envelope is a bijection between messages and their wire forms: a
    byte string decodes to a routing key and a payload exactly when it is
    their encoding and the routing key is UTF-8, so nothing is lost, nothing
    has two forms, and every other byte string is refused.  Every message has
    a wire form but one whose routing key is longer than 65535 bytes, whose
    length the error names. *)
Theorem envelope_roundtrip (routing_key : option string) (payload wire : string) :
  (decode wire = Ok (routing_key, payload) ↔
   encode routing_key payload = Ok wire ∧ match routing_key with Some rk => utf8 rk = true | None => True end) ∧
  ∀ e, encode routing_key payload = Err e ↔
    ∃ rk, routing_key = Some rk ∧ 65535 < Z.of_nat (String.length rk) ∧
      e = TooLong (Z.of_nat (String.length rk)).
Proof.
  split; [split; [apply decode_encode|]; intros [Hw Hu]; by apply encode_decode|].
  intros e. pose proof (encode_fits routing_key payload) as Hfit. unfold len in Hfit. split.
  - intros He. by rewrite He in Hfit.
  - intros (rk & -> & Hrk & ->). destruct (encode (Some rk) payload) as [w|e]; [lia|].
    by destruct Hfit as (k & [= <-] & _ & ->).
Qed.

(** What a subscription asks for: the publishes of its topic, with its
    routing key. *)
Definition wanted (topic : string) (filter : option string) (node_id : string) (ev : traffic) :
    option published_message :=
  match ev with
  | Publishes t rk payload =>
      if bool_decide (t = topic) && match filter with Some want => bool_decide (rk = Some want) | None => true end
      then Some (PublishedMessage topic rk payload node_id) else None
  | _ => None
  end.

(** Routing keys are text, and other programs put no envelope on the topic's
    channel. *)
Definition own_traffic (channel : string) (ev : traffic) : Prop :=
  match ev with
  | Publishes _ (Some rk) _ => utf8 rk = true
  | Foreign ch raw => ch = channel → is_ok (decode raw) = false
  | _ => True
  end.

(** C21. A subscription delivers: once [subscribe_async] has opened it, while
    its connection lasts and whatever the deployment's replicas publish
    through [publish_async] and the topic bus and other programs through
    Redis, its task sends on exactly the publishes to its topic that were
    passed on and have the routing key it asks for - all of them if it asks
    for none - in order, routing key and payload intact; every publish that
    was answered was passed on, and only a routing key longer than 65535 bytes
    is refused, with its own error. *)
Theorem subscription_delivers {Srv B C : Type} `{BrokerLaws Srv B C} (prefix topic node_id : string)
    (filter : option string) (connect : result C string) (c : C) (task : subscriber)
    (evs : list traffic) (b b' : B) (rs : list (result unit cluster_error)) :
  is_empty prefix = false → fresh connect →
  subscribe_async connect redis_subscribe prefix topic = Ok (c, task) →
  run_traffic prefix evs b = (b', rs) →
  Forall (own_traffic (channel_name prefix topic)) evs →
  ∃ got, reaches evs rs got ∧ (Forall (λ r, is_ok r = true) rs → got = evs) ∧
    run_task topic filter node_id task (Incoming ∘ snd <$> arrivals c b b') =
      (task, omap (wanted topic filter node_id) got).
Proof.
  intros Hprefix Hfresh Hsub Hrun Hown. unfold subscribe_async in Hsub.
  destruct (open_channel _ _ _ _ _) as [c0|] eqn:Hopen; [|done]. injection Hsub as -> <-.
  pose proof (open_subscribed connect _ _ _ c Hfresh Hopen) as Hhears.
  destruct (traffic_arrivals prefix evs c b b' rs Hrun) as (got & Hgot & ->).
  exists got. split; [done|]. split; [by apply reaches_all|].
  rewrite (list_fmap_compose snd Incoming), run_incoming. f_equal.
  pose proof (reaches_own _ _ _ _ Hgot Hown) as Hgots. clear -Hprefix Hhears Hgots.
  induction Hgots as [|ev got [Hev Hfit] _ IH]; [done|].
  csimpl. rewrite <- IH. clear IH.
  destruct ev as [t rk payload|t payload|ch raw]; cbn [wire_of wanted own_traffic fits] in *.
  - pose proof (encode_fits rk payload) as Hok. destruct (encode rk payload) as [wire|e] eqn:Henc.
    2: { destruct Hok as (k & -> & Hk & _). lia. }
    cbn. rewrite Hhears, bool_decide_channel. case_bool_decide as Ht; [subst t|done].
    csimpl. unfold handle_message. rewrite (encode_decode rk payload wire) by (by destruct rk).
    destruct filter as [want|]; [|done]. by case_bool_decide.
  - cbn. rewrite Hhears, bool_decide_eq_false_2; [done|by apply channels_apart].
  - cbn. rewrite Hhears. case_bool_decide as Hch; [|done]. csimpl. unfold handle_message.
    specialize (Hev Hch). by destruct (decode raw).
Qed.

(** Two topics and two routing keys, the bus, junk and a lost request. *)
Definition busy_channel : list traffic :=
  [Publishes "t" (Some "a") "one"; Foreign "app:topic:t" "junk"; Publishes "t" None "two";
   Publishes "u" (Some "a") "other"; BusPublishes "t" "bus"; Publishes "t" (Some "a") "lost";
   Publishes "t" (Some "b") "three"; Publishes "t" (Some "a") ""].

Definition flaky_broker : ref_broker :=
  RefBroker [("app:topic:t", "old")]
    [Answered 1; Answered 0; AnswerLost "io"; Answered 1; Answered 1; RequestLost "io"].

Lemma subscription_delivers_witness :
  ∃ c task b' rs,
    subscribe_async ref_connect (redis_subscribe (B := ref_broker)) "app:" "t" = Ok (c, task) ∧
    run_traffic "app:" busy_channel flaky_broker = (b', rs) ∧
    is_ok <$> rs = [true; true; false; true; true; false; true; true] ∧
    ∃ got, reaches busy_channel rs got ∧ (Forall (λ r, is_ok r = true) rs → got = busy_channel) ∧
      run_task "t" (Some "a") "n1" task (Incoming ∘ snd <$> arrivals c flaky_broker b') =
        (task, omap (wanted "t" (Some "a") "n1") got).
Proof.
  do 4 eexists. split; [reflexivity|]. split; [reflexivity|]. split; [reflexivity|].
  eapply (subscription_delivers "app:" "t" "n1" (Some "a") ref_connect).
  - reflexivity.
  - exact ref_connect_fresh.
  - reflexivity.
  - reflexivity.
  - repeat constructor.
Defined.

(** Through any losses of its connection and reconnects, a subscription
    sends only messages that came in, each at most as often and in the order
    they came, and none once its receiver is gone. *)
Theorem forwarding_faithful (topic node_id : string) (filter : option string)
    (evs later : list task_event) :
  let st := (run_task topic filter node_id subscribed evs).1 in
  (run_task topic filter node_id subscribed evs).2 `sublist_of`
    omap (handle_message topic filter node_id) (omap incoming evs) ∧
  (run_task topic filter node_id subscribed (evs ++ ReceiverDropped :: later)).2 =
    (run_task topic filter node_id subscribed evs).2.
Proof.
  intros st. split; [apply run_sublist|]. rewrite run_task_app. cbn [snd]. fold st.
  assert (Hnone : (run_task topic filter node_id st (ReceiverDropped :: later)).2 = []).
  { destruct st as [a c].
    assert (Hopen : ∀ st', closed st' = true →
      (let '(st, outs) := run_task topic filter node_id st' later in (st, outs)).2 = []).
    { intros st' Hc. pose proof (run_closed topic filter node_id st' later Hc).
      by destruct (run_task topic filter node_id st' later). }
    destruct a; [by apply (Hopen (Subscriber Connected true))|
                 by apply (Hopen (Subscriber Disconnected true))|].
    clear. induction later as [|ev later IH]; [done|]. cbn in *. by destruct (run_task _ _ _ _ later). }
  rewrite Hnone. apply app_nil_r.
Qed.

(** C22. A subscription with its bounded channel implements the forwarding
    machine: whatever arrives, is lost or reconnects, however the task, the
    connection and the receiver take turns, the channel never holds more than
    its buffer; while the receiver is there, what it has taken, what the
    channel holds and what waits to be sent is, in order, exactly what the
    machine sends of the events the task saw, and the task is where the
    machine is; and at all times the receiver has got a prefix of that - some
    of the wanted messages that arrived, each once, in order. *)
Theorem subscription_refines (topic node_id : string) (filter : option string) (buffer : nat)
    (ms : list move) (s : subscription) :
  run_moves topic filter node_id buffer ms spawned = Some s →
  let evs := seen topic filter node_id buffer ms spawned in
  let spec := run_task topic filter node_id subscribed evs in
  (length (chan s) ≤ buffer)%nat ∧ closed spec.1 = dropped s ∧
  (dropped s = false →
     at_ spec.1 = on_air s ∧ at_phase s ≠ Finished ∧ spec.2 = received s ++ chan s ++ pending s) ∧
  received s `prefix_of` spec.2 ∧
  received s `sublist_of` omap (handle_message topic filter node_id) (arrived ms).
Proof.
  intros Hrun evs spec.
  destruct (simulates_moves _ _ _ _ _ _ _ _ _ (simulates_spawned buffer) Hrun)
    as [Hcl Hroom _ Hopen Hgone].
  fold evs spec in Hcl, Hopen, Hgone. rewrite app_nil_l in Hopen, Hgone.
  assert (Hpre : received s `prefix_of` spec.2).
  { destruct (dropped s); [by apply Hgone|]. destruct (Hopen eq_refl) as (_ & _ & ->). by eexists. }
  do 4 (split; [done|]). transitivity spec.2; [destruct Hpre as [k Hk]; rewrite Hk; by apply sublist_inserts_r|].
  etrans; [apply run_sublist|]. apply sublist_omap.
  pose proof (seen_arrived _ _ _ _ _ _ _ Hrun) as Ha. cbn [inbox spawned] in Ha. rewrite app_nil_l in Ha.
  fold evs in Ha. etrans; [|exact Ha]. by apply sublist_inserts_r.
Qed.

(** A message waits for room, the connection is lost with one message
    unreadable, and the receiver goes while another waits. *)
Definition busy_subscription : list move :=
  let wire m := match encode None m with Ok w => w | Err _ => "" end in
  [TaskTurn; Arrives (wire "one"); Arrives "junk"; Arrives (wire "two"); TaskTurn; TaskTurn; TaskTurn;
   TaskTurn; TaskTurn; TaskTurn; TaskTurn; Receives; Arrives (wire "three"); Lost 0; TaskTurn; TaskTurn; TaskTurn;
   TaskTurn; TaskTurn; Reconnected true; Arrives (wire "four"); TaskTurn; TaskTurn; Drops; TaskTurn].

Lemma subscription_refines_witness :
  ∃ s,
    run_moves "t" None "n1" 1 busy_subscription spawned = Some s ∧
    received s = [PublishedMessage "t" None "one" "n1"] ∧ at_phase s = Finished ∧
    (length (chan s) ≤ 1)%nat ∧
    received s `sublist_of` omap (handle_message "t" None "n1") (arrived busy_subscription).
Proof.
  eexists. split; [vm_compute; reflexivity|]. split; [reflexivity|]. split; [reflexivity|].
  eassert (Hrun : run_moves "t" None "n1" 1 busy_subscription spawned = Some _) by (vm_compute; reflexivity).
  destruct (subscription_refines "t" "n1" None 1 busy_subscription _ Hrun) as (Hroom & _ & _ & _ & Hs).
  split; [exact Hroom|exact Hs].
Defined.

(** C23. A subscription delivers: connected, with room for a message and its
    receiver there, the task and the receiver always come to rest, and only
    when everything that had arrived and is wanted has been taken, in order -
    from any state, the channel full included. *)
Theorem subscription_drains (topic node_id : string) (filter : option string) (buffer : nat) (s : subscription) :
  (0 < buffer)%nat → flowing s →
  sn (works topic filter node_id buffer) s ∧
  ∀ s', rtc (works topic filter node_id buffer) s s' → nf (works topic filter node_id buffer) s' →
    at_phase s' = Waiting ∧ inbox s' = [] ∧ chan s' = [] ∧
    received s' = received s ++ chan s ++ pending s ++ omap (handle_message topic filter node_id) (inbox s).
Proof.
  intros Hb Hf. destruct (flowing_drains topic filter node_id buffer s Hb Hf) as [Hsn Hend].
  split; [exact Hsn|]. intros s' Hr Hnf. destruct (Hend s' Hr) as [Hf' Hrest].
  destruct (Hrest Hnf) as (Hw & Hu & Hrec). split; [done|].
  split; [|split; [by apply app_eq_nil in Hu as [? _]|exact Hrec]].
  destruct (inbox s') as [|raw q] eqn:Hi; [done|]. destruct Hnf. eexists. left. cbn. unfold task_turn.
  rewrite Hw, Hi. reflexivity.
Qed.

(** The channel is full and the task waits to send. *)
Definition full_subscription : subscription :=
  let m x := PublishedMessage "t" None x "n1" in
  Sub (Sending (m "two")) false true ["junk"] [m "one"] [] false.

Lemma subscription_drains_witness :
  sn (works "t" None "n1" 1) full_subscription ∧
  ∀ s', rtc (works "t" None "n1" 1) full_subscription s' → nf (works "t" None "n1" 1) s' →
    received s' = [PublishedMessage "t" None "one" "n1"; PublishedMessage "t" None "two" "n1"].
Proof.
  destruct (subscription_drains "t" "n1" None 1 full_subscription) as [Hsn Hend]; [lia|by constructor|].
  split; [exact Hsn|]. intros s' Hr Hnf. by destruct (Hend s' Hr Hnf) as (_ & _ & _ & ->).
Defined.

(** What the task does not do: it looks at its receiver only between messages.
    Once the receiver of a quiet topic's subscription is gone, the task keeps
    its connection until a message arrives or the connection is lost. *)
Theorem dropped_receiver_unnoticed (topic node_id : string) (filter : option string) (buffer : nat)
    (ms : list move) (s s' : subscription) :
  at_phase s = Waiting → inbox s = [] → up s = true → dropped s = true →
  Forall (λ m, match m with Arrives _ | Lost _ => False | _ => True end) ms →
  run_moves topic filter node_id buffer ms s = Some s' → s' = s ∧ ms = [].
Proof.
  intros Hp Hi Hu Hd Hms. destruct Hms as [|m ms Hm _]; cbn; [by intros [= <-]|].
  destruct m; cbn; try done; unfold task_turn; rewrite ?Hp, ?Hi, ?Hu, ?Hd; try done. by destruct (chan s).
Qed.

Lemma dropped_receiver_unnoticed_witness :
  let s := Sub Waiting false true [] [] [] true in
  run_moves "t" None "n1" 1 [TaskTurn; TaskTurn; Drops] spawned = Some s ∧
  ∀ s', run_moves "t" None "n1" 1 [] s = Some s' → s' = s ∧ ([] : list move) = [].
Proof.
  split; [reflexivity|]. intros s'. by apply dropped_receiver_unnoticed.
Defined.

(** What a bus subscription to the topics of [P] hears. *)
Definition bus_wanted (P : string → bool) (ev : traffic) : option message :=
  match ev with BusPublishes t payload => if P t then Some (Message t payload) else None | _ => None end.

(** C24. The topic bus delivers by topic: while its connection lasts and
    whatever is published, a subscription to a literal topic gets exactly what
    was passed on of the bus's messages on it, one to [p*] exactly those
    whose topic has the prefix [p] - separators in the rest included - in
    order, under their logical topic, whatever the queue group; provided the
    configured prefix has no pattern characters, which the bus does not
    escape, and other programs keep off the bus's channels. *)
Theorem topic_bus_delivers {Srv B C : Type} `{RedisLaws Srv} `{!Broker B C} `{!BrokerLaws Srv B C}
    (prefix p : string) (queue : option string) (connect : result C string) (evs : list traffic) (b b' : B)
    (rs : list (result unit cluster_error)) :
  is_empty prefix = false → literal prefix → literal p → fresh connect →
  run_traffic prefix evs b = (b', rs) →
  Forall (λ ev, match ev with Foreign ch _ => starts_with (prefix +:+ ":") ch = false | _ => True end) evs →
  ∀ pattern P,
    pattern = p ∧ P = (λ t, bool_decide (t = p)) ∨ pattern = p +:+ "*" ∧ P = starts_with p →
    ∀ c stream, bus_subscribe connect redis_psubscribe prefix pattern queue = Ok (c, stream) →
    ∃ got, reaches evs rs got ∧ (Forall (λ r, is_ok r = true) rs → got = evs) ∧
      stream (arrivals c b b') = omap (bus_wanted P) got.
Proof.
  intros Hprefix Hlit Hp Hfresh Hrun Hown pattern P HP c stream Hsub.
  unfold bus_subscribe in Hsub.
  destruct (open_channel _ _ _ _ _) as [c0|] eqn:Hopen; [|done]. injection Hsub as -> <-.
  pose proof (open_psubscribed connect _ _ _ c Hfresh Hopen) as Hhears.
  assert (Hpat : ∀ t, glob pattern t = P t).
  { intros t. destruct HP as [[-> ->]|[-> ->]]; [by rewrite <- glob_escape_self, Hp|].
    by rewrite <- glob_escape_star, Hp. }
  assert (Hsel : ∀ ch, hears c ch = true → starts_with (prefix +:+ ":") ch = true).
  { intros ch. rewrite Hhears, bus_glob by done. unfold starts_with. by destruct (strip_prefix _ ch). }
  assert (Htopic : ∀ t, hears c (full_topic prefix t) = P t).
  { intros t. rewrite Hhears, bus_glob, full_topic_eq, strip_prefix_append by done. apply Hpat. }
  destruct (traffic_arrivals prefix evs c b b' rs Hrun) as (got & Hgot & ->).
  exists got. split; [done|]. split; [by apply reaches_all|].
  pose proof (reaches_own _ _ _ _ Hgot Hown) as Hgots. clear -Hprefix Hsel Htopic Hgots.
  unfold bus_stream. induction Hgots as [|ev got [Hev _] _ IH]; [done|].
  csimpl. rewrite <- IH. clear IH.
  destruct ev as [t rk payload|t payload|ch raw]; cbn [wire_of bus_wanted] in *.
  - destruct (encode rk payload) as [wire|e]; [|done]. cbn.
    destruct (hears c (channel_name prefix t)) eqn:Hh; [|done].
    apply Hsel in Hh. by rewrite topic_channel_off in Hh.
  - cbn. rewrite Htopic. destruct (P t); [|done]. csimpl. f_equal. by apply bus_message_topic.
  - cbn. destruct (hears c ch) eqn:Hh; [|done]. apply Hsel in Hh. congruence.
Qed.

Lemma topic_bus_delivers_witness :
  let evs := [BusPublishes "orders/new" "1"; Publishes "orders/new" None "x"; BusPublishes "orders/old" "2";
              Foreign "apptopic:orders" "junk"; BusPublishes "users" "3"] in
  ∃ c stream b' rs,
    bus_subscribe ref_connect (redis_psubscribe (B := ref_broker)) "app" "orders/*" (Some "q") = Ok (c, stream) ∧
    run_traffic "app" evs (RefBroker [] []) = (b', rs) ∧
    ∃ got, reaches evs rs got ∧ (Forall (λ r, is_ok r = true) rs → got = evs) ∧
      stream (arrivals c (RefBroker [] []) b') = omap (bus_wanted (starts_with "orders/")) got.
Proof.
  intros evs. do 4 eexists. split; [reflexivity|]. split; [reflexivity|].
  eapply (topic_bus_delivers "app" "orders/" (Some "q") ref_connect).
  - reflexivity.
  - reflexivity.
  - reflexivity.
  - exact ref_connect_fresh.
  - reflexivity.
  - repeat constructor.
  - right. split; reflexivity.
  - reflexivity.
Defined.
