(* ===== verification/Config.v ===== *)
(** * Operator configuration ([src/src/config.rs])

    [serde_json] parses the text and the [serde] derive fills the defaults:
    [raw_config] is the object as it was written, [deserialize] the derive,
    and the parser a parameter.  Files, environment variables and the hashes
    behind a random node id are arguments. *)

From Stdlib Require Import Ascii.
From S2P Require Import Prelude Text PubSub.

Record tls_config : Type := TlsConfig { ca_cert : option string }.

Record config : Type := RedisBackendConfig {
  url : string;
  username : option string;
  password : option string;
  tls : option tls_config;
  key_prefix : string;
  lease_ttl_ms : Z;
  peer_ttl_ms : Z;
  node_id : option string;
  lease_renew_before_expiry_percent : Z;
  peer_refresh_interval_ms : option Z;
  subscribe_pattern_buffer : Z;
  service_name : string;
  kv_sweep_interval_ms : Z;
}.

Definition default_key_prefix : string := "mcpg:cluster:".
Definition default_lease_ttl_ms : Z := 30000.
Definition default_peer_ttl_ms : Z := 60000.
Definition default_renew_pct : Z := 80.
Definition default_subscribe_pattern_buffer : Z := 256.
Definition default_service_name : string := "mcpg".
Definition default_kv_sweep_interval_ms : Z := 30000.

(** The fields that were written. *)
Record raw_config : Type := RawConfig {
  raw_url : string;
  raw_username : option string;
  raw_password : option string;
  raw_tls : option tls_config;
  raw_key_prefix : option string;
  raw_lease_ttl_ms : option Z;
  raw_peer_ttl_ms : option Z;
  raw_node_id : option string;
  raw_renew_pct : option Z;
  raw_refresh_ms : option Z;
  raw_buffer : option Z;
  raw_service_name : option string;
  raw_sweep_ms : option Z;
}.

Definition deserialize (r : raw_config) : config :=
  {| url := raw_url r; username := raw_username r; password := raw_password r; tls := raw_tls r;
     key_prefix := default default_key_prefix (raw_key_prefix r);
     lease_ttl_ms := default default_lease_ttl_ms (raw_lease_ttl_ms r);
     peer_ttl_ms := default default_peer_ttl_ms (raw_peer_ttl_ms r);
     node_id := raw_node_id r;
     lease_renew_before_expiry_percent := default default_renew_pct (raw_renew_pct r);
     peer_refresh_interval_ms := raw_refresh_ms r;
     subscribe_pattern_buffer := default default_subscribe_pattern_buffer (raw_buffer r);
     service_name := default default_service_name (raw_service_name r);
     kv_sweep_interval_ms := default default_kv_sweep_interval_ms (raw_sweep_ms r) |}.

Inductive config_error : Type :=
| InvalidJson (e : string)
| EmptyUrl
| InvalidUrlScheme
| TlsRequiresTlsScheme
| TlsFileRead (path source : string)
| EmptyKeyPrefix
| InvalidLeaseTtl
| InvalidPeerTtl
| EmptyServiceName
| InvalidBuffer.

(** The [Display] of an error. *)
Definition error_text (e : config_error) : string :=
  match e with
  | InvalidJson e => "invalid cluster.redis config JSON: " +:+ e
  | EmptyUrl => "cluster.redis: url is empty"
  | InvalidUrlScheme => "cluster.redis: url must start with redis:// or rediss://"
  | TlsRequiresTlsScheme =>
      "cluster.redis: a `tls` block requires a `rediss://` url — a plaintext `redis://` " +:+
      "connection would silently ignore it (use `rediss://`, or drop `tls`)"
  | TlsFileRead path source =>
      "cluster.redis: tls: failed to read PEM file `" +:+ path +:+ "`: " +:+ source
  | EmptyKeyPrefix => "cluster.redis: key_prefix is empty (use a distinct namespace per deployment)"
  | InvalidLeaseTtl => "cluster.redis: lease_ttl_ms must be > 0"
  | InvalidPeerTtl => "cluster.redis: peer_ttl_ms must be > 0"
  | EmptyServiceName => "cluster.redis: service_name is empty"
  | InvalidBuffer => "cluster.redis: subscribe_pattern_buffer must be > 0"
  end.

Definition is_some {A} (o : option A) : bool := match o with Some _ => true | None => false end.

Definition validate (c : config) : result unit config_error :=
  if is_blank (url c) then Err EmptyUrl
  else if negb (starts_with "redis://" (url c)) && negb (starts_with "rediss://" (url c)) then
    Err InvalidUrlScheme
  else if is_some (tls c) && negb (starts_with "rediss://" (url c)) then Err TlsRequiresTlsScheme
  else if is_empty (key_prefix c) then Err EmptyKeyPrefix
  else if lease_ttl_ms c =? 0 then Err InvalidLeaseTtl
  else if peer_ttl_ms c =? 0 then Err InvalidPeerTtl
  else if is_blank (service_name c) then Err EmptyServiceName
  else if subscribe_pattern_buffer c =? 0 then Err InvalidBuffer
  else Ok tt.

Definition parse (from_str : string → result raw_config string) (s : string) : result config config_error :=
  let? raw := map_err InvalidJson (from_str s) in
  let cfg := deserialize raw in
  let? _ := validate cfg in
  Ok cfg.

(** ** Credentials in a URL *)

(** The characters that end the authority. *)
Definition ends_authority (a : ascii) : bool := str_has a "/?#".

Definition redact_redis_url (url : string) : string :=
  match split_once "://" url with
  | None => url
  | Some (scheme, rest) =>
      let '(authority, tail) := break_at ends_authority rest in
      match after_last "@"%char authority with
      | Some host => scheme +:+ "://" +:+ host +:+ tail
      | None => url
      end
  end.

(** What [Debug] writes of each field. *)
Inductive debug_value : Type :=
| DStr (s : string)
| DOptStr (o : option string)
| DInt (z : Z)
| DOptInt (o : option Z)
| DTls (o : option tls_config).

Definition fmt (c : config) : list (string * debug_value) :=
  [("url", DStr (redact_redis_url (url c)));
   ("username", DOptStr (username c));
   ("password", DOptStr ((λ _, "***") <$> password c));
   ("tls", DTls (tls c));
   ("key_prefix", DStr (key_prefix c));
   ("lease_ttl_ms", DInt (lease_ttl_ms c));
   ("peer_ttl_ms", DInt (peer_ttl_ms c));
   ("node_id", DOptStr (node_id c));
   ("lease_renew_before_expiry_percent", DInt (lease_renew_before_expiry_percent c));
   ("peer_refresh_interval_ms", DOptInt (peer_refresh_interval_ms c));
   ("subscribe_pattern_buffer", DInt (subscribe_pattern_buffer c));
   ("service_name", DStr (service_name c));
   ("kv_sweep_interval_ms", DInt (kv_sweep_interval_ms c))].

(** ** Derived settings *)

(** [{:x}] zero-padded to [n] digits, of a value of at most [n] digits. *)
Fixpoint hex_pad (n : nat) (z : Z) : string :=
  match n with
  | O => ""
  | S n => hex_pad n (z / 16) +:+ hex_digit (z mod 16)
  end.

(** What is written to a hasher: a [u64] or a [u128]. *)
Inductive hash_write : Type := WriteU64 (z : Z) | WriteU128 (z : Z).

(** [finish] is what [DefaultHasher] makes of the writes so far, whose
    algorithm is not specified; [now_ns] is the clock and [seq] the process's
    counter. *)
Definition random_suffix (finish : list hash_write → Z) (now_ns seq : Z) : string :=
  let writes := [WriteU128 now_ns; WriteU64 seq] in
  let h1 := finish writes in
  let writes := writes ++
    [WriteU64 ((seq + 0x9E3779B97F4A7C15) mod 2 ^ 64);
     WriteU128 (now_ns * 0xBF58476D1CE4E5B9 mod 2 ^ 128)] in
  let h2 := finish writes in
  hex_pad 16 h1 +:+ hex_pad 16 h2.

Definition resolved_node_id (hostname : option string) (random : string) (c : config) : string :=
  match node_id c with
  | Some id => id
  | None =>
      match hostname with
      | Some h =>
          if negb (is_blank h) then service_name c +:+ "-" +:+ h
          else service_name c +:+ "-" +:+ random
      | None => service_name c +:+ "-" +:+ random
      end
  end.

Definition effective_peer_refresh_interval_ms (c : config) : Z :=
  match peer_refresh_interval_ms c with
  | Some ms => ms
  | None => Z.max (peer_ttl_ms c / 2) 1
  end.

(** [read_file] is [std::fs::read]. *)
Definition resolve_pem (read_file : string → result string string) (value : string) :
    result string config_error :=
  if starts_with "-----BEGIN" (trim_start value) then Ok value
  else map_err (TlsFileRead value) (read_file value).

Definition tls_root_cert_pem (read_file : string → result string string) (c : config) :
    result (option string) config_error :=
  match (match tls c with Some t => ca_cert t | None => None end) with
  | Some ca => let? pem := resolve_pem read_file ca in Ok (Some pem)
  | None => Ok None
  end.

(** ** Facts *)

Lemma hex_pad_length n z : String.length (hex_pad n z) = n.
Proof.
  revert z. induction n as [|n IH]; intros z; [done|]. cbn [hex_pad]. rewrite append_length, IH.
  assert (0 ≤ z mod 16 < 16) as Hz by (apply Z.mod_pos_bound; lia).
  assert (Hd : ∀ k : nat, (k < 16)%nat → String.length (hex_digit (Z.of_nat k)) = 1%nat).
  { intros k Hk. do 16 (destruct k as [|k]; [reflexivity|]). lia. }
  specialize (Hd (Z.to_nat (z mod 16))). rewrite Z2Nat.id in Hd by lia. rewrite Hd by lia. lia.
Qed.

Lemma break_at_stop p s : match (break_at p s).2 with String a _ => p a = true | EmptyString => True end.
Proof.
  induction s as [|a s IH]; cbn; [done|]. destruct (p a) eqn:E; [done|]. by destruct (break_at p s).
Qed.

Lemma break_at_clear p s : ∀ a, str_has a (break_at p s).1 = true → p a = false.
Proof.
  induction s as [|b s IH]; cbn; [done|]. destruct (p b) eqn:E; [done|].
  destruct (break_at p s) as [x y]. cbn in *. intros a [Ha%bool_decide_eq_true|Ha]%orb_true_iff;
    [congruence|by apply IH].
Qed.

Definition free_of (p : ascii → bool) (s : string) : Prop := ∀ a, str_has a s = true → p a = false.

Definition stops (p : ascii → bool) (s : string) : Prop :=
  match s with String a _ => p a = true | EmptyString => True end.

Lemma break_at_split p x y : free_of p x → stops p y → break_at p (x +:+ y) = (x, y).
Proof.
  intros Hx Hy. induction x as [|a x IH].
  - rewrite append_nil_l. destruct y as [|b y]; cbn in *; [done|]. by rewrite Hy.
  - rewrite append_cons. cbn. rewrite (Hx a) by (cbn; by rewrite bool_decide_eq_true_2).
    rewrite IH; [done|]. intros b Hb. apply Hx. cbn. rewrite Hb. apply orb_true_r.
Qed.

(** The first ["://"] is found where the scheme has no colon. *)
Lemma split_once_scheme scheme rest :
  str_has ":"%char scheme = false → split_once "://" (scheme +:+ "://" +:+ rest) = Some (scheme, rest).
Proof.
  induction scheme as [|a s IH]; intros Hc.
  - rewrite append_nil_l. destruct rest; reflexivity.
  - cbn in Hc. apply orb_false_iff in Hc as [Ha Hs]. apply bool_decide_eq_false in Ha.
    rewrite append_cons. cbn [split_once].
    assert (strip_prefix "://" (String a (s +:+ "://" +:+ rest)) = None) as ->.
    { cbn. by rewrite decide_False by congruence. }
    by rewrite IH.
Qed.

Lemma after_last_app c x y :
  str_has c y = false → after_last c (x +:+ String c y) = Some y.
Proof.
  intros Hy. induction x as [|a x IH].
  - rewrite append_nil_l. cbn.
    assert (after_last c y = None) as ->.
    { destruct (after_last c y) as [r|] eqn:E; [|done].
      apply after_last_Some in E as (x & -> & _). rewrite str_has_app in Hy. cbn in Hy.
      rewrite bool_decide_eq_true_2, orb_true_r in Hy; done. }
    by rewrite decide_True.
  - rewrite append_cons. cbn. by rewrite IH.
Qed.

Lemma after_last_absent c y : str_has c y = false → after_last c y = None.
Proof.
  intros Hy. destruct (after_last c y) as [r|] eqn:E; [|done].
  apply after_last_Some in E as (x & -> & _). rewrite str_has_app in Hy. cbn in Hy.
  rewrite bool_decide_eq_true_2, orb_true_r in Hy; done.
Qed.

(** The parts of a URL. *)
Definition url_of (scheme userinfo host tail : string) : string := scheme +:+ "://" +:+ userinfo +:+ host +:+ tail.

(** A user part ends in [@] and has no character that ends the authority. *)
Definition userinfo_ok (u : string) : Prop := u = "" ∨ ∃ x, u = x +:+ "@" ∧ free_of ends_authority x.

Lemma redact_url scheme userinfo host tail :
  str_has ":"%char scheme = false → userinfo_ok userinfo →
  free_of ends_authority host → str_has "@"%char host = false → stops ends_authority tail →
  redact_redis_url (url_of scheme userinfo host tail) = url_of scheme "" host tail.
Proof.
  intros Hs Hu Hh Hat Ht. unfold redact_redis_url, url_of.
  rewrite split_once_scheme by done.
  destruct Hu as [->|(x & -> & Hx)].
  - rewrite !append_nil_l, break_at_split by done. by rewrite after_last_absent.
  - assert ((x +:+ "@") +:+ host +:+ tail = (x +:+ String "@" host) +:+ tail) as ->
      by (by rewrite !append_assoc).
    rewrite break_at_split; [|..|done].
    + by rewrite after_last_app, append_nil_l by done.
    + intros a Ha. rewrite str_has_app in Ha. apply orb_true_iff in Ha as [Ha|Ha]; [by apply Hx|].
      cbn in Ha. apply orb_true_iff in Ha as [Ha%bool_decide_eq_true|Ha]; [by subst|by apply Hh].
Qed.

(** The defaults are valid. *)
Lemma validate_Ok c :
  validate c = Ok tt ↔
    is_blank (url c) = false ∧
    (starts_with "redis://" (url c) = true ∨ starts_with "rediss://" (url c) = true) ∧
    (is_some (tls c) = true → starts_with "rediss://" (url c) = true) ∧
    is_empty (key_prefix c) = false ∧ lease_ttl_ms c ≠ 0 ∧ peer_ttl_ms c ≠ 0 ∧
    is_blank (service_name c) = false ∧ subscribe_pattern_buffer c ≠ 0.
Proof.
  unfold validate. rewrite <- !Z.eqb_neq.
  repeat match goal with |- context [if ?b then _ else _] => destruct b eqn:? end;
    rewrite ?andb_true_iff, ?andb_false_iff, ?negb_true_iff, ?negb_false_iff in *;
    intuition (congruence || done).
Qed.

Lemma parse_valid (from_str : string → result raw_config string) (s : string) (c : config) :
  parse from_str s = Ok c ↔
    ∃ raw, from_str s = Ok raw ∧ c = deserialize raw ∧
      is_blank (url c) = false ∧
      (starts_with "redis://" (url c) = true ∨ starts_with "rediss://" (url c) = true) ∧
      (is_some (tls c) = true → starts_with "rediss://" (url c) = true) ∧
      is_empty (key_prefix c) = false ∧ lease_ttl_ms c ≠ 0 ∧ peer_ttl_ms c ≠ 0 ∧
      is_blank (service_name c) = false ∧ subscribe_pattern_buffer c ≠ 0.
Proof.
  unfold parse. destruct (from_str s) as [raw|e]; cbn [map_err]; [|naive_solver].
  destruct (validate (deserialize raw)) as [[]|e] eqn:Hv.
  - split.
    + intros [= <-]. exists raw. split; [done|]. split; [done|]. by apply validate_Ok.
    + by intros (? & [= <-] & -> & _).
  - split; [done|]. intros (? & [= <-] & -> & Hok%validate_Ok). congruence.
Qed.
