(* ===== verification/ConfigProperties.v ===== *)
(** * Properties of the configuration ([src/src/config.rs]) *)

From Stdlib Require Import Ascii.
From S2P Require Import Prelude Text Config.

(** ** What a configuration text may say

    Stated of what was written, field by field. *)

Definition has_scheme (scheme url : string) : Prop := ∃ rest, url = scheme +:+ "://" +:+ rest.

(** What can be wrong with it, in the order of the checks. *)
Definition complaints (r : raw_config) : list (Prop * config_error) :=
  [(is_blank (raw_url r) = true, EmptyUrl);
   (¬ (has_scheme "redis" (raw_url r) ∨ has_scheme "rediss" (raw_url r)), InvalidUrlScheme);
   (raw_tls r ≠ None ∧ ¬ has_scheme "rediss" (raw_url r), TlsRequiresTlsScheme);
   (raw_key_prefix r = Some "", EmptyKeyPrefix);
   (raw_lease_ttl_ms r = Some 0, InvalidLeaseTtl);
   (raw_peer_ttl_ms r = Some 0, InvalidPeerTtl);
   (∃ name, raw_service_name r = Some name ∧ is_blank name = true, EmptyServiceName);
   (raw_buffer r = Some 0, InvalidBuffer)].

(** The first complaint that holds. *)
Inductive first_of {E} : list (Prop * E) → E → Prop :=
| first_here (P : Prop) e l : P → first_of ((P, e) :: l) e
| first_later (P : Prop) e e' l : ¬ P → first_of l e' → first_of ((P, e) :: l) e'.

Definition none_of {E} (l : list (Prop * E)) : Prop := Forall (λ v, ¬ v.1) l.

(** A field is what was written, or the documented default. *)
Definition reads {A} (written : option A) (dflt v : A) : Prop :=
  match written with Some x => v = x | None => v = dflt end.

Definition config_of (r : raw_config) (c : config) : Prop :=
  url c = raw_url r ∧ username c = raw_username r ∧ password c = raw_password r ∧ tls c = raw_tls r ∧
  reads (raw_key_prefix r) "mcpg:cluster:" (key_prefix c) ∧
  reads (raw_lease_ttl_ms r) 30000 (lease_ttl_ms c) ∧
  reads (raw_peer_ttl_ms r) 60000 (peer_ttl_ms c) ∧
  node_id c = raw_node_id r ∧
  reads (raw_renew_pct r) 80 (lease_renew_before_expiry_percent c) ∧
  peer_refresh_interval_ms c = raw_refresh_ms r ∧
  reads (raw_buffer r) 256 (subscribe_pattern_buffer c) ∧
  reads (raw_service_name r) "mcpg" (service_name c) ∧
  reads (raw_sweep_ms r) 30000 (kv_sweep_interval_ms c).

Lemma config_of_deserialize r c : config_of r c ↔ c = deserialize r.
Proof.
  assert (Hreads : ∀ A (o : option A) d v, reads o d v ↔ v = default d o) by (by intros ? []).
  unfold config_of. rewrite !Hreads. unfold deserialize. split; [|by intros ->].
  destruct c. cbn. by intros (-> & -> & -> & -> & -> & -> & -> & -> & -> & -> & -> & -> & ->).
Qed.

(** [validate] as a list of checks. *)
Fixpoint first_err {E} (l : list (bool * E)) : result unit E :=
  match l with [] => Ok tt | (b, e) :: l => if b then Err e else first_err l end.

Lemma first_err_first {E} (bs : list (bool * E)) (l : list (Prop * E)) :
  Forall2 (λ b v, (b.1 = true ↔ v.1) ∧ b.2 = v.2) bs l →
  match first_err bs with Ok _ => none_of l | Err e => first_of l e end.
Proof.
  induction 1 as [|[b e] [P e'] bs l [Hb He] _ IH]; cbn in *; [constructor|]. subst e'.
  destruct b; [by apply first_here, Hb|].
  assert (¬ P) by (by intros ?%Hb). destruct (first_err bs); by constructor.
Qed.

Lemma first_of_det {E} (l : list (Prop * E)) e e' : first_of l e → first_of l e' → e = e'.
Proof. induction 1; inversion 1; subst; by auto. Qed.

Lemma first_of_none {E} (l : list (Prop * E)) e : first_of l e → ¬ none_of l.
Proof. induction 1; inversion 1; subst; by auto. Qed.

Lemma has_scheme_starts scheme s : starts_with (scheme +:+ "://") s = true ↔ has_scheme scheme s.
Proof. rewrite starts_with_spec. unfold has_scheme. by setoid_rewrite append_assoc. Qed.

Lemma default_is {A} (dflt v : A) (o : option A) : dflt ≠ v → default dflt o = v ↔ o = Some v.
Proof. destruct o; cbn; [|done]. split; congruence. Qed.

Lemma validate_complains r :
  match validate (deserialize r) with Ok _ => none_of (complaints r) | Err e => first_of (complaints r) e end.
Proof.
  set (c := deserialize r).
  change (validate c) with (first_err
    [(is_blank (url c), EmptyUrl);
     (negb (starts_with "redis://" (url c)) && negb (starts_with "rediss://" (url c)), InvalidUrlScheme);
     (is_some (tls c) && negb (starts_with "rediss://" (url c)), TlsRequiresTlsScheme);
     (is_empty (key_prefix c), EmptyKeyPrefix); (lease_ttl_ms c =? 0, InvalidLeaseTtl);
     (peer_ttl_ms c =? 0, InvalidPeerTtl); (is_blank (service_name c), EmptyServiceName);
     (subscribe_pattern_buffer c =? 0, InvalidBuffer)]).
  apply first_err_first. unfold complaints, c, deserialize.
  cbn [url tls key_prefix lease_ttl_ms peer_ttl_ms service_name subscribe_pattern_buffer].
  repeat (apply Forall2_cons; split; [cbn [fst snd]; split; [|reflexivity]|]);
    [..|by apply Forall2_nil]; rewrite ?Z.eqb_eq; try by apply default_is.
  - done.
  - rewrite <- !has_scheme_starts, andb_true_iff, !negb_true_iff, <- !not_true_iff_false. cbn. tauto.
  - rewrite <- has_scheme_starts, andb_true_iff, negb_true_iff, <- not_true_iff_false.
    destruct (raw_tls r); naive_solver.
  - rewrite <- (default_is default_key_prefix) by done. by destruct (default _ _).
  - destruct (raw_service_name r); cbn; naive_solver.
Qed.

(** C32. Parsing accepts exactly the well-formed configurations: one that is
    no JSON object of the schema is refused with the parser's words; any
    other is accepted when nothing is wrong with what it says - a URL of one
    of the two schemes, TLS settings only with the TLS one, no empty prefix,
    no zero TTL or buffer, no blank service name - and then every field is
    what was written or its documented default; else it is refused with the
    first thing that is wrong. *)
Theorem parse_accepts (from_str : string → result raw_config string) (s : string) :
  match from_str s with
  | Err e => parse from_str s = Err (InvalidJson e)
  | Ok raw =>
      (∀ c, parse from_str s = Ok c ↔ none_of (complaints raw) ∧ config_of raw c) ∧
      (∀ e, parse from_str s = Err e ↔ first_of (complaints raw) e)
  end.
Proof.
  unfold parse. destruct (from_str s) as [raw|e]; [|done]. cbn [map_err].
  pose proof (validate_complains raw) as Hv. setoid_rewrite config_of_deserialize.
  destruct (validate (deserialize raw)) as [[]|e] eqn:Hval.
  - split; [naive_solver|]. intros e. split; [done|]. by intros ?%first_of_none.
  - split; [split; [done|]; by intros [Hn _]; apply first_of_none in Hv|].
    intros e'. split; [by intros [= <-]|]. intros He. f_equal. by eapply first_of_det.
Qed.

(** [c] with another URL and password. *)
Definition with_credentials (url : string) (password : option string) (c : config) : config :=
  RedisBackendConfig url (username c) password (tls c) (key_prefix c) (lease_ttl_ms c) (peer_ttl_ms c)
    (node_id c) (lease_renew_before_expiry_percent c) (peer_refresh_interval_ms c)
    (subscribe_pattern_buffer c) (service_name c) (kv_sweep_interval_ms c).

(** C33. [Debug] output does not depend on the credentials: configurations
    that differ only in the password and in the URL's user part are written
    alike - provided the user part has no character that ends a URL's
    authority. *)
Theorem debug_hides_credentials (c : config) (scheme user1 user2 host tail pw1 pw2 : string) :
  str_has ":"%char scheme = false → userinfo_ok user1 → userinfo_ok user2 →
  free_of ends_authority host → str_has "@"%char host = false → stops ends_authority tail →
  fmt (with_credentials (url_of scheme user1 host tail) (Some pw1) c) =
  fmt (with_credentials (url_of scheme user2 host tail) (Some pw2) c).
Proof.
  intros Hs Hu1 Hu2 Hh Hat Ht. unfold fmt. cbn [with_credentials url username password tls key_prefix
    lease_ttl_ms peer_ttl_ms node_id lease_renew_before_expiry_percent peer_refresh_interval_ms
    subscribe_pattern_buffer service_name kv_sweep_interval_ms fmap option_fmap option_map].
  by rewrite !redact_url.
Qed.

(** Decides [free_of] and the parts of a concrete URL. *)
Lemma free_of_list p s : forallb (λ a, negb (p a)) (String.list_ascii_of_string s) = true → free_of p s.
Proof.
  intros Hs a Ha. induction s as [|b s IH]; [done|]. cbn in *.
  apply andb_true_iff in Hs as [Hb Hs]. apply orb_true_iff in Ha as [->%bool_decide_eq_true|Ha];
    [by apply negb_true_iff|by apply IH].
Qed.

Definition sample : config :=
  deserialize (RawConfig "redis://h:6379" None None None None None None None None None None None None).

Lemma debug_hides_credentials_witness :
  fmt (with_credentials (url_of "rediss" "u:secret@" "h:6380" "/0?x=a@b") (Some "p1") sample) =
  fmt (with_credentials (url_of "rediss" ("" : string) "h:6380" "/0?x=a@b") (Some "p2") sample).
Proof.
  apply (debug_hides_credentials sample "rediss" "u:secret@" "" "h:6380" "/0?x=a@b" "p1" "p2").
  - reflexivity.
  - right. exists "u:secret". split; [reflexivity|]. by apply free_of_list.
  - by left.
  - by apply free_of_list.
  - reflexivity.
  - reflexivity.
Defined.

(** A password in the URL with an unescaped [/], [?] or [#] is not
    redacted: the URL is written whole. *)
Theorem unescaped_password_shown (scheme user password host : string) (c : ascii) :
  str_has ":"%char scheme = false → ends_authority c = true →
  free_of ends_authority user → str_has "@"%char user = false →
  let url := url_of scheme (user +:+ String c (password +:+ "@")) host "" in
  redact_redis_url url = url.
Proof.
  intros Hs Hc Hu Hat. unfold redact_redis_url, url_of. rewrite split_once_scheme by done.
  rewrite append_assoc, append_cons, break_at_split by done. by rewrite after_last_absent.
Qed.

Lemma unescaped_password_shown_witness :
  redact_redis_url "redis://u:pa/ss@host" = "redis://u:pa/ss@host".
Proof.
  apply (unescaped_password_shown "redis" "u:pa" "ss" "host" "/"%char).
  - reflexivity.
  - reflexivity.
  - by apply free_of_list.
  - reflexivity.
Defined.

(** A replica refreshes its registration before it expires: without an
    operator's interval, a configuration that parses has a refresh period of
    at least 1 ms and at most the peer TTL - half of it, unless that is 1 ms. *)
Theorem refresh_before_expiry (from_str : string → result raw_config string) (s : string) (c : config) :
  parse from_str s = Ok c → in_u64 (peer_ttl_ms c) → peer_refresh_interval_ms c = None →
  1 ≤ effective_peer_refresh_interval_ms c ≤ peer_ttl_ms c ∧
  (peer_ttl_ms c ≠ 1 → 2 * effective_peer_refresh_interval_ms c ≤ peer_ttl_ms c).
Proof.
  intros (raw & _ & _ & _ & _ & _ & _ & _ & Hp & _)%parse_valid [Httl _] Hnone. unfold effective_peer_refresh_interval_ms. rewrite Hnone.
  pose proof (Z.div_mod (peer_ttl_ms c) 2). pose proof (Z.mod_pos_bound (peer_ttl_ms c) 2). lia.
Qed.

Definition sample_from_str (s : string) : result raw_config string :=
  if decide (s = "ok") then
    Ok (RawConfig "redis://h:6379" None None None None None (Some 5001) None None None None None None)
  else Err "expected value".

Lemma refresh_before_expiry_witness :
  ∃ c, parse sample_from_str "ok" = Ok c ∧
    1 ≤ effective_peer_refresh_interval_ms c ≤ peer_ttl_ms c ∧
    (peer_ttl_ms c ≠ 1 → 2 * effective_peer_refresh_interval_ms c ≤ peer_ttl_ms c).
Proof.
  eexists. split; [reflexivity|].
  apply (refresh_before_expiry sample_from_str "ok"); [reflexivity|vm_compute; split; discriminate|reflexivity].
Defined.
