(* ===== verification/Peer.v ===== *)
(** * The peer registry ([src/src/peer.rs])

    Each replica registers under a key that expires and in a sorted set
    scored by that expiry; a listing reads the set, and at most every so
    often scans the keyspace for registrations of builds that know no set.
    Here are the operations of one replica.  [LegacyPeerScan]'s memory is
    state that a call takes and returns. *)

From S2P Require Import Prelude Redis Client Keys.

Record peer_registration : Type := PeerRegistration {
  address : string;
  last_seen : string;
  roles : list string;
  kv_index : bool;
}.

(** [serde_json] for [PeerRegistration] is library code: that encoding
    succeeds and decoding undoes it is what the registry relies on. *)
Class PeerJson : Type := {
  registration_to_string : peer_registration → result string string;
  registration_from_str : string → option peer_registration;
}.

Class PeerJsonLaws `{PeerJson} : Prop := {
  registration_encodes r : is_ok (registration_to_string r) = true;
  registration_roundtrip r s : registration_to_string r = Ok s → registration_from_str s = Some r;
}.

(** [ClusterPeer] of [mcpg_cluster_api]; the health is always [Healthy]. *)
Record cluster_peer : Type := ClusterPeer {
  peer_node_id : string;
  peer_address : string;
  peer_last_seen : string;
  peer_roles : list string;
}.

Abbreviation registration := (string * peer_registration)%type.

(** [LEGACY_SCAN_INTERVAL], and [LegacyPeerScan]: durations in nanoseconds,
    an [Instant] in milliseconds. *)
Definition LEGACY_SCAN_INTERVAL : Z := 30 * 1000000000.

Record legacy_scan : Type := LegacyPeerScan {
  max_age : Z;
  last : option (Z * list registration);
}.

Definition legacy_new (peer_ttl : Z) : legacy_scan :=
  LegacyPeerScan (Z.min LEGACY_SCAN_INTERVAL peer_ttl) None.

Definition forget (l : legacy_scan) : legacy_scan := LegacyPeerScan (max_age l) None.

(** [Instant::now()]: time as it passes, whatever the wall clock says. *)
Definition instant {Srv E} : client Srv E Z := λ w, (w, Ok (w_time w)).

Definition peers_prefix (prefix : string) : string := prefix +:+ "peers/".

Section peer.
Context {Srv : Type} `{RedisServer Srv} `{PeerJson} `{Chrono}.
Local Abbreviation io A := (client Srv cluster_error A).

Definition unavailable (what e : string) : cluster_error := BackendUnavailable (what +:+ ": " +:+ e).

(** [keys.into_iter().zip(values)]: what decodes, by node id. *)
Fixpoint decode_registrations (prefix : string) (keys : list string) (values : list (option string)) :
    list registration :=
  match keys, values with
  | key :: keys, value :: values =>
      let rest := decode_registrations prefix keys values in
      match value with
      | Some raw =>
          match registration_from_str raw with
          | Some reg =>
              (match strip_prefix (peers_prefix prefix) key with Some id => id | None => key end, reg)
                :: rest
          | None => rest
          end
      | None => rest
      end
  | _, _ => []
  end.

Definition read_registrations (prefix : string) (keys : list string) : io (list registration) :=
  match keys with
  | [] => cret []
  | _ =>
      let! r := cmap_err (unavailable "peer MGET") (query (MGET keys)) in
      cret (decode_registrations prefix keys (match r with ROpts l => l | _ => [] end))
  end.

(** The keyspace scan's loop, with the keys so far. *)
Fixpoint scan_peers (fuel : nat) (pattern : string) (scan : Z) (keys : list string) : io (list string) :=
  match fuel with
  | O => cfail OutOfFuel
  | S fuel =>
      let! (next, batch) := cmap_err (unavailable "peer SCAN") (query_scan scan pattern 1000) in
      let keys := keys ++ batch in
      if next =? 0 then cret keys else scan_peers fuel pattern next keys
  end.

(** A scan young enough answers by itself. *)
Definition fresh (now : Z) (l : legacy_scan) : option (list registration) :=
  match last l with
  | Some (at_, found) => if from_millis (now - at_) <? max_age l then Some found else None
  | None => None
  end.

Definition registrations (fuel : nat) (prefix : string) (l : legacy_scan) :
    io (legacy_scan * list registration) :=
  let! now := instant in
  match fresh now l with
  | Some found => cret (l, found)
  | None =>
      let! keys := scan_peers fuel (peers_pattern prefix) 0 [] in
      let! found := read_registrations prefix keys in
      let! now := instant in
      cret (LegacyPeerScan (max_age l) (Some (now, found)), found)
  end.

Definition register_peer (prefix node_id address : string) (peer_ttl_ms : Z) (roles : list string) :
    io unit :=
  let! wall := system_now in
  let registration := PeerRegistration address (rfc3339 wall) roles true in
  match registration_to_string registration with
  | Err e => cfail (Internal ("peer registration encode: " +:+ e))
  | Ok json =>
      let key := peer_key prefix node_id in
      let! now := now_ms in
      let! _ := cmap_err (unavailable ("peer SET `" +:+ key +:+ "`"))
        (pipeline [SET key json false (Some peer_ttl_ms);
                   ZADD (peers_index_key prefix) (sat_add_u64 now peer_ttl_ms) node_id]) in
      cret tt
  end.

Definition deregister_peer (prefix node_id : string) : io unit :=
  let key := peer_key prefix node_id in
  let! _ := cmap_err (unavailable ("peer DEL `" +:+ key +:+ "`"))
    (pipeline [DEL key; ZREM (peers_index_key prefix) node_id]) in
  cret tt.

Definition list_registrations (fuel : nat) (prefix : string) (l : legacy_scan) :
    io (legacy_scan * list registration) :=
  let index_key := peers_index_key prefix in
  let! now := now_ms in
  let! rs := cmap_err (unavailable "peer ZRANGEBYSCORE")
    (pipeline [ZRANGEBYSCORE index_key (Excl now) PosInf None;
               ZREMRANGEBYSCORE index_key NegInf (Incl now)]) in
  let ids := match rs with RStrs ids :: _ => ids | _ => [] end in
  let! found := read_registrations prefix (peer_key prefix <$> ids) in
  let! (l, old) := registrations fuel prefix l in
  cret (l, found ++ filter (λ r : registration, kv_index r.2 = false ∧ r.1 ∉ ids) old).

Definition list_peers (fuel : nat) (prefix : string) (l : legacy_scan) :
    io (legacy_scan * list cluster_peer) :=
  let! (l, found) := list_registrations fuel prefix l in
  cret (l, (λ r : registration, ClusterPeer r.1 (address r.2) (last_seen r.2) (roles r.2)) <$> found).
End peer.

(** ** The refresher

    Tokio's [interval]: a tick waits for its deadline; the next deadline is
    one period after it, or - [MissedTickBehavior::Delay] - one period after
    now when the tick comes more than 5 ms late. *)

Definition tick_delay {Srv E} (period deadline : Z) : client Srv E Z :=
  let! now := instant in
  let! _ := sleep (deadline - now) in
  let! now := instant in
  cret (if deadline + 5 <? now then now + period else deadline + period).

Section refresher.
Context {Srv : Type} `{RedisServer Srv} `{PeerJson} `{Chrono}.

(** [spawn_peer_refresher_lazy]'s loop for as many ticks as it is told how
    [get_or_init_conn] fares, each best-effort. *)
Fixpoint refresher {E} (connections : list bool) (prefix node_id address : string)
    (peer_ttl_ms period deadline : Z) : client Srv E Z :=
  match connections with
  | [] => cret deadline
  | connected :: connections =>
      let! deadline := tick_delay period deadline in
      let! _ :=
        (if connected then cresult (register_peer prefix node_id address peer_ttl_ms [])
         else cret (Ok tt)) in
      refresher connections prefix node_id address peer_ttl_ms period deadline
  end.
End refresher.
