(* ===== verification/PeerRun.v ===== *)
(** * The peer registry on a quiet network

    What a registration, a departure and a listing ([Peer.v]) do when nobody
    else acts in between. *)

From S2P Require Import Prelude Redis Client DbFacts Keys Footprint KvScan Peer.

(** ** Pipelines on a quiet network *)

Section pipelines.
Context {Srv : Type} `{RedisLaws Srv}.
Local Abbreviation P := (srv_policy (Srv := Srv)).

Fixpoint d_pipeline (t : Z) (cs : list cmd) (d : db) : db * list reply :=
  match cs with
  | [] => (d, [])
  | c :: cs =>
      let '(d, r) := documented P t c d in
      let '(d, rs) := d_pipeline t cs d in
      (d, r :: rs)
  end.

Lemma pipeline_quiet cs (w : world Srv) d rs :
  quiet w → d_pipeline (w_time w) cs (view (w_time w) (w_srv w)) = (d, rs) →
  ∃ s, pipeline cs w =
         (set_srv s w, match first_error rs with Some e => Err e | None => Ok rs end) ∧
       view (w_time w) s = d.
Proof.
  intros Hq Hd.
  assert (∃ s, send_all cs w = (set_srv s w, Ok rs) ∧ view (w_time w) s = d) as (s & Hs & Hv).
  2: { exists s. split; [|done]. unfold pipeline, cbind. rewrite Hs. by destruct (first_error rs). }
  revert w d rs Hq Hd. induction cs as [|c cs IH]; intros w d rs Hq Hd; cbn in Hd.
  { injection Hd as <- <-. exists (w_srv w). by destruct w. }
  destruct (documented P (w_time w) c (view (w_time w) (w_srv w))) as [d1 r] eqn:Hdoc.
  destruct (d_pipeline (w_time w) cs d1) as [d2 rs'] eqn:Hrest. injection Hd as <- <-.
  destruct (invoke_quiet_view (pcall c) w d1 (Ok r)) as (s1 & Hs1 & Hv1);
    [done|cbn; by rewrite Hdoc|].
  destruct (IH (set_srv s1 w) d2 rs') as (s & Hs & Hv); [done|cbn; by rewrite Hv1|].
  exists s. cbn [send_all]. unfold cbind at 1. rewrite Hs1. unfold cbind at 1. rewrite Hs. done.
Qed.
End pipelines.

(** ** The registry's keys *)

Section names.
Context (prefix : string).

Lemma peer_key_split id : peer_key prefix id = peers_prefix prefix +:+ id.
Proof. unfold peer_key, peers_prefix. by rewrite append_assoc. Qed.

Lemma strip_peer_key id : strip_prefix (peers_prefix prefix) (peer_key prefix id) = Some id.
Proof. rewrite peer_key_split. apply strip_prefix_append. Qed.

Lemma peer_key_ne_index id : peer_key prefix id ≠ peers_index_key prefix.
Proof. unfold peer_key, peers_index_key. by intros ?%append_inj_l. Qed.

Lemma peer_key_inj id id' : peer_key prefix id = peer_key prefix id' → id = id'.
Proof. rewrite !peer_key_split. apply append_inj_l. Qed.
End names.

(** ** Time and the clock across the registry's calls *)

Section passing.
Context {Srv : Type} `{RedisServer Srv} `{PeerJson} (prefix : string).

Lemma forwards_scan_peers fuel pat c keys : forwards (scan_peers (Srv := Srv) fuel pat c keys).
Proof. revert c keys. induction fuel as [|fuel IH]; intros; cbn [scan_peers]; forwards. Qed.

Lemma forwards_instant {E} : forwards (Srv := Srv) (instant (E := E)).
Proof. by intros w. Qed.

Lemma forwards_read keys : forwards (read_registrations (Srv := Srv) prefix keys).
Proof. unfold read_registrations. forwards. Qed.

Lemma forwards_registrations fuel l : forwards (registrations (Srv := Srv) fuel prefix l).
Proof.
  pose proof forwards_scan_peers. pose proof forwards_read. pose proof @forwards_instant.
  unfold registrations. forwards.
Qed.

Lemma forwards_listing fuel l : forwards (list_registrations (Srv := Srv) fuel prefix l).
Proof.
  pose proof forwards_registrations. pose proof forwards_read. unfold list_registrations. forwards.
Qed.

Lemma steady_scan_peers fuel pat c keys : steady (scan_peers (Srv := Srv) fuel pat c keys).
Proof.
  revert c keys. induction fuel as [|fuel IH]; intros c keys; cbn [scan_peers]; [done|].
  apply steady_bind; [by apply steady_map_err, steady_request|]. intros [next batch]. by case_match.
Qed.

Lemma steady_read keys : steady (read_registrations (Srv := Srv) prefix keys).
Proof.
  destruct keys; [done|]. apply steady_bind; [by apply steady_map_err, steady_request|done].
Qed.

Lemma steady_listing fuel l : steady (list_registrations (Srv := Srv) fuel prefix l).
Proof.
  unfold list_registrations, registrations. apply steady_bind; [done|]. intros now.
  apply steady_bind; [apply steady_map_err, steady_pipeline|]. intros rs.
  apply steady_bind; [apply steady_read|]. intros found. apply steady_bind; [|by intros []].
  apply steady_bind; [done|]. intros now'. case_match; [done|].
  apply steady_bind; [apply steady_scan_peers|]. intros keys. by apply steady_bind; [apply steady_read|].
Qed.
End passing.

Section registry.
Context {Srv : Type} `{RedisLaws Srv} `{PeerJson} `{Chrono} (prefix : string).
Local Abbreviation P := (srv_policy (Srv := Srv)).
Local Abbreviation pk := (peers_index_key prefix).

(** The pattern of the keyspace scan, which is not escaped, matches the
    registrations alone when the prefix has no pattern characters. *)
Lemma peers_pattern_match k :
  glob_escape prefix = prefix →
  glob (peers_pattern prefix) k = starts_with (peers_prefix prefix) k.
Proof.
  intros Hlit. rewrite <- glob_escape_star. unfold peers_pattern, peers_prefix.
  rewrite glob_escape_app, Hlit. cbn. by rewrite append_assoc.
Qed.

(** ** What the database holds *)

(** The registration under a node's key. *)
Definition reg_at (d : db) (id : string) : option peer_registration :=
  match d !! peer_key prefix id with
  | Some (RVal (RStr raw) _) => registration_from_str raw
  | _ => None
  end.

(** The set has the node as unexpired at local time [now]. *)
Definition registered (now : Z) (d : db) (id : string) : Prop :=
  ∃ x, zset_of d pk !! id = Some x ∧ now < x.

#[export] Instance registered_dec now d id : Decision (registered now d id).
Proof.
  destruct (zset_of d pk !! id) as [x|] eqn:E.
  - destruct (decide (now < x)) as [Hlt|Hge]; [left; by exists x|].
    right. intros (x' & Hx & Hlt). naive_solver.
  - right. intros (x' & Hx & _). congruence.
Defined.

(** ** Reading *)

Lemma reads_mget ks : reads (Srv := Srv) (MGET ks).
Proof. by intros ??. Qed.

Definition raw_value (d : db) (k : string) : option string :=
  match d !! k with Some (RVal (RStr v) _) => Some v | _ => None end.

Lemma read_registrations_quiet keys (w : world Srv) :
  quiet w →
  ∃ s, read_registrations prefix keys w =
         (set_srv s w,
          Ok (decode_registrations prefix keys (raw_value (view (w_time w) (w_srv w)) <$> keys))) ∧
       view (w_time w) s = view (w_time w) (w_srv w) ∧
       rtc (happens_in (λ d, d = view (w_time w) (w_srv w))) (w_time w, w_srv w) (w_time w, s).
Proof.
  intros Hq. unfold read_registrations. destruct keys as [|k keys].
  { exists (w_srv w). by destruct w. }
  set (ks := k :: keys). set (d := view (w_time w) (w_srv w)).
  destruct (invoke_quiet_view (call (MGET ks)) w d (Ok (ROpts (raw_value d <$> ks)))) as (s & Hs & Hv);
    [done|by rewrite d_run_call_end|].
  exists s. unfold cbind, cmap_err, query. rewrite Hs. split; [done|]. split; [done|].
  apply rtc_once. split; [|done].
  rewrite (invoke_quiet (call (MGET ks)) w Hq) in Hs. injection Hs as <- _. exact (happens_run (w_time w) (call (MGET ks)) (w_srv w)).
Qed.

Lemma elem_of_decoded d ids id reg :
  (id, reg) ∈ decode_registrations prefix (peer_key prefix <$> ids) (raw_value d <$> (peer_key prefix <$> ids)) ↔
  id ∈ ids ∧ reg_at d id = Some reg.
Proof.
  unfold reg_at. induction ids as [|i ids IH]; cbn; [set_solver|].
  rewrite strip_peer_key. unfold raw_value at 1. rewrite elem_of_cons.
  destruct (d !! peer_key prefix i) as [[[v|z] e]|] eqn:Hk;
    [destruct (registration_from_str v) as [r|] eqn:Hr|..].
  1: rewrite elem_of_cons, pair_eq.
  all: rewrite IH; clear IH; split.
  all: intros Hin; repeat match goal with
    | Hin : _ ∨ _ |- _ => destruct Hin as [Hin|Hin]
    | Hin : _ ∧ _ |- _ => destruct Hin
    end; subst; rewrite ?Hk in *; simplify_eq; auto.
Qed.

(** ** The keyspace scan *)

Section scan.
Context (d : db) (Hlit : glob_escape prefix = prefix).
Local Abbreviation pat := (peers_pattern prefix).
Local Abbreviation same := (λ d' : db, d' = d).

Lemma scan_peers_quiet fuel c keys (w : world Srv) N :
  quiet w → view (w_time w) (w_srv w) = d →
  steps_left pat 1000 same c (w_time w, w_srv w) N → (N < fuel)%nat →
  ∃ s ks, scan_peers fuel pat c keys w = (set_srv s w, Ok (keys ++ ks)) ∧
    view (w_time w) s = d ∧
    Forall (λ k, is_Some (d !! k) ∧ starts_with (peers_prefix prefix) k = true) ks ∧
    pass_from pat 1000 same c (w_time w, w_srv w) ks.
Proof.
  revert c keys w N. induction fuel as [|fuel IH]; intros c keys w N Hq Hv HN Hfuel; [lia|].
  cbn [scan_peers].
  pose proof (scan_view (w_time w) c pat 1000 (w_srv w)) as Hv1.
  pose proof (scan_sound (w_time w) c pat 1000 (w_srv w)) as Hs1.
  destruct (scan (w_time w) c pat 1000 (w_srv w)) as [s1 [next b]] eqn:Hscan. cbn [fst snd] in *.
  assert (Hb : Forall (λ k, is_Some (d !! k) ∧ starts_with (peers_prefix prefix) k = true) b).
  { apply Forall_forall. intros k [Hk Hg]%Hs1. rewrite Hv in Hk. by rewrite <- peers_pattern_match. }
  unfold cbind at 1, cmap_err, query_scan. rewrite request_quiet by done. rewrite Hscan.
  cbn [fst snd map_err].
  destruct (Z.eqb_spec next 0) as [->|Hnext].
  - exists s1, b. split; [done|]. split; [by rewrite Hv1|]. split; [done|].
    exists (w_time w, w_srv w). split; [done|]. by eapply pass_last.
  - destruct (steps_left_step pat 1000 same c (w_time w) (w_srv w) s1 next b N Hv Hscan Hnext HN)
      as (N1 & -> & HN1).
    destruct (IH next (keys ++ b) (set_srv s1 w) N1) as (s & ks & Hrun & Hvs & Hks & Hpass);
      [done|by cbn; rewrite Hv1|done|lia|].
    exists s, (b ++ ks). rewrite Hrun, app_assoc. split; [done|]. split; [done|].
    split; [by apply Forall_app|]. by eapply pass_from_step.
Qed.

Lemma scan_peers_all (w : world Srv) :
  quiet w → view (w_time w) (w_srv w) = d →
  ∃ fuel s ks, scan_peers fuel pat 0 [] w = (set_srv s w, Ok ks) ∧ view (w_time w) s = d ∧
    ∀ k, k ∈ ks ↔ is_Some (d !! k) ∧ starts_with (peers_prefix prefix) k = true.
Proof.
  intros Hq Hv. destruct (steps_bounded pat 1000 d (w_time w, w_srv w)) as [N HN]; [lia|].
  destruct (scan_peers_quiet (S N) 0 [] w N) as (s & ks & Hrun & Hvs & Hks & (st & Hst & Hpass));
    [done|done|done|lia|].
  exists (S N), s, ks. split; [done|]. split; [done|]. intros k. split.
  - by apply (proj1 (Forall_forall _ _) Hks).
  - intros [Hk Hp]. apply (scan_complete pat 1000 k st ks); [lia|by rewrite peers_pattern_match|].
    eapply scan_pass_mono; [|exact Hpass]. by intros d' ->.
Qed.

(** All registrations under the prefix, in some order. *)
Lemma read_all_quiet (w : world Srv) :
  quiet w → view (w_time w) (w_srv w) = d →
  ∃ fuel s found,
    (let! keys := scan_peers fuel pat 0 [] in read_registrations prefix keys) w = (set_srv s w, Ok found) ∧
    view (w_time w) s = d ∧
    ∀ id reg, (id, reg) ∈ found ↔ reg_at d id = Some reg.
Proof.
  intros Hq Hv. destruct (scan_peers_all w Hq Hv) as (fuel & s1 & ks & Hrun & Hv1 & Hks).
  assert (∃ ids, ks = peer_key prefix <$> ids) as [ids ->].
  { clear Hrun. assert (Forall (λ k, ∃ id, k = peer_key prefix id) ks) as Hall.
    { apply Forall_forall. intros k [_ [id ->]%starts_with_spec]%Hks. exists id. by rewrite peer_key_split. }
    clear Hks. induction Hall as [|k ks [id ->] _ [ids ->]]; [by exists []|]. by exists (id :: ids). }
  destruct (read_registrations_quiet (peer_key prefix <$> ids) (set_srv s1 w)) as (s2 & Hread & Hv2 & _);
    [done|]. cbn [w_time w_srv set_srv] in *. rewrite Hv1 in *.
  exists fuel, s2. eexists. split; [unfold cbind; rewrite Hrun; exact Hread|]. split; [done|].
  intros id reg. rewrite elem_of_decoded. split; [by intros []|]. intros Hreg. split; [|done].
  assert (peer_key prefix id ∈ peer_key prefix <$> ids) as Hin.
  { apply Hks. split; [|rewrite peer_key_split; apply starts_with_append].
    unfold reg_at in Hreg. by destruct (d !! peer_key prefix id). }
  apply list_elem_of_fmap in Hin as (id' & ->%peer_key_inj & Hin). done.
Qed.
End scan.

(** ** Listing *)

(** What the listing's range read and its cleaning make of the set. *)
Definition purge (now : Z) (d : db) : db :=
  match d !! pk with
  | Some (RVal (RZset z) dl) =>
      put_zset pk (filter (λ p : string * Z, ¬ in_scores NegInf (Incl now) p.2) z) dl d
  | _ => d
  end.

Lemma purge_other now d k : k ≠ pk → purge now d !! k = d !! k.
Proof. intros Hk. unfold purge. repeat case_match; try done. by apply lookup_put_zset_ne. Qed.

Lemma purge_set now d id :
  zset_ok d pk →
  zset_of (purge now d) pk !! id =
    if decide (registered now d id) then zset_of d pk !! id else None.
Proof.
  unfold zset_ok, purge. destruct (d !! pk) as [[[v|z] [dl|]]|] eqn:Hk; try done; intros _.
  - rewrite zset_of_put_zset.
    assert (Hz : zset_of d pk = z) by (unfold zset_of; by rewrite Hk).
    rewrite map_lookup_filter. clear Hk. subst z.
    case_decide as Hr; [destruct Hr as (x & Hx & Hlt)|].
    + rewrite Hx. cbn. rewrite option_guard_True; [done|]. unfold in_scores, below. cbn.
      intros Hin. apply Is_true_eq_true, Z.leb_le in Hin. lia.
    + destruct (zset_of d pk !! id) as [x|] eqn:Hx; [|done]. cbn. rewrite option_guard_False; [done|].
      intros Hn. apply Hr. exists x. split; [done|].
      destruct (Z.lt_ge_cases now x) as [|Hge]; [done|]. destruct Hn. unfold in_scores, below. cbn.
      apply Is_true_eq_left, Z.leb_le. done.
  - unfold zset_of. rewrite Hk. rewrite lookup_empty. by case_decide.
Qed.

(** The ids the range read returns. *)
Lemma range_ids t now d :
  zset_ok d pk →
  ∃ ids n, d_pipeline (Srv := Srv) t
      [ZRANGEBYSCORE pk (Excl now) PosInf None; ZREMRANGEBYSCORE pk NegInf (Incl now)] d =
      (purge now d, [RStrs ids; RInt n]) ∧
    ∀ id, id ∈ ids ↔ registered now d id.
Proof.
  intros Hok. cbn. unfold with_zset, registered, purge, zset_of, zset_ok in *.
  destruct (d !! pk) as [[[v|z] [dl|]]|] eqn:Hk; try done; rewrite ?Hk.
  - do 2 eexists. split; [reflexivity|]. intros id. cbn [limited].
    rewrite list_elem_of_fmap. split.
    + intros ([x m] & -> & [Hin Hz]%list_elem_of_filter). exists x. cbn.
      apply elem_of_zitems in Hz. split; [done|]. unfold in_scores, above in Hin. cbn in Hin.
      rewrite andb_true_r in Hin. by apply Is_true_eq_true, Z.ltb_lt in Hin.
    + intros (x & Hx & Hlt). exists (x, id). split; [done|]. apply list_elem_of_filter.
      rewrite elem_of_zitems. split; [|done]. unfold in_scores, above. cbn. rewrite andb_true_r.
      by apply Is_true_eq_left, Z.ltb_lt.
  - do 2 eexists. split; [reflexivity|]. intros id. split; [set_solver|]. intros (x & Hx & _).
    by rewrite lookup_empty in Hx.
Qed.

(** A listing: the unexpired members of the set, and the older builds that
    the scan - or the memory of a young one - has outside it. *)
Lemma list_registrations_quiet (w : world Srv) l :
  let d := view (w_time w) (w_srv w) in
  let now := clock_ms w in
  glob_escape prefix = prefix → quiet w → zset_ok d pk →
  ∃ fuel s l' out,
    list_registrations fuel prefix l w = (set_srv s w, Ok (l', out)) ∧
    view (w_time w) s = purge now d ∧
    (∀ id reg, (id, reg) ∈ out ↔
       registered now d id ∧ reg_at d id = Some reg ∨
       ¬ registered now d id ∧ kv_index reg = false ∧
         match fresh (w_time w) l with
         | Some found => (id, reg) ∈ found
         | None => reg_at d id = Some reg
         end).
Proof.
  intros d now Hlit Hq Hok.
  destruct (range_ids (w_time w) now d Hok) as (ids & n & Hpipe & Hids).
  destruct (pipeline_quiet _ w _ _ Hq Hpipe) as (s1 & Hs1 & Hv1). cbn [first_error] in Hs1.
  destruct (read_registrations_quiet (peer_key prefix <$> ids) (set_srv s1 w)) as (s2 & Hs2 & Hv2 & _);
    [done|]. cbn [w_time w_srv set_srv] in Hs2, Hv2. rewrite Hv1 in Hs2, Hv2.
  assert (Hreg : ∀ id, reg_at (purge now d) id = reg_at d id).
  { intros id. unfold reg_at. rewrite purge_other; [done|]. apply peer_key_ne_index. }
  set (w2 := set_srv s2 w).
  assert (∃ fuel s l' old,
    registrations fuel prefix l w2 = (set_srv s w2, Ok (l', old)) ∧ view (w_time w) s = purge now d ∧
    ∀ id reg, (id, reg) ∈ old ↔
      match fresh (w_time w) l with Some found => (id, reg) ∈ found | None => reg_at d id = Some reg end)
    as (fuel & s3 & l' & old & Hold & Hv3 & Helem).
  { unfold registrations, cbind at 1, instant. change (w_time w2) with (w_time w).
    destruct (fresh (w_time w) l) as [found|] eqn:Hf.
    - exists 0%nat, s2, l, found. by split.
    - destruct (read_all_quiet (purge now d) Hlit w2) as (fuel & s3 & found & Hrun & Hv3 & Helem);
        [done|done|].
      exists fuel, s3. unfold cbind in *. destruct (scan_peers _ _ _ _ w2) as [w3 [ks|e]]; [|done].
      rewrite Hrun. do 2 eexists. split; [done|]. split; [done|]. intros id reg. by rewrite Helem, Hreg. }
  exists fuel, s3, l'. eexists. split.
  - unfold list_registrations. unfold cbind at 1, now_ms. fold now.
    unfold cbind at 1, cmap_err. rewrite Hs1. cbn [map_err].
    unfold cbind at 1. rewrite Hs2. change (set_srv s2 (set_srv s1 w)) with w2.
    unfold cbind at 1. rewrite Hold. done.
  - split; [done|]. intros id reg. rewrite elem_of_app, elem_of_decoded, Hids, Hreg.
    rewrite list_elem_of_filter, Helem. cbn [fst snd]. rewrite Hids. tauto.
Qed.

(** ** Registering and leaving *)

Lemma pk_zadd_ok sc id d : zset_ok (zadd_db pk sc id d) pk.
Proof. apply zset_ok_zadd. Qed.

Context `{!PeerJsonLaws}.

Lemma register_quiet id address ttl roles (w : world Srv) :
  let d := view (w_time w) (w_srv w) in
  quiet w → zset_ok d pk → 0 ≤ w_time w ≤ 2 ^ 53 → 0 < ttl ≤ 2 ^ 53 →
  ∃ s json,
    register_peer prefix id address ttl roles w = (set_srv s w, Ok tt) ∧
    registration_from_str json =
      Some (PeerRegistration address (rfc3339 (w_time w + w_skew w)) roles true) ∧
    view (w_time w) s =
      zadd_db pk (sat_add_u64 (clock_ms w) ttl) id
        (<[peer_key prefix id := RVal (RStr json) (Some (w_time w + ttl))]> d).
Proof.
  intros d Hq Hok Ht Httl.
  set (reg := PeerRegistration address (rfc3339 (w_time w + w_skew w)) roles true).
  pose proof (registration_encodes reg) as Henc.
  destruct (registration_to_string reg) as [json|e] eqn:Hjson; [|done].
  set (d1 := <[peer_key prefix id := RVal (RStr json) (Some (w_time w + ttl))]> d).
  assert (Hok1 : zset_ok d1 pk).
  { unfold d1. rewrite zset_ok_insert_ne; [done|]. apply peer_key_ne_index. }
  destruct (pipeline_quiet [SET (peer_key prefix id) json false (Some ttl);
      ZADD pk (sat_add_u64 (clock_ms w) ttl) id] w
    (zadd_db pk (sat_add_u64 (clock_ms w) ttl) id d1)
    [RStatus; RInt (if decide (is_Some (zset_of d1 pk !! id)) then 0 else 1)]) as (s & Hs & Hv).
  - done.
  - cbn [d_pipeline]. cbn [documented]. unfold d_set.
    assert ((0 <? ttl) = true) as -> by (apply Z.ltb_lt; lia).
    rewrite px_ok_range by (done || lia). cbn [andb negb fmap option_fmap option_map].
    fold d d1. change (d_zadd pk ?a ?b d1) with (documented P (w_time w) (ZADD pk a b) d1).
    by rewrite documented_zadd.
  - exists s, json. split; [|split; [by apply registration_roundtrip|done]].
    unfold register_peer. unfold cbind at 1, system_now. cbv zeta. fold reg. rewrite Hjson.
    unfold cbind at 1, now_ms. unfold cbind at 1, cmap_err. by rewrite Hs.
Qed.

Lemma deregister_quiet id (w : world Srv) :
  let d := view (w_time w) (w_srv w) in
  quiet w → zset_ok d pk →
  ∃ s, deregister_peer prefix id w = (set_srv s w, Ok tt) ∧
       view (w_time w) s = zrem_db pk id (delete (peer_key prefix id) d).
Proof.
  intros d Hq Hok. set (d1 := delete (peer_key prefix id) d).
  assert (Hok1 : zset_ok d1 pk).
  { unfold d1. rewrite zset_ok_delete_ne; [done|]. apply peer_key_ne_index. }
  destruct (pipeline_quiet [DEL (peer_key prefix id); ZREM pk id] w (zrem_db pk id d1)
    [RInt (if decide (is_Some (d !! peer_key prefix id)) then 1 else 0);
     RInt (if decide (is_Some (zset_of d1 pk !! id)) then 1 else 0)]) as (s & Hs & Hv).
  - done.
  - cbn [d_pipeline]. fold d. assert (documented P (w_time w) (DEL (peer_key prefix id)) d =
      (d1, RInt (if decide (is_Some (d !! peer_key prefix id)) then 1 else 0))) as -> by done.
    by rewrite documented_zrem.
  - exists s. split; [|done]. unfold deregister_peer. unfold cbind at 1, cmap_err. by rewrite Hs.
Qed.
End registry.
