(* ===== verification/PeerNet.v ===== *)
(** * A replica that keeps itself registered

    The refresher of [Peer.v] among other replicas that register, leave and
    list in between its requests, on a network that delivers in time. *)

From S2P Require Import Prelude Redis Client DbFacts Keys Footprint Peer PeerRun.

Section present.
Context {Srv : Type} `{RedisLaws Srv} `{PeerJson} `{!PeerJsonLaws} `{Chrono} (prefix id : string).
Local Abbreviation P := (srv_policy (Srv := Srv)).
Local Abbreviation pk := (peers_index_key prefix).
Local Abbreviation key := (peer_key prefix id).

(** The node is registered at [addr] by a build that writes the key index: its
    key lives until [dl] at least, its score in the set is [sc] at least. *)
Record present (addr : string) (roles : list string) (dl sc : Z) (d : db) : Prop := {
  present_set : zset_ok d pk;
  present_key : ∃ json e seen,
    d !! key = Some (RVal (RStr json) (Some e)) ∧ dl ≤ e ∧
    registration_from_str json = Some (PeerRegistration addr seen roles true);
  present_score : ∃ x, zset_of d pk !! id = Some x ∧ sc ≤ x;
}.

(** Another client's script, from [t0] on: it leaves the node's key and, to
    a clock at most [slack] ahead of the server's, its unexpired member of
    the set. *)
Definition leaves_peer (t0 slack : Z) (sc : script unit) : Prop :=
  ∀ t d, t0 ≤ t → zset_ok d pk →
    let d' := (d_run P t sc d).1 in
    zset_ok d' pk ∧ d' !! key = d !! key ∧
    ∀ x, zset_of d pk !! id = Some x → t + slack < x → zset_of d' pk !! id = Some x.

Lemma leaves_peer_later t0 t1 slack sc : t0 ≤ t1 → leaves_peer t0 slack sc → leaves_peer t1 slack sc.
Proof. intros Ht Hsc t d Ht1. apply Hsc. lia. Qed.

(** What the others do: a command of another node's registration, departure
    or listing, or a script that writes other keys. *)
Definition other_peer_cmd (now : Z) (c : cmd) : Prop :=
  match c with
  | SET k _ _ _ | DEL k => k ≠ key ∧ k ≠ pk
  | ZADD k _ id' | ZREM k id' => k = pk ∧ id' ≠ id
  | ZREMRANGEBYSCORE k NegInf (Incl n) => k = pk ∧ n ≤ now
  | ZRANGEBYSCORE _ _ _ _ | MGET _ => True
  | _ => False
  end.

Lemma documented_purge t now d :
  zset_ok d pk → (documented P t (ZREMRANGEBYSCORE pk NegInf (Incl now)) d).1 = purge prefix now d.
Proof.
  unfold zset_ok. cbn. unfold with_zset, purge. by destruct (d !! pk) as [[[v|z] [dl|]]|].
Qed.

Lemma purge_ok now d : zset_ok d pk → zset_ok (purge prefix now d) pk.
Proof.
  intros Hok. pose proof Hok as Hd. unfold zset_ok in Hd. unfold purge.
  destruct (d !! pk) as [[[v|z] [dl|]]|]; try done. apply zset_ok_put_zset.
Qed.

Lemma other_cmd_leaves t0 slack c :
  other_peer_cmd (t0 + slack) c → leaves_peer t0 slack (silent (pcall c)).
Proof.
  intros Hc t d Ht Hok. cbv zeta. unfold silent. rewrite d_run_bind. cbn [pcall d_run].
  pose proof (peer_key_ne_index prefix id) as Hne.
  destruct (documented P t c d) as [d' r] eqn:Hdoc. cbn [fst] in *.
  assert (Houtside : ∀ K, cmd_within K c → ¬ K key → ¬ K pk →
    zset_ok d' pk ∧ d' !! key = d !! key ∧
    ∀ x, zset_of d pk !! id = Some x → t + slack < x → zset_of d' pk !! id = Some x).
  { intros K HK Hk Hp. pose proof (documented_outside K P t c d) as Hsame. rewrite Hdoc in Hsame. cbn in Hsame.
    assert (Hpk : d' !! pk = d !! pk) by auto.
    split; [by rewrite (zset_ok_same pk d d')|]. split; [auto|]. by rewrite (zset_of_same pk d d'). }
  destruct c; cbn in Hc; try done; try (apply (Houtside (λ _, False)); [exact I|tauto|tauto]).
  - apply (Houtside (λ k', k' = k)); cbn; [done|naive_solver|naive_solver].
  - apply (Houtside (λ k', k' = k)); cbn; [done|naive_solver|naive_solver].
  - destruct Hc as [-> Hid]. rewrite documented_zadd in Hdoc by done. injection Hdoc as <- _.
    split; [apply zset_ok_zadd|]. split; [by apply lookup_zadd_ne|].
    intros x Hx _. by rewrite zset_of_zadd, lookup_insert_ne.
  - destruct Hc as [-> Hid]. rewrite documented_zrem in Hdoc by done. injection Hdoc as <- _.
    split; [by apply zset_ok_zrem|]. split; [by apply lookup_zrem_ne|].
    intros x Hx _. by rewrite zset_of_zrem, lookup_delete_ne.
  - destruct lo, hi; try done. destruct Hc as [-> Hn].
    pose proof (documented_purge t z d Hok) as Hp. rewrite Hdoc in Hp. cbn in Hp. subst d'.
    split; [by apply purge_ok|]. split; [by apply purge_other|].
    intros x Hx Hlt. rewrite purge_set by done. rewrite decide_True; [done|]. exists x. split; [done|lia].
Qed.

Lemma within_leaves t0 slack (sc : script unit) :
  within (λ k, k ≠ key ∧ k ≠ pk) sc → leaves_peer t0 slack sc.
Proof.
  intros Hsc t d _ Hok.
  assert (Hp : (d_run P t sc d).1 !! pk = d !! pk) by (eapply run_outside; [exact Hsc|tauto]).
  cbv zeta. split; [by apply (zset_ok_same pk d _ Hp)|].
  split; [eapply run_outside; [exact Hsc|tauto]|].
  by rewrite (zset_of_same pk d _ Hp).
Qed.

(** ** Requests that arrive *)

(** A network that delivers within [W] ms, each round trip's other scripts
    leaving the node alone at the time they can run. *)
Fixpoint gentle (W slack t : Z) (net : list net_event) : Prop :=
  match net with
  | [] => True
  | ev :: net =>
      ev_fate ev = Delivered ∧ Z.of_N (ev_wait ev) ≤ W ∧
      Forall (leaves_peer (t + Z.of_N (ev_wait ev)) slack) (ev_others ev) ∧
      gentle W slack (t + Z.of_N (ev_wait ev)) net
  end.

Lemma gentle_later W slack t t' net : t ≤ t' → gentle W slack t net → gentle W slack t' net.
Proof.
  revert t t'. induction net as [|ev net IH]; intros t t' Ht; cbn; [done|].
  intros (Hf & Hw & Ho & Hn). split; [done|]. split; [done|]. split.
  - eapply Forall_impl; [exact Ho|]. intros sc. apply leaves_peer_later. lia.
  - eapply IH; [|exact Hn]. lia.
Qed.

Lemma others_leave t slack others (s : Srv) :
  Forall (leaves_peer t slack) others → zset_ok (view t s) pk →
  let d' := view t (run_others t others s) in
  zset_ok d' pk ∧ d' !! key = view t s !! key ∧
  ∀ x, zset_of (view t s) pk !! id = Some x → t + slack < x → zset_of d' pk !! id = Some x.
Proof.
  intros Ho. cbv zeta. revert s. induction Ho as [|sc others Hsc _ IH]; intros s Hok; [done|].
  cbn [run_others foldl]. pose proof (Hsc t (view t s) (Z.le_refl t) Hok) as Hd. cbv zeta in Hd.
  destruct (run_view t sc s) as [Hv _]. rewrite <- Hv in Hd. destruct Hd as (Hok1 & Hk1 & Hx1).
  destruct (IH (Redis.run t sc s).1 Hok1) as (Hok2 & Hk2 & Hx2).
  split; [exact Hok2|]. split; [by rewrite <- Hk1|auto].
Qed.

(** The set does not expire. *)
Lemma set_later t t' (s : Srv) :
  t ≤ t' → zset_ok (view t s) pk → view t' s !! pk = view t s !! pk.
Proof.
  intros Ht Hok. rewrite (view_later_lookup t t') by done. unfold zset_ok in Hok.
  by destruct (view t s !! pk) as [[[v|z] [dl|]]|].
Qed.

(** A request on such a network: where it arrives. *)
Lemma gentle_request {A} W slack (sc : script A) (w : world Srv) :
  gentle W slack (w_time w) (w_net w) → 0 ≤ W → zset_ok (view (w_time w) (w_srv w)) pk →
  ∃ t s,
    invoke sc w = (World (run t sc s).1 t (w_skew w) (tail (w_net w)), (run t sc s).2) ∧
    w_time w ≤ t ≤ w_time w + W ∧ gentle W slack t (tail (w_net w)) ∧
    zset_ok (view t s) pk ∧
    (∀ v, view t (w_srv w) !! key = Some v → view t s !! key = Some v) ∧
    ∀ x, zset_of (view (w_time w) (w_srv w)) pk !! id = Some x → t + slack < x →
         zset_of (view t s) pk !! id = Some x.
Proof.
  intros Hg HW Hok. unfold invoke, request. destruct (w_net w) as [|ev net] eqn:Hn; cbn [tail].
  - exists (w_time w), (w_srv w). split; [by destruct (run (w_time w) sc (w_srv w))|].
    split; [lia|]. auto.
  - destruct Hg as (Hf & Hw & Ho & Hg). set (t := w_time w + Z.of_N (ev_wait ev)) in *.
    rewrite Hf. assert (Ht : w_time w ≤ t) by lia.
    pose proof (set_later _ t _ Ht Hok) as Hset.
    assert (Hok' : zset_ok (view t (w_srv w)) pk) by (by apply (zset_ok_same pk _ _ Hset)).
    destruct (others_leave t slack _ (w_srv w) Ho Hok') as (Hok2 & Hk2 & Hx2).
    exists t, (run_others t (ev_others ev) (w_srv w)). split; [done|]. split; [lia|]. split; [done|].
    split; [exact Hok2|]. split; [intros v Hv; by rewrite Hk2|].
    rewrite <- (zset_of_same pk _ _ Hset). exact Hx2.
Qed.

(** ** The refresher *)

Lemma register_gentle W slack addr ttl roles (w : world Srv) :
  gentle W slack (w_time w) (w_net w) → 0 ≤ W → zset_ok (view (w_time w) (w_srv w)) pk →
  0 ≤ w_time w → w_time w + 2 * W ≤ 2 ^ 53 → 0 < ttl ≤ 2 ^ 53 → 2 * W < ttl →
  0 ≤ w_time w + w_skew w → w_time w + w_skew w + ttl ≤ 2 ^ 53 →
  ∃ s t,
    register_peer prefix id addr ttl roles w = (World s t (w_skew w) (tail (tail (w_net w))), Ok tt) ∧
    w_time w ≤ t ≤ w_time w + 2 * W ∧ gentle W slack t (tail (tail (w_net w))) ∧
    present addr roles (w_time w + ttl) (w_time w + w_skew w + ttl) (view t s).
Proof.
  intros Hg HW Hok Ht HT Httl HWt Hk HK.
  set (reg := PeerRegistration addr (rfc3339 (w_time w + w_skew w)) roles true).
  pose proof (registration_encodes reg) as Henc.
  destruct (registration_to_string reg) as [json|e] eqn:Hjson; [|done].
  assert (Hclock : clock_ms w = w_time w + w_skew w) by (unfold clock_ms, clamp, u64_max; lia).
  assert (Hsat : sat_add_u64 (clock_ms w) ttl = w_time w + w_skew w + ttl)
    by (rewrite Hclock; unfold sat_add_u64, u64_max; lia).
  pose proof (peer_key_ne_index prefix id) as Hne.
  destruct (gentle_request W slack (pcall (SET key json false (Some ttl))) w Hg HW Hok)
    as (t1 & s1 & Hrun1 & Ht1 & Hg1 & Hok1 & _).
  assert (Hset : d_run P t1 (pcall (SET key json false (Some ttl))) (view t1 s1) =
    (<[key := RVal (RStr json) (Some (t1 + ttl))]> (view t1 s1), Ok RStatus)).
  { cbn [pcall d_run documented]. unfold d_set.
    assert ((0 <? ttl) = true) as -> by (apply Z.ltb_lt; lia). by rewrite px_ok_range by lia. }
  destruct (run_view t1 (pcall (SET key json false (Some ttl))) s1) as [Hv1 Hr1].
  rewrite Hset in Hv1, Hr1. set (w1 := World _ t1 _ _) in Hrun1.
  assert (Hok1' : zset_ok (view (w_time w1) (w_srv w1)) pk).
  { cbn [w1 w_srv w_time]. rewrite Hv1. cbn [fst]. by rewrite zset_ok_insert_ne. }
  destruct (gentle_request W slack (pcall (ZADD pk (w_time w + w_skew w + ttl) id)) w1 Hg1 HW Hok1')
    as (t2 & s2 & Hrun2 & Ht2 & Hg2 & Hok2 & Hkey2 & _).
  cbn [w1 w_time w_srv w_skew w_net] in *.
  assert (Hzadd : d_run P t2 (pcall (ZADD pk (w_time w + w_skew w + ttl) id)) (view t2 s2) =
    (zadd_db pk (w_time w + w_skew w + ttl) id (view t2 s2),
     Ok (RInt (if decide (is_Some (zset_of (view t2 s2) pk !! id)) then 0 else 1)))).
  { cbn [pcall d_run]. by rewrite documented_zadd. }
  destruct (run_view t2 (pcall (ZADD pk (w_time w + w_skew w + ttl) id)) s2) as [Hv2 Hr2].
  rewrite Hzadd in Hv2, Hr2. cbn [fst snd] in *.
  assert (Hkey : view t2 s2 !! key = Some (RVal (RStr json) (Some (t1 + ttl)))).
  { apply Hkey2. apply (view_later_alive t1); [lia|lia|]. rewrite Hv1. apply lookup_insert_eq. }
  eexists _, t2. split; [|split; [lia|split; [exact Hg2|]]].
  - unfold register_peer. unfold cbind at 1, system_now. fold reg. rewrite Hjson. cbv zeta.
    unfold cbind at 1, now_ms. rewrite Hsat. unfold cbind at 1, cmap_err, pipeline. cbn [send_all].
    unfold cbind. rewrite Hrun1, Hr1. cbv beta iota. rewrite Hrun2, Hr2. reflexivity.
  - rewrite Hv2. split.
    + apply zset_ok_zadd.
    + exists json, (t1 + ttl). eexists. rewrite lookup_zadd_ne by done. split; [exact Hkey|].
      split; [lia|]. by apply registration_roundtrip.
    + exists (w_time w + w_skew w + ttl). rewrite zset_of_zadd, lookup_insert_eq.
      split; [|lia]. f_equal. apply dround_exact. lia.
Qed.

Lemma tick_delay_at {E} period deadline (w : world Srv) :
  ∃ d', tick_delay (E := E) period deadline w =
          (World (w_srv w) (Z.max (w_time w) deadline) (w_skew w) (w_net w), Ok d') ∧
        d' ≤ Z.max (w_time w) deadline + period.
Proof.
  unfold tick_delay, cbind, instant, sleep. cbn [w_srv w_time w_skew w_net].
  replace (w_time w + Z.max 0 (deadline - w_time w)) with (Z.max (w_time w) deadline) by lia.
  eexists. split; [reflexivity|]. case_match; lia.
Qed.

(** One tick. *)
Lemma refresher_tick {E} W slack addr ttl period cs deadline (w : world Srv) :
  let b := Z.max (w_time w) deadline in
  gentle W slack (w_time w) (w_net w) → 0 ≤ W → zset_ok (view (w_time w) (w_srv w)) pk →
  0 ≤ w_time w → 0 ≤ w_time w + w_skew w → 0 < ttl → 2 * W < ttl →
  b + 2 * W + Z.max 0 (w_skew w) + ttl ≤ 2 ^ 53 →
  ∃ s t d',
    let w' := World s t (w_skew w) (tail (tail (w_net w))) in
    refresher (E := E) (true :: cs) prefix id addr ttl period deadline w =
      refresher cs prefix id addr ttl period d' w' ∧
    gentle W slack t (w_net w') ∧ present addr [] (b + ttl) (b + w_skew w + ttl) (view t s) ∧
    b ≤ t ∧ Z.max t d' ≤ b + Z.max period (2 * W).
Proof.
  intros b Hg HW Hok Ht Hk Httl HWt HT.
  destruct (tick_delay_at (E := E) period deadline w) as (d1 & Htick & Hd1). fold b in Htick, Hd1.
  set (w1 := World (w_srv w) b (w_skew w) (w_net w)) in Htick. assert (Hb : w_time w ≤ b) by lia.
  assert (Hok1 : zset_ok (view b (w_srv w)) pk)
    by (by apply (zset_ok_same pk _ _ (set_later _ b _ Hb Hok))).
  destruct (register_gentle W slack addr ttl [] w1) as (s & t & Hreg & Hbt & Hg2 & Hpres);
    try done; try (cbn; lia); [by eapply gentle_later|].
  exists s, t, d1. cbn [w1 w_time w_skew w_net] in *. split; [|split; [done|split; [done|lia]]].
  cbn [refresher]. unfold cbind at 1. rewrite Htick. unfold cbind at 1, cresult. fold w1. by rewrite Hreg.
Qed.

(** After any number of ticks the node is registered, from a moment [b] no
    more than a tick before the next one. *)
Lemma refresher_gentle {E} W slack addr ttl period n deadline (w : world Srv) :
  let step := Z.max period (2 * W) in
  gentle W slack (w_time w) (w_net w) → 0 ≤ W → zset_ok (view (w_time w) (w_srv w)) pk →
  0 ≤ w_time w → 0 ≤ w_time w + w_skew w → 0 < ttl → 2 * W < ttl →
  Z.max (w_time w) deadline + (Z.of_nat n + 1) * step + Z.max 0 (w_skew w) + ttl ≤ 2 ^ 53 →
  ∃ s t net d' b,
    refresher (E := E) (replicate (S n) true) prefix id addr ttl period deadline w =
      (World s t (w_skew w) net, Ok d') ∧
    present addr [] (b + ttl) (b + w_skew w + ttl) (view t s) ∧ w_time w ≤ b ≤ t ∧ Z.max t d' ≤ b + step.
Proof.
  cbv zeta. revert deadline w. induction n as [|n IH]; intros deadline w Hg HW Hok Ht Hk Httl HWt HT.
  - destruct (refresher_tick (E := E) W slack addr ttl period [] deadline w Hg HW Hok Ht Hk Httl HWt)
      as (s & t & d1 & Hrun & Hg2 & Hpres & Hbt & Hnext); [nia|].
    exists s, t, (tail (tail (w_net w))), d1. eexists. cbn [replicate]. rewrite Hrun.
    split; [reflexivity|]. split; [exact Hpres|]. lia.
  - destruct (refresher_tick (E := E) W slack addr ttl period (replicate (S n) true) deadline w Hg HW Hok Ht Hk
      Httl HWt) as (s & t & d1 & Hrun & Hg2 & Hpres & Hbt & Hnext); [nia|].
    change (replicate (S (S n)) true) with (true :: replicate (S n) true). rewrite Hrun.
    destruct (IH d1 (World s t (w_skew w) (tail (tail (w_net w)))))
      as (s' & t' & net & d' & b & Hrun' & Hpres' & Hb & Hend);
      cbn [w_time w_srv w_skew w_net] in *; [done|done|apply Hpres|lia|lia|done|done|nia|].
    exists s', t', net, d', b. split; [done|]. split; [done|]. lia.
Qed.

(** A listing finds who is present. *)
Lemma present_listed addr roles dl sc t k (s : Srv) l :
  glob_escape prefix = prefix → present addr roles dl sc (view t s) → clamp 0 u64_max (t + k) < sc →
  ∃ fuel s' l' out seen,
    list_registrations fuel prefix l (World s t k []) = (World s' t k [], Ok (l', out)) ∧
    (id, PeerRegistration addr seen roles true) ∈ out.
Proof.
  intros Hlit [Hok (json & e & seen & Hkey & _ & Hjson) (x & Hx & Hsc)] Hclk.
  destruct (list_registrations_quiet prefix (World s t k []) l Hlit eq_refl Hok)
    as (fuel & s' & l' & out & Hlist & _ & Hout).
  exists fuel, s', l', out, seen. split; [exact Hlist|]. apply Hout. left. split.
  - exists x. split; [done|]. unfold clock_ms. cbn. lia.
  - unfold reg_at. cbn [w_time w_srv]. by rewrite Hkey.
Qed.

(** It stays present until its registration is old, among others that leave
    it alone. *)
Lemma present_stays addr roles dl sc t t' slack others (s : Srv) :
  present addr roles dl sc (view t s) → t ≤ t' → t' < dl → t' + slack < sc →
  Forall (leaves_peer t' slack) others →
  present addr roles dl sc (view t' (run_others t' others s)).
Proof.
  intros [Hok (json & e & seen & Hkey & He & Hjson) (x & Hx & Hsc)] Ht Hdl Hlt Ho.
  pose proof (set_later t t' s Ht Hok) as Hset.
  assert (Hok' : zset_ok (view t' s) pk) by (by apply (zset_ok_same pk _ _ Hset)).
  destruct (others_leave t' slack others s Ho Hok') as (Hok2 & Hk2 & Hx2).
  split; [done| |].
  - exists json, e, seen. rewrite Hk2. split; [|done]. apply (view_later_alive t); [done|lia|done].
  - exists x. split; [|done]. apply Hx2; [|lia]. by rewrite (zset_of_same pk _ _ Hset).
Qed.
End present.
