(* ===== verification/PeerProperties.v ===== *)
(** * Properties of the peer registry ([src/src/peer.rs]) *)

From S2P Require Import Prelude Redis RedisRef Client DbFacts Keys KvScan KvRef Peer PeerRun PeerNet LeaseProperties.

(** C16. A listing is exact: it returns the nodes that the sorted set has as
    unexpired by the caller's clock and whose registration decodes, and of
    the others only builds that do not write the key index, from a scan of
    the keyspace or the memory of a recent one; and it removes from the set
    exactly the expired members, touching no other key. *)
Theorem listing_exact {Srv : Type} `{RedisLaws Srv} `{PeerJson} (prefix : string)
    (w : world Srv) (l : legacy_scan) :
  let d := view (w_time w) (w_srv w) in
  let now := clock_ms w in
  let pk := peers_index_key prefix in
  glob_escape prefix = prefix → quiet w → zset_ok d pk →
  ∃ fuel s l' out,
    list_registrations fuel prefix l w = (set_srv s w, Ok (l', out)) ∧
    (∀ id reg, (id, reg) ∈ out ↔
       registered prefix now d id ∧ reg_at prefix d id = Some reg ∨
       ¬ registered prefix now d id ∧ kv_index reg = false ∧
         match fresh (w_time w) l with
         | Some found => (id, reg) ∈ found
         | None => reg_at prefix d id = Some reg
         end) ∧
    (∀ id, zset_of (view (w_time w) s) pk !! id =
       if decide (registered prefix now d id) then zset_of d pk !! id else None) ∧
    (∀ k, k ≠ pk → view (w_time w) s !! k = d !! k).
Proof.
  intros d now pk Hlit Hq Hok.
  destruct (list_registrations_quiet prefix w l Hlit Hq Hok) as (fuel & s & l' & out & Hrun & Hv & Hout).
  exists fuel, s, l', out. split; [done|]. split; [done|]. rewrite Hv. split.
  - intros id. by apply purge_set.
  - intros k. apply purge_other.
Qed.

(** A text of registrations for the instances. *)
#[export] Instance registration_eq_dec : EqDecision peer_registration.
Proof. solve_decision. Defined.

#[export] Instance registration_countable : Countable peer_registration.
Proof.
  refine (inj_countable' (λ r, (address r, last_seen r, roles r, kv_index r))
    (λ '(a, l, rs, k), PeerRegistration a l rs k) _).
  by intros [].
Defined.

#[export] Instance ref_peer_json : PeerJson := {|
  registration_to_string r := Ok (bits (encode r));
  registration_from_str s := decode (of_bits s);
|}.

#[export] Instance ref_peer_laws : PeerJsonLaws.
Proof.
  split; [done|]. intros r s [= <-]. cbn.
  by rewrite of_bits_bits, decode_encode.
Qed.

(** A current build and an older one, whose registration is outside the set;
    a current one that is gone but for its entry in the set. *)
Definition new_build : peer_registration := PeerRegistration "redis://h" "late" [] true.
Definition old_build : peer_registration := PeerRegistration "redis://g" "late" [] false.

Definition fleet : ref_srv :=
  {[ "app#peers" := RVal (RZset {[ "n1" := 61000; "n0" := 900; "n9" := 61000 ]}) None;
     "apppeers/n1" := RVal (RStr (bits (encode new_build))) (Some 61000);
     "apppeers/n2" := RVal (RStr (bits (encode old_build))) (Some 61000) ]}.

Lemma fleet_set : zset_ok (view 1000 fleet) (peers_index_key "app").
Proof. vm_compute. exact I. Qed.

Lemma listing_exact_witness :
  ∃ fuel s l' out,
    list_registrations fuel "app" (legacy_new (from_millis 60000)) (World fleet 1000 0 []) =
      (World s 1000 0 [], Ok (l', out)) ∧
    (∀ id reg, (id, reg) ∈ out ↔
       registered "app" 1000 (view 1000 fleet) id ∧ reg_at "app" (view 1000 fleet) id = Some reg ∨
       ¬ registered "app" 1000 (view 1000 fleet) id ∧ kv_index reg = false ∧
         reg_at "app" (view 1000 fleet) id = Some reg) ∧
    (∀ id, zset_of (view 1000 s) "app#peers" !! id =
       if decide (registered "app" 1000 (view 1000 fleet) id)
       then zset_of (view 1000 fleet) "app#peers" !! id else None) ∧
    (∀ k, k ≠ "app#peers" → view 1000 s !! k = view 1000 fleet !! k).
Proof.
  apply (listing_exact "app" (World fleet 1000 0 []) (legacy_new (from_millis 60000))).
  - reflexivity.
  - reflexivity.
  - exact fleet_set.
Defined.

(** A registration is seen: after [register_peer], until its TTL is over,
    every listing of any replica has the node with what it registered,
    whatever that replica remembers - unless the replica's clock is a TTL
    ahead of the node's. *)
Theorem registration_listed {Srv : Type} `{RedisLaws Srv} `{PeerJsonLaws} `{Chrono}
    (prefix id addr : string) (ttl : Z) (rs : list string) (w : world Srv) :
  glob_escape prefix = prefix → quiet w →
  zset_ok (view (w_time w) (w_srv w)) (peers_index_key prefix) →
  0 ≤ w_time w ≤ 2 ^ 53 → 0 < ttl ≤ 2 ^ 53 → clock_ms w + ttl ≤ 2 ^ 53 →
  (register_peer prefix id addr ttl rs w).2 = Ok tt ∧
  ∀ t skew l,
    w_time w ≤ t < w_time w + ttl → clamp 0 u64_max (t + skew) < clock_ms w + ttl →
    let w' := World (w_srv (register_peer prefix id addr ttl rs w).1) t skew [] in
    ∃ fuel s l' out seen,
      list_registrations fuel prefix l w' = (set_srv s w', Ok (l', out)) ∧
      (id, PeerRegistration addr seen rs true) ∈ out.
Proof.
  intros Hlit Hq Hok Ht Httl Hclock.
  destruct (register_quiet prefix id addr ttl rs w Hq Hok Ht Httl) as (s & json & Hrun & Hjson & Hv).
  rewrite Hrun. split; [done|]. intros t skew l Ht' Hskew w'. cbn [fst set_srv w_srv] in w'.
  set (pk := peers_index_key prefix) in *.
  assert (Hsat : sat_add_u64 (clock_ms w) ttl = clock_ms w + ttl) by (unfold sat_add_u64, u64_max; lia).
  assert (Hclk : 0 ≤ clock_ms w) by (unfold clock_ms, clamp, u64_max; lia).
  assert (Hset : view t s !! pk = view (w_time w) s !! pk).
  { rewrite (view_later_lookup (w_time w) t) by lia. rewrite Hv. unfold zadd_db. fold pk.
    by rewrite lookup_insert_eq. }
  assert (Hkey : view t s !! peer_key prefix id = Some (RVal (RStr json) (Some (w_time w + ttl)))).
  { apply (view_later_alive (w_time w)); [lia|lia|]. rewrite Hv, lookup_zadd_ne by apply peer_key_ne_index.
    apply lookup_insert_eq. }
  destruct (list_registrations_quiet prefix w' l) as (fuel & s' & l' & out & Hlist & _ & Hout);
    [done|done| |].
  { cbn. apply (zset_ok_same _ (view (w_time w) s)); [exact Hset|]. rewrite Hv. apply zset_ok_zadd. }
  exists fuel, s', l', out. eexists. split; [exact Hlist|]. apply Hout. left. split.
  - exists (clock_ms w + ttl). split; [|exact Hskew]. cbn.
    rewrite (zset_of_same _ (view (w_time w) s)) by exact Hset.
    rewrite Hv, zset_of_zadd, lookup_insert_eq, Hsat. f_equal. apply dround_exact. lia.
  - unfold reg_at. cbn [w_time w_srv w']. rewrite Hkey. exact Hjson.
Qed.

Lemma registration_listed_witness :
  let w := World fleet 1000 5 [] in
  (register_peer "app" "n3" "redis://k" 60000 [] w).2 = Ok tt ∧
  ∀ t skew l,
    1000 ≤ t < 61000 → clamp 0 u64_max (t + skew) < 61005 →
    let w' := World (w_srv (register_peer "app" "n3" "redis://k" 60000 [] w).1) t skew [] in
    ∃ fuel s l' out seen,
      list_registrations fuel "app" l w' = (set_srv s w', Ok (l', out)) ∧
      ("n3", PeerRegistration "redis://k" seen [] true) ∈ out.
Proof.
  apply (registration_listed "app" "n3" "redis://k" 60000 [] (World fleet 1000 5 [])).
  - reflexivity.
  - reflexivity.
  - exact fleet_set.
  - cbn. lia.
  - lia.
  - vm_compute. discriminate.
Defined.

(** Leaving is immediate: after [deregister_peer] no listing of any
    replica has the node, even one that still remembers the registration of
    this build from an earlier scan. *)
Theorem departed_not_listed {Srv : Type} `{RedisLaws Srv} `{PeerJsonLaws} `{Chrono}
    (prefix id : string) (w : world Srv) :
  glob_escape prefix = prefix → quiet w →
  zset_ok (view (w_time w) (w_srv w)) (peers_index_key prefix) →
  (deregister_peer prefix id w).2 = Ok tt ∧
  ∀ t skew l,
    w_time w ≤ t →
    (∀ found reg, fresh t l = Some found → (id, reg) ∈ found → kv_index reg = true) →
    let w' := World (w_srv (deregister_peer prefix id w).1) t skew [] in
    ∃ fuel s l' out,
      list_registrations fuel prefix l w' = (set_srv s w', Ok (l', out)) ∧
      ∀ reg, (id, reg) ∉ out.
Proof.
  intros Hlit Hq Hok. destruct (deregister_quiet prefix id w Hq Hok) as (s & Hrun & Hv).
  rewrite Hrun. split; [done|]. intros t skew l Ht Hmem w'. cbn [fst set_srv w_srv] in w'.
  set (pk := peers_index_key prefix) in *.
  assert (Hok' : zset_ok (view (w_time w) s) pk).
  { rewrite Hv. apply zset_ok_zrem. rewrite zset_ok_delete_ne; [done|]. apply peer_key_ne_index. }
  assert (Hset : view t s !! pk = view (w_time w) s !! pk).
  { rewrite (view_later_lookup (w_time w) t) by lia. unfold zset_ok in Hok'.
    by destruct (view (w_time w) s !! pk) as [[[v|z] [dl|]]|]. }
  destruct (list_registrations_quiet prefix w' l) as (fuel & s' & l' & out & Hlist & _ & Hout);
    [done|done| |].
  { cbn. by apply (zset_ok_same _ (view (w_time w) s)). }
  exists fuel, s', l', out. split; [exact Hlist|]. intros reg [[(x & Hx & _) _]|(_ & Hidx & Hold)]%Hout.
  - cbn in Hx. rewrite (zset_of_same _ (view (w_time w) s)) in Hx by exact Hset.
    rewrite Hv, zset_of_zrem, lookup_delete_eq in Hx. done.
  - cbn [w_time w_srv w'] in Hold. destruct (fresh t l) as [found|] eqn:Hf.
    + specialize (Hmem found reg eq_refl Hold). congruence.
    + unfold reg_at in Hold.
      assert (view t s !! peer_key prefix id = None) as Hnone.
      { destruct (view t s !! peer_key prefix id) as [v|] eqn:E; [|done].
        apply (view_later_Some (w_time w)) in E; [|lia].
        rewrite Hv, lookup_zrem_ne, lookup_delete_eq in E by apply peer_key_ne_index. done. }
      by rewrite Hnone in Hold.
Qed.

Lemma departed_not_listed_witness :
  let w := World fleet 1000 5 [] in
  (deregister_peer "app" "n1" w).2 = Ok tt ∧
  ∀ t skew l,
    1000 ≤ t →
    (∀ found reg, fresh t l = Some found → ("n1", reg) ∈ found → kv_index reg = true) →
    let w' := World (w_srv (deregister_peer "app" "n1" w).1) t skew [] in
    ∃ fuel s l' out,
      list_registrations fuel "app" l w' = (set_srv s w', Ok (l', out)) ∧
      ∀ reg, ("n1", reg) ∉ out.
Proof.
  apply (departed_not_listed "app" "n1" (World fleet 1000 5 [])).
  - reflexivity.
  - reflexivity.
  - exact fleet_set.
Defined.

(** C17. A running replica is never missing from the registry: while its
    refresher runs on a network that delivers in time, from its first tick on
    every listing of every replica - up to the moment the next registration
    can arrive, and whatever others register, leave, list and purge meanwhile
    - has the node, unless that replica's clock is too far ahead. *)
Theorem refresher_keeps_listed {Srv : Type} `{RedisLaws Srv} `{PeerJsonLaws} `{Chrono}
    (prefix id addr : string) (ttl period W D : Z) (n : nat) (deadline : Z) (w : world Srv) :
  let step := Z.max period (2 * W) in
  let slack := w_skew w + D in
  glob_escape prefix = prefix →
  gentle (Srv := Srv) prefix id W slack (w_time w) (w_net w) → 0 ≤ W → 0 ≤ D →
  zset_ok (view (w_time w) (w_srv w)) (peers_index_key prefix) →
  0 ≤ w_time w → 0 ≤ w_time w + w_skew w → step + 2 * W + D < ttl →
  Z.max (w_time w) deadline + (Z.of_nat n + 1) * step + Z.max 0 (w_skew w) + ttl ≤ 2 ^ 53 →
  ∃ w' deadline',
    refresher (E := cluster_error) (replicate (S n) true) prefix id addr ttl period deadline w =
      (w', Ok deadline') ∧
    ∀ t k others l,
      w_time w' ≤ t ≤ Z.max (w_time w') deadline' + 2 * W → k ≤ slack →
      Forall (leaves_peer (Srv := Srv) prefix id t slack) others →
      ∃ fuel s l' out seen,
        list_registrations fuel prefix l (World (run_others t others (w_srv w')) t k []) =
          (World s t k [], Ok (l', out)) ∧
        (id, PeerRegistration addr seen [] true) ∈ out.
Proof.
  intros step slack Hlit Hg HW HD Hok Ht Hk Hsum HT.
  destruct (refresher_gentle (E := cluster_error) prefix id W slack addr ttl period n deadline w)
    as (s & t & net & d' & b & Hrun & Hpres & Hb & Hnext); try done; [lia|lia|].
  exists (World s t (w_skew w) net), d'. split; [exact Hrun|]. cbn [w_time w_srv].
  intros t' k others l Ht' Hk' Ho. fold step in Hnext.
  apply (present_listed prefix id addr [] (b + ttl) (b + w_skew w + ttl)); [done| |].
  - apply (present_stays prefix id addr [] _ _ t t' slack); [done|lia|lia|unfold slack; lia|done].
  - unfold clamp. unfold slack in *. lia.
Qed.

(** [n3] keeps itself registered for ten seconds while [n1] registers and a
    replica with a clock 40 ms ahead lists. *)
Definition registry_traffic : list net_event :=
  [NetEvent 10 [silent (pcall (ZADD "app#peers" 61000 "n1"))] Delivered;
   NetEvent 20 [silent (pcall (ZREMRANGEBYSCORE "app#peers" NegInf (Incl 1070)))] Delivered;
   NetEvent 30 [silent (pcall (DEL "apppeers/n1")); silent (pcall (ZREM "app#peers" "n1"))] Delivered].

Lemma refresher_keeps_listed_witness :
  ∃ w' deadline',
    refresher (E := cluster_error) (replicate 10 true) "app" "n3" "redis://k" 3000 1000 0
      (World fleet 1000 5 registry_traffic) = (w', Ok deadline') ∧
    ∀ t k others l,
      w_time w' ≤ t ≤ Z.max (w_time w') deadline' + 2 * 30 → k ≤ 55 →
      Forall (leaves_peer (Srv := ref_srv) "app" "n3" t 55) others →
      ∃ fuel s l' out seen,
        list_registrations fuel "app" l (World (run_others t others (w_srv w')) t k []) =
          (World s t k [], Ok (l', out)) ∧
        ("n3", PeerRegistration "redis://k" seen [] true) ∈ out.
Proof.
  apply (refresher_keeps_listed "app" "n3" "redis://k" 3000 1000 30 50 9 0 (World fleet 1000 5 registry_traffic)).
  - reflexivity.
  - assert (Hcmd : ∀ t0 c, other_peer_cmd "app" "n3" (t0 + 55) c →
      leaves_peer (Srv := ref_srv) "app" "n3" t0 55 (silent (pcall c)))
      by (intros; by apply other_cmd_leaves).
    cbn. repeat split; try lia; repeat first [apply Forall_nil_2|apply Forall_cons_2]; apply Hcmd; cbn;
      repeat split; try lia; discriminate.
  - lia.
  - lia.
  - exact fleet_set.
  - cbn. lia.
  - cbn. lia.
  - cbn. lia.
  - vm_compute. discriminate.
Defined.
