(* ===== verification/Maintenance.v ===== *)
(** * Key-index upkeep ([src/src/maintenance.rs])

    One task of every replica: it gates the key index on what the fleet's
    registrations show, and whoever holds the sweep lock drops the entries of
    expired keys and completes the index.  A replica's own state - the
    [index_ready] flag of its store, its peer scan, the lock it holds, when it
    last saw an older build - is passed through the steps; none of them
    fails. *)

From S2P Require Import Prelude Redis Client Keys KvStore Lease Peer.

Definition SWEEP_LOCK : string := "mcpg-kv-sweep".
Definition IDLE_INTERVAL_MS : Z := 30000.

Record replica : Type := Replica {
  index_ready : bool;
  peer_scan : legacy_scan;
  held : option lease_state;
  unindexed_seen : option Z;
}.

Definition set_index_ready (b : bool) (r : replica) : replica :=
  Replica b (peer_scan r) (held r) (unindexed_seen r).
Definition set_peer_scan (l : legacy_scan) (r : replica) : replica :=
  Replica (index_ready r) l (held r) (unindexed_seen r).
Definition set_held (h : option lease_state) (r : replica) : replica :=
  Replica (index_ready r) (peer_scan r) h (unindexed_seen r).
Definition set_seen (t : option Z) (r : replica) : replica :=
  Replica (index_ready r) (peer_scan r) (held r) t.

(** What the task uses of the configuration and the node. *)
Record settings : Type := Settings {
  key_prefix : string;
  node_id : string;
  kv_sweep_interval_ms : Z;
  peer_ttl_ms : Z;
}.

(** [registrations.iter().any(|(_, reg)| !reg.kv_index)] *)
Definition any_unindexed (regs : list registration) : bool := existsb (λ r, negb (kv_index r.2)) regs.

(** Fuel for a pass over the keyspace: listings, the sweep, the backfill. *)
Section task.
Context {Srv : Type} `{RedisServer Srv} `{PeerJson} `{Chrono}.
Context (fuel : nat) (cfg : settings).
Local Abbreviation kv := (with_connection_manager (key_prefix cfg)).
Local Abbreviation task A := (client Srv cluster_error A).

(** [invalidate_index] lowers the flag before it asks the server. *)
Definition gate_index (unindexed_peer : bool) (r : replica) : task replica :=
  if unindexed_peer then
    let! _ := cresult (RedisKv.invalidate_index kv) in
    cret (set_index_ready false r)
  else
    let! complete := cresult (RedisKv.index_complete kv) in
    match complete with
    | Ok ready => cret (set_index_ready ready r)
    | Err _ => cret r
    end.

Definition complete_index (r : replica) : task replica :=
  let! started_at_ms := now_ms in
  let! indexed := cresult (RedisKv.backfill_index kv fuel) in
  match indexed with
  | Err _ => cret r
  | Ok _ =>
      let r := set_peer_scan (forget (peer_scan r)) r in
      let! listed := cresult (list_registrations fuel (key_prefix cfg) (peer_scan r)) in
      let r := match listed with Ok (l, _) => set_peer_scan l r | Err _ => r end in
      if match listed with Ok (_, regs) => any_unindexed regs | Err _ => true end then cret r
      else
        let! marked := cresult (RedisKv.mark_index_complete kv started_at_ms) in
        match marked with Ok _ => cret (set_index_ready true r) | Err _ => cret r end
  end.

(** The lock: renewed if held, acquired if not. *)
Definition renew_held (r : replica) : task replica :=
  match held r with
  | Some state =>
      let! (state, renewed) := renew_state state in
      cret (set_held (match renewed with Ok _ => Some state | Err _ => None end) r)
  | None => cret r
  end.

Definition sweep_interval : Z :=
  from_millis (if 0 <? kv_sweep_interval_ms cfg then kv_sweep_interval_ms cfg else IDLE_INTERVAL_MS).

Definition acquire_lock (r : replica) : task replica :=
  match held r with
  | Some _ => cret r
  | None =>
      let (lease_key, fence_key) := lease_keys (key_prefix cfg) "locks" SWEEP_LOCK in
      let! state :=
        cresult (try_acquire_async SWEEP_LOCK lease_key fence_key (node_id cfg)
                   (Z.min duration_max (sweep_interval * 2)) 50) in
      match state with
      | Ok (Some state) => cret (set_held (Some state) r)
      | _ => cret r
      end
  end.

Definition settled (now : Z) (r : replica) : bool :=
  match unindexed_seen r with
  | None => true
  | Some seen => from_millis (peer_ttl_ms cfg) <=? from_millis (now - seen)
  end.

(** The lock holder's part. *)
Definition holder_work (unindexed : bool) (r : replica) : task replica :=
  let! _ := (if 0 <? kv_sweep_interval_ms cfg then cresult (RedisKv.sweep kv fuel) else cret (Ok 0)) in
  let! now := instant in
  if negb unindexed && settled now r && negb (index_ready r) then complete_index r else cret r.

(** One turn of [run]'s loop after its tick; [connected] is what
    [get_or_init_conn] says. *)
Definition turn (connected : bool) (r : replica) : task replica :=
  if negb connected then cret r
  else
    let! listed := cresult (list_registrations fuel (key_prefix cfg) (peer_scan r)) in
    match listed with
    | Err _ => cret r
    | Ok (l, regs) =>
        let unindexed := any_unindexed regs in
        let! now := instant in
        let r := set_peer_scan l r in
        let r := if unindexed then set_seen (Some now) r else r in
        let! r := gate_index unindexed r in
        let! r := renew_held r in
        let! r := acquire_lock r in
        match held r with
        | None => cret r
        | Some _ => holder_work unindexed r
        end
    end.

(** [MissedTickBehavior::Skip]: a tick more than 5 ms late is followed by the
    next multiple of the period. *)
Definition tick_skip (deadline : Z) : task Z :=
  let period := sweep_interval / 1000000 in
  let! now := instant in
  let! _ := sleep (deadline - now) in
  let! now := instant in
  cret (if deadline + 5 <? now then now + period - (now - deadline) mod period else deadline + period).

(** [run] for as many turns as it is told how [get_or_init_conn] fares. *)
Fixpoint run (connections : list bool) (deadline : Z) (r : replica) : task replica :=
  match connections with
  | [] => cret r
  | connected :: connections =>
      let! deadline := tick_skip deadline in
      let! r := turn connected r in
      run connections deadline r
  end.

(** A task starts with nothing held and nothing seen. *)
Definition started : replica :=
  Replica false (legacy_new (from_millis (peer_ttl_ms cfg))) None None.
End task.
