(* ===== verification/Backend.v ===== *)
(** * The coordinator ([src/src/lib.rs])

    The plugin's entry points over one lazily made connection: construction
    from configuration, the async [ClusterBackend], its blocking FFI twin,
    peer watching, shutdown.  What the connection manager says to an attempt
    to connect is the argument [attempt]; everything else goes through the
    components. *)

From Stdlib Require Import Ascii.
From S2P Require Import Prelude Redis Client Keys KvStore Text Envelope PubSub Config LeaseHandle Lease Peer Maintenance.

(** ** Construction *)

(** Slot roles of the plugin's manifest. *)
Definition provides : list string := ["cache"; "kv"; "bus"].

(** [PluginManifest], by the class the plugin gives itself. *)
Inductive plugin_class : Type := Cluster.

Record plugin_manifest : Type := PluginManifest {
  manifest_id : string;
  manifest_version : string;
  manifest_name : string;
  manifest_class : plugin_class;
  protocol_version : string;
  license : option string;
  required_capabilities : list string;
  tags : list string;
  manifest_provides : list string;
  provides_schemes : list string;
  module_path_prefix : string;
  backend_profile : option string;
}.

Definition PLUGIN_ID : string := "dev.mcpg.cluster.redis".

(** [pkg_version] and [module_path] are the build's. *)
Definition manifest_of (pkg_version module_path : string) : plugin_manifest :=
  {| manifest_id := PLUGIN_ID;
     manifest_version := pkg_version;
     manifest_name := "Redis Cluster Coordinator";
     manifest_class := Cluster;
     protocol_version := "1.0";
     license := None;
     required_capabilities := [];
     tags := [];
     manifest_provides := provides;
     provides_schemes := [];
     module_path_prefix := match split_once "::" module_path with Some (crate, _) => crate | None => module_path end;
     backend_profile := None |}.

Definition quote (s : string) : string :=
  String (ascii_of_nat 34) (s +:+ String (ascii_of_nat 34) "").

Definition probe_placeholder : string :=
  "{" +:+ quote "url" +:+ ":" +:+ quote "redis://127.0.0.1:6379" +:+ "}".

(** The credentials of the connection: the URL's, overridden by the fields'. *)
Record redis_info : Type := RedisInfo { info_username : option string; info_password : option string }.

Definition connection_info (c : config) (from_url : redis_info) : redis_info :=
  RedisInfo (match username c with Some u => Some u | None => info_username from_url end)
            (match password c with Some p => Some p | None => info_password from_url end).

(** [Inner], less its library handles: whether the connection and the
    primitives are there, the tasks that can still be aborted, and the
    replica's state. *)
Record inner : Type := Inner {
  cfg : config;
  node : string;
  started_at : string;
  conn_cell : bool;
  primitives : bool;
  peer_refresh_abort : bool;
  kv_maintenance_abort : bool;
  draining : bool;
  state : replica;
}.

Definition set_state (r : replica) (b : inner) : inner :=
  Inner (cfg b) (node b) (started_at b) (conn_cell b) (primitives b) (peer_refresh_abort b)
    (kv_maintenance_abort b) (draining b) r.

Definition settings_of (b : inner) : settings :=
  Settings (Config.key_prefix (cfg b)) (node b) (Config.kv_sweep_interval_ms (cfg b))
    (Config.peer_ttl_ms (cfg b)).

Definition kv_of (b : inner) : redis_kv := with_connection_manager (Config.key_prefix (cfg b)).

(** [get_or_init_conn]: an attempt to connect, unless there is a connection;
    with it come the primitives. *)
Definition get_or_init_conn (attempt : result unit string) (b : inner) :
    inner * result unit cluster_error :=
  let connected :=
    Inner (cfg b) (node b) (started_at b) true true (peer_refresh_abort b) (kv_maintenance_abort b)
      (draining b) (state b) in
  if conn_cell b then (connected, Ok tt)
  else
    match attempt with
    | Ok _ => (connected, Ok tt)
    | Err e => (b, Err (BackendUnavailable ("connection manager init: " +:+ e)))
    end.

(** The client: the URL's connection information with the configured
    credentials, opened - with the configured CA as TLS root - by the [redis]
    crate.  A panic is the error it reports. *)
Definition open_client (into_connection_info : string → result redis_info string)
    (build_with_tls : redis_info → string → result unit string) (open : redis_info → result unit string)
    (read_file : string → result string string) (c : config) : result unit string :=
  let? info :=
    map_err (λ err, "redis cluster: invalid url `" +:+ redact_redis_url (url c) +:+ "`: " +:+ err)
      (into_connection_info (url c)) in
  let info := connection_info c info in
  let? root_ca :=
    map_err (λ err, "redis cluster: " +:+ error_text err +:+ ". Refusing to load with unusable TLS config.")
      (tls_root_cert_pem read_file c) in
  map_err (λ err, "redis cluster: failed to open client `" +:+ redact_redis_url (url c) +:+ "`: " +:+ err)
    (match root_ca with Some pem => build_with_tls info pem | None => open info end).

(** The rest of [from_validated_config]: it ends with the first attempt to
    connect and both tasks spawned. *)
Definition build_inner (attempt : result unit string) (c : config) (hostname : option string)
    (random now : string) : inner :=
  let id := resolved_node_id hostname random c in
  let b := Inner c id now false false false false false
             (started (Settings (Config.key_prefix c) id (Config.kv_sweep_interval_ms c)
                (Config.peer_ttl_ms c))) in
  let b := (get_or_init_conn attempt b).1 in
  Inner (cfg b) (node b) (started_at b) (conn_cell b) (primitives b) true true (draining b) (state b).

Definition from_validated_config (into_connection_info : string → result redis_info string)
    (build_with_tls : redis_info → string → result unit string) (open : redis_info → result unit string)
    (read_file : string → result string string) (attempt : result unit string) (hostname : option string)
    (random now : string) (c : config) : result inner string :=
  let? _ := open_client into_connection_info build_with_tls open read_file c in
  Ok (build_inner attempt c hostname random now).

(** The configuration that [from_config_json] builds the backend from.
    [is_probe] is the host's manifest probe, [debug_text] the derived
    [Debug] of an error. *)
Definition load_config (debug_text : config_error → string) (is_probe : string → bool) (from_str : string → result raw_config string)
    (config_json : string) : result config string :=
  if is_probe config_json then
    map_err (λ err, "manifest-probe placeholder redis config is valid: " +:+ debug_text err)
      (Config.parse from_str probe_placeholder)
  else
    map_err (λ err, "redis cluster config parse failed: " +:+ error_text err +:+
      ". A misconfigured cluster_backend is a security hole; refusing to load.")
      (Config.parse from_str config_json).

Definition from_config_json (debug_text : config_error → string) (is_probe : string → bool)
    (from_str : string → result raw_config string)
    (into_connection_info : string → result redis_info string)
    (build_with_tls : redis_info → string → result unit string) (open : redis_info → result unit string)
    (read_file : string → result string string) (attempt : result unit string) (hostname : option string)
    (random now config_json : string) : result inner string :=
  let? c := load_config debug_text is_probe from_str config_json in
  from_validated_config into_connection_info build_with_tls open read_file attempt hostname random now c.

Definition key_value_store (b : inner) : option redis_kv := if primitives b then Some (kv_of b) else None.

Definition pub_sub (b : inner) : option topic_bus :=
  if primitives b then Some (with_client_and_connection (Config.key_prefix (cfg b))) else None.

(** The store, once the connection is up: [require_kv] as the trait object
    [key_value_store] gives, [require_redis_kv] as [RedisKv]. *)
Definition no_kv : cluster_error := BackendUnavailable "redis cluster: key_value_store unavailable".

Definition require_kv (attempt : result unit string) (b : inner) : inner * result redis_kv cluster_error :=
  let '(b, r) := get_or_init_conn attempt b in
  (b, let? _ := r in match key_value_store b with Some kv => Ok kv | None => Err no_kv end).

Definition require_redis_kv (attempt : result unit string) (b : inner) : inner * result redis_kv cluster_error :=
  let '(b, r) := get_or_init_conn attempt b in
  (b, let? _ := r in if primitives b then Ok (kv_of b) else Err no_kv).

(** ** Retry jitter *)

(** [jittered], with the sub-second nanoseconds of the clock as entropy and
    a release build's wrapping arithmetic. *)
Definition jittered (base entropy : Z) : Z :=
  let base_ms := as_millis base mod 2 ^ 64 in
  let span := (base_ms * 2 mod 2 ^ 64) / 5 in
  if span =? 0 then base else from_millis ((base_ms - base_ms / 5 + entropy mod (span + 1)) mod 2 ^ 64).

(** ** Watching peers *)

Inductive peer_event : Type :=
| Joined (peer : cluster_peer)
| Left (node_id : string).

(** A snapshot by node id; a later entry of a node replaces an earlier one. *)
Definition snapshot (peers : list cluster_peer) : gmap string cluster_peer :=
  foldl (λ m p, if is_empty (peer_node_id p) then m else <[peer_node_id p := p]> m) ∅ peers.

(** A [BTreeMap]'s keys are in byte order. *)
Definition node_ids (m : gmap string cluster_peer) : list string := merge_sort String.le (elements (dom m)).

Definition diff (last cur : gmap string cluster_peer) : list peer_event :=
  omap (λ id, match last !! id with Some _ => None | None => Joined <$> cur !! id end) (node_ids cur) ++
  omap (λ id, match cur !! id with Some _ => None | None => Some (Left id) end) (node_ids last).

Definition poll_ms (c : config) : Z := Z.max 500 (effective_peer_refresh_interval_ms c).

(** ** The coordinator's operations *)

Definition ttl_from_ms (ttl_ms : option Z) : option Z := from_millis <$> ttl_ms.

Record node_info : Type := ClusterNodeInfo {
  info_node_id : string;
  info_address : string;
  info_version : string;
  info_started_at : string;
  info_roles : list string;
}.

Definition node_info_of (pkg_version : string) (b : inner) : node_info :=
  ClusterNodeInfo (node b) (redact_redis_url (url (cfg b))) pkg_version (started_at b) [].

(** [Inner::shutdown], which [Drop] runs too. *)
Definition inner_shutdown (b : inner) : inner :=
  Inner (cfg b) (node b) (started_at b) (conn_cell b) (primitives b) false false true (state b).

Definition drop_inner (b : inner) : inner := inner_shutdown b.

Section operations.
Context {Srv : Type} `{RedisServer Srv} `{CursorJson} `{PeerJson} `{Chrono}.
Local Abbreviation io A := (client Srv cluster_error A).

(** A call that needs the connection: what it leaves of [inner], and its
    result. *)
Definition on_conn {A} (attempt : result unit string) (b : inner) (f : inner → io A) :
    io (inner * result A cluster_error) :=
  match get_or_init_conn attempt b with
  | (b, Ok _) => let! r := cresult (f b) in cret (b, r)
  | (b, Err e) => cret (b, Err e)
  end.

(** A call on the store. *)
Definition with_kv {A} (attempt : result unit string) (b : inner) (f : redis_kv → io A) :
    io (inner * result A cluster_error) :=
  match require_kv attempt b with
  | (b, Ok kv) => let! r := cresult (f kv) in cret (b, r)
  | (b, Err e) => cret (b, Err e)
  end.

Definition kv_get attempt b key := with_kv attempt b (λ kv, RedisKv.get kv key).
Definition kv_put attempt b key value ttl_ms :=
  with_kv attempt b (λ kv, RedisKv.put kv key value (ttl_from_ms ttl_ms)).
Definition kv_put_if_absent attempt b key value ttl_ms :=
  with_kv attempt b (λ kv, RedisKv.put_if_absent kv key value (ttl_from_ms ttl_ms)).
Definition kv_delete attempt b key := with_kv attempt b (λ kv, RedisKv.delete kv key).
Definition kv_list_page fuel attempt b prefix cursor limit :=
  with_kv attempt b (λ kv, RedisKv.list_page kv (index_ready (state b)) fuel prefix cursor limit).
Definition kv_expire attempt b key ttl_ms :=
  with_kv attempt b (λ kv, RedisKv.expire kv key (ttl_from_ms ttl_ms)).
Definition kv_incr attempt b key delta ttl_ms :=
  with_kv attempt b (λ kv, RedisKv.incr kv key delta (ttl_from_ms ttl_ms)).
Definition kv_incr_floor attempt b key delta floor ttl_ms :=
  with_kv attempt b (λ kv, RedisKv.incr_floor kv key delta floor (ttl_from_ms ttl_ms)).

Definition declares_kv_incr_floor : bool := true.

Definition sweep_state (fuel : nat) (attempt : result unit string) (b : inner) :
    io (inner * result Z cluster_error) :=
  match require_redis_kv attempt b with
  | (b, Ok kv) => let! r := cresult (RedisKv.sweep kv fuel) in cret (b, r)
  | (b, Err e) => cret (b, Err e)
  end.

Definition key_index_ready (attempt : result unit string) (b : inner) : inner * result bool cluster_error :=
  let '(b, r) := require_redis_kv attempt b in (b, let? _ := r in Ok (index_ready (state b))).

Definition old_peer : cluster_error :=
  Precondition "a peer that does not write the key index is registered".

(** [complete_key_index] with the connection up: the replica's state after it,
    and the keys indexed. *)
Definition complete_connected (fuel : nat) (b : inner) : io (replica * result Z cluster_error) :=
  let kv := kv_of b in
  let r := set_peer_scan (forget (peer_scan (state b))) (state b) in
  let! listed := cresult (list_registrations fuel (Config.key_prefix (cfg b)) (peer_scan r)) in
  match listed with
  | Err e => cret (r, Err e)
  | Ok (l, regs) =>
      let r := set_peer_scan l r in
      if any_unindexed regs then cret (r, Err old_peer)
      else
        let! started_at_ms := now_ms in
        let! indexed := cresult (RedisKv.backfill_index kv fuel) in
        match indexed with
        | Err e => cret (r, Err e)
        | Ok n =>
            let! marked := cresult (RedisKv.mark_index_complete kv started_at_ms) in
            match marked with
            | Err e => cret (r, Err e)
            | Ok _ => cret (set_index_ready true r, Ok n)
            end
        end
  end.

Definition complete_key_index (fuel : nat) (attempt : result unit string) (b : inner) :
    io (inner * result Z cluster_error) :=
  match require_redis_kv attempt b with
  | (b, Err e) => cret (b, Err e)
  | (b, Ok _) => let! (r, res) := complete_connected fuel b in cret (set_state r b, res)
  end.

(** Peers, or none when the backend is unavailable. *)
Definition backend_list_peers (fuel : nat) (attempt : result unit string) (b : inner) :
    io (inner * list cluster_peer) :=
  match get_or_init_conn attempt b with
  | (b, Err _) => cret (b, [])
  | (b, Ok _) =>
      let! r := cresult (list_peers fuel (Config.key_prefix (cfg b)) (peer_scan (state b))) in
      match r with
      | Ok (l, peers) => cret (set_state (set_peer_scan l (state b)) b, peers)
      | Err _ => cret (b, [])
      end
  end.

(** What a turn of the watch's loop meets: its receiver gone, or an attempt to
    connect, and then a receiver that takes every event, or goes after so
    many, and makes the sends wait so long. *)
Inductive watcher : Type :=
| Gone
| Polls (attempt : result unit string) (takes : option nat) (waits : N).

(** [tx.send] of the events in order: [inl] when one fails. *)
Definition send_events (takes : option nat) (evs : list peer_event) : list peer_event + list peer_event :=
  match takes with
  | Some n => if (n <? length evs)%nat then inl (take n evs) else inr evs
  | None => inr evs
  end.

(** The watch's task, for as many turns as there are: what it leaves of
    [inner], its last snapshot, and the events it has sent. *)
Fixpoint watch_task (fuel : nat) (turns : list watcher) (b : inner) (last : gmap string cluster_peer) :
    io (inner * gmap string cluster_peer * list peer_event) :=
  match turns with
  | [] | Gone :: _ => cret (b, last, [])
  | Polls attempt takes waits :: turns =>
      match get_or_init_conn attempt b with
      | (b, Err _) =>
          let! _ := sleep (poll_ms (cfg b)) in
          watch_task fuel turns b last
      | (b, Ok _) =>
          let! r := cresult (list_peers fuel (Config.key_prefix (cfg b)) (peer_scan (state b))) in
          match r with
          | Err _ =>
              let! _ := sleep (poll_ms (cfg b)) in
              watch_task fuel turns b last
          | Ok (l, peers) =>
              let b := set_state (set_peer_scan l (state b)) b in
              let cur := snapshot peers in
              let! _ := sleep (Z.of_N waits) in
              match send_events takes (diff last cur) with
              | inl sent => cret (b, last, sent)
              | inr sent =>
                  let! _ := sleep (poll_ms (cfg b)) in
                  let! (b, last, rest) := watch_task fuel turns b cur in
                  cret (b, last, sent ++ rest)
              end
          end
      end
  end.

(** Leases: kind, name and the keys of both. *)
Definition lock_name (key : string) : string := "mcpg-lock-" +:+ key.
Definition leadership_name (role : string) : string := "mcpg-leadership-" +:+ role.

Definition acquire_kind (fuel : nat) attempt b (kind name full : string) (ttl : Z) :=
  on_conn attempt b (λ b,
    let (lease_key, fence_key) := lease_keys (Config.key_prefix (cfg b)) kind name in
    acquire_async fuel full lease_key fence_key (node b) ttl (lease_renew_before_expiry_percent (cfg b))).

Definition try_acquire_kind attempt b (kind name full : string) (ttl : Z) :=
  on_conn attempt b (λ b,
    let (lease_key, fence_key) := lease_keys (Config.key_prefix (cfg b)) kind name in
    try_acquire_async full lease_key fence_key (node b) ttl (lease_renew_before_expiry_percent (cfg b))).

Definition acquire_leadership fuel attempt b role ttl :=
  acquire_kind fuel attempt b "leadership" role (leadership_name role) ttl.
Definition backend_acquire_lock fuel attempt b key ttl :=
  acquire_kind fuel attempt b "locks" key (lock_name key) ttl.
Definition try_acquire_leadership attempt b role ttl :=
  try_acquire_kind attempt b "leadership" role (leadership_name role) ttl.
Definition try_acquire_lock attempt b key ttl :=
  try_acquire_kind attempt b "locks" key (lock_name key) ttl.

(** The FFI's four, in whole milliseconds. *)
Definition ffi_acquire_kind (fuel : nat) attempt b (kind name full : string) (ttl_ms : Z) :=
  on_conn attempt b (λ b,
    let (lease_key, fence_key) := lease_keys (Config.key_prefix (cfg b)) kind name in
    acquire_sync fuel full lease_key fence_key (node b) ttl_ms (lease_renew_before_expiry_percent (cfg b))).

Definition ffi_try_acquire_kind attempt b (kind name full : string) (ttl_ms : Z) :=
  on_conn attempt b (λ b,
    let (lease_key, fence_key) := lease_keys (Config.key_prefix (cfg b)) kind name in
    try_acquire_sync full lease_key fence_key (node b) ttl_ms (lease_renew_before_expiry_percent (cfg b))).

Definition ffi_acquire_leadership fuel attempt b role ttl_ms :=
  ffi_acquire_kind fuel attempt b "leadership" role (leadership_name role) ttl_ms.
Definition ffi_acquire_lock fuel attempt b key ttl_ms :=
  ffi_acquire_kind fuel attempt b "locks" key (lock_name key) ttl_ms.
Definition ffi_try_acquire_leadership attempt b role ttl_ms :=
  ffi_try_acquire_kind attempt b "leadership" role (leadership_name role) ttl_ms.
Definition ffi_try_acquire_lock attempt b key ttl_ms :=
  ffi_try_acquire_kind attempt b "locks" key (lock_name key) ttl_ms.

(** The FFI's calls on a handle. *)
Definition lease_renew (handle : option lease_state) : io (option lease_state * result string cluster_error) :=
  renew_sync handle.
Definition lease_release (handle : option lease_state) : io (option lease_state * result unit cluster_error) :=
  release_sync handle.

(** [lease_drop]; a null pointer is no handle. *)
Definition lease_drop (handle : option shared) : option shared := LeaseHandle.drop_state <$> handle.

(** [publish], over the connection's [PUBLISH]. *)
Definition backend_publish {St} (send : string → string → St → St * result Z string)
    (attempt : result unit string) (b : inner) (topic : string) (routing_key : option string)
    (payload : string) (st : St) : St * (inner * result unit cluster_error) :=
  match get_or_init_conn attempt b with
  | (b, Ok _) =>
      let '(st, r) := publish_async send (Config.key_prefix (cfg b)) topic routing_key payload st in
      (st, (b, r))
  | (b, Err e) => (st, (b, Err e))
  end.

(** [subscribe]: the queue group is accepted and ignored; the stream is the
    connection, the task, and what it does with a message. *)
Definition backend_subscribe {C} (connect : result C string) (subscribe : string → C → result C string)
    (b : inner) (topic : string) (group : option string) (routing_key : option string) :
    result (C * subscriber * (string → option published_message)) cluster_error :=
  let? task := subscribe_async connect subscribe (Config.key_prefix (cfg b)) topic in
  Ok (task, handle_message topic routing_key (node b)).

(** The FFI's [shutdown]: the tasks aborted, then - if there was a refresher
    to abort and a connection - the node's registration dropped, best
    effort. *)
Definition shutdown (b : inner) : io inner :=
  let registered := peer_refresh_abort b in
  let b := inner_shutdown b in
  if conn_cell b && registered then
    let! _ := cresult (deregister_peer (Config.key_prefix (cfg b)) (node b)) in
    cret b
  else cret b.

(** The blocking FFI runs the same futures on the plugin's runtime. *)
Definition ffi_node_info (pkg_version : string) (b : inner) : node_info := node_info_of pkg_version b.
Definition ffi_list_peers (fuel : nat) attempt b := backend_list_peers fuel attempt b.
Definition ffi_publish {St} send attempt b topic routing_key payload (st : St) :=
  backend_publish send attempt b topic routing_key payload st.

(** A watch starts from no snapshot; what it is, is its task. *)
Definition backend_watch_peers (fuel : nat) (b : inner) :
    list watcher → io (inner * gmap string cluster_peer * list peer_event) :=
  λ turns, watch_task fuel turns b ∅.

(** The FFI's streams: [forward_cluster_stream] of [mcpg_plugin_sdk] makes a
    handle of one, and is only asked for one that there is. *)
Definition ffi_subscribe {C handle}
    (forward_cluster_stream : C * subscriber * (string → option published_message) → handle)
    (connect : result C string) (subscribe : string → C → result C string) (b : inner) (topic : string)
    (group routing_key : option string) : result handle cluster_error :=
  let? stream := backend_subscribe connect subscribe b topic group routing_key in
  Ok (forward_cluster_stream stream).

Definition ffi_watch_peers {handle}
    (forward_cluster_stream :
       (list watcher → io (inner * gmap string cluster_peer * list peer_event)) → handle)
    (fuel : nat) (b : inner) : handle :=
  forward_cluster_stream (backend_watch_peers fuel b).

(** [cancel_cluster_stream] of [mcpg_plugin_sdk] ends a stream of one of the
    two. *)
Definition cancel_stream {handle} (cancel_cluster_stream : handle → io unit) (stream : handle) : io unit :=
  cancel_cluster_stream stream.
End operations.
