(* ===== verification/Service.v ===== *)
(** * The store through the coordinator

    The key/value calls of the FFI ([kv_get] and its siblings of
    [src/src/lib.rs]): each first makes sure of the connection, and then the
    store of [KvSpec] answers.  A history of calls, each with what the
    connection manager would say to an attempt to connect at that moment,
    keeps the store's contract, but that nothing is served until an attempt
    succeeds. *)

From S2P Require Import Prelude Redis Client DbFacts Keys KvIndex KvStore KvSpec KvOps KvHistory Lease Peer Maintenance Backend.

(** The calls, with the TTLs of the FFI. *)
Inductive kv_request : Type :=
| KvGet (key : string)
| KvPut (key value : string) (ttl_ms : option Z)
| KvPutIfAbsent (key value : string) (ttl_ms : option Z)
| KvDelete (key : string)
| KvExpire (key : string) (ttl_ms : option Z)
| KvIncr (key : string) (delta : Z) (ttl_ms : option Z)
| KvIncrFloor (key : string) (delta floor : Z) (ttl_ms : option Z).

(** The operation of the contract that a call is. *)
Definition op_of_request (rq : kv_request) : kv_op :=
  match rq with
  | KvGet key => OpGet key
  | KvPut key value ttl_ms => OpPut key value (ttl_from_ms ttl_ms)
  | KvPutIfAbsent key value ttl_ms => OpPutIfAbsent key value (ttl_from_ms ttl_ms)
  | KvDelete key => OpDelete key
  | KvExpire key ttl_ms => OpExpire key (ttl_from_ms ttl_ms)
  | KvIncr key delta ttl_ms => OpIncr key delta (ttl_from_ms ttl_ms)
  | KvIncrFloor key delta floor ttl_ms => OpIncrFloor key delta floor (ttl_from_ms ttl_ms)
  end.

(** The calls of a history: after a pause, with an attempt's outcome. *)
Abbreviation requests := (list (N * result unit string * kv_request)).

(** What a call is to return. *)
Inductive expected : Type :=
| Served (x : option kv_res)
| Refused (e : string).

Definition as_expected (r : result kv_res cluster_error) (x : expected) : Prop :=
  match x with
  | Served x => result_matches r x
  | Refused e => r = Err (BackendUnavailable ("connection manager init: " +:+ e))
  end.

Section spec.
Context (P : policy).

(** The contract's run, of a backend that is connected or not. *)
Fixpoint spec_requests (t skew : Z) (up : bool) (rqs : requests) (m : model) :
    bool * model * list expected :=
  match rqs with
  | [] => (up, m, [])
  | (pause, attempt, rq) :: rqs =>
      let t := t + Z.of_N pause in
      let m := spec_later P t m in
      match up, attempt with
      | false, Err e =>
          let '(up, m, xs) := spec_requests t skew false rqs m in (up, m, Refused e :: xs)
      | _, _ =>
          let '(m, x) := spec_op P t (t + skew) (op_of_request rq) m in
          let '(up, m, xs) := spec_requests t skew true rqs m in
          (up, m, Served x :: xs)
      end
  end.

Definition requests_time (t : Z) (rqs : requests) : Z := foldl (λ t rq, t + Z.of_N rq.1.1) t rqs.

Fixpoint requests_in_range (t skew : Z) (up : bool) (rqs : requests) (m : model) : Prop :=
  match rqs with
  | [] => True
  | (pause, attempt, rq) :: rqs =>
      let t := t + Z.of_N pause in
      let m := spec_later P t m in
      t ≤ 2 ^ 53 ∧
      match up, attempt with
      | false, Err _ => requests_in_range t skew false rqs m
      | _, _ =>
          op_in_range P (op_of_request rq) m ∧
          requests_in_range t skew true rqs (spec_op P t (t + skew) (op_of_request rq) m).1
      end
  end.
End spec.

Section service.
Context {Srv : Type} `{RedisLaws Srv}.
Local Abbreviation P := (srv_policy (Srv := Srv)).

(** The FFI's call. *)
Definition ask {A} (f : A → kv_res) (m : client Srv cluster_error (inner * result A cluster_error)) :
    client Srv cluster_error (inner * result kv_res cluster_error) :=
  let! (b, r) := m in cret (b, result_map f r).

Definition run_request (attempt : result unit string) (b : inner) (rq : kv_request) :
    client Srv cluster_error (inner * result kv_res cluster_error) :=
  match rq with
  | KvGet key => ask ResEntry (kv_get attempt b key)
  | KvPut key value ttl_ms => ask (λ _, ResUnit) (kv_put attempt b key value ttl_ms)
  | KvPutIfAbsent key value ttl_ms => ask ResBool (kv_put_if_absent attempt b key value ttl_ms)
  | KvDelete key => ask ResBool (kv_delete attempt b key)
  | KvExpire key ttl_ms => ask ResBool (kv_expire attempt b key ttl_ms)
  | KvIncr key delta ttl_ms => ask ResInt (kv_incr attempt b key delta ttl_ms)
  | KvIncrFloor key delta floor ttl_ms => ask ResInt (kv_incr_floor attempt b key delta floor ttl_ms)
  end.

Fixpoint run_requests (rqs : requests) (b : inner) :
    client Srv cluster_error (inner * list (result kv_res cluster_error)) :=
  match rqs with
  | [] => cret (b, [])
  | (pause, attempt, rq) :: rqs =>
      let! _ := sleep (Z.of_N pause) in
      let! (b, r) := run_request attempt b rq in
      let! (b, rs) := run_requests rqs b in
      cret (b, r :: rs)
  end.

(** A backend with a connection has its primitives. *)
Definition connected (b : inner) : inner :=
  Inner (cfg b) (node b) (started_at b) true true (peer_refresh_abort b) (kv_maintenance_abort b)
    (draining b) (state b).

(** With a connection a call is the store's. *)
Lemma with_kv_up {A} attempt b (f : redis_kv → client Srv cluster_error A) w :
  conn_cell b = true ∨ is_ok attempt = true →
  with_kv attempt b f w =
    (let '(w', r) := f (kv_of b) w in (w', Ok (connected b, r))).
Proof.
  intros Hup. unfold with_kv, require_kv, get_or_init_conn.
  assert (Hc : (if conn_cell b then (connected b, Ok tt)
     else match attempt with Ok _ => (connected b, Ok tt)
          | Err e => (b, Err (BackendUnavailable ("connection manager init: " +:+ e))) end) =
     (connected b, Ok tt)) by (destruct (conn_cell b), attempt; by destruct Hup).
  cbv zeta. fold (connected b). rewrite Hc. cbn [key_value_store primitives connected].
  unfold cbind, cresult. by destruct (f _ w) as [w' [a|e]].
Qed.

Lemma with_kv_down {A} e b (f : redis_kv → client Srv cluster_error A) w :
  conn_cell b = false →
  with_kv (Err e) b f w =
    (w, Ok (b, Err (BackendUnavailable ("connection manager init: " +:+ e)))).
Proof. intros Hc. unfold with_kv, require_kv, get_or_init_conn. by rewrite Hc. Qed.

Lemma request_up attempt b rq w :
  conn_cell b = true ∨ is_ok attempt = true →
  run_request attempt b rq w =
    (let '(w', r) := run_op (Config.key_prefix (cfg b)) (op_of_request rq) w in
     (w', Ok (connected b, r))).
Proof.
  intros Hup. destruct rq; cbn [run_request op_of_request run_op];
    unfold ask, kv_get, kv_put, kv_put_if_absent, kv_delete, kv_expire, kv_incr, kv_incr_floor, cbind;
    rewrite with_kv_up by done; unfold kv_of;
    match goal with |- context [match ?m w with _ => _ end] => destruct (m w) as [w' [a|e]] end; reflexivity.
Qed.

Lemma request_down e b rq w :
  conn_cell b = false →
  run_request (Err e) b rq w = (w, Ok (b, Err (BackendUnavailable ("connection manager init: " +:+ e)))).
Proof.
  intros Hc. destruct rq; cbn [run_request];
    unfold ask, kv_get, kv_put, kv_put_if_absent, kv_delete, kv_expire, kv_incr, kv_incr_floor, cbind;
    by rewrite with_kv_down.
Qed.

Lemma requests_refine rqs t skew s m b :
  is_empty (Config.key_prefix (cfg b)) = false →
  0 ≤ t → indexed (kv_of b) (view t s) → stores (Config.key_prefix (cfg b)) (view t s) m →
  requests_in_range P t skew (conn_cell b) rqs m →
  let '(up, m', xs) := spec_requests P t skew (conn_cell b) rqs m in
  ∃ s' b' rs,
    run_requests rqs b (World s t skew []) = (World s' (requests_time t rqs) skew [], Ok (b', rs)) ∧
    Forall2 as_expected rs xs ∧
    cfg b' = cfg b ∧ conn_cell b' = up ∧
    stores (Config.key_prefix (cfg b)) (view (requests_time t rqs) s') m'.
Proof.
  intros Hprefix. revert t s m b Hprefix.
  induction rqs as [|[[pause attempt] rq] rqs IH]; intros t s m b Hprefix Ht Hd Hs Hr.
  { cbn. by exists s, b, []. }
  cbn [spec_requests requests_in_range run_requests] in *. unfold requests_time. cbn [foldl fst].
  fold (requests_time (t + Z.of_N pause) rqs). set (t1 := t + Z.of_N pause) in *. cbv zeta in *.
  destruct Hr as [Ht1 Hr]. assert (Hle : t ≤ t1) by lia.
  pose proof (indexed_later (Config.key_prefix (cfg b)) t t1 s Hle Hd) as Hd1.
  pose proof (stores_later (Config.key_prefix (cfg b)) t t1 s m Hle Hs) as Hs1.
  assert (Hsleep : ∀ A (k : client Srv cluster_error A),
    (let! _ := sleep (Z.of_N pause) in k) (World s t skew []) = k (World s t1 skew [])).
  { intros A k. unfold cbind, sleep. cbn. by rewrite Z.max_r by lia. }
  rewrite Hsleep. set (w := World s t1 skew []).
  destruct (decide (conn_cell b = true ∨ is_ok attempt = true)) as [Hup|Hdown].
  - assert (Hm : ∀ (A : Type) (x : string → A) (y : A),
      match conn_cell b, attempt with false, Err e => x e | _, _ => y end = y)
      by (intros; destruct (conn_cell b), attempt; naive_solver).
    rewrite Hm. rewrite (Hm _ (λ _, _)) in Hr. destruct Hr as [Hop Hr].
    pose proof (op_refines (Config.key_prefix (cfg b)) Hprefix w (spec_later P t1 m) eq_refl) as Href.
    cbn [w_time w_srv w] in Href. specialize (Href ltac:(lia) Hd1 Hs1 _ Hop).
    unfold refines_at in Href. cbn [w_time w_skew w] in Href.
    destruct (spec_op P t1 (t1 + skew) (op_of_request rq) (spec_later P t1 m)) as [m1 x] eqn:Espec.
    destruct Href as (s1 & r & Hrun & Hmatch & Hs2).
    assert (Hd2 : indexed (kv_of b) (view t1 s1))
      by (eapply (op_keeps_index _ Hprefix _ _ w); [done|exact Hop|simpl; lia|exact Hd1|exact Hrun]).
    specialize (IH t1 s1 m1 (connected b) Hprefix ltac:(lia) Hd2 Hs2 Hr). cbn [connected conn_cell cfg] in IH.
    destruct (spec_requests P t1 skew true rqs m1) as [[up m2] xs].
    destruct IH as (s2 & b' & rs & Hrs & Hx & Hcfg & Hconn & Hs3).
    exists s2, b', (r :: rs). split; [|by split; [constructor|]].
    unfold cbind at 1. rewrite (request_up attempt b rq w Hup). unfold kv_of in *. rewrite Hrun.
    unfold cbind, w, set_srv. cbn [w_srv w_time w_skew w_net]. by rewrite Hrs.
  - destruct (conn_cell b) eqn:Hc; [tauto|]. destruct attempt as [?|e]; [by destruct Hdown; right|].
    specialize (IH t1 s (spec_later P t1 m) b Hprefix ltac:(lia) Hd1 Hs1). rewrite Hc in IH.
    specialize (IH Hr). destruct (spec_requests P t1 skew false rqs (spec_later P t1 m)) as [[up m2] xs].
    destruct IH as (s2 & b' & rs & Hrs & Hx & Hcfg & Hconn & Hs3).
    exists s2, b', (Err (BackendUnavailable ("connection manager init: " +:+ e)) :: rs).
    split; [|by split; [constructor|]].
    unfold cbind at 1. rewrite (request_down e b rq w Hc). unfold cbind, w. by rewrite Hrs.
Qed.
End service.
