(* ===== verification/Watch.v ===== *)
(** * The watch of the peers

    What the task of [watch_peers] ([src/src/lib.rs]) tells its receiver,
    whatever the network, the attempts to connect and the receiver do, and
    what it cannot say of a node that stays registered. *)

From S2P Require Import Prelude Redis Client DbFacts Keys Footprint Peer PeerRun PeerNet Config Maintenance Backend.

(** ** The watch's events *)

(** What a watcher makes of the events: a node joins once and leaves once. *)
Fixpoint replay (evs : list peer_event) (ids : gset string) : option (gset string) :=
  match evs with
  | [] => Some ids
  | Joined p :: evs => if decide (peer_node_id p ∈ ids) then None else replay evs ({[peer_node_id p]} ∪ ids)
  | Left id :: evs => if decide (id ∈ ids) then replay evs (ids ∖ {[id]}) else None
  end.

Lemma replay_app evs1 evs2 ids : replay (evs1 ++ evs2) ids = replay evs1 ids ≫= replay evs2.
Proof.
  revert ids. induction evs1 as [|[p|id] evs IH]; intros ids; cbn; [done| |]; case_decide; auto.
Qed.

Lemma node_ids_elem m id : id ∈ node_ids m ↔ is_Some (m !! id).
Proof. unfold node_ids. by rewrite (merge_sort_Permutation String.le), elem_of_elements, elem_of_dom. Qed.

Lemma node_ids_NoDup m : NoDup (node_ids m).
Proof. unfold node_ids. rewrite (merge_sort_Permutation String.le). apply NoDup_elements. Qed.

(** A map by node id. *)
Definition keyed (m : gmap string cluster_peer) : Prop := ∀ id p, m !! id = Some p → peer_node_id p = id.

Lemma snapshot_keyed peers : keyed (snapshot peers).
Proof.
  unfold snapshot. assert (Hm : keyed (∅ : gmap string cluster_peer)) by (intros id p; by rewrite lookup_empty).
  revert Hm. generalize (∅ : gmap string cluster_peer). induction peers as [|p peers IH]; intros m Hm; cbn; [done|].
  apply IH. destruct (is_empty (peer_node_id p)); [done|]. intros id q.
  rewrite lookup_insert_Some. intros [[<- <-]|[_ Hq]]; [done|by apply Hm].
Qed.

Lemma replay_joins (last cur : gmap string cluster_peer) (l : list string) (ids : gset string) :
  keyed cur → NoDup l → (∀ id, id ∈ l → is_Some (cur !! id) ∧ (id ∈ ids ↔ is_Some (last !! id))) →
  ∃ ids',
    replay (omap (λ id, match last !! id with Some _ => None | None => Joined <$> cur !! id end) l) ids = Some ids' ∧
    ∀ id, id ∈ ids' ↔ id ∈ ids ∨ id ∈ l.
Proof.
  intros Hcur. revert ids. induction l as [|x l IH]; intros ids Hnd Hl.
  { exists ids. split; [done|]. set_solver. }
  apply NoDup_cons in Hnd as [Hx Hnd].
  destruct (Hl x) as [[p Hp] Hxl]; [by left|]. cbn. rewrite Hp.
  destruct (last !! x) as [q|] eqn:Hq.
  - destruct (IH ids Hnd) as (ids' & Hr & Hi); [set_solver|]. exists ids'. split; [exact Hr|].
    assert (x ∈ ids) by (apply Hxl; eauto). set_solver.
  - cbn. pose proof (Hcur _ _ Hp) as Hpx. rewrite Hpx.
    rewrite decide_False; [|intros Hin; apply Hxl in Hin; by destruct Hin].
    destruct (IH ({[x]} ∪ ids) Hnd) as (ids' & Hr & Hi).
    { intros id Hid. destruct (Hl id) as [Hc Hiff]; [by right|]. split; [done|].
      rewrite elem_of_union, elem_of_singleton. split; [intros [->|?]; [done|by apply Hiff]|right; by apply Hiff]. }
    exists ids'. split; [exact Hr|]. set_solver.
Qed.

Lemma replay_leaves (cur : gmap string cluster_peer) (l : list string) (ids : gset string) :
  NoDup l → (∀ id, id ∈ l → id ∈ ids) →
  ∃ ids',
    replay (omap (λ id, match cur !! id with Some _ => None | None => Some (Left id) end) l) ids = Some ids' ∧
    ∀ id, id ∈ ids' ↔ id ∈ ids ∧ (id ∈ l → is_Some (cur !! id)).
Proof.
  revert ids. induction l as [|x l IH]; intros ids Hnd Hl.
  { exists ids. split; [done|]. set_solver. }
  apply NoDup_cons in Hnd as [Hx Hnd]. cbn.
  destruct (cur !! x) as [p|] eqn:Hp; cbn.
  - destruct (IH ids Hnd) as (ids' & Hr & Hi); [set_solver|]. exists ids'. split; [exact Hr|].
    intros id. rewrite Hi. split; [|set_solver]. intros [Hin Hc]. split; [done|].
    intros [->|?]%elem_of_cons; eauto.
  - rewrite decide_True by (apply Hl; by left).
    destruct (IH (ids ∖ {[x]}) Hnd) as (ids' & Hr & Hi); [set_solver|]. exists ids'. split; [exact Hr|].
    intros id. rewrite Hi, elem_of_difference, elem_of_singleton, elem_of_cons.
    assert (¬ is_Some (cur !! x)) by (rewrite Hp; by intros [? ?]). split.
    + intros [[Hin Hne] Hc]. split; [done|]. intros [?|?]; [done|auto].
    + intros [Hin Hc]. split; [|auto]. split; [done|]. intros ->. auto.
Qed.

Lemma replay_diff last cur :
  keyed cur → replay (diff last cur) (dom last) = Some (dom cur).
Proof.
  intros Hcur. unfold diff. rewrite replay_app.
  destruct (replay_joins last cur (node_ids cur) (dom last)) as (ids1 & -> & H1);
    [done|apply node_ids_NoDup|intros id; rewrite node_ids_elem, elem_of_dom; tauto|]. cbn.
  destruct (replay_leaves cur (node_ids last) ids1) as (ids2 & -> & H2); [apply node_ids_NoDup| |].
  { intros id Hid. apply H1. left. apply elem_of_dom. by apply node_ids_elem. }
  f_equal. apply set_eq. intros id. rewrite H2, H1, !node_ids_elem, !elem_of_dom.
  destruct (cur !! id), (last !! id); intuition (eauto || congruence || by destruct H).
Qed.

(** The diffs along a list of polls, [None] for one that failed. *)
Fixpoint watch_peers (polls : list (option (list cluster_peer))) (last : gmap string cluster_peer) :
    gmap string cluster_peer * list peer_event :=
  match polls with
  | [] => (last, [])
  | None :: polls => watch_peers polls last
  | Some peers :: polls =>
      let cur := snapshot peers in
      let '(m, evs) := watch_peers polls cur in
      (m, diff last cur ++ evs)
  end.

Lemma replay_polls polls last :
  let '(m, evs) := watch_peers polls last in
  replay evs (dom last) = Some (dom m) ∧
  m = foldl (λ m poll, match poll with Some peers => snapshot peers | None => m end) last polls.
Proof.
  revert last. induction polls as [|[peers|] polls IH]; intros last; cbn [watch_peers foldl]; [done| |apply IH].
  cbv zeta. specialize (IH (snapshot peers)). destruct (watch_peers polls (snapshot peers)) as [m evs].
  destruct IH as [Hr ->]. split; [|done]. rewrite replay_app.
  rewrite replay_diff by apply snapshot_keyed. exact Hr.
Qed.


Lemma replay_prefix evs1 evs2 ids : evs1 `prefix_of` evs2 → is_Some (replay evs2 ids) → is_Some (replay evs1 ids).
Proof. intros [evs ->]. rewrite replay_app. destruct (replay evs1 ids); [done|by intros [? ?]]. Qed.

(** A receiver that is there to the end. *)
Definition stays_open (turn : watcher) : Prop :=
  match turn with Polls _ None _ => True | _ => False end.

(** ** What a watch is to tell

    The nodes of a listing, less those without a name. *)
Definition ids_of (peers : list cluster_peer) : gset string :=
  list_to_set (filter (λ id, is_empty id = false) (peer_node_id <$> peers)).

(** [reports peers ids evs]: told in order to who knows the nodes [ids], the
    events [evs] lead to the nodes of the listing; each that joins is in the
    listing and was not known, each that leaves was known and is not. *)
Definition reports (peers : list cluster_peer) (ids : gset string) (evs : list peer_event) : Prop :=
  replay evs ids = Some (ids_of peers) ∧
  (∀ p, Joined p ∈ evs → p ∈ peers ∧ peer_node_id p ∉ ids) ∧
  (∀ id, Left id ∈ evs → id ∈ ids ∧ id ∉ ids_of peers).

(** [watched turns rs ids evs]: with the readings [rs], one for each turn, a
    receiver that knows the nodes [ids] is told [evs].  A turn whose listing
    failed tells nothing; else it tells the difference, up to where the
    receiver goes, which ends the watch. *)
Inductive watched : list watcher → list (option (list cluster_peer)) → gset string → list peer_event → Prop :=
| watched_end ids : watched [] [] ids []
| watched_gone turns rs ids : watched (Gone :: turns) rs ids []
| watched_failed attempt takes waits turns rs ids evs :
    watched turns rs ids evs → watched (Polls attempt takes waits :: turns) (None :: rs) ids evs
| watched_cut attempt n waits turns peers rs ids evs :
    reports peers ids evs → (n < length evs)%nat →
    watched (Polls attempt (Some n) waits :: turns) (Some peers :: rs) ids (take n evs)
| watched_told attempt takes waits turns peers rs ids evs rest :
    reports peers ids evs → (∀ n, takes = Some n → (length evs ≤ n)%nat) →
    watched turns rs (ids_of peers) rest →
    watched (Polls attempt takes waits :: turns) (Some peers :: rs) ids (evs ++ rest).

(** The nodes of the last listing that succeeded. *)
Definition last_ids (rs : list (option (list cluster_peer))) (ids : gset string) : gset string :=
  foldl (λ ids r, match r with Some peers => ids_of peers | None => ids end) ids rs.

Lemma watched_replay turns rs ids evs :
  watched turns rs ids evs →
  is_Some (replay evs ids) ∧ (Forall stays_open turns → replay evs ids = Some (last_ids rs ids)).
Proof.
  induction 1 as [ids|turns rs ids|attempt takes waits turns rs ids evs _ [IH1 IH2]
    |attempt n waits turns peers rs ids evs [Hr _] Hn
    |attempt takes waits turns peers rs ids evs rest [Hr _] Hn _ [IH1 IH2]].
  - by split.
  - split; [by eexists|]. intros Ho. by apply Forall_cons in Ho as [[] _].
  - split; [done|]. intros Ho. apply Forall_cons in Ho as [_ Ho]. by apply IH2.
  - split; [|intros Ho; by apply Forall_cons in Ho as [[] _]].
    apply (replay_prefix _ evs); [by exists (drop n evs); rewrite take_drop|by rewrite Hr].
  - rewrite replay_app, Hr. cbn. split; [done|]. intros Ho. apply Forall_cons in Ho as [_ Ho]. by apply IH2.
Qed.

(** The task's differences are such reports. *)
Lemma snapshot_from peers (m : gmap string cluster_peer) id p :
  foldl (λ m p, if is_empty (peer_node_id p) then m else <[peer_node_id p := p]> m) m peers !! id = Some p →
  m !! id = Some p ∨ p ∈ peers.
Proof.
  revert m. induction peers as [|q peers IH]; intros m; cbn; [by left|].
  intros [Hm|Hp]%IH; [|by right; right]. destruct (is_empty (peer_node_id q)); [by left|].
  apply lookup_insert_Some in Hm as [[_ ->]|[_ ?]]; [by right; left|by left].
Qed.

Lemma dom_snapshot peers : dom (snapshot peers) = ids_of peers.
Proof.
  unfold snapshot. assert (Hgen : ∀ m : gmap string cluster_peer,
    dom (foldl (λ m p, if is_empty (peer_node_id p) then m else <[peer_node_id p := p]> m) m peers) =
    dom m ∪ ids_of peers); [|by rewrite Hgen, dom_empty_L, union_empty_l_L].
  unfold ids_of. induction peers as [|p peers IH]; intros m; cbn [foldl]; [set_solver|].
  rewrite IH, fmap_cons, filter_cons. destruct (is_empty (peer_node_id p)) eqn:Hp.
  - by rewrite decide_False.
  - rewrite decide_True by done. cbn [list_to_set]. set_solver.
Qed.

Lemma diff_reports last peers : reports peers (dom last) (diff last (snapshot peers)).
Proof.
  split; [by rewrite <- dom_snapshot, replay_diff by apply snapshot_keyed|].
  split; unfold diff; [intros p|intros id]; rewrite elem_of_app, !list_elem_of_omap;
    (intros [(x & Hx & He)|(x & Hx & He)]; [destruct (last !! x) eqn:Hl|destruct (snapshot peers !! x) eqn:Hc]);
    try done.
  - destruct (snapshot peers !! x) as [q|] eqn:Hq; [|done]. injection He as ->.
    pose proof (snapshot_keyed _ _ _ Hq) as ->. split; [|by apply not_elem_of_dom].
    by destruct (snapshot_from peers ∅ x p Hq) as [E|?]; [rewrite lookup_empty in E|].
  - by destruct (snapshot peers !! x).
  - injection He as ->. apply node_ids_elem in Hx. rewrite <- dom_snapshot, elem_of_dom, not_elem_of_dom. done.
Qed.

Section task.
Context {Srv : Type} `{RedisServer Srv} `{PeerJson}.

(** What a watch's run reads: each turn's listing, in the world the turn
    finds - after the requests, the waits for the receiver and the pauses of
    the turns before it - or [None] if there is no connection or the listing
    fails. *)
Fixpoint readings (fuel : nat) (turns : list watcher) (b : inner) (w : world Srv) :
    list (option (list cluster_peer)) :=
  match turns with
  | [] | Gone :: _ => []
  | Polls attempt takes waits :: turns =>
      let '(b, up) := get_or_init_conn attempt b in
      let after ms w := (sleep (E := cluster_error) ms w).1 in
      let pause := poll_ms (cfg b) in
      match up with
      | Err _ => None :: readings fuel turns b (after pause w)
      | Ok _ =>
          let '(w, r) := list_peers fuel (Config.key_prefix (cfg b)) (peer_scan (state b)) w in
          match r with
          | Err _ => None :: readings fuel turns b (after pause w)
          | Ok (l, peers) =>
              Some peers ::
                readings fuel turns (set_state (set_peer_scan l (state b)) b) (after pause (after (Z.of_N waits) w))
          end
      end
  end.

(** [send_events] sends all, or as many as the receiver takes. *)
Lemma send_events_cases takes evs :
  send_events takes evs = inr evs ∧ (∀ n, takes = Some n → (length evs ≤ n)%nat) ∨
  ∃ n, takes = Some n ∧ (n < length evs)%nat ∧ send_events takes evs = inl (take n evs).
Proof.
  unfold send_events. destruct takes as [n|]; [|by left].
  destruct (Nat.ltb_spec n (length evs)); [right; by exists n|].
  left. split; [done|]. by intros ? [= <-].
Qed.

(** The task always returns, and tells what it read. *)
Lemma watch_task_reads fuel turns b last (w : world Srv) :
  ∃ b' m evs,
    (watch_task fuel turns b last w).2 = Ok (b', m, evs) ∧
    watched turns (readings fuel turns b w) (dom last) evs ∧
    (Forall stays_open turns → watch_peers (readings fuel turns b w) last = (m, evs)).
Proof.
  revert b last w. induction turns as [|[|attempt takes waits] turns IH]; intros b last w; cbn [watch_task readings].
  { exists b, last, []. split; [done|]. split; [constructor|done]. }
  { exists b, last, []. split; [done|]. split; [constructor|]. intros Ho. by apply Forall_cons in Ho as [[] _]. }
  assert (Hskip : ∀ b1 w1, ∃ b' m evs,
    (watch_task fuel turns b1 last w1).2 = Ok (b', m, evs) ∧
    watched (Polls attempt takes waits :: turns) (None :: readings fuel turns b1 w1) (dom last) evs ∧
    (Forall stays_open (Polls attempt takes waits :: turns) →
     watch_peers (None :: readings fuel turns b1 w1) last = (m, evs))).
  { intros b1 w1. destruct (IH b1 last w1) as (b' & m & evs & Hrun & Hw & Ho). exists b', m, evs.
    split; [done|]. split; [by constructor|]. intros Hopen. apply Forall_cons in Hopen as [_ Hopen]. auto. }
  destruct (get_or_init_conn attempt b) as [b1 [[]|e]]; [|apply Hskip].
  unfold cbind at 1, cresult.
  destruct (list_peers fuel (Config.key_prefix (cfg b1)) (peer_scan (state b1)) w) as [w1 [[l peers]|e]]; [|apply Hskip].
  unfold cbind at 1, sleep at 1. set (b2 := set_state _ b1). set (cur := snapshot peers).
  pose proof (diff_reports last peers) as Hdiff. fold cur in Hdiff.
  destruct (send_events_cases takes (diff last cur)) as [[-> Hn]|(n & -> & Hn & ->)].
  - unfold cbind at 1, sleep at 1. unfold cbind at 1.
    match goal with |- context [watch_task fuel turns b2 cur ?w2] =>
      destruct (IH b2 cur w2) as (b' & m & evs & Hrun & Hw & Ho);
      destruct (watch_task fuel turns b2 cur w2) as [w3 r] end.
    cbn in Hrun. subst r. exists b', m, (diff last cur ++ evs). split; [done|]. split.
    + constructor; [done|done|]. rewrite <- dom_snapshot. exact Hw.
    + intros Hopen. apply Forall_cons in Hopen as [_ Hopen]. cbn [watch_peers]. fold cur. cbv zeta.
      specialize (Ho Hopen). unfold sleep. unfold b2 in Ho at 2. cbn [fst w_srv w_time w_skew w_net set_state cfg] in *.
      by rewrite Ho.
  - exists b2, last, (take n (diff last cur)). split; [done|]. split; [by constructor|].
    intros Hopen. by apply Forall_cons in Hopen as [[] _].
Qed.
End task.

(** ** A node that stays registered *)

Section living.
Context {Srv : Type} `{RedisLaws Srv} `{PeerJson} (prefix id addr : string) (rls : list string).
Context (Hid : is_empty id = false) (t0 T dl sc : Z) (Hdl : T < dl).
Local Abbreviation P := (srv_policy (Srv := Srv)).
Local Abbreviation pk := (peers_index_key prefix).

(** Registered until after [T]: the key lives until [dl] at least, the member
    of the set to a clock that has not reached [sc]. *)
Definition lives (t : Z) (s : Srv) : Prop := t0 ≤ t ∧ (t ≤ T → present prefix id addr rls dl sc (view t s)).

Lemma lives_stable : stable lives.
Proof.
  intros t t' s Ht [Ht0 Hl]. split; [lia|]. intros HT.
  by apply (present_stays prefix id addr rls dl sc t t' (sc - t' - 1) []); [apply Hl; lia|lia|lia|lia|].
Qed.

(** Scripts that leave the node alone. *)
Lemma leaves_keeps t1 slack (scr : script unit) :
  leaves_peer (Srv := Srv) prefix id t1 slack scr → t1 ≤ t0 → T + slack < sc → keeps T lives scr.
Proof.
  intros Hsc Ht1 Hs t s HT [Ht0 Hl]. split; [done|]. intros _.
  apply (present_stays prefix id addr rls dl sc t t slack [scr] s); [by apply Hl|lia|lia|lia|].
  constructor; [|done]. eapply leaves_peer_later; [|exact Hsc]. lia.
Qed.

(** And the node's own registration, again. *)
Lemma registers_keeps_key json seen ttl :
  registration_from_str json = Some (PeerRegistration addr seen rls true) →
  0 < ttl → 0 ≤ t0 → dl ≤ t0 + ttl → T + ttl ≤ 2 ^ 53 →
  keeps T lives (silent (pcall (SET (peer_key prefix id) json false (Some ttl)))).
Proof.
  intros Hjson Httl Hpos Hd HT53 t s HT [Ht0 Hl]. split; [done|]. intros _. destruct (Hl HT) as [Hok _ (x & Hx & Hsc)].
  assert (Hset : (d_run P t (pcall (SET (peer_key prefix id) json false (Some ttl))) (view t s)).1 =
    <[peer_key prefix id := RVal (RStr json) (Some (t + ttl))]> (view t s)).
  { cbn [pcall d_run documented]. unfold d_set.
    assert ((0 <? ttl) = true) as -> by (apply Z.ltb_lt; lia). by rewrite px_ok_range by lia. }
  rewrite run_silent, (proj1 (run_view _ _ _)), Hset.
  pose proof (peer_key_ne_index prefix id) as Hne. split.
  - by apply zset_ok_insert_ne.
  - exists json, (t + ttl), seen. rewrite lookup_insert_eq. split; [done|]. split; [lia|done].
  - exists x. split; [|done]. by rewrite zset_of_insert_ne.
Qed.

Lemma registers_keeps_score x :
  sc ≤ x → 0 ≤ x ≤ 2 ^ 53 → keeps T lives (silent (pcall (ZADD pk x id))).
Proof.
  intros Hx Hr t s HT [Ht0 Hl]. split; [done|]. intros _. destruct (Hl HT) as [Hok (json & e & seen & Hk & He) _].
  rewrite run_silent. rewrite (proj1 (run_view _ _ _)). cbn [pcall d_run]. rewrite documented_zadd by done. cbn [fst].
  pose proof (peer_key_ne_index prefix id) as Hne. split.
  - apply zset_ok_zadd.
  - exists json, e, seen. by rewrite lookup_zadd_ne.
  - exists x. rewrite zset_of_zadd, lookup_insert_eq. split; [|done]. f_equal. apply dround_exact. lia.
Qed.

(** What the others may do: leave the node alone, or - the node itself -
    register again. *)
Definition spares (scr : script unit) : Prop :=
  (∃ slack, T + slack < sc ∧ leaves_peer (Srv := Srv) prefix id t0 slack scr) ∨
  (∃ json seen ttl,
     scr = silent (pcall (SET (peer_key prefix id) json false (Some ttl))) ∧
     registration_from_str json = Some (PeerRegistration addr seen rls true) ∧
     0 < ttl ∧ dl ≤ t0 + ttl ∧ T + ttl ≤ 2 ^ 53) ∨
  (∃ x, scr = silent (pcall (ZADD pk x id)) ∧ sc ≤ x ∧ 0 ≤ x ≤ 2 ^ 53).

Lemma spares_keeps scr : 0 ≤ t0 → spares scr → keeps T lives scr.
Proof.
  intros Ht [(slack & Hs & Hl)|[(json & seen & ttl & -> & ? & ? & ? & ?)|(x & -> & ? & ?)]].
  - by apply (leaves_keeps t0 slack).
  - by apply (registers_keeps_key json seen ttl).
  - by apply registers_keeps_score.
Qed.

(** ** Its place in a listing *)

Lemma command_keeps now c :
  other_peer_cmd prefix id now c → now < sc → keeps T lives (pcall c).
Proof.
  intros Hc Hnow t s HT Hl. pose proof (run_silent (Srv := Srv) t (pcall c) s) as <-.
  destruct Hl as [Ht0 Hl]. split; [done|]. intros _.
  apply (present_stays prefix id addr rls dl sc t t (now - t) [silent (pcall c)] s); [by apply Hl|lia|lia|lia|].
  constructor; [|done]. apply other_cmd_leaves. by replace (t + (now - t)) with now by lia.
Qed.

Lemma range_yields now :
  now < sc →
  yields T lives (pipeline [ZRANGEBYSCORE pk (Excl now) PosInf None; ZREMRANGEBYSCORE pk NegInf (Incl now)])
    (λ rs, ∃ r rs', rs = r :: rs' ∧ ∃ ids, r = RStrs ids ∧ id ∈ ids).
Proof.
  intros Hnow. apply yields_pipeline; [apply lives_stable| |].
  - intros t s HT Hl. split; [by apply (command_keeps now)|]. intros r Hr.
    destruct Hl as [_ Hl]. destruct (Hl HT) as [Hok _ (x & Hx & Hsc)].
    rewrite (proj2 (run_view _ _ _)) in Hr.
    destruct (range_ids (Srv := Srv) prefix t now (view t s) Hok) as (ids & n & Hpipe & Hids).
    cbn [d_pipeline pcall d_run] in *.
    destruct (documented P t (ZRANGEBYSCORE pk (Excl now) PosInf None) (view t s)) as [d1 r1].
    destruct (documented P t (ZREMRANGEBYSCORE pk NegInf (Incl now)) d1) as [d2 r2].
    cbn in Hr. injection Hr as <-. injection Hpipe as _ -> _. exists ids. split; [done|].
    apply Hids. exists x. split; [done|lia].
  - constructor; [|done]. by apply (command_keeps now); [split|].
Qed.

Lemma read_keeps keys : keeps T lives (call (MGET keys)).
Proof.
  intros t s HT Hl. destruct Hl as [Ht0 Hl]. split; [done|]. intros _.
  rewrite (proj1 (run_view _ _ _)), d_run_call_end. cbn. by apply Hl.
Qed.

Lemma read_preserved keys : preserves T lives (read_registrations (Srv := Srv) prefix keys).
Proof.
  unfold read_registrations. destruct keys as [|k keys]; [by apply yields_ret|].
  apply preserves_end, yields_map_err, preserves_invoke; [apply lives_stable|apply read_keeps].
Qed.

Lemma read_yields ids :
  id ∈ ids →
  yields T lives (read_registrations (Srv := Srv) prefix (peer_key prefix <$> ids))
    (λ found, ∃ reg, (id, reg) ∈ found).
Proof.
  intros Hin. unfold read_registrations. destruct ids as [|i ids]; [by apply not_elem_of_nil in Hin|].
  cbn [fmap list_fmap]. set (ids' := i :: ids) in *. change (peer_key prefix i :: _) with (peer_key prefix <$> ids').
  eapply (yields_bind _ _ _ _ (λ r, ∃ d, r = ROpts (raw_value d <$> (peer_key prefix <$> ids')) ∧
    ∃ reg, reg_at prefix d id = Some reg)); [|intros; forwards|].
  - apply yields_map_err, yields_invoke; [apply lives_stable|]. intros t s HT Hl.
    split; [by apply read_keeps|]. intros r Hr. rewrite (proj2 (run_view _ _ _)), d_run_call_end in Hr. cbn in Hr.
    injection Hr as <-. exists (view t s). split; [done|].
    destruct Hl as [_ Hl]. destruct (Hl HT) as [_ (json & e & seen & Hk & _ & Hjson) _].
    unfold reg_at. rewrite Hk. eauto.
  - intros r (d & -> & reg & Hreg). apply yields_ret. exists reg. by apply elem_of_decoded.
Qed.

Lemma scan_preserved fuel pat c keys : preserves T lives (scan_peers (Srv := Srv) fuel pat c keys).
Proof.
  revert c keys. induction fuel as [|fuel IH]; intros c keys; cbn [scan_peers]; [apply yields_fail|].
  pose proof (forwards_scan_peers (Srv := Srv)).
  apply preserves_bind; [|intros []; forwards|intros [next batch]; case_match; [by apply yields_ret|done]].
  apply yields_map_err, yields_request; [apply lives_stable|]. intros t s _ [Ht0 Hl].
  pose proof (scan_view t c pat 1000 s) as Hv. destruct (scan t c pat 1000 s) as [s' [n b]].
  split; [|done]. split; [done|]. intros HT. cbn in *. rewrite Hv. by apply Hl.
Qed.

Lemma registrations_preserved fuel l : preserves T lives (registrations (Srv := Srv) fuel prefix l).
Proof.
  pose proof (forwards_scan_peers (Srv := Srv)). pose proof (forwards_read (Srv := Srv) prefix).
  pose proof (@forwards_instant Srv). unfold registrations.
  apply preserves_bind; [by intros w|intros; forwards|]. intros now. case_match; [by apply yields_ret|].
  apply preserves_bind; [apply scan_preserved|intros; forwards|]. intros keys.
  apply preserves_bind; [apply read_preserved|intros; forwards|]. intros found.
  by apply (preserves_end T lives instant).
Qed.

Lemma answer_yields fuel l now :
  now < sc →
  yields T lives
    (let! (l, found) :=
       let! rs := cmap_err (unavailable "peer ZRANGEBYSCORE")
         (pipeline [ZRANGEBYSCORE pk (Excl now) PosInf None; ZREMRANGEBYSCORE pk NegInf (Incl now)]) in
       let ids := match rs with RStrs ids :: _ => ids | _ => [] end in
       let! found := read_registrations prefix (peer_key prefix <$> ids) in
       let! (l, old) := registrations fuel prefix l in
       cret (l, found ++ filter (λ r : registration, kv_index r.2 = false ∧ r.1 ∉ ids) old) in
     cret (l, (λ r : registration, ClusterPeer r.1 (address r.2) (last_seen r.2) (roles r.2)) <$> found))
    (λ r, id ∈ peer_node_id <$> r.2).
Proof.
  intros Hnow.
  pose proof (forwards_registrations (Srv := Srv) prefix). pose proof (forwards_read (Srv := Srv) prefix).
  eapply (yields_bind _ _ _ _ (λ r, ∃ reg, (id, reg) ∈ r.2)); [|intros []; forwards|].
  - eapply yields_bind; [by apply yields_map_err, range_yields|intros; forwards|].
    intros rs (r & rs' & -> & ids & -> & Hin). cbv zeta.
    eapply yields_bind; [by apply read_yields|intros; forwards|]. intros found [reg Hreg].
    eapply yields_bind; [apply registrations_preserved|intros []; forwards|]. intros [l' old] _.
    apply yields_ret. exists reg. apply elem_of_app. by left.
  - intros [l' found] [reg Hreg]. apply yields_ret. cbn [snd] in *. rewrite <- list_fmap_compose.
    apply list_elem_of_fmap. by exists (id, reg).
Qed.

(** A listing that answers by [T] has the node. *)
Lemma listing_yields fuel l (w : world Srv) :
  T + w_skew w < sc → 0 < sc → good T lives w → w_time (list_peers fuel prefix l w).1 ≤ T →
  good T lives (list_peers fuel prefix l w).1 ∧
  ∀ l' peers, (list_peers fuel prefix l w).2 = Ok (l', peers) → id ∈ peer_node_id <$> peers.
Proof.
  intros Hs Hpos Hg HT.
  pose proof (forwards_registrations (Srv := Srv) prefix) as Hf. pose proof (forwards_read (Srv := Srv) prefix) as Hf'.
  assert (Hw : w_time w ≤ T).
  { pose proof (forwards_listing (Srv := Srv) prefix fuel l) as Hl.
    assert (Hp : forwards (list_peers (Srv := Srv) fuel prefix l)) by (unfold list_peers; forwards).
    specialize (Hp w). lia. }
  assert (Hclk : clock_ms w < sc) by (unfold clock_ms, clamp, u64_max; lia).
  destruct (answer_yields fuel l (clock_ms w) Hclk w HT Hg) as [Hg' Hq].
  split; [exact Hg'|]. intros l' peers Hrun. exact (Hq _ Hrun).
Qed.

(** ** No watcher is told that it left *)

Lemma snapshot_listed peers : id ∈ peer_node_id <$> peers → is_Some (snapshot peers !! id).
Proof.
  unfold snapshot. generalize (∅ : gmap string cluster_peer). intros m Hin.
  assert (Hgen : is_Some (m !! id) ∨ id ∈ peer_node_id <$> peers) by (by right). clear Hin. revert m Hgen.
  induction peers as [|p peers IH]; intros m Hgen; cbn [foldl]; [destruct Hgen as [?|Hin]; [done|]; by apply not_elem_of_nil in Hin|].
  apply IH. rewrite fmap_cons, elem_of_cons in Hgen. destruct Hgen as [Hm|[Hp|Hin]]; [left|left|by right].
  - destruct (is_empty (peer_node_id p)); [done|]. rewrite lookup_insert. by case_decide.
  - rewrite <- Hp, Hid. by rewrite lookup_insert_eq.
Qed.

Lemma left_not_in_diff last cur : is_Some (cur !! id) → Left id ∉ diff last cur.
Proof.
  intros [p Hp]. unfold diff. rewrite elem_of_app, !list_elem_of_omap. intros [(x & _ & Hx)|(x & _ & Hx)].
  - destruct (last !! x); [done|]. by destruct (cur !! x).
  - destruct (cur !! x) eqn:Hc; [done|]. congruence.
Qed.

Lemma forwards_watch fuel turns b last : forwards (watch_task (Srv := Srv) fuel turns b last).
Proof.
  pose proof (forwards_listing (Srv := Srv)) as Hl. revert b last.
  induction turns as [|[|attempt takes waits] turns IH]; intros b last; cbn [watch_task]; [forwards|forwards|].
  destruct (get_or_init_conn attempt b) as [b1 [[]|e]]; [|forwards].
  assert (Hp : ∀ l, forwards (list_peers (Srv := Srv) fuel (Config.key_prefix (cfg b1)) l))
    by (intros; unfold list_peers; forwards).
  forwards. all: try (intros []; forwards).
Qed.

(** A call of a replica whose clock is not too far ahead: what it returns of
    such a node, if it ends by [T]. *)
Definition assures {E A} (c : client Srv E A) (Q : A → Prop) : Prop :=
  ∀ w, T + w_skew w < sc → w_time (c w).1 ≤ T → good T lives w →
    good T lives (c w).1 ∧ ∀ a, (c w).2 = Ok a → Q a.

Lemma assures_yields {E A} (c : client Srv E A) Q : yields T lives c Q → assures c Q.
Proof. intros Hc w _. apply Hc. Qed.

Lemma assures_bind {E A B} (c : client Srv E A) (f : A → client Srv E B) (Q : A → Prop) R :
  assures c Q → steady c → (∀ a, forwards (f a)) → (∀ a, Q a → assures (f a) R) → assures (cbind c f) R.
Proof.
  intros Hc Hst Hf HR w Hs. specialize (Hc w Hs). specialize (Hst w). unfold cbind.
  destruct (c w) as [w' [a|e]]; cbn [fst snd] in *; [|intros HT Hg; by destruct (Hc HT Hg)].
  specialize (Hf a w'). intros HT Hg. destruct (Hc ltac:(lia) Hg) as [Hg' Ha].
  apply HR; auto. by rewrite Hst.
Qed.

Lemma assures_weaken {E A} (c : client Srv E A) (Q R : A → Prop) :
  assures c Q → (∀ a, Q a → R a) → assures c R.
Proof. intros Hc HQ w Hs HT Hg. destruct (Hc w Hs HT Hg). eauto. Qed.

Lemma steady_list_peers fuel p l : steady (list_peers (Srv := Srv) fuel p l).
Proof. apply steady_bind; [apply steady_listing|by intros []]. Qed.

Lemma assures_listing {E} fuel l :
  0 < sc →
  assures (E := E) (cresult (list_peers fuel prefix l))
    (λ r, match r with Ok (_, peers) => is_Some (snapshot peers !! id) | Err _ => True end).
Proof.
  intros Hpos w Hs. unfold cresult. intros HT Hg.
  assert (HT' : w_time (list_peers fuel prefix l w).1 ≤ T) by (by destruct (list_peers fuel prefix l w)).
  destruct (listing_yields fuel l w Hs Hpos Hg HT') as [Hg' Hin].
  destruct (list_peers fuel prefix l w) as [w1 [[l' peers]|e]]; (split; [exact Hg'|]); intros ? [= <-]; [|done].
  by eapply snapshot_listed, Hin.
Qed.

Lemma steady_watch fuel turns b last : steady (watch_task (Srv := Srv) fuel turns b last).
Proof.
  revert b last. induction turns as [|[|attempt takes waits] turns IH]; intros b last; cbn [watch_task]; [done|done|].
  destruct (get_or_init_conn attempt b) as [b1 [[]|e]]; [|by apply steady_bind].
  apply steady_bind; [apply steady_result, steady_list_peers|]. intros [[l peers]|e]; [|by apply steady_bind].
  apply steady_bind; [done|]. intros _. case_match; [done|]. apply steady_bind; [done|]. intros _.
  apply steady_bind; [done|]. by intros [[b2 m] rest].
Qed.

(** What the watch has told, from a snapshot on. *)
Definition told (turns : list watcher) (last : gmap string cluster_peer)
    (out : inner * gmap string cluster_peer * list peer_event) : Prop :=
  let '(_, m, evs) := out in
  Left id ∉ evs ∧ (Forall stays_open turns → evs = [] ∧ m = last ∨ is_Some (m !! id)).

Lemma told_skip turn turns last out : told turns last out → told (turn :: turns) last out.
Proof.
  destruct out as [[b m] evs]. intros [Hl Ho]. split; [done|].
  intros Hopen. apply Forall_cons in Hopen as [_ Hopen]. auto.
Qed.

Lemma told_none turns b last : told turns last (b, last, []).
Proof. split; [apply not_elem_of_nil|by left]. Qed.

Lemma assures_pause {E A} ms (c : client Srv E A) Q :
  forwards c → assures c Q → assures (let! _ := sleep ms in c) Q.
Proof.
  intros Hf Hc. eapply (assures_bind _ _ (λ _, True)); [|done|done|done].
  apply assures_yields, preserves_sleep, lives_stable.
Qed.

Lemma watch_lives fuel turns b last :
  0 < sc → Config.key_prefix (cfg b) = prefix →
  assures (watch_task fuel turns b last) (told turns last).
Proof.
  intros Hpos. revert b last.
  induction turns as [|[|attempt takes waits] turns IH]; intros b last Hcfg; cbn [watch_task].
  1, 2: apply assures_yields, yields_ret, told_none.
  assert (Hcfg' : ∀ b1 r, get_or_init_conn attempt b = (b1, r) → Config.key_prefix (cfg b1) = prefix).
  { intros b1 r. rewrite <- Hcfg. unfold get_or_init_conn. by destruct (conn_cell b), attempt; intros [= <- _]. }
  assert (Hskip : ∀ b1, Config.key_prefix (cfg b1) = prefix →
    assures (let! _ := sleep (poll_ms (cfg b1)) in watch_task fuel turns b1 last)
      (told (Polls attempt takes waits :: turns) last)).
  { intros b1 Hb1. apply assures_pause; [apply forwards_watch|].
    eapply assures_weaken; [by apply IH|]. intros. by apply told_skip. }
  pose proof (forwards_watch fuel turns) as Hf.
  destruct (get_or_init_conn attempt b) as [b1 [[]|e]]; specialize (Hcfg' _ _ eq_refl); [|by apply Hskip].
  rewrite Hcfg'. eapply assures_bind; [by apply assures_listing|by apply steady_result, steady_list_peers| |].
  { intros [[l peers]|e]; forwards; try (intros []; forwards). }
  intros [[l peers]|e] Hin; [|by apply Hskip]. pose proof (left_not_in_diff last _ Hin) as Hleft.
  set (cur := snapshot peers) in *. apply assures_pause.
  { forwards; intros []; forwards. }
  destruct (send_events takes (diff last cur)) as [sent|sent] eqn:Hsend.
  - apply assures_yields, yields_ret. destruct takes as [n|]; [|done]. cbn in Hsend. case_match; [|done].
    injection Hsend as <-. split; [intros Hin'; by apply Hleft, (elem_of_take_in _ n)|].
    intros Ho. by apply Forall_cons in Ho as [[] _].
  - assert (sent = diff last cur) as -> by (destruct takes; cbn in Hsend; [case_match|]; congruence).
    apply assures_pause; [forwards; intros []; forwards|].
    eapply assures_bind; [by apply IH| |intros [[] ?]; forwards|].
    + apply steady_watch.
    + intros [[b2 m] rest] [Hl Ho]. apply assures_yields, yields_ret. split.
      * rewrite elem_of_app. tauto.
      * intros Hopen. apply Forall_cons in Hopen as [_ Hopen]. right.
        destruct (Ho Hopen) as [[_ ->]|?]; done.
Qed.
End living.
