(* ===== verification/Departure.v ===== *)
(** * A node that has left

    The dual of [Watch]'s living node: once a node's registration is gone and
    nobody writes it again, no listing of any replica has it, over any
    network, and the watch of a replica that knew it reports that it left and
    never that it joined. *)

From S2P Require Import Prelude Redis Client DbFacts Keys Footprint Peer PeerRun PeerNet Config Maintenance Backend Watch.

(** A change of a watcher's view is an event. *)
Lemma replay_left id evs ids ids' : replay evs ids = Some ids' → id ∈ ids → id ∉ ids' → Left id ∈ evs.
Proof.
  revert ids. induction evs as [|[p|i] evs IH]; intros ids; cbn; [congruence| |];
    case_decide as Hc; try done; intros Hr Hin Hout; apply elem_of_cons.
  - right. apply (IH _ Hr); [set_solver|done].
  - destruct (decide (i = id)) as [->|Hne]; [by left|]. right. apply (IH _ Hr); [set_solver|done].
Qed.

Section departure.
Context {Srv : Type} `{RedisLaws Srv} `{PeerJson} (prefix id : string).
Local Abbreviation P := (srv_policy (Srv := Srv)).
Local Abbreviation pk := (peers_index_key prefix).
Local Abbreviation key := (peer_key prefix id).

(** ** Absent from the registry *)

Record absent (d : db) : Prop := {
  absent_set : zset_ok d pk;
  absent_member : zset_of d pk !! id = None;
  absent_key : d !! key = None;
}.

Definition gone (t : Z) (s : Srv) : Prop := absent (view t s).

Lemma gone_stable : stable gone.
Proof.
  intros t t' s Ht [Hok Hm Hk]. pose proof (set_later prefix t t' s Ht Hok) as Hset. split.
  - by apply (zset_ok_same pk (view t s)).
  - by rewrite (zset_of_same pk (view t s)).
  - destruct (view t' s !! key) as [v|] eqn:E; [|done]. apply (view_later_Some t) in E; [congruence|done].
Qed.

Lemma absent_frame d d' : d' !! pk = d !! pk → d' !! key = d !! key → absent d → absent d'.
Proof.
  intros Hp Hk [Hok Hm Hn]. split; [by apply (zset_ok_same pk d)|by rewrite (zset_of_same pk d)|congruence].
Qed.

(** Another client's script that does not register the node. *)
Definition keeps_out (scr : script unit) : Prop := ∀ t d, absent d → absent (d_run P t scr d).1.

(** The commands of the registry but for the node's own registration. *)
Definition registers_no_one (c : cmd) : Prop :=
  match c with
  | SET k _ _ _ => k ≠ key ∧ k ≠ pk
  | DEL k => k ≠ pk
  | ZADD k _ id' => k = pk ∧ id' ≠ id
  | ZREM k _ => k = pk
  | ZREMRANGEBYSCORE k NegInf (Incl _) => k = pk
  | ZRANGEBYSCORE _ _ _ _ | MGET _ => True
  | _ => False
  end.

Lemma documented_absent t c d : registers_no_one c → absent d → absent (documented P t c d).1.
Proof.
  intros Hc Ha. pose proof (peer_key_ne_index prefix id) as Hne.
  assert (Houtside : ∀ K, cmd_within K c → ¬ K key → ¬ K pk → absent (documented P t c d).1)
    by (intros K HK Hk Hp; apply (absent_frame d); [by eapply documented_outside..|done]).
  pose proof Ha as [Hok Hm Hk].
  destruct c; cbn in Hc; try done; try (apply (Houtside (λ _, False)); [exact I|tauto|tauto]).
  - apply (Houtside (λ k', k' = k)); cbn; [done|naive_solver|naive_solver].
  - cbn. split.
    + by apply zset_ok_delete_ne.
    + by rewrite zset_of_delete_ne.
    + rewrite lookup_delete. by case_decide.
  - destruct Hc as [-> Hid]. rewrite documented_zadd by done. cbn. split; [apply zset_ok_zadd| |].
    + by rewrite zset_of_zadd, lookup_insert_ne.
    + by rewrite lookup_zadd_ne.
  - subst k. rewrite documented_zrem by done. cbn. split; [by apply zset_ok_zrem| |].
    + rewrite zset_of_zrem. apply lookup_delete_None. by right.
    + by rewrite lookup_zrem_ne.
  - destruct lo, hi; try done. subst k. rewrite documented_purge by done. split; [by apply purge_ok| |].
    + rewrite purge_set by done. by case_decide.
    + by rewrite purge_other.
Qed.

Lemma cmd_keeps_out c : registers_no_one c → keeps_out (silent (pcall c)).
Proof.
  intros Hc t d Hd. unfold silent. rewrite d_run_bind. cbn [pcall d_run].
  pose proof (documented_absent t c d Hc Hd) as Ha. by destruct (documented P t c d).
Qed.

Lemma within_keeps_out scr : within (λ k, k ≠ key ∧ k ≠ pk) scr → keeps_out scr.
Proof.
  intros Hsc t d. apply absent_frame; (eapply run_outside; [exact Hsc|tauto]).
Qed.

(** ** No listing has it *)

Context (T : Z) (Hlit : glob_escape prefix = prefix).

Lemma keeps_out_keeps scr : keeps_out scr → keeps T gone scr.
Proof. intros Hs t s _ Hg. unfold gone. rewrite (proj1 (run_view _ _ _)). by apply Hs. Qed.

Lemma command_keeps_out c : registers_no_one c → keeps T gone (pcall c).
Proof.
  intros Hc t s _ Hg. unfold gone. rewrite (proj1 (run_view _ _ _)). cbn [pcall d_run].
  pose proof (documented_absent t c _ Hc Hg). by destruct (documented P t c (view t s)).
Qed.

Lemma range_without now :
  yields T gone (pipeline [ZRANGEBYSCORE pk (Excl now) PosInf None; ZREMRANGEBYSCORE pk NegInf (Incl now)])
    (λ rs, ∃ r rs', rs = r :: rs' ∧ ∀ ids, r = RStrs ids → id ∉ ids).
Proof.
  apply yields_pipeline; [apply gone_stable| |by constructor; [apply command_keeps_out|]].
  intros t s HT Hg. split; [by apply (command_keeps_out (ZRANGEBYSCORE pk (Excl now) PosInf None))|].
  intros r Hr ids ->. destruct Hg as [Hok Hm _].
  rewrite (proj2 (run_view _ _ _)) in Hr.
  destruct (range_ids (Srv := Srv) prefix t now (view t s) Hok) as (ids' & n & Hpipe & Hids).
  cbn [d_pipeline pcall d_run] in *.
  destruct (documented P t (ZRANGEBYSCORE pk (Excl now) PosInf None) (view t s)) as [d1 r1].
  destruct (documented P t (ZREMRANGEBYSCORE pk NegInf (Incl now)) d1) as [d2 r2].
  cbn in Hr. injection Hr as ->. injection Hpipe as _ <- _. intros (x & Hx & _)%Hids. congruence.
Qed.

Definition not_in (found : list registration) : Prop := ∀ reg, (id, reg) ∉ found.

Lemma read_without ids :
  yields T gone (read_registrations (Srv := Srv) prefix (peer_key prefix <$> ids)) not_in.
Proof.
  unfold read_registrations. destruct ids as [|i ids]; [apply yields_ret; intros reg Hin; by apply not_elem_of_nil in Hin|].
  cbn [fmap list_fmap]. set (ids' := i :: ids). change (peer_key prefix i :: _) with (peer_key prefix <$> ids').
  eapply (yields_bind _ _ _ _ (λ r, ∃ d, r = ROpts (raw_value d <$> (peer_key prefix <$> ids')) ∧ absent d));
    [|intros; forwards|].
  - apply yields_map_err, yields_invoke; [apply gone_stable|]. intros t s _ Hg.
    unfold gone. rewrite (proj1 (run_view _ _ _)), (proj2 (run_view _ _ _)), d_run_call_end. cbn.
    split; [exact Hg|]. intros r [= <-]. by exists (view t s).
  - intros r (d & -> & [_ _ Hk]). apply yields_ret. intros reg [_ Hreg]%elem_of_decoded.
    unfold reg_at in Hreg. by rewrite Hk in Hreg.
Qed.

(** The keys of a scan are registration keys. *)
Lemma scan_keys fuel c ids :
  yields T gone (scan_peers (Srv := Srv) fuel (peers_pattern prefix) c (peer_key prefix <$> ids))
    (λ keys, ∃ ids', keys = peer_key prefix <$> ids').
Proof.
  revert c ids. induction fuel as [|fuel IH]; intros c ids; cbn [scan_peers]; [apply yields_fail|].
  pose proof (forwards_scan_peers (Srv := Srv)).
  eapply (yields_bind _ _ _ _ (λ r, ∃ b, r.2 = peer_key prefix <$> b)); [|intros []; forwards|].
  - apply yields_map_err, yields_request; [apply gone_stable|]. intros t s _ Hg.
    pose proof (scan_view t c (peers_pattern prefix) 1000 s) as Hv.
    pose proof (scan_sound t c (peers_pattern prefix) 1000 s) as Hs.
    destruct (scan t c (peers_pattern prefix) 1000 s) as [s' [n b]]. cbn [fst snd] in *.
    split; [unfold gone; by rewrite Hv|]. intros ? [= <-]. cbn [snd]. clear Hv.
    induction b as [|k b IHb]; [by exists []|]. destruct IHb as [ids' ->]; [intros k' Hk'; apply Hs; by right|].
    destruct (Hs k) as [_ Hk]; [by left|]. rewrite peers_pattern_match in Hk by done.
    apply starts_with_spec in Hk as [i ->]. exists (i :: ids'). by rewrite fmap_cons, peer_key_split.
  - intros [next b] [ids' Hb]. cbn in Hb. subst b. rewrite <- fmap_app. case_match; [apply yields_ret; eauto|apply IH].
Qed.

(** A memory of the keyspace scan that has the node, if at all, as one that is
    in the set. *)
Definition unremembered (l : legacy_scan) : Prop :=
  ∀ at_ found reg, last l = Some (at_, found) → (id, reg) ∈ found → kv_index reg = true.

Lemma registrations_without fuel l :
  unremembered l →
  yields T gone (registrations (Srv := Srv) fuel prefix l)
    (λ r, unremembered r.1 ∧ ∀ reg, (id, reg) ∈ r.2 → kv_index reg = true).
Proof.
  intros Hl. pose proof (forwards_scan_peers (Srv := Srv)). pose proof (forwards_read (Srv := Srv) prefix).
  pose proof (@forwards_instant Srv). unfold registrations.
  apply (yields_bind _ _ _ _ (λ _, True)); [by intros w|intros; forwards|]. intros now _.
  destruct (fresh now l) as [found|] eqn:Hf.
  - apply yields_ret. split; [done|]. intros reg. unfold fresh in Hf.
    destruct (last l) as [[at_ found']|] eqn:Hlast; [|done]. case_match; [|done]. injection Hf as ->.
    by apply (Hl at_).
  - eapply yields_bind; [apply (scan_keys fuel 0 [])|intros; forwards|]. intros keys [ids ->].
    eapply yields_bind; [apply read_without|intros; forwards|]. intros found Hfound.
    apply (yields_bind _ _ _ _ (λ _, True)); [by intros w|intros; forwards|]. intros now' _.
    apply yields_ret. split; [|intros reg Hin; by apply Hfound in Hin].
    intros at_ f reg [= <- <-] Hin. by apply Hfound in Hin.
Qed.

Lemma listing_without fuel l :
  unremembered l →
  yields T gone (list_peers (Srv := Srv) fuel prefix l) (λ r, unremembered r.1 ∧ id ∉ peer_node_id <$> r.2).
Proof.
  intros Hl. pose proof (forwards_registrations (Srv := Srv) prefix). pose proof (forwards_read (Srv := Srv) prefix).
  unfold list_peers.
  eapply (yields_bind _ _ _ _ (λ r, unremembered r.1 ∧ not_in r.2)); [|intros []; forwards|].
  - unfold list_registrations. eapply yields_bind; [apply preserves_now|intros; forwards|]. intros now _.
    eapply yields_bind; [apply yields_map_err, range_without|intros; forwards|].
    intros rs (r & rs' & -> & Hr).
    eapply yields_bind; [apply read_without|intros; forwards|]. intros found Hfound.
    eapply yields_bind; [by apply registrations_without|intros []; forwards|]. intros [l' old] [Hl' Hold].
    apply yields_ret. split; [done|]. intros reg [Hin|[[Hkv _] Hin]%list_elem_of_filter]%elem_of_app.
    + by apply Hfound in Hin.
    + apply Hold in Hin. cbn in *. congruence.
  - intros [l' found] [Hl' Hfound]. apply yields_ret. split; [done|]. cbn [snd] in *.
    rewrite <- list_fmap_compose, list_elem_of_fmap. intros ([i reg] & Hi & Hin). cbn in Hi. subst i.
    by apply Hfound in Hin.
Qed.

(** ** What the watch tells *)

Lemma snapshot_without peers : id ∉ peer_node_id <$> peers → snapshot peers !! id = None.
Proof.
  unfold snapshot. assert (Hm : (∅ : gmap string cluster_peer) !! id = None) by apply lookup_empty.
  revert Hm. generalize (∅ : gmap string cluster_peer).
  induction peers as [|p peers IH]; intros m Hm Hnot; cbn [foldl]; [done|].
  rewrite fmap_cons, not_elem_of_cons in Hnot. destruct Hnot as [Hp Hnot]. apply IH; [|done].
  destruct (is_empty (peer_node_id p)); [done|]. by rewrite lookup_insert_ne.
Qed.

Lemma diff_without_joined last cur p :
  keyed cur → cur !! id = None → Joined p ∈ diff last cur → peer_node_id p ≠ id.
Proof.
  intros Hcur Hnone. unfold diff. rewrite elem_of_app, !list_elem_of_omap. intros [(x & _ & Hx)|(x & _ & Hx)].
  - destruct (last !! x); [done|]. destruct (cur !! x) as [q|] eqn:Hq; [|done]. injection Hx as ->.
    intros <-. rewrite (Hcur _ _ Hq) in Hnone. congruence.
  - by destruct (cur !! x).
Qed.

Definition told_gone (turns : list watcher) (last : gmap string cluster_peer)
    (out : inner * gmap string cluster_peer * list peer_event) : Prop :=
  let '(_, m, evs) := out in
  (∀ p, Joined p ∈ evs → peer_node_id p ≠ id) ∧
  (Forall stays_open turns → evs = [] ∧ m = last ∨ m !! id = None).

Lemma told_gone_none turns b last : told_gone turns last (b, last, []).
Proof. split; [intros p Hin; by apply not_elem_of_nil in Hin|by left]. Qed.

Lemma told_gone_skip turn turns last out : told_gone turns last out → told_gone (turn :: turns) last out.
Proof.
  destruct out as [[b m] evs]. intros [Hl Ho]. split; [done|].
  intros Hopen. apply Forall_cons in Hopen as [_ Hopen]. auto.
Qed.

Lemma pause_yields {E A} ms (c : client Srv E A) Q :
  forwards c → yields T gone c Q → yields T gone (let! _ := sleep ms in c) Q.
Proof.
  intros Hf Hc. eapply (yields_bind _ _ _ _ (λ _, True)); [apply preserves_sleep, gone_stable|done|done].
Qed.

Lemma result_yields {E F A} (m : client Srv E A) Q :
  yields T gone m Q → yields T gone (cresult (F := F) m) (λ r, match r with Ok a => Q a | Err _ => True end).
Proof.
  intros Hm w. specialize (Hm w). unfold cresult. destruct (m w) as [w' [a|e]]; cbn [fst snd] in *;
    intros HT Hg; destruct (Hm HT Hg) as [? Ha]; (split; [done|]); intros ? [= <-]; auto.
Qed.

Lemma watch_gone fuel turns b last :
  Config.key_prefix (cfg b) = prefix → unremembered (peer_scan (state b)) →
  yields T gone (watch_task fuel turns b last) (told_gone turns last).
Proof.
  revert b last.
  induction turns as [|[|attempt takes waits] turns IH]; intros b last Hcfg Hmem; cbn [watch_task].
  1, 2: apply yields_ret, told_gone_none.
  assert (Hcfg' : ∀ b1 r, get_or_init_conn attempt b = (b1, r) →
    Config.key_prefix (cfg b1) = prefix ∧ unremembered (peer_scan (state b1))).
  { intros b1 r. unfold get_or_init_conn. by destruct (conn_cell b), attempt; intros [= <- _]. }
  pose proof (forwards_watch fuel turns) as Hf.
  assert (Hskip : ∀ b1, Config.key_prefix (cfg b1) = prefix → unremembered (peer_scan (state b1)) →
    yields T gone (let! _ := sleep (poll_ms (cfg b1)) in watch_task fuel turns b1 last)
      (told_gone (Polls attempt takes waits :: turns) last)).
  { intros b1 Hb1 Hm1. apply pause_yields; [apply Hf|].
    eapply yields_weaken; [by apply IH|]. intros. by apply told_gone_skip. }
  destruct (get_or_init_conn attempt b) as [b1 [[]|e]]; destruct (Hcfg' _ _ eq_refl) as [Hb1 Hm1]; [|by apply Hskip].
  rewrite Hb1. eapply yields_bind; [by apply result_yields, listing_without| |].
  { intros [[l peers]|e]; forwards; try (intros []; forwards). }
  intros [[l peers]|e] Hans; [|by apply Hskip]. destruct Hans as [Hl Hnot]. cbn [fst snd] in *.
  pose proof (snapshot_without _ Hnot) as Hnone. set (cur := snapshot peers) in *.
  assert (Hjoin : ∀ p, Joined p ∈ diff last cur → peer_node_id p ≠ id)
    by (intros p; apply diff_without_joined; [apply snapshot_keyed|done]).
  apply pause_yields; [forwards; intros []; forwards|].
  destruct (send_events takes (diff last cur)) as [sent|sent] eqn:Hsend.
  - apply yields_ret. destruct takes as [n|]; [|done]. cbn in Hsend. case_match; [|done].
    injection Hsend as <-. split; [intros p Hin; by apply Hjoin, (elem_of_take_in _ n)|].
    intros Ho. by apply Forall_cons in Ho as [[] _].
  - assert (sent = diff last cur) as -> by (destruct takes; cbn in Hsend; [case_match|]; congruence).
    apply pause_yields; [forwards; intros []; forwards|].
    eapply yields_bind; [by apply IH|intros [[] ?]; forwards|].
    intros [[b2 m] rest] [Hj Ho]. apply yields_ret. split.
    + intros p [Hin|Hin]%elem_of_app; auto.
    + intros Hopen. apply Forall_cons in Hopen as [_ Hopen]. right. destruct (Ho Hopen) as [[_ ->]|?]; done.
Qed.

(** A node that is known and not listed is reported. *)
Lemma left_in_diff last cur : is_Some (last !! id) → cur !! id = None → Left id ∈ diff last cur.
Proof.
  intros Hl Hc. unfold diff. apply elem_of_app. right. apply list_elem_of_omap. exists id.
  split; [by apply node_ids_elem|]. by rewrite Hc.
Qed.

(** With the server at hand the next poll reports it. *)
Lemma poll_reports b last waits (w : world Srv) :
  Config.key_prefix (cfg b) = prefix → unremembered (peer_scan (state b)) →
  quiet w → gone (w_time w) (w_srv w) → w_time w = T → is_Some (last !! id) →
  ∃ fuel b' m evs,
    (watch_task fuel [Polls (Ok tt) None waits] b last w).2 = Ok (b', m, evs) ∧ Left id ∈ evs.
Proof.
  intros Hcfg Hmem Hq Hg HT Hlast.
  destruct (list_registrations_quiet prefix w (peer_scan (state b)) Hlit Hq (absent_set _ Hg))
    as (fuel & s & l & out & Hlist & _).
  pose proof (listing_without fuel (peer_scan (state b)) Hmem w) as Hnot.
  unfold list_peers, cbind in Hnot. rewrite Hlist in Hnot. cbn [fst snd cret set_srv w_time] in Hnot.
  set (peers := (λ r : registration, ClusterPeer r.1 (address r.2) (last_seen r.2) (roles r.2)) <$> out) in *.
  destruct Hnot as [_ Hnot]; [lia|split; [done|by rewrite Hq; constructor]|].
  destruct (Hnot _ eq_refl) as [_ Hout]. cbn [snd] in Hout.
  exists fuel, (set_state (set_peer_scan l (state b)) (get_or_init_conn (Ok tt) b).1), (snapshot peers).
  exists (diff last (snapshot peers) ++ []).
  split; [|rewrite app_nil_r; by apply left_in_diff; [|apply snapshot_without]].
  assert (Hconn : ∃ b1, get_or_init_conn (Ok tt) b = (b1, Ok tt) ∧ cfg b1 = cfg b ∧ state b1 = state b).
  { unfold get_or_init_conn. destruct (conn_cell b); eexists; split; try reflexivity; by split. }
  destruct Hconn as (b1 & Hb1 & Hc1 & Hs1). cbn [watch_task]. rewrite Hb1. cbn [fst].
  unfold cbind at 1, cresult, list_peers, cbind at 1. rewrite Hc1, Hs1, Hcfg, Hlist. reflexivity.
Qed.
End departure.
