(* ===== verification/UpkeepRun.v ===== *)
(** * Upkeep among other replicas

    What the calls of the maintenance task ([Maintenance.v]) and of
    [complete_key_index] ([Backend.v]) leave of the store's keys: peers,
    leases and the completeness marker are other keys. *)

From Stdlib Require Import Ascii.
From S2P Require Import Prelude Redis Client DbFacts Keys KvScripts KvIndex KvStore KvOps KvUpkeep Footprint Lease Peer PeerRun Maintenance.

(** ** Scripts outside the store's keys *)

Section outside.
Context {Srv : Type} `{RedisLaws Srv} `{PeerJson} `{Chrono} (prefix : string).
Context (Hprefix : is_empty prefix = false).
Local Abbreviation kv := (with_connection_manager prefix).
Local Abbreviation outside := (λ k, ¬ store_key prefix k).

Lemma peers_key_outside : outside (peers_index_key prefix).
Proof.
  intros [E|[E|[key E]]].
  - by apply append_inj_l in E.
  - by apply append_inj_l in E.
  - rewrite (full_key_suffix kv prefix eq_refl Hprefix) in E. by apply append_inj_l in E.
Qed.

Lemma marker_outside : outside (complete_key kv).
Proof. intros Hk. by apply (complete_key_outside prefix Hprefix (complete_key kv) Hk). Qed.

(** An invariant that only looks at the store's keys. *)
Context (T : Z) (I : Z → Srv → Prop) (Hstable : stable I).
Context (Hframe : ∀ t s s', (∀ m, store_key prefix m → view t s' !! m = view t s !! m) → I t s → I t s').

Lemma keeps_within {A} (sc : script A) : within outside sc → keeps T I sc.
Proof.
  intros Hsc t s _ Hs. apply (Hframe t s); [|done]. intros m Hm.
  apply (run_view_outside outside); [done|]. tauto.
Qed.

Lemma preserves_within {A} (sc : script A) : within outside sc → preserves T I (invoke sc).
Proof. intros. by apply preserves_invoke, keeps_within. Qed.

Lemma preserves_scan_peers fuel pat c keys : preserves T I (scan_peers (Srv := Srv) fuel pat c keys).
Proof.
  revert c keys. induction fuel as [|fuel IH]; intros c keys; cbn [scan_peers]; [apply yields_fail|].
  pose proof (forwards_scan_peers (Srv := Srv)).
  apply preserves_bind; [|intros []; forwards|intros [next batch]; case_match; [by apply yields_ret|done]].
  apply yields_map_err, yields_request; [done|]. intros t s _ Hs.
  pose proof (scan_view t c pat 1000 s) as Hv. destruct (scan t c pat 1000 s) as [s' [n b]].
  split; [|done]. apply (Hframe t s); [|done]. intros m _. cbn in *. by rewrite Hv.
Qed.

Lemma preserves_read keys : preserves T I (read_registrations (Srv := Srv) prefix keys).
Proof.
  unfold read_registrations. destruct keys as [|k keys]; [by apply yields_ret|].
  apply preserves_end, yields_map_err, preserves_within. by apply within_call.
Qed.

Lemma preserves_registrations fuel l : preserves T I (registrations (Srv := Srv) fuel prefix l).
Proof.
  pose proof (forwards_scan_peers (Srv := Srv)). pose proof (forwards_read (Srv := Srv) prefix).
  pose proof (@forwards_instant Srv).
  unfold registrations. apply preserves_bind; [by intros w|intros; forwards|].
  intros now. case_match; [by apply yields_ret|].
  apply preserves_bind; [apply preserves_scan_peers|intros; forwards|]. intros keys.
  apply preserves_bind; [apply preserves_read|intros; forwards|]. intros found.
  by apply (preserves_end T I instant).
Qed.

Lemma preserves_listing fuel l : preserves T I (list_registrations (Srv := Srv) fuel prefix l).
Proof.
  pose proof (forwards_registrations (Srv := Srv) prefix). pose proof (forwards_read (Srv := Srv) prefix).
  unfold list_registrations.
  apply preserves_bind; [apply preserves_now|intros; forwards|]. intros now.
  apply preserves_bind; [|intros; forwards|].
  { apply yields_map_err, preserves_pipeline; [done|].
    repeat constructor; apply keeps_within, within_pcall; [done|exact peers_key_outside]. }
  intros rs. apply preserves_bind; [apply preserves_read|intros; forwards|]. intros found.
  eapply yields_bind; [apply preserves_registrations|intros []; forwards|]. intros [] _. by apply yields_ret.
Qed.

Lemma preserves_mark started : preserves T I (RedisKv.mark_index_complete (Srv := Srv) kv started).
Proof.
  apply preserves_end, yields_map_err, preserves_within, within_call. exact marker_outside.
Qed.
End outside.

(** ** What is left of the network *)

Section left.
Context {Srv : Type} `{RedisServer Srv} `{PeerJson} (prefix : string).

Lemma shrinks_send_all cs : shrinks (Srv := Srv) (send_all cs).
Proof. induction cs; cbn [send_all]; shrinks. Qed.

Lemma shrinks_scan_peers fuel pat c keys : shrinks (scan_peers (Srv := Srv) fuel pat c keys).
Proof. revert c keys. induction fuel as [|fuel IH]; intros; cbn [scan_peers]; shrinks. Qed.

Lemma shrinks_listing fuel l : shrinks (list_registrations (Srv := Srv) fuel prefix l).
Proof.
  pose proof shrinks_send_all. pose proof shrinks_scan_peers.
  assert (Hi : ∀ E, shrinks (Srv := Srv) (instant (E := E))) by (intros; by apply shrinks_same).
  unfold list_registrations, registrations, read_registrations. shrinks.
Qed.
End left.

(** ** The gate on a quiet network *)

Lemma gate_quiet {Srv : Type} `{RedisLaws Srv} `{PeerJson} cfg u r (w : world Srv) :
  let ck := complete_key (with_connection_manager (key_prefix cfg)) in
  let d := view (w_time w) (w_srv w) in
  quiet w →
  ∃ s, gate_index cfg u r w =
         (set_srv s w, Ok (set_index_ready (negb u && bool_decide (is_Some (d !! ck))) r)) ∧
       view (w_time w) s = if u then delete ck d else d.
Proof.
  intros ck d Hq. set (there := if decide (is_Some (d !! ck)) then 1 else 0).
  assert (Hthere : (0 <? there) = bool_decide (is_Some (d !! ck)))
    by (unfold there; repeat case_decide; repeat case_bool_decide; done).
  unfold gate_index, RedisKv.invalidate_index, RedisKv.index_complete, RedisKv.await, query. fold ck.
  destruct u.
  - destruct (invoke_quiet_view (call (DEL ck)) w (delete ck d) (Ok (RInt there))) as (s & Hs & Hv);
      [done|by rewrite d_run_call_end|].
    exists s. split; [|done]. unfold cbind, cresult, cmap_err. by rewrite Hs.
  - destruct (invoke_quiet_view (call (EXISTS ck)) w d (Ok (RInt there))) as (s & Hs & Hv);
      [done|by rewrite d_run_call_end|].
    exists s. split; [|done]. unfold cbind, cresult, cmap_err. rewrite Hs. cbn [map_err].
    unfold cret. by rewrite Hthere.
Qed.

(** The keys of a lease are not the store's, the registry's set or the
    marker. *)
Lemma lease_key_elsewhere prefix kind name k :
  is_empty prefix = false → is_empty kind = false → str_has "#" kind = false → str_has ":" kind = false →
  k = (lease_keys prefix kind name).1 ∨ k = (lease_keys prefix kind name).2 →
  ¬ store_key prefix k ∧ k ≠ peers_index_key prefix ∧
  k ≠ complete_key (with_connection_manager prefix).
Proof.
  intros Hp Hk Hhash Hcolon Hor.
  assert (∃ c rest, k = prefix +:+ String c rest ∧ c ≠ "#"%char ∧ c ≠ ":"%char) as (c & rest & -> & Hc1 & Hc2).
  { destruct kind as [|c kind]; [done|]. cbn in Hhash, Hcolon.
    apply orb_false_iff in Hhash as [Hh%bool_decide_eq_false _].
    apply orb_false_iff in Hcolon as [Hc%bool_decide_eq_false _].
    destruct Hor as [->| ->]; do 2 eexists; (split; [reflexivity|done]). }
  split; [|split; intros E%append_inj_l; injection E; congruence].
  intros [E|[E|[key E]]].
  - apply append_inj_l in E. injection E. congruence.
  - apply append_inj_l in E. injection E. congruence.
  - rewrite (full_key_suffix (with_connection_manager prefix) prefix eq_refl Hp) in E.
    apply append_inj_l in E. injection E. congruence.
Qed.

(** ** Completing the index *)

Section complete.
Context {Srv : Type} `{RedisLaws Srv} `{PeerJson} `{Chrono} (prefix : string).
Context (Hprefix : is_empty prefix = false).
Local Abbreviation kv := (with_connection_manager prefix).

Lemma key_inv_frame key t (s s' : Srv) :
  (∀ m, store_key prefix m → view t s' !! m = view t s !! m) → key_inv prefix key t s → key_inv prefix key t s'.
Proof.
  intros Hsame [Hl Hk].
  destruct (kv_step_kept prefix Hprefix false (t, s) (t, s') (step_other prefix false t s s' Hsame) Hl)
    as [[Hl' Hk'] _].
  split; [exact Hl'|]. by apply Hk'.
Qed.

(** A backfill and, if there is one, whatever follows it that keeps the
    store's keys. *)
Lemma backfill_then {A} T fuel (w w1 w2 : world Srv) n (m : client Srv cluster_error A) (r : result A cluster_error) :
  good T (layout_inv prefix) w →
  (∀ key, others_ok T (key_inv prefix key) (w_net w)) →
  RedisKv.backfill_index kv fuel w = (w1, Ok n) →
  (∀ key, preserves T (key_inv prefix key) m) → forwards m → m w1 = (w2, r) → w_time w2 ≤ T →
  indexed kv (view (w_time w2) (w_srv w2)).
Proof.
  intros Hw Ho Hback Hm Hf Hrun HT.
  assert (HT1 : w_time w1 ≤ T) by (specialize (Hf w1); rewrite Hrun in Hf; cbn in Hf; lia).
  assert (Hnet : w_net w1 `suffix_of` w_net w).
  { pose proof (shrinks_backfill prefix fuel 0 0 w) as Hs. unfold RedisKv.backfill_index in Hback.
    by rewrite Hback in Hs. }
  assert (Hall : ∀ key, key_inv prefix key (w_time w2) (w_srv w2)).
  { intros key. specialize (Hm key w1). rewrite Hrun in Hm. apply Hm; [done|]. split.
    - eapply (backfill_key prefix Hprefix T key fuel w w1 n); [|done|done]. by split.
    - destruct Hnet as [pre Hnet]. specialize (Ho key). rewrite Hnet in Ho.
      by apply Forall_app in Ho as [_ ?]. }
  split; [apply (Hall "")|]. intros key. apply (Hall key).
Qed.
End complete.

(** The task's completion, when it raises the flag, has indexed every key. *)
Lemma complete_index_indexed {Srv : Type} `{RedisLaws Srv} `{PeerJson} `{Chrono}
    (fuel : nat) (cfg : settings) (T : Z) (r r' : replica) (w w' : world Srv) :
  is_empty (Maintenance.key_prefix cfg) = false →
  good T (layout_inv (Maintenance.key_prefix cfg)) w →
  (∀ key, others_ok T (key_inv (Maintenance.key_prefix cfg) key) (w_net w)) →
  complete_index fuel cfg r w = (w', Ok r') → w_time w' ≤ T →
  index_ready r = false → index_ready r' = true →
  indexed (with_connection_manager (Maintenance.key_prefix cfg)) (view (w_time w') (w_srv w')).
Proof.
  intros Hprefix Hw Ho Hrun HT Hr Hr'. unfold complete_index in Hrun.
  unfold cbind at 1, now_ms in Hrun. unfold cbind at 1, cresult at 1 in Hrun.
  destruct (RedisKv.backfill_index _ fuel w) as [w1 [n|e]] eqn:Hback; [|injection Hrun as <- <-; congruence].
  eapply (backfill_then (key_prefix cfg) Hprefix T fuel w w1 w' n _ (Ok r') Hw Ho Hback);
    [intros key| |exact Hrun|done].
  + pose proof (key_inv_stable (key_prefix cfg) key) as Hst.
    pose proof (key_inv_frame (key_prefix cfg) Hprefix key) as Hfr.
    pose proof (forwards_listing (Srv := Srv) (key_prefix cfg)).
    apply preserves_bind; [|intros; unfold RedisKv.mark_index_complete, RedisKv.await; forwards|].
    * apply preserves_result. by apply preserves_listing.
    * intros [[l regs]|e]; [|by apply yields_ret]. destruct (any_unindexed regs); [by apply yields_ret|].
      apply preserves_bind; [|intros; forwards|intros [|]; by apply yields_ret].
      apply preserves_result. by apply preserves_mark.
  + pose proof (forwards_listing (Srv := Srv) (key_prefix cfg)).
    unfold RedisKv.mark_index_complete, RedisKv.await. forwards.
Qed.
