(* ===== verification/UpkeepQuiet.v ===== *)
(** * Upkeep on a quiet network

    Step by step, what a turn of the maintenance task ([Maintenance.v]) does
    when nobody else acts: how much fuel a turn needs, which keys each of its
    steps leaves alone, and that it completes the index. *)

From S2P Require Import Prelude Redis Client DbFacts Keys KvScripts KvIndex KvStore KvUpkeep KvSweep Footprint Text Lease LeaseSpec LeaseRun Peer PeerRun Maintenance UpkeepRun.

(** ** More fuel does not hurt *)

Section fuel.
Context {Srv : Type} `{RedisServer Srv}.

(** A result that came with some fuel comes with more. *)
Definition settles {E A} (f : nat → client Srv E A) : Prop :=
  ∀ n n' w w' a, (n ≤ n')%nat → f n w = (w', Ok a) → f n' w = (w', Ok a).

Lemma settles_const {E A} (m : client Srv E A) : settles (λ _, m).
Proof. by intros n n' w w' a _ ?. Qed.

Lemma settles_bind {E A B} (f : nat → client Srv E A) (g : nat → A → client Srv E B) :
  settles f → (∀ a, settles (λ n, g n a)) → settles (λ n, cbind (f n) (g n)).
Proof.
  intros Hf Hg n n' w w' b Hle (w1 & a & Ha & Hb)%cbind_ok.
  unfold cbind. rewrite (Hf n n' w w1 a Hle Ha). by apply (Hg a n n').
Qed.

Lemma settles_scan_peers `{PeerJson} pat c keys : settles (λ n, scan_peers (Srv := Srv) n pat c keys).
Proof.
  intros n. revert c keys. induction n as [|n IH]; intros c keys [|n'] w w' a Hle; cbn [scan_peers]; try done;
    [lia|]. intros (w1 & [next batch] & Hs & Hrest)%cbind_ok. unfold cbind. rewrite Hs.
  destruct (next =? 0); [done|]. apply (IH _ _ n'); [lia|done].
Qed.

Lemma settles_registrations `{PeerJson} prefix l : settles (λ n, registrations (Srv := Srv) n prefix l).
Proof.
  unfold registrations. apply (settles_bind (λ _, instant)); [apply settles_const|]. intros now.
  destruct (fresh now l); [apply settles_const|]. apply settles_bind; [apply settles_scan_peers|].
  intros keys. apply settles_const.
Qed.

Lemma settles_listing `{PeerJson} prefix l : settles (λ n, list_registrations (Srv := Srv) n prefix l).
Proof.
  unfold list_registrations. apply (settles_bind (λ _, now_ms)); [apply settles_const|]. intros now.
  apply (settles_bind (λ _, _)); [apply settles_const|]. intros rs.
  apply (settles_bind (λ _, _)); [apply settles_const|]. intros found.
  apply settles_bind; [apply settles_registrations|]. intros [l' old]. apply settles_const.
Qed.

Lemma settles_sweep kv gone : settles (λ n, RedisKv.sweep_loop (Srv := Srv) kv n gone).
Proof.
  intros n. revert gone. induction n as [|n IH]; intros gone [|n'] w w' a Hle; cbn [RedisKv.sweep_loop]; try done;
    [lia|]. intros (w1 & now & Hnow & (w2 & r & Hr & Hrest)%cbind_ok)%cbind_ok.
  unfold cbind at 1. rewrite Hnow. unfold cbind at 1. rewrite Hr. revert Hrest.
  case_bool_decide; [done|]. intros (w3 & k & Hk & Hrest)%cbind_ok. unfold cbind. rewrite Hk.
  revert Hrest. destruct (_ <? SWEEP_BATCH); [done|]. apply (IH _ n'). lia.
Qed.

Lemma settles_backfill kv c k : settles (λ n, RedisKv.backfill_loop (Srv := Srv) kv n c k).
Proof.
  intros n. revert c k. induction n as [|n IH]; intros c k [|n'] w w' a Hle; cbn [RedisKv.backfill_loop]; try done;
    [lia|]. intros (w1 & [next batch] & Hs & (w2 & m & Hm & Hrest)%cbind_ok)%cbind_ok.
  unfold cbind at 1. rewrite Hs. unfold cbind at 1. rewrite Hm. revert Hrest.
  destruct (next =? 0); [done|]. apply (IH _ _ n'). lia.
Qed.
End fuel.

(** ** Which keys a step leaves alone *)

Section quiet.
Context {Srv : Type} `{RedisLaws Srv} `{PeerJsonLaws} `{Chrono} (prefix : string).
Context (Hlit : glob_escape prefix = prefix) (Hprefix : is_empty prefix = false).
Local Abbreviation kv := (with_connection_manager prefix).
Local Abbreviation lk := (render prefix (KLock SWEEP_LOCK)).
Local Abbreviation fk := (render prefix (KLockFence SWEEP_LOCK)).

Lemma render_ne k1 k2 : suffix k1 ≠ suffix k2 → render prefix k1 ≠ render prefix k2.
Proof. intros Hne. rewrite !render_suffix by done. intros E%append_inj_l. done. Qed.

(** [d'] is [d] but for the keys called [ks]. *)
Definition differs (ks : list redis_key) (d d' : db) : Prop :=
  ∀ k, render prefix k ∉ (render prefix <$> ks) → d' !! render prefix k = d !! render prefix k.

Lemma differs_refl ks d : differs ks d d.
Proof. by intros k _. Qed.

Lemma differs_trans ks d1 d2 d3 : differs ks d1 d2 → differs ks d2 d3 → differs ks d1 d3.
Proof. intros H12 H23 k Hk. by rewrite H23, H12. Qed.

Lemma differs_mono ks ks' d d' : ks ⊆ ks' → differs ks d d' → differs ks' d d'.
Proof.
  intros Hks Hd k Hk. apply Hd. intros Hin. apply Hk.
  apply list_elem_of_fmap in Hin as (k' & -> & Hin). apply list_elem_of_fmap. eauto.
Qed.

Lemma differs_at ks d d' k :
  differs ks d d' → Forall (λ k', suffix k ≠ suffix k') ks → d' !! render prefix k = d !! render prefix k.
Proof.
  intros Hd Hks. apply Hd. intros (k' & E & Hin)%list_elem_of_fmap.
  revert E. apply render_ne. by eapply (proj1 (Forall_forall _ _) Hks).
Qed.

(** What upkeep looks at: the registry has no older build. *)
Definition current (d : db) : Prop :=
  zset_ok d (peers_index_key prefix) ∧ ∀ id reg, reg_at prefix d id = Some reg → kv_index reg = true.

(** Keys whose change does not concern the registry. *)
Definition not_peer (k : redis_key) : Prop :=
  match k with KPeer _ | KPeers => False | _ => True end.

Lemma differs_current ks d d' :
  Forall not_peer ks → differs ks d d' → current d → current d'.
Proof.
  intros Hks Hd [Hz Hr]. split.
  - apply (zset_ok_same _ d); [|done]. apply (differs_at ks d d' KPeers Hd).
    eapply Forall_impl; [exact Hks|]. by intros [].
  - intros id reg. unfold reg_at.
    assert (d' !! peer_key prefix id = d !! peer_key prefix id) as ->; [|apply Hr].
    apply (differs_at ks d d' (KPeer id) Hd). eapply Forall_impl; [exact Hks|]. by intros [].
Qed.

Lemma current_purge now d : current d → current (purge prefix now d).
Proof.
  intros [Hz Hr]. split.
  - unfold purge. unfold zset_ok in *.
    destruct (d !! peers_index_key prefix) as [[[v|z] [dl|]]|] eqn:E; try done; [|by rewrite E].
    apply zset_ok_put_zset.
  - intros id reg. unfold reg_at. rewrite purge_other by apply peer_key_ne_index. apply Hr.
Qed.

Lemma purge_differs now d : differs [KPeers] d (purge prefix now d).
Proof. intros k Hk. apply purge_other. intros E. apply Hk. rewrite E. by left. Qed.

(** The memory of a scan has no older build that is young enough to count. *)
Definition remembers_current (t : Z) (l : legacy_scan) : Prop :=
  ∀ found id reg, fresh t l = Some found → (id, reg) ∈ found → kv_index reg = true.

Lemma forgotten t l : remembers_current t (forget l).
Proof. by intros found id reg. Qed.

(** ** The steps *)

Lemma layout_differs ks d d' :
  Forall (λ k, match k with KData _ | KIndex | KExpiry => False | _ => True end) ks →
  differs ks d d' → layout kv d → layout kv d'.
Proof.
  intros Hks Hd Hl. destruct (kept_same prefix d d') as [Hl' _]; [|exact Hl|exact Hl'].
  assert (Hne : ∀ k, match k with KData _ | KIndex | KExpiry => True | _ => False end →
    d' !! render prefix k = d !! render prefix k).
  { intros k Hk. apply (differs_at ks d d' k Hd). eapply Forall_impl; [exact Hks|].
    intros k'. by destruct k, k'. }
  intros m [->|[->|[key ->]]]; [by apply (Hne KIndex)|by apply (Hne KExpiry)|by apply (Hne (KData key))].
Qed.

Lemma listing_current (w : world Srv) l :
  quiet w → current (view (w_time w) (w_srv w)) → remembers_current (w_time w) l →
  ∃ fuel s l' out,
    list_registrations fuel prefix l w = (set_srv s w, Ok (l', out)) ∧ any_unindexed out = false ∧
    differs [KPeers] (view (w_time w) (w_srv w)) (view (w_time w) s) ∧ current (view (w_time w) s).
Proof.
  intros Hq [Hz Hr] Hl.
  destruct (list_registrations_quiet prefix w l Hlit Hq Hz) as (fuel & s & l' & out & Hrun & Hv & Hout).
  exists fuel, s, l', out. rewrite Hv. split; [done|].
  split; [|split; [apply purge_differs|by apply current_purge]].
  apply not_true_is_false. unfold any_unindexed. intros ([id reg] & Hin & Hreg)%existsb_exists.
  cbn in Hreg. apply negb_true_iff in Hreg. apply list_elem_of_In, Hout in Hin.
  destruct Hin as [[_ Hat]|(_ & _ & Hat)]; [specialize (Hr _ _ Hat); congruence|].
  destruct (fresh (w_time w) l) as [found|] eqn:Hf; [specialize (Hl _ _ _ Hf Hat); congruence|].
  specialize (Hr _ _ Hat). congruence.
Qed.

Lemma try_acquire_differs h ttl pct (w w' : world Srv) r :
  quiet w → try_acquire_async SWEEP_LOCK lk fk h ttl pct w = (w', r) →
  differs [KLock SWEEP_LOCK; KLockFence SWEEP_LOCK] (view (w_time w) (w_srv w)) (view (w_time w) (w_srv w')).
Proof.
  intros Hq. unfold try_acquire_async. change (is_blank SWEEP_LOCK) with false. cbv beta iota.
  unfold cbind, cmap_err. rewrite (invoke_quiet _ w Hq).
  set (sc := acquire_script lk fk h _).
  intros Hrun. assert (w_srv w' = (Redis.run (w_time w) sc (w_srv w)).1) as ->.
  { destruct (Redis.run (w_time w) sc (w_srv w)) as [s [[n|]|e]]; cbn in Hrun; by injection Hrun as <- _. }
  intros k Hk. apply (run_view_outside (λ m, m = lk ∨ m = fk)).
  - unfold sc, acquire_script. repeat first
      [ apply within_bind; [apply within_call; cbn; tauto|intros] | case_match | done ].
  - cbn in Hk. rewrite !not_elem_of_cons in Hk. tauto.
Qed.

Lemma framed_differs d d' :
  framed (index_key kv) (expiry_key kv) d d' → differs [KIndex; KExpiry] d d'.
Proof.
  intros Hf k Hk. cbn [fmap list_fmap] in Hk. rewrite !not_elem_of_cons in Hk. apply Hf; tauto.
Qed.

Lemma mark_quiet started (w : world Srv) :
  quiet w →
  ∃ s, RedisKv.mark_index_complete kv started w = (set_srv s w, Ok tt) ∧
       differs [KComplete] (view (w_time w) (w_srv w)) (view (w_time w) s) ∧
       is_Some (view (w_time w) s !! complete_key kv).
Proof.
  intros Hq. set (v := of_int (srv_policy (Srv := Srv)) started).
  destruct (invoke_quiet_view (call (SET (complete_key kv) v false None)) w
    (<[complete_key kv := RVal (RStr v) None]> (view (w_time w) (w_srv w))) (Ok RStatus)) as (s & Hs & Hv);
    [done|by rewrite d_run_call_end|].
  exists s. rewrite Hv. split; [|split; [|rewrite lookup_insert_eq; eauto]].
  - unfold RedisKv.mark_index_complete, cbind, RedisKv.await, cmap_err, query. fold v. by rewrite Hs.
  - intros k Hk. cbn [fmap list_fmap] in Hk. rewrite not_elem_of_cons in Hk.
    apply lookup_insert_ne. intros E. by apply (proj1 Hk).
Qed.

(** ** Completion *)

Lemma complete_index_quiet cfg r (w : world Srv) :
  Maintenance.key_prefix cfg = prefix →
  quiet w → layout kv (view (w_time w) (w_srv w)) → current (view (w_time w) (w_srv w)) →
  ∃ N s l,
    (∀ fuel, (N ≤ fuel)%nat →
       complete_index fuel cfg r w = (set_srv s w, Ok (set_index_ready true (set_peer_scan l r)))) ∧
    differs [KIndex; KExpiry; KPeers; KComplete] (view (w_time w) (w_srv w)) (view (w_time w) s) ∧
    is_Some (view (w_time w) s !! complete_key kv).
Proof.
  intros Hcfg Hq Hl Hc.
  destruct (backfill_returns prefix Hprefix w Hq Hl) as (f1 & s1 & n & Hback & Hl1 & Hf1%framed_differs).
  assert (Hc1 : current (view (w_time w) s1)) by (eapply differs_current; [|exact Hf1|done]; by repeat constructor).
  destruct (listing_current (set_srv s1 w) (forget (peer_scan r))) as (f2 & s2 & l & out & Hlist & Hout & Hd2 & _);
    [done|done|apply forgotten|].
  destruct (mark_quiet (clock_ms w) (set_srv s2 w)) as (s3 & Hmark & Hd3 & Hm); [done|].
  cbn [set_srv w_time w_srv] in Hd2, Hd3, Hm.
  exists (f1 `max` f2)%nat, s3, l. split; [|split; [|done]].
  - intros fuel Hfuel. unfold complete_index. rewrite Hcfg. unfold cbind at 1, now_ms.
    unfold cbind at 1, cresult at 1. unfold RedisKv.backfill_index in *.
    rewrite (settles_backfill kv 0 0 f1 fuel w _ n ltac:(lia) Hback).
    cbn [set_peer_scan peer_scan]. unfold cbind at 1, cresult at 1.
    rewrite (settles_listing prefix _ f2 fuel _ _ _ ltac:(lia) Hlist). rewrite Hout.
    unfold cbind at 1, cresult at 1. fold (set_srv s1 w). fold (set_srv s2 w).
    change (set_srv s2 (set_srv s1 w)) with (set_srv s2 w). rewrite Hmark. done.
  - eapply differs_trans; [eapply differs_mono; [|exact Hf1]; set_solver|].
    eapply differs_trans; [eapply differs_mono; [|exact Hd2]; set_solver|].
    eapply differs_mono; [|exact Hd3]. set_solver.
Qed.

(** ** A whole turn *)

(** Keys that are neither the store's nor the registry's ids. *)
Definition aside (k : redis_key) : Prop :=
  match k with KData _ | KIndex | KExpiry | KPeer _ => False | _ => True end.

Lemma none_last_differs t now ks d d' :
  Forall aside ks → differs ks d d' → layout kv d → none_last prefix t now d → none_last prefix t now d'.
Proof.
  intros Hks Hd Hl Hn m Hm.
  assert (He : d' !! expiry_key kv = d !! expiry_key kv).
  { apply (differs_at ks d d' KExpiry Hd). eapply Forall_impl; [exact Hks|]. by intros []. }
  assert (Hm' : m ∈ due prefix now d).
  { unfold due, expiry_of in *. by rewrite (zset_of_same _ d d' He) in Hm. }
  specialize (Hn m Hm'). apply elem_of_due in Hm' as (x & Hx & _).
  apply (layout_expiry_member _ _ Hl) in Hx as [key ->]. unfold time_left in *.
  assert (d' !! full_key kv key = d !! full_key kv key) as ->; [|done].
  apply (differs_at ks d d' (KData key) Hd). eapply Forall_impl; [exact Hks|]. by intros [].
Qed.

Lemma sweep_quiet (w : world Srv) :
  quiet w → clock_ms w < 2 ^ 53 → layout kv (view (w_time w) (w_srv w)) →
  none_last prefix (w_time w) (clock_ms w) (view (w_time w) (w_srv w)) →
  ∃ N s n, (∀ fuel, (N ≤ fuel)%nat → RedisKv.sweep kv fuel w = (set_srv s w, Ok n)) ∧
    layout kv (view (w_time w) s) ∧
    differs [KIndex; KExpiry] (view (w_time w) (w_srv w)) (view (w_time w) s).
Proof.
  intros Hq Hc Hl Hn. set (N := S (size (due prefix (clock_ms w) (view (w_time w) (w_srv w))))).
  destruct (sweep_loop_quiet prefix Hprefix N 0 w) as (s & Hrun & [Hf _ _ Hlay]); [done..| |].
  { unfold N, SWEEP_BATCH. lia. }
  exists N, s. eexists. split; [|split; [done|by apply framed_differs]].
  intros fuel Hfuel. by apply (settles_sweep kv 0 N).
Qed.

(** The holder's part, when the index is not complete yet. *)
Lemma holder_quiet cfg r (w : world Srv) :
  Maintenance.key_prefix cfg = prefix →
  quiet w → clock_ms w < 2 ^ 53 → layout kv (view (w_time w) (w_srv w)) →
  current (view (w_time w) (w_srv w)) →
  none_last prefix (w_time w) (clock_ms w) (view (w_time w) (w_srv w)) →
  settled cfg (w_time w) r = true → index_ready r = false →
  ∃ N s l,
    (∀ fuel, (N ≤ fuel)%nat →
       holder_work fuel cfg false r w = (set_srv s w, Ok (set_index_ready true (set_peer_scan l r)))) ∧
    differs [KIndex; KExpiry; KPeers; KComplete] (view (w_time w) (w_srv w)) (view (w_time w) s) ∧
    is_Some (view (w_time w) s !! complete_key kv) ∧ indexed kv (view (w_time w) s).
Proof.
  intros Hcfg Hq Hclk Hl Hc Hn Hset Hr.
  assert (Hsweep : ∃ N s (x : result Z cluster_error), (∀ fuel, (N ≤ fuel)%nat →
      (if 0 <? kv_sweep_interval_ms cfg then cresult (RedisKv.sweep kv fuel) else cret (Ok 0)) w =
        (set_srv s w, Ok x : result _ cluster_error)) ∧
    layout kv (view (w_time w) s) ∧
    differs [KIndex; KExpiry] (view (w_time w) (w_srv w)) (view (w_time w) s)).
  { destruct (0 <? kv_sweep_interval_ms cfg).
    - destruct (sweep_quiet w Hq Hclk Hl Hn) as (N & s & n & Hrun & Hl' & Hd').
      exists N, s, (Ok n). split; [|done]. intros fuel Hfuel. unfold cresult. by rewrite Hrun.
    - exists 0%nat, (w_srv w), (Ok 0). split; [by destruct w|]. split; [done|apply differs_refl]. }
  destruct Hsweep as (N1 & s1 & x & Hsweep & Hl1 & Hd1).
  assert (Hc1 : current (view (w_time w) s1)) by (eapply differs_current; [|exact Hd1|done]; by repeat constructor).
  destruct (complete_index_quiet cfg r (set_srv s1 w)) as (N2 & s2 & l & Hcomp & Hd2 & Hm); [done..|].
  cbn [set_srv w_time w_srv] in Hd2, Hm.
  exists (N1 `max` N2)%nat, s2, l. split; [|split; [|split; [done|]]].
  - intros fuel Hfuel. unfold holder_work. rewrite Hcfg. unfold cbind at 1. rewrite Hsweep by lia.
    unfold cbind at 1, instant. cbn [set_srv w_time]. rewrite Hset, Hr. cbn [negb andb].
    fold (set_srv s1 w). by rewrite Hcomp by lia.
  - eapply differs_trans; [|exact Hd2]. eapply differs_mono; [|exact Hd1]. set_solver.
  - specialize (Hcomp N2 ltac:(lia)).
    pose proof (complete_index_indexed N2 cfg (w_time w) r (set_index_ready true (set_peer_scan l r))
      (set_srv s1 w) (set_srv s2 w)) as Hix. rewrite Hcfg in Hix.
    assert (Hnone : ∀ I, others_ok (w_time w) I (w_net (set_srv s1 w))) by (intros I; cbn; rewrite Hq; constructor).
    apply (Hix Hprefix (conj Hl1 (Hnone _)) (λ key, Hnone _) Hcomp); [cbn; lia|done..].
Qed.

(** The registry, the lock and the marker are no store keys. *)
Lemma turn_quiet cfg r (w : world Srv) l :
  let d := view (w_time w) (w_srv w) in
  Maintenance.key_prefix cfg = prefix →
  quiet w → 0 ≤ w_time w ≤ 2 ^ 53 → clock_ms w < 2 ^ 53 →
  as_millis (Z.min duration_max (sweep_interval cfg * 2)) ≤ 2 ^ 53 →
  layout kv d → current d → none_last prefix (w_time w) (clock_ms w) d →
  d !! complete_key kv = None →
  represents (Srv := Srv) lk fk d l → held_by l = None → 0 ≤ fence l < 2 ^ 53 →
  held r = None → settled cfg (w_time w) r = true → remembers_current (w_time w) (peer_scan r) →
  ∃ fuel s r',
    turn fuel cfg true r w = (set_srv s w, Ok r') ∧ index_ready r' = true ∧ is_Some (held r') ∧
    indexed kv (view (w_time w) s) ∧ is_Some (view (w_time w) s !! complete_key kv) ∧
    ∀ key, view (w_time w) s !! full_key kv key = d !! full_key kv key.
Proof.
  intros d Hcfg Hq Ht Hclk Hint Hl Hc Hn Hmark Hrep Hh Hf Hr Hset Hmem.
  destruct (listing_current w (peer_scan r) Hq Hc Hmem) as (F1 & s1 & l1 & regs & Hlist & Hun & Hd1 & Hc1).
  set (r1 := set_peer_scan l1 r).
  destruct (gate_quiet cfg false r1 (set_srv s1 w) Hq) as (s2 & Hgate & Hv2).
  rewrite Hcfg in Hgate. cbn [set_srv w_time w_srv negb andb] in Hgate, Hv2.
  assert (Hck : view (w_time w) s1 !! complete_key kv = None).
  { rewrite <- Hmark. apply (differs_at [KPeers] d _ KComplete Hd1). by repeat constructor. }
  rewrite Hck in Hgate. rewrite bool_decide_eq_false_2 in Hgate by (by intros [? ?]).
  set (r2 := set_index_ready false r1) in *.
  assert (Hrep2 : represents (Srv := Srv) lk fk (view (w_time w) s2) l).
  { unfold represents in *. rewrite Hv2.
    rewrite (differs_at [KPeers] d _ (KLock SWEEP_LOCK) Hd1) by (by repeat constructor).
    rewrite (differs_at [KPeers] d _ (KLockFence SWEEP_LOCK) Hd1) by (by repeat constructor). done. }
  destruct (try_acquire_quiet lk fk (lease_key_ne_fence prefix "locks" SWEEP_LOCK) SWEEP_LOCK (node_id cfg)
    (Z.min duration_max (sweep_interval cfg * 2)) 50 (set_srv s2 w) l) as (s3 & Hacq);
    [done..|]. rewrite Hh in Hacq. destruct Hacq as [Hacq _].
  pose proof (try_acquire_differs _ _ _ (set_srv s2 w) _ _ Hq Hacq) as Hd3.
  cbn [set_srv w_time w_srv] in Hd3. rewrite Hv2 in Hd3.
  set (st := fresh_handle _ _ _ _ _ _) in Hacq. set (r3 := set_held (Some st) r2).
  assert (Hd13 : differs [KPeers; KLock SWEEP_LOCK; KLockFence SWEEP_LOCK] d (view (w_time w) s3)).
  { eapply differs_trans; [eapply differs_mono; [|exact Hd1]; set_solver|].
    eapply differs_mono; [|exact Hd3]. set_solver. }
  destruct (holder_quiet cfg r3 (set_srv s3 w)) as (F2 & s4 & l4 & Hhold & Hd4 & Hm4 & Hi4); try done.
  { eapply layout_differs; [|exact Hd13|exact Hl]. by repeat constructor. }
  { eapply differs_current; [|exact Hd3|exact Hc1]. by repeat constructor. }
  { eapply none_last_differs; [|exact Hd13|exact Hl|exact Hn]. by repeat constructor. }
  cbn [set_srv w_time w_srv] in Hd4, Hm4, Hi4.
  exists (F1 `max` F2)%nat, s4. eexists. split; [|split; [|split; [|split; [exact Hi4|split; [exact Hm4|]]]]].
  - unfold turn. cbn [negb]. unfold cbind at 1, cresult at 1. rewrite Hcfg.
    rewrite (settles_listing prefix _ F1 (F1 `max` F2)%nat _ _ _ ltac:(lia) Hlist). rewrite Hun.
    unfold cbind at 1, instant. fold r1. unfold cbind at 1. rewrite Hgate.
    unfold cbind at 1, renew_held. cbn [r2 r1 set_index_ready set_peer_scan held]. rewrite Hr. cbn [cret].
    unfold cbind at 1, acquire_lock. cbn [r2 r1 set_index_ready set_peer_scan held]. rewrite Hr, Hcfg.
    change (lease_keys prefix "locks" SWEEP_LOCK) with (lk, fk). cbv beta iota.
    unfold cbind at 1, cresult at 1. change (set_srv s2 (set_srv s1 w)) with (set_srv s2 w). rewrite Hacq.
    cbn [cret]. fold r2. fold r3. cbn [r3 set_held held].
    change (set_srv s3 (set_srv s2 w)) with (set_srv s3 w). rewrite Hhold by lia. done.
  - done.
  - by eexists.
  - intros key. change (full_key kv key) with (render prefix (KData key)).
    rewrite (differs_at _ _ _ (KData key) Hd4) by (by repeat constructor).
    by rewrite (differs_at _ _ _ (KData key) Hd13) by (by repeat constructor).
Qed.
End quiet.
