(* ===== verification/UpkeepTrust.v ===== *)
(** * Trust in the key index

    The completeness marker and every replica's [index_ready] flag are
    promises that the key index has every data key.  In a fleet of builds
    that write the index, no turn of the maintenance task and no completion
    on demand breaks one, however requests interleave, are delayed or lost:
    by rely and guarantee (Rely.v), with [aware] what the replicas may count
    on from each other. *)

From S2P Require Import Prelude Redis Client DbFacts Keys Footprint Rely KvScripts KvIndex KvStore KvOps KvScan KvUpkeep Text Lease Peer PeerRun Maintenance Backend UpkeepRun.

Section trust.
Context {Srv : Type} `{RedisLaws Srv} `{PeerJson} `{Chrono} (T : Z) (prefix : string).
Context (Hprefix : is_empty prefix = false).
Local Abbreviation P := (srv_policy (Srv := Srv)).
Local Abbreviation kv := (with_connection_manager prefix).
Local Abbreviation ki := (index_key kv).
Local Abbreviation ke := (expiry_key kv).
Local Abbreviation ck := (complete_key kv).

(** ** What the replicas count on *)

Definition marked (t : Z) (s : Srv) : Prop := is_Some (view t s !! ck).

Definition complete_at (t : Z) (s : Srv) : Prop := index_holds_all kv (view t s).

(** The indexes stay in step with the data, and the marker is set only over a
    complete index. *)
Definition aware (t : Z) (s s' : Srv) : Prop :=
  (layout kv (view t s) → kept kv (view t s) (view t s')) ∧
  (layout kv (view t s) → marked t s' → marked t s ∨ complete_at t s').

Local Abbreviation layout_inv := (layout_inv (Srv := Srv) prefix).
Local Abbreviation key_inv := (key_inv (Srv := Srv) prefix).
Local Abbreviation honest := (honest T layout_inv aware).
Local Abbreviation obeys := (obeys T layout_inv aware).
Local Abbreviation moves := (moves T aware).

Lemma kept_refl d : layout kv d → kept kv d d.
Proof. by split. Qed.

Lemma aware_refl t s : aware t s s.
Proof. split; [apply kept_refl|auto]. Qed.

Lemma aware_layout t s s' : aware t s s' → layout_inv t s → layout_inv t s'.
Proof. intros [Hk _] Hl. by apply Hk. Qed.

(** A script that writes neither the store's keys nor the marker. *)
Definition elsewhere (k : string) : Prop := ¬ store_key prefix k ∧ k ≠ ck.

Lemma aware_same t s s' :
  (∀ k, store_key prefix k ∨ k = ck → view t s' !! k = view t s !! k) → aware t s s'.
Proof.
  intros Hsame. split.
  - intros Hl. apply kept_same; [auto|done].
  - intros _. unfold marked. rewrite Hsame by auto. auto.
Qed.

Lemma aware_within {A} (sc : script A) t s : within elsewhere sc → aware t s (Redis.run t sc s).1.
Proof.
  intros Hsc. apply aware_same. intros k Hk. apply (run_view_outside elsewhere); [done|].
  intros [? ?]. tauto.
Qed.

Lemma aware_unmark t s : aware t s (Redis.run t (call (DEL ck)) s).1.
Proof.
  assert (Hv : view t (Redis.run t (call (DEL ck)) s).1 = delete ck (view t s))
    by (destruct (run_view t (call (DEL ck)) s) as [-> _]; by rewrite d_run_call_end).
  split.
  - intros Hl. apply kept_same; [|done]. intros m Hm. rewrite Hv. apply lookup_delete_ne.
    intros <-. by apply (complete_key_outside prefix Hprefix ck).
  - intros _ Hm. unfold marked in Hm. rewrite Hv, lookup_delete_eq in Hm. by destruct Hm.
Qed.

Lemma aware_mark v t s : complete_at t s → aware t s (Redis.run t (call (SET ck v false None)) s).1.
Proof.
  intros Hc.
  assert (Hsame : ∀ m, store_key prefix m →
    view t (Redis.run t (call (SET ck v false None)) s).1 !! m = view t s !! m).
  { intros m Hm. apply (run_view_outside (λ k, ¬ store_key prefix k)); [|tauto].
    apply within_call. cbn. apply marker_outside, Hprefix. }
  assert (Hk : layout kv (view t s) → kept kv (view t s) (view t (Redis.run t (call (SET ck v false None)) s).1))
    by (intros Hl; by apply kept_same).
  split; [exact Hk|]. intros Hl _. right. intros key. by apply Hk, Hc.
Qed.

(** The upkeep scripts. *)
Lemma marker_not_indexes : ck ≠ ki ∧ ck ≠ ke.
Proof. by split; intros E%append_inj_l. Qed.

Lemma aware_framed t s s' :
  (layout kv (view t s) → kept kv (view t s) (view t s') ∧ framed ki ke (view t s) (view t s')) →
  aware t s s'.
Proof.
  intros Hs. split; [intros Hl; by apply Hs|]. intros Hl Hm. left. destruct (Hs Hl) as [_ Hf].
  unfold marked in *. by rewrite Hf in Hm by apply marker_not_indexes.
Qed.

Lemma aware_sweep now args t s : data_keys kv args → aware t s (Redis.run t (SWEEP_LUA ki ke now args 0) s).1.
Proof.
  intros Hargs. apply aware_framed. intros Hl. split.
  - apply (kv_step_kept prefix Hprefix false (t, s) (t, _) (step_sweep prefix false t s now args Hargs) Hl).
  - destruct (run_view t (SWEEP_LUA ki ke now args 0) s) as [-> _].
    rewrite run_sweep by (by eapply index_ne_expiry || by eapply data_keys_args || by apply upkeep_layout).
    cbn [fst]. clear. revert args. generalize (view t s). intros d args. revert d.
    induction args as [|a args IH]; intros d; cbn; [done|].
    etrans; [apply framed_sweep|apply IH].
Qed.

Lemma aware_backfill now args t s : data_keys kv args → aware t s (Redis.run t (BACKFILL_LUA ki ke now args 0) s).1.
Proof.
  intros Hargs. apply aware_framed. intros Hl. split.
  - by apply (kv_step_kept prefix Hprefix false (t, s) (t, _) (step_backfill prefix false t s now args Hargs
      (λ E, False_rect _ (Bool.diff_false_true E))) Hl).
  - rewrite run_backfill_view by done. apply framed_foldl_backfill.
Qed.

(** A script of the store that is none of the marker's. *)
Lemma aware_writer {A} (sc : script A) t s :
  kv_step prefix false (t, s) (t, (Redis.run t sc s).1) → within (λ k, k ≠ ck) sc →
  aware t s (Redis.run t sc s).1.
Proof.
  intros Hstep Hw. split.
  - intros Hl. by apply (kv_step_kept prefix Hprefix false (t, s) (t, _) Hstep).
  - intros _. unfold marked. rewrite (run_view_outside (λ k, k ≠ ck)) by (done || tauto). auto.
Qed.

Lemma aware_trans t s1 s2 s3 : aware t s1 s2 → aware t s2 s3 → aware t s1 s3.
Proof.
  intros [Hk1 Hm1] [Hk2 Hm2]. split; intros Hl; destruct (Hk1 Hl) as [Hl2 H12]; destruct (Hk2 Hl2) as [Hl3 H23].
  - split; [done|auto].
  - intros Hs3. destruct (Hm2 Hl2 Hs3) as [Hs2|Hc]; [|by right].
    destruct (Hm1 Hl Hs2) as [Hs1|Hc]; [by left|]. right. intros key. apply H23, Hc.
Qed.

(** A network of other clients whose every script keeps to it. *)
Definition minds (sc : script unit) : Prop := ∀ t s, aware t s (Redis.run t sc s).1.

Lemma minds_others t others s : Forall minds others → aware t s (run_others t others s).
Proof.
  intros Ho. revert s. induction Ho as [|sc others Hsc _ IH]; intros s; [apply aware_refl|].
  eapply aware_trans; [apply Hsc|apply IH].
Qed.

Lemma minds_heeds net t s :
  Forall (λ ev, Forall minds (ev_others ev)) net → heeds T aware net t s.
Proof.
  intros Hn. revert t s. induction Hn as [|ev net Hev _ IH]; intros t s; [done|].
  intros t0 _ t' s' _. split; [by apply minds_others|]. intros s2 _. apply IH.
Qed.

(** ** Requests and loops that keep to it *)

Local Abbreviation any := (λ _, True).

Lemma obeys_within {A} (sc : script A) : within elsewhere sc → obeys (invoke sc) any.
Proof.
  intros Hsc. apply obeys_invoke; [apply layout_stable|apply aware_layout|apply aware_refl|].
  intros. by apply aware_within.
Qed.

Lemma obeys_scan cur pat n : obeys (query_scan (Srv := Srv) cur pat n) (λ r, ∀ k, k ∈ r.2 → glob pat k = true).
Proof.
  apply obeys_request; [apply layout_stable|apply aware_layout|apply aware_refl|].
  intros t s _ _. pose proof (scan_view t cur pat n s) as Hv. pose proof (scan_sound t cur pat n s) as Hk.
  destruct (scan t cur pat n s) as [s' [next batch]]; cbn in *. split.
  - apply aware_same. intros. by rewrite Hv.
  - intros r [= <-] k Hin. by apply Hk.
Qed.

Lemma obeys_instant {E} : obeys (instant (E := E)) any.
Proof. by apply obeys_same. Qed.

Lemma peers_key_elsewhere : elsewhere (peers_index_key prefix).
Proof.
  split; [by apply peers_key_outside|]. intros E. by apply append_inj_l in E.
Qed.

Lemma obeys_read keys : obeys (read_registrations (Srv := Srv) prefix keys) any.
Proof.
  unfold read_registrations. destruct keys as [|k keys]; [by apply obeys_ret|].
  apply obeys_end, obeys_map_err, obeys_within. by apply within_call.
Qed.

Lemma obeys_scan_peers fuel pat c keys : obeys (scan_peers (Srv := Srv) fuel pat c keys) any.
Proof.
  revert c keys. induction fuel as [|fuel IH]; intros c keys; cbn [scan_peers]; [apply obeys_fail|].
  pose proof (forwards_scan_peers (Srv := Srv)).
  eapply obeys_bind; [apply obeys_map_err, obeys_scan|intros []; forwards|].
  intros [next batch] _. case_match; [by apply obeys_ret|done].
Qed.

Lemma obeys_listing fuel l : obeys (list_registrations (Srv := Srv) fuel prefix l) any.
Proof.
  pose proof (forwards_scan_peers (Srv := Srv)). pose proof (forwards_read (Srv := Srv) prefix).
  pose proof (@forwards_instant Srv). pose proof (forwards_registrations (Srv := Srv) prefix).
  unfold list_registrations.
  eapply obeys_bind; [apply obeys_now|intros; forwards|]. intros now _.
  eapply (obeys_bind _ _ _ _ _ any); [|intros; forwards|].
  { apply obeys_map_err, obeys_pipeline; [apply layout_stable|apply aware_layout|apply aware_refl|].
    apply Forall_cons. split; [|apply Forall_singleton]; intros; apply aware_within, within_pcall;
      [done|apply peers_key_elsewhere]. }
  intros rs _. eapply obeys_bind; [apply obeys_read|intros; forwards|]. intros found _.
  eapply (obeys_bind _ _ _ _ _ any); [|intros []; forwards|intros [] _; by apply obeys_ret].
  unfold registrations. eapply obeys_bind; [apply obeys_instant|intros; forwards|]. intros now' _.
  case_match; [by apply obeys_ret|].
  eapply obeys_bind; [apply obeys_scan_peers|intros; forwards|]. intros keys _.
  eapply obeys_bind; [apply obeys_read|intros; forwards|]. intros found' _.
  apply (obeys_end _ _ _ instant), obeys_instant.
Qed.

Lemma obeys_data_scan cur n : obeys (query_scan (Srv := Srv) cur (RedisKv.data_pattern kv) n) (λ r, data_keys kv r.2).
Proof.
  eapply obeys_weaken; [apply obeys_scan|]. intros [next batch] Hb. cbn in *.
  apply Forall_forall. intros m Hm. by apply (data_pattern_key prefix), Hb.
Qed.

Lemma obeys_due now :
  obeys (query (Srv := Srv) (ZRANGEBYSCORE ke NegInf (Incl now) (Some SWEEP_BATCH))) (answers prefix).
Proof.
  apply obeys_request; [apply layout_stable|apply aware_layout|apply aware_refl|].
  intros t s _ Hl. split; [by apply aware_within, within_call|].
  intros r ->%query_returns. by apply answers_byscore.
Qed.

Lemma forwards_sweep fuel gone : forwards (Srv := Srv) (RedisKv.sweep_loop kv fuel gone).
Proof. revert gone. induction fuel as [|fuel IH]; intros; simpl; unfold RedisKv.await; forwards. Qed.

Lemma obeys_sweep fuel gone : obeys (RedisKv.sweep_loop (Srv := Srv) kv fuel gone) any.
Proof.
  revert gone. pose proof forwards_sweep as Hf.
  induction fuel as [|fuel IH]; intros gone; simpl; [apply obeys_fail|].
  eapply obeys_bind; [apply obeys_now|intros; unfold RedisKv.await; forwards|]. intros now _.
  eapply obeys_bind; [apply obeys_map_err, obeys_due|intros; unfold RedisKv.await; forwards|].
  intros r Hr%answers_keys. case_bool_decide; [by apply obeys_ret|].
  eapply (obeys_bind _ _ _ _ _ any); [|intros; forwards|intros a _; destruct (_ <? _); [by apply obeys_ret|done]].
  apply obeys_map_err, obeys_invoke; [apply layout_stable|apply aware_layout|apply aware_refl|].
  intros. by apply aware_sweep.
Qed.

Lemma obeys_backfill fuel cur n : obeys (RedisKv.backfill_loop (Srv := Srv) kv fuel cur n) any.
Proof.
  revert cur n. pose proof (forwards_backfill (Srv := Srv) prefix) as Hf.
  induction fuel as [|fuel IH]; intros cur n; simpl; [apply obeys_fail|].
  eapply obeys_bind; [apply obeys_map_err, obeys_data_scan|intros []; unfold RedisKv.await; forwards|].
  intros [next batch] Hb%data_filter. cbn in Hb.
  eapply (obeys_bind _ _ _ _ _ any);
    [|intros; forwards|intros a _; destruct (next =? 0); [by apply obeys_ret|done]].
  case_bool_decide; [by apply obeys_ret|].
  eapply obeys_bind; [apply obeys_now|intros; unfold RedisKv.await; forwards|]. intros now _.
  apply obeys_end, obeys_map_err, obeys_invoke; [apply layout_stable|apply aware_layout|apply aware_refl|].
  intros. by apply aware_backfill.
Qed.
End trust.

(** ** The task *)

Section task.
Context {Srv : Type} `{RedisLaws Srv} `{PeerJson} `{Chrono} (T : Z) (fuel : nat) (cfg : settings).
Local Abbreviation prefix := (Maintenance.key_prefix cfg).
Context (Hprefix : is_empty prefix = false).
Local Abbreviation kv := (with_connection_manager prefix).
Local Abbreviation layout_inv := (layout_inv (Srv := Srv) prefix).
Local Abbreviation aware := (aware (Srv := Srv) prefix).
Local Abbreviation obeys := (obeys T layout_inv aware).
Local Abbreviation moves := (moves T aware).
Local Abbreviation any := (λ _, True).

(** Other clients' scripts that keep the indexes in step wherever they run. *)
Definition writers (net : list net_event) : Prop :=
  others_ok T layout_inv net ∧ ∀ key, others_ok T (key_inv (Srv := Srv) prefix key) net.

(** The operations of index-writing replicas are such scripts. *)
Lemma writers_steps net :
  Forall (λ ev, Forall (λ sc, ∀ t (s : Srv),
    kv_step prefix false (t, s) (t, (Redis.run t sc s).1)) (ev_others ev)) net →
  writers net.
Proof.
  intros Hn. split; [|intros key]; (eapply Forall_impl; [exact Hn|]); intros ev Hev;
    (eapply Forall_impl; [exact Hev|]); intros sc Hsc; cbv beta;
    [by apply step_keeps_layout|by apply step_keeps_key].
Qed.

(** A replica and its surroundings, with the promises that hold. *)
Record trusted (r : replica) (w : world Srv) : Prop := {
  tr_honest : honest T layout_inv aware w;
  tr_writers : writers (w_net w);
  tr_marker : marked prefix (w_time w) (w_srv w) → complete_at prefix (w_time w) (w_srv w);
  tr_flag : index_ready r = true → complete_at prefix (w_time w) (w_srv w);
  tr_held st : held r = Some st → elsewhere prefix (lease_key st);
}.

(** What of [r] the promises are about: the flag not raised, and no lock
    taken but on a key elsewhere. *)
Definition follows (r r' : replica) : Prop :=
  (index_ready r' = true → index_ready r = true) ∧
  ∀ st, held r' = Some st → held r = Some st ∨ elsewhere prefix (lease_key st).

Lemma writers_suffix net net' : net' `suffix_of` net → writers net → writers net'.
Proof.
  intros [pre ->] [Hl Hk]. split; [|intros key; specialize (Hk key)];
    by match goal with H : others_ok _ _ _ |- _ => apply Forall_app in H as [_ ?] end.
Qed.

Lemma complete_moves w w' :
  moves w w' → layout_inv (w_time w) (w_srv w) →
  complete_at prefix (w_time w) (w_srv w) → complete_at prefix (w_time w') (w_srv w').
Proof.
  intros Hm Hl Hc. enough (Hi : indexed kv (view (w_time w') (w_srv w'))) by apply Hi.
  apply (moves_keep T layout_inv aware (layout_stable prefix) (aware_layout prefix)
    (λ t s, indexed kv (view t s)) w w'); [|..|done|done|by split].
  - intros t t' s Ht. by apply indexed_later.
  - intros t s s' _ [Hk _] _ [Hl' Hh]. destruct (Hk Hl') as [Hl2 Hk2]. split; [done|].
    intros key. apply Hk2, Hh.
Qed.

Lemma marker_moves w w' :
  moves w w' → layout_inv (w_time w) (w_srv w) →
  (marked prefix (w_time w) (w_srv w) → complete_at prefix (w_time w) (w_srv w)) →
  marked prefix (w_time w') (w_srv w') → complete_at prefix (w_time w') (w_srv w').
Proof.
  intros Hm Hl Hc.
  apply (moves_keep T layout_inv aware (layout_stable prefix) (aware_layout prefix)
    (λ t s, layout_inv t s ∧ (marked prefix t s → complete_at prefix t s)) w w'); [|..|done|done|by split].
  - intros t t' s Ht [Hl' Hk]. split; [by eapply layout_stable|]. intros [v Hv].
    apply (view_later_Some t) in Hv; [|done].
    apply (indexed_later prefix t t'); [done|]. split; [done|]. apply Hk. by exists v.
  - intros t s s' _ [Hk Hm'] _ [Hl' Hh]. destruct (Hk Hl') as [Hl2 Hk2]. split; [done|].
    intros Hs'. destruct (Hm' Hl' Hs') as [Hs|Hs]; [|done]. intros key. apply Hk2. by apply Hh.
Qed.

(** A call that keeps to [aware] keeps every promise, and the flag may go
    down. *)
Lemma trusted_moves r r' w w' :
  honest T layout_inv aware w' → moves w w' → w_net w' `suffix_of` w_net w →
  (index_ready r' = true → index_ready r = true ∨ complete_at prefix (w_time w') (w_srv w')) →
  (∀ st, held r' = Some st → held r = Some st ∨ elsewhere prefix (lease_key st)) →
  trusted r w → trusted r' w'.
Proof.
  intros Hh Hm Hn Hr Hheld [Hh0 Hw0 Hm0 Hf0 Hk0]. split; [done|by eapply writers_suffix| | |].
  - apply (marker_moves w); [done|apply Hh0|done].
  - intros Hr'. destruct (Hr Hr') as [Hr0|Hr0]; [|done].
    apply (complete_moves w); [done|apply Hh0|auto].
  - intros st [Hst|Hst]%Hheld; auto.
Qed.

(** A step of the task, from a replica [r]: it returns, and every promise is
    kept. *)
Definition secures (r : replica) (m : client Srv cluster_error replica) : Prop :=
  ∀ w, w_time (m w).1 ≤ T → trusted r w → ∃ r', (m w).2 = Ok r' ∧ trusted r' (m w).1.

Lemma secures_ret r r' : follows r r' → secures r (cret r').
Proof.
  intros [Hr Hheld] w _ Hw. exists r'. split; [done|].
  eapply trusted_moves; [apply Hw|constructor|done|auto|done|exact Hw].
Qed.

Lemma follows_refl r : follows r r.
Proof. split; auto. Qed.

Lemma secures_known r m :
  ((∀ st, held r = Some st → elsewhere prefix (lease_key st)) → secures r m) → secures r m.
Proof. intros Hm w HT Hw. apply Hm; [apply Hw|done|done]. Qed.

Lemma secures_follows r r' m : follows r r' → secures r' m → secures r m.
Proof.
  intros [Hr Hheld] Hm w HT Hw. apply Hm; [done|].
  eapply trusted_moves; [apply Hw|constructor|done|auto|done|exact Hw].
Qed.

Lemma secures_bind r m (f : replica → client Srv cluster_error replica) :
  secures r m → (∀ r', forwards (f r')) → (∀ r', secures r' (f r')) → secures r (cbind m f).
Proof.
  intros Hm Hf HS w. unfold cbind. specialize (Hm w). destruct (m w) as [w' [r'|e]]; cbn in *; intros HT Hw.
  - specialize (Hf r' w'). destruct (Hm ltac:(lia) Hw) as (? & [= <-] & Hw'). by apply HS.
  - by destruct (Hm HT Hw) as (? & ? & _).
Qed.

(** A call that is not the task's own, whose outcome is looked at. *)
Lemma secures_after {A} r (m : client Srv cluster_error A) Q (f : A → client Srv cluster_error replica) :
  obeys m Q → shrinks m → (∀ w, ∃ a, (m w).2 = Ok a) → (∀ a, forwards (f a)) →
  (∀ a, Q a → secures r (f a)) → secures r (cbind m f).
Proof.
  intros Hm Hs Hok Hf HS w. unfold cbind. specialize (Hm w). specialize (Hs w).
  destruct (Hok w) as [a Ha]. destruct (m w) as [w' r']; cbn in *. subst r'. intros HT Hw.
  specialize (Hf a w'). destruct (Hm ltac:(lia) (tr_honest _ _ Hw)) as (Hh & Hmv & HQ).
  apply (HS a (HQ a eq_refl) w'); [done|]. by eapply trusted_moves; eauto.
Qed.

Lemma secures_try {A} r (m : client Srv cluster_error A) Q f :
  obeys m Q → shrinks m → (∀ x, forwards (f x)) →
  (∀ x, match x with Ok a => Q a | Err _ => True end → secures r (f x)) →
  secures r (let! x := cresult m in f x).
Proof.
  intros Hm Hs Hf HS. eapply secures_after; [by apply obeys_result| |..|exact HS]; [|intros w|done].
  - by apply shrinks_result.
  - unfold cresult. destruct (m w). eauto.
Qed.

(** *** The steps *)

Lemma index_complete_true (w w' : world Srv) :
  RedisKv.index_complete kv w = (w', Ok true) → w_time w' ≤ T → honest T layout_inv aware w →
  (marked prefix (w_time w) (w_srv w) → complete_at prefix (w_time w) (w_srv w)) →
  complete_at prefix (w_time w') (w_srv w').
Proof.
  unfold RedisKv.index_complete. intros (w1 & r & Hr & Hret)%cbind_ok HT Hw Hm. injection Hret as -> Hb.
  apply cmap_err_ok in Hr. apply request_ok in Hr as (s & late & Hrun & ->). cbn [w_time w_srv] in *.
  assert (Hat : (arrival w).1 ≤ T) by lia.
  pose proof (honest_arrival T layout_inv aware (layout_stable prefix) (aware_layout prefix) (aware_refl prefix) w
    Hat Hw) as Harr.
  destruct (arrival w) as [t s0]. cbn [fst snd] in *. destruct Harr as ([Hl _] & Hmv & _). cbn [w_time w_srv] in Hl.
  destruct (run_view t (call (EXISTS (complete_key kv))) s0) as [Hv Hres].
  rewrite Hrun in Hv, Hres. cbn [fst snd] in *. rewrite d_run_call_end in Hv, Hres. cbn in Hv, Hres.
  injection Hres as ->. cbn in Hb. case_decide as Hck; [|discriminate].
  assert (Hc : complete_at prefix t s0)
    by (apply (marker_moves w (World s0 t (w_skew w) (tail (w_net w)))); [exact Hmv|apply Hw|exact Hm|exact Hck]).
  apply (indexed_later prefix t (t + Z.of_N late) s); [lia|]. rewrite Hv. by split.
Qed.

Lemma shrinks_sweep n gone : shrinks (RedisKv.sweep_loop (Srv := Srv) kv n gone).
Proof. revert gone. induction n as [|n IH]; intros; simpl; unfold RedisKv.await; shrinks. Qed.

Lemma secures_gate u r : secures r (gate_index cfg u r).
Proof.
  unfold gate_index. destruct u.
  - eapply (secures_try _ _ any).
    + unfold RedisKv.invalidate_index, RedisKv.await.
      apply obeys_end, obeys_map_err, obeys_invoke;
        [apply layout_stable|apply aware_layout|apply aware_refl|]. intros. by apply aware_unmark.
    + unfold RedisKv.invalidate_index, RedisKv.await. shrinks.
    + intros. forwards.
    + intros x _. apply secures_ret. split; [done|auto].
  - intros w HT Hw. unfold cbind, cresult.
    assert (Hob : obeys (RedisKv.index_complete (Srv := Srv) kv) any).
    { unfold RedisKv.index_complete, RedisKv.await.
      eapply obeys_bind; [apply obeys_map_err, obeys_within; by apply within_call|intros; forwards|].
      intros; by apply obeys_ret. }
    assert (Hsh : shrinks (RedisKv.index_complete (Srv := Srv) kv))
      by (unfold RedisKv.index_complete, RedisKv.await; shrinks).
    unfold cbind, cresult in HT. specialize (Hob w). specialize (Hsh w).
    pose proof (index_complete_true w) as Htrue.
    destruct (RedisKv.index_complete kv w) as [w' [b|e]]; cbn in *;
      destruct (Hob HT (tr_honest _ _ Hw)) as (Hh & Hmv & _); eexists; (split; [done|]);
      (eapply (trusted_moves r); [exact Hh|exact Hmv|exact Hsh| |by intros; left|exact Hw]); [|by left].
    cbn. intros ->. right. by eapply Htrue; [|exact HT|apply (tr_honest _ _ Hw)|exact (tr_marker _ _ Hw)].
Qed.

Lemma obeys_renew st : elsewhere prefix (lease_key st) →
  obeys (renew_state (Srv := Srv) (E := cluster_error) st) (λ r, lease_key r.1 = lease_key st).
Proof.
  intros Hk. unfold renew_state. destruct (released st); [by apply obeys_ret|].
  eapply obeys_bind; [apply obeys_result, obeys_within|intros; forwards|].
  { unfold renew_script. within_script. }
  intros [n|e] _; [|by apply obeys_ret]. destruct (n =? 0); [by apply obeys_ret|].
  eapply obeys_bind; [apply obeys_system_now|intros; forwards|]. intros now _. by apply obeys_ret.
Qed.

Lemma secures_renew r : secures r (renew_held r).
Proof.
  unfold renew_held. destruct (held r) as [st|] eqn:Hst; [|apply secures_ret, follows_refl].
  apply secures_known. intros Hk. specialize (Hk st Hst).
  eapply secures_after; [by apply obeys_renew|unfold renew_state; shrinks| |intros []; forwards|].
  - intros w. unfold renew_state. destruct (released st); [by eexists|]. unfold cbind, cresult.
    destruct (invoke _ w) as [w' [n|e]]; [destruct (n =? 0)|]; by eexists.
  - intros [st' res] Hst'. apply secures_ret. split; [done|]. cbn. intros st2.
    destruct res; [|done]. intros [= <-]. right. cbn in Hst'. by rewrite Hst'.
Qed.

Lemma obeys_acquire name (lk fk h : string) ttl pct :
  elsewhere prefix lk → elsewhere prefix fk →
  obeys (try_acquire_async (Srv := Srv) name lk fk h ttl pct)
    (λ r, ∀ st, r = Some st → lease_key st = lk).
Proof.
  intros Hl Hf. unfold try_acquire_async. destruct (is_blank name); [apply obeys_fail|].
  eapply obeys_bind; [apply obeys_map_err, obeys_within|intros; forwards|].
  { unfold acquire_script. within_script; assumption. }
  intros [n|] _; [|by apply obeys_ret].
  eapply obeys_bind; [apply obeys_system_now|intros; forwards|]. intros now _. apply obeys_ret.
  by intros st [= <-].
Qed.

Lemma secures_acquire r : secures r (acquire_lock cfg r).
Proof.
  unfold acquire_lock. destruct (held r) as [st|] eqn:Hst; [apply secures_ret, follows_refl|].
  destruct (lease_keys prefix "locks" SWEEP_LOCK) as [lk fk] eqn:Hkeys.
  assert (Hk : elsewhere prefix lk ∧ elsewhere prefix fk).
  { pose proof (lease_key_elsewhere prefix "locks" SWEEP_LOCK) as Hk. rewrite Hkeys in Hk.
    split; (split; [|]); eapply Hk; eauto. }
  eapply secures_try; [apply obeys_acquire; apply Hk|unfold try_acquire_async; shrinks|intros; forwards|].
  intros [[st|]|e] Hr; apply secures_ret; try apply follows_refl. split; [done|].
  cbn. intros st' [= <-]. right. rewrite (Hr st eq_refl). apply Hk.
Qed.

(** Over a complete index the marker may be set. *)
Lemma secures_mark r n f :
  index_ready r = true → (∀ x, forwards (f x)) → (∀ x, secures r (f x)) →
  secures r (let! x := cresult (RedisKv.mark_index_complete kv n) in f x).
Proof.
  intros Hr Hf HS w. set (sc := call (SET (complete_key kv) (of_int srv_policy n) false None)).
  assert (Heq : (let! x := cresult (RedisKv.mark_index_complete kv n) in f x) w =
    (let '(w', r) := invoke sc w in f (match r with Ok _ => Ok tt | Err e => Err (redis_err e) end) w')).
  { unfold RedisKv.mark_index_complete, RedisKv.await, query, cbind, cresult, cmap_err. fold sc.
    by destruct (invoke sc w) as [w' [a|e]]. }
  rewrite Heq. clear Heq. assert (Hobs : w_time (invoke sc w).1 ≤ T → trusted r w →
    honest T layout_inv aware (invoke sc w).1 ∧ moves w (invoke sc w).1 ∧ ∀ a, (invoke sc w).2 = Ok a → True).
  { intros HT Hw. apply (request_obeys T layout_inv aware (layout_stable prefix) (aware_layout prefix)
      (aware_refl prefix)); [done|apply Hw|].
    pose proof (honest_arrival T layout_inv aware (layout_stable prefix) (aware_layout prefix) (aware_refl prefix) w) as Harr.
    destruct (request_arrival (λ t, Redis.run t sc) w) as (s' & late & r' & Hrun & _).
    unfold invoke in HT. rewrite Hrun in HT. cbn in HT. specialize (Harr ltac:(lia) (tr_honest _ _ Hw)).
    destruct (arrival w) as [t s]. destruct Harr as (Hh & Hmv & _). intros Hl. split; [|done].
    apply aware_mark, (complete_moves w (World s t (w_skew w) (tail (w_net w))) Hmv); [done| |].
    - apply (tr_honest _ _ Hw).
    - by apply (tr_flag _ _ Hw). }
  pose proof (shrinks_request (λ t, Redis.run t sc) w) as Hsh. fold (invoke sc) in Hsh.
  destruct (invoke sc w) as [w' x]. cbn [fst snd] in *.
  assert (Hgo : ∀ x, w_time (f x w').1 ≤ T → trusted r w →
    ∃ r', (f x w').2 = Ok r' ∧ trusted r' (f x w').1).
  { intros y HT Hw. specialize (Hf y w'). destruct (Hobs ltac:(lia) Hw) as (Hh & Hmv & _).
    apply HS; [done|]. eapply (trusted_moves r r w); [done|done|done|auto|auto|done]. }
  apply Hgo.
Qed.

(** A backfill leaves a complete index. *)
Lemma secures_backfill r f :
  (∀ x, forwards (f x)) → (∀ e, secures r (f (Err e))) →
  (∀ n, secures (set_index_ready true r) (f (Ok n))) →
  secures r (let! x := cresult (RedisKv.backfill_index kv fuel) in f x).
Proof.
  intros Hf He Hn w. unfold cbind, cresult. unfold RedisKv.backfill_index.
  pose proof (obeys_backfill T prefix Hprefix fuel 0 0 w) as Hob.
  pose proof (shrinks_backfill prefix fuel 0 0 w) as Hsh.
  destruct (RedisKv.backfill_loop kv fuel 0 0 w) as [w' x] eqn:Hback. cbn [fst snd] in *. intros HT Hw.
  specialize (Hf x w'). destruct (Hob ltac:(lia) (tr_honest _ _ Hw)) as (Hh & Hmv & _).
  assert (Hr : trusted r w') by (eapply (trusted_moves r r w); [done|done|done|auto|auto|done]).
  destruct x as [n|e]; [|by apply He]. apply Hn; [done|].
  destruct Hr as [Hh' Hw' Hm' Hf' Hk']. split; [done..| |done]. intros _.
  assert (Hi : indexed kv (view (w_time w') (w_srv w'))); [|apply Hi].
  eapply (backfill_then prefix Hprefix T fuel w w' w' n (cret (E := cluster_error) tt) (Ok tt)).
  - split; [apply (tr_honest _ _ Hw)|apply (tr_writers _ _ Hw)].
  - apply (tr_writers _ _ Hw).
  - exact Hback.
  - intros key. by apply yields_ret.
  - apply forwards_ret.
  - done.
  - lia.
Qed.

Lemma secures_complete r : secures r (complete_index fuel cfg r).
Proof.
  pose proof (forwards_listing (Srv := Srv) prefix).
  unfold complete_index, RedisKv.mark_index_complete, RedisKv.await.
  eapply secures_after; [apply obeys_now|by apply shrinks_same|by eexists|intros; forwards|].
  { pose proof (forwards_backfill (Srv := Srv) prefix). unfold RedisKv.backfill_index. forwards. }
  intros now _. apply secures_backfill; [intros; forwards|intros e; apply secures_ret, follows_refl|].
  intros n. set (r0 := set_peer_scan (forget (peer_scan r)) r).
  eapply secures_try; [by apply obeys_listing|by apply shrinks_listing|intros; forwards|]. intros x _.
  set (r1 := match x with Ok (l, _) => set_peer_scan l r0 | Err _ => r0 end).
  assert (Hr1 : follows (set_index_ready true r) r1) by (split; [done|]; destruct x as [[l regs]|e]; auto).
  cbv zeta. fold r1. case_match; [by apply secures_ret|].
  apply (secures_mark (set_index_ready true r) now); [done|intros; forwards|].
  intros [[]|e]; apply secures_ret; [split; [done|]; apply Hr1|done].
Qed.

Lemma secures_holder u r : secures r (holder_work fuel cfg u r).
Proof.
  pose proof (forwards_listing (Srv := Srv) prefix). pose proof (forwards_backfill (Srv := Srv) prefix).
  assert (Hc : forwards (complete_index (Srv := Srv) fuel cfg r))
    by (unfold complete_index, RedisKv.backfill_index, RedisKv.mark_index_complete, RedisKv.await; forwards).
  assert (Hi : ∀ E, forwards (Srv := Srv) (instant (E := E))) by (intros; apply forwards_instant).
  pose proof (forwards_sweep (Srv := Srv) prefix).
  unfold holder_work. eapply (secures_after _ _ any).
  - destruct (0 <? _); [|by apply obeys_ret]. eapply obeys_any, obeys_result. by apply obeys_sweep.
  - destruct (0 <? _); [|by apply shrinks_same]. apply shrinks_result, shrinks_sweep.
  - intros w. destruct (0 <? _); [|by eexists]. unfold cresult. destruct (RedisKv.sweep _ _ w). by eexists.
  - intros. forwards.
  - intros x _. eapply (secures_after _ _ any); [apply obeys_instant|by apply shrinks_same|by eexists|intros; forwards|].
    intros now _. case_match; [apply secures_complete|apply secures_ret, follows_refl].
Qed.

(** *** A turn, the loop, and completion on demand *)

Lemma forwards_complete r : forwards (complete_index (Srv := Srv) fuel cfg r).
Proof.
  pose proof (forwards_listing (Srv := Srv) prefix). pose proof (forwards_backfill (Srv := Srv) prefix).
  unfold complete_index, RedisKv.backfill_index, RedisKv.mark_index_complete, RedisKv.await. forwards.
Qed.

Lemma forwards_holder u r : forwards (holder_work (Srv := Srv) fuel cfg u r).
Proof.
  pose proof forwards_complete. pose proof (forwards_sweep (Srv := Srv) prefix).
  pose proof (@forwards_instant Srv). unfold holder_work, RedisKv.sweep. forwards.
Qed.

Lemma forwards_gate u r : forwards (gate_index (Srv := Srv) cfg u r).
Proof. unfold gate_index, RedisKv.invalidate_index, RedisKv.index_complete, RedisKv.await. forwards. Qed.

Lemma forwards_renew r : forwards (renew_held (Srv := Srv) r).
Proof. unfold renew_held, renew_state. forwards. Qed.

Lemma forwards_acquire r : forwards (acquire_lock (Srv := Srv) cfg r).
Proof. unfold acquire_lock, try_acquire_async. forwards. Qed.

Lemma forwards_turn connected r : forwards (turn (Srv := Srv) fuel cfg connected r).
Proof.
  pose proof (forwards_listing (Srv := Srv) prefix). pose proof (@forwards_instant Srv).
  pose proof forwards_gate. pose proof forwards_renew. pose proof forwards_acquire.
  pose proof forwards_holder. unfold turn. forwards.
Qed.

Lemma secures_turn connected r : secures r (turn fuel cfg connected r).
Proof.
  pose proof (@forwards_instant Srv). pose proof forwards_gate. pose proof forwards_renew.
  pose proof forwards_acquire. pose proof forwards_holder.
  unfold turn. destruct connected; cbn [negb]; [|apply secures_ret, follows_refl].
  eapply secures_try; [by apply obeys_listing|by apply shrinks_listing|intros; forwards|].
  intros [[l regs]|e] _; [|apply secures_ret, follows_refl]. cbv zeta. set (u := any_unindexed regs).
  eapply (secures_after _ _ any); [apply obeys_instant|by apply shrinks_same|by eexists|intros; forwards|].
  intros now _. set (r1 := if u then _ else _).
  apply (secures_follows r r1); [by destruct u; split; auto|].
  apply secures_bind; [apply secures_gate|intros; forwards|]. intros r2.
  apply secures_bind; [apply secures_renew|intros; forwards|]. intros r3.
  apply secures_bind; [apply secures_acquire|intros; forwards|]. intros r4.
  destruct (held r4); [apply secures_holder|apply secures_ret, follows_refl].
Qed.

Lemma forwards_tick deadline : forwards (tick_skip (Srv := Srv) cfg deadline).
Proof. pose proof (@forwards_instant Srv). unfold tick_skip. forwards. Qed.

Lemma secures_run connections deadline r : secures r (Maintenance.run fuel cfg connections deadline r).
Proof.
  assert (Hf : ∀ cs d r, forwards (Maintenance.run (Srv := Srv) fuel cfg cs d r)).
  { induction cs as [|c cs IH]; intros; cbn [Maintenance.run]; [forwards|].
    pose proof forwards_tick. pose proof forwards_turn. forwards. }
  revert deadline r. induction connections as [|c cs IH]; intros deadline r; cbn [Maintenance.run];
    [apply secures_ret, follows_refl|].
  pose proof forwards_turn.
  eapply (secures_after _ _ any).
  - pose proof (@forwards_instant Srv). unfold tick_skip.
    eapply obeys_bind; [apply obeys_instant|intros; forwards|]. intros now _.
    eapply obeys_bind; [apply obeys_sleep, layout_stable|intros; forwards|]. intros _ _.
    eapply obeys_bind; [apply obeys_instant|intros; forwards|]. intros now' _. by apply obeys_ret.
  - by apply shrinks_same.
  - by eexists.
  - intros. forwards.
  - intros d _. apply secures_bind; [apply secures_turn|intros; forwards|]. intros r'. apply IH.
Qed.
End task.

Lemma secures_ext {Srv : Type} `{RedisLaws Srv} T cfg r (m m' : client Srv cluster_error replica) :
  (∀ w, m w = m' w) → secures T cfg r m' → secures T cfg r m.
Proof. intros Hm HS w. rewrite Hm. apply HS. Qed.

(** Completion on demand, of a connected backend: as a step of its replica. *)
Section on_demand.
Context {Srv : Type} `{RedisLaws Srv} `{PeerJson} `{Chrono} (T : Z) (fuel : nat) (b : inner).
Local Abbreviation cfg := (settings_of b).
Local Abbreviation prefix := (Maintenance.key_prefix cfg).
Context (Hprefix : is_empty prefix = false).
Local Abbreviation kv := (with_connection_manager prefix).

Lemma secures_on_demand :
  secures (Srv := Srv) T cfg (state b) (let! (r, _) := complete_connected fuel b in cret r).
Proof.
  pose proof (forwards_listing (Srv := Srv) prefix). pose proof (forwards_backfill (Srv := Srv) prefix).
  set (r0 := set_peer_scan (forget (peer_scan (state b))) (state b)).
  eapply (secures_ext _ _ _ _
    (let! listed := cresult (list_registrations fuel prefix (peer_scan r0)) in
     match listed with
     | Err e => cret r0
     | Ok (l, regs) =>
         if any_unindexed regs then cret (set_peer_scan l r0)
         else
           let! n := now_ms in
           let! indexed := cresult (RedisKv.backfill_index kv fuel) in
           match indexed with
           | Err _ => cret (set_peer_scan l r0)
           | Ok _ =>
               let! marked := cresult (RedisKv.mark_index_complete kv n) in
               match marked with
               | Err _ => cret (set_peer_scan l r0)
               | Ok _ => cret (set_index_ready true (set_peer_scan l r0))
               end
           end
     end)).
  { intros w. unfold complete_connected, cbind, cresult, cret, kv_of. cbv zeta.
    change (Config.key_prefix (Backend.cfg b)) with prefix. fold r0.
    destruct (list_registrations _ _ _ w) as [w1 [[l regs]|e]]; [|done].
    destruct (any_unindexed regs); [done|]. unfold now_ms.
    destruct (RedisKv.backfill_index _ _ w1) as [w2 [n|e]]; [|done].
    by destruct (RedisKv.mark_index_complete _ _ w2) as [w3 [[]|e]]. }
  unfold RedisKv.mark_index_complete, RedisKv.backfill_index, RedisKv.await.
  eapply secures_try; [by apply obeys_listing|by apply shrinks_listing|intros; forwards|].
  intros [[l regs]|e] _; [|by apply secures_ret; split; auto].
  set (r1 := set_peer_scan l r0). assert (Hr1 : follows cfg (state b) r1) by (split; auto).
  case_match; [by apply secures_ret|].
  eapply secures_after; [apply obeys_now|by apply shrinks_same|by eexists|intros; forwards|].
  intros n _. apply secures_backfill; [done|intros; forwards|intros e; by apply secures_ret|].
  intros k. apply (secures_mark T cfg Hprefix (set_index_ready true (state b)) n); [done|intros; forwards|].
  intros [[]|e]; apply secures_ret; split; auto.
Qed.
End on_demand.
