(* ===== verification/UpkeepProperties.v ===== *)
(** * Properties of the key-index upkeep

    The maintenance task and [complete_key_index] ([src/src/maintenance.rs],
    [src/src/lib.rs]). *)

From S2P Require Import Prelude Redis RedisRef Client DbFacts Keys Footprint Rely KvScripts KvIndex KvStore KvOps KvUpkeep KvSweep KvRef KvHistory Text Lease LeaseSpec LeaseRun LeaseProperties Peer PeerRun PeerProperties Maintenance UpkeepRun UpkeepQuiet UpkeepTrust Backend.

(** C29. A replica that sees an older build stops trusting the index: whatever
    the network does to the rest of the turn, it ends with listings off the
    index. *)
Theorem older_build_closes_gate {Srv : Type} `{RedisServer Srv} `{PeerJson} `{Chrono}
    (fuel : nat) (cfg : settings) (r : replica) (w w1 : world Srv) (l : legacy_scan)
    (regs : list registration) :
  list_registrations fuel (key_prefix cfg) (peer_scan r) w = (w1, Ok (l, regs)) →
  any_unindexed regs = true →
  ∃ r', (turn fuel cfg true r w).2 = Ok r' ∧ index_ready r' = false.
Proof.
  intros Hlist Hun. unfold turn. cbn [negb]. unfold cbind at 1, cresult. rewrite Hlist. rewrite Hun.
  unfold cbind at 1, instant. set (r1 := set_seen _ _).
  unfold cbind at 1, gate_index. unfold cbind at 1, cresult.
  destruct (RedisKv.invalidate_index _ w1) as [w2 x]. unfold cret at 1.
  set (r2 := set_index_ready false r1).
  assert (Hr3 : ∃ w3 r3, renew_held r2 w2 = (w3, Ok r3) ∧ index_ready r3 = false).
  { unfold renew_held. destruct (held r2) as [st|]; [|by do 2 eexists].
    unfold cbind, renew_state. destruct (released st); [by do 2 eexists|]. unfold cbind, cresult.
    destruct (invoke _ w2) as [w3 [n|e]]; [|by do 2 eexists].
    destruct (n =? 0); by do 2 eexists. }
  destruct Hr3 as (w3 & r3 & Hren & Hr3). unfold cbind at 1. rewrite Hren.
  assert (Hr4 : ∃ w4 r4, acquire_lock cfg r3 w3 = (w4, Ok r4) ∧ index_ready r4 = false).
  { unfold acquire_lock. destruct (held r3); [by do 2 eexists|].
    destruct (lease_keys _ _ _) as [lk fk]. unfold cbind, cresult.
    destruct (try_acquire_async _ _ _ _ _ _ w3) as [w4 [[st|]|e]]; by do 2 eexists. }
  destruct Hr4 as (w4 & r4 & Hacq & Hr4). unfold cbind at 1. rewrite Hacq.
  destruct (held r4); [|by exists r4]. unfold holder_work. cbn [negb andb].
  unfold cbind. destruct (0 <? kv_sweep_interval_ms cfg); [|by exists r4].
  unfold cresult. destruct (RedisKv.sweep _ _ w4) as [w5 x5]. by exists r4.
Qed.

Definition app_settings : settings := Settings "app" "n1" 30000 60000.

Lemma older_build_closes_gate_witness :
  ∃ r', (turn 3 app_settings true (started app_settings) (World fleet 1000 0 [])).2 = Ok r' ∧
        index_ready r' = false.
Proof.
  apply (older_build_closes_gate 3 app_settings (started app_settings) (World fleet 1000 0 [])
    (list_registrations 3 "app" (peer_scan (started app_settings)) (World fleet 1000 0 [])).1
    (LegacyPeerScan (from_millis 30000) (Some (1000, [("n1", new_build); ("n2", old_build)])))
    [("n1", new_build); ("n2", old_build)]).
  - vm_compute. reflexivity.
  - reflexivity.
Defined.

(** A store with one key [app:x]. *)
Definition one_key : ref_srv := {[ "app:x" := RVal (RStr "1") None ]}.

Lemma one_key_layout : layout_inv "app" 1000 one_key.
Proof.
  assert (Hk : map_Forall (λ k v, k = "app:x" ∧ ∃ s, r_obj v = RStr s) (view 1000 one_key)).
  { intros k v [Hk _]%map_lookup_filter_Some. unfold one_key in Hk. cbn in Hk. apply lookup_singleton_Some in Hk as [<- <-].
    by eauto. }
  assert (Hi : view 1000 one_key !! index_key app_kv = None) by (vm_compute; reflexivity).
  assert (He : view 1000 one_key !! expiry_key app_kv = None) by (vm_compute; reflexivity).
  change (layout app_kv (view 1000 one_key)).
  revert Hk Hi He. generalize (view 1000 one_key) as d. intros d Hk Hi He.
  split; unfold zset_ok, index_of, expiry_of, zset_of; rewrite ?Hi, ?He; [done|done| | |].
  - intros key v Hv. apply (Hk _ _ Hv).
  - intros m x Hm. by rewrite lookup_empty in Hm.
  - intros m x Hm. by rewrite lookup_empty in Hm.
Qed.

(** C8. Completion is sound: when the maintenance task completes the index,
    every data key is in it, although other replicas read, write and expire
    keys meanwhile and requests are lost or delayed; and it completes it in
    this order only: the backfill runs and succeeds, then the peers are listed
    with no memory of earlier listings, that listing succeeds and shows no
    older build, and then the marker is written, successfully, with the time
    the backfill began: an older build that is listed when the backfill is
    over keeps the index from being declared complete. *)
Theorem completion_sound {Srv : Type} `{RedisLaws Srv} `{PeerJson} `{Chrono}
    (fuel : nat) (cfg : settings) (T : Z) (r r' : replica) (w w' : world Srv) :
  is_empty (key_prefix cfg) = false →
  good T (layout_inv (key_prefix cfg)) w →
  (∀ key, others_ok T (key_inv (key_prefix cfg) key) (w_net w)) →
  complete_index fuel cfg r w = (w', Ok r') → w_time w' ≤ T →
  index_ready r = false → index_ready r' = true →
  indexed (with_connection_manager (key_prefix cfg)) (view (w_time w') (w_srv w')) ∧
  ∃ w1 n w2 l regs,
    RedisKv.backfill_index (with_connection_manager (key_prefix cfg)) fuel w = (w1, Ok n) ∧
    list_registrations fuel (key_prefix cfg) (forget (peer_scan r)) w1 = (w2, Ok (l, regs)) ∧
    any_unindexed regs = false ∧
    RedisKv.mark_index_complete (with_connection_manager (key_prefix cfg)) (clock_ms w) w2 = (w', Ok tt) ∧
    r' = set_index_ready true (set_peer_scan l r).
Proof.
  intros Hprefix Hw Ho Hrun HT Hr Hr'. pose proof Hrun as Hfull. unfold complete_index in Hrun.
  unfold cbind at 1, now_ms in Hrun. unfold cbind at 1, cresult at 1 in Hrun.
  destruct (RedisKv.backfill_index _ fuel w) as [w1 [n|e]] eqn:Hback; [|injection Hrun as <- <-; congruence].
  split.
  - eapply complete_index_indexed; [exact Hprefix|exact Hw|exact Ho|exact Hfull|done..].
  - unfold cbind at 1, cresult at 1 in Hrun. cbn [set_peer_scan peer_scan] in Hrun.
    destruct (list_registrations fuel (key_prefix cfg) (forget (peer_scan r)) w1)
      as [w2 [[l regs]|e]] eqn:Hlist.
    + destruct (any_unindexed regs) eqn:Hun; [injection Hrun as <- <-; cbn in Hr'; congruence|].
      unfold cbind at 1, cresult at 1 in Hrun.
      destruct (RedisKv.mark_index_complete _ (clock_ms w) w2) as [w3 [[]|e]] eqn:Hmark;
        injection Hrun as <- <-; [|cbn in Hr'; congruence].
      by exists w1, n, w2, l, regs.
    + injection Hrun as <- <-. cbn in Hr'. congruence.
Qed.

(** Two replicas write while [unindexed] keys are backfilled. *)
Lemma completion_sound_witness :
  let w := World one_key 1000 0
             [NetEvent 5 [other_put "c" "3"] Delivered; NetEvent 9 [other_put "x" "4"] Delivered] in
  let c := complete_index 5 app_settings (started app_settings) w in
  indexed app_kv (view (w_time c.1) (w_srv c.1)) ∧
  ∃ w1 n w2 l regs,
    RedisKv.backfill_index app_kv 5 w = (w1, Ok n) ∧
    list_registrations 5 "app" (forget (peer_scan (started app_settings))) w1 = (w2, Ok (l, regs)) ∧
    any_unindexed regs = false ∧
    RedisKv.mark_index_complete app_kv (clock_ms w) w2 = (c.1, Ok tt) ∧
    set_index_ready true (set_peer_scan (LegacyPeerScan (from_millis 30000) (Some (1014, []))) (started app_settings)) =
      set_index_ready true (set_peer_scan l (started app_settings)).
Proof.
  intros w c.
  assert (Hstep : ∀ settled t (s : ref_srv) key value,
    kv_step "app" settled (t, s) (t, (Redis.run t (other_put key value) s).1)).
  { intros. unfold other_put. rewrite run_silent. apply step_set. }
  apply (completion_sound 5 app_settings (2 ^ 53) (started app_settings)
    (set_index_ready true (set_peer_scan (LegacyPeerScan (from_millis 30000) (Some (1014, [])))
       (started app_settings))) w c.1).
  - reflexivity.
  - split.
    + exact one_key_layout.
    + repeat (apply Forall_cons; split; [apply Forall_singleton, step_keeps_layout;
        [reflexivity|intros; apply Hstep]|]); constructor.
  - intros key. repeat (apply Forall_cons; split; [apply Forall_singleton, step_keeps_key;
      [reflexivity|intros; apply Hstep]|]); constructor.
  - vm_compute. reflexivity.
  - vm_compute. discriminate.
  - reflexivity.
  - reflexivity.
Defined.

(** C30. Completion on demand ([complete_key_index]) is refused while an older
    build is registered, before it writes anything to the index; when it
    returns, every data key is in the index, the replica reads it, and no
    older build was registered when it began. *)
Theorem completion_on_demand {Srv : Type} `{RedisLaws Srv} `{PeerJson} `{Chrono}
    (fuel : nat) (b : inner) (T : Z) (w w1 : world Srv) (l : legacy_scan) (regs : list registration) :
  let prefix := Config.key_prefix (cfg b) in
  is_empty prefix = false →
  good T (layout_inv prefix) w →
  (∀ key, others_ok T (key_inv prefix key) (w_net w)) →
  list_registrations fuel prefix (forget (peer_scan (state b))) w = (w1, Ok (l, regs)) →
  (any_unindexed regs = true →
   complete_connected fuel b w = (w1, Ok (set_peer_scan l (state b), Err old_peer))) ∧
  (∀ w' r n, complete_connected fuel b w = (w', Ok (r, Ok n)) → w_time w' ≤ T →
   any_unindexed regs = false ∧ index_ready r = true ∧
   indexed (with_connection_manager prefix) (view (w_time w') (w_srv w'))).
Proof.
  intros prefix Hprefix Hw Ho Hlist.
  unfold complete_connected. unfold cbind at 1 5, cresult at 1 4.
  cbn [set_peer_scan peer_scan]. fold prefix. rewrite !Hlist. split; [by intros ->|].
  intros w' r n Hrun HT. destruct (any_unindexed regs) eqn:Hun; [done|]. split; [done|].
  unfold cbind at 1, now_ms in Hrun. unfold cbind at 1, cresult at 1 in Hrun.
  destruct (RedisKv.backfill_index _ fuel w1) as [w2 [k|e]] eqn:Hback; [|done].
  pose proof Hrun as Hflag. unfold cbind at 1, cresult at 1 in Hflag.
  destruct (RedisKv.mark_index_complete _ _ w2) as [w3 [[]|e]] eqn:Hmark; [|done].
  injection Hflag as <- <- <-. split; [done|].
  assert (HT1 : w_time w1 ≤ T).
  { pose proof (forwards_backfill prefix fuel 0 0 w1) as Hf. unfold RedisKv.backfill_index in Hback.
    fold prefix in Hback. unfold kv_of in Hback. fold prefix in Hback. rewrite Hback in Hf.
    assert (Hf2 : forwards (RedisKv.mark_index_complete (Srv := Srv) (kv_of b) (clock_ms w1)))
      by (unfold RedisKv.mark_index_complete, RedisKv.await; forwards).
    specialize (Hf2 w2). rewrite Hmark in Hf2. cbn in Hf, Hf2. lia. }
  pose proof (shrinks_listing prefix fuel (forget (peer_scan (state b))) w) as [pre Hnet].
  rewrite Hlist in Hnet. cbn [fst] in Hnet.
  eapply (backfill_then prefix Hprefix T fuel w1 w2 w3 k
    (RedisKv.mark_index_complete (kv_of b) (clock_ms w1)) (Ok tt)).
  - assert (Hfr : ∀ t s s', (∀ m, store_key prefix m → view t s' !! m = view t s !! m) →
                       layout_inv prefix t s → layout_inv prefix t s').
    { intros t s s' Hsame Hl.
      by destruct (kv_step_kept prefix Hprefix false (t, s) (t, s') (step_other prefix false t s s' Hsame) Hl)
        as [[Hl' _] _]. }
    pose proof (preserves_listing prefix Hprefix T (layout_inv prefix) (layout_stable prefix) Hfr
      fuel (forget (peer_scan (state b))) w) as Hp.
    rewrite Hlist in Hp. apply Hp; [exact HT1|exact Hw].
  - intros key. specialize (Ho key). rewrite Hnet in Ho. by apply Forall_app in Ho as [_ ?].
  - exact Hback.
  - intros key. apply (preserves_mark prefix Hprefix T (key_inv prefix key) (key_inv_stable prefix key)).
    apply (key_inv_frame prefix Hprefix key).
  - unfold RedisKv.mark_index_complete, RedisKv.await. forwards.
  - exact Hmark.
  - done.
Qed.

(** A connected backend. *)
Definition app_config : Config.config :=
  Config.deserialize (Config.RawConfig "redis://h:6379" None None None (Some "app") None None None None None
    None None None).

Definition app_backend : inner := build_inner (Ok tt) app_config None "r" "t".

Lemma completion_on_demand_witness :
  let w := World one_key 1000 0 [] in
  let c := complete_connected 5 app_backend w in
  ∃ r n, c.2 = Ok (r, Ok n) ∧ n = 1 ∧ index_ready r = true ∧
    indexed app_kv (view (w_time c.1) (w_srv c.1)).
Proof.
  intros w c.
  destruct (completion_on_demand (Srv := ref_srv) 5 app_backend (2 ^ 53) w
    (list_registrations 5 "app" (forget (peer_scan (state app_backend))) w).1
    (LegacyPeerScan (from_millis 30000) (Some (1000, []))) []) as [_ Hc].
  - reflexivity.
  - split; [exact one_key_layout|constructor].
  - intros key. constructor.
  - vm_compute. reflexivity.
  - assert (Hrun : ∃ r n, c = (c.1, Ok (r, Ok n)) ∧ n = 1)
      by (do 2 eexists; split; vm_compute; reflexivity).
    destruct Hrun as (r & n & Hrun & Hn). exists r, n.
    destruct (Hc c.1 r n Hrun) as (_ & Hr & Hi); [vm_compute; discriminate|].
    split; [by rewrite Hrun|]. split; [exact Hn|]. split; [exact Hr|exact Hi].
Defined.

(** C31. A turn that has no lock does not get it while somebody holds it, the
    replica's own node included, and then it leaves the stored data and the
    index as they are.  So a replica that gave its lock up after a failed
    renewal is shut out by its own renewal task for as long as that runs. *)
Theorem held_lock_stops_upkeep {Srv : Type} `{RedisLaws Srv} `{PeerJsonLaws} `{Chrono}
    (cfg : settings) (r : replica) (w : world Srv) (l : lease) (h : string) (dl : Z) :
  let prefix := key_prefix cfg in
  let (lk, fk) := lease_keys prefix "locks" SWEEP_LOCK in
  glob_escape prefix = prefix → is_empty prefix = false → quiet w →
  zset_ok (view (w_time w) (w_srv w)) (peers_index_key prefix) →
  0 ≤ w_time w ≤ 2 ^ 53 → as_millis (Z.min duration_max (sweep_interval cfg * 2)) ≤ 2 ^ 53 →
  represents (Srv := Srv) lk fk (view (w_time w) (w_srv w)) l → 0 ≤ fence l < 2 ^ 53 →
  held_by l = Some (h, dl) → held r = None →
  ∃ fuel s r',
    turn fuel cfg true r w = (set_srv s w, Ok r') ∧ held r' = None ∧
    represents (Srv := Srv) lk fk (view (w_time w) s) l ∧
    ∀ k, store_key prefix k → view (w_time w) s !! k = view (w_time w) (w_srv w) !! k.
Proof.
  cbn. intros Hlit Hp Hq Hz Ht Hint Hl Hf Hh Hr.
  set (prefix := key_prefix cfg) in *. set (lf := lease_keys prefix "locks" SWEEP_LOCK).
  pose proof (lease_key_elsewhere prefix "locks" SWEEP_LOCK) as Helse.
  pose proof (lease_key_ne_fence prefix "locks" SWEEP_LOCK) as Hne.
  destruct (list_registrations_quiet prefix w (peer_scan r)) as (fuel & s1 & l1 & regs & Hlist & Hv1 & _);
    [done..|].
  set (u := any_unindexed regs).
  set (r1 := let r1 := set_peer_scan l1 r in if u then set_seen (Some (w_time w)) r1 else r1).
  assert (Hr1 : held r1 = None) by (unfold r1; by destruct u).
  destruct (gate_quiet cfg u r1 (set_srv s1 w) Hq) as (s2 & Hgate & Hv2).
  set (b := negb u && _) in Hgate.
  change (set_srv s2 (set_srv s1 w)) with (set_srv s2 w) in Hgate. cbn [set_srv w_srv w_time] in Hv2.
  assert (Hsame : ∀ k, k ≠ peers_index_key prefix → k ≠ complete_key (with_connection_manager prefix) →
    view (w_time w) s2 !! k = view (w_time w) (w_srv w) !! k).
  { intros k Hk1 Hk2. rewrite Hv2, Hv1. destruct u; rewrite ?lookup_delete_ne by done; by apply purge_other. }
  assert (Hl2 : represents (Srv := Srv) lf.1 lf.2 (view (w_time w) s2) l).
  { unfold represents in *. cbn in *. rewrite !Hsame by (apply (Helse _ Hp); auto). done. }
  set (ms := lease_ms (Z.min duration_max (sweep_interval cfg * 2))).
  destruct (invoke_quiet_view (acquire_script lf.1 lf.2 (node_id cfg) ms) (set_srv s2 w)
    (view (w_time w) s2) (Ok None)) as (s3 & Hacq & Hv3); [done| |].
  { unfold acquire_script. cbn [set_srv w_srv w_time].
    by rewrite (get_lease lf.1 lf.2 (w_time w) _ l), Hh by exact Hl2. }
  cbn [set_srv w_srv w_time] in Hv3.
  exists fuel, s3, (set_index_ready b r1). rewrite Hv3. split; [|split; [done|split; [done|]]].
  - unfold turn. cbn [negb]. unfold cbind at 1, cresult. fold prefix. rewrite Hlist. fold u.
    unfold cbind at 1, instant. cbn [set_srv w_time]. fold r1.
    unfold cbind at 1. fold (set_srv s1 w). rewrite Hgate.
    unfold cbind at 1, renew_held. cbn [set_index_ready held]. rewrite Hr1. cbn [cret].
    unfold cbind at 1, acquire_lock. cbn [set_index_ready held]. rewrite Hr1. fold prefix.
    change (lease_keys prefix "locks" SWEEP_LOCK) with (lf.1, lf.2). cbv beta iota.
    unfold cbind at 1, cresult, try_acquire_async. fold (lease_ms (Z.min duration_max (sweep_interval cfg * 2))).
    fold ms. change (is_blank SWEEP_LOCK) with false. cbv beta iota.
    unfold cbind at 1, cmap_err. rewrite Hacq. cbn [map_err]. cbv beta iota.
    cbn [cret set_index_ready held]. rewrite Hr1. done.
  - intros k Hk. apply Hsame.
    + intros ->. by apply (peers_key_outside prefix Hp).
    + intros ->. by apply (marker_outside prefix Hp).
Qed.

(** [n1]'s own sweep lock, after it gave its handle up. *)
Definition sweep_lease : string * string := lease_keys "app" "locks" SWEEP_LOCK.
Definition swept : ref_srv := (Redis.run 1000 (acquire_script sweep_lease.1 sweep_lease.2 "n1" 60000) one_key).1.

Lemma held_lock_stops_upkeep_witness :
  ∃ fuel s r',
    turn fuel app_settings true (started app_settings) (World swept 1000 0 []) =
      (World s 1000 0 [], Ok r') ∧ held r' = None ∧
    represents (Srv := ref_srv) sweep_lease.1 sweep_lease.2 (view 1000 s) (Lease_ (Some ("n1", 61000)) 1) ∧
    ∀ k, store_key "app" k → view 1000 s !! k = view 1000 swept !! k.
Proof.
  apply (held_lock_stops_upkeep app_settings (started app_settings) (World swept 1000 0 [])
    (Lease_ (Some ("n1", 61000)) 1) "n1" 61000).
  - reflexivity.
  - reflexivity.
  - reflexivity.
  - vm_compute. exact I.
  - cbn. lia.
  - vm_compute. discriminate.
  - split; vm_compute; reflexivity.
  - cbn. lia.
  - reflexivity.
  - reflexivity.
Defined.

(** C10. Upkeep makes progress: on a quiet network, once no older build is
    registered and the replica has settled, one turn of any replica that finds
    the lock free completes the index - it returns, the flag is up, the marker
    is set, every data key is in the index, and no data key has changed. *)
Theorem upkeep_converges {Srv : Type} `{RedisLaws Srv} `{PeerJsonLaws} `{Chrono}
    (cfg : settings) (r : replica) (w : world Srv) (l : lease) :
  let prefix := key_prefix cfg in
  let kv := with_connection_manager prefix in
  let d := view (w_time w) (w_srv w) in
  let (lk, fk) := lease_keys prefix "locks" SWEEP_LOCK in
  glob_escape prefix = prefix → is_empty prefix = false → quiet w →
  0 ≤ w_time w ≤ 2 ^ 53 → clock_ms w < 2 ^ 53 →
  as_millis (Z.min duration_max (sweep_interval cfg * 2)) ≤ 2 ^ 53 →
  layout kv d → current prefix d → none_last prefix (w_time w) (clock_ms w) d →
  d !! complete_key kv = None →
  represents (Srv := Srv) lk fk d l → held_by l = None → 0 ≤ fence l < 2 ^ 53 →
  held r = None → settled cfg (w_time w) r = true → remembers_current (w_time w) (peer_scan r) →
  ∃ fuel s r',
    turn fuel cfg true r w = (set_srv s w, Ok r') ∧ index_ready r' = true ∧ is_Some (held r') ∧
    indexed kv (view (w_time w) s) ∧ is_Some (view (w_time w) s !! complete_key kv) ∧
    ∀ key, view (w_time w) s !! full_key kv key = d !! full_key kv key.
Proof.
  cbn. intros Hlit Hp Hq Ht Hc Hint Hl Hcur Hn Hm Hrep Hh Hf Hr Hset Hmem.
  by apply (turn_quiet (key_prefix cfg) Hlit Hp cfg r w l).
Qed.

(** A fleet of current builds over a store that was never indexed. *)
Definition upgraded : ref_srv :=
  {[ "app:x" := RVal (RStr "1") None;
     "app#peers" := RVal (RZset {[ "n1" := 61000 ]}) None;
     "apppeers/n1" := RVal (RStr (bits (encode new_build))) (Some 61000) ]}.

Definition string_data (k : string) (v : rval) : bool :=
  negb (starts_with "app:" k) || match r_obj v with RStr _ => true | _ => false end.

Definition current_peer (k : string) (v : rval) : bool :=
  negb (starts_with "apppeers/" k) ||
  match r_obj v with
  | RStr raw => match registration_from_str raw with Some reg => kv_index reg | None => true end
  | _ => true
  end.

Lemma upgraded_layout : layout app_kv (view 1000 upgraded).
Proof.
  assert (Hk : map_Forall (λ k v, string_data k v = true) (view 1000 upgraded))
    by (apply (bool_decide_unpack _); vm_compute; exact I).
  assert (Hi : view 1000 upgraded !! index_key app_kv = None) by (vm_compute; reflexivity).
  assert (He : view 1000 upgraded !! expiry_key app_kv = None) by (vm_compute; reflexivity).
  revert Hk Hi He. generalize (view 1000 upgraded) as d. intros d Hk Hi He.
  split; unfold zset_ok, index_of, expiry_of, zset_of; rewrite ?Hi, ?He; [done|done| | |].
  - intros key v Hv. specialize (Hk _ _ Hv). unfold string_data in Hk.
    destruct (r_obj v); [eauto|]. by rewrite orb_false_r in Hk.
  - intros m x Hm. by rewrite lookup_empty in Hm.
  - intros m x Hm. by rewrite lookup_empty in Hm.
Qed.

Lemma upgraded_current : current "app" (view 1000 upgraded).
Proof.
  assert (Hk : map_Forall (λ k v, current_peer k v = true) (view 1000 upgraded))
    by (apply (bool_decide_unpack _); vm_compute; exact I).
  assert (Hz : zset_ok (view 1000 upgraded) "app#peers") by (vm_compute; exact I).
  revert Hk Hz. generalize (view 1000 upgraded) as d. intros d Hk Hz. split; [exact Hz|].
  intros id reg Hreg. unfold reg_at in Hreg.
  destruct (d !! peer_key "app" id) as [v|] eqn:Hv; [|done]. specialize (Hk _ _ Hv).
  unfold current_peer in Hk. destruct v as [[raw|z] e]; [|done]. cbn in Hk, Hreg. by rewrite Hreg in Hk.
Qed.

Lemma upkeep_converges_witness :
  ∃ fuel s r',
    turn fuel app_settings true (started app_settings) (World upgraded 1000 0 []) =
      (World s 1000 0 [], Ok r') ∧ index_ready r' = true ∧ is_Some (held r') ∧
    indexed app_kv (view 1000 s) ∧ is_Some (view 1000 s !! "app#kv-index-complete") ∧
    ∀ key, view 1000 s !! full_key app_kv key = view 1000 upgraded !! full_key app_kv key.
Proof.
  apply (upkeep_converges app_settings (started app_settings) (World upgraded 1000 0 []) unheld).
  - reflexivity.
  - reflexivity.
  - reflexivity.
  - cbn. lia.
  - vm_compute. reflexivity.
  - vm_compute. discriminate.
  - exact upgraded_layout.
  - exact upgraded_current.
  - assert (Hd : due "app" 1000 (view 1000 upgraded) = ∅)
      by (apply (bool_decide_unpack _); vm_compute; exact I).
    intros m Hm. change (m ∈ due "app" 1000 (view 1000 upgraded)) in Hm. rewrite Hd in Hm. exfalso. revert Hm. apply not_elem_of_empty.
  - vm_compute. reflexivity.
  - split; vm_compute; reflexivity.
  - reflexivity.
  - cbn. lia.
  - reflexivity.
  - reflexivity.
  - by intros found id reg.
Defined.

(** C9. In a fleet of builds that write the index, nobody trusts an
    incomplete one: whatever the replica's task goes through - any number of
    turns, connections that fail, requests that are lost, other replicas that
    write, sweep, close the gate and complete the index in between - every
    promise made before is kept and those made on the way hold: when its flag
    is up, or the marker is set, every data key is in the index. *)
Theorem maintenance_keeps_trust {Srv : Type} `{RedisLaws Srv} `{PeerJson} `{Chrono}
    (T : Z) (fuel : nat) (cfg : settings) (connections : list bool) (deadline : Z)
    (r : replica) (w : world Srv) :
  let out := Maintenance.run fuel cfg connections deadline r w in
  let d' := view (w_time out.1) (w_srv out.1) in
  is_empty (key_prefix cfg) = false → trusted T cfg r w → w_time out.1 ≤ T →
  ∃ r', out.2 = Ok r' ∧ trusted T cfg r' out.1 ∧
    (index_ready r' = true ∨ is_Some (d' !! complete_key (with_connection_manager (key_prefix cfg))) →
     indexed (with_connection_manager (key_prefix cfg)) d').
Proof.
  cbn. intros Hp Hw HT.
  destruct (secures_run T fuel cfg Hp connections deadline r w HT Hw) as (r' & Hr & Ht).
  exists r'. split; [done|]. split; [done|]. pose proof Ht as [[Hl _] _ Hm Hf _].
  intros [Hi|Hi]; (split; [exact Hl|]); [exact (Hf Hi)|exact (Hm Hi)].
Qed.

(** Two turns of [n1] while another replica writes, closes the gate and
    loses [n1] a reply. *)
Definition other_close : script unit := silent (call (DEL (complete_key app_kv))).

Definition restless : list net_event :=
  [NetEvent 5 [other_put "c" "3"] Delivered; NetEvent 9 [other_close; other_put "x" "4"] Delivered;
   NetEvent 2 [] Delivered; NetEvent 1 [] Delivered; NetEvent 1 [other_put "y" "5"] LostReply].

Lemma put_minds key value :
  store_key "app" (full_key app_kv key) → minds (Srv := ref_srv) "app" (other_put key value).
Proof.
  intros Hk t s. unfold other_put. rewrite run_silent.
  apply aware_writer; [reflexivity|apply step_set|]. unfold SET_LUA. within_script;
    first [apply (complete_key_outside "app" eq_refl); first [exact Hk|by left|by right; left]].
Qed.

Lemma close_minds : minds (Srv := ref_srv) "app" other_close.
Proof. intros t s. unfold other_close. rewrite run_silent. by apply aware_unmark. Qed.

Lemma restless_writers T : writers (Srv := ref_srv) T app_settings restless.
Proof.
  assert (Hput : ∀ key value t s,
    kv_step "app" false (t, s) (t, (Redis.run t (other_put key value) (s : ref_srv)).1)).
  { intros. unfold other_put. rewrite run_silent. apply step_set. }
  assert (Hclose : ∀ t s, kv_step "app" false (t, s) (t, (Redis.run t other_close (s : ref_srv)).1)).
  { intros t s. apply step_other. intros m Hm.
    apply (run_view_outside (λ k, ¬ store_key "app" k)); [|tauto].
    apply within_silent, within_call. cbn. by apply (marker_outside "app"). }
  apply writers_steps; [reflexivity|].
  repeat first [apply Forall_nil_2|apply Forall_cons_2]; auto.
Qed.

Lemma maintenance_keeps_trust_witness :
  let out := Maintenance.run 5 app_settings [true; false; true] 0 (started app_settings)
               (World upgraded 1000 0 restless) in
  let d' := view (w_time out.1) (w_srv out.1) in
  ∃ r', out.2 = Ok r' ∧ trusted (2 ^ 53) app_settings r' out.1 ∧
    index_ready r' = true ∧ indexed app_kv d'.
Proof.
  intros out d'.
  assert (Hup : match out.2 with Ok r' => index_ready r' | Err _ => false end = true) by (vm_compute; reflexivity).
  enough (Hr : ∃ r', out.2 = Ok r' ∧ trusted (2 ^ 53) app_settings r' out.1 ∧
    (index_ready r' = true ∨ is_Some (d' !! complete_key app_kv) → indexed app_kv d')).
  { destruct Hr as (r' & Hr & Ht & Hi). rewrite Hr in Hup. exists r'.
    split; [exact Hr|]. split; [exact Ht|]. split; [exact Hup|]. apply Hi. left. exact Hup. }
  apply (maintenance_keeps_trust (2 ^ 53) 5 app_settings [true; false; true] 0 (started app_settings)
    (World upgraded 1000 0 restless)).
  - reflexivity.
  - split.
    + split; [exact upgraded_layout|]. apply minds_heeds.
      assert (Hput : ∀ key value, minds (Srv := ref_srv) "app" (other_put key value))
        by (intros; apply put_minds; right; right; by eexists).
      pose proof close_minds.
      repeat first [apply Forall_nil_2|apply Forall_cons_2]; auto.
    + apply restless_writers.
    + assert (Hn : view 1000 upgraded !! complete_key app_kv = None) by (vm_compute; reflexivity).
      intros Hm. change (is_Some (view 1000 upgraded !! complete_key app_kv)) in Hm.
      rewrite Hn in Hm. exfalso. revert Hm. apply is_Some_None.
    + discriminate.
    + discriminate.
  - vm_compute. discriminate.
Defined.
