(* ===== verification/BackendProperties.v ===== *)
(** * Properties of the coordinator ([src/src/lib.rs]): the store
    through the FFI, retries, the peer watch, shutdown *)

From S2P Require Import Prelude Redis RedisRef Client DbFacts Keys KvIndex KvStore KvSpec KvOps KvRef Config Footprint Peer PeerRun PeerNet PeerProperties Maintenance Backend Service Watch Departure UpkeepProperties.

(** ** The store's calls *)

(** C3. The coordinator's key/value calls, over any history of them with
    pauses, alone on the network, each with the outcome that an attempt to
    connect would have: until an attempt succeeds every call fails with that
    attempt's error and asks the server nothing; from then on no attempt is
    made, and every answer and the stored data are those of the store's
    contract, TTLs as the FFI's milliseconds. *)
Theorem coordinator_serves_store {Srv : Type} `{RedisLaws Srv}
    (b : inner) (rqs : requests) (t skew : Z) (s : Srv) (m : model) :
  let prefix := Config.key_prefix (cfg b) in
  let P := srv_policy (Srv := Srv) in
  is_empty prefix = false → 0 ≤ t →
  indexed (with_connection_manager prefix) (view t s) → stores prefix (view t s) m →
  requests_in_range P t skew (conn_cell b) rqs m →
  let '(up, m', xs) := spec_requests P t skew (conn_cell b) rqs m in
  ∃ s' b' rs,
    run_requests rqs b (World s t skew []) = (World s' (requests_time t rqs) skew [], Ok (b', rs)) ∧
    Forall2 as_expected rs xs ∧
    cfg b' = cfg b ∧ conn_cell b' = up ∧
    stores prefix (view (requests_time t rqs) s') m'.
Proof. intros prefix P. by apply requests_refine. Qed.

(** The server is down at first; a key expires in a pause; a later attempt
    would fail, but is not made. *)
Definition late_start : requests :=
  [(0%N, Err "refused", KvPut "a" "0" None); (5%N, Ok tt, KvPut "a" "1" (Some 50));
   (10%N, Err "refused", KvPutIfAbsent "a" "2" None); (60%N, Ok tt, KvPutIfAbsent "a" "3" None);
   (0%N, Ok tt, KvIncr "n" 7 (Some 0)); (1%N, Err "refused", KvIncrFloor "n" 1 100 (Some 90));
   (0%N, Ok tt, KvExpire "a" (Some 30)); (40%N, Ok tt, KvDelete "n"); (40%N, Ok tt, KvGet "a")].

Lemma coordinator_serves_store_witness :
  let b := build_inner (Err "refused") app_config None "r" "t" in
  let xs := (spec_requests (srv_policy (Srv := ref_srv)) 1000 3 false late_start ∅).2 in
  head xs = Some (Refused "refused") ∧
  xs !! 8%nat = Some (Served (Some (ResEntry None))) ∧
  ∃ s' b' rs,
    run_requests late_start b (World (∅ : ref_srv) 1000 3 []) =
      (World s' (requests_time 1000 late_start) 3 [], Ok (b', rs)) ∧
    Forall2 as_expected rs xs ∧ conn_cell b' = true.
Proof.
  intros b xs. split; [by vm_compute|]. split; [by vm_compute|].
  assert (Hup : (spec_requests (srv_policy (Srv := ref_srv)) 1000 3 false late_start ∅).1.1 = true)
    by (by vm_compute).
  pose proof (coordinator_serves_store b late_start 1000 3 (∅ : ref_srv) ∅) as Hs.
  cbv zeta in Hs. change (conn_cell b) with false in Hs. change (Config.key_prefix (cfg b)) with "app" in Hs.
  subst xs. destruct (spec_requests _ _ _ _ _ _) as [[up m'] xs]. cbn in Hup. subst up.
  destruct Hs as (s' & b' & rs & Hrun & Hx & _ & Hc & _).
  - reflexivity.
  - lia.
  - rewrite view_empty. apply indexed_empty.
  - apply stores_empty.
  - vm_compute. repeat split; try discriminate; intros z [= <-]; repeat split; discriminate.
  - exists s', b', rs. by split; [|split].
Defined.

(** ** Retries *)

(** A jittered retry waits between 80% and 120% of the base, less than a
    millisecond more for rounding. *)
Theorem jitter_window (base entropy : Z) :
  0 ≤ entropy → 0 ≤ as_millis base < 2 ^ 63 →
  4 * as_millis base ≤ 5 * as_millis (jittered base entropy) ≤ 6 * as_millis base + 4.
Proof.
  intros He Hb. unfold jittered. set (b := as_millis base) in *.
  rewrite (Z.mod_small b) by lia. rewrite (Z.mod_small (b * 2)) by lia.
  pose proof (Z.div_mod (b * 2) 5). pose proof (Z.mod_pos_bound (b * 2) 5).
  pose proof (Z.div_mod b 5). pose proof (Z.mod_pos_bound b 5).
  destruct (b * 2 / 5 =? 0) eqn:E; [fold b; lia|]. apply Z.eqb_neq in E.
  pose proof (Z.mod_pos_bound entropy (b * 2 / 5 + 1)).
  rewrite as_from_millis, Z.mod_small; lia.
Qed.

Lemma jitter_window_witness :
  4 * as_millis (from_millis 500) ≤ 5 * as_millis (jittered (from_millis 500) 999999999) ≤
    6 * as_millis (from_millis 500) + 4.
Proof. apply jitter_window; vm_compute; [discriminate|split; [discriminate|reflexivity]]. Defined.

(** ** The watch's events *)

(** C34. A watch tells what it reads.  Whatever the network, the attempts to
    connect and the receiver do, its task returns, and the events are
    determined turn by turn by the listings its own run gets: a turn without a
    connection or whose listing fails tells nothing, any other tells - up to
    where the receiver goes - exactly how the named nodes of its listing
    differ from those of the last one that succeeded: none joins that was
    there, none leaves that was not or is still there, and all the changes are
    told.  So a receiver that is there to the end knows exactly the nodes of
    the last successful listing. *)
Theorem watch_replays {Srv : Type} `{RedisServer Srv} `{PeerJson} (fuel : nat) (turns : list watcher)
    (b : inner) (w : world Srv) :
  ∃ b' m evs,
    (watch_task fuel turns b ∅ w).2 = Ok (b', m, evs) ∧
    watched turns (readings fuel turns b w) ∅ evs ∧
    is_Some (replay evs ∅) ∧
    (Forall stays_open turns →
       replay evs ∅ = Some (last_ids (readings fuel turns b w) ∅) ∧
       dom m = last_ids (readings fuel turns b w) ∅).
Proof.
  destruct (watch_task_reads fuel turns b ∅ w) as (b' & m & evs & Hrun & Hw & Hopen).
  rewrite dom_empty_L in Hw. destruct (watched_replay _ _ _ _ Hw) as [Hr Hids].
  exists b', m, evs. split; [done|]. split; [done|]. split; [done|]. intros Ho. split; [by apply Hids|].
  pose proof (replay_polls (readings fuel turns b w) ∅) as Hp. rewrite (Hopen Ho), dom_empty_L in Hp.
  destruct Hp as [Hm _]. pose proof (Hids Ho) as Hi. congruence.
Qed.

Lemma watch_replays_witness :
  let turns := [Polls (Err "refused") None 0; Polls (Ok tt) None 5; Polls (Ok tt) None 0] in
  let b := build_inner (Err "refused") app_config None "r" "t" in
  ∃ b' m evs,
    (watch_task 5 turns b ∅ (World fleet 1000 0 [])).2 = Ok (b', m, evs) ∧
    watched turns (readings 5 turns b (World fleet 1000 0 [])) ∅ evs ∧
    replay evs ∅ = Some (dom m).
Proof.
  intros turns b.
  destruct (watch_replays 5 turns b (World fleet 1000 0 [])) as (b' & m & evs & Hrun & Hw & _ & Ho).
  exists b', m, evs. split; [exact Hrun|]. split; [exact Hw|]. destruct Ho as [Hr Hm]; [repeat constructor|].
  rewrite Hr. f_equal. symmetry. exact Hm.
Defined.

(** C35. No watcher is told that a registered node left: while its
    registration lives - others register, leave, list and purge, requests and
    replies are lost, the node registers again - the watch never reports it
    gone, and whoever has been told anything has been told that it is there. *)
Theorem watch_keeps_the_living {Srv : Type} `{RedisLaws Srv} `{PeerJson} (id addr : string)
    (roles : list string) (T dl sc : Z) (fuel : nat) (turns : list watcher) (b : inner) (w : world Srv) :
  let prefix := Config.key_prefix (cfg b) in
  is_empty id = false → 0 ≤ w_time w →
  present prefix id addr roles dl sc (view (w_time w) (w_srv w)) →
  T < dl → 0 < sc → T + w_skew w < sc →
  Forall (λ ev, Forall (spares (Srv := Srv) prefix id addr roles (w_time w) T dl sc) (ev_others ev)) (w_net w) →
  w_time (watch_task fuel turns b ∅ w).1 ≤ T →
  ∃ b' m evs,
    (watch_task fuel turns b ∅ w).2 = Ok (b', m, evs) ∧ Left id ∉ evs ∧
    (Forall stays_open turns → evs ≠ [] → ∃ ids, replay evs ∅ = Some ids ∧ id ∈ ids).
Proof.
  intros prefix Hid Ht Hpres Hdl Hpos Hs Hnet HT.
  destruct (watch_task_reads fuel turns b ∅ w) as (b' & m & evs & Hrun & _ & Hopen).
  exists b', m, evs. split; [exact Hrun|].
  assert (Hg : good T (lives prefix id addr roles (w_time w) T dl sc) w).
  { split; [by split|]. eapply Forall_impl; [exact Hnet|]. intros ev Hev. cbn in Hev.
    eapply Forall_impl; [exact Hev|]. intros scr. by apply spares_keeps. }
  destruct (watch_lives prefix id addr roles Hid (w_time w) T dl sc Hdl fuel turns b ∅ Hpos eq_refl w Hs HT Hg)
    as [_ Htold].
  destruct (Htold _ Hrun) as [Hl Hm]. split; [exact Hl|]. intros Ho Hne.
  pose proof (replay_polls (readings fuel turns b w) ∅) as Hp. rewrite dom_empty_L, (Hopen Ho) in Hp. destruct Hp as [Hr _].
  exists (dom m). split; [exact Hr|]. apply elem_of_dom. by destruct (Hm Ho) as [[? _]|?].
Qed.

(** Every second, while [n1] registers again, a reply is lost and another
    node leaves. *)
Definition watched_backend : inner :=
  build_inner (Ok tt) (Config.deserialize (Config.RawConfig "redis://h:6379" None None None (Some "app") None None
    None None (Some 1000) None None None)) None "r" "t".

Definition watched_traffic : list net_event :=
  [NetEvent 10 [silent (pcall (SET "apppeers/n1" (bits (encode new_build)) false (Some 60000)));
                silent (pcall (ZADD "app#peers" 61010 "n1"))] LostReply;
   NetEvent 20 [silent (pcall (ZREMRANGEBYSCORE "app#peers" NegInf (Incl 1070)))] Delivered;
   NetEvent 30 [silent (pcall (DEL "apppeers/n2")); silent (pcall (ZREM "app#peers" "n9"))] Delivered].

Lemma watch_keeps_the_living_witness :
  let turns := [Polls (Err "refused") None 0; Polls (Ok tt) None 5; Polls (Ok tt) None 0] in
  let w := World fleet 1000 (-20) watched_traffic in
  ∃ b' m evs,
    (watch_task 5 turns watched_backend ∅ w).2 = Ok (b', m, evs) ∧ Left "n1" ∉ evs ∧
    ∃ ids, replay evs ∅ = Some ids ∧ "n1" ∈ ids.
Proof.
  intros turns w.
  assert (Hevs : match (watch_task 5 turns watched_backend ∅ w).2 with Ok (_, _, _ :: _) => True | _ => False end)
    by (vm_compute; exact I).
  destruct (watch_keeps_the_living "n1" "redis://h" [] 60000 61000 61000 5 turns watched_backend w)
    as (b' & m & evs & Hrun & Hl & Hids).
  - reflexivity.
  - cbn. lia.
  - split; [exact fleet_set| |].
    + exists (bits (encode new_build)), 61000, "late". vm_compute. repeat split; discriminate.
    + exists 61000. vm_compute. split; [reflexivity|discriminate].
  - lia.
  - lia.
  - cbn. lia.
  - assert (Hcmd : ∀ c, other_peer_cmd "app" "n1" 1080 c →
      spares (Srv := ref_srv) "app" "n1" "redis://h" [] 1000 60000 61000 61000 (silent (pcall c))).
    { intros c Hc. left. exists 80. split; [lia|]. by apply other_cmd_leaves. }
    repeat first [apply Forall_nil_2|apply Forall_cons_2].
    + right; left. exists (bits (encode new_build)), "late", 60000. vm_compute. repeat split; discriminate.
    + right; right. exists 61010. split; [reflexivity|lia].
    + apply Hcmd. cbn. split; [reflexivity|lia].
    + apply Hcmd. vm_compute. repeat split; discriminate.
    + apply Hcmd. vm_compute. repeat split; discriminate.
  - vm_compute. discriminate.
  - exists b', m, evs. split; [exact Hrun|]. split; [exact Hl|]. apply Hids; [repeat constructor|].
    rewrite Hrun in Hevs. intros ->. exact Hevs.
Defined.

(** ** Shutdown *)

(** C19. Shutdown stops the tasks whatever the network does, and on a quiet
    network takes the node out of the registry at once - its key and its
    member of the set, and nothing else - if it was connected and refreshing;
    otherwise it asks the server nothing, and so does a second shutdown. *)
Theorem shutdown_departs {Srv : Type} `{RedisLaws Srv} `{PeerJson} (b : inner) (w : world Srv) :
  let prefix := Config.key_prefix (cfg b) in
  let d := view (w_time w) (w_srv w) in
  let b' := inner_shutdown b in
  (draining b' = true ∧ peer_refresh_abort b' = false ∧ kv_maintenance_abort b' = false) ∧
  (shutdown b w).2 = Ok b' ∧
  (∀ w1, shutdown b' w1 = (w1, Ok b')) ∧
  (quiet w → zset_ok d (peers_index_key prefix) →
   ∃ s, shutdown b w = (set_srv s w, Ok b') ∧
     if conn_cell b && peer_refresh_abort b then
       reg_at prefix (view (w_time w) s) (node b) = None ∧
       (∀ id, zset_of (view (w_time w) s) (peers_index_key prefix) !! id =
              if decide (id = node b) then None else zset_of d (peers_index_key prefix) !! id) ∧
       ∀ k, k ≠ peer_key prefix (node b) → k ≠ peers_index_key prefix → view (w_time w) s !! k = d !! k
     else s = w_srv w).
Proof.
  intros prefix d b'. split; [done|]. split; [|split].
  - unfold shutdown. cbn [inner_shutdown conn_cell]. destruct (conn_cell b && peer_refresh_abort b); [|done].
    unfold cbind, cresult. by destruct (deregister_peer _ _ w) as [w1 r].
  - intros w1. unfold shutdown. cbn. by rewrite andb_false_r.
  - intros Hq Hz. unfold shutdown. cbn [inner_shutdown conn_cell].
    destruct (conn_cell b && peer_refresh_abort b); [|by exists (w_srv w); destruct w].
    cbn [inner_shutdown Backend.cfg node]. fold prefix.
    destruct (deregister_quiet prefix (node b) w Hq Hz) as (s & Hrun & Hv). exists s.
    split; [unfold cbind, cresult; by rewrite Hrun|]. fold d in Hv. rewrite Hv.
    split; [|split].
    + unfold reg_at. by rewrite lookup_zrem_ne, lookup_delete_eq by apply peer_key_ne_index.
    + intros id. rewrite zset_of_zrem. case_decide as Hid.
      * subst id. by rewrite lookup_delete_eq.
      * rewrite lookup_delete_ne by done. f_equal. apply zset_of_same, lookup_delete_ne, peer_key_ne_index.
    + intros k Hk1 Hk2. rewrite lookup_zrem_ne, lookup_delete_ne by done. done.
Qed.

Definition n1_backend : inner :=
  Inner app_config "n1" "t" true true true true false (started app_settings).

Lemma shutdown_departs_witness :
  let w := World fleet 1000 0 [] in
  ∃ s, shutdown n1_backend w = (set_srv s w, Ok (inner_shutdown n1_backend)) ∧
    reg_at "app" (view 1000 s) "n1" = None.
Proof.
  intros w. destruct (shutdown_departs n1_backend w) as (_ & _ & _ & Hs).
  destruct Hs as (s & Hrun & Hreg & _); [reflexivity|exact fleet_set|].
  exists s. split; [exact Hrun|exact Hreg].
Defined.

(** C18. A departure is seen.  When a connected, refreshing backend shuts down
    on a quiet network, then from that moment, until the node registers again
    and whatever else the others do, requests and replies lost or late: the
    watch of any other backend never reports that it joined; if it reports
    anything at all it has told that the node is not there - it left, if it
    had been there - and with the server at hand the next poll of a watch that
    knew the node reports that it left. *)
Theorem departure_reported {Srv : Type} `{RedisLaws Srv} `{PeerJson} (b0 b : inner) (w : world Srv) :
  let prefix := Config.key_prefix (cfg b0) in
  let id := node b0 in
  glob_escape prefix = prefix → Config.key_prefix (cfg b) = prefix →
  conn_cell b0 && peer_refresh_abort b0 = true → quiet w →
  zset_ok (view (w_time w) (w_srv w)) (peers_index_key prefix) →
  unremembered id (peer_scan (state b)) →
  ∃ w1, shutdown b0 w = (w1, Ok (inner_shutdown b0)) ∧
  (∀ fuel turns last w2,
     w_srv w2 = w_srv w1 → w_time w1 ≤ w_time w2 →
     Forall (λ ev, Forall (keeps_out (Srv := Srv) prefix id) (ev_others ev)) (w_net w2) →
     ∃ b' m evs,
       (watch_task fuel turns b last w2).2 = Ok (b', m, evs) ∧
       (∀ p, Joined p ∈ evs → peer_node_id p ≠ id) ∧
       (Forall stays_open turns →
          evs = [] ∧ m = last ∨ m !! id = None ∧ (is_Some (last !! id) → Left id ∈ evs))) ∧
  ∀ t skew last waits, w_time w1 ≤ t → is_Some (last !! id) →
    ∃ fuel b' m evs,
      (watch_task fuel [Polls (Ok tt) None waits] b last (World (w_srv w1) t skew [])).2 = Ok (b', m, evs) ∧
      Left id ∈ evs.
Proof.
  intros prefix id Hlit Hcfg Hup Hq Hok Hmem.
  destruct (deregister_quiet prefix id w Hq Hok) as (s & Hrun & Hv).
  assert (Hgone : gone (Srv := Srv) prefix id (w_time w) s).
  { pose proof (peer_key_ne_index prefix id) as Hne. unfold gone. rewrite Hv. split.
    - by apply zset_ok_zrem, zset_ok_delete_ne.
    - by rewrite zset_of_zrem, lookup_delete_eq.
    - by rewrite lookup_zrem_ne, lookup_delete_eq. }
  exists (set_srv s w). split; [|split; cbn [set_srv w_srv w_time]].
  - unfold shutdown. cbn [inner_shutdown conn_cell]. rewrite Hup. cbn [inner_shutdown Backend.cfg node].
    fold prefix id. unfold cbind, cresult. by rewrite Hrun.
  - intros fuel turns last w2 Hs2 Ht2 Hnet.
    destruct (watch_task_reads fuel turns b last w2) as (b' & m & evs & Hw & _ & Hopen).
    exists b', m, evs. split; [exact Hw|]. set (T := w_time (watch_task fuel turns b last w2).1).
    assert (Hg2 : good T (gone prefix id) w2).
    { split; [rewrite Hs2; by eapply gone_stable|]. eapply Forall_impl; [exact Hnet|]. intros ev Hev. cbn in Hev.
      eapply Forall_impl; [exact Hev|]. intros scr. apply keeps_out_keeps. }
    destruct (watch_gone prefix id T Hlit fuel turns b last Hcfg Hmem w2 (Z.le_refl T) Hg2) as [_ Htold].
    destruct (Htold _ Hw) as [Hj Ho]. split; [exact Hj|]. intros Hturns.
    destruct (Ho Hturns) as [?|Hnone]; [by left|]. right. split; [done|]. intros Hlast.
    pose proof (replay_polls (readings fuel turns b w2) last) as Hr. rewrite (Hopen Hturns) in Hr. destruct Hr as [Hr _].
    eapply replay_left; [exact Hr|by apply elem_of_dom|by apply not_elem_of_dom].
  - intros t skew last waits Ht Hlast.
    apply (poll_reports prefix id t Hlit b last waits (World s t skew [])); try done. by eapply gone_stable.
Qed.

(** [n2] knows [n1]; after [n1] left another node registers, a reply is lost
    and [n1]'s departure is repeated. *)
Definition n2_backend : inner :=
  Inner app_config "n2" "t" true true true true false (started app_settings).

Definition known_n1 : gmap string cluster_peer := {["n1" := ClusterPeer "n1" "redis://h" "late" []]}.

Definition departed_traffic : list net_event :=
  [NetEvent 10 [silent (pcall (SET "apppeers/n3" (bits (encode new_build)) false (Some 60000)));
                silent (pcall (ZADD "app#peers" 61010 "n3"))] (Late 4);
   NetEvent 20 [silent (pcall (DEL "apppeers/n1")); silent (pcall (ZREM "app#peers" "n1"))] LostReply].

Lemma departure_reported_witness :
  ∃ w1, shutdown n1_backend (World fleet 1000 0 []) = (w1, Ok (inner_shutdown n1_backend)) ∧
  (∃ b' m evs,
     (watch_task 5 [Polls (Ok tt) None 0; Polls (Ok tt) None 3] n2_backend known_n1
        (World (w_srv w1) 1500 7 departed_traffic)).2 = Ok (b', m, evs) ∧
     ∀ p, Joined p ∈ evs → peer_node_id p ≠ "n1") ∧
  ∃ fuel b' m evs,
    (watch_task fuel [Polls (Ok tt) None 2] n2_backend known_n1 (World (w_srv w1) 2000 (-3) [])).2 =
      Ok (b', m, evs) ∧ Left "n1" ∈ evs.
Proof.
  destruct (departure_reported n1_backend n2_backend (World fleet 1000 0 [])) as (w1 & Hrun & Hwatch & Hpoll).
  - vm_compute. reflexivity.
  - reflexivity.
  - reflexivity.
  - reflexivity.
  - exact fleet_set.
  - intros at_ found reg Hl. discriminate Hl.
  - exists w1. split; [exact Hrun|].
    assert (Hw1 : w_time w1 = 1000).
    { assert (He : w_time (shutdown n1_backend (World fleet 1000 0 [])).1 = 1000) by (vm_compute; reflexivity).
      by rewrite Hrun in He. }
    split.
    + destruct (Hwatch 5%nat [Polls (Ok tt) None 0; Polls (Ok tt) None 3] known_n1
        (World (w_srv w1) 1500 7 departed_traffic)) as (b' & m & evs & Hw & Hj & _).
      * reflexivity.
      * rewrite Hw1. cbn. lia.
      * repeat first [apply Forall_nil_2|apply Forall_cons_2]; apply cmd_keeps_out; vm_compute; repeat split;
          discriminate.
      * exists b', m, evs. split; [exact Hw|exact Hj].
    + apply Hpoll; [lia|]. vm_compute. by eexists.
Defined.
